(* ===== verification/_CoqProject ===== *)
-Q . S2P
Prelude.v
Quote.v
Json.v
TopoSort.v
Manager.v
Lifecycle.v
ModTest.v
Diagnostics.v
App.v
WorkerPool.v
Provenance.v
Hex.v
Paths.v
Regex.v
GoStrings.v
GoFlag.v
Approval.v
Envelope.v
Classify.v
VerifyPlan.v
Glob.v
DiffScan.v
Contract.v
ProtectedPaths.v
Discovery.v
AgentDocs.v
ModBoundary.v
RateLimit.v
Lease.v
Code.v
Threads.v
Health.v
GrpcErrors.v
Servers.v
JetStream.v
JetStreamBus.v
RabbitBus.v
NatsBus.v
WatermillBus.v
Receiver.v
PRComment.v
PRWorker.v
FileSystem.v
SemIndex.v
PatchApply.v
PatchSafety.v
AgentCli.v
ReviewAI.v
ReviewEngine.v
Render.v
Scaffold.v
Commands.v
Firestore.v
Postgres.v
McpServer.v
GithubAuth.v
ReviewQueue.v
Tenants.v
PRService.v
Otel.v
Tracing.v
