(* ===== verification/Prelude.v ===== *)
(** * Modulex: a verification development

    Modulex (src/) is a Go framework for modular services.  A [Manager]
    registers modules and services, starts the modules in dependency order,
    supervises background tasks and shuts everything down again; around it are
    an application runner, a worker pool, event buses on message brokers, and
    tooling that governs what coding agents may do to a repository: approvals,
    patches, verification, review, and a hosted service that reviews pull
    requests.

    ** Parts and files

    Shared: [Prelude] (errors as symbolic values with [errors.Is] and
    [errors.Join], [strings.TrimSpace], [sort.Strings], sorted map keys, the
    tactic [go_cases]); [Quote] ([strconv.Quote]); [Hex]; [Paths] ([path/filepath]
    on slash-separated paths); [GoStrings] (package strings and 64-bit integer
    parsing); [GoFlag] (package flag and the parsing of its values); [Json] (an
    executable JSON parser and printer of objects); [Regex] (the regular expressions the code uses, as a backtracking
    matcher with Go's leftmost-first choice); [Glob] ([path.Match] and double
    stars); [Code] (programs as trees of atomic calls, protocols they follow,
    partial runs); [Threads] (systems of such programs over one state, and wait
    groups).

    The framework:
    - [TopoSort]: [Manager.sortModules] and the depth-first [topoSorter]
      (modulex.go), over any type of modules with a name and dependencies (the
      class [Sortable], which [Manager.Module_] instantiates).
    - [Manager]: the [Manager]'s state and every operation that is one critical
      section: registration, the service locator, typed keys (wire.go), config
      (typedconfig.go), health and readiness checks, [Go] and the end of a
      supervised task.  [mgr_step] is the union of these steps, [mgr_inv] their
      invariant.
    - [Lifecycle]: [InitModules], [StartModules], [StopModules] and all they
      call, in a state monad over a [World].
    - [Diagnostics]: snapshots (diagnostics.go) and the Mermaid export.
    - [App]: [app.Run] (app/app.go), on top of [Lifecycle].
    - [WorkerPool]: workerpool/workerpool.go as a concurrent step system.
    - [Health]: the health and readiness handlers (httpx/httpx.go) and the gRPC
      health service (grpc/health.go); [GrpcErrors]: the translation of errors
      (grpc/errors.go); [Servers]: the gRPC server's [Start] and [Stop]
      (grpc/server.go) as a system of threads, and [httpx.Serve].
    - [Otel]: the tracing middleware, the attributes of spans and the settings
      of the exporter (otel/); [Tracing]: the tracer of the manager and its
      adapter, and how a trace travels with calls (grpc/trace.go) and with the
      messages of the buses, over an interface of carriers.
    - [ModTest]: the assertions of the test kit (modtest/), run on [Lifecycle].

    The event buses, each a system of threads ([Threads]):
    - [JetStream]: the durable consume loop of nats/jetstream.go as a program
      of broker calls, with the durable vocabulary of modulex.go; and
      [JetStreamBus]: its subscriptions and shutdown.
    - [RabbitBus] (rabbitmq/rabbitmq.go), [NatsBus] (nats/nats.go),
      [WatermillBus] (watermill/watermill.go), with internal/handlerpanic and
      internal/busshutdown.

    Governance of agents:
    - [Provenance], [Envelope]: the provenance schema, its validation and the
      redaction of secrets (provenance/).
    - [Approval]: the broker, its histories and its file store (approval/).
    - [FileSystem], [PatchApply], [PatchSafety]: a file system of inodes and
      links, patchapply/ on it, and its theorems.
    - [Classify]: discovery/classify.go; [Discovery]: the walk of a repository
      (discovery/discovery.go) over a tree of entries; [SemIndex]: semindex/.
    - [VerifyPlan]: the planner and runner of verify/.
    - [Contract]: the repository contract (contract/); [Render]: the texts of
      contracts and results (contract/render.go, verify/render.go).
    - [DiffScan], [ProtectedPaths]: review/.
    - [AgentDocs]: the instruction documents of agentdocs/.
    - [ModBoundary]: the analyzer of module boundaries, tools/modboundary.
    - [AgentCli]: the commands of tools/agentcli/agentcli.go, with agentreview/
      and tools/provenanceci, composed from the models above.
    - [McpServer]: the tools of tools/mcpserver, over the same models.
    - [Scaffold]: the module generator, tools/scaffold.
    - [Commands]: the binaries modulex, scaffold and provenanceci, from their
      arguments to their output and exit code, on [GoFlag] and the models above.

    The hosted review service (services/prreview):
    - [RateLimit], [Lease] (the lease decisions and stores), [Receiver] (the
      webhook handler), [PRComment] (the comment composed), [PRWorker] (the
      worker and the system of many workers over the interface [JobStore]).
    - [Firestore] and [Postgres]: the two durable stores; [Postgres] is a system
      of concurrent transactions at read committed, with advisory locks.
    - [ReviewEngine] (engine/engine.go: the hosted checks and the fetch of a
      checkout), [ReviewAI] (ai/ai.go: the request to a model, its address check),
      [GithubAuth] (githubauth/: tokens and comments), [ReviewQueue] (queue/).
    - [Tenants] (tenants/: the AI settings of an installation and their
      decoding), [PRService] (cmd/, internal/bootstrap: what the two processes
      read from the environment, refuse and start, and the task endpoint).

    ** How the code is represented

    Go maps are [gmap]s; where the code iterates over a map the result is
    shown not to depend on the order.  A nil-able error is [option error].
    Times and durations are integers of nanoseconds; a context is the time at
    which it ends, if ever, and its error.  Machine integers are integers with
    [wrap64] where they can overflow.  Modules' [Name] and [DependsOn] are
    constant; their callbacks, hooks and the event bus are arbitrary programs
    of registry calls, passing time and context checks.  In [Lifecycle] and
    [App] a method that holds no lock gives way to the environment ([yield]):
    an oracle lists what the other goroutines do at each such point, and the
    theorems hold for every oracle.  The worker pool, the event buses and the
    review workers are finer: every atomic operation of every goroutine is a
    step, and theorems are about all reachable states.  Brokers, handlers,
    remote services and contexts answer arbitrarily there.

    Parameters: random tokens, SHA-256, HMAC, the JSON and YAML codecs, the
    tables of runes outside ASCII (printable, letters, case), the names of
    temporary files, git's output, the tools installed, the clock, base64, URL
    parsing and name resolution, text/template and gofmt, the hash of advisory
    locks and the resolution of stored times, propagators and exporters of
    OpenTelemetry, fractions of parsed durations.  [PatchApply] runs under a fault
    model in which any one file system call of the batch may fail, an
    [os.MkdirAll] also half way.  [RabbitBus] has one bus on a channel; several
    buses that share one are not covered.  Logging
    has no effect on these states and is left out; what tracing adds is in
    [Otel] and [Tracing], apart from the states it does not change.

    ** Fuel

    The traversal of [TopoSort] takes one unit per module on the path, the
    number of modules plus one is enough ([sort_complete]); the search for a
    free Mermaid identifier one per reserved name plus one ([export_dag_safe]).
    Regular expressions and patterns take fuel from the length of the text and
    pattern, path resolution from the number of links allowed; each is shown or
    chosen to suffice for every input, or running out is the error the system
    call gives (too many links).  The JSON parser takes twice the length of the
    text plus one, which is proved to be enough ([fuel_enough]); that of durations
    the length of the text, of which every part consumes something.  The fuel of a consume loop is the number of
    rounds considered: theorems hold for every fuel, and a loop that has used
    it up counts as still running, never as ended.

    ** What the theorems show

    - The sort is sound, complete, terminating, its errors are real defects of
      the graph and registration order is the tie-break.
    - The Manager's maps stay consistent, services resolve to what was
      provided, a task finishes once.
    - The three lifecycle methods do exactly what they document on success and
      under all interleavings, refuse wrong states without effect, never go back
      in state, freeze the registry, report every task error, return nil from a
      shutdown that stops something only when no task is left, and return under a
      context that ends.  What they do on failure is exact too, with two gaps
      proved as such: modules initialised but not reached by a failed start are
      never stopped, and a task may outlive the rollback.
    - [Run] always ends stopped: pre-stop hooks, shutdown, post-stop hooks, each
      in order.
    - The diagram export gives distinct names distinct nodes and cannot be
      broken out of.
    - The pool never panics, respects its bounds, counts exactly, completes
      every accepted task and drains on [Close].
    - The JetStream loop implements an abstract protocol and resolves messages
      in order with the outcome their handler asked for; RabbitMQ deliveries are
      resolved exactly once, those of a pool included (in any order); a [Close] that returned nil has quiesced each bus
      but Watermill's, whose gap is exhibited; RabbitMQ consumers share a
      channel without inheriting each other's prefetch or breaching the
      broker's rules on tags.
    - An approval is used at most once, only for its exact scope and before it
      expires; the store round-trips.
    - In a target without links [Apply] is all or nothing under one fault, up to
      directories that a failed [os.MkdirAll] leaves, [Rollback] restores, and an
      unapproved batch touches nothing; three defects are exhibited.
    - A command classified safe has one of a fixed list of shapes, as its words
      stand before the shell removes quotes; no file name injects shell syntax
      into a plan; added lines and secrets are found exactly, git's note on a
      missing final newline apart; the protected-path check passes exactly when every protected
      change is excused, and a change of the contract always fails; agent
      documents do not depend on the order of declarations; the boundary
      analyzer reports exactly the imports that cross, and its globs mean what
      they are documented to, except a double star at the end of a pattern, which
      matches nothing.
    - The review service loses no push, keeps leases exclusive, posts only
      justified comments, queues only authentic requests and bounds each
      installation's rate.  The PostgreSQL store is serializable under all
      interleavings and failures; [Mutate] of the Firestore store is atomic
      however often its function runs, [Seen] is not (an overtaken attempt is
      exhibited).  A fetch runs an explicit list of commands, cleans up
      after every failure and shows git's output without the token; a
      hosted review is the command line's without the declared commands; a model
      is asked only at addresses that were public when checked, up to redirects; a token is asked for
      one repository with minimal permissions.  [no_push_lost] takes a queue that
      runs a task again when its worker fails; how JetStream's redelivery during a
      review breaks that is exhibited in [ReviewQueue].
    - A health response says exactly which checks return nil, whatever the order
      in which they finish, and leaks no error text; a watch sends exactly the
      changes; a stopped gRPC server serves nothing; a client sees of an error
      exactly the mapped status with its documented sentinel, or the status that
      the error carries or wraps.
    - Discovery finds exactly the modules, instruction files and composition
      roots; an index is trusted only when its root is the worktree; the verify
      command and the MCP tool run nothing that needs approval, and besides the
      planned commands only dry runs of make; generated documents do not drift; a CI envelope passes exactly when its jobs do; texts of results show
      each result once and cannot be forged by messages.
    - Names derived for a new module from an ASCII name are its words, and
      identifiers unless the package's is a keyword; its import path is that of
      the nearest module, and an occupied directory is left alone.
    - A command line round-trips through the parser of flags; a green review is a
      clean change, if git could describe the change; documents that were
      generated to three distinct files pass the check that looks for drift; commands that look change nothing; the record of a CI run has
      exactly its jobs.
    - The tracing middleware changes no response, except after an informational
      header and for handlers that look for optional interfaces which it adds to
      the writer or hides, and its span has the status sent, except after a flush; a handler of
      a call or of a message runs under the trace of its sender; a tracer that does
      nothing has no effect.
    - The order check of the test kit accepts exactly the ordered recordings and
      raises no false alarm on the manager.
    - A worker that starts has all it needs; settings of a tenant round-trip; the
      answers of the task endpoint are exact.

    ** Not modelled

    Generated mocks and protocol code (mocks/, notificationpb), the examples, the
    helpers of the tests (internal/eventbustest, internal/gittest): no code of the
    program calls them.  The mains of tools/mcpserver and tools/modboundary, which
    only hand over to the protocol library and to the analysis driver; the
    registration of the MCP tools.  Log records, and the pools and clients of
    third-party services beyond the calls made on them.  SQL is not interpreted:
    each statement of the PostgreSQL store is one operation with the effect its
    text has. *)

From Stdlib Require Import Ascii.
From stdpp Require Import base gmap sets list strings sorting.

(** * Tactics *)

(** Split on every test of an unfolded operation in the goal: decidable
    propositions by [case_decide], other scrutinees with an equation. *)
Ltac go_cases :=
  repeat first
    [ case_decide
    | match goal with
      | |- context [match ?x with _ => _ end] =>
        lazymatch x with decide _ => fail | _ => destruct x eqn:? end
      end ].

(** * Errors

    Go's [error] interface with the constructors the repository uses:
    [apperrors.Error] constants, [errors.New], [fmt.Errorf] (kept symbolic:
    format, rendered operands, and the operands of its [%w] verbs) and
    [errors.Join].  A nil error is [None] of [option error]. *)

#[warnings="-register-all"]
Inductive error : Type :=
| Const (s : string)
| New (s : string)
| Errorf (fmt : string) (args : list string) (wrapped : list error)
| Joined (es : list error).

(** [errors.Is(err, c)] for a constant sentinel [c]: walks the wrap tree. *)
Fixpoint error_is (c : string) (e : error) : bool :=
  match e with
  | Const s => String.eqb s c
  | New _ => false
  | Errorf _ _ ws => existsb (error_is c) ws
  | Joined es => existsb (error_is c) es
  end.

(** [errors.Is] on a nil-able error: a nil error matches no sentinel. *)
Definition err_is (c : string) (e : option error) : bool :=
  match e with Some e => error_is c e | None => false end.

(** [errors.Join]: nil operands are dropped; nil when nothing is left. *)
Definition errors_Join (es : list (option error)) : option error :=
  match omap id es with
  | [] => None
  | l => Some (Joined l)
  end.

Lemma errors_Join_None es : errors_Join es = None ↔ Forall (λ e, e = None) es.
Proof.
  unfold errors_Join. split.
  - induction es as [|[e|] es IH]; simpl; [done|done|]. intros H. constructor; auto.
  - induction 1 as [|e es -> _ IH]; simpl; auto.
Qed.

Lemma err_is_Join c es :
  err_is c (errors_Join es) = existsb (err_is c) es.
Proof.
  assert (existsb (error_is c) (omap id es) = existsb (err_is c) es) as E.
  { induction es as [|[e|] es IH]; simpl; [done|by f_equal|done]. }
  unfold errors_Join. destruct (omap id es) eqn:H; simpl in *; done.
Qed.

(** * Strings

    A Go string is its bytes.  [TrimSpace] is transcribed byte-exactly: besides
    the six ASCII spaces, [unicode.IsSpace] holds of U+0085, U+00A0, U+1680,
    U+2000-U+200A, U+2028, U+2029, U+202F, U+205F and U+3000, whose UTF-8
    encodings have two or three bytes. *)

Definition byte_is (n : N) (a : ascii) : bool := N.eqb (N_of_ascii a) n.
Definition byte_in (lo hi : N) (a : ascii) : bool :=
  N.leb lo (N_of_ascii a) && N.leb (N_of_ascii a) hi.

Definition space1 (a : ascii) : bool := byte_in 9 13 a || byte_is 32 a.
Definition space2 (a b : ascii) : bool :=
  byte_is 194 a && (byte_is 133 b || byte_is 160 b).
Definition space3 (a b c : ascii) : bool :=
  (byte_is 225 a && byte_is 154 b && byte_is 128 c)
  || (byte_is 226 a && byte_is 128 b
      && (byte_in 128 138 c || byte_is 168 c || byte_is 169 c || byte_is 175 c))
  || (byte_is 226 a && byte_is 129 b && byte_is 159 c)
  || (byte_is 227 a && byte_is 128 b && byte_is 128 c).

(** Drop leading space encodings; [s2], [s3] recognise the multi-byte ones. *)
Fixpoint drop_spaces (s2 : ascii → ascii → bool) (s3 : ascii → ascii → ascii → bool)
    (l : list ascii) : list ascii :=
  match l with
  | a :: l1 =>
    if space1 a then drop_spaces s2 s3 l1 else
    match l1 with
    | b :: l2 =>
      if s2 a b then drop_spaces s2 s3 l2 else
      match l2 with
      | c :: l3 => if s3 a b c then drop_spaces s2 s3 l3 else l
      | [] => l
      end
    | [] => l
    end
  | [] => []
  end.

Definition trim_left : list ascii → list ascii := drop_spaces space2 space3.
Definition trim_right (l : list ascii) : list ascii :=
  rev (drop_spaces (λ a b, space2 b a) (λ a b c, space3 c b a) (rev l)).

(** [strings.TrimSpace]. *)
Definition TrimSpace (s : string) : string :=
  String.string_of_list_ascii (trim_right (trim_left (String.list_ascii_of_string s))).

(** ** [TrimSpace] is idempotent *)

Section drop_spaces.
Context (s2 : ascii → ascii → bool) (s3 : ascii → ascii → ascii → bool).

(** No space encoding at the front. *)
Definition no_lead (l : list ascii) : Prop :=
  match l with
  | a :: l1 => space1 a = false ∧
    match l1 with
    | b :: l2 => s2 a b = false ∧
      match l2 with c :: _ => s3 a b c = false | [] => True end
    | [] => True
    end
  | [] => True
  end.

Lemma drop_spaces_id l : no_lead l → drop_spaces s2 s3 l = l.
Proof. destruct l as [|a [|b [|c l]]]; simpl; intros H; destruct_and?; repeat case_match; congruence. Qed.

Lemma drop_spaces_no_lead_len n l : length l ≤ n → no_lead (drop_spaces s2 s3 l).
Proof.
  revert l. induction n as [|n IH]; intros [|a [|b [|c l]]] Hl; simpl in *; try done; try lia.
  all: repeat case_match; simpl in *; repeat split; auto.
  all: try (by apply (IH (b :: c :: l)); simpl; lia).
  all: try (by apply (IH (b :: [])); simpl; lia).
  all: try (by apply (IH (c :: l)); simpl; lia).
  all: apply IH; lia.
Qed.

Lemma drop_spaces_no_lead l : no_lead (drop_spaces s2 s3 l).
Proof. by eapply drop_spaces_no_lead_len. Qed.

Lemma no_lead_prefix l k : no_lead (l ++ k) → no_lead l.
Proof. destruct l as [|a [|b [|c l]]]; simpl; intuition. Qed.

Lemma drop_spaces_suffix_len n l : length l ≤ n → drop_spaces s2 s3 l `suffix_of` l.
Proof.
  revert l. induction n as [|n IH]; intros [|a l] Hl; simpl in *; try done; try lia.
  case_match; [apply suffix_cons_r, IH; lia|].
  destruct l as [|b l]; [done|]. case_match; [do 2 apply suffix_cons_r; apply IH; simpl in *; lia|].
  destruct l as [|c l]; [done|]. case_match; [do 3 apply suffix_cons_r; apply IH; simpl in *; lia|done].
Qed.

Lemma drop_spaces_suffix l : drop_spaces s2 s3 l `suffix_of` l.
Proof. by eapply drop_spaces_suffix_len. Qed.
End drop_spaces.

Lemma trim_right_prefix l : trim_right l `prefix_of` l.
Proof.
  unfold trim_right.
  destruct (drop_spaces_suffix (λ a b, space2 b a) (λ a b c, space3 c b a) (rev l)) as [k Hk].
  exists (rev k). by rewrite <-rev_app_distr, <-Hk, rev_involutive.
Qed.

Lemma TrimSpace_idemp s : TrimSpace (TrimSpace s) = TrimSpace s.
Proof.
  unfold TrimSpace. rewrite String.list_ascii_of_string_of_list_ascii. f_equal.
  set (l := String.list_ascii_of_string s).
  assert (trim_left (trim_right (trim_left l)) = trim_right (trim_left l)) as ->.
  { apply drop_spaces_id. destruct (trim_right_prefix (trim_left l)) as [k Hk].
    apply no_lead_prefix with k. rewrite <-Hk. apply drop_spaces_no_lead. }
  unfold trim_right. rewrite rev_involutive. f_equal.
  by apply drop_spaces_id, drop_spaces_no_lead.
Qed.

Example TrimSpace_ex1 : TrimSpace "  ab c
" = "ab c".
Proof. reflexivity. Qed.

(** * Sorting

    [sort.Strings]: the sorted permutation of a list of strings, unique
    because the bytewise order is antisymmetric. *)

Definition sort_Strings (l : list string) : list string := merge_sort String.le l.

Lemma sort_Strings_perm l : sort_Strings l ≡ₚ l.
Proof. apply merge_sort_Permutation. Qed.
Lemma sort_Strings_sorted l : Sorted String.le (sort_Strings l).
Proof. apply Sorted_merge_sort, _. Qed.

Lemma sort_Strings_Proper l k : l ≡ₚ k → sort_Strings l = sort_Strings k.
Proof.
  intros H. apply (Sorted_unique String.le); try apply sort_Strings_sorted.
  by rewrite !sort_Strings_perm.
Qed.

Lemma elem_of_sort_Strings x l : x ∈ sort_Strings l ↔ x ∈ l.
Proof. by rewrite sort_Strings_perm. Qed.

(** Keys of a Go map, sorted: the deterministic iteration idiom. *)
Definition sorted_keys {A} (m : gmap string A) : list string :=
  sort_Strings (map_to_list m).*1.

Lemma elem_of_sorted_keys {A} (m : gmap string A) k :
  k ∈ sorted_keys m ↔ is_Some (m !! k).
Proof.
  unfold sorted_keys. rewrite elem_of_sort_Strings, list_elem_of_fmap. split.
  - intros ([k' v] & -> & Hin). apply elem_of_map_to_list in Hin. by eexists.
  - intros [v Hv]. exists (k, v). split; [done|]. by apply elem_of_map_to_list.
Qed.

Lemma NoDup_sorted_keys {A} (m : gmap string A) : NoDup (sorted_keys m).
Proof. unfold sorted_keys. rewrite sort_Strings_perm. apply NoDup_fst_map_to_list. Qed.

(** * Strings *)

Lemma string_app_ne s t : t ≠ "" → s ≠ s +:+ t.
Proof.
  intros Ht. induction s as [|a s IH]; [by destruct t|].
  change (String a s ≠ String a (s +:+ t)). by intros [= ?].
Qed.

Lemma str_app_assoc a b c : (a +:+ b) +:+ c = a +:+ b +:+ c.
Proof.
  induction a as [|x a IH]; [done|]. change (String x ((a +:+ b) +:+ c) = String x (a +:+ b +:+ c)). by rewrite IH.
Qed.

Lemma str_app_nil_r a : a +:+ "" = a.
Proof. induction a as [|x a IH]; [done|]. change (String x (a +:+ "") = String x a). by rewrite IH. Qed.
