(* ===== verification/Quote.v ===== *)
(** [strconv.Quote] (the [%q] verb), on bytes.  Which non-ASCII runes are
    printable is a table of the [unicode] package, the parameter [isPrint]. *)

From Stdlib Require Import Ascii.
From stdpp Require Import base list strings.
From S2P Require Import Prelude.

Section Quote.
(** [unicode.IsPrint] on runes from U+0080 on. *)
Variable isPrint : N → bool.

Definition hexdigit (n : N) : ascii := ascii_of_N (if (n <? 10)%N then 48 + n else 87 + n).
Fixpoint hex (digits : nat) (n : N) : list ascii :=
  match digits with
  | O => []
  | S k => hex k (n / 16) ++ [hexdigit (n mod 16)]
  end%N.
Definition esc (c : ascii) (l : list ascii) : list ascii := ascii_of_N 92 :: c :: l.

(** A byte below 128. *)
Definition quote1 (a : ascii) : list ascii :=
  let n := N_of_ascii a in
  if (n =? 34)%N || (n =? 92)%N then esc a []
  else if byte_in 32 126 a then [a]
  else match n with
  | 7 => esc "a" [] | 8 => esc "b" [] | 12 => esc "f" [] | 10 => esc "n" []
  | 13 => esc "r" [] | 9 => esc "t" [] | 11 => esc "v" []
  | _ => esc "x" (hex 2 n)
  end%N%char.

(** A decoded rune and its encoding. *)
Definition quoteRune (r : N) (enc : list ascii) : list ascii :=
  if isPrint r then enc
  else if (r <? 65536)%N then esc "u" (hex 4 r) else esc "U" (hex 8 r).

Definition cont (a : ascii) : bool := byte_in 128 191 a.
Definition low6 (a : ascii) : N := N_of_ascii a - 128.
Definition utf8_2 (a b : ascii) : bool := byte_in 194 223 a && cont b.
Definition utf8_3 (a b c : ascii) : bool :=
  ((byte_is 224 a && byte_in 160 191 b)
   || ((byte_in 225 236 a || byte_in 238 239 a) && cont b)
   || (byte_is 237 a && byte_in 128 159 b)) && cont c.
Definition utf8_4 (a b c d : ascii) : bool :=
  ((byte_is 240 a && byte_in 144 191 b)
   || (byte_in 241 243 a && cont b)
   || (byte_is 244 a && byte_in 128 143 b)) && cont c && cont d.

Fixpoint quoteBytes (l : list ascii) : list ascii :=
  match l with
  | [] => []
  | a :: l1 =>
    if (N_of_ascii a <? 128)%N then quote1 a ++ quoteBytes l1 else
    let bad := esc "x" (hex 2 (N_of_ascii a)) in
    match l1 with
    | b :: l2 =>
      if utf8_2 a b then
        quoteRune ((N_of_ascii a - 192) * 64 + low6 b) [a; b] ++ quoteBytes l2 else
      match l2 with
      | c :: l3 =>
        if utf8_3 a b c then
          quoteRune (((N_of_ascii a - 224) * 64 + low6 b) * 64 + low6 c) [a; b; c] ++ quoteBytes l3 else
        match l3 with
        | d :: l4 =>
          if utf8_4 a b c d then
            quoteRune ((((N_of_ascii a - 240) * 64 + low6 b) * 64 + low6 c) * 64 + low6 d) [a; b; c; d]
              ++ quoteBytes l4
          else bad ++ quoteBytes l1
        | [] => bad ++ quoteBytes l1
        end
      | [] => bad ++ quoteBytes l1
      end
    | [] => bad ++ quoteBytes l1
    end
  end.

Definition quote_byte : ascii := ascii_of_N 34.
Definition Quote (s : string) : string :=
  String.string_of_list_ascii
    (quote_byte :: quoteBytes (String.list_ascii_of_string s) ++ [quote_byte]).
End Quote.
