(* ===== verification/Json.v ===== *)
(** What package encoding/json does with a document: the grammar it accepts, and
    how strings are decoded.  The parser is by fuel on the bytes; every call takes
    at least one byte, so the length of the document is enough.  Documents nested
    deeper than [maxNestingDepth] are rejected. *)

From Stdlib Require Import Ascii.
From stdpp Require Import base list strings.
From S2P Require Import Prelude Quote.

#[warnings="-register-all"]
Inductive JSON :=
| JNull | JBool (b : bool) | JNumber (literal : string) | JString (s : string) | JArray (l : list JSON) | JObject (members : list (string * JSON)).

Abbreviation bytes := (list ascii).

(** * Strings *)

Definition hexVal (a : ascii) : option N :=
  let n := N_of_ascii a in
  if byte_in 48 57 a then Some (n - 48)%N else if byte_in 97 102 a then Some (n - 87)%N else if byte_in 65 70 a then Some (n - 55)%N else None.
Definition hex4 (a b c d : ascii) : option N :=
  match hexVal a, hexVal b, hexVal c, hexVal d with
  | Some a, Some b, Some c, Some d => Some (((a * 16 + b) * 16 + c) * 16 + d)%N
  | _, _, _, _ => None
  end.
(** [utf8.AppendRune], of a code point that is not a surrogate. *)
Definition appendRune (r : N) : bytes :=
  (if r <? 128 then [ascii_of_N r]
   else if r <? 2048 then [ascii_of_N (192 + r / 64); ascii_of_N (128 + r mod 64)]
   else if r <? 65536 then [ascii_of_N (224 + r / 4096); ascii_of_N (128 + r / 64 mod 64); ascii_of_N (128 + r mod 64)]
   else [ascii_of_N (240 + r / 262144); ascii_of_N (128 + r / 4096 mod 64); ascii_of_N (128 + r / 64 mod 64); ascii_of_N (128 + r mod 64)])%N.
Definition replacementChar : N := 65533.
Definition isSurrogate (r : N) : bool := ((55296 <=? r) && (r <? 57344))%N.
(** [utf16.DecodeRune] of a pair, if it is one. *)
Definition decodePair (r r1 : N) : option N :=
  (if (55296 <=? r) && (r <? 56320) && (56320 <=? r1) && (r1 <? 57344) then Some ((r - 55296) * 1024 + (r1 - 56320) + 65536) else None)%N.
(** The escapes of one byte. *)
Definition simpleEscape (a : ascii) : option ascii :=
  if byte_is 34 a || byte_is 92 a || byte_is 47 a then Some a
  else if byte_is 98 a then Some (ascii_of_N 8) else if byte_is 102 a then Some (ascii_of_N 12)
  else if byte_is 110 a then Some (ascii_of_N 10) else if byte_is 114 a then Some (ascii_of_N 13)
  else if byte_is 116 a then Some (ascii_of_N 9) else None.

Definition prepend (p : bytes) (r : option (bytes * bytes)) : option (bytes * bytes) :=
  match r with Some (s, rest) => Some (p ++ s, rest) | None => None end.
(** A string after its opening quote: its value, and what follows the closing
    one.  Bytes that are not UTF-8 become U+FFFD, as do lone surrogates. *)
Fixpoint parseString (l : bytes) : option (bytes * bytes) :=
  match l with
  | [] => None
  | a :: l =>
    if byte_is 34 a then Some ([], l)
    else if byte_in 0 31 a then None
    else if byte_is 92 a then
      match l with
      | [] => None
      | e :: l =>
        match simpleEscape e with
        | Some c => prepend [c] (parseString l)
        | None =>
          if negb (byte_is 117 e) then None
          else match l with
          | x1 :: x2 :: x3 :: x4 :: l =>
            match hex4 x1 x2 x3 x4 with
            | None => None
            | Some r =>
              if negb (isSurrogate r) then prepend (appendRune r) (parseString l)
              else match l with
              | b :: u :: y1 :: y2 :: y3 :: y4 :: l' =>
                match (if byte_is 92 b && byte_is 117 u then hex4 y1 y2 y3 y4 ≫= decodePair r else None) with
                | Some c => prepend (appendRune c) (parseString l')
                | None => prepend (appendRune replacementChar) (parseString l)
                end
              | _ => prepend (appendRune replacementChar) (parseString l)
              end
            end
          | _ => None
          end
        end
      end
    else if byte_in 0 127 a then prepend [a] (parseString l)
    else
      let lone := prepend (appendRune replacementChar) (parseString l) in
      match l with
      | [] => lone
      | b :: l1 =>
        if utf8_2 a b then prepend [a; b] (parseString l1)
        else match l1 with
        | [] => lone
        | c :: l2 =>
          if utf8_3 a b c then prepend [a; b; c] (parseString l2)
          else match l2 with
          | [] => lone
          | d :: l3 => if utf8_4 a b c d then prepend [a; b; c; d] (parseString l3) else lone
          end
        end
      end
  end.

(** * Numbers *)

Definition isDigitByte (a : ascii) : bool := byte_in 48 57 a.
Fixpoint spanDigits (l : bytes) : bytes * bytes :=
  match l with
  | a :: l' => if isDigitByte a then let '(d, rest) := spanDigits l' in (a :: d, rest) else ([], l)
  | [] => ([], [])
  end.
(** The integer part: no leading zeros. *)
Definition spanInt (l : bytes) : option (bytes * bytes) :=
  match l with
  | a :: l' => if byte_is 48 a then Some ([a], l') else match spanDigits l with ([], _) => None | (d, rest) => Some (d, rest) end
  | [] => None
  end.
Definition spanFrac (l : bytes) : option (bytes * bytes) :=
  match l with
  | a :: l' => if byte_is 46 a then match spanDigits l' with ([], _) => None | (d, rest) => Some (a :: d, rest) end else Some ([], l)
  | [] => Some ([], [])
  end.
Definition spanExp (l : bytes) : option (bytes * bytes) :=
  match l with
  | a :: l' =>
    if byte_is 101 a || byte_is 69 a then
      let '(sign, l') := match l' with s :: l2 => if byte_is 43 s || byte_is 45 s then ([s], l2) else ([], l') | [] => ([], []) end in
      match spanDigits l' with ([], _) => None | (d, rest) => Some (a :: sign ++ d, rest) end
    else Some ([], l)
  | [] => Some ([], [])
  end.
Definition parseNumber (l : bytes) : option (bytes * bytes) :=
  let '(sign, l) := match l with a :: l' => if byte_is 45 a then ([a], l') else ([], l) | [] => ([], []) end in
  match spanInt l with
  | None => None
  | Some (i, l) => match spanFrac l with
    | None => None
    | Some (f, l) => match spanExp l with None => None | Some (e, l) => Some (sign ++ i ++ f ++ e, l) end
    end
  end.

(** * Values *)

Fixpoint skipSpace (l : bytes) : bytes :=
  match l with a :: l' => if byte_is 32 a || byte_is 9 a || byte_is 10 a || byte_is 13 a then skipSpace l' else l | [] => [] end.
Fixpoint stripPrefix (p l : bytes) : option bytes :=
  match p, l with
  | [], _ => Some l
  | a :: p, b :: l => if Ascii.eqb a b then stripPrefix p l else None
  | _, [] => None
  end.
Definition literal (word : string) (v : JSON) (l : bytes) : option (JSON * bytes) :=
  match stripPrefix (String.list_ascii_of_string word) l with Some rest => Some (v, rest) | None => None end.
Definition maxNestingDepth : N := 10000.

Definition str (l : bytes) : string := String.string_of_list_ascii l.
(** A value, the rest of an array after its first bracket or comma, and of an
    object; [depth] is how many composites are open. *)
Fixpoint parseValue (fuel : nat) (depth : N) (l : bytes) {struct fuel} : option (JSON * bytes) :=
  match fuel with
  | O => None
  | S fuel =>
    match skipSpace l with
    | [] => None
    | a :: rest =>
      if byte_is 34 a then match parseString rest with Some (s, rest) => Some (JString (str s), rest) | None => None end
      else if byte_is 91 a then
        if (maxNestingDepth <=? depth)%N then None
        else match skipSpace rest with
        | b :: rest' => if byte_is 93 b then Some (JArray [], rest')
          else match parseElements fuel (depth + 1) rest with Some (es, rest) => Some (JArray es, rest) | None => None end
        | [] => None
        end
      else if byte_is 123 a then
        if (maxNestingDepth <=? depth)%N then None
        else match skipSpace rest with
        | b :: rest' => if byte_is 125 b then Some (JObject [], rest')
          else match parseMembers fuel (depth + 1) rest with Some (ms, rest) => Some (JObject ms, rest) | None => None end
        | [] => None
        end
      else if byte_is 110 a then literal "null" JNull (a :: rest)
      else if byte_is 116 a then literal "true" (JBool true) (a :: rest)
      else if byte_is 102 a then literal "false" (JBool false) (a :: rest)
      else match parseNumber (a :: rest) with Some (n, rest) => Some (JNumber (str n), rest) | None => None end
    end
  end
with parseElements (fuel : nat) (depth : N) (l : bytes) {struct fuel} : option (list JSON * bytes) :=
  match fuel with
  | O => None
  | S fuel =>
    match parseValue fuel depth l with
    | None => None
    | Some (v, l) =>
      match skipSpace l with
      | b :: l =>
        if byte_is 44 b then match parseElements fuel depth l with Some (vs, l) => Some (v :: vs, l) | None => None end
        else if byte_is 93 b then Some ([v], l) else None
      | [] => None
      end
    end
  end
with parseMembers (fuel : nat) (depth : N) (l : bytes) {struct fuel} : option (list (string * JSON) * bytes) :=
  match fuel with
  | O => None
  | S fuel =>
    match skipSpace l with
    | q :: l =>
      if negb (byte_is 34 q) then None
      else match parseString l with
      | None => None
      | Some (k, l) =>
        match skipSpace l with
        | c :: l =>
          if negb (byte_is 58 c) then None
          else match parseValue fuel depth l with
          | None => None
          | Some (v, l) =>
            match skipSpace l with
            | b :: l =>
              if byte_is 44 b then match parseMembers fuel depth l with Some (ms, l) => Some ((str k, v) :: ms, l) | None => None end
              else if byte_is 125 b then Some ([(str k, v)], l) else None
            | [] => None
            end
          end
        | [] => None
        end
      end
    | [] => None
    end
  end.
(** A document: one value, and nothing but space after it. *)
Definition parseJSON (s : string) : option JSON :=
  let l := String.list_ascii_of_string s in
  match parseValue (S (2 * length l)) 0 l with
  | Some (v, rest) => match skipSpace rest with [] => Some v | _ => None end
  | None => None
  end.

Example parseJSON_ex :
  let q := String quote_byte EmptyString in
  parseJSON (" {" +:+ q +:+ "a" +:+ q +:+ " : [1, -2.5e+3 ,true,null] , " +:+ q +:+ "b" +:+ q +:+ ":" +:+ q +:+ "x\u00e9\n" +:+ q +:+ "} ")
    = Some (JObject [("a", JArray [JNumber "1"; JNumber "-2.5e+3"; JBool true; JNull]);
                     ("b", JString ("x" +:+ String (ascii_of_N 195) (String (ascii_of_N 169) (String (ascii_of_N 10) EmptyString))))]) ∧
  parseJSON "01" = None ∧ parseJSON "" = None ∧ parseJSON "sk-ant" = None ∧ parseJSON "[1,]" = None ∧ parseJSON "{}x" = None ∧ parseJSON "-" = None.
Proof. vm_compute. repeat split. Qed.

(** * The fuel is enough *)

Ltac unprepend := match goal with H : prepend _ ?r = Some _ |- _ => destruct r as [[? ?]|] eqn:?; simpl in H; simplify_eq end.

Lemma parseString_shorter : ∀ n l s rest, length l < n → parseString l = Some (s, rest) → length rest < length l.
Proof.
  induction n as [|n IH]; intros l s rest Hl; [lia|]. destruct l as [|a l]; [done|]. simpl in Hl. cbn [parseString].
  repeat (case_match; try done); intros; simplify_eq; simpl; try lia; unprepend;
    match goal with H : parseString _ = Some _ |- _ => apply IH in H; simpl in *; lia end.
Qed.
Lemma spanDigits_le l : length (spanDigits l).2 ≤ length l.
Proof. induction l as [|a l IH]; [done|]. simpl. case_match; [|done]. destruct (spanDigits l). simpl in *. lia. Qed.
Lemma spanDigits_split l d rest : spanDigits l = (d, rest) → length rest + length d = length l.
Proof.
  revert d rest. induction l as [|a l IH]; intros d rest; simpl; [by intros [= <- <-]|]. case_match; [|by intros [= <- <-]].
  destruct (spanDigits l) as [d' rest']. intros [= <- <-]. simpl. rewrite <- (IH d' rest' eq_refl). lia.
Qed.
Lemma spanInt_shorter l i rest : spanInt l = Some (i, rest) → length rest < length l.
Proof.
  unfold spanInt. destruct l as [|a l]; [done|]. case_match; [intros [= <- <-]; simpl; lia|].
  destruct (spanDigits (a :: l)) as [[|x d] r] eqn:E; [done|]. intros [= <- <-]. apply spanDigits_split in E. simpl in *. lia.
Qed.
Lemma spanFrac_le l i rest : spanFrac l = Some (i, rest) → length rest ≤ length l.
Proof.
  unfold spanFrac. destruct l as [|a l]; [by intros [= <- <-]|]. case_match; [|by intros [= <- <-]].
  destruct (spanDigits l) as [[|x d] r] eqn:E; [done|]. intros [= <- <-]. apply spanDigits_split in E. simpl in *. lia.
Qed.
Lemma spanExp_le l i rest : spanExp l = Some (i, rest) → length rest ≤ length l.
Proof.
  unfold spanExp. destruct l as [|a l]; [by intros [= <- <-]|]. case_match; [|by intros [= <- <-]].
  destruct l as [|b l]; [done|]. destruct (byte_is 43 b || byte_is 45 b).
  - destruct (spanDigits l) as [[|x d] r] eqn:E; [done|]. intros [= <- <-]. apply spanDigits_split in E. simpl in *. lia.
  - destruct (spanDigits (b :: l)) as [[|x d] r] eqn:E; [done|]. intros [= <- <-]. apply spanDigits_split in E. simpl in *. lia.
Qed.
Lemma parseNumber_shorter l s rest : parseNumber l = Some (s, rest) → length rest < length l.
Proof.
  unfold parseNumber. destruct (match l with a :: l' => if byte_is 45 a then ([a], l') else ([], l) | [] => ([], []) end) as [sign l1] eqn:E.
  assert (length l1 ≤ length l) as Hl1 by (destruct l as [|a l]; [by simplify_eq|]; destruct (byte_is 45 a); simplify_eq; simpl; lia).
  destruct (spanInt l1) as [[i l2]|] eqn:E1; [|done]. destruct (spanFrac l2) as [[f l3]|] eqn:E2; [|done].
  destruct (spanExp l3) as [[e l4]|] eqn:E3; [|done]. intros [= _ <-]. apply spanInt_shorter in E1. apply spanFrac_le in E2. apply spanExp_le in E3. lia.
Qed.
Lemma skipSpace_le l : length (skipSpace l) ≤ length l.
Proof. induction l as [|a l IH]; [done|]. simpl. case_match; [lia|done]. Qed.
Lemma stripPrefix_split p l rest : stripPrefix p l = Some rest → l = p ++ rest.
Proof.
  revert l. induction p as [|a p IH]; intros [|b l]; simpl; try done; try congruence.
  destruct (Ascii.eqb_spec a b) as [->|]; [|done]. intros H. f_equal. by apply IH.
Qed.
Lemma literal_shorter word v l r rest : word ≠ "" → literal word v l = Some (r, rest) → length rest < length l.
Proof.
  unfold literal. intros Hw. destruct (stripPrefix _ l) as [rest'|] eqn:E; [|done]. intros [= _ <-]. apply stripPrefix_split in E as ->.
  destruct word; [done|]. simpl. rewrite length_app. lia.
Qed.
Definition shortens {A} (f : bytes → option (A * bytes)) : Prop := ∀ l v rest, f l = Some (v, rest) → length rest < length l.
Ltac spaces := repeat match goal with
  | H : skipSpace ?l = _ :: _ |- _ => let K := fresh in pose proof (skipSpace_le l) as K; rewrite H in K; simpl in K; clear H
  end.
Lemma values_shorter fuel : ∀ depth, shortens (parseValue fuel depth) ∧ shortens (parseElements fuel depth) ∧ shortens (parseMembers fuel depth).
Proof.
  induction fuel as [|fuel IH]; intros depth; [by repeat split|]. split; [|split].
  - intros l v rest. cbn [parseValue]. destruct (skipSpace l) as [|a l1] eqn:E; [done|]. spaces.
    destruct (IH (depth + 1)%N) as (_ & IHe & IHm).
    repeat (case_match; try done); intros; simplify_eq; spaces; simpl in *;
      repeat match goal with
      | H : parseString _ = Some _ |- _ => apply (parseString_shorter _ _ _ _ (Nat.lt_succ_diag_r _)) in H
      | H : parseElements _ _ _ = Some _ |- _ => apply IHe in H
      | H : parseMembers _ _ _ = Some _ |- _ => apply IHm in H
      | H : literal _ _ _ = Some _ |- _ => apply literal_shorter in H; [simpl in H|done]
      | H : parseNumber _ = Some _ |- _ => apply parseNumber_shorter in H; simpl in H
      end; lia.
  - intros l v rest. cbn [parseElements]. destruct (IH depth) as (IHv & IHe & _).
    destruct (parseValue fuel depth l) as [[x l1]|] eqn:E1; [|done]. apply IHv in E1. destruct (skipSpace l1) as [|b l2] eqn:E2; [done|]. spaces.
    case_match; [|case_match; [intros; simplify_eq; lia|done]].
    destruct (parseElements fuel depth l2) as [[vs l3]|] eqn:E3; [|done]. intros; simplify_eq. apply IHe in E3. lia.
  - intros l v rest. cbn [parseMembers]. destruct (IH depth) as (IHv & _ & IHm).
    destruct (skipSpace l) as [|q l1] eqn:E1; [done|]. spaces. case_match; [done|]. destruct (parseString l1) as [[k l2]|] eqn:E2; [|done].
    apply (parseString_shorter _ _ _ _ (Nat.lt_succ_diag_r _)) in E2. destruct (skipSpace l2) as [|c l3] eqn:E3; [done|]. spaces. case_match; [done|].
    destruct (parseValue fuel depth l3) as [[x l4]|] eqn:E4; [|done]. apply IHv in E4. destruct (skipSpace l4) as [|b l5] eqn:E5; [done|]. spaces.
    case_match; [|case_match; [intros; simplify_eq; lia|done]].
    destruct (parseMembers fuel depth l5) as [[ms l6]|] eqn:E6; [|done]. intros; simplify_eq. apply IHm in E6. lia.
Qed.

(** Whatever fuel gives a result, twice the length of the input gives it too. *)
Lemma fuel_enough fuel : ∀ depth,
  (∀ l r fuel', parseValue fuel depth l = Some r → 2 * length l < fuel' → parseValue fuel' depth l = Some r) ∧
  (∀ l r fuel', parseElements fuel depth l = Some r → S (2 * length l) < fuel' → parseElements fuel' depth l = Some r) ∧
  (∀ l r fuel', parseMembers fuel depth l = Some r → S (2 * length l) < fuel' → parseMembers fuel' depth l = Some r).
Proof.
  induction fuel as [|fuel IH]; intros depth; [by repeat split|]. split; [|split]; intros l r [|fuel'] H Hf; try lia; revert H.
  - cbn [parseValue]. destruct (skipSpace l) as [|a l1] eqn:E; [done|]. spaces. destruct (IH (depth + 1)%N) as (_ & IHe & IHm).
    case_match; [done|]. case_match; [|case_match; [|done]]; (case_match; [done|]); destruct (skipSpace l1) as [|b l2]; try done; (case_match; [done|]).
    + destruct (parseElements fuel (depth + 1) l1) as [[es l3]|] eqn:E3; [|done]. by rewrite (IHe l1 _ fuel' E3) by lia.
    + destruct (parseMembers fuel (depth + 1) l1) as [[es l3]|] eqn:E3; [|done]. by rewrite (IHm l1 _ fuel' E3) by lia.
  - cbn [parseElements]. destruct (IH depth) as (IHv & IHe & _). destruct (parseValue fuel depth l) as [[x l1]|] eqn:E1; [|done].
    rewrite (IHv l _ fuel' E1) by lia. apply values_shorter in E1. destruct (skipSpace l1) as [|b l2] eqn:E2; [done|]. spaces. case_match; [|done].
    destruct (parseElements fuel depth l2) as [[vs l3]|] eqn:E3; [|done]. by rewrite (IHe l2 _ fuel' E3) by lia.
  - cbn [parseMembers]. destruct (IH depth) as (IHv & _ & IHm). destruct (skipSpace l) as [|q l1] eqn:E1; [done|]. spaces. case_match; [done|].
    destruct (parseString l1) as [[k l2]|] eqn:E2; [|done]. apply (parseString_shorter _ _ _ _ (Nat.lt_succ_diag_r _)) in E2.
    destruct (skipSpace l2) as [|c l3] eqn:E3; [done|]. spaces. case_match; [done|].
    destruct (parseValue fuel depth l3) as [[x l4]|] eqn:E4; [|done]. rewrite (IHv l3 _ fuel' E4) by lia. apply values_shorter in E4.
    destruct (skipSpace l4) as [|b l5] eqn:E5; [done|]. spaces. case_match; [|done].
    destruct (parseMembers fuel depth l5) as [[ms l6]|] eqn:E6; [|done]. by rewrite (IHm l5 _ fuel' E6) by lia.
Qed.

(** * Writing flat objects *)

(** Printable ASCII without quotes and backslashes, which needs no escape. *)
Definition plainByte (a : ascii) : bool := byte_in 32 126 a && negb (byte_is 34 a) && negb (byte_is 92 a).
Definition plain (s : string) : Prop := Forall (λ a, plainByte a = true) (String.list_ascii_of_string s).
Definition quoted (s : string) : bytes := quote_byte :: String.list_ascii_of_string s ++ [quote_byte].
Definition member (m : string * string) : bytes := quoted m.1 ++ ":"%char :: quoted m.2.
Fixpoint flat (m : string * string) (ms : list (string * string)) : bytes :=
  member m ++ match ms with [] => ["}"%char] | m' :: ms => ","%char :: flat m' ms end.
Definition printObject (ms : list (string * string)) : string :=
  str ("{"%char :: match ms with [] => ["}"%char] | m :: ms => flat m ms end).

Lemma plainByte_class a : plainByte a = true → byte_is 34 a = false ∧ byte_in 0 31 a = false ∧ byte_is 92 a = false ∧ byte_in 0 127 a = true.
Proof.
  unfold plainByte, byte_in, byte_is. rewrite !andb_true_iff, !negb_true_iff, !N.leb_le. intros [[[H1 H2] H3] H4].
  split; [done|]. split; [apply andb_false_iff; right; apply N.leb_gt; lia|]. split; [done|lia].
Qed.
Lemma parseString_plain s rest : plain s → parseString (String.list_ascii_of_string s ++ quote_byte :: rest) = Some (String.list_ascii_of_string s, rest).
Proof.
  unfold plain. induction (String.list_ascii_of_string s) as [|a l IH]; intros H; [done|]. apply Forall_cons in H as [Ha Hl].
  apply plainByte_class in Ha as (H1 & H2 & H3 & H4). cbn [app parseString]. rewrite H1, H2, H3, H4. simpl. by rewrite IH.
Qed.
Lemma str_list s : str (String.list_ascii_of_string s) = s.
Proof. apply String.string_of_list_ascii_of_string. Qed.
Lemma parseMembers_member fuel depth k v tail : plain k → plain v →
  parseMembers (S (S fuel)) depth (member (k, v) ++ tail) =
  match skipSpace tail with
  | b :: l => if byte_is 44 b then match parseMembers (S fuel) depth l with Some (ms, l) => Some ((k, JString v) :: ms, l) | None => None end
              else if byte_is 125 b then Some ([(k, JString v)], l) else None
  | [] => None
  end.
Proof.
  intros Hk Hv. unfold member, quoted. cbn [fst snd]. remember (S fuel) as f eqn:Ef.
  assert ((quote_byte :: String.list_ascii_of_string k ++ [quote_byte]) ++ ":"%char :: quote_byte :: String.list_ascii_of_string v ++ [quote_byte] =
    quote_byte :: String.list_ascii_of_string k ++ quote_byte :: ":"%char :: quote_byte :: String.list_ascii_of_string v ++ [quote_byte]) as ->
    by (simpl; by rewrite <- (assoc_L (++))).
  cbn [parseMembers app skipSpace]. change (byte_is 32 quote_byte || byte_is 9 quote_byte || byte_is 10 quote_byte || byte_is 13 quote_byte) with false.
  cbn iota. change (negb (byte_is 34 quote_byte)) with false. cbn iota.
  rewrite <- (assoc_L (++)). cbn [app]. rewrite parseString_plain by done. cbn [skipSpace].
  change (byte_is 32 ":" || byte_is 9 ":" || byte_is 10 ":" || byte_is 13 ":") with false. cbn iota. change (negb (byte_is 58 ":")) with false. cbn iota.
  assert (parseValue f depth (quote_byte :: (String.list_ascii_of_string v ++ [quote_byte]) ++ tail) = Some (JString v, tail)) as ->.
  { subst f. cbn [parseValue skipSpace]. change (byte_is 32 quote_byte || byte_is 9 quote_byte || byte_is 10 quote_byte || byte_is 13 quote_byte) with false.
    cbn iota. change (byte_is 34 quote_byte) with true. cbn iota. rewrite <- (assoc_L (++)). cbn [app]. rewrite parseString_plain by done. by rewrite str_list. }
  by rewrite str_list.
Qed.
Lemma parseMembers_flat ms : ∀ m fuel depth rest, length ms < fuel → plain m.1 ∧ plain m.2 → Forall (λ m, plain m.1 ∧ plain m.2) ms →
  parseMembers (S fuel) depth (flat m ms ++ rest) = Some ((λ m, (m.1, JString m.2)) <$> m :: ms, rest).
Proof.
  induction ms as [|m' ms IH]; intros [k v] fuel depth rest Hf [Hk Hv] Hms; (destruct fuel as [|fuel]; [simpl in Hf; lia|]);
    cbn [flat]; rewrite <- (assoc_L (++)), parseMembers_member by done.
  - done.
  - apply Forall_cons in Hms as [Hm' Hms]. cbn [app skipSpace]. change (byte_is 32 "," || byte_is 9 "," || byte_is 10 "," || byte_is 13 ",") with false.
    cbn iota. change (byte_is 44 ",") with true. cbn iota. rewrite IH by (done || simpl in Hf; lia). done.
Qed.
Lemma flat_length m ms : length ms < length (flat m ms).
Proof. revert m. induction ms as [|m' ms IH]; intros m; cbn [flat]; rewrite length_app; simpl; [lia|]. specialize (IH m'). lia. Qed.

(** A flat object of plain strings is read back as it was written. *)
Lemma parse_printObject ms : Forall (λ m, plain m.1 ∧ plain m.2) ms →
  parseJSON (printObject ms) = Some (JObject ((λ m, (m.1, JString m.2)) <$> ms)).
Proof.
  intros Hms. unfold parseJSON, printObject, str. rewrite String.list_ascii_of_string_of_list_ascii. destruct ms as [|m ms]; [done|].
  apply Forall_cons in Hms as [Hm Hms]. remember (flat m ms) as body eqn:Eb.
  assert (∃ b l, body = b :: l ∧ b = quote_byte) as (b & l & El & ->) by (subst body; destruct ms; cbn [flat]; unfold member, quoted; simpl; eauto).
  cbn [length parseValue skipSpace]. change (byte_is 32 "{" || byte_is 9 "{" || byte_is 10 "{" || byte_is 13 "{") with false. cbn iota.
  change (byte_is 34 "{") with false. change (byte_is 91 "{") with false. change (byte_is 123 "{") with true. cbn iota.
  change (maxNestingDepth <=? 0)%N with false. cbn iota. rewrite El at 1. cbn [skipSpace].
  change (byte_is 32 quote_byte || byte_is 9 quote_byte || byte_is 10 quote_byte || byte_is 13 quote_byte) with false. cbn iota.
  change (byte_is 125 quote_byte) with false. cbn iota. replace (2 * S (length body)) with (S (S (2 * length body))) by lia.
  rewrite <- (app_nil_r body) at 2. rewrite Eb at 2. rewrite parseMembers_flat; [done| |done|done]. pose proof (flat_length m ms). subst body. lia.
Qed.
