(* ===== verification/TopoSort.v ===== *)
(** Topological ordering of modules: [Manager.sortModules] and the
    [topoSorter] depth-first traversal of src/modulex.go.

    The traversal needs two methods of a module, so it is stated over the
    interface [Sortable]; [Lifecycle] instantiates it with the full module
    type.  [visit] recurses along dependency edges and is not structurally
    recursive: it takes a fuel argument, and [visit_total] shows that one
    unit more than the number of unvisited modules is always enough. *)

From stdpp Require Import base gmap list strings sorting relations.
From S2P Require Import Prelude.

(** The part of the [Module] interface the sorter calls.  [Name] and
    [DependsOn] are constant for a module, as their documentation says. *)
Class Sortable (M : Type) := {
  Name : M → string;
  DependsOn : M → list string;
}.

Definition ErrCircularDependency : string := "circular dependency detected".
Definition ErrDependencyNotFound : string := "module dependency not found".
Definition ErrSelfDependency : string := "module cannot depend on itself".
Definition ErrInvalidDependencyName : string := "module dependency name must not be empty".

Inductive visitState := stateUnvisited | stateVisiting | stateVisited.

#[export] Instance visitState_eq_dec : EqDecision visitState.
Proof. solve_decision. Defined.

Section sorter.
Context {M : Type} `{Sortable M}.

Record topoSorter := TopoSorter {
  ts_modules : gmap string M;
  ts_state : gmap string visitState;
  ts_order : list M;
  ts_path : list string;
}.

(** [ts.state[name]]: an absent key reads as the zero value. *)
Definition ts_st (ts : topoSorter) (name : string) : visitState :=
  default stateUnvisited (ts_state ts !! name).

Definition errCycle (cycle : list string) : error :=
  Errorf "%w: %s" [String.concat " -> " cycle] [Const ErrCircularDependency].
Definition errMissing (name : string) : error :=
  Errorf "%w: %q" [name] [Const ErrDependencyNotFound].
Definition errEmptyDep (name : string) : error :=
  Errorf "%w: module %q has an empty dependency name" [name] [Const ErrInvalidDependencyName].
Definition errSelf (name : string) : error :=
  Errorf "%w: %q" [name] [Const ErrSelfDependency].

Definition cycleError (ts : topoSorter) (name : string) : error :=
  let cycleStart := default 0 (fst <$> list_find (λ n, n = name) (ts_path ts)) in
  errCycle (drop cycleStart (ts_path ts) ++ [name]).

(** Entering and (the deferred function) leaving a module. *)
Definition enter (name : string) (ts : topoSorter) : topoSorter :=
  TopoSorter (ts_modules ts) (<[name := stateVisiting]> (ts_state ts))
             (ts_order ts) (ts_path ts ++ [name]).
Definition leave (name : string) (ts : topoSorter) : topoSorter :=
  TopoSorter (ts_modules ts) (<[name := stateVisited]> (ts_state ts))
             (ts_order ts) (removelast (ts_path ts)).
Definition emit (md : M) (ts : topoSorter) : topoSorter :=
  TopoSorter (ts_modules ts) (ts_state ts) (ts_order ts ++ [md]) (ts_path ts).

(** Result of a visit: [None] is exhausted fuel. *)
Definition vres : Type := option (topoSorter * option error).

Definition visitDependency (visit : string → topoSorter → vres)
    (name depName : string) (ts : topoSorter) : vres :=
  if decide (depName = "") then Some (ts, Some (errEmptyDep name))
  else if decide (depName = name) then Some (ts, Some (errSelf name))
  else visit depName ts.

Fixpoint visitDeps (visit : string → topoSorter → vres)
    (name : string) (deps : list string) (ts : topoSorter) : vres :=
  match deps with
  | [] => Some (ts, None)
  | d :: deps =>
    match visitDependency visit name (TrimSpace d) ts with
    | None => None
    | Some (ts, Some err) => Some (ts, Some err)
    | Some (ts, None) => visitDeps visit name deps ts
    end
  end.

Fixpoint visit (fuel : nat) (name : string) (ts : topoSorter) : vres :=
  match fuel with
  | 0 => None
  | S fuel =>
    match ts_st ts name with
    | stateVisiting => Some (ts, Some (cycleError ts name))
    | stateVisited => Some (ts, None)
    | stateUnvisited =>
      match ts_modules ts !! name with
      | None => Some (ts, Some (errMissing name))
      | Some md =>
        match visitDeps (visit fuel) name (DependsOn md) (enter name ts) with
        | None => None
        | Some (ts, Some err) => Some (leave name ts, Some err)
        | Some (ts, None) => Some (leave name (emit md ts), None)
        end
      end
    end
  end.

Fixpoint sortLoop (fuel : nat) (names : list string) (ts : topoSorter) : vres :=
  match names with
  | [] => Some (ts, None)
  | name :: names =>
    match ts_st ts name with
    | stateUnvisited =>
      match visit fuel name ts with
      | None => None
      | Some (ts, Some err) => Some (ts, Some err)
      | Some (ts, None) => sortLoop fuel names ts
      end
    | _ => sortLoop fuel names ts
    end
  end.

(** [Manager.sortModules]: the ordered modules, or the first error. *)
Definition sortModules (modules : gmap string M) (moduleOrder : list string)
    : option (list M + error) :=
  match sortLoop (S (size modules)) moduleOrder (TopoSorter modules ∅ [] []) with
  | None => None
  | Some (_, Some err) => Some (inr err)
  | Some (ts, None) => Some (inl (ts_order ts))
  end.

(** * Specification vocabulary *)

(** The key a module is registered under. *)
Definition key (m : M) : string := TrimSpace (Name m).
(** Its normalised dependency names. *)
Definition deps (m : M) : list string := TrimSpace <$> DependsOn m.

(** [a] declares [b] as a dependency. *)
Definition depends (mods : gmap string M) (a b : string) : Prop :=
  ∃ m, mods !! a = Some m ∧ b ∈ deps m.

(** Modules are stored under their trimmed names. *)
Definition keyed (mods : gmap string M) : Prop :=
  ∀ k m, mods !! k = Some m → key m = k.

(** The declared graph is well formed: every dependency is a non-empty name
    of another registered module, and no module depends on itself through
    any chain. *)
Definition wf_graph (mods : gmap string M) : Prop :=
  (∀ a b, depends mods a b → b ≠ "" ∧ is_Some (mods !! b)) ∧
  (∀ a, ¬ tc (depends mods) a a).

(** Every dependency of a module is emitted before it. *)
Definition topo_sorted (order : list M) : Prop :=
  ∀ l1 m l2, order = l1 ++ m :: l2 → ∀ d, d ∈ deps m → d ∈ key <$> l1.

(** What an error of the sorter reports about the graph. *)
Inductive fault (mods : gmap string M) : error → Prop :=
| fault_missing a b : depends mods a b → mods !! b = None → fault mods (errMissing b)
| fault_empty a : depends mods a "" → fault mods (errEmptyDep a)
| fault_self a : depends mods a a → fault mods (errSelf a)
| fault_cycle a l : Sorted (depends mods) (a :: l ++ [a]) → fault mods (errCycle (a :: l ++ [a])).

(** * Invariant of the traversal *)

Record sorter_inv (mods : gmap string M) (ts : topoSorter) : Prop := SorterInv {
  inv_mods : ts_modules ts = mods;
  inv_visited n : ts_st ts n = stateVisited ↔ n ∈ key <$> ts_order ts;
  inv_visiting n : ts_st ts n = stateVisiting ↔ n ∈ ts_path ts;
  inv_nodup : NoDup (key <$> ts_order ts);
  inv_topo : topo_sorted (ts_order ts);
  inv_reg m : m ∈ ts_order ts → mods !! key m = Some m;
  inv_valid m d : m ∈ ts_order ts → d ∈ deps m → d ≠ "" ∧ d ≠ key m;
  inv_path_nodup : NoDup (ts_path ts);
  inv_chain : Sorted (depends mods) (ts_path ts);
}.

(** [name] may be visited next: a declared dependency of the innermost open
    module, or a registered root. *)
Definition reachable_next (mods : gmap string M) (path : list string) (name : string) : Prop :=
  match last path with
  | Some p => depends mods p name
  | None => is_Some (mods !! name)
  end.

Lemma ts_st_insert n s ts ms o p n' :
  ts_st (TopoSorter ms (<[n := s]> (ts_state ts)) o p) n' =
  if decide (n = n') then s else ts_st ts n'.
Proof. unfold ts_st; simpl. rewrite lookup_insert. by case_decide. Qed.

Lemma last_TlRel (R : relation string) l x :
  TlRel R x l ↔ match last l with Some y => R y x | None => True end.
Proof.
  destruct l as [|y l _] using rev_ind.
  - split; [done|]. constructor.
  - rewrite last_snoc. split.
    + intros Ht. inversion Ht as [Heq|? ? ? Heq].
      * by destruct l.
      * apply app_inj_tail in Heq as [_ ->]. done.
    + intros. by constructor.
Qed.

Lemma Sorted_app_inv (R : relation string) l k : Sorted R (l ++ k) → Sorted R k.
Proof. induction l as [|x l IH]; simpl; [done|]. intros [? _]%Sorted_inv. auto. Qed.

Lemma Sorted_tc (R : relation string) a l b : Sorted R (a :: l ++ [b]) → tc R a b.
Proof.
  revert a. induction l as [|x l IH]; simpl; intros a [Hs Hd]%Sorted_inv;
    apply HdRel_inv in Hd; [by constructor|]. eapply tc_l; eauto.
Qed.

Lemma enter_inv mods ts name m :
  sorter_inv mods ts → ts_st ts name = stateUnvisited → mods !! name = Some m →
  reachable_next mods (ts_path ts) name → sorter_inv mods (enter name ts).
Proof.
  intros I Hst Hm Hnext. destruct I as [Im Iv Ig In It Ir Id Ip Ic].
  assert (name ∉ key <$> ts_order ts) by (rewrite <-Iv; congruence).
  assert (name ∉ ts_path ts) by (rewrite <-Ig; congruence).
  split; simpl; try done.
  - intros n. unfold enter. rewrite ts_st_insert. case_decide; [subst; naive_solver|apply Iv].
  - intros n. unfold enter. rewrite ts_st_insert, elem_of_app, list_elem_of_singleton.
    case_decide; [naive_solver|]. rewrite Ig. naive_solver.
  - apply NoDup_app. set_solver by eauto using NoDup_singleton.
  - apply Sorted_snoc; [done|]. apply last_TlRel. unfold reachable_next in Hnext.
    by destruct (last (ts_path ts)).
Qed.

Lemma topo_sorted_snoc o m :
  topo_sorted o → (∀ d, d ∈ deps m → d ∈ key <$> o) → topo_sorted (o ++ [m]).
Proof.
  intros Ho Hm l1 m' l2 Heq d Hd.
  destruct l2 as [|m2 l2 _] using rev_ind.
  - apply app_inj_tail in Heq as [-> ->]. auto.
  - rewrite app_comm_cons, app_assoc in Heq. apply app_inj_tail in Heq as [-> ->]. eauto.
Qed.

Lemma leave_emit_inv mods ts p name m :
  sorter_inv mods ts → ts_path ts = p ++ [name] → mods !! name = Some m → key m = name →
  (∀ d, d ∈ deps m → ts_st ts d = stateVisited ∧ d ≠ "" ∧ d ≠ name) →
  sorter_inv mods (leave name (emit m ts)).
Proof.
  intros I Hp Hm Hk Hd. destruct I as [Im Iv Ig In It Ir Id Ip Ic].
  rewrite Hp in Ip, Ic. apply NoDup_app in Ip as (Ip & Hnp & _).
  assert (ts_st ts name = stateVisiting) as Hst by (apply Ig; rewrite Hp; set_solver).
  assert (name ∉ key <$> ts_order ts) by (rewrite <-Iv; congruence).
  split; simpl; rewrite ?Hp, ?removelast_last, ?fmap_app; try done.
  - intros n. unfold leave. rewrite ts_st_insert, elem_of_app, <-Iv; simpl.
    rewrite list_elem_of_singleton, Hk. case_decide; naive_solver.
  - intros n. unfold leave. rewrite ts_st_insert. unfold emit, ts_st in *; simpl.
    specialize (Ig n). rewrite Hp, elem_of_app, list_elem_of_singleton in Ig.
    specialize (Hnp n). rewrite list_elem_of_singleton in Hnp. case_decide; naive_solver.
  - apply NoDup_app. split_and!; [done| |apply NoDup_singleton]. set_solver.
  - apply topo_sorted_snoc; [done|]. intros d ?%Hd. apply Iv. naive_solver.
  - intros m' [?| ->%list_elem_of_singleton]%elem_of_app; [auto|congruence].
  - intros m' d [?| ->%list_elem_of_singleton]%elem_of_app ?; [eauto|]. subst. naive_solver.
  - clear -Ic. induction p as [|x p IH]; [constructor|]. simpl in Ic. apply Sorted_inv in Ic as [? Hd].
    constructor; [auto|]. destruct p; [constructor|]. apply HdRel_inv in Hd. by constructor.
Qed.

(** The cycle a revisited open module reports is a chain of declared edges. *)
Lemma cycleError_fault mods ts name :
  sorter_inv mods ts → ts_st ts name = stateVisiting →
  reachable_next mods (ts_path ts) name → fault mods (cycleError ts name).
Proof.
  intros I Hst Hnext. apply (inv_visiting _ _ I) in Hst.
  unfold cycleError. destruct (list_find _ _) as [[i n]|] eqn:Hf; simpl.
  - apply list_find_Some in Hf as (Hi & -> & _).
    assert (Sorted (depends mods) (ts_path ts ++ [name])) as Hs.
    { apply Sorted_snoc; [apply I|]. apply last_TlRel. unfold reachable_next in Hnext.
      by destruct (last (ts_path ts)). }
    rewrite (drop_S _ _ _ Hi). simpl. apply fault_cycle.
    rewrite <-(take_drop i (ts_path ts)), (drop_S _ _ _ Hi), <-app_assoc in Hs.
    by apply Sorted_app_inv in Hs.
  - apply list_find_None in Hf. rewrite Forall_forall in Hf. by specialize (Hf _ Hst).
Qed.

(** * What a visit does *)

Definition extends (mods : gmap string M) (from : list string) (ts ts' : topoSorter) : Prop :=
  sorter_inv mods ts' ∧ ts_path ts' = ts_path ts ∧
  ∃ new, ts_order ts' = ts_order ts ++ new ∧
         Forall (λ m, ∃ n, n ∈ from ∧ rtc (depends mods) n (key m)) new.

Definition visit_post (mods : gmap string M) (name : string) (ts ts' : topoSorter)
    (res : option error) : Prop :=
  match res with
  | None => extends mods [name] ts ts' ∧ ts_st ts' name = stateVisited
  | Some e => fault mods e
  end.

Lemma extends_refl mods from ts : sorter_inv mods ts → extends mods from ts ts.
Proof. intros. split_and!; [done..|]. exists []. by rewrite app_nil_r. Qed.

Lemma extends_trans mods f1 f2 ts1 ts2 ts3 :
  extends mods f1 ts1 ts2 → extends mods f2 ts2 ts3 → extends mods (f1 ++ f2) ts1 ts3.
Proof.
  intros (_ & Hp1 & n1 & Ho1 & Hf1) (I & Hp2 & n2 & Ho2 & Hf2).
  split_and!; [done|congruence|]. exists (n1 ++ n2). rewrite Ho2, Ho1, app_assoc. split; [done|].
  apply Forall_app; split; eapply Forall_impl; try done; set_solver.
Qed.

Lemma extends_visited mods from ts ts' n :
  sorter_inv mods ts → extends mods from ts ts' → ts_st ts n = stateVisited →
  ts_st ts' n = stateVisited.
Proof.
  intros I (I' & _ & new & Ho & _). rewrite (inv_visited _ _ I), (inv_visited _ _ I'), Ho.
  rewrite fmap_app. set_solver.
Qed.

Lemma extends_reach mods from name ts ts' :
  Forall (rtc (depends mods) name) from → extends mods from ts ts' → extends mods [name] ts ts'.
Proof.
  intros Hr (I & Hp & new & Ho & Hf). split_and!; [done..|]. exists new. split; [done|].
  eapply Forall_impl; [done|]. intros m (n & Hn & ?). exists name. split; [set_solver|].
  rewrite Forall_forall in Hr. transitivity n; auto.
Qed.

Lemma init_inv mods : sorter_inv mods (TopoSorter mods ∅ [] []).
Proof.
  split; unfold ts_st; simpl; try done; try (intros n; rewrite lookup_empty; set_solver);
    try (by constructor); try set_solver.
  intros [|??] ???; done.
Qed.

Section visit_spec.
Context (mods : gmap string M) (Hkeyed : keyed mods).

Lemma visitDeps_spec v name m ds ts ts' r :
  (∀ n ts ts' r, v n ts = Some (ts', r) → sorter_inv mods ts →
     reachable_next mods (ts_path ts) n → visit_post mods n ts ts' r) →
  mods !! name = Some m → (∀ d, d ∈ ds → TrimSpace d ∈ deps m) →
  last (ts_path ts) = Some name → sorter_inv mods ts →
  visitDeps v name ds ts = Some (ts', r) →
  match r with
  | None => extends mods (TrimSpace <$> ds) ts ts' ∧
            ∀ d, d ∈ TrimSpace <$> ds → ts_st ts' d = stateVisited ∧ d ≠ "" ∧ d ≠ name
  | Some e => fault mods e
  end.
Proof.
  intros Hv Hm. revert ts. induction ds as [|d ds IH]; intros ts Hds Hlast I Hvis; simpl in *.
  { simplify_eq. split; [by apply extends_refl|set_solver]. }
  assert (depends mods name (TrimSpace d)) as Hdep by (exists m; split; [done|set_solver]).
  destruct (visitDependency v name (TrimSpace d) ts) as [[ts1 [e|]]|] eqn:Hd; [| |done].
  - simplify_eq. unfold visitDependency in Hd. repeat case_decide; simplify_eq.
    + apply fault_empty. congruence.
    + apply fault_self. congruence.
    + eapply (Hv _ _ _ (Some e)); eauto. unfold reachable_next. by rewrite Hlast.
  - unfold visitDependency in Hd. repeat case_decide; simplify_eq.
    apply Hv in Hd as [He Hst]; [|done|unfold reachable_next; by rewrite Hlast].
    pose proof He as (I1 & Hp1 & _).
    apply IH in Hvis; [|set_solver|congruence|done]. destruct r as [e|]; [done|].
    destruct Hvis as [He' Hall]. split; [by apply (extends_trans _ [_] _ _ ts1)|].
    intros d' [->|?]%elem_of_cons; [|auto]. split_and!; eauto using extends_visited.
Qed.

Lemma visit_spec fuel name ts ts' r :
  visit fuel name ts = Some (ts', r) → sorter_inv mods ts →
  reachable_next mods (ts_path ts) name → visit_post mods name ts ts' r.
Proof.
  revert name ts ts' r. induction fuel as [|fuel IH]; intros name ts ts' r Hv I Hnext; [done|].
  simpl in Hv. destruct (ts_st ts name) eqn:Hst.
  2: { simplify_eq. by apply cycleError_fault. }
  2: { simplify_eq. split; [by apply extends_refl|done]. }
  rewrite (inv_mods _ _ I) in Hv.
  destruct (mods !! name) as [m|] eqn:Hm.
  2: { simplify_eq. unfold reachable_next in Hnext.
       destruct (last _) as [p|]; [by eapply fault_missing|].
       rewrite Hm in Hnext. by destruct Hnext. }
  pose proof (enter_inv _ _ _ _ I Hst Hm Hnext) as I1.
  destruct (visitDeps (visit fuel) name (DependsOn m) (enter name ts)) as [[ts1 r1]|] eqn:Hvd; [|done].
  apply (visitDeps_spec _ _ m) in Hvd; [|by eauto|done|unfold deps; set_solver| |done].
  2: { simpl. by rewrite last_snoc. }
  destruct r1 as [e|]; simplify_eq; [done|]. destruct Hvd as [(I2 & Hp & new & Ho & Hf) Hdeps].
  split; [split_and!|].
  - eapply leave_emit_inv; eauto. by rewrite Hp.
  - simpl. rewrite Hp. simpl. apply removelast_last.
  - exists (new ++ [m]). simpl. rewrite Ho, app_assoc. split; [done|]. apply Forall_app. split.
    + eapply Forall_impl; [done|]. intros m' (n & Hn & ?). exists name. split; [set_solver|].
      eapply rtc_l; [|done]. by exists m.
    + apply Forall_singleton. exists name. rewrite (Hkeyed _ _ Hm). split; [set_solver|done].
  - unfold leave. rewrite ts_st_insert. by rewrite decide_True.
Qed.

Lemma sortLoop_spec fuel names ts ts' r :
  sortLoop fuel names ts = Some (ts', r) → sorter_inv mods ts → ts_path ts = [] →
  Forall (λ n, is_Some (mods !! n)) names →
  match r with
  | None => extends mods names ts ts' ∧ ∀ n, n ∈ names → ts_st ts' n = stateVisited
  | Some e => fault mods e
  end.
Proof.
  revert ts. induction names as [|n names IH]; intros ts Hl I Hp Hreg; simpl in Hl.
  { simplify_eq. split; [by apply extends_refl|set_solver]. }
  apply Forall_cons in Hreg as [Hn Hreg].
  assert (∃ ts1 r1, match r1 with None => True | Some _ => ts1 = ts' ∧ r = r1 end ∧
     visit_post mods n ts ts1 r1 ∧
     (r1 = None → sortLoop fuel names ts1 = Some (ts', r))) as (ts1 & r1 & Hr & Hpost & Hrest).
  { destruct (ts_st ts n) eqn:Hst.
    - destruct (visit fuel n ts) as [[ts1 r1]|] eqn:Hv; [|done].
      exists ts1, r1. apply visit_spec in Hv; [|done|unfold reachable_next; by rewrite Hp].
      destruct r1; by simplify_eq.
    - apply (inv_visiting _ _ I) in Hst. rewrite Hp in Hst. set_solver.
    - exists ts, None. split_and!; [done| |done]. split; [by apply extends_refl|done]. }
  destruct r1 as [e|]; [by destruct Hr as [_ ->]|]. destruct Hpost as [He Hst].
  pose proof He as (I1 & Hp1 & _). specialize (Hrest eq_refl).
  apply IH in Hrest; [|done|congruence|done]. destruct r as [e|]; [done|].
  destruct Hrest as [He' Hall]. split; [by apply (extends_trans _ [n] _ _ ts1)|].
  intros n' [->|?]%elem_of_cons; eauto using extends_visited.
Qed.
End visit_spec.

(** * Termination: the fuel is enough *)

(** Registered modules not yet visited: the measure of the traversal. *)
Definition pending (ts : topoSorter) : gset string :=
  filter (λ n, ts_st ts n = stateUnvisited) (dom (ts_modules ts)).

(** No operation of the sorter forgets a visit. *)
Definition advances (ts ts' : topoSorter) : Prop :=
  ts_modules ts' = ts_modules ts ∧
  ∀ n, ts_st ts' n = stateUnvisited → ts_st ts n = stateUnvisited.

#[local] Instance advances_preorder : PreOrder advances.
Proof. split; [done|]. intros ??? [??] [??]; split; [congruence|naive_solver]. Qed.

Lemma advances_insert name s ts ms o p :
  s ≠ stateUnvisited → ms = ts_modules ts →
  advances ts (TopoSorter ms (<[name := s]> (ts_state ts)) o p).
Proof. intros. split; [done|]. intros n. rewrite ts_st_insert. by case_decide. Qed.

Lemma advances_pending ts ts' : advances ts ts' → pending ts' ⊆ pending ts.
Proof.
  intros [Hm Hs] n. unfold pending. rewrite !elem_of_filter, Hm. naive_solver.
Qed.

Lemma visitDeps_advances v name ds ts ts' r :
  (∀ n ts ts' r, v n ts = Some (ts', r) → advances ts ts') →
  visitDeps v name ds ts = Some (ts', r) → advances ts ts'.
Proof.
  intros Hv. revert ts. induction ds as [|d ds IH]; intros ts Hvis; simpl in *; [by simplify_eq|].
  destruct (visitDependency v name (TrimSpace d) ts) as [[ts1 r1]|] eqn:Hd; [|done].
  assert (advances ts ts1) as Ha.
  { unfold visitDependency in Hd. repeat case_decide; simplify_eq; [done..|eauto]. }
  destruct r1; simplify_eq; [done|]. etrans; [done|eauto].
Qed.

Lemma visit_advances fuel name ts ts' r :
  visit fuel name ts = Some (ts', r) → advances ts ts'.
Proof.
  revert name ts ts' r. induction fuel as [|fuel IH]; intros name ts ts' r; [done|]; simpl.
  repeat case_match; intros; simplify_eq; try done.
  all: match goal with H : visitDeps _ _ _ _ = Some _ |- _ =>
         apply visitDeps_advances in H; [|done] end.
  all: etrans; [by apply (advances_insert name stateVisiting)|].
  all: etrans; [done|]. 2: transitivity (emit m t); [done|].
  all: by apply (advances_insert name stateVisited).
Qed.

Lemma visitDeps_total v name ds ts :
  (∀ n ts', advances ts ts' → is_Some (v n ts')) →
  (∀ n ts ts' r, v n ts = Some (ts', r) → advances ts ts') →
  is_Some (visitDeps v name ds ts).
Proof.
  intros Hv Ha. revert ts Hv. induction ds as [|d ds IH]; intros ts Hv; simpl; [done|].
  assert (is_Some (visitDependency v name (TrimSpace d) ts)) as [[ts1 r1] Hd].
  { unfold visitDependency. repeat case_decide; [done..|]. by apply Hv. }
  rewrite Hd. destruct r1; [done|]. apply IH. intros n ts' ?. apply Hv.
  etrans; [|done]. unfold visitDependency in Hd.
  repeat case_decide; simplify_eq; eauto.
Qed.

Lemma visit_total fuel name ts : size (pending ts) < fuel → is_Some (visit fuel name ts).
Proof.
  revert name ts. induction fuel as [|fuel IH]; intros name ts Hlt; [lia|]; simpl.
  destruct (ts_st ts name) eqn:Hst; [|done..].
  destruct (ts_modules ts !! name) as [m|] eqn:Hm; [|done].
  assert (is_Some (visitDeps (visit fuel) name (DependsOn m) (enter name ts))) as [[ts1 r1] Hd].
  { apply visitDeps_total; [|eauto using visit_advances]. intros n ts' Ha. apply IH.
    assert (pending ts' ⊂ pending ts) as Hlt'%subset_size; [|lia].
    apply advances_pending in Ha. split.
    - etrans; [done|]. by apply advances_pending, advances_insert.
    - intros Hsub. assert (name ∈ pending ts') as Hin%Ha.
      { apply Hsub, elem_of_filter. split; [done|]. by apply elem_of_dom. }
      apply elem_of_filter in Hin as [Hin _]. unfold enter in Hin.
      rewrite ts_st_insert, decide_True in Hin; done. }
  rewrite Hd. by destruct r1.
Qed.

Lemma sortLoop_total fuel names ts : size (pending ts) < fuel → is_Some (sortLoop fuel names ts).
Proof.
  revert ts. induction names as [|n names IH]; intros ts Hlt; simpl; [done|].
  destruct (ts_st ts n); [|by apply IH..].
  destruct (visit_total fuel n ts Hlt) as [[ts1 r1] Hv]. rewrite Hv. destruct r1; [done|].
  apply IH. apply visit_advances, advances_pending, subseteq_size in Hv. lia.
Qed.

Lemma NoDup_split_unique {A} (a : A) k1 k2 x1 x2 :
  NoDup (k1 ++ a :: k2) → x1 ++ a :: x2 = k1 ++ a :: k2 → k1 = x1.
Proof.
  revert x1. induction k1 as [|y k1 IH]; intros [|z x1] Hnd Heq; simplify_eq/=; [done|..].
  - apply NoDup_cons in Hnd as [Hnd _]. set_solver.
  - apply NoDup_cons in Hnd as [Hnd _]. set_solver.
  - apply NoDup_cons in Hnd as [_ Hnd]. f_equal. eauto.
Qed.

Lemma sortLoop_app fuel n1 n2 ts ts' :
  sortLoop fuel (n1 ++ n2) ts = Some (ts', None) →
  ∃ ts1, sortLoop fuel n1 ts = Some (ts1, None) ∧ sortLoop fuel n2 ts1 = Some (ts', None).
Proof.
  revert ts. induction n1 as [|n n1 IH]; intros ts Hl; simpl in *; [eauto|].
  destruct (ts_st ts n); [|by apply IH..].
  destruct (visit fuel n ts) as [[ts1 [e|]]|]; simplify_eq; eauto.
Qed.

(** * Correctness of [sortModules] *)

(** The registration invariant of the manager: [moduleOrder] lists every
    registered name exactly once, and modules are keyed by their names. *)
Record registered (mods : gmap string M) (order : list string) : Prop := Registered {
  reg_nodup : NoDup order;
  reg_dom n : n ∈ order ↔ is_Some (mods !! n);
  reg_keyed : keyed mods;
}.

Section correct.
Context (mods : gmap string M) (order : list string) (Hreg : registered mods order).

Lemma sortModules_loop o :
  sortModules mods order = Some (inl o) →
  ∃ ts, sortLoop (S (size mods)) order (TopoSorter mods ∅ [] []) = Some (ts, None) ∧ ts_order ts = o.
Proof. unfold sortModules. repeat case_match; intros; simplify_eq. eauto. Qed.

Lemma order_registered : Forall (λ n, is_Some (mods !! n)) order.
Proof. apply Forall_forall. intros n. apply Hreg. Qed.

Lemma sort_loop_extends names ts :
  names ⊆ order → sortLoop (S (size mods)) names (TopoSorter mods ∅ [] []) = Some (ts, None) →
  extends mods names (TopoSorter mods ∅ [] []) ts ∧ ∀ n, n ∈ names → ts_st ts n = stateVisited.
Proof.
  intros Hsub Hl. eapply (sortLoop_spec mods (reg_keyed _ _ Hreg) _ names _ _ None) in Hl;
    [done|apply init_inv|done|].
  apply Forall_forall. intros n ?. by apply Hreg, Hsub.
Qed.

Lemma sort_ok_inv o : sortModules mods order = Some (inl o) →
  ∃ ts, ts_order ts = o ∧ sorter_inv mods ts ∧ ∀ n, n ∈ key <$> o ↔ n ∈ order.
Proof.
  intros (ts & Hl & <-)%sortModules_loop. exists ts. split; [done|].
  apply sort_loop_extends in Hl as [(I & _) Hall]; [|done]. split; [done|].
  intros n. split.
  - intros (m & -> & Hm%(inv_reg _ _ I))%list_elem_of_fmap. by apply Hreg.
  - intros ?. by apply (inv_visited _ _ I), Hall.
Qed.

Lemma sort_ok_correct o : sortModules mods order = Some (inl o) →
  key <$> o ≡ₚ order ∧ topo_sorted o ∧ ∀ m, m ∈ o → mods !! key m = Some m.
Proof.
  intros (ts & <- & I & Hall)%sort_ok_inv. split_and!; [|apply I|apply I].
  apply NoDup_Permutation; [apply I|apply Hreg|done].
Qed.

(** A prefix of a topologically sorted list is closed under dependencies. *)
Lemma prefix_closed o l1 l2 a b :
  topo_sorted o → (∀ m, m ∈ o → mods !! key m = Some m) → o = l1 ++ l2 →
  rtc (depends mods) a b → a ∈ key <$> l1 → b ∈ key <$> l1.
Proof.
  intros Ht Hm -> Hr. induction Hr as [|a d b (m & Ha & Hd) _ IH]; [done|].
  intros (m' & -> & Hin)%list_elem_of_fmap. apply IH.
  rewrite Hm in Ha by set_solver. simplify_eq.
  apply list_elem_of_split in Hin as (k1 & k2 & ->).
  rewrite fmap_app, elem_of_app. left. apply (Ht k1 m (k2 ++ l2)); [|done].
  by rewrite <-app_assoc.
Qed.

Lemma sort_ok_wf o : sortModules mods order = Some (inl o) → wf_graph mods.
Proof.
  intros Ho. pose proof Ho as (ts & <- & I & Hall)%sort_ok_inv. split.
  - intros a b (m & Ha & Hb).
    assert (m ∈ ts_order ts) as Hm.
    { assert (a ∈ key <$> ts_order ts) as Hin by (apply Hall, Hreg; eauto).
      apply list_elem_of_fmap in Hin as (m' & -> & Hin).
      rewrite (inv_reg _ _ I) in Ha by done. by simplify_eq. }
    split; [by eapply (inv_valid _ _ I)|].
    apply list_elem_of_split in Hm as (k1 & k2 & Hk).
    apply Hreg, Hall. rewrite Hk, fmap_app. apply elem_of_app. left.
    by eapply (inv_topo _ _ I).
  - intros a Hcyc.
    assert (∃ d, depends mods a d ∧ rtc (depends mods) d a) as (d & (m & Ha & Hd) & Hr).
    { inversion Hcyc; subst; eauto using tc_rtc. }
    assert (a ∈ key <$> ts_order ts) as Hin by (apply Hall, Hreg; eauto).
    apply list_elem_of_fmap in Hin as (m' & -> & Hin).
    rewrite (inv_reg _ _ I) in Ha by done. simplify_eq.
    apply list_elem_of_split in Hin as (k1 & k2 & Hk).
    assert (key m ∈ key <$> k1) as Hbad.
    { eapply prefix_closed; [apply I|apply I|exact Hk|exact Hr|]. by eapply (inv_topo _ _ I). }
    pose proof (inv_nodup _ _ I) as Hnd. rewrite Hk, fmap_app in Hnd.
    apply NoDup_app in Hnd as (_ & Hnd & _). apply (Hnd _ Hbad). set_solver.
Qed.

Lemma fault_not_wf e : fault mods e → ¬ wf_graph mods.
Proof.
  intros Hf [Hdep Hac]. destruct Hf as [a b Hd Hb|a Hd|a Hd|a l Hs].
  - destruct (Hdep _ _ Hd) as [_ [? ?]]. congruence.
  - by destruct (Hdep _ _ Hd).
  - apply (Hac a). by constructor.
  - apply (Hac a). by eapply Sorted_tc.
Qed.

Lemma sort_err_fault e : sortModules mods order = Some (inr e) → fault mods e.
Proof.
  unfold sortModules. destruct (sortLoop _ _ _) as [[ts [e'|]]|] eqn:Hl; intros; simplify_eq.
  eapply (sortLoop_spec _ (reg_keyed _ _ Hreg) _ _ _ _ (Some e)); [done|apply init_inv|done|].
  apply order_registered.
Qed.

Lemma sort_total_lemma : is_Some (sortModules mods order).
Proof.
  unfold sortModules. edestruct (sortLoop_total (S (size mods)) order) as [[ts r] ->].
  - apply Nat.lt_succ_r. unfold pending; simpl.
    rewrite <-size_dom. apply subseteq_size. intros n [_ ?]%elem_of_filter. done.
  - by destruct r.
Qed.

Lemma sort_tie_lemma o l1 a l2 k1 k2 b :
  sortModules mods order = Some (inl o) → order = l1 ++ a :: l2 → b ∈ l2 →
  key <$> o = k1 ++ a :: k2 → b ∈ k1 →
  ∃ c, c ∈ l1 ++ [a] ∧ tc (depends mods) c b.
Proof.
  intros Ho Hord Hb Hk Hb1. pose proof Ho as (ts & <- & I & _)%sort_ok_inv.
  apply sortModules_loop in Ho as (ts' & Hl & Ho).
  assert (order = (l1 ++ [a]) ++ l2) as Hsplit by (rewrite <-app_assoc; done).
  rewrite Hsplit in Hl. apply sortLoop_app in Hl as (ts1 & Hl1 & Hl2).
  apply sort_loop_extends in Hl1 as [(I1 & Hp1 & new & Hn & Hf) Hall]; [|set_solver].
  eapply (sortLoop_spec mods (reg_keyed _ _ Hreg) _ l2 _ _ None) in Hl2
    as [(_ & _ & new2 & Ho2 & _) _]; [|done..|].
  2: { apply Forall_forall. intros n ?. apply Hreg. set_solver. }
  rewrite Ho in Ho2. simpl in Hn.
  assert (a ∈ key <$> new) as Ha by (rewrite <-Hn; apply I1, Hall; set_solver).
  apply list_elem_of_split in Ha as (x1 & x2 & Hx).
  pose proof (inv_nodup _ _ I) as Hnd. rewrite Hk in Hnd.
  rewrite Ho2, Hn, fmap_app, Hx, <-app_assoc in Hk. simpl in Hk.
  apply (NoDup_split_unique _ _ _ _ _ Hnd) in Hk as ->.
  assert (b ∈ key <$> new) as (m & -> & Hm)%list_elem_of_fmap by (rewrite Hx; set_solver).
  rewrite Forall_forall in Hf. apply Hf in Hm as (c & Hc & Hr). exists c. split; [done|].
  apply rtc_tc in Hr as [->|]; [|done].
  pose proof (reg_nodup _ _ Hreg) as Hnd'. rewrite Hsplit in Hnd'.
  apply NoDup_app in Hnd' as (_ & Hdisj & _). by destruct (Hdisj _ Hc).
Qed.
End correct.
End sorter.

Arguments topoSorter : clear implicits.

(** * Properties *)

(** C1. A successful sort returns every registered module exactly once, each
    one after all the modules it depends on. *)
Theorem sort_sound {M} `{Sortable M} (mods : gmap string M) (order : list string) (o : list M) :
  registered mods order → sortModules mods order = Some (inl o) →
  key <$> o ≡ₚ order ∧ topo_sorted o ∧ (∀ m, m ∈ o → mods !! key m = Some m).
Proof. intros. by eapply sort_ok_correct. Qed.

(** C2. The sort always returns (the fuel of the traversal is enough for any
    graph), and it succeeds exactly on well-formed graphs: every declared
    dependency is a non-empty registered name and no module reaches itself. *)
Theorem sort_complete {M} `{Sortable M} (mods : gmap string M) (order : list string) :
  registered mods order →
  (∃ r, sortModules mods order = Some r) ∧
  ((∃ o, sortModules mods order = Some (inl o)) ↔ wf_graph mods).
Proof.
  intros Hreg. destruct (sort_total_lemma mods order) as [[o|e] Hr]; rewrite Hr.
  - split; [by eexists|]. split; [intros; by eapply sort_ok_wf|by eexists].
  - split; [by eexists|]. split; [by intros [? [=]]|].
    intros Hwf. by destruct (fault_not_wf mods e (sort_err_fault _ _ Hreg _ Hr)).
Qed.

(** C3. Every error of the sort names a defect that is in the graph: a
    dependency that is not registered, an empty dependency name, a
    self-dependency, or a chain of declared edges from a module to itself,
    which is the very chain the message prints. *)
Theorem sort_errors {M} `{Sortable M} (mods : gmap string M) (order : list string) (e : error) :
  registered mods order → sortModules mods order = Some (inr e) → fault mods e.
Proof. intros. by eapply sort_err_fault. Qed.

(** Registration order is the tie-break: if [b] was registered after [a]
    but is emitted before it, then [b] is a transitive dependency of [a] or of
    a module registered before [a]. *)
Theorem sort_tie_break {M} `{Sortable M} (mods : gmap string M) (order : list string)
    (o : list M) (l1 l2 k1 k2 : list string) (a b : string) :
  registered mods order → sortModules mods order = Some (inl o) →
  order = l1 ++ a :: l2 → b ∈ l2 → key <$> o = k1 ++ a :: k2 → b ∈ k1 →
  ∃ c, c ∈ l1 ++ [a] ∧ tc (depends mods) c b.
Proof. intros. by eapply sort_tie_lemma. Qed.

(** * Witnesses *)

(** Modules given by a name and a dependency list. *)
#[local] Instance pair_sortable : Sortable (string * list string) :=
  {| Name := fst; DependsOn := snd |}.

Definition demo_mods : list (string * list string) :=
  [("web", [" db "; "auth"]); ("db", []); ("auth", ["db"])].
Definition demo_map (l : list (string * list string)) : gmap string (string * list string) :=
  list_to_map ((λ m, (key m, m)) <$> l).
Definition demo_bad : list (string * list string) := [("a", ["b"]); ("b", ["c"]); ("c", ["b"])].

(** Boolean test of the registration invariant on a finite map. *)
Definition registeredb (mods : gmap string (string * list string)) (order : list string) : bool :=
  bool_decide (NoDup order) && bool_decide (list_to_set order = dom mods) &&
  bool_decide (map_Forall (λ k m, key m = k) mods).

Lemma registeredb_spec mods order : registeredb mods order = true → registered mods order.
Proof.
  unfold registeredb. rewrite !andb_true_iff, !bool_decide_eq_true.
  intros [[Hn Hd] Hk]. split; [done| |exact Hk].
  intros n. rewrite <-elem_of_dom, <-Hd. set_solver.
Qed.

Lemma demo_registered : registered (demo_map demo_mods) ["web"; "db"; "auth"].
Proof. apply registeredb_spec. vm_compute. reflexivity. Qed.

Lemma sort_sound_witness :
  key <$> [("db", []); ("auth", ["db"]); ("web", [" db "; "auth"])] ≡ₚ ["web"; "db"; "auth"].
Proof.
  apply (sort_sound (demo_map demo_mods) ["web"; "db"; "auth"]).
  - exact demo_registered.
  - vm_compute. reflexivity.
Defined.

Lemma sort_complete_witness : ∃ r, sortModules (demo_map demo_mods) ["web"; "db"; "auth"] = Some r.
Proof. apply (sort_complete (demo_map demo_mods)). exact demo_registered. Defined.

Lemma sort_errors_witness : fault (demo_map demo_bad) (errCycle ["b"; "c"; "b"]).
Proof.
  apply (sort_errors (demo_map demo_bad) ["a"; "b"; "c"]).
  - apply registeredb_spec. vm_compute. reflexivity.
  - vm_compute. reflexivity.
Defined.

Lemma sort_tie_break_witness : ∃ c, c ∈ ["web"] ∧ tc (depends (demo_map demo_mods)) c "db".
Proof.
  apply (sort_tie_break (demo_map demo_mods) ["web"; "db"; "auth"]
    [("db", []); ("auth", ["db"]); ("web", [" db "; "auth"])]
    [] ["db"; "auth"] ["db"; "auth"] [] "web" "db").
  - exact demo_registered.
  - vm_compute. reflexivity.
  - reflexivity.
  - apply list_elem_of_here.
  - vm_compute. reflexivity.
  - apply list_elem_of_here.
Defined.
