(* ===== verification/Manager.v ===== *)
(** The Manager's data and its atomic registry operations (src/modulex.go,
    src/wire.go, src/typedconfig.go).

    Every operation of this file runs inside one critical section of the Go
    code (or touches immutable configuration), so it is a pure function from
    the manager to its result and the new manager.  Logging and tracing spans
    only observe and are left out.  Module callbacks, task bodies and the
    event bus are code of the Manager's clients: [Prog] describes what such a
    callback does to the Manager through the [Registry] interface. *)

From stdpp Require Import base gmap list strings relations pretty.
From S2P Require Import Prelude TopoSort.

(** * Sentinel errors *)

Definition ErrServiceNotFound : string := "service not found".
Definition ErrRegistryLocked : string :=
  "registry is locked: cannot register services after initialization".
Definition ErrModuleNil : string := "module must not be nil".
Definition ErrInvalidModuleName : string := "module name must not be empty".
Definition ErrDuplicateModule : string := "module already registered".
Definition ErrDuplicateService : string := "service already registered".
Definition ErrDuplicateTask : string := "task already exists".
Definition ErrInvalidTaskName : string := "task name must not be empty".
Definition ErrInvalidServiceName : string := "service name must not be empty".
Definition ErrServiceTypeMismatch : string := "service type mismatch".
Definition ErrServiceNil : string := "service must not be nil".
Definition ErrInvalidLifecycleState : string := "invalid lifecycle state".
Definition ErrNoConfigLoader : string := "no config loader configured".
Definition ErrInvalidPanicPolicy : string := "invalid panic policy".
Definition ErrInvalidHealthCheckName : string := "health check name must not be empty".
Definition ErrInvalidReadinessCheckName : string := "readiness check name must not be empty".
Definition ErrHealthCheckNil : string := "health check function must not be nil".
Definition ErrReadinessCheckNil : string := "readiness check function must not be nil".
Definition ErrTaskHandleNotStarted : string := "modulex: task handle has no backing task to wait for".
Definition ErrConfigTypeMismatch : string := "config target type mismatch".

(** * Enumerations *)

Inductive LifecycleState :=
| StateConfiguring | StateInitializing | StateInitialized | StateStarting
| StateRunning | StateStopping | StateStopped.

#[export] Instance LifecycleState_eq_dec : EqDecision LifecycleState.
Proof. solve_decision. Defined.

Definition LifecycleState_String (s : LifecycleState) : string :=
  match s with
  | StateConfiguring => "configuring"
  | StateInitializing => "initializing"
  | StateInitialized => "initialized"
  | StateStarting => "starting"
  | StateRunning => "running"
  | StateStopping => "stopping"
  | StateStopped => "stopped"
  end.

(** [PanicPolicy] is an [int] in Go: values outside the enum exist and are
    rejected by [NewManager]. *)
Definition PanicPolicy := Z.
Definition PanicPolicyLog : PanicPolicy := 0%Z.
Definition PanicPolicyPropagate : PanicPolicy := 1%Z.
Definition PanicPolicy_valid (p : PanicPolicy) : bool :=
  Z.eqb p PanicPolicyLog || Z.eqb p PanicPolicyPropagate.

(** * Values held in the service map *)

(** The [reflect.Kind]s the code distinguishes. *)
Inductive Kind := KChan | KFunc | KInterface | KMap | KPointer | KSlice | KUnsafePointer | KOther.

#[export] Instance Kind_eq_dec : EqDecision Kind.
Proof. solve_decision. Defined.

(** A non-nil interface value: its dynamic type, kind, whether the wrapped
    value is nil, and its identity. *)
Record Value := mkValue { v_type : string; v_kind : Kind; v_nil : bool; v_ref : Z }.

(** [isNilServiceValue]: [None] is the nil interface. *)
Definition isNilServiceValue (svc : option Value) : bool :=
  match svc with
  | None => true
  | Some v =>
    match v_kind v with
    | KChan | KFunc | KInterface | KMap | KPointer | KSlice | KUnsafePointer => v_nil v
    | KOther => false
    end
  end.

(** * Contexts *)

(** A context by the instant it becomes done ([None]: never) and the error
    [Err()] then returns. *)
Record Ctx := mkCtx { ctx_done : option Z; ctx_cause : error }.

Definition ctx_Err (ctx : Ctx) (now : Z) : option error :=
  match ctx_done ctx with
  | Some t => if (t <=? now)%Z then Some (ctx_cause ctx) else None
  | None => None
  end.

(** * Client code *)

(** A config target: a pointer to a value of some type, possibly nil. *)
Record Target := mkTarget { t_type : string; t_nil : bool; t_val : Z }.

(** Calls a module may make through its [Registry].  Functions passed to the
    registry (health checks, task bodies) are references; [None] is nil. *)
Inductive RegOp :=
| ORegisterService (name : string) (svc : option Value)
| OResolveService (name : string)
| ORegisterHealthCheck (name : string) (fn : option Z)
| ORegisterReadinessCheck (name : string) (fn : option Z)
| OGo (name : string) (fn : option Z)
| OGetConfig (target : Target).

Inductive resp :=
| RErr (e : option error)
| RSvc (r : Value + error)
| RHandle (r : nat + error)
| RConfig (t : Target) (e : option error).

(** A callback: a finite interaction with the registry, the clock and its own
    context, ending with the error it returns. *)
Inductive Prog :=
| PRet (e : option error)
| POp (o : RegOp) (k : resp → Prog)
| PTick (d : N) (k : Prog)
| PCtxErr (k : option error → Prog).

(** A feature module; [Start] and [Stop] are the optional [Starter] and
    [Stopper] capabilities. *)
Record Module_ := mkModule {
  mod_Name : string;
  mod_DependsOn : list string;
  mod_Init : Ctx → Prog;
  mod_Start : option (Ctx → Prog);
  mod_Stop : option (Ctx → Prog);
}.

#[export] Instance Module_sortable : Sortable Module_ :=
  {| Name := mod_Name; DependsOn := mod_DependsOn |}.

Record EventBus := mkEventBus { eb_Close : Ctx → Prog }.
Definition noopEventBus : EventBus := {| eb_Close := λ _, PRet None |}.

(** * The Manager *)

(** A task handle; [h_done] is "the done channel is closed", [h_gen] the
    generation of the task context its own context derives from. *)
Record TaskHandle := mkHandle {
  h_name : string; h_done : bool; h_err : option error; h_gen : nat }.

(** What [taskMu] protects.  Handles are shared with the callers of [Go], so
    they live in a store of their own and [t_tasks] holds references. *)
Record Tasks := mkTasks {
  t_tasks : gmap string nat;
  t_errs : list error;
  t_gen : nat;
  t_cancelled : gset nat;
  t_handles : gmap nat TaskHandle;
}.

Record Timings := mkTimings {
  initTotal : Z; startTotal : Z;
  initTimings : gmap string Z; startTimings : gmap string Z }.

Record Manager := mkManager {
  m_services : gmap string Value;
  m_modules : gmap string Module_;
  m_moduleOrder : list string;
  m_orderedMods : list Module_;
  m_eventBus : option EventBus;
  m_configLoader : option (Target → Target * option error);
  m_state : LifecycleState;
  m_panicPolicy : PanicPolicy;
  m_tasks : Tasks;
  m_healthChecks : gmap string Z;
  m_readinessChecks : gmap string Z;
  m_timings : Timings;
}.

(** Field updates. *)
Definition set_services x (m : Manager) := mkManager x (m_modules m) (m_moduleOrder m) (m_orderedMods m) (m_eventBus m) (m_configLoader m) (m_state m) (m_panicPolicy m) (m_tasks m) (m_healthChecks m) (m_readinessChecks m) (m_timings m).
Definition set_modules x y (m : Manager) := mkManager (m_services m) x y (m_orderedMods m) (m_eventBus m) (m_configLoader m) (m_state m) (m_panicPolicy m) (m_tasks m) (m_healthChecks m) (m_readinessChecks m) (m_timings m).
Definition set_orderedMods x (m : Manager) := mkManager (m_services m) (m_modules m) (m_moduleOrder m) x (m_eventBus m) (m_configLoader m) (m_state m) (m_panicPolicy m) (m_tasks m) (m_healthChecks m) (m_readinessChecks m) (m_timings m).
Definition set_eventBus x (m : Manager) := mkManager (m_services m) (m_modules m) (m_moduleOrder m) (m_orderedMods m) x (m_configLoader m) (m_state m) (m_panicPolicy m) (m_tasks m) (m_healthChecks m) (m_readinessChecks m) (m_timings m).
Definition set_configLoader x (m : Manager) := mkManager (m_services m) (m_modules m) (m_moduleOrder m) (m_orderedMods m) (m_eventBus m) x (m_state m) (m_panicPolicy m) (m_tasks m) (m_healthChecks m) (m_readinessChecks m) (m_timings m).
Definition set_state x (m : Manager) := mkManager (m_services m) (m_modules m) (m_moduleOrder m) (m_orderedMods m) (m_eventBus m) (m_configLoader m) x (m_panicPolicy m) (m_tasks m) (m_healthChecks m) (m_readinessChecks m) (m_timings m).
Definition set_panicPolicy x (m : Manager) := mkManager (m_services m) (m_modules m) (m_moduleOrder m) (m_orderedMods m) (m_eventBus m) (m_configLoader m) (m_state m) x (m_tasks m) (m_healthChecks m) (m_readinessChecks m) (m_timings m).
Definition set_tasks x (m : Manager) := mkManager (m_services m) (m_modules m) (m_moduleOrder m) (m_orderedMods m) (m_eventBus m) (m_configLoader m) (m_state m) (m_panicPolicy m) x (m_healthChecks m) (m_readinessChecks m) (m_timings m).
Definition set_healthChecks x (m : Manager) := mkManager (m_services m) (m_modules m) (m_moduleOrder m) (m_orderedMods m) (m_eventBus m) (m_configLoader m) (m_state m) (m_panicPolicy m) (m_tasks m) x (m_readinessChecks m) (m_timings m).
Definition set_readinessChecks x (m : Manager) := mkManager (m_services m) (m_modules m) (m_moduleOrder m) (m_orderedMods m) (m_eventBus m) (m_configLoader m) (m_state m) (m_panicPolicy m) (m_tasks m) (m_healthChecks m) x (m_timings m).
Definition set_timings x (m : Manager) := mkManager (m_services m) (m_modules m) (m_moduleOrder m) (m_orderedMods m) (m_eventBus m) (m_configLoader m) (m_state m) (m_panicPolicy m) (m_tasks m) (m_healthChecks m) (m_readinessChecks m) x.

(** * Construction *)

Definition ManagerOption := Manager → Manager.
Definition WithEventBus (eb : option EventBus) : ManagerOption := set_eventBus eb.
Definition WithPanicPolicy (p : PanicPolicy) : ManagerOption := set_panicPolicy p.
Definition WithConfigLoader (l : option (Target → Target * option error)) : ManagerOption :=
  set_configLoader l.

(** [WithTypedConfig[T]]: [ty] names [T], [cfg] is the value copied out. *)
Definition WithTypedConfig (ty : string) (cfg : Z) : ManagerOption :=
  WithConfigLoader (Some (λ target,
    if negb (String.eqb (t_type target) ty) || t_nil target then
      (target, Some (Errorf "%w: GetConfig target must be *%T, got %T"
                       [ty; t_type target] [Const ErrConfigTypeMismatch]))
    else (mkTarget (t_type target) (t_nil target) cfg, None))).

Definition emptyTasks : Tasks := mkTasks ∅ [] 0 ∅ ∅.
Definition newManager0 : Manager :=
  mkManager ∅ ∅ [] [] (Some noopEventBus) None StateConfiguring PanicPolicyLog
            emptyTasks ∅ ∅ (mkTimings 0 0 ∅ ∅).

Definition NewManager (opts : list ManagerOption) : Manager + error :=
  let m := foldl (λ m opt, opt m) newManager0 opts in
  let m := match m_eventBus m with None => set_eventBus (Some noopEventBus) m | Some _ => m end in
  if negb (PanicPolicy_valid (m_panicPolicy m)) then
    inr (Errorf "%w: %d" [pretty (m_panicPolicy m)] [Const ErrInvalidPanicPolicy])
  else inl m.

(** * Registration *)

(** Register a named check in a map of checks: the body shared by health and
    readiness checks. *)
Definition registerCheck (errName errNil what name : string) (check : option Z)
    (checks : gmap string Z) : option error * gmap string Z :=
  let name := TrimSpace name in
  if decide (name = "") then (Some (Const errName), checks)
  else match check with
  | None => (Some (Const errNil), checks)
  | Some f =>
    match checks !! name with
    | Some _ => (Some (Errorf (what +:+ " check %q already registered") [name] []), checks)
    | None => (None, <[name := f]> checks)
    end
  end.

Definition RegisterHealthCheck (name : string) (check : option Z) (m : Manager)
    : option error * Manager :=
  prod_map id (λ c, set_healthChecks c m)
    (registerCheck ErrInvalidHealthCheckName ErrHealthCheckNil "health"
       name check (m_healthChecks m)).

Definition RegisterReadinessCheck (name : string) (check : option Z) (m : Manager)
    : option error * Manager :=
  prod_map id (λ c, set_readinessChecks c m)
    (registerCheck ErrInvalidReadinessCheckName ErrReadinessCheckNil "readiness"
       name check (m_readinessChecks m)).

Definition HealthChecks (m : Manager) : gmap string Z := m_healthChecks m.
Definition ReadinessChecks (m : Manager) : gmap string Z := m_readinessChecks m.

Definition RegisterModule (md : option Module_) (m : Manager) : option error * Manager :=
  if decide (m_state m ≠ StateConfiguring) then
    (Some (Errorf "%w: cannot register module while in %q state"
             [LifecycleState_String (m_state m)] [Const ErrRegistryLocked]), m)
  else match md with
  | None => (Some (Const ErrModuleNil), m)
  | Some md =>
    let name := TrimSpace (mod_Name md) in
    if decide (name = "") then (Some (Const ErrInvalidModuleName), m)
    else match m_modules m !! name with
    | Some _ => (Some (Errorf "%w: %q" [name] [Const ErrDuplicateModule]), m)
    | None => (None, set_modules (<[name := md]> (m_modules m)) (m_moduleOrder m ++ [name]) m)
    end
  end.

Definition RegisterService (name : string) (svc : option Value) (m : Manager)
    : option error * Manager :=
  if decide (m_state m ≠ StateConfiguring ∧ m_state m ≠ StateInitializing) then
    (Some (Errorf "%w: cannot register service while in %q state"
             [LifecycleState_String (m_state m)] [Const ErrRegistryLocked]), m)
  else
    let name := TrimSpace name in
    if decide (name = "") then (Some (Const ErrInvalidServiceName), m)
    else if isNilServiceValue svc then (Some (Const ErrServiceNil), m)
    else match svc, m_services m !! name with
    | Some v, None => (None, set_services (<[name := v]> (m_services m)) m)
    | _, _ => (Some (Errorf "%w: %q" [name] [Const ErrDuplicateService]), m)
    end.

Definition ResolveService (name : string) (m : Manager) : Value + error :=
  let name := TrimSpace name in
  if decide (name = "") then inr (Const ErrInvalidServiceName)
  else match m_services m !! name with
  | None => inr (Errorf "%w: %q" [name] [Const ErrServiceNotFound])
  | Some svc => inl svc
  end.

Definition GetConfig (target : Target) (m : Manager) : Target * option error :=
  match m_configLoader m with
  | None => (target, Some (Const ErrNoConfigLoader))
  | Some loader => loader target
  end.

(** * Typed keys (src/wire.go) *)

(** A key of type [T]: its name, and which dynamic values assert to [T]. *)
Record Key := mkKey { k_name : string; k_assert : Value → bool }.
Definition NewKey (name : string) (assert : Value → bool) : Key := mkKey (TrimSpace name) assert.

Definition Provide (key : Key) (svc : option Value) (m : Manager) : option error * Manager :=
  if decide (k_name key = "") then
    (Some (Errorf "%w: service key must not be empty" [] [Const ErrInvalidServiceName]), m)
  else RegisterService (k_name key) svc m.

Definition Resolve (key : Key) (m : Manager) : Value + error :=
  if decide (k_name key = "") then
    inr (Errorf "%w: service key must not be empty" [] [Const ErrInvalidServiceName])
  else match ResolveService (k_name key) m with
  | inr e => inr e
  | inl raw =>
    if k_assert key raw then inl raw
    else inr (Errorf "%w: service %q is %T, not %T" [k_name key; v_type raw]
                [Const ErrServiceTypeMismatch])
  end.

(** * Supervised tasks *)

(** [taskCtx.Err() != nil] for the current generation. *)
Definition taskCtx_cancelled (t : Tasks) : bool := bool_decide (t_gen t ∈ t_cancelled t).

(** [Manager.Go] up to the spawn: the new handle is the goroutine's and the
    caller's.  The goroutine itself is [superviseTask]. *)
Definition Go (taskName : string) (fn : option Z) (m : Manager) : (nat + error) * Manager :=
  let taskName := TrimSpace taskName in
  if decide (taskName = "") then (inr (Errorf "%w" [] [Const ErrInvalidTaskName]), m)
  else match fn with
  | None => (inr (Errorf "task function must not be nil" [] []), m)
  | Some _ =>
    if decide (m_state m = StateStopping ∨ m_state m = StateStopped) then
      (inr (Errorf "%w: cannot start task %q while in %q state"
              [taskName; LifecycleState_String (m_state m)] [Const ErrRegistryLocked]), m)
    else let t := m_tasks m in
    if taskCtx_cancelled t then
      (inr (Errorf "%w: cannot start task %q while shutting down" [taskName]
              [Const ErrRegistryLocked]), m)
    else match t_tasks t !! taskName with
    | Some _ => (inr (Errorf "%w: task %q" [taskName] [Const ErrDuplicateTask]), m)
    | None =>
      let h := fresh (dom (t_handles t)) in
      (inl h, set_tasks (mkTasks (<[taskName := h]> (t_tasks t)) (t_errs t) (t_gen t)
                 (t_cancelled t)
                 (<[h := mkHandle taskName false None (t_gen t)]> (t_handles t))) m)
    end
  end.

(** How a task body ends. *)
Inductive TaskOutcome := TaskReturned (e : option error) | TaskPanicked (v : string).

(** [TaskHandle.finish]; [None] is the runtime panic of closing a closed channel. *)
Definition finish (err : option error) (h : TaskHandle) : option TaskHandle :=
  if h_done h then None else Some (mkHandle (h_name h) true err (h_gen h)).

Definition taskError (taskName : string) (o : TaskOutcome) : option error :=
  match o with
  | TaskReturned e => e
  | TaskPanicked v => Some (Errorf "panic in background task %q: %v" [taskName; v] [])
  end.

(** [superviseTask] from the return of the body on: record the error, remove
    the task, finish the handle, all under [taskMu].  The flag says whether
    the goroutine then panics, which ends the process. *)
Definition superviseTask (taskName : string) (handle : nat) (o : TaskOutcome) (m : Manager)
    : bool * Manager :=
  let t := m_tasks m in
  let taskErr := taskError taskName o in
  let errs := match taskErr with
    | Some e => t_errs t ++ [Errorf "task %q failed: %w" [taskName] [e]]
    | None => t_errs t
    end in
  let repanic := match o with
    | TaskPanicked _ => Z.eqb (m_panicPolicy m) PanicPolicyPropagate
    | TaskReturned _ => false
    end in
  match t_handles t !! handle with
  | None => (true, m)
  | Some h =>
    match finish taskErr h with
    | None => (true, m)
    | Some h' =>
      (repanic, set_tasks (mkTasks (delete taskName (t_tasks t)) errs (t_gen t)
                  (t_cancelled t) (<[handle := h']> (t_handles t))) m)
    end
  end.

(** [TaskHandle.Wait] without the blocking: [None] while the task runs.  A
    handle the Manager never issued ([None] in the store) is a zero value. *)
Definition TaskHandle_Wait (h : option TaskHandle) : option (option error) :=
  match h with
  | None => Some (Some (Const ErrTaskHandleNotStarted))
  | Some h => if h_done h then Some (h_err h) else None
  end.
Definition TaskHandle_Done (h : option TaskHandle) : bool :=
  match h with None => false | Some h => h_done h end.
Definition TaskHandle_Err (h : TaskHandle) : option error := h_err h.

(** Cancel the generation [g] of the task context; install a fresh one. *)
Definition taskCancel (g : nat) (m : Manager) : Manager :=
  let t := m_tasks m in
  set_tasks (mkTasks (t_tasks t) (t_errs t) (t_gen t) ({[g]} ∪ t_cancelled t) (t_handles t)) m.
Definition resetTaskCtx (m : Manager) : Manager :=
  let t := m_tasks m in
  let g := fresh ({[t_gen t]} ∪ t_cancelled t) in
  set_tasks (mkTasks (t_tasks t) (t_errs t) g (t_cancelled t) (t_handles t)) m.
(** Take the recorded task errors ([errs := m.taskErrs; m.taskErrs = nil]). *)
Definition drainTaskErrs (m : Manager) : Manager :=
  let t := m_tasks m in
  set_tasks (mkTasks (t_tasks t) [] (t_gen t) (t_cancelled t) (t_handles t)) m.

(** One registry call of a module. *)
Definition regOp (o : RegOp) (m : Manager) : resp * Manager :=
  match o with
  | ORegisterService n v => prod_map RErr id (RegisterService n v m)
  | OResolveService n => (RSvc (ResolveService n m), m)
  | ORegisterHealthCheck n f => prod_map RErr id (RegisterHealthCheck n f m)
  | ORegisterReadinessCheck n f => prod_map RErr id (RegisterReadinessCheck n f m)
  | OGo n f => prod_map RHandle id (Go n f m)
  | OGetConfig t => (RConfig (GetConfig t m).1 (GetConfig t m).2, m)
  end.

(** * Invariant of the Manager *)

(** A key of one of the Manager's maps is a trimmed, non-empty name. *)
Definition name_ok (k : string) : Prop := TrimSpace k = k ∧ k ≠ "".

Record mgr_inv (m : Manager) : Prop := MgrInv {
  mi_reg : registered (m_modules m) (m_moduleOrder m);
  mi_mod k : is_Some (m_modules m !! k) → name_ok k;
  mi_svc k v : m_services m !! k = Some v → name_ok k ∧ isNilServiceValue (Some v) = false;
  mi_health k : is_Some (m_healthChecks m !! k) → name_ok k;
  mi_ready k : is_Some (m_readinessChecks m !! k) → name_ok k;
  mi_tasks n h : t_tasks (m_tasks m) !! n = Some h →
    ∃ th, t_handles (m_tasks m) !! h = Some th ∧ h_name th = n ∧ h_done th = false;
  mi_handles h th : t_handles (m_tasks m) !! h = Some th → h_done th = false →
    t_tasks (m_tasks m) !! h_name th = Some h;
  mi_bus : m_eventBus m ≠ None;
  mi_policy : PanicPolicy_valid (m_panicPolicy m) = true;
}.

(** Every atomic step other goroutines, module callbacks and the lifecycle
    methods take on the Manager. *)
Inductive mgr_step (m : Manager) : Manager → Prop :=
| step_module md : mgr_step m (RegisterModule md m).2
| step_op o : mgr_step m (regOp o m).2
| step_task n h o : t_tasks (m_tasks m) !! n = Some h → mgr_step m (superviseTask n h o m).2
| step_cancel g : mgr_step m (taskCancel g m)
| step_reset : mgr_step m (resetTaskCtx m)
| step_drain : mgr_step m (drainTaskErrs m)
| step_state s : mgr_step m (set_state s m)
| step_ordered o : mgr_step m (set_orderedMods o m)
| step_timings t : mgr_step m (set_timings t m).

Lemma name_ok_trim n : TrimSpace n ≠ "" → name_ok (TrimSpace n).
Proof. intros. split; [apply TrimSpace_idemp|done]. Qed.

Lemma is_Some_insert {A} (mp : gmap string A) i j x :
  is_Some (<[i := x]> mp !! j) ↔ i = j ∨ is_Some (mp !! j).
Proof. rewrite lookup_insert. case_decide; naive_solver. Qed.

Lemma registerCheck_names e1 e2 w n f cs k :
  (∀ k, is_Some (cs !! k) → name_ok k) →
  is_Some ((registerCheck e1 e2 w n f cs).2 !! k) → name_ok k.
Proof.
  intros Hc. unfold registerCheck. go_cases; simpl; try apply Hc.
  rewrite is_Some_insert. intros [<-|?]; [by apply name_ok_trim|auto].
Qed.

Lemma RegisterModule_inv md m : mgr_inv m → mgr_inv (RegisterModule md m).2.
Proof.
  intros I. unfold RegisterModule. go_cases; simpl; try done.
  destruct I as [[Hn Hd Hk] ? ? ? ? ? ? ? ?]. split; simpl; try done.
  - assert (TrimSpace (mod_Name m0) ∉ m_moduleOrder m) by (rewrite Hd, <-eq_None_not_Some; done).
    split.
    + apply NoDup_app. split_and!; [done|set_solver|apply NoDup_singleton].
    + intros n'. rewrite elem_of_app, list_elem_of_singleton, is_Some_insert, Hd. naive_solver.
    + intros k md'. rewrite lookup_insert. case_decide; [|apply Hk]. by intros [= <-].
  - intros k. rewrite is_Some_insert. intros [<-|?]; [by apply name_ok_trim|auto].
Qed.

Lemma RegisterService_inv n v m : mgr_inv m → mgr_inv (RegisterService n v m).2.
Proof.
  intros I. unfold RegisterService. go_cases; simpl; try done.
  destruct I as [? ? Is]. split; simpl; try done. intros k v'. rewrite lookup_insert.
  case_decide; [|apply Is]. intros [= <-]. subst. split; [by apply name_ok_trim|done].
Qed.

Lemma Go_inv n f m : mgr_inv m → mgr_inv (Go n f m).2.
Proof.
  intros I. unfold Go. go_cases; simpl; try done.
  destruct I as [? ? ? ? ? It Ih ? ?].
  set (h := fresh (dom (t_handles (m_tasks m)))).
  assert (t_handles (m_tasks m) !! h = None) as Hh by apply not_elem_of_dom, is_fresh.
  split; simpl; try done.
  - intros n' h'. rewrite lookup_insert. case_decide.
    + intros [= <-]. rewrite lookup_insert_eq. by eexists.
    + intros Ht%It. destruct Ht as (th & Hth & ?). exists th.
      rewrite lookup_insert_ne; [done|congruence].
  - intros h' th. rewrite !lookup_insert. case_decide as Hhh.
    + intros [= <-] _; simpl. rewrite decide_True; congruence.
    + intros Hth Hd. specialize (Ih _ _ Hth Hd). case_decide; [|done]. congruence.
Qed.

Lemma superviseTask_inv n h o m :
  t_tasks (m_tasks m) !! n = Some h → mgr_inv m → mgr_inv (superviseTask n h o m).2.
Proof.
  intros Ht I. unfold superviseTask, finish.
  destruct I as [? ? ? ? ? It Ih ? ?]. destruct (It _ _ Ht) as (th & Hth & Hn & Hd).
  rewrite Hth, Hd. split; simpl; try done.
  - intros n' h' [Hne Ht']%lookup_delete_Some. destruct (It _ _ Ht') as (th' & Hth' & ?).
    exists th'. rewrite lookup_insert_ne; [done|]. intros ->. naive_solver.
  - intros h' th'. rewrite lookup_insert. case_decide; [by intros [= <-]|].
    intros Hth' Hd'. specialize (Ih _ _ Hth' Hd'). rewrite lookup_delete_ne; [done|]. congruence.
Qed.

(** Updates of fields the invariant does not constrain. *)
Lemma set_fields_inv m : mgr_inv m →
  (∀ s, mgr_inv (set_state s m)) ∧ (∀ o, mgr_inv (set_orderedMods o m)) ∧
  (∀ t, mgr_inv (set_timings t m)) ∧ (∀ g, mgr_inv (taskCancel g m)) ∧
  mgr_inv (resetTaskCtx m) ∧ mgr_inv (drainTaskErrs m).
Proof. intros []. split_and!; intros; by split. Qed.

Lemma regOp_inv o m : mgr_inv m → mgr_inv (regOp o m).2.
Proof.
  intros I. destruct o as [n v|n|n f|n f|n f|t]; simpl; unfold id; try done.
  - by apply RegisterService_inv.
  - destruct I. split; simpl; try done. intros k. by apply registerCheck_names.
  - destruct I. split; simpl; try done. intros k. by apply registerCheck_names.
  - by apply Go_inv.
Qed.

Lemma mgr_step_inv m m' : mgr_step m m' → mgr_inv m → mgr_inv m'.
Proof.
  intros [] I; eauto using RegisterModule_inv, regOp_inv, superviseTask_inv;
    by apply set_fields_inv in I; destruct_and?.
Qed.

Lemma mgr_steps_inv m m' : rtc mgr_step m m' → mgr_inv m → mgr_inv m'.
Proof. induction 1; eauto using mgr_step_inv. Qed.

(** The options of the package. *)
Inductive std_option : ManagerOption → Prop :=
| opt_bus eb : std_option (WithEventBus eb)
| opt_policy p : std_option (WithPanicPolicy p)
| opt_loader l : std_option (WithConfigLoader l)
| opt_typed ty cfg : std_option (WithTypedConfig ty cfg).

(** Options touch neither registrations nor tasks. *)
Definition pristine (m : Manager) : Prop :=
  m_services m = ∅ ∧ m_modules m = ∅ ∧ m_moduleOrder m = [] ∧ m_tasks m = emptyTasks ∧
  m_healthChecks m = ∅ ∧ m_readinessChecks m = ∅ ∧ m_state m = StateConfiguring ∧
  m_orderedMods m = [].

Lemma NewManager_pristine opts m :
  Forall std_option opts → NewManager opts = inl m →
  pristine m ∧ m_eventBus m ≠ None ∧ PanicPolicy_valid (m_panicPolicy m) = true.
Proof.
  intros Ho. unfold NewManager.
  assert (∀ m0, pristine m0 → pristine (foldl (λ m opt, opt m) m0 opts)) as Hp.
  { induction Ho as [|o opts Hstd _ IH]; simpl; [done|]. intros m0 ?. apply IH. by destruct Hstd. }
  specialize (Hp newManager0 ltac:(done)). revert Hp. generalize (foldl (λ m opt, opt m) newManager0 opts).
  intros m1 Hp. destruct (m_eventBus m1) eqn:He.
  - destruct (PanicPolicy_valid (m_panicPolicy m1)) eqn:Hv; simpl; intros; simplify_eq.
    split_and!; congruence.
  - simpl. destruct (PanicPolicy_valid (m_panicPolicy m1)) eqn:Hv; simpl; intros; simplify_eq. done.
Qed.

Lemma NewManager_inv opts m : Forall std_option opts → NewManager opts = inl m → mgr_inv m.
Proof.
  intros Ho (Hp & ? & ?)%NewManager_pristine; [|done].
  destruct Hp as (Hs & Hm & Hmo & Ht & Hh & Hr & _).
  split; rewrite ?Hs, ?Hm, ?Hmo, ?Ht, ?Hh, ?Hr; try done.
  - split; [constructor| |done]. intros n. rewrite lookup_empty, is_Some_alt. set_solver.
  - intros k. by rewrite lookup_empty, is_Some_alt.
  - intros k. by rewrite lookup_empty, is_Some_alt.
  - intros k. by rewrite lookup_empty, is_Some_alt.
Qed.

(** * Stability of registrations and of finished tasks *)

Lemma regOp_services o m k v :
  m_services m !! k = Some v → m_services (regOp o m).2 !! k = Some v.
Proof.
  intros Hk. destruct o as [n x|n|n f|n f|n f|t]; simpl; try done; unfold id.
  - unfold RegisterService. go_cases; simpl; try done.
    rewrite lookup_insert_ne; [done|]. congruence.
  - unfold Go. by go_cases.
Qed.

Lemma mgr_step_services m m' k v :
  mgr_step m m' → m_services m !! k = Some v → m_services m' !! k = Some v.
Proof.
  intros [] Hk; try done.
  - unfold RegisterModule. by go_cases.
  - by apply regOp_services.
  - unfold superviseTask. by go_cases.
Qed.

Lemma mgr_steps_services m m' k v :
  rtc mgr_step m m' → m_services m !! k = Some v → m_services m' !! k = Some v.
Proof. induction 1; eauto using mgr_step_services. Qed.

Lemma mgr_step_modules m m' k v :
  mgr_step m m' → m_modules m !! k = Some v → m_modules m' !! k = Some v.
Proof.
  intros [] Hk; try done.
  - unfold RegisterModule. go_cases; simpl; try done.
    rewrite lookup_insert_ne; [done|]. congruence.
  - destruct o; simpl; try done; unfold id, RegisterService, Go; by go_cases.
  - unfold superviseTask. by go_cases.
Qed.

Lemma mgr_steps_modules m m' k v :
  rtc mgr_step m m' → m_modules m !! k = Some v → m_modules m' !! k = Some v.
Proof. induction 1; eauto using mgr_step_modules. Qed.

Lemma Go_handles n f m h th :
  t_handles (m_tasks m) !! h = Some th → t_handles (m_tasks (Go n f m).2) !! h = Some th.
Proof.
  intros Hh. unfold Go. go_cases; simpl; try done.
  rewrite lookup_insert_ne; [done|]. intros Heq.
  apply (is_fresh (dom (t_handles (m_tasks m)))). rewrite Heq. by apply elem_of_dom.
Qed.

Lemma mgr_step_handles m m' h th :
  mgr_step m m' → t_handles (m_tasks m) !! h = Some th → h_done th = true →
  t_handles (m_tasks m') !! h = Some th.
Proof.
  intros [] Hh Hd; try done.
  - unfold RegisterModule. by go_cases.
  - destruct o as [n x|n|n f|n f|n f|t]; simpl; try done; unfold id.
    + unfold RegisterService. by go_cases.
    + by apply Go_handles.
  - unfold superviseTask, finish. destruct (t_handles (m_tasks m) !! h0) as [th0|] eqn:Hth; [|done].
    destruct (h_done th0) eqn:Hd0; [done|]. simpl. rewrite lookup_insert_ne; [done|].
    intros ->. congruence.
Qed.

Lemma mgr_steps_handles m m' h th :
  rtc mgr_step m m' → t_handles (m_tasks m) !! h = Some th → h_done th = true →
  t_handles (m_tasks m') !! h = Some th.
Proof. induction 1; eauto using mgr_step_handles. Qed.

(** Managers reachable from a construction with the package's options. *)
Definition reachable (m : Manager) : Prop :=
  ∃ opts m0, Forall std_option opts ∧ NewManager opts = inl m0 ∧ rtc mgr_step m0 m.

Lemma reachable_inv m : reachable m → mgr_inv m.
Proof.
  intros (opts & m0 & Ho & Hn & Hs). apply NewManager_inv in Hn; [|done].
  by eapply mgr_steps_inv.
Qed.

(** * Properties *)

(** C4. Whatever sequence of registrations, registry calls, task endings and
    lifecycle steps a constructed Manager goes through, its maps stay
    consistent: names trimmed and non-empty, no nil service, [moduleOrder]
    listing each registered module once, and the running tasks being exactly
    the unfinished handles. *)
Theorem manager_invariant m : reachable m → mgr_inv m.
Proof. apply reachable_inv. Qed.

(** A service stored with [Provide] is what [Resolve] returns for the same
    key at any later point, checked against the key's type, whatever happens
    to the Manager in between. *)
Theorem provide_resolve key svc m m1 m2 :
  Provide key svc m = (None, m1) → rtc mgr_step m1 m2 →
  ∃ v, svc = Some v ∧
    Resolve key m2 = if k_assert key v then inl v
      else inr (Errorf "%w: service %q is %T, not %T" [k_name key; v_type v]
                  [Const ErrServiceTypeMismatch]).
Proof.
  unfold Provide, RegisterService, Resolve, ResolveService. intros Hp Hs.
  repeat case_decide; try done. destruct (isNilServiceValue svc) eqn:Hnil; [done|].
  destruct svc as [v|]; [|done]. exists v. split; [done|].
  destruct (m_services m !! _) eqn:Hv; simplify_eq/=.
  erewrite mgr_steps_services; [done|done|]. apply lookup_insert_eq.
Qed.

(** A supervised task that ends is removed from the task map and its
    handle finished in one step, exactly once: the goroutine panics only to
    propagate the body's own panic under [PanicPolicyPropagate], [Wait] gives
    the body's error (or the recovered panic) then and ever after, and the
    error is recorded once for the shutdown report. *)
Theorem task_finishes_once m n h o crash m' m'' :
  reachable m → t_tasks (m_tasks m) !! n = Some h →
  superviseTask n h o m = (crash, m') → rtc mgr_step m' m'' →
  crash = match o with
          | TaskPanicked _ => Z.eqb (m_panicPolicy m) PanicPolicyPropagate
          | TaskReturned _ => false end ∧
  t_tasks (m_tasks m') !! n = None ∧
  TaskHandle_Wait (t_handles (m_tasks m'') !! h) = Some (taskError n o) ∧
  t_errs (m_tasks m') = t_errs (m_tasks m) ++
    match taskError n o with Some e => [Errorf "task %q failed: %w" [n] [e]] | None => [] end.
Proof.
  intros I%reachable_inv Ht Hsup Hs. destruct (mi_tasks _ I _ _ Ht) as (th & Hth & Hn & Hd).
  unfold superviseTask, finish in Hsup. rewrite Hth, Hd in Hsup. simplify_eq/=.
  split_and!; [done|apply lookup_delete_eq| |].
  - erewrite mgr_steps_handles; [|exact Hs|apply lookup_insert_eq|]; done.
  - destruct (taskError _ o); [done|]. by rewrite app_nil_r.
Qed.

(** * Witnesses *)

Definition demo_svc : Value := mkValue "*svc" KPointer false 7.
Definition demo_key : Key := NewKey " svc " (λ v, String.eqb (v_type v) "*svc").
Definition demo_m0 : Manager := newManager0.
Definition demo_m1 : Manager := (regOp (OGo "poll" (Some 1%Z)) demo_m0).2.

Lemma demo_reachable0 : reachable demo_m0.
Proof. exists [], demo_m0. split_and!; [constructor|reflexivity|constructor]. Qed.

Lemma demo_reachable1 : reachable demo_m1.
Proof.
  exists [], demo_m0. split_and!; [constructor|reflexivity|].
  apply rtc_once, (step_op demo_m0).
Qed.

Lemma manager_invariant_witness : mgr_inv demo_m1.
Proof. apply manager_invariant. exact demo_reachable1. Defined.

Lemma provide_resolve_witness :
  ∃ v, Some demo_svc = Some v ∧
    Resolve demo_key (Provide demo_key (Some demo_svc) demo_m0).2 =
      if k_assert demo_key v then inl v
      else inr (Errorf "%w: service %q is %T, not %T" [k_name demo_key; v_type v]
                  [Const ErrServiceTypeMismatch]).
Proof.
  apply (provide_resolve demo_key (Some demo_svc) demo_m0
    (Provide demo_key (Some demo_svc) demo_m0).2).
  - reflexivity.
  - constructor.
Defined.

Lemma task_finishes_once_witness :
  let m' := (superviseTask "poll" 0 (TaskPanicked "boom") demo_m1).2 in
  false = Z.eqb PanicPolicyLog PanicPolicyPropagate ∧
  t_tasks (m_tasks m') !! "poll" = None ∧
  TaskHandle_Wait (t_handles (m_tasks m') !! 0) =
    Some (Some (Errorf "panic in background task %q: %v" ["poll"; "boom"] [])) ∧
  t_errs (m_tasks m') = [Errorf "task %q failed: %w" ["poll"]
    [Errorf "panic in background task %q: %v" ["poll"; "boom"] []]].
Proof.
  intros m'.
  apply (task_finishes_once demo_m1 "poll" 0 (TaskPanicked "boom") false m' m').
  - exact demo_reachable1.
  - vm_compute. reflexivity.
  - vm_compute. reflexivity.
  - constructor.
Defined.
