(* ===== verification/Lifecycle.v ===== *)
(** Lifecycle of the Manager: [InitModules], [StartModules], [StopModules]
    and what they call (src/modulex.go).

    The lifecycle methods run client code and block on tasks, while other
    goroutines keep calling the Manager.  They are modelled in a state monad
    over a [World]: the Manager, a clock, the trace of observable lifecycle
    events, and an oracle listing what the environment does at each point
    where the Go code holds no lock ([yield]).  Theorems quantify over the
    oracle, hence over every interleaving of the environment's atomic
    operations with the lifecycle method.  A computation returns [None] only
    when it blocks forever. *)

From stdpp Require Import base gmap list strings sorting relations.
From S2P Require Import Prelude TopoSort Manager.

(** * World *)

(** Observable lifecycle events; the last two are the shutdown hooks of the
    application runner. *)
Inductive Event :=
| EvState (s : LifecycleState)
| EvInit (name : string)
| EvStart (name : string)
| EvStop (name : string)
| EvClose
| EvPreStop (i : nat)
| EvPostStop (i : nat).

(** One action of the environment: time passes, another goroutine makes a
    registry call or registers a module, or a supervised task body ends. *)
Inductive EnvEvent :=
| EnvTick (d : N)
| EnvOp (o : RegOp)
| EnvModule (md : option Module_)
| EnvTask (name : string) (o : TaskOutcome).

Record World := mkWorld {
  w_mgr : Manager;
  w_now : Z;
  w_trace : list Event;
  w_oracle : list (list EnvEvent);
  w_crashed : bool;
}.

Definition set_mgr m (w : World) := mkWorld m (w_now w) (w_trace w) (w_oracle w) (w_crashed w).
Definition set_now t (w : World) := mkWorld (w_mgr w) t (w_trace w) (w_oracle w) (w_crashed w).
Definition set_oracle o (w : World) := mkWorld (w_mgr w) (w_now w) (w_trace w) o (w_crashed w).

(** ** The monad *)

Definition M (A : Type) : Type := World → option (A * World).
#[export] Instance M_ret : MRet M := λ A a w, Some (a, w).
#[export] Instance M_bind : MBind M := λ A B f c w,
  match c w with Some (a, w) => f a w | None => None end.

Definition lift {A} (f : Manager → A * Manager) : M A := λ w,
  let r := f (w_mgr w) in Some (r.1, set_mgr r.2 w).
Definition modify (f : Manager → Manager) : M unit := λ w, Some (tt, set_mgr (f (w_mgr w)) w).
Definition mgr : M Manager := λ w, Some (w_mgr w, w).
Definition now : M Z := λ w, Some (w_now w, w).
Definition tick (d : N) : M unit := λ w, Some (tt, set_now (w_now w + Z.of_N d)%Z w).
Definition trace (e : Event) : M unit := λ w,
  Some (tt, mkWorld (w_mgr w) (w_now w) (w_trace w ++ [e]) (w_oracle w) (w_crashed w)).

(** ** The environment *)

Definition env_event (e : EnvEvent) (w : World) : World :=
  match e with
  | EnvTick d => set_now (w_now w + Z.of_N d)%Z w
  | EnvOp o => set_mgr (regOp o (w_mgr w)).2 w
  | EnvModule md => set_mgr (RegisterModule md (w_mgr w)).2 w
  | EnvTask n o =>
    match t_tasks (m_tasks (w_mgr w)) !! n with
    | Some h =>
      let r := superviseTask n h o (w_mgr w) in
      mkWorld r.2 (w_now w) (w_trace w) (w_oracle w) (w_crashed w || r.1)
    | None => w
    end
  end.

Definition env_batch (b : list EnvEvent) (w : World) : World := foldl (flip env_event) w b.

(** A point where no lock is held: the environment takes its next batch. *)
Definition yield : M unit := λ w,
  match w_oracle w with
  | [] => Some (tt, w)
  | b :: bs => Some (tt, env_batch b (set_oracle bs w))
  end.

(** Run a callback under its context. *)
Fixpoint run_prog (ctx : Ctx) (p : Prog) : M (option error) :=
  match p with
  | PRet e => mret e
  | POp o k => yield ;; r ← lift (regOp o); run_prog ctx (k r)
  | PTick d k => tick d ;; run_prog ctx k
  | PCtxErr k => yield ;; t ← now; run_prog ctx (k (ctx_Err ctx t))
  end.

(** * Lifecycle methods *)

Definition ctxErr (ctx : Ctx) : M (option error) := t ← now; mret (ctx_Err ctx t).

Definition setState (s : LifecycleState) : M unit := modify (set_state s) ;; trace (EvState s).

Definition closeEventBus (ctx : Ctx) : M (option error) :=
  yield ;;
  m ← mgr;
  match m_eventBus m with
  | None => mret None
  | Some eb =>
    trace EvClose ;;
    e ← run_prog ctx (eb_Close eb ctx);
    mret (match e with
          | Some err => Some (Errorf "failed to close event bus: %w" [] [err])
          | None => None end)
  end.

Definition recordInitTiming (total : Z) (per : gmap string Z) (m : Manager) : Manager :=
  set_timings (mkTimings total (startTotal (m_timings m)) per (startTimings (m_timings m))) m.
Definition recordStartTiming (total : Z) (per : gmap string Z) (m : Manager) : Manager :=
  set_timings (mkTimings (initTotal (m_timings m)) total (initTimings (m_timings m)) per) m.

(** Results of [runPhase]: count, timings, attempted, err. *)
Record PhaseResult := mkPhase {
  p_count : nat; p_timings : gmap string Z; p_attempted : bool; p_err : option error }.

Fixpoint runPhase_loop (ctx : Ctx) (action : string)
    (runFn : Ctx → Module_ → M (option error)) (ordered : list Module_)
    (count : nat) (timings : gmap string Z) : M PhaseResult :=
  match ordered with
  | [] => mret (mkPhase count timings false None)
  | md :: ordered =>
    yield ;;
    cErr ← ctxErr ctx;
    match cErr with
    | Some cErr => mret (mkPhase count timings false
                           (Some (Errorf "%s cancelled: %w" [action] [cErr])))
    | None =>
      modStart ← now;
      runErr ← runFn ctx md;
      modEnd ← now;
      let timings := <[mod_Name md := (modEnd - modStart)%Z]> timings in
      match runErr with
      | Some runErr => mret (mkPhase count timings true
                               (Some (Errorf "failed to %s module %q: %w" [action; mod_Name md] [runErr])))
      | None => runPhase_loop ctx action runFn ordered (S count) timings
      end
    end
  end.

Definition runPhase (ctx : Ctx) (action : string) (ordered : list Module_)
    (runFn : Ctx → Module_ → M (option error)) : M PhaseResult :=
  runPhase_loop ctx action runFn ordered 0 ∅.

Definition initModule (ctx : Ctx) (md : Module_) : M (option error) :=
  trace (EvInit (mod_Name md)) ;; run_prog ctx (mod_Init md ctx).

Definition startModule (ctx : Ctx) (md : Module_) : M (option error) :=
  match mod_Start md with
  | Some s => trace (EvStart (mod_Name md)) ;; run_prog ctx (s ctx)
  | None => mret None
  end.

Definition stopModule (ctx : Ctx) (md : Module_) (phase : string) : M (option error) :=
  match mod_Stop md with
  | Some s =>
    trace (EvStop (mod_Name md)) ;;
    e ← run_prog ctx (s ctx);
    mret (match e with
          | Some err => Some (Errorf "failed to stop module %q during %s: %w" [mod_Name md; phase] [err])
          | None => None end)
  | None => mret None
  end.

(** Stop a list of modules in the order given, collecting the errors. *)
Fixpoint stopAll (ctx : Ctx) (mods : list Module_) (phase : string) : M (list error) :=
  match mods with
  | [] => mret []
  | md :: mods =>
    yield ;;
    e ← stopModule ctx md phase;
    es ← stopAll ctx mods phase;
    mret (match e with Some e => e :: es | None => es end)
  end.

Definition rollback (ctx : Ctx) (mods : list Module_) (phase : string) : M (option error) :=
  errs ← stopAll ctx (reverse mods) phase;
  mret (errors_Join (Some <$> errs)).

(** ** Waiting for tasks *)

Definition handle_done (m : Manager) (h : nat) : bool :=
  TaskHandle_Done (t_handles (m_tasks m) !! h).

(** The errgroup: returns once every task of the snapshot is done or the
    context is.  When the environment has nothing left to do, only time
    passes: to the context's end if it has one, else the wait never ends. *)
Fixpoint waitDone_loop (ctx : Ctx) (hs : list nat) (batches : list (list EnvEvent))
    (w : World) : option (unit * World) :=
  if forallb (handle_done (w_mgr w)) hs || negb (bool_decide (ctx_Err ctx (w_now w) = None)) then
    Some (tt, set_oracle batches w)
  else match batches with
  | b :: bs => waitDone_loop ctx hs bs (env_batch b w)
  | [] =>
    match ctx_done ctx with
    | Some t => Some (tt, set_oracle [] (set_now t w))
    | None => None
    end
  end.

Definition waitDone (ctx : Ctx) (hs : list nat) : M unit := λ w,
  waitDone_loop ctx hs (w_oracle w) w.

Definition errTimeout (cause : error) (pending : list string) : error :=
  match pending with
  | [] => Errorf "timed out waiting for tasks to finish: %w" [] [cause]
  | _ => Errorf "timed out waiting for tasks to finish: %w (still running: %s)"
           [String.concat ", " pending] [cause]
  end.

Definition waitForTasks (ctx : Ctx) : M (option error) :=
  yield ;;
  m ← mgr;
  let cancel := t_gen (m_tasks m) in
  let tasks := (map_to_list (t_tasks (m_tasks m))).*2 in
  yield ;;
  modify (taskCancel cancel) ;;
  yield ;;
  match tasks with
  | [] =>
    m ← mgr;
    modify drainTaskErrs ;;
    yield ;;
    modify resetTaskCtx ;;
    mret (errors_Join (Some <$> t_errs (m_tasks m)))
  | _ =>
    waitDone ctx tasks ;;
    yield ;;
    m ← mgr;
    modify drainTaskErrs ;;
    let pending := sorted_keys (t_tasks (m_tasks m)) in
    yield ;;
    cErr ← ctxErr ctx;
    let errs := match cErr with
      | Some c => t_errs (m_tasks m) ++ [errTimeout c pending]
      | None => t_errs (m_tasks m) end in
    modify resetTaskCtx ;;
    mret (errors_Join (Some <$> errs))
  end.

(** ** Init, Start, Stop *)

Definition joinErr (err : error) (e : option error) : error :=
  match e with Some e => Joined [err; e] | None => err end.

Definition finalizeFailure (ctx : Ctx) (err : error) (roll : Ctx → M (option error))
    (cleanup : M unit) : M error :=
  waitErr ← waitForTasks ctx;
  rollbackErr ← roll ctx;
  closeErr ← closeEventBus ctx;
  cleanup ;;
  yield ;;
  setState StateStopped ;;
  mret (joinErr (joinErr (joinErr err waitErr) rollbackErr) closeErr).

Definition finalizeInitFailure (ctx : Ctx) (err : error) (initialized : list Module_) : M error :=
  finalizeFailure ctx err (λ ctx, rollback ctx initialized "init rollback")
    (modify (set_orderedMods [])).

(** [Some s]: refused in state [s]. *)
Definition transitionToInitializing : M (option LifecycleState) :=
  m ← mgr;
  if decide (m_state m ≠ StateConfiguring) then mret (Some (m_state m))
  else setState StateInitializing ;; mret None.

Definition lockSortedModules : M (list Module_ + error) :=
  m ← mgr;
  match sortModules (m_modules m) (m_moduleOrder m) with
  | None => λ _, None
  | Some (inr err) => modify (set_orderedMods []) ;; mret (inr err)
  | Some (inl ordered) => modify (set_orderedMods ordered) ;; mret (inl ordered)
  end.

Definition errState (what : string) (s : LifecycleState) : error :=
  Errorf ("%w: " +:+ what +:+ " called in %q state") [LifecycleState_String s]
    [Const ErrInvalidLifecycleState].

(** [InitModules] once the order is known. *)
Definition initPhase (ctx : Ctx) (ordered : list Module_) : M (option error) :=
  phaseStart ← now;
  p ← runPhase ctx "init" ordered initModule;
  phaseEnd ← now;
  modify (recordInitTiming (phaseEnd - phaseStart) (p_timings p)) ;;
  match p_err p with
  | Some initErr =>
    e ← finalizeInitFailure ctx initErr (take (p_count p) ordered); mret (Some e)
  | None => yield ;; setState StateInitialized ;; mret None
  end.

Definition InitModules (ctx : Ctx) : M (option error) :=
  refused ← transitionToInitializing;
  match refused with
  | Some state => mret (Some (errState "InitModules" state))
  | None =>
    yield ;;
    r ← lockSortedModules;
    match r with
    | inr err => e ← finalizeInitFailure ctx err []; mret (Some e)
    | inl ordered => initPhase ctx ordered
    end
  end.

(** [StartModules] on its copy of the ordered modules. *)
Definition startPhase (ctx : Ctx) (mods : list Module_) : M (option error) :=
  phaseStart ← now;
  p ← runPhase ctx "start" mods startModule;
  phaseEnd ← now;
  modify (recordStartTiming (phaseEnd - phaseStart) (p_timings p)) ;;
  match p_err p with
  | Some startErr =>
    let stopCount :=
      if p_attempted p && (p_count p <? length mods) then S (p_count p) else p_count p in
    e ← finalizeFailure ctx startErr
          (λ ctx, rollback ctx (take stopCount mods) "start rollback") (mret tt);
    mret (Some e)
  | None => yield ;; setState StateRunning ;; mret None
  end.

Definition StartModules (ctx : Ctx) : M (option error) :=
  m ← mgr;
  if decide (m_state m ≠ StateInitialized) then
    mret (Some (errState "StartModules" (m_state m)))
  else
    setState StateStarting ;;
    yield ;;
    m ← mgr;
    startPhase ctx (m_orderedMods m).

Definition errStopInProgress (s : LifecycleState) : error :=
  Errorf "%w: StopModules called while InitModules/StartModules is in progress (%q); cancel its context and wait for it to return instead"
    [LifecycleState_String s] [Const ErrInvalidLifecycleState].

Definition StopModules (ctx : Ctx) : M (option error) :=
  m ← mgr;
  match m_state m with
  | StateStopped | StateStopping => mret None
  | StateInitializing | StateStarting => mret (Some (errStopInProgress (m_state m)))
  | StateConfiguring | StateInitialized | StateRunning =>
    setState StateStopping ;;
    modify (taskCancel (t_gen (m_tasks m))) ;;
    waitErr ← waitForTasks ctx;
    m ← mgr;
    let mods := m_orderedMods m in
    yield ;;
    cErr ← ctxErr ctx;
    let doneErr := match cErr with
      | Some err => Some (Errorf "stop context already done before stopping modules: %w" [] [err])
      | None => None end in
    stopErrs ← stopAll ctx (reverse mods) "stop";
    closeErr ← closeEventBus ctx;
    yield ;;
    setState StateStopped ;;
    mret (errors_Join ([waitErr; doneErr] ++ (Some <$> stopErrs) ++ [closeErr]))
  end.

(** * Reasoning about computations *)

Lemma bind_inv {A B} (c : M A) (f : A → M B) w r :
  (c ≫= f) w = Some r → ∃ a w1, c w = Some (a, w1) ∧ f a w1 = Some r.
Proof. unfold mbind, M_bind. destruct (c w) as [[a w1]|]; [eauto|done]. Qed.

(** Invert a successful run into the runs of its parts. *)
Ltac minv H :=
  repeat match type of H with
  | (_ ≫= _) _ = Some _ =>
    let a := fresh "a" in let w := fresh "w" in let H1 := fresh "H" in
    apply bind_inv in H as (a & w & H1 & H); minv H1
  | mret _ _ = Some _ => injection H as <- <-
  | lift _ _ = Some _ => injection H as <- <-
  | modify _ _ = Some _ => injection H as <- <-
  | mgr _ = Some _ => injection H as <- <-
  | now _ = Some _ => injection H as <- <-
  end.

(** No task is running and no task error waits to be reported. *)
Definition idle (m : Manager) : Prop := t_tasks (m_tasks m) = ∅ ∧ t_errs (m_tasks m) = [].

(** [runs es w w']: the world moved from [w] to [w'] with exactly the events
    [es] traced and no change of lifecycle state; the Manager went through
    atomic steps only, under the guards of its current state. *)
Record runs (es : list Event) (w w' : World) : Prop := Runs {
  r_state : m_state (w_mgr w') = m_state (w_mgr w);
  r_ordered : m_orderedMods (w_mgr w') = m_orderedMods (w_mgr w);
  r_bus : m_eventBus (w_mgr w') = m_eventBus (w_mgr w);
  r_trace : w_trace w' = w_trace w ++ es;
  r_now : (w_now w ≤ w_now w')%Z;
  r_steps : rtc mgr_step (w_mgr w) (w_mgr w');
  r_modules : m_state (w_mgr w) ≠ StateConfiguring →
    m_modules (w_mgr w') = m_modules (w_mgr w) ∧
    m_moduleOrder (w_mgr w') = m_moduleOrder (w_mgr w);
  r_services : m_state (w_mgr w) ≠ StateConfiguring → m_state (w_mgr w) ≠ StateInitializing →
    m_services (w_mgr w') = m_services (w_mgr w);
  r_tasks : m_state (w_mgr w) = StateStopping ∨ m_state (w_mgr w) = StateStopped →
    t_tasks (m_tasks (w_mgr w')) ⊆ t_tasks (m_tasks (w_mgr w));
  r_idle : m_state (w_mgr w) = StateStopping → idle (w_mgr w) → idle (w_mgr w');
}.

Lemma runs_refl w : runs [] w w.
Proof. split; try done. by rewrite app_nil_r. Qed.

Lemma runs_trans es1 es2 w1 w2 w3 : runs es1 w1 w2 → runs es2 w2 w3 → runs (es1 ++ es2) w1 w3.
Proof.
  intros [s1 o1 b1 t1 n1 r1 m1 v1 k1 i1] [s2 o2 b2 t2 n2 r2 m2 v2 k2 i2].
  rewrite s1 in m2, v2, k2, i2. split.
  - congruence.
  - congruence.
  - congruence.
  - by rewrite t2, t1, app_assoc.
  - lia.
  - by etrans.
  - intros Hs. destruct (m1 Hs), (m2 Hs). split; congruence.
  - intros Hs Hs'. rewrite v2, v1; done.
  - intros Hs. etrans; [apply k2|apply k1]; done.
  - auto.
Qed.

Lemma runs_quiet es w1 w2 w3 : runs es w1 w2 → runs [] w2 w3 → runs es w1 w3.
Proof. intros. rewrite <-(app_nil_r es). by eapply runs_trans. Qed.
Lemma runs_quiet_l es w1 w2 w3 : runs [] w1 w2 → runs es w2 w3 → runs es w1 w3.
Proof. intros. by apply (runs_trans [] es w1 w2 w3). Qed.

Lemma runs_oracle o es w w' : runs es w w' → runs es w (set_oracle o w').
Proof. by intros []. Qed.
Lemma runs_now t w : (w_now w ≤ t)%Z → runs [] w (set_now t w).
Proof. intros. split; simpl; try done. by rewrite app_nil_r. Qed.

(** An atomic step that respects the state's guards. *)
Lemma runs_step m' w :
  mgr_step (w_mgr w) m' → m_state m' = m_state (w_mgr w) →
  m_orderedMods m' = m_orderedMods (w_mgr w) → m_eventBus m' = m_eventBus (w_mgr w) →
  (m_state (w_mgr w) ≠ StateConfiguring →
     m_modules m' = m_modules (w_mgr w) ∧ m_moduleOrder m' = m_moduleOrder (w_mgr w)) →
  (m_state (w_mgr w) ≠ StateConfiguring → m_state (w_mgr w) ≠ StateInitializing →
     m_services m' = m_services (w_mgr w)) →
  (m_state (w_mgr w) = StateStopping ∨ m_state (w_mgr w) = StateStopped →
     t_tasks (m_tasks m') ⊆ t_tasks (m_tasks (w_mgr w))) →
  (m_state (w_mgr w) = StateStopping → idle (w_mgr w) → idle m') →
  runs [] w (set_mgr m' w).
Proof. intros. split; simpl; try done; [by rewrite app_nil_r|by apply rtc_once]. Qed.

Lemma regOp_runs o w : runs [] w (set_mgr (regOp o (w_mgr w)).2 w).
Proof.
  apply runs_step; [apply step_op|..];
    destruct o as [n v|n|n f|n f|n f|t]; simpl; try done; unfold id.
  all: try (unfold RegisterService; go_cases; simpl; naive_solver).
  all: unfold Go; go_cases; simpl; naive_solver.
Qed.

Lemma RegisterModule_runs md w : runs [] w (set_mgr (RegisterModule md (w_mgr w)).2 w).
Proof. apply runs_step; [apply step_module|..]; unfold RegisterModule; go_cases; naive_solver. Qed.

Lemma superviseTask_runs n h o c w :
  t_tasks (m_tasks (w_mgr w)) !! n = Some h →
  runs [] w (mkWorld (superviseTask n h o (w_mgr w)).2 (w_now w) (w_trace w) (w_oracle w) c).
Proof.
  intros Ht. assert (runs [] w (set_mgr (superviseTask n h o (w_mgr w)).2 w)) as [];
    [|by split].
  apply runs_step; [by apply step_task|..]; unfold superviseTask; go_cases; simpl; try done.
  all: try (intros _; apply delete_subseteq).
  all: intros _ [E _]; rewrite E in Ht; done.
Qed.

Lemma env_event_runs e w : runs [] w (env_event e w).
Proof.
  destruct e as [d|o|md|n o]; simpl.
  - apply runs_now. lia.
  - apply regOp_runs.
  - apply RegisterModule_runs.
  - destruct (t_tasks _ !! n) eqn:Ht; [by apply superviseTask_runs|apply runs_refl].
Qed.

Lemma env_batch_runs b w : runs [] w (env_batch b w).
Proof.
  unfold env_batch. revert w. induction b as [|e b IH]; intros w; simpl; [apply runs_refl|].
  eapply runs_quiet; [apply env_event_runs|apply IH].
Qed.

Lemma yield_runs w u w' : yield w = Some (u, w') → runs [] w w'.
Proof.
  unfold yield. destruct (w_oracle w) as [|b bs]; intros [= <- <-]; [apply runs_refl|].
  eapply runs_quiet_l; [apply runs_oracle, runs_refl|apply env_batch_runs].
Qed.

Lemma taskCancel_runs g w : runs [] w (set_mgr (taskCancel g (w_mgr w)) w).
Proof. apply runs_step; try done. apply step_cancel. Qed.
Lemma resetTaskCtx_runs w : runs [] w (set_mgr (resetTaskCtx (w_mgr w)) w).
Proof. apply runs_step; try done. apply step_reset. Qed.
Lemma drainTaskErrs_runs w : runs [] w (set_mgr (drainTaskErrs (w_mgr w)) w).
Proof. apply runs_step; try done; [apply step_drain|]. by intros _ []. Qed.
Lemma set_timings_runs t w : runs [] w (set_mgr (set_timings t (w_mgr w)) w).
Proof. apply runs_step; try done. apply step_timings. Qed.

Lemma trace_runs e w u w' : trace e w = Some (u, w') → runs [e] w w'.
Proof. intros [= <- <-]. by split. Qed.

Create HintDb runs discriminated.
#[export] Hint Resolve runs_refl yield_runs trace_runs taskCancel_runs resetTaskCtx_runs
  drainTaskErrs_runs set_timings_runs : runs.

Lemma run_prog_runs ctx p w e w' : run_prog ctx p w = Some (e, w') → runs [] w w'.
Proof.
  revert w. induction p as [e0|o k IH|d k IH|k IH]; intros w Hr; simpl in Hr; minv Hr.
  - apply runs_refl.
  - eapply runs_quiet_l; [by eapply yield_runs|].
    eapply runs_quiet_l; [apply regOp_runs|]. by eapply IH.
  - match goal with H : tick _ _ = _ |- _ => injection H as <- <- end.
    eapply runs_quiet_l; [|by eapply IH]. apply runs_now. lia.
  - eapply runs_quiet_l; [by eapply yield_runs|by eapply IH].
Qed.

Lemma ctx_Err_Some ctx t e : ctx_Err ctx t = Some e → ∃ d, ctx_done ctx = Some d ∧ (d ≤ t)%Z.
Proof. unfold ctx_Err. go_cases; intros; simplify_eq. eexists; split; [done|]. lia. Qed.

Lemma ctx_Err_mono ctx t t' : (t ≤ t')%Z → ctx_Err ctx t ≠ None → ctx_Err ctx t' ≠ None.
Proof. unfold ctx_Err. destruct (ctx_done ctx); [|done]. go_cases; lia || done. Qed.

(** What the wait guarantees when it returns. *)
Definition wait_over (ctx : Ctx) (hs : list nat) (w : World) : Prop :=
  forallb (handle_done (w_mgr w)) hs = true ∨ ctx_Err ctx (w_now w) ≠ None.

Lemma waitDone_spec ctx hs w u w' :
  waitDone ctx hs w = Some (u, w') → runs [] w w' ∧ wait_over ctx hs w'.
Proof.
  unfold waitDone. generalize (w_oracle w). intros bs. revert w.
  induction bs as [|b bs IH]; intros w; simpl.
  - destruct (forallb _ _ || _) eqn:Hc.
    + intros [= <- <-]. split; [apply runs_oracle, runs_refl|].
      apply orb_true_iff in Hc as [?|Hc]; [by left|right].
      by apply negb_true_iff, bool_decide_eq_false in Hc.
    + apply orb_false_iff in Hc as [_ Hc].
      apply negb_false_iff, bool_decide_eq_true in Hc.
      destruct (ctx_done ctx) as [t|] eqn:Ht; [|done]. intros [= <- <-].
      unfold ctx_Err in Hc. rewrite Ht in Hc. split.
      * apply runs_oracle, runs_now. case_match; [done|lia].
      * right. simpl. unfold ctx_Err. rewrite Ht, (proj2 (Z.leb_le t t)); [done|lia].
  - destruct (forallb _ _ || _) eqn:Hc.
    + intros [= <- <-]. split; [apply runs_oracle, runs_refl|].
      apply orb_true_iff in Hc as [?|Hc]; [by left|right].
      by apply negb_true_iff, bool_decide_eq_false in Hc.
    + intros [Hr Ho]%IH. split; [|done]. eapply runs_quiet_l; [apply env_batch_runs|done].
Qed.

(** Discharge a [runs] goal along the runs of the parts. *)
Ltac runs_chain :=
  repeat match goal with
  | H : yield ?w = Some (_, ?w1) |- runs _ ?w _ => apply (runs_quiet_l _ _ w1); [by eapply yield_runs|]
  | H : waitDone _ _ ?w = Some (_, ?w1) |- runs _ ?w _ =>
    apply (runs_quiet_l _ _ w1); [by eapply waitDone_spec|]
  | H : trace ?e ?w = Some (_, ?w1) |- runs (?e :: ?es) ?w _ =>
    apply (runs_trans [e] es _ w1); [by eapply trace_runs|]
  | H : run_prog _ _ ?w = Some (_, ?w1) |- runs _ ?w _ =>
    apply (runs_quiet_l _ _ w1); [by eapply run_prog_runs|]
  | H : _ (set_mgr (taskCancel ?g (w_mgr ?w)) ?w) = Some _ |- runs _ ?w _ =>
    eapply runs_quiet_l; [apply (taskCancel_runs g)|]
  | H : _ (set_mgr (drainTaskErrs (w_mgr ?w)) ?w) = Some _ |- runs _ ?w _ =>
    eapply runs_quiet_l; [apply drainTaskErrs_runs|]
  end;
  eauto with runs.

Lemma waitForTasks_runs ctx w e w' : waitForTasks ctx w = Some (e, w') → runs [] w w'.
Proof.
  unfold waitForTasks. intros H. minv H.
  destruct ((map_to_list _).*2) as [|h hs] eqn:Hsnap; unfold ctxErr in *; minv H.
  - runs_chain.
  - runs_chain.
Qed.

(** *** What waiting achieves *)

Lemma env_event_errs e w :
  t_errs (m_tasks (w_mgr w)) `prefix_of` t_errs (m_tasks (w_mgr (env_event e w))).
Proof.
  destruct e as [d|o|md|n o]; simpl; [done|..].
  - destruct o; simpl; try done; unfold id, RegisterService, Go; go_cases; done.
  - unfold RegisterModule; go_cases; done.
  - unfold superviseTask. go_cases; simpl; try done; by apply prefix_app_r.
Qed.

Lemma env_batch_errs b w :
  t_errs (m_tasks (w_mgr w)) `prefix_of` t_errs (m_tasks (w_mgr (env_batch b w))).
Proof.
  unfold env_batch. revert w. induction b as [|e b IH]; intros w; simpl; [done|].
  etrans; [apply env_event_errs|apply IH].
Qed.

Lemma yield_errs w u w' :
  yield w = Some (u, w') → t_errs (m_tasks (w_mgr w)) `prefix_of` t_errs (m_tasks (w_mgr w')).
Proof.
  unfold yield. destruct (w_oracle w) as [|b bs]; intros [= <- <-]; [done|].
  apply (env_batch_errs b (set_oracle bs w)).
Qed.

Lemma waitDone_errs ctx hs w u w' : waitDone ctx hs w = Some (u, w') →
  t_errs (m_tasks (w_mgr w)) `prefix_of` t_errs (m_tasks (w_mgr w')).
Proof.
  unfold waitDone. generalize (w_oracle w). intros bs. revert w.
  induction bs as [|b bs IH]; intros w; simpl; (destruct (forallb _ _ || _); [by intros [= <- <-]|]).
  - destruct (ctx_done ctx); [|done]. by intros [= <- <-].
  - intros H%IH. etrans; [apply env_batch_errs|done].
Qed.

Lemma map_subseteq_empty {A} (mp : gmap string A) : mp ⊆ ∅ → mp = ∅.
Proof. intros H. apply (anti_symm (⊆)); [done|apply map_empty_subseteq]. Qed.

(** Once every task of a snapshot is done, none of them is registered. *)
Lemma snapshot_drained w0 w1 :
  mgr_inv (w_mgr w1) → t_tasks (m_tasks (w_mgr w1)) ⊆ t_tasks (m_tasks (w_mgr w0)) →
  forallb (handle_done (w_mgr w1)) (map_to_list (t_tasks (m_tasks (w_mgr w0)))).*2 = true →
  t_tasks (m_tasks (w_mgr w1)) = ∅.
Proof.
  intros I Hsub Hall. apply map_empty. intros n. destruct (t_tasks _ !! n) as [h|] eqn:Hn; [|done].
  destruct (mi_tasks _ I _ _ Hn) as (th & Hth & _ & Hd).
  rewrite forallb_forall in Hall. specialize (Hall h). unfold handle_done in Hall.
  rewrite Hth in Hall. simpl in Hall. rewrite Hd in Hall. exfalso.
  enough (false = true) by done. apply Hall. apply list_elem_of_In.
  apply list_elem_of_fmap. exists (n, h). split; [done|].
  apply elem_of_map_to_list. by eapply lookup_weaken.
Qed.

Lemma runs_ctx_ok es ctx w w' : runs es w w' → ctx_Err ctx (w_now w') = None →
  ctx_Err ctx (w_now w) = None.
Proof.
  intros Hr Hn. destruct (ctx_Err ctx (w_now w)) eqn:E; [|done].
  exfalso. eapply (ctx_Err_mono ctx); [apply (r_now _ _ _ Hr)| |done]. by rewrite E.
Qed.

(** [waitForTasks] in four steps: the snapshot is taken in [w0], the wait is
    over in [wm], the errors are taken in [wd] and reported. *)
Lemma waitForTasks_inv ctx w e w' :
  waitForTasks ctx w = Some (e, w') →
  ∃ w0 wm wd, runs [] w w0 ∧ runs [] w0 wm ∧ runs [] wm wd ∧
    wait_over ctx (map_to_list (t_tasks (m_tasks (w_mgr w0)))).*2 wm ∧
    runs [] (set_mgr (drainTaskErrs (w_mgr wd)) wd) w' ∧
    t_errs (m_tasks (w_mgr w)) `prefix_of` t_errs (m_tasks (w_mgr wd)) ∧
    ∃ more, e = errors_Join (Some <$> t_errs (m_tasks (w_mgr wd)) ++ more).
Proof.
  unfold waitForTasks. intros H. minv H.
  pose proof (yield_errs _ _ _ H0) as P0. pose proof (yield_errs _ _ _ H1) as P1.
  pose proof (yield_errs _ _ _ H2) as P2. apply yield_runs in H0, H1, H2.
  assert (runs [] w0 w2) as H02.
  { eapply runs_quiet; [done|]. eapply runs_quiet_l; [apply taskCancel_runs|done]. }
  assert (t_errs (m_tasks (w_mgr w)) `prefix_of` t_errs (m_tasks (w_mgr w2))) as P
    by (etrans; [done|]; etrans; [exact P1|exact P2]).
  destruct ((map_to_list _).*2) as [|h hs] eqn:Hsnap; unfold ctxErr in *; minv H.
  - apply yield_runs in H3. exists w0, w2, w2. rewrite Hsnap.
    split_and!; [done|done|apply runs_refl|by left| |done|exists []; by rewrite app_nil_r].
    eapply runs_quiet; [done|apply resetTaskCtx_runs].
  - pose proof (waitDone_errs _ _ _ _ _ H3) as P3. pose proof (yield_errs _ _ _ H4) as P4.
    apply waitDone_spec in H3 as [Hr Ho]. apply yield_runs in H4, H5.
    exists w0, w3, w4. rewrite Hsnap. split_and!; [done|by eapply runs_quiet|done|done| | |].
    + eapply runs_quiet; [done|apply resetTaskCtx_runs].
    + etrans; [done|]. by etrans.
    + destruct (ctx_Err _ _) as [c|]; [eexists [_]; reflexivity|exists []; by rewrite app_nil_r].
Qed.

(** During a shutdown: when the wait ends in time, no task runs and every
    recorded error has been taken. *)
Lemma waitForTasks_idle ctx w e w' :
  waitForTasks ctx w = Some (e, w') → mgr_inv (w_mgr w) → m_state (w_mgr w) = StateStopping →
  ctx_Err ctx (w_now w') = None → idle (w_mgr w').
Proof.
  intros (w0 & wm & wd & H0 & Hm & Hd & Ho & Hr & _)%waitForTasks_inv I Hs Hctx.
  assert (Hs0 : m_state (w_mgr w0) = StateStopping) by (by rewrite (r_state _ _ _ H0)).
  assert (Hsm : m_state (w_mgr wm) = StateStopping) by (by rewrite (r_state _ _ _ Hm)).
  assert (t_tasks (m_tasks (w_mgr wm)) = ∅) as Hempty.
  { apply (snapshot_drained w0); [|apply (r_tasks _ _ _ Hm); by left|].
    - eapply mgr_steps_inv; [apply Hm|]. eapply mgr_steps_inv; [apply H0|done].
    - destruct Ho as [?|[]]; [done|]. eapply runs_ctx_ok; [|done].
      eapply runs_quiet; [done|]. eapply runs_quiet_l; [apply drainTaskErrs_runs|done]. }
  apply (r_idle _ _ _ Hr); simpl; [by rewrite (r_state _ _ _ Hd)|].
  split; [|done]. simpl. apply map_subseteq_empty. rewrite <-Hempty. apply Hd. by left.
Qed.

Lemma waitForTasks_reports ctx w e w' c :
  waitForTasks ctx w = Some (e, w') →
  existsb (error_is c) (t_errs (m_tasks (w_mgr w))) = true → err_is c e = true.
Proof.
  intros (w0 & wm & wd & _ & _ & _ & _ & _ & [l Hl] & more & ->)%waitForTasks_inv Hc.
  rewrite err_is_Join, Hl. apply existsb_exists in Hc as (x & Hx & Hcx).
  apply existsb_exists. exists (Some x). split; [|done].
  apply list_elem_of_In, list_elem_of_fmap. exists x. split; [done|].
  apply list_elem_of_In. rewrite !in_app_iff. auto.
Qed.

(** ** Events of modules *)

Definition ev_init (md : Module_) : list Event := [EvInit (mod_Name md)].
Definition ev_start (md : Module_) : list Event :=
  match mod_Start md with Some _ => [EvStart (mod_Name md)] | None => [] end.
Definition ev_stop (md : Module_) : list Event :=
  match mod_Stop md with Some _ => [EvStop (mod_Name md)] | None => [] end.

Lemma initModule_runs ctx md w e w' :
  initModule ctx md w = Some (e, w') → runs (ev_init md) w w'.
Proof. unfold initModule, ev_init. intros H. minv H. runs_chain. Qed.

Lemma startModule_runs ctx md w e w' :
  startModule ctx md w = Some (e, w') → runs (ev_start md) w w'.
Proof. unfold startModule, ev_start. destruct (mod_Start md); intros H; minv H; runs_chain. Qed.

Lemma stopModule_runs ctx md phase w e w' :
  stopModule ctx md phase w = Some (e, w') → runs (ev_stop md) w w'.
Proof. unfold stopModule, ev_stop. destruct (mod_Stop md); intros H; minv H; runs_chain. Qed.

Lemma stopAll_runs ctx mods phase w es w' :
  stopAll ctx mods phase w = Some (es, w') → runs (flat_map ev_stop mods) w w'.
Proof.
  revert w es. induction mods as [|md mods IH]; intros w es H; simpl in *; minv H; [runs_chain|].
  runs_chain. eapply runs_trans; [by eapply stopModule_runs|by eapply IH].
Qed.

Lemma closeEventBus_runs ctx w e w' :
  m_eventBus (w_mgr w) ≠ None → closeEventBus ctx w = Some (e, w') → runs [EvClose] w w'.
Proof.
  unfold closeEventBus. intros Hb H. minv H.
  match goal with H : yield _ = Some (_, ?w1) |- _ =>
    pose proof (r_bus _ _ _ (yield_runs _ _ _ H)) as Hb1; destruct (m_eventBus (w_mgr w1)) eqn:Hb' end.
  - minv H. runs_chain.
  - congruence.
Qed.

Lemma rollback_runs ctx mods phase w e w' :
  rollback ctx mods phase w = Some (e, w') → runs (flat_map ev_stop (reverse mods)) w w'.
Proof. unfold rollback. intros H. minv H. by eapply stopAll_runs. Qed.

(** [runPhase] processes a prefix of the modules in order: all of them on
    success; on failure [p_count] were processed and the next one was called
    exactly if it is the one that failed. *)
Lemma runPhase_loop_runs ctx action runFn (ev : Module_ → list Event) ordered c t w p w' :
  (∀ md w e w', runFn ctx md w = Some (e, w') → runs (ev md) w w') →
  runPhase_loop ctx action runFn ordered c t w = Some (p, w') →
  ∃ k, p_count p = c + k ∧
    match p_err p with
    | None => k = length ordered ∧ runs (flat_map ev ordered) w w'
    | Some _ =>
      k < length ordered ∧
      runs (flat_map ev (take (if p_attempted p then S k else k) ordered)) w w'
    end.
Proof.
  intros Hfn. revert c t w. induction ordered as [|md ordered IH]; intros c t w H; simpl in H; minv H.
  { exists 0. simpl. split; [lia|]. split; [done|apply runs_refl]. }
  unfold ctxErr in *. repeat match goal with H : (_ ≫= _) _ = Some _ |- _ => minv H end.
  match goal with H : yield _ = Some (_, ?w1) |- _ => apply yield_runs in H as Hy end.
  destruct (ctx_Err ctx _) as [ce|] eqn:Hce; minv H.
  { exists 0. simpl. split; [lia|]. split; [lia|]. done. }
  match goal with H : runFn _ _ _ = Some _ |- _ => apply Hfn in H as Hf end.
  match type of H with (match ?e with _ => _ end) _ = _ => destruct e as [re|] end; minv H.
  - exists 0. simpl. split; [lia|]. split; [lia|]. rewrite app_nil_r. by eapply runs_quiet_l.
  - apply IH in H as (k & Hk & Hp). exists (S k). split; [lia|].
    destruct (p_err p) as [pe|].
    + destruct Hp as [Hlt Hr]. split; [simpl; lia|].
      eapply runs_quiet_l; [done|]. destruct (p_attempted p); simpl; by eapply runs_trans.
    + destruct Hp as [-> Hr]. split; [done|]. eapply runs_quiet_l; [done|]. simpl. by eapply runs_trans.
Qed.

(** * Moves: runs that may change the lifecycle state *)

(** Every transition of the code increases this rank. *)
Definition rank (s : LifecycleState) : nat :=
  match s with
  | StateConfiguring => 0 | StateInitializing => 1 | StateInitialized => 2
  | StateStarting => 3 | StateRunning => 4 | StateStopping => 5 | StateStopped => 6
  end.
Definition w_rank (w : World) : nat := rank (m_state (w_mgr w)).

Lemma rank_max w : w_rank w ≤ rank StateStopped.
Proof. unfold w_rank. destruct (m_state (w_mgr w)); simpl; lia. Qed.

(** [moves es w w']: [w'] is reached from [w] tracing [es]; the state only
    advances, and what the state locks stays locked. *)
Record moves (es : list Event) (w w' : World) : Prop := Moves {
  v_rank : w_rank w ≤ w_rank w';
  v_bus : m_eventBus (w_mgr w') = m_eventBus (w_mgr w);
  v_trace : w_trace w' = w_trace w ++ es;
  v_now : (w_now w ≤ w_now w')%Z;
  v_steps : rtc mgr_step (w_mgr w) (w_mgr w');
  v_modules : 1 ≤ w_rank w →
    m_modules (w_mgr w') = m_modules (w_mgr w) ∧
    m_moduleOrder (w_mgr w') = m_moduleOrder (w_mgr w);
  v_services : 2 ≤ w_rank w → m_services (w_mgr w') = m_services (w_mgr w);
  v_tasks : 5 ≤ w_rank w → t_tasks (m_tasks (w_mgr w')) ⊆ t_tasks (m_tasks (w_mgr w));
}.

Lemma runs_moves es w w' : runs es w w' → moves es w w'.
Proof.
  intros [Hs Ho Hb Ht Hn Hst Hm Hv Hk _]. split; unfold w_rank; try done.
  - by rewrite Hs.
  - intros Hr. apply Hm. intros E. rewrite E in Hr. simpl in Hr. lia.
  - intros Hr. apply Hv; intros E; rewrite E in Hr; simpl in Hr; lia.
  - intros Hr. apply Hk. destruct (m_state (w_mgr w)); simpl in Hr; auto; lia.
Qed.

Lemma moves_refl w : moves [] w w.
Proof. apply runs_moves, runs_refl. Qed.

Lemma moves_trans es1 es2 w1 w2 w3 :
  moves es1 w1 w2 → moves es2 w2 w3 → moves (es1 ++ es2) w1 w3.
Proof.
  intros [r1 b1 t1 n1 s1 m1 v1 k1] [r2 b2 t2 n2 s2 m2 v2 k2]. split.
  - lia.
  - congruence.
  - by rewrite t2, t1, app_assoc.
  - lia.
  - by etrans.
  - intros H. destruct (m1 H), (m2 ltac:(lia)). split; congruence.
  - intros H. rewrite v2, v1 by lia. done.
  - intros H. etrans; [apply k2; lia|by apply k1].
Qed.

Lemma moves_quiet_l es w1 w2 w3 : moves [] w1 w2 → moves es w2 w3 → moves es w1 w3.
Proof. intros. by apply (moves_trans [] es w1 w2 w3). Qed.
Lemma moves_quiet es w1 w2 w3 : moves es w1 w2 → moves [] w2 w3 → moves es w1 w3.
Proof. intros. rewrite <-(app_nil_r es). by eapply moves_trans. Qed.

Lemma setState_moves s w u w' :
  w_rank w ≤ rank s → setState s w = Some (u, w') → moves [EvState s] w w'.
Proof.
  intros Hr H. unfold setState in H. minv H. injection H as <- <-.
  split; simpl; try done. apply rtc_once, step_state.
Qed.

Lemma setState_eq s w u w' : setState s w = Some (u, w') →
  w_mgr w' = set_state s (w_mgr w) ∧ w_now w' = w_now w.
Proof. intros H. unfold setState in H. minv H. by injection H as <- <-. Qed.

Lemma set_ordered_moves o w : moves [] w (set_mgr (set_orderedMods o (w_mgr w)) w).
Proof.
  split; simpl; try done; [by rewrite app_nil_r|]. apply rtc_once, step_ordered.
Qed.

Lemma moves_inv es w w' : moves es w w' → mgr_inv (w_mgr w) → mgr_inv (w_mgr w').
Proof. intros Hm. eapply mgr_steps_inv, v_steps, Hm. Qed.

Lemma error_is_joinErr c err e : error_is c err = true → error_is c (joinErr err e) = true.
Proof. intros H. destruct e; simpl; [|done]. by rewrite H. Qed.

(** What a failed phase leaves behind: the modules of the rollback set are
    stopped in reverse, then the bus is closed, then the state is [Stopped]. *)
Lemma finalizeFailure_moves ctx err mods phase cleanup keep w e w' :
  (∀ w w' u, cleanup w = Some (u, w') →
     moves [] w w' ∧ m_orderedMods (w_mgr w') = keep (m_orderedMods (w_mgr w))) →
  mgr_inv (w_mgr w) →
  finalizeFailure ctx err (λ ctx, rollback ctx mods phase) cleanup w = Some (e, w') →
  moves (flat_map ev_stop (reverse mods) ++ [EvClose; EvState StateStopped]) w w' ∧
  m_state (w_mgr w') = StateStopped ∧
  m_orderedMods (w_mgr w') = keep (m_orderedMods (w_mgr w)) ∧
  (∀ c, error_is c err = true → error_is c e = true).
Proof.
  intros Hcl I H. unfold finalizeFailure in H. minv H.
  apply waitForTasks_runs in H0. apply rollback_runs in H1.
  apply closeEventBus_runs in H2.
  2: { rewrite (r_bus _ _ _ H1), (r_bus _ _ _ H0). apply I. }
  apply Hcl in H3 as [H3 Ho]. apply yield_runs in H4.
  pose proof (setState_eq _ _ _ _ H5) as (Hs & _).
  apply setState_moves in H5; [|apply rank_max].
  split_and!; [|by rewrite Hs| |].
  - eapply moves_quiet_l; [by apply runs_moves|]. eapply moves_trans; [by apply runs_moves|].
    apply (moves_trans [EvClose] [EvState StateStopped] _ w4).
    + eapply moves_quiet; [by apply runs_moves|].
      eapply moves_quiet; [done|by apply runs_moves].
    + done.
  - rewrite Hs; simpl; rewrite (r_ordered _ _ _ H4), Ho, (r_ordered _ _ _ H2), (r_ordered _ _ _ H1).
    by rewrite (r_ordered _ _ _ H0).
  - intros. by do 3 apply error_is_joinErr.
Qed.

(** * Specifications of the three methods *)

Definition events_of (ev : Module_ → list Event) (l : list Module_) : list Event := flat_map ev l.

(** The order [o] is a valid start order of the modules registered in [m]. *)
Definition valid_order (m : Manager) (o : list Module_) : Prop :=
  key <$> o ≡ₚ m_moduleOrder m ∧ topo_sorted o ∧ ∀ md, md ∈ o → m_modules m !! key md = Some md.

Lemma cleanup_drop w w' u :
  modify (set_orderedMods []) w = Some (u, w') →
  moves [] w w' ∧ m_orderedMods (w_mgr w') = [].
Proof. intros [= <- <-]. split; [apply set_ordered_moves|done]. Qed.
Lemma cleanup_none w w' u :
  (mret tt : M unit) w = Some (u, w') →
  moves [] w w' ∧ m_orderedMods (w_mgr w') = m_orderedMods (w_mgr w).
Proof. intros [= <- <-]. split; [apply moves_refl|done]. Qed.

Lemma sortModules_valid m o :
  mgr_inv m → sortModules (m_modules m) (m_moduleOrder m) = Some (inl o) → valid_order m o.
Proof. intros I H. eapply sort_ok_correct; [apply I|done]. Qed.

(** The two phases share one shape: run the callbacks in order, then either
    advance to [ok] or roll back the first [n] modules. *)
Lemma phase_ok ctx action runFn ev (o : list Module_) t ok w p w1 u w2 u' w' :
  (∀ md w e w', runFn ctx md w = Some (e, w') → runs (ev md) w w') →
  w_rank w ≤ rank ok →
  runPhase ctx action o runFn w = Some (p, w1) → p_err p = None →
  yield (set_mgr (set_timings t (w_mgr w1)) w1) = Some (u, w2) →
  setState ok w2 = Some (u', w') →
  moves (events_of ev o ++ [EvState ok]) w w' ∧ m_state (w_mgr w') = ok ∧
  m_orderedMods (w_mgr w') = m_orderedMods (w_mgr w).
Proof.
  intros Hfn Hr Hp Herr Hy Hs. apply (runPhase_loop_runs _ _ _ ev) in Hp as (k & _ & Hk); [|done].
  rewrite Herr in Hk. destruct Hk as [_ Hruns].
  assert (runs (events_of ev o) w w2) as Hruns2.
  { eapply runs_quiet; [done|]. eapply runs_quiet_l; [apply set_timings_runs|by eapply yield_runs]. }
  pose proof (setState_eq _ _ _ _ Hs) as [Heq _].
  apply setState_moves in Hs; [|unfold w_rank in *; by rewrite (r_state _ _ _ Hruns2)].
  rewrite Heq. split_and!; [|done|apply Hruns2].
  eapply moves_trans; [by apply runs_moves|done].
Qed.

Lemma phase_failed ctx action runFn ev (o : list Module_) t phase cleanup keep w p w1 err n e w' :
  (∀ md w e w', runFn ctx md w = Some (e, w') → runs (ev md) w w') →
  (∀ w w' u, cleanup w = Some (u, w') →
     moves [] w w' ∧ m_orderedMods (w_mgr w') = keep (m_orderedMods (w_mgr w))) →
  mgr_inv (w_mgr w) →
  runPhase ctx action o runFn w = Some (p, w1) → p_err p = Some err →
  finalizeFailure ctx err (λ ctx, rollback ctx (take n o) phase) cleanup
    (set_mgr (set_timings t (w_mgr w1)) w1) = Some (e, w') →
  p_count p < length o ∧
  moves (events_of ev (take (if p_attempted p then S (p_count p) else p_count p) o) ++
         events_of ev_stop (reverse (take n o)) ++ [EvClose; EvState StateStopped]) w w' ∧
  m_state (w_mgr w') = StateStopped ∧
  m_orderedMods (w_mgr w') = keep (m_orderedMods (w_mgr w)).
Proof.
  intros Hfn Hcl I Hp Herr Hf. apply (runPhase_loop_runs _ _ _ ev) in Hp as (k & Hk & Hr); [|done].
  rewrite Herr in Hr. destruct Hr as [Hlt Hruns]. simpl in Hk. subst k.
  assert (runs (events_of ev (take (if p_attempted p then S (p_count p) else p_count p) o)) w
            (set_mgr (set_timings t (w_mgr w1)) w1)) as Hr2.
  { eapply runs_quiet; [done|apply set_timings_runs]. }
  apply (finalizeFailure_moves _ _ _ _ _ keep) in Hf as (Hm & Hs & Ho & _); [|done|].
  - split_and!; [done| |done|by rewrite Ho, (r_ordered _ _ _ Hr2)].
    eapply moves_trans; [by apply runs_moves|done].
  - eapply moves_inv; [by apply runs_moves|done].
Qed.

(** Entering a phase: the state change, then the environment. *)
Lemma enter_phase s w u w1 u' w2 :
  w_rank w ≤ rank s → s ≠ StateConfiguring →
  setState s w = Some (u, w1) → yield w1 = Some (u', w2) →
  moves [EvState s] w w2 ∧ m_state (w_mgr w2) = s ∧
  m_orderedMods (w_mgr w2) = m_orderedMods (w_mgr w) ∧
  m_modules (w_mgr w2) = m_modules (w_mgr w) ∧
  m_moduleOrder (w_mgr w2) = m_moduleOrder (w_mgr w).
Proof.
  intros Hr Hs H1 H2. pose proof (setState_eq _ _ _ _ H1) as [Heq _].
  apply setState_moves in H1; [|done]. apply yield_runs in H2.
  destruct (r_modules _ _ _ H2) as [Hm Ho]; [by rewrite Heq|].
  rewrite (r_state _ _ _ H2), (r_ordered _ _ _ H2), Hm, Ho, Heq. split_and!; try done.
  eapply moves_quiet; [done|by apply runs_moves].
Qed.

Lemma rank_conf s w : m_state (w_mgr w) = StateConfiguring → w_rank w ≤ rank s.
Proof. intros E. unfold w_rank. rewrite E. simpl. lia. Qed.

(** The outcome of a successful and of a failed [InitModules]. *)
Definition init_success (w w' : World) : Prop :=
  let o := m_orderedMods (w_mgr w') in
  sortModules (m_modules (w_mgr w)) (m_moduleOrder (w_mgr w)) = Some (inl o) ∧
  valid_order (w_mgr w) o ∧ m_state (w_mgr w') = StateInitialized ∧
  moves (EvState StateInitializing :: events_of ev_init o ++ [EvState StateInitialized]) w w'.

Definition init_failure (w : World) (err : error) (w' : World) : Prop :=
  m_orderedMods (w_mgr w') = [] ∧ m_state (w_mgr w') = StateStopped ∧
  ((∃ serr, sortModules (m_modules (w_mgr w)) (m_moduleOrder (w_mgr w)) = Some (inr serr) ∧
      (∀ c, error_is c serr = true → error_is c err = true) ∧
      moves [EvState StateInitializing; EvClose; EvState StateStopped] w w') ∨
   (∃ o k (a : bool), sortModules (m_modules (w_mgr w)) (m_moduleOrder (w_mgr w)) = Some (inl o) ∧
      valid_order (w_mgr w) o ∧ k < length o ∧
      moves (EvState StateInitializing :: events_of ev_init (take (if a then S k else k) o) ++
             events_of ev_stop (reverse (take k o)) ++ [EvClose; EvState StateStopped]) w w')).

Lemma moves_cons e es w1 w2 w3 : moves [e] w1 w2 → moves es w2 w3 → moves (e :: es) w1 w3.
Proof. apply (moves_trans [e] es). Qed.

Lemma InitModules_spec ctx w e w' :
  InitModules ctx w = Some (e, w') → mgr_inv (w_mgr w) →
  m_state (w_mgr w) = StateConfiguring →
  match e with None => init_success w w' | Some err => init_failure w err w' end.
Proof.
  intros H I Hs. unfold InitModules, transitionToInitializing in H. minv H.
  rewrite decide_False in H0 by naive_solver. minv H0. minv H.
  destruct (enter_phase StateInitializing _ _ _ _ _ (rank_conf _ _ Hs) ltac:(done) H1 H0)
    as (Hmv & Hs0 & _ & Hmods & Hord).
  unfold lockSortedModules in H2. minv H2. rewrite Hmods, Hord in H2.
  destruct (sortModules _ _) as [[o|serr]|] eqn:Hsort; [| |done]; minv H2.
  - match type of H with initPhase _ _ ?w0 = _ => set (wo := w0) in H end.
    assert (moves [EvState StateInitializing] w wo) as Hmo
      by (eapply moves_quiet; [done|apply set_ordered_moves]).
    pose proof (sortModules_valid _ _ I Hsort) as Hvalid.
    unfold initPhase in H. minv H. destruct (p_err _) as [ierr|] eqn:Hperr; minv H.
    + apply (phase_failed _ "init" initModule ev_init o _ _ _ (λ _, []) wo a1) in H3
        as (Hlt & Hmf & Hsf & Hof); [|eapply initModule_runs|apply cleanup_drop| |done|done].
      2: by eapply moves_inv.
      split_and!; [done|done|].
      right. exists o, (p_count a1), (p_attempted a1). split_and!; [done|done|done|].
      by eapply moves_cons.
    + eapply (phase_ok _ _ _ ev_init) in H4 as (Hmf & Hsf & Hof);
        [|eapply initModule_runs| |done|done|done].
      2: { unfold w_rank. subst wo; simpl. rewrite Hs0. simpl. lia. }
      unfold init_success. rewrite Hof. subst wo; simpl.
      split_and!; [done|done|done|]. by eapply moves_cons.
  - match type of H with (finalizeInitFailure _ _ _ ≫= _) ?w0 = _ => set (wo := w0) in H end.
    assert (moves [EvState StateInitializing] w wo) as Hmo
      by (eapply moves_quiet; [done|apply set_ordered_moves]).
    minv H. apply (finalizeFailure_moves _ _ _ _ _ (λ _, [])) in H2
      as (Hmf & Hsf & Hof & Herr); [|apply cleanup_drop|by eapply moves_inv].
    split_and!; [done|done|]. left. exists serr. split_and!; [done|done|].
    by eapply moves_cons.
Qed.

(** The outcome of a successful and of a failed [StartModules].  A failed
    start stops the modules started and the one whose [Start] failed. *)
Definition start_success (w w' : World) : Prop :=
  let o := m_orderedMods (w_mgr w) in
  m_state (w_mgr w') = StateRunning ∧ m_orderedMods (w_mgr w') = o ∧
  moves (EvState StateStarting :: events_of ev_start o ++ [EvState StateRunning]) w w'.

Definition start_failure (w w' : World) : Prop :=
  let o := m_orderedMods (w_mgr w) in
  m_state (w_mgr w') = StateStopped ∧ m_orderedMods (w_mgr w') = o ∧
  ∃ k (a : bool), let n := if a then S k else k in k < length o ∧
    moves (EvState StateStarting :: events_of ev_start (take n o) ++
           events_of ev_stop (reverse (take n o)) ++ [EvClose; EvState StateStopped]) w w'.

Lemma StartModules_spec ctx w e w' :
  StartModules ctx w = Some (e, w') → mgr_inv (w_mgr w) →
  m_state (w_mgr w) = StateInitialized →
  match e with None => start_success w w' | Some _ => start_failure w w' end.
Proof.
  intros H I Hs. unfold StartModules in H. minv H.
  rewrite decide_False in H by naive_solver. minv H.
  assert (Hrk : w_rank w ≤ rank StateStarting) by (unfold w_rank; rewrite Hs; simpl; lia).
  destruct (enter_phase StateStarting _ _ _ _ _ Hrk ltac:(done) H0 H1)
    as (Hmv & Hs0 & Hord & _).
  unfold startPhase in H. minv H. rewrite Hord in *.
  destruct (p_err _) as [serr|] eqn:Hperr; minv H.
  - apply (phase_failed _ "start" startModule ev_start (m_orderedMods (w_mgr w)) _ _ _ id w1 a1) in H3
      as (Hlt & Hmf & Hsf & Hof);
      [|eapply startModule_runs|apply cleanup_none|by eapply moves_inv|done|done].
    unfold start_failure. rewrite Hof, Hord. split_and!; [done|done|].
    exists (p_count a1), (p_attempted a1). split; [done|]. eapply moves_cons; [done|].
    destruct (p_attempted a1); simpl in *; [|done].
    by rewrite (proj2 (Nat.ltb_lt _ _) Hlt) in Hmf.
  - eapply (phase_ok _ _ _ ev_start) in H4 as (Hmf & Hsf & Hof);
      [|eapply startModule_runs| |done|done|done].
    2: { unfold w_rank. rewrite Hs0. simpl. lia. }
    unfold start_success. rewrite Hof. split_and!; [done|done|]. by eapply moves_cons.
Qed.

(** The outcome of [StopModules] when it does run the shutdown. *)
Definition stop_outcome (w w' : World) : Prop :=
  let o := m_orderedMods (w_mgr w) in
  m_state (w_mgr w') = StateStopped ∧ m_orderedMods (w_mgr w') = o ∧
  moves (EvState StateStopping :: events_of ev_stop (reverse o) ++
         [EvClose; EvState StateStopped]) w w'.

Definition stoppable (s : LifecycleState) : bool :=
  bool_decide (s = StateConfiguring ∨ s = StateInitialized ∨ s = StateRunning).

Lemma stoppable_rank w : stoppable (m_state (w_mgr w)) = true → w_rank w ≤ rank StateStopping.
Proof. unfold w_rank. destruct (m_state (w_mgr w)); simpl; intros; [lia..|done]. Qed.

(** [StopModules], with the parts of the shutdown named. *)
Lemma StopModules_inv ctx w e w' :
  StopModules ctx w = Some (e, w') → stoppable (m_state (w_mgr w)) = true →
  ∃ w0 waitErr w1 w2 stopErrs w3 closeErr w4 w5,
    moves [EvState StateStopping] w w0 ∧ m_state (w_mgr w0) = StateStopping ∧
    m_orderedMods (w_mgr w0) = m_orderedMods (w_mgr w) ∧
    t_tasks (m_tasks (w_mgr w0)) = t_tasks (m_tasks (w_mgr w)) ∧
    t_errs (m_tasks (w_mgr w0)) = t_errs (m_tasks (w_mgr w)) ∧ w_now w0 = w_now w ∧
    waitForTasks ctx w0 = Some (waitErr, w1) ∧ yield w1 = Some (tt, w2) ∧
    stopAll ctx (reverse (m_orderedMods (w_mgr w1))) "stop" w2 = Some (stopErrs, w3) ∧
    closeEventBus ctx w3 = Some (closeErr, w4) ∧ yield w4 = Some (tt, w5) ∧
    setState StateStopped w5 = Some (tt, w') ∧
    e = errors_Join ([waitErr;
           match ctx_Err ctx (w_now w2) with
           | Some err => Some (Errorf "stop context already done before stopping modules: %w" [] [err])
           | None => None end] ++ (Some <$> stopErrs) ++ [closeErr]).
Proof.
  intros H Hs. pose proof (stoppable_rank _ Hs) as Hrk. unfold StopModules in H. minv H.
  destruct (m_state (w_mgr w)) eqn:Est; try discriminate Hs.
  all: unfold ctxErr in H; minv H.
  all: match goal with H : setState StateStopping _ = Some (_, ?v) |- _ =>
         pose proof (setState_eq _ _ _ _ H) as [Heq Hnow]; apply setState_moves in H; [|done] end.
  all: repeat match goal with u : unit |- _ => destruct u end.
  all: do 9 eexists; split_and!; [..|done|done|done|done|done|done|done]; simpl.
  all: try (by rewrite ?Heq, ?Hnow).
  all: eapply moves_quiet; [done|apply runs_moves, taskCancel_runs].
Qed.

Lemma StopModules_spec ctx w e w' :
  StopModules ctx w = Some (e, w') → mgr_inv (w_mgr w) →
  stoppable (m_state (w_mgr w)) = true → stop_outcome w w'.
Proof.
  intros H I Hs.
  apply StopModules_inv in H as (w0 & we & w1 & w2 & es & w3 & ce & w4 & w5 & Hm & _ & Ho
    & _ & _ & _ & Hw & Hy & Hst & Hcl & Hy' & Hset & _); [|done].
  apply waitForTasks_runs in Hw. apply yield_runs in Hy, Hy'. apply stopAll_runs in Hst.
  rewrite (r_ordered _ _ _ Hw), Ho in Hst.
  apply closeEventBus_runs in Hcl.
  2: { rewrite (r_bus _ _ _ Hst), (r_bus _ _ _ Hy), (r_bus _ _ _ Hw), (v_bus _ _ _ Hm). apply I. }
  pose proof (setState_eq _ _ _ _ Hset) as [Heq _]. apply setState_moves in Hset; [|apply rank_max].
  unfold stop_outcome. rewrite Heq. simpl. split_and!; [done| |].
  - by rewrite (r_ordered _ _ _ Hy'), (r_ordered _ _ _ Hcl), (r_ordered _ _ _ Hst),
      (r_ordered _ _ _ Hy), (r_ordered _ _ _ Hw).
  - eapply moves_cons; [done|]. apply (moves_trans _ [EvClose; EvState StateStopped] _ w3).
    + apply runs_moves. do 2 (eapply runs_quiet_l; [done|]). done.
    + eapply moves_cons; [|done]. apply runs_moves. by eapply runs_quiet.
Qed.

(** * Termination *)

(** [returns c]: the computation never blocks forever. *)
Definition returns {A} (c : M A) : Prop := ∀ w, is_Some (c w).

Lemma returns_bind {A B} (c : M A) (f : A → M B) :
  returns c → (∀ a, returns (f a)) → returns (c ≫= f).
Proof. intros Hc Hf w. unfold mbind, M_bind. destruct (Hc w) as [[a w1] ->]. apply Hf. Qed.

Lemma returns_prim :
  returns yield ∧ returns now ∧ returns mgr ∧ (∀ e, returns (trace e)) ∧
  (∀ d, returns (tick d)) ∧ (∀ f, returns (modify f)) ∧
  (∀ A (a : A), returns (mret a : M A)) ∧ (∀ A (f : Manager → A * Manager), returns (lift f)).
Proof. repeat split; intros; unfold returns; try done. intros w. unfold yield. by destruct (w_oracle w). Qed.

Create HintDb returns discriminated.
#[export] Hint Extern 1 (returns _) => first [apply returns_bind; [|intros] | apply returns_prim] : returns.

Lemma run_prog_returns ctx p : returns (run_prog ctx p).
Proof. induction p; simpl; auto 9 with returns. Qed.
#[export] Hint Resolve run_prog_returns : returns.

Ltac returns_tac :=
  repeat first [done | solve [auto 2 with returns] | apply returns_bind; [|intros ?]
               | apply returns_prim | case_match].

Lemma stopModule_returns ctx md ph : returns (stopModule ctx md ph).
Proof. unfold stopModule. returns_tac. Qed.
Lemma startModule_returns ctx md : returns (startModule ctx md).
Proof. unfold startModule. returns_tac. Qed.
Lemma initModule_returns ctx md : returns (initModule ctx md).
Proof. unfold initModule. returns_tac. Qed.
#[export] Hint Resolve stopModule_returns startModule_returns initModule_returns : returns.

Lemma stopAll_returns ctx mods ph : returns (stopAll ctx mods ph).
Proof. induction mods; simpl; returns_tac. Qed.
#[export] Hint Resolve stopAll_returns : returns.

Lemma closeEventBus_returns ctx : returns (closeEventBus ctx).
Proof. unfold closeEventBus. returns_tac. Qed.

Lemma runPhase_returns ctx action ordered runFn :
  (∀ md, returns (runFn ctx md)) → returns (runPhase ctx action ordered runFn).
Proof.
  intros Hf. unfold runPhase. generalize (∅ : gmap string Z), 0.
  induction ordered; intros; simpl; unfold ctxErr; returns_tac.
Qed.

(** Waiting is where a call can block: it returns if the context ends. *)
Lemma waitDone_returns ctx hs : is_Some (ctx_done ctx) → returns (waitDone ctx hs).
Proof.
  intros [t Ht] w. unfold waitDone. generalize (w_oracle w). intros bs. revert w.
  induction bs; intros w; simpl; case_match; try done. by rewrite Ht.
Qed.

Section WithDeadline.
Context (ctx : Ctx) (Hdl : is_Some (ctx_done ctx)).
#[local] Hint Resolve waitDone_returns closeEventBus_returns runPhase_returns : returns.

Lemma waitForTasks_returns : returns (waitForTasks ctx).
Proof using Hdl. unfold waitForTasks, ctxErr. returns_tac. Qed.
#[local] Hint Resolve waitForTasks_returns : returns.

Lemma finalizeFailure_returns err mods ph cleanup :
  returns cleanup → returns (finalizeFailure ctx err (λ ctx, rollback ctx mods ph) cleanup).
Proof using Hdl. intros. unfold finalizeFailure, rollback, setState. returns_tac. Qed.
#[local] Hint Resolve finalizeFailure_returns : returns.

Lemma startPhase_returns mods : returns (startPhase ctx mods).
Proof using Hdl. unfold startPhase, setState. returns_tac. Qed.
Lemma initPhase_returns mods : returns (initPhase ctx mods).
Proof using Hdl. unfold initPhase, finalizeInitFailure, setState. returns_tac. Qed.
#[local] Hint Resolve startPhase_returns initPhase_returns : returns.

Lemma lockSortedModules_returns : returns lockSortedModules.
Proof using.
  unfold lockSortedModules. apply returns_bind; [apply returns_prim|]. intros m.
  destruct (sort_total_lemma (m_modules m) (m_moduleOrder m)) as [r Hr]. rewrite Hr.
  destruct r; returns_tac.
Qed.
#[local] Hint Resolve lockSortedModules_returns : returns.

Lemma StartModules_returns : returns (StartModules ctx).
Proof using Hdl. unfold StartModules, setState. returns_tac. Qed.
Lemma StopModules_returns : returns (StopModules ctx).
Proof using Hdl. unfold StopModules, setState, ctxErr. returns_tac. Qed.
Lemma InitModules_returns : returns (InitModules ctx).
Proof using Hdl.
  unfold InitModules, transitionToInitializing, finalizeInitFailure, setState. returns_tac.
Qed.
End WithDeadline.

(** * Histories *)

(** One step of a history of the Manager: the environment acts, or a lifecycle
    method is called and runs to its return.  The oracle is the future of the
    environment, so a history may change it at any point. *)
Inductive life_step (w : World) : World → Prop :=
| life_env e : life_step w (env_event e w)
| life_oracle o : life_step w (set_oracle o w)
| life_init ctx r w' : InitModules ctx w = Some (r, w') → life_step w w'
| life_start ctx r w' : StartModules ctx w = Some (r, w') → life_step w w'
| life_stop ctx r w' : StopModules ctx w = Some (r, w') → life_step w w'.

Lemma InitModules_refused ctx w : m_state (w_mgr w) ≠ StateConfiguring →
  InitModules ctx w = Some (Some (errState "InitModules" (m_state (w_mgr w))), w).
Proof.
  intros H. unfold InitModules, transitionToInitializing, mbind, M_bind. simpl.
  by rewrite decide_True.
Qed.

Lemma StartModules_refused ctx w : m_state (w_mgr w) ≠ StateInitialized →
  StartModules ctx w = Some (Some (errState "StartModules" (m_state (w_mgr w))), w).
Proof. intros H. unfold StartModules, mbind, M_bind. simpl. by rewrite decide_True. Qed.

Lemma StopModules_refused ctx w : stoppable (m_state (w_mgr w)) = false →
  ∃ r, StopModules ctx w = Some (r, w).
Proof.
  intros H. unfold StopModules, mbind, M_bind. simpl.
  destruct (m_state (w_mgr w)); try discriminate H; by eexists.
Qed.

Lemma life_step_moves w w' :
  life_step w w' → mgr_inv (w_mgr w) → ∃ es, moves es w w'.
Proof.
  intros [e|o|ctx r ? H|ctx r ? H|ctx r ? H] I.
  - exists []. apply runs_moves, env_event_runs.
  - exists []. apply runs_moves, runs_oracle, runs_refl.
  - destruct (decide (m_state (w_mgr w) = StateConfiguring)) as [Hs|Hs].
    + pose proof (InitModules_spec _ _ _ _ H I Hs) as Hr. destruct r as [err|].
      * destruct Hr as (_ & _ & [(se & _ & _ & Hm)|(o & k & a & _ & _ & _ & Hm)]); by eexists.
      * destruct Hr as (_ & _ & _ & Hm). by eexists.
    + rewrite InitModules_refused in H by done. simplify_eq. eexists. apply moves_refl.
  - destruct (decide (m_state (w_mgr w) = StateInitialized)) as [Hs|Hs].
    + pose proof (StartModules_spec _ _ _ _ H I Hs) as Hr. destruct r as [err|].
      * destruct Hr as (_ & _ & k & a & _ & Hm). by eexists.
      * destruct Hr as (_ & _ & Hm). by eexists.
    + rewrite StartModules_refused in H by done. simplify_eq. eexists. apply moves_refl.
  - destruct (stoppable (m_state (w_mgr w))) eqn:Hs.
    + destruct (StopModules_spec _ _ _ _ H I Hs) as (_ & _ & Hm). by eexists.
    + destruct (StopModules_refused ctx w Hs) as [r' Hr']. rewrite Hr' in H. simplify_eq.
      eexists. apply moves_refl.
Qed.

Lemma life_steps_moves w w' :
  rtc life_step w w' → mgr_inv (w_mgr w) → ∃ es, moves es w w'.
Proof.
  induction 1 as [w|w1 w2 w3 H1 _ IH]; intros I; [eexists; apply moves_refl|].
  destruct (life_step_moves _ _ H1 I) as [es1 M1].
  destruct (IH (moves_inv _ _ _ M1 I)) as [es2 M2]. eexists. by eapply moves_trans.
Qed.

(** Between calls the Manager is in one of the states a call can end in. *)
Definition settled (s : LifecycleState) : bool :=
  stoppable s || bool_decide (s = StateStopped).

Lemma life_step_settled w w' :
  life_step w w' → mgr_inv (w_mgr w) → settled (m_state (w_mgr w)) = true →
  settled (m_state (w_mgr w')) = true.
Proof.
  intros [e|o|ctx r ? H|ctx r ? H|ctx r ? H] I Hset.
  - by rewrite (r_state _ _ _ (env_event_runs e w)).
  - done.
  - destruct (decide (m_state (w_mgr w) = StateConfiguring)) as [Hs|Hs].
    + pose proof (InitModules_spec _ _ _ _ H I Hs) as Hr.
      destruct r as [err|]; [destruct Hr as (_ & -> & _)|destruct Hr as (_ & _ & -> & _)]; done.
    + rewrite InitModules_refused in H by done. by simplify_eq.
  - destruct (decide (m_state (w_mgr w) = StateInitialized)) as [Hs|Hs].
    + pose proof (StartModules_spec _ _ _ _ H I Hs) as Hr.
      destruct r as [err|]; destruct Hr as (-> & _); done.
    + rewrite StartModules_refused in H by done. by simplify_eq.
  - destruct (stoppable (m_state (w_mgr w))) eqn:Hs.
    + by destruct (StopModules_spec _ _ _ _ H I Hs) as (-> & _).
    + destruct (StopModules_refused ctx w Hs) as [r' Hr']. rewrite Hr' in H. by simplify_eq.
Qed.

Lemma life_steps_settled w w' :
  rtc life_step w w' → mgr_inv (w_mgr w) → settled (m_state (w_mgr w)) = true →
  settled (m_state (w_mgr w')) = true.
Proof.
  induction 1 as [w|w1 w2 w3 H1 _ IH]; intros I Hs; [done|].
  destruct (life_step_moves _ _ H1 I) as [es M1].
  apply IH; [by eapply moves_inv|by eapply life_step_settled].
Qed.

Lemma env_batch_life b w : rtc life_step w (env_batch b w).
Proof.
  unfold env_batch. revert w. induction b as [|e b IH]; intros w; simpl; [done|].
  eapply rtc_l; [apply life_env|apply IH].
Qed.

Lemma yield_life w u w' : yield w = Some (u, w') → rtc life_step w w'.
Proof.
  unfold yield. destruct (w_oracle w) as [|b bs]; intros [= <- <-]; [done|].
  eapply rtc_l; [apply (life_oracle _ bs)|apply env_batch_life].
Qed.

(** * Properties *)

(** C5. [InitModules] in the configuring state, whatever other goroutines do
    meanwhile: on success every registered module was initialised once, in a
    dependency order, and the state is [Initialized]; on failure the error is
    that of the sort and nothing ran, or exactly the modules initialised
    before the failing one were stopped in reverse order; then the event bus
    was closed, the order dropped and the state is [Stopped]. *)
Theorem init_modules_correct ctx w e w' :
  InitModules ctx w = Some (e, w') → mgr_inv (w_mgr w) →
  m_state (w_mgr w) = StateConfiguring →
  match e with None => init_success w w' | Some err => init_failure w err w' end.
Proof. apply InitModules_spec. Qed.

Lemma StopModules_stopped ctx w : m_state (w_mgr w) = StateStopped → StopModules ctx w = Some (None, w).
Proof. intros H. unfold StopModules, mbind, M_bind. simpl. by rewrite H. Qed.

(** C6. [StartModules] in the initialised state: on success every [Starter]
    was started once in the order of initialisation; on failure exactly the
    modules started before and the one whose [Start] itself failed were
    stopped in reverse order, the bus closed and the state is [Stopped].  The
    modules after the failing one were initialised and get neither a [Start] nor
    a [Stop], not from a later [StopModules] either, which returns nil at once:
    here the code departs from the comment on [Stopper], which promises a [Stop]
    to every module whose [Init] succeeded. *)
Theorem start_modules_correct ctx w e w' :
  StartModules ctx w = Some (e, w') → mgr_inv (w_mgr w) →
  m_state (w_mgr w) = StateInitialized →
  match e with
  | None => start_success w w'
  | Some _ => start_failure w w' ∧ ∀ ctx', StopModules ctx' w' = Some (None, w')
  end.
Proof.
  intros H I Hs. pose proof (StartModules_spec _ _ _ _ H I Hs) as Hr. destruct e as [err|]; [|done]. split; [done|].
  intros ctx'. apply StopModules_stopped, Hr.
Qed.

(** C7. [StopModules] from a stoppable state calls [Stop] once on every
    [Stopper] that was initialised, in reverse order, then closes the bus and
    ends in [Stopped], whatever the context, the tasks, the errors of earlier
    stops and other goroutines do. *)
Theorem stop_modules_correct ctx w e w' :
  StopModules ctx w = Some (e, w') → mgr_inv (w_mgr w) →
  stoppable (m_state (w_mgr w)) = true → stop_outcome w w'.
Proof. apply StopModules_spec. Qed.

(** A lifecycle method called in the wrong state changes nothing:
    [InitModules] and [StartModules] report [ErrInvalidLifecycleState], and so
    does [StopModules] during a phase in progress; a repeated [StopModules]
    returns nil. *)
Theorem lifecycle_refusals ctx w :
  let s := m_state (w_mgr w) in
  (s ≠ StateConfiguring → InitModules ctx w = Some (Some (errState "InitModules" s), w)) ∧
  (s ≠ StateInitialized → StartModules ctx w = Some (Some (errState "StartModules" s), w)) ∧
  (s = StateStopped ∨ s = StateStopping → StopModules ctx w = Some (None, w)) ∧
  (s = StateInitializing ∨ s = StateStarting →
     StopModules ctx w = Some (Some (errStopInProgress s), w)) ∧
  error_is ErrInvalidLifecycleState (errState "InitModules" s) = true ∧
  error_is ErrInvalidLifecycleState (errState "StartModules" s) = true ∧
  error_is ErrInvalidLifecycleState (errStopInProgress s) = true.
Proof.
  intros s. split_and!; try reflexivity.
  - apply InitModules_refused.
  - apply StartModules_refused.
  - unfold StopModules, mbind, M_bind, s. simpl. by intros [->| ->].
  - unfold StopModules, mbind, M_bind, s. simpl. by intros [->| ->].
Qed.

(** A whole successful run: with arbitrary activity of other goroutines
    between and during the three calls, the trace of the program is: the
    inits in a dependency order, the starts in the same order, the stops in
    the reverse order, the bus closed last. *)
Theorem lifecycle_trace ctx1 ctx2 ctx3 b1 b2 w0 w1 w2 e w3 :
  mgr_inv (w_mgr w0) → m_state (w_mgr w0) = StateConfiguring →
  InitModules ctx1 w0 = Some (None, w1) →
  StartModules ctx2 (env_batch b1 w1) = Some (None, w2) →
  StopModules ctx3 (env_batch b2 w2) = Some (e, w3) →
  ∃ o, valid_order (w_mgr w0) o ∧ m_state (w_mgr w3) = StateStopped ∧
    w_trace w3 = w_trace w0 ++
      EvState StateInitializing :: events_of ev_init o ++ EvState StateInitialized ::
      EvState StateStarting :: events_of ev_start o ++ EvState StateRunning ::
      EvState StateStopping :: events_of ev_stop (reverse o) ++ [EvClose; EvState StateStopped].
Proof.
  intros I Hs Hi Hst Hsp.
  destruct (InitModules_spec _ _ _ _ Hi I Hs) as (_ & Hv & Hs1 & M1).
  pose proof (env_batch_runs b1 w1) as R1.
  assert (mgr_inv (w_mgr w1)) as I1 by by eapply moves_inv.
  apply StartModules_spec in Hst as (Hs2 & Ho2 & M2);
    [|eapply moves_inv; [by apply runs_moves|done]|by rewrite (r_state _ _ _ R1)].
  pose proof (env_batch_runs b2 w2) as R2.
  assert (mgr_inv (w_mgr w2)) as I2
    by (eapply moves_inv; [done|]; eapply moves_inv; [by apply runs_moves|done]).
  apply StopModules_spec in Hsp as (Hs3 & _ & M3);
    [|eapply moves_inv; [by apply runs_moves|done]|by rewrite (r_state _ _ _ R2), Hs2].
  rewrite (r_ordered _ _ _ R2), Ho2 in M3. rewrite (r_ordered _ _ _ R1) in M2, M3.
  eexists. split_and!; [exact Hv|done|].
  rewrite (v_trace _ _ _ M3), (r_trace _ _ _ R2), (v_trace _ _ _ M2), (r_trace _ _ _ R1),
    (v_trace _ _ _ M1).
  simpl. repeat (rewrite <-?app_assoc, ?app_nil_r; simpl). done.
Qed.

(** C8. The registry lock, over any history of calls from any goroutines:
    the state never goes back; from [Initializing] on the modules are fixed,
    from [Initialized] on the services are, and from [Stopping] on no task is
    ever added. *)
Theorem registry_lock w w' :
  mgr_inv (w_mgr w) → rtc life_step w w' →
  rank (m_state (w_mgr w)) ≤ rank (m_state (w_mgr w')) ∧
  (1 ≤ rank (m_state (w_mgr w)) →
     m_modules (w_mgr w') = m_modules (w_mgr w) ∧
     m_moduleOrder (w_mgr w') = m_moduleOrder (w_mgr w)) ∧
  (2 ≤ rank (m_state (w_mgr w)) → m_services (w_mgr w') = m_services (w_mgr w)) ∧
  (5 ≤ rank (m_state (w_mgr w)) →
     t_tasks (m_tasks (w_mgr w')) ⊆ t_tasks (m_tasks (w_mgr w))).
Proof.
  intros I H. destruct (life_steps_moves _ _ H I) as [es M0].
  split_and!; [apply (v_rank _ _ _ M0)|apply M0|apply (v_services _ _ _ M0)|apply M0].
Qed.

(** C9. When [StopModules] returns nil from a state in which it stops anything
    (configuring, initialised or running), nothing was dropped: no task error
    was pending when it was called, every supervised task has finished (every
    handle ever issued is done) and no error is left unreported.  The only other
    nil is that of a manager already stopping or stopped, where nothing is done
    and nothing is promised: after a failed start-up a task may still run
    ([rollback_task_leak]). *)
Theorem stop_nil_clean ctx w w' :
  StopModules ctx w = Some (None, w') → mgr_inv (w_mgr w) →
  if stoppable (m_state (w_mgr w)) then
    t_errs (m_tasks (w_mgr w)) = [] ∧ idle (w_mgr w') ∧
    ∀ h th, t_handles (m_tasks (w_mgr w')) !! h = Some th → h_done th = true
  else (m_state (w_mgr w) = StateStopping ∨ m_state (w_mgr w) = StateStopped) ∧ w' = w.
Proof.
  intros H I. destruct (stoppable (m_state (w_mgr w))) eqn:Hs.
  2:{ unfold StopModules, mbind, M_bind in H. simpl in H. destruct (m_state (w_mgr w)) eqn:E; try discriminate Hs; simpl in H; try discriminate H; injection H as <-; split; auto. }
  destruct (StopModules_spec _ _ _ _ H I Hs) as (_ & _ & Mv).
  apply StopModules_inv in H as (w0 & we & w1 & w2 & es & w3 & ce & w4 & w5 & Hm & Hs0 & Ho
    & _ & He & _ & Hw & Hy & Hst & Hcl & Hy' & Hset & Hjoin); [|done].
  symmetry in Hjoin. apply errors_Join_None in Hjoin.
  inversion Hjoin as [|? ? Hwe Hj2]. subst we. inversion Hj2 as [|? ? Hdone _].
  destruct (ctx_Err ctx (w_now w2)) eqn:Hctx; [done|].
  pose proof (moves_inv _ _ _ Hm I) as I0.
  assert (idle (w_mgr w')) as Hidle.
  { rewrite (proj1 (setState_eq _ _ _ _ Hset)). change (idle (w_mgr w5)).
    apply yield_runs in Hy, Hy'. apply stopAll_runs in Hst.
    pose proof (waitForTasks_runs _ _ _ _ Hw) as Rw.
    apply closeEventBus_runs in Hcl;
      [|rewrite (r_bus _ _ _ Hst), (r_bus _ _ _ Hy), (r_bus _ _ _ Rw); apply I0].
    eapply r_idle; [exact Hy'|by rewrite (r_state _ _ _ Hcl), (r_state _ _ _ Hst), (r_state _ _ _ Hy), (r_state _ _ _ Rw)|].
    eapply r_idle; [exact Hcl|by rewrite (r_state _ _ _ Hst), (r_state _ _ _ Hy), (r_state _ _ _ Rw)|].
    eapply r_idle; [exact Hst|by rewrite (r_state _ _ _ Hy), (r_state _ _ _ Rw)|].
    eapply r_idle; [exact Hy|by rewrite (r_state _ _ _ Rw)|].
    eapply waitForTasks_idle; [done|done|done|]. by eapply runs_ctx_ok. }
  split_and!; [|done|].
  - apply waitForTasks_inv in Hw as (ws & wm & wd & _ & _ & _ & _ & _ & Hpre & more & Hnone).
    rewrite He in Hpre. symmetry in Hnone. apply errors_Join_None in Hnone.
    rewrite fmap_app, Forall_app in Hnone. destruct Hnone as [Hn _].
    destruct (t_errs (m_tasks (w_mgr wd))); [by apply prefix_nil_inv in Hpre|].
    by inversion Hn.
  - intros h th Hh. destruct (h_done th) eqn:Hd; [done|].
    pose proof (mi_handles _ (moves_inv _ _ _ Mv I) _ _ Hh Hd) as Ht.
    by rewrite (proj1 Hidle) in Ht.
Qed.

(** Task errors are never lost: an error recorded by a task that ended
    before the shutdown is part of what [StopModules] returns, and an
    [InitModules] that fails on the dependency order keeps the sort's error
    through the joins of the rollback. *)
Theorem errors_reported ctx w e w' c :
  (StopModules ctx w = Some (e, w') → stoppable (m_state (w_mgr w)) = true →
   existsb (error_is c) (t_errs (m_tasks (w_mgr w))) = true → err_is c e = true) ∧
  (InitModules ctx w = Some (e, w') → mgr_inv (w_mgr w) → m_state (w_mgr w) = StateConfiguring →
   ∀ serr, sortModules (m_modules (w_mgr w)) (m_moduleOrder (w_mgr w)) = Some (inr serr) →
   error_is c serr = true → err_is c e = true).
Proof.
  split.
  - intros H Hs Hc. apply StopModules_inv in H as (w0 & we & w1 & w2 & es & w3 & ce & w4 & w5 & _
      & _ & _ & _ & He & _ & Hw & _ & _ & _ & _ & _ & ->); [|done].
    rewrite err_is_Join. simpl. rewrite <-He in Hc.
    by rewrite (waitForTasks_reports _ _ _ _ _ Hw Hc).
  - intros H I Hs serr Hsort Hc. pose proof (InitModules_spec _ _ _ _ H I Hs) as Hr.
    destruct e as [err|].
    + destruct Hr as (_ & _ & [(se & Hse & Hk & _)|(o & k & a & Hok & _)]); [|congruence].
      simpl. apply Hk. congruence.
    + destruct Hr as [Hok _]. congruence.
Qed.

(** Under a context that ends, no lifecycle call blocks forever, even if
    a supervised task never returns. *)
Theorem lifecycle_returns ctx :
  is_Some (ctx_done ctx) →
  returns (InitModules ctx) ∧ returns (StartModules ctx) ∧ returns (StopModules ctx).
Proof.
  intros Hd. pose proof (InitModules_returns _ Hd). pose proof (StartModules_returns _ Hd).
  pose proof (StopModules_returns _ Hd). done.
Qed.

(** * Two gaps of the failure path *)

Definition demo_ctx : Ctx := mkCtx (Some 1000%Z) (Const "context deadline exceeded").
Definition demo_ok : Ctx → Prog := λ _, PRet None.
Definition demo_fail : Ctx → Prog := λ _, PTick 5 (PRet (Some (Const "boom"))).
Definition demo_spawn : Ctx → Prog := λ _, POp (OGo "flush" (Some 1%Z)) (λ _, PRet None).

Definition demo_mgr (mods : list Module_) : Manager :=
  foldl (λ m md, (RegisterModule (Some md) m).2) newManager0 mods.
Definition demo_world (mods : list Module_) (o : list (list EnvEvent)) : World :=
  mkWorld (demo_mgr mods) 0 [] o false.
Definition after {A} (c : M A) (w : World) : World :=
  match c w with Some (_, w') => w' | None => w end.
Definition result {A} (c : M A) (w : World) : option A := fst <$> c w.

Definition demo_a : Module_ := mkModule "a" [] demo_ok (Some demo_ok) (Some demo_ok).
Definition demo_b : Module_ := mkModule "b" [" a "] demo_ok (Some demo_ok) (Some demo_ok).
Definition demo_a_bad : Module_ := mkModule "a" [] demo_ok (Some demo_fail) (Some demo_ok).
Definition demo_a_spawn : Module_ := mkModule "a" [] demo_ok None (Some demo_spawn).
Definition demo_b_bad : Module_ := mkModule "b" ["a"] demo_fail None (Some demo_ok).

(** A failed [StartModules] leaves modules behind: module [b] was
    initialised, the start of its dependency [a] fails, and neither the
    rollback nor any later [StopModules] ever calls [Stop] on [b]. *)
Theorem start_failure_leaves_initialized ctx :
  let w1 := after (InitModules demo_ctx) (demo_world [demo_b; demo_a_bad] []) in
  let w2 := after (StartModules demo_ctx) w1 in
  w_trace w2 = [EvState StateInitializing; EvInit "a"; EvInit "b"; EvState StateInitialized;
                EvState StateStarting; EvStart "a"; EvStop "a"; EvClose; EvState StateStopped] ∧
  StopModules ctx w2 = Some (None, w2).
Proof. vm_compute. split; reflexivity. Qed.

(** A failed [InitModules] can leave a supervised task running for ever:
    during the rollback the state is still [Initializing] and the task context
    has already been recreated, so a task started by [a]'s [Stop] is accepted,
    its context is never cancelled, and [StopModules] then returns nil while
    it runs. *)
Theorem rollback_task_leak ctx :
  let w1 := after (InitModules demo_ctx) (demo_world [demo_a_spawn; demo_b_bad] []) in
  m_state (w_mgr w1) = StateStopped ∧
  dom (t_tasks (m_tasks (w_mgr w1))) = {["flush"]} ∧
  taskCtx_cancelled (m_tasks (w_mgr w1)) = false ∧
  StopModules ctx w1 = Some (None, w1).
Proof. vm_compute. repeat split; reflexivity. Qed.

(** * Witnesses *)

Definition demo_w0 : World := demo_world [demo_b; demo_a] [[EnvTick 3]; [EnvOp (OGo "poll" (Some 1%Z))]].
Definition demo_w1 : World := after (InitModules demo_ctx) demo_w0.
Definition demo_w2 : World := after (StartModules demo_ctx) demo_w1.
Definition demo_end : list EnvEvent := [EnvTask "poll" (TaskReturned (Some (Const "lost link")))].
Definition demo_w3 : World := after (StopModules demo_ctx) (env_batch demo_end demo_w2).

Lemma demo_mgr_inv mods : mgr_inv (demo_mgr mods).
Proof.
  unfold demo_mgr. assert (mgr_inv newManager0) as I by (apply (NewManager_inv []); [constructor|reflexivity]).
  revert I. generalize newManager0. induction mods as [|md mods IH]; intros m I; simpl; [done|].
  apply IH. by apply RegisterModule_inv.
Qed.

Lemma demo_inv1 : mgr_inv (w_mgr demo_w1).
Proof.
  eapply mgr_steps_inv; [|apply (demo_mgr_inv [demo_b; demo_a])].
  assert (InitModules demo_ctx demo_w0 = Some (None, demo_w1)) as H by (vm_compute; reflexivity).
  apply InitModules_spec in H as (_ & _ & _ & Hm); [apply Hm|apply demo_mgr_inv|done].
Qed.

Lemma demo_inv2 : mgr_inv (w_mgr (env_batch demo_end demo_w2)).
Proof.
  eapply mgr_steps_inv; [|apply demo_inv1].
  assert (StartModules demo_ctx demo_w1 = Some (None, demo_w2)) as H by (vm_compute; reflexivity).
  apply StartModules_spec in H as (_ & _ & Hm); [|apply demo_inv1|done].
  etrans; [apply Hm|apply env_batch_runs].
Qed.

Lemma init_modules_correct_witness :
  init_success demo_w0 demo_w1 ∧
  init_failure (demo_world [demo_a_spawn; demo_b_bad] [])
    (Errorf "failed to %s module %q: %w" ["init"; "b"] [Const "boom"])
    (after (InitModules demo_ctx) (demo_world [demo_a_spawn; demo_b_bad] [])).
Proof.
  split.
  - apply (init_modules_correct demo_ctx demo_w0 None);
      [vm_compute; reflexivity|apply demo_mgr_inv|reflexivity].
  - apply (init_modules_correct demo_ctx _ (Some _));
      [vm_compute; reflexivity|apply demo_mgr_inv|reflexivity].
Defined.

Lemma start_modules_correct_witness : start_success demo_w1 demo_w2.
Proof.
  apply (start_modules_correct demo_ctx demo_w1 None);
    [vm_compute; reflexivity|apply demo_inv1|reflexivity].
Defined.

Lemma stop_modules_correct_witness : stop_outcome (env_batch demo_end demo_w2) demo_w3.
Proof.
  apply (stop_modules_correct demo_ctx _ (Some (Joined [Joined [Errorf "task %q failed: %w" ["poll"]
    [Const "lost link"]]]))); [vm_compute; reflexivity|apply demo_inv2|reflexivity].
Defined.

Lemma lifecycle_trace_witness :
  ∃ o, valid_order (w_mgr demo_w0) o ∧ m_state (w_mgr demo_w3) = StateStopped ∧
    w_trace demo_w3 = w_trace demo_w0 ++
      EvState StateInitializing :: events_of ev_init o ++ EvState StateInitialized ::
      EvState StateStarting :: events_of ev_start o ++ EvState StateRunning ::
      EvState StateStopping :: events_of ev_stop (reverse o) ++ [EvClose; EvState StateStopped].
Proof.
  apply (lifecycle_trace demo_ctx demo_ctx demo_ctx [] demo_end demo_w0 demo_w1 demo_w2
    (Some (Joined [Joined [Errorf "task %q failed: %w" ["poll"] [Const "lost link"]]])));
    [apply demo_mgr_inv|reflexivity|vm_compute; reflexivity..].
Defined.

Lemma registry_lock_witness :
  rank StateInitialized ≤ rank (m_state (w_mgr demo_w2)) ∧
  m_services (w_mgr demo_w2) = m_services (w_mgr demo_w1).
Proof.
  destruct (registry_lock demo_w1 demo_w2) as (Hr & _ & Hsv & _).
  - apply demo_inv1.
  - apply rtc_once. apply (life_start _ demo_ctx None). vm_compute. reflexivity.
  - split; [exact Hr|]. apply Hsv. vm_compute. repeat constructor.
Defined.

Lemma stop_nil_clean_witness :
  t_errs (m_tasks (w_mgr demo_w1)) = [] ∧
  idle (w_mgr (after (StopModules demo_ctx)
    (env_event (EnvTask "poll" (TaskReturned None)) demo_w1))).
Proof.
  destruct (stop_nil_clean demo_ctx (env_event (EnvTask "poll" (TaskReturned None)) demo_w1)
    (after (StopModules demo_ctx) (env_event (EnvTask "poll" (TaskReturned None)) demo_w1)))
    as (H1 & H2 & _).
  - vm_compute. reflexivity.
  - eapply mgr_steps_inv; [apply env_event_runs|apply demo_inv1].
  - split; [reflexivity|exact H2].
Defined.

Lemma errors_reported_witness :
  err_is "lost link" (default None (result (StopModules demo_ctx) (env_batch demo_end demo_w2))) = true.
Proof.
  apply (errors_reported demo_ctx (env_batch demo_end demo_w2) _ demo_w3); vm_compute; reflexivity.
Defined.

Lemma lifecycle_returns_witness : returns (StopModules demo_ctx).
Proof. apply (lifecycle_returns demo_ctx). vm_compute. by eexists. Defined.
