(* ===== verification/ModTest.v ===== *)
(** The test kit for modules (src/modtest): recording the calls of a lifecycle,
    checking their order, inducing failures to observe the rollback, and the
    checks on cancellation, health and owned resources.

    A helper is a function to what it reports through the test, [None] when the
    lifecycle it drives never returns.  A wrapped module records each call before
    it makes it; that is what the trace of a world records, so the recorder of a
    run is the calls in its trace. *)

From stdpp Require Import base gmap list strings pretty.
From S2P Require Import Prelude TopoSort Manager Lifecycle.

(** * Recording *)

Inductive Phase := PhaseInit | PhaseStart | PhaseStop.
#[export] Instance Phase_eq_dec : EqDecision Phase.
Proof. solve_decision. Defined.
Definition Phase_String (p : Phase) : string := match p with PhaseInit => "Init" | PhaseStart => "Start" | PhaseStop => "Stop" end.

(** [modtest.Event]. *)
Record CallEvent := mkCall { ce_Module : string; ce_Phase : string }.
#[export] Instance CallEvent_eq_dec : EqDecision CallEvent.
Proof. solve_decision. Defined.
Definition call_of (name : string) (p : Phase) : CallEvent := mkCall name (Phase_String p).
Abbreviation OrderRecorder := (list CallEvent).
Definition record (module phase : string) (r : OrderRecorder) : OrderRecorder := r ++ [mkCall module phase].
(** The first position of an event, [None] for -1. *)
Definition Index (r : OrderRecorder) (module phase : string) : option nat := fst <$> list_find (λ e, e = mkCall module phase) r.
(** What wrapped modules record of a lifecycle. *)
Definition recorderOf (tr : list Event) : OrderRecorder :=
  foldl (λ r e, match e with
    | EvInit name => record name (Phase_String PhaseInit) r
    | EvStart name => record name (Phase_String PhaseStart) r
    | EvStop name => record name (Phase_String PhaseStop) r
    | _ => r
    end) [] tr.

(** What a helper reports. *)
Inductive TEvent := TErrorf (fmt : string) (args : list string) | TFatalf (fmt : string) (args : list string) (err : option error) | TLogf (fmt : string) (args : list string).

(** * Lifecycle order *)

Definition checkOwnPhaseOrder (rec : OrderRecorder) (name : string) : list TEvent :=
  match Index rec name (Phase_String PhaseInit) with
  | None => [TErrorf "modtest: module %q: Init was never recorded" [name]]
  | Some initIdx =>
    let startIdx := Index rec name (Phase_String PhaseStart) in
    (match startIdx with
     | Some s => if (s <? initIdx)%nat
                 then [TErrorf "modtest: module %q: Start (event #%d) happened before its own Init (event #%d)" [name; pretty s; pretty initIdx]] else []
     | None => []
     end) ++
    (match Index rec name (Phase_String PhaseStop), startIdx with
     | None, _ => []
     | Some t, Some s => if (t <? s)%nat
         then [TErrorf "modtest: module %q: Stop (event #%d) happened before its own Start (event #%d)" [name; pretty t; pretty s]] else []
     | Some t, None => if (t <? initIdx)%nat
         then [TErrorf "modtest: module %q: Stop (event #%d) happened before its own Init (event #%d)" [name; pretty t; pretty initIdx]] else []
     end)
  end.
(** One dependency of a module. *)
Definition checkDependency (rec : OrderRecorder) (name dep : string) : list TEvent :=
  (match Index rec dep (Phase_String PhaseInit), Index rec name (Phase_String PhaseInit) with
   | Some depInit, Some modInit => if (modInit <? depInit)%nat
       then [TErrorf "modtest: dependency %q (Init event #%d) initialized after its dependent %q (Init event #%d); expected dependency-first ordering"
               [dep; pretty depInit; name; pretty modInit]] else []
   | _, _ => []
   end) ++
  (match Index rec dep (Phase_String PhaseStop), Index rec name (Phase_String PhaseStop) with
   | Some depStop, Some modStop => if (depStop <? modStop)%nat
       then [TErrorf "modtest: dependency %q (Stop event #%d) stopped before its dependent %q (Stop event #%d); expected reverse (dependent-first) teardown ordering"
               [dep; pretty depStop; name; pretty modStop]] else []
   | _, _ => []
   end).
Definition checkDependencyOrder (rec : OrderRecorder) (md : Module_) : list TEvent := mod_DependsOn md ≫= checkDependency rec (mod_Name md).
Definition checkLifecycleOrder (rec : OrderRecorder) (mods : list Module_) : list TEvent :=
  (mods ≫= λ md, checkOwnPhaseOrder rec (mod_Name md)) ++ (mods ≫= checkDependencyOrder rec).

(** A fresh manager with the modules, or why there is none. *)
Fixpoint registerMods (mods : list Module_) (m : Manager) : Manager + TEvent :=
  match mods with
  | [] => inl m
  | md :: mods =>
    match RegisterModule (Some md) m with
    | (Some err, _) => inr (TFatalf "modtest: RegisterModule(%q): %v" [mod_Name md] (Some err))
    | (None, m) => registerMods mods m
    end
  end.
Definition fresh (mods : list Module_) : Manager + TEvent :=
  match NewManager [] with
  | inr err => inr (TFatalf "modtest: NewManager: %v" [] (Some err))
  | inl m => registerMods mods m
  end.
Definition Background : Ctx := mkCtx None (Const "").

Section helpers.
(** The clock when the test starts, and what other goroutines do during it. *)
Context (start : Z) (oracle : list (list EnvEvent)).
Definition worldOf (m : Manager) : World := mkWorld m start [] oracle false.
(** A step of a lifecycle whose failure ends the test. *)
Definition must (fmt : string) (c : M (option error)) (w : World) (k : World → option (list TEvent)) : option (list TEvent) :=
  match c w with
  | None => None
  | Some (Some err, _) => Some [TFatalf fmt [] (Some err)]
  | Some (None, w) => k w
  end.

Definition AssertLifecycleOrder (mods : list Module_) : option (list TEvent) :=
  match mods with
  | [] => Some [TFatalf "modtest: AssertLifecycleOrder requires at least one module" [] None]
  | _ =>
    match fresh mods with
    | inr e => Some [e]
    | inl m =>
      must "modtest: InitModules: %v" (InitModules Background) (worldOf m) (λ w,
      must "modtest: StartModules: %v" (StartModules Background) w (λ w,
      must "modtest: StopModules: %v" (StopModules Background) w (λ w,
      Some (checkLifecycleOrder (recorderOf (w_trace w)) mods))))
    end
  end.

(** * Rollback *)

Definition errInducedFailure : string := "modtest: induced failure".
Definition NewFailingModule (name : string) (deps : list string) (phase : Phase) (err : option error) : Module_ :=
  mkModule name deps
    (λ _, PRet (if decide (phase = PhaseInit) then err else None))
    (Some (λ _, PRet (if decide (phase = PhaseStart) then err else None))) None.
Definition inducedFailerName (modName phase : string) : string := "modtest-induced-" +:+ phase +:+ "-failure-depending-on-" +:+ modName.
Definition assertStoppedIfStopper (md : Module_) (rec : OrderRecorder) : list TEvent :=
  match mod_Stop md with
  | None => [TLogf "modtest: module %q does not implement modulex.Stopper; nothing to verify for rollback cleanup" [mod_Name md]]
  | Some _ =>
    match Index rec (mod_Name md) (Phase_String PhaseStop) with
    | None => [TErrorf "modtest: module %q implements modulex.Stopper but its Stop was not called during rollback" [mod_Name md]]
    | Some _ => []
    end
  end.
(** The outcome of the phase that was made to fail. *)
Definition expectFailure (what : string) (md : Module_) (r : option (option error * World)) : option (list TEvent) :=
  match r with
  | None => None
  | Some (None, _) =>
    Some [TFatalf ("modtest: expected " +:+ what +:+ " to fail due to an induced failure in a module depending on %q, got nil error") [mod_Name md] None]
  | Some (Some err, w) =>
    Some ((if negb (error_is errInducedFailure err) then [TErrorf ("modtest: " +:+ what +:+ " error does not wrap the induced failure: %v") []] else []) ++
          assertStoppedIfStopper md (recorderOf (w_trace w)))
  end.
Definition AssertRollbackOnInitFailure (md : Module_) : option (list TEvent) :=
  let failer := NewFailingModule (inducedFailerName (mod_Name md) "init") [mod_Name md] PhaseInit (Some (Const errInducedFailure)) in
  match fresh [md; failer] with
  | inr e => Some [e]
  | inl m => expectFailure "InitModules" md (InitModules Background (worldOf m))
  end.
Definition AssertRollbackOnStartFailure (md : Module_) : option (list TEvent) :=
  let failer := NewFailingModule (inducedFailerName (mod_Name md) "start") [mod_Name md] PhaseStart (Some (Const errInducedFailure)) in
  match fresh [md; failer] with
  | inr e => Some [e]
  | inl m =>
    must "modtest: InitModules failed unexpectedly: %v" (InitModules Background) (worldOf m) (λ w,
    expectFailure "StartModules" md (StartModules Background w))
  end.

(** * Booting *)

(** [Boot]: what is reported before it returns, and the manager that runs.  The
    deferred cleanup is [bootCleanup]. *)
Definition Boot (mods : list Module_) : option (list TEvent * option World) :=
  match fresh mods with
  | inr e => Some ([e], None)
  | inl m =>
    match InitModules Background (worldOf m) with
    | None => None
    | Some (Some err, w) => Some ([TFatalf "modtest: InitModules: %v" [] (Some err)], Some w)
    | Some (None, w) =>
      match StartModules Background w with
      | None => None
      | Some (Some err, w) => Some ([TFatalf "modtest: StartModules: %v" [] (Some err)], Some w)
      | Some (None, w) => Some ([], Some w)
      end
    end
  end.
Definition bootCleanup (w : World) : option (list TEvent) :=
  match StopModules Background w with
  | None => None
  | Some (Some err, _) => Some [TErrorf "modtest: StopModules during cleanup: %v" []]
  | Some (None, _) => Some []
  end.

(** * Cancellation and deadlines *)

(** The earlier phases, run on the module itself; the world then is that of the
    phase under test. *)
Definition setupForPhase (md : Module_) (phase : Phase) : option (World + TEvent) :=
  match NewManager [] with
  | inr err => Some (inr (TFatalf "modtest: NewManager: %v" [] (Some err)))
  | inl m =>
    if decide (phase = PhaseInit) then Some (inl (worldOf m))
    else match run_prog Background (mod_Init md Background) (worldOf m) with
    | None => None
    | Some (Some err, _) => Some (inr (TFatalf "modtest: setup Init failed: %v" [] (Some err)))
    | Some (None, w) =>
      if decide (phase = PhaseStart) then Some (inl w)
      else match mod_Start md with
      | None => Some (inl w)
      | Some s =>
        match run_prog Background (s Background) w with
        | None => None
        | Some (Some err, _) => Some (inr (TFatalf "modtest: setup Start failed: %v" [] (Some err)))
        | Some (None, w) => Some (inl w)
        end
      end
    end
  end.
Definition requirePhaseSupported (md : Module_) (phase : Phase) : option TEvent :=
  match phase with
  | PhaseInit => None
  | PhaseStart => match mod_Start md with Some _ => None | None => Some (TFatalf "modtest: module %q does not implement modulex.Starter; cannot test PhaseStart" [mod_Name md] None) end
  | PhaseStop => match mod_Stop md with Some _ => None | None => Some (TFatalf "modtest: module %q does not implement modulex.Stopper; cannot test PhaseStop" [mod_Name md] None) end
  end.
Definition invokePhase (md : Module_) (phase : Phase) (ctx : Ctx) : M (option error) :=
  match phase with
  | PhaseInit => run_prog ctx (mod_Init md ctx)
  | PhaseStart => match mod_Start md with Some s => run_prog ctx (s ctx) | None => mret None end
  | PhaseStop => match mod_Stop md with Some s => run_prog ctx (s ctx) | None => mret None end
  end.
(** The wait for the goroutine: it ends in time, or the test reports [late].  At
    the very instant of the timer either may be chosen, here the end. *)
Definition awaitPhase (md : Module_) (phase : Phase) (ctx : Ctx) (w : World) (limit : Z) (late : TEvent) : list TEvent :=
  match invokePhase md phase ctx w with
  | Some (_, w') => if (w_now w' - w_now w <=? limit)%Z then [] else [late]
  | None => [late]
  end.
Definition guarded (md : Module_) (phase : Phase) (k : World → list TEvent) : option (list TEvent) :=
  match setupForPhase md phase with
  | None => None
  | Some (inr e) => Some [e]
  | Some (inl w) => match requirePhaseSupported md phase with Some e => Some [e] | None => Some (k w) end
  end.
Definition AssertRespectsCancellation (md : Module_) (phase : Phase) (grace : Z) : option (list TEvent) := guarded md phase (λ w,
  awaitPhase md phase (mkCtx (Some (w_now w)) (Const "context canceled")) w grace
    (TErrorf "modtest: module %q did not return from %s within %s after its context was cancelled; it may be ignoring ctx.Done()" [mod_Name md; Phase_String phase; pretty grace])).
Definition AssertRespectsDeadline (md : Module_) (phase : Phase) (deadline grace : Z) : option (list TEvent) := guarded md phase (λ w,
  awaitPhase md phase (mkCtx (Some (w_now w + deadline)%Z) (Const "context deadline exceeded")) w (deadline + grace)
    (TErrorf "modtest: module %q did not return from %s within %s of its context deadline (%s) elapsing; it may be ignoring the deadline"
      [mod_Name md; Phase_String phase; pretty grace; pretty deadline])).

(** * Health *)

(** [lookupCheck]: the check of that name after Init, from the map [checks]. *)
Definition lookupCheck (md : Module_) (name : string) (checks : Manager → gmap string Z) (kind : string) : option (Z + TEvent) :=
  match fresh [md] with
  | inr e => Some (inr e)
  | inl m =>
    match InitModules Background (worldOf m) with
    | None => None
    | Some (Some err, _) => Some (inr (TFatalf "modtest: InitModules: %v" [] (Some err)))
    | Some (None, w) =>
      match checks (w_mgr w) !! name with
      | Some check => Some (inl check)
      | None => Some (inr (TFatalf "modtest: module %q did not register a %s check named %q during Init" [mod_Name md; kind; name] None))
      end
    end
  end.
(** [runCheck], of what the check returned. *)
Definition expectCheck (name kind : string) (err : option error) (wantErr : bool) : list TEvent :=
  match wantErr, err with
  | true, None => [TErrorf "modtest: %s check %q reported healthy/ready, want a failure" [kind; name]]
  | false, Some _ => [TErrorf "modtest: %s check %q reported an error, want healthy/ready: %v" [kind; name]]
  | _, _ => []
  end.
Definition assertCheck (outcome : Z → option error) (checks : Manager → gmap string Z) (kind : string) (md : Module_) (name : string) (wantErr : bool) : option (list TEvent) :=
  match lookupCheck md name checks kind with
  | None => None
  | Some (inr e) => Some [e]
  | Some (inl check) => Some (expectCheck name kind (outcome check) wantErr)
  end.
Definition AssertHealthCheck (outcome : Z → option error) := assertCheck outcome m_healthChecks "health".
Definition AssertReadinessCheck (outcome : Z → option error) := assertCheck outcome m_readinessChecks "readiness".

(** * Owned resources *)

(** [owner] is what the caller's function answers in a world: no owner, or whether
    it is closed. *)
Context (owner : World → option bool).
Definition assertOwnerOpen (md : Module_) (closed : bool) (phase : string) : list TEvent :=
  if closed then [TErrorf "modtest: resource owner for module %q reports Closed() == true immediately after %s; the resource must remain open while the module is running" [mod_Name md; phase]] else [].
(** After Init: Start if there is one, then Stop and the release. *)
Definition ownedStop (md : Module_) (w : World) : option (list TEvent) :=
  match mod_Stop md with
  | None => Some [TFatalf "modtest: module %q does not implement modulex.Stopper; AssertResourceOwnership requires a Stop method that releases the resource" [mod_Name md] None]
  | Some s =>
    must "modtest: Stop: %v" (run_prog Background (s Background)) w (λ w,
      match owner w with
      | Some true => Some []
      | _ => Some [TErrorf "modtest: resource owner for module %q reports Closed() == false (or was nil) after Stop returned; the resource was not released" [mod_Name md]]
      end)
  end.
Definition ownedStart (md : Module_) (w : World) : option (list TEvent) :=
  match mod_Start md with
  | None => ownedStop md w
  | Some s =>
    must "modtest: Start: %v" (run_prog Background (s Background)) w (λ w,
      let report := match owner w with
        | None => [TErrorf "modtest: owner() returned nil after Start; module %q must still own its resource while running" [mod_Name md]]
        | Some closed => assertOwnerOpen md closed "Start"
        end in
      app report <$> ownedStop md w)
  end.
Definition AssertResourceOwnership (md : Module_) : option (list TEvent) :=
  match NewManager [] with
  | inr err => Some [TFatalf "modtest: NewManager: %v" [] (Some err)]
  | inl m0 =>
    match owner (worldOf m0) with
    | Some true => Some [TFatalf "modtest: resource owner for module %q already reports Closed() == true before Init; check test setup" [mod_Name md] None]
    | _ =>
      match fresh [md] with
      | inr e => Some [e]
      | inl m =>
        must "modtest: InitModules: %v" (InitModules Background) (worldOf m) (λ w,
          match owner w with
          | None => Some [TFatalf "modtest: owner() returned nil after Init; module %q must have acquired its resource by the time Init returns" [mod_Name md] None]
          | Some closed => app (assertOwnerOpen md closed "Init") <$> ownedStart md w
          end)
      end
    end
  end.
End helpers.

(** * The order check is exact *)

(** Every [e2] has an [e1] before it. *)
Definition precedes (r : OrderRecorder) (e1 e2 : CallEvent) : Prop := ∀ j, r !! j = Some e2 → ∃ i, i < j ∧ r !! i = Some e1.
Record own_ordered (r : OrderRecorder) (name : string) : Prop := {
  oo_init : call_of name PhaseInit ∈ r;
  oo_start : call_of name PhaseStart ∈ r → precedes r (call_of name PhaseInit) (call_of name PhaseStart);
  oo_stop : call_of name PhaseStop ∈ r → call_of name PhaseStart ∈ r → precedes r (call_of name PhaseStart) (call_of name PhaseStop);
  oo_unstarted : call_of name PhaseStop ∈ r → call_of name PhaseStart ∉ r → precedes r (call_of name PhaseInit) (call_of name PhaseStop) }.
Definition dep_ordered (r : OrderRecorder) (name dep : string) : Prop := dep ≠ name →
  (call_of dep PhaseInit ∈ r → call_of name PhaseInit ∈ r → precedes r (call_of dep PhaseInit) (call_of name PhaseInit)) ∧
  (call_of dep PhaseStop ∈ r → call_of name PhaseStop ∈ r → precedes r (call_of name PhaseStop) (call_of dep PhaseStop)).
Definition lifecycle_ordered (r : OrderRecorder) (mods : list Module_) : Prop := ∀ md, md ∈ mods →
  own_ordered r (mod_Name md) ∧ ∀ dep, dep ∈ mod_DependsOn md → dep_ordered r (mod_Name md) dep.

Definition at_ (r : OrderRecorder) (e : CallEvent) : option nat := fst <$> list_find (λ x, x = e) r.
Lemma Index_at r name p : Index r name (Phase_String p) = at_ r (call_of name p).
Proof. done. Qed.
Lemma at_Some r e i : at_ r e = Some i ↔ r !! i = Some e ∧ ∀ j, r !! j = Some e → i ≤ j.
Proof.
  unfold at_. rewrite fmap_Some. split.
  - intros ([i' x] & (Hi & -> & Hmin)%list_find_Some & ->). split; [done|]. intros j Hj. simpl.
    destruct (decide (j < i')) as [Hlt|]; [|lia]. by destruct (Hmin j e Hj Hlt).
  - intros [Hi Hmin]. exists (i, e). split; [|done]. apply list_find_Some. split; [done|]. split; [done|]. intros j y Hj Hlt ->. apply Hmin in Hj. lia.
Qed.
Lemma at_None r e : at_ r e = None ↔ e ∉ r.
Proof. unfold at_. rewrite fmap_None, list_find_None, Forall_forall. split; [intros H Hin; by apply (H e Hin)|intros H x Hx ->; done]. Qed.
Lemma at_dec r e : ((e ∉ r) ∧ at_ r e = None) ∨ ((e ∈ r) ∧ ∃ i, at_ r e = Some i).
Proof.
  destruct (at_ r e) as [i|] eqn:E; [right|left; by apply at_None in E]. apply at_Some in E as E'. split; [|eauto].
  destruct E' as [E' _]. by eapply list_elem_of_lookup_2.
Qed.
(** For different events that occur, comparing first positions is [precedes]. *)
Lemma at_precedes r e1 e2 i j : e1 ≠ e2 → at_ r e1 = Some i → at_ r e2 = Some j → ((j <? i)%nat = false ↔ precedes r e1 e2).
Proof.
  intros Hne [Hi Hmi]%at_Some [Hj Hmj]%at_Some. rewrite Nat.ltb_ge. split.
  - intros Hle j' Hj'. exists i. split; [|done]. apply Hmj in Hj'. destruct (decide (i = j)) as [->|]; [congruence|lia].
  - intros Hp. apply Hp in Hj as (i' & Hlt & Hi'). apply Hmi in Hi'. lia.
Qed.
Lemma if_nil {A} (b : bool) (x : A) : (if b then [x] else []) = [] ↔ b = false.
Proof. by destruct b. Qed.
Lemma call_phases name p q : p ≠ q → call_of name p ≠ call_of name q.
Proof. by destruct p, q. Qed.

Lemma own_exact r name : checkOwnPhaseOrder r name = [] ↔ own_ordered r name.
Proof.
  unfold checkOwnPhaseOrder. rewrite !Index_at.
  destruct (at_dec r (call_of name PhaseInit)) as [[Hni ->]|(Hi & i & Ei)]; [split; [done|intros [? _ _ _]; done]|]. rewrite Ei.
  rewrite app_nil.
  destruct (at_dec r (call_of name PhaseStart)) as [[Hns ->]|(Hs & s & Es)]; destruct (at_dec r (call_of name PhaseStop)) as [[Hnt ->]|(Ht & t & Et)];
    rewrite ?Es, ?Et, ?if_nil.
  - split; [intros _; by split|done].
  - rewrite (at_precedes r (call_of name PhaseInit) (call_of name PhaseStop)) by (done || by apply call_phases).
    split; [intros [_ ?]; by split|]. intros [_ _ _ H]. split; [done|by apply H].
  - rewrite (at_precedes r (call_of name PhaseInit) (call_of name PhaseStart)) by (done || by apply call_phases).
    split; [intros [? _]; by split|]. intros [_ H _ _]. split; [by apply H|done].
  - rewrite (at_precedes r (call_of name PhaseInit) (call_of name PhaseStart)), (at_precedes r (call_of name PhaseStart) (call_of name PhaseStop)) by (done || by apply call_phases).
    split; [intros [? ?]; by split|]. intros [_ H1 H2 _]. split; [by apply H1|by apply H2].
Qed.
(** Two events compared, if both occur. *)
Lemma compared r e1 e2 (f : nat → nat → TEvent) : e1 ≠ e2 →
  match at_ r e1, at_ r e2 with Some i, Some j => if (j <? i)%nat then [f i j] else [] | _, _ => [] end = [] ↔ (e1 ∈ r → e2 ∈ r → precedes r e1 e2).
Proof.
  intros Hne. destruct (at_dec r e1) as [[H1 ->]|(H1 & i & E1)]; [tauto|]. rewrite E1.
  destruct (at_dec r e2) as [[H2 ->]|(H2 & j & E2)]; [tauto|]. rewrite E2, if_nil, (at_precedes r e1 e2 i j) by done. tauto.
Qed.
Lemma dep_exact r name dep : checkDependency r name dep = [] ↔ dep_ordered r name dep.
Proof.
  unfold checkDependency, dep_ordered. rewrite !Index_at, app_nil. destruct (decide (dep = name)) as [->|Hne].
  { split; [done|]. intros _. destruct (at_ r (call_of name PhaseInit)), (at_ r (call_of name PhaseStop)); rewrite ?Nat.ltb_irrefl; done. }
  assert (∀ p, call_of dep p ≠ call_of name p) as Hcall by (intros p [=]; done).
  pose proof (compared r (call_of dep PhaseInit) (call_of name PhaseInit)
    (λ i j, TErrorf "modtest: dependency %q (Init event #%d) initialized after its dependent %q (Init event #%d); expected dependency-first ordering" [dep; pretty i; name; pretty j]) (Hcall _)) as Hi.
  pose proof (compared r (call_of name PhaseStop) (call_of dep PhaseStop)
    (λ i j, TErrorf "modtest: dependency %q (Stop event #%d) stopped before its dependent %q (Stop event #%d); expected reverse (dependent-first) teardown ordering" [dep; pretty j; name; pretty i])
    (not_eq_sym (Hcall _))) as Hs.
  rewrite Hi. destruct (at_ r (call_of dep PhaseStop)), (at_ r (call_of name PhaseStop)); rewrite Hs; tauto.
Qed.
(** The check reports nothing exactly for recordings in which every module is
    initialised, started and stopped in this order, dependencies are initialised
    before their dependents and stopped after them. *)
Theorem order_check_exact r mods : checkLifecycleOrder r mods = [] ↔ lifecycle_ordered r mods.
Proof.
  assert (∀ {A B} (f : A → list B) l, l ≫= f = [] ↔ ∀ x, x ∈ l → f x = []) as Hb.
  { intros A B f l. rewrite <- Forall_forall. induction l as [|x l IH]; [by split|]. rewrite bind_cons, app_nil, Forall_cons, IH. done. }
  unfold checkLifecycleOrder, lifecycle_ordered. rewrite app_nil, !Hb. unfold checkDependencyOrder. split.
  - intros [H1 H2] md Hin. split; [by apply own_exact, H1|]. intros dep Hd. apply dep_exact. specialize (H2 md Hin). rewrite Hb in H2. by apply H2.
  - intros H. split; intros md Hin; [by apply own_exact, H|]. apply Hb. intros dep Hd. by apply dep_exact, H.
Qed.

(** * No false alarm *)

(** ** What a successful lifecycle records *)

Definition starters (o : list Module_) : list CallEvent := o ≫= λ md, match mod_Start md with Some _ => [call_of (mod_Name md) PhaseStart] | None => [] end.
Definition stoppers (o : list Module_) : list CallEvent := o ≫= λ md, match mod_Stop md with Some _ => [call_of (mod_Name md) PhaseStop] | None => [] end.
Definition inits (o : list Module_) : list CallEvent := (λ md, call_of (mod_Name md) PhaseInit) <$> o.
Definition callsOf (e : Event) : list CallEvent :=
  match e with EvInit n => [call_of n PhaseInit] | EvStart n => [call_of n PhaseStart] | EvStop n => [call_of n PhaseStop] | _ => [] end.
Lemma recorderOf_calls tr : recorderOf tr = tr ≫= callsOf.
Proof.
  unfold recorderOf. assert (∀ r, foldl (λ r e, match e with
    | EvInit name => record name (Phase_String PhaseInit) r | EvStart name => record name (Phase_String PhaseStart) r
    | EvStop name => record name (Phase_String PhaseStop) r | _ => r end) r tr = r ++ (tr ≫= callsOf)) as H; [|by rewrite H].
  induction tr as [|e tr IH]; intros r; [by rewrite app_nil_r|]. rewrite bind_cons. simpl. rewrite IH. unfold record, call_of.
  destruct e; simpl; by rewrite <- ?(assoc_L (++)).
Qed.
Lemma calls_events (ev : Module_ → list Event) o : (events_of ev o ≫= callsOf) = o ≫= λ md, ev md ≫= callsOf.
Proof. unfold events_of. induction o as [|md o IH]; [done|]. change (flat_map ev (md :: o)) with (ev md ++ flat_map ev o). rewrite bind_app, IH. done. Qed.
Lemma calls_inits o : (events_of ev_init o ≫= callsOf) = inits o.
Proof. rewrite calls_events. induction o as [|md o IH]; [done|]. by rewrite bind_cons, IH. Qed.
Lemma calls_starts o : (events_of ev_start o ≫= callsOf) = starters o.
Proof. rewrite calls_events. unfold starters. induction o as [|md o IH]; [done|]. rewrite !bind_cons, IH. f_equal. unfold ev_start. by destruct (mod_Start md). Qed.
Lemma calls_stops o : (events_of ev_stop o ≫= callsOf) = stoppers o.
Proof. rewrite calls_events. unfold stoppers. induction o as [|md o IH]; [done|]. rewrite !bind_cons, IH. f_equal. unfold ev_stop. by destruct (mod_Stop md). Qed.

Lemma in_inits name p o : call_of name p ∈ inits o ↔ p = PhaseInit ∧ name ∈ mod_Name <$> o.
Proof.
  unfold inits. rewrite !list_elem_of_fmap. split; [|intros (-> & md & -> & H); eauto]. intros (md & [= -> Hp] & H). destruct p; try done. eauto.
Qed.
Lemma in_starters name p o : call_of name p ∈ starters o → p = PhaseStart ∧ name ∈ mod_Name <$> o.
Proof.
  unfold starters. rewrite list_elem_of_bind. intros (md & Hin & H). destruct (mod_Start md); [|by apply elem_of_nil in Hin].
  apply list_elem_of_singleton in Hin as [= -> Hp]. destruct p; try done. split; [done|]. apply list_elem_of_fmap. eauto.
Qed.
Lemma in_stoppers name p o : call_of name p ∈ stoppers o → p = PhaseStop ∧ name ∈ mod_Name <$> o.
Proof.
  unfold stoppers. rewrite list_elem_of_bind. intros (md & Hin & H). destruct (mod_Stop md); [|by apply elem_of_nil in Hin].
  apply list_elem_of_singleton in Hin as [= -> Hp]. destruct p; try done. split; [done|]. apply list_elem_of_fmap. eauto.
Qed.
Lemma precedes_app l1 l2 e1 e2 : e1 ∈ l1 → e2 ∉ l1 → precedes (l1 ++ l2) e1 e2.
Proof.
  intros [i Hi]%list_elem_of_lookup Hn j Hj. exists i. split; [|by rewrite lookup_app_l by (by eapply lookup_lt_Some)].
  destruct (decide (j < length l1)) as [Hlt|]; [|apply lookup_lt_Some in Hi; lia]. rewrite lookup_app_l in Hj by done. destruct Hn. by eapply list_elem_of_lookup_2.
Qed.

Section recorded.
Context (o : list Module_) (Hkeys : NoDup (key <$> o)) (Htopo : topo_sorted o).
Lemma same_key m1 m2 : m1 ∈ o → m2 ∈ o → key m1 = key m2 → m1 = m2.
Proof.
  intros [i Hi]%list_elem_of_lookup [j Hj]%list_elem_of_lookup Hk. assert (i = j) as ->; [|congruence].
  eapply NoDup_lookup; [exact Hkeys| |]; rewrite list_lookup_fmap; [by rewrite Hi|by rewrite Hj, Hk].
Qed.
Lemma names_distinct : NoDup (mod_Name <$> o).
Proof. apply (NoDup_fmap_1 TrimSpace). rewrite <- list_fmap_compose. exact Hkeys. Qed.
Definition lifecycleCalls : OrderRecorder := inits o ++ starters o ++ stoppers (reverse o).

Lemma reverse_names l name : name ∈ mod_Name <$> reverse l ↔ name ∈ mod_Name <$> l.
Proof. by rewrite fmap_reverse, elem_of_reverse. Qed.
Lemma in_calls name p : call_of name p ∈ lifecycleCalls ↔
  call_of name p ∈ inits o ∨ call_of name p ∈ starters o ∨ call_of name p ∈ stoppers (reverse o).
Proof. unfold lifecycleCalls. by rewrite !elem_of_app. Qed.
Lemma own_recorded md : md ∈ o → own_ordered lifecycleCalls (mod_Name md).
Proof.
  intros Hin. assert (call_of (mod_Name md) PhaseInit ∈ inits o) as Hi by (apply in_inits; split; [done|]; apply list_elem_of_fmap; eauto). split.
  - apply in_calls. by left.
  - intros _. apply precedes_app; [done|]. by rewrite in_inits; intros [? _].
  - intros _ Hs. unfold lifecycleCalls. rewrite (assoc_L (++)). apply precedes_app.
    + apply in_calls in Hs as [Hs|[Hs|Hs]]; [by apply in_inits in Hs as [? _]|set_solver|by apply in_stoppers in Hs as [? _]].
    + rewrite elem_of_app, in_inits. intros [[? _]|[? _]%in_starters]; done.
  - intros _ _. apply precedes_app; [done|]. by rewrite in_inits; intros [? _].
Qed.
(** A module before the one it is a dependency of. *)
Lemma dep_before l1 md l2 dep : o = l1 ++ md :: l2 → dep ∈ mod_DependsOn md → dep ∈ mod_Name <$> o → dep ∈ mod_Name <$> l1.
Proof.
  intros Ho Hd (md' & Hn & Hin)%list_elem_of_fmap. assert (TrimSpace dep ∈ key <$> l1) as Hk.
  { eapply Htopo; [exact Ho|]. unfold deps. apply list_elem_of_fmap. exists dep. split; [done|exact Hd]. }
  apply list_elem_of_fmap in Hk as (m1 & Hk1 & H1). apply list_elem_of_fmap. exists m1. split; [|done].
  assert (m1 = md') as ->; [|done]. apply same_key; [rewrite Ho; set_solver|done|]. rewrite <- Hk1, Hn. done.
Qed.
Lemma dep_recorded md dep : md ∈ o → dep ∈ mod_DependsOn md → dep_ordered lifecycleCalls (mod_Name md) dep.
Proof.
  intros (l1 & l2 & Ho)%list_elem_of_split Hd Hne.
  assert (dep ∈ mod_Name <$> o → (dep ∈ mod_Name <$> l1) ∧ (dep ∉ mod_Name <$> md :: l2) ∧ (mod_Name md ∉ mod_Name <$> l1)) as Hb.
  { intros Hin. pose proof (dep_before _ _ _ _ Ho Hd Hin) as H1. split; [done|]. pose proof names_distinct as Hnd. rewrite Ho, fmap_app in Hnd.
    apply NoDup_app in Hnd as (_ & Hdis & _). split; [by apply Hdis|]. intros Hm. apply Hdis in Hm. apply Hm. left. }
  split.
  - intros Hi _. apply in_calls in Hi as [Hi|[[? _]%in_starters|[? _]%in_stoppers]]; [|done|done]. apply in_inits in Hi as [_ Hi].
    destruct (Hb Hi) as (H1 & _ & H3). unfold lifecycleCalls. rewrite Ho. unfold inits at 1. rewrite fmap_app, <- (assoc_L (++)).
    apply precedes_app; [by apply (in_inits dep PhaseInit)|]. change (call_of (mod_Name md) PhaseInit ∉ inits l1). by rewrite in_inits; intros [_ ?].
  - intros Hi Hm. apply in_calls in Hi as [[? _]%in_inits|[[? _]%in_starters|Hi]]; [done|done|]. apply in_stoppers in Hi as [_ Hi].
    rewrite reverse_names in Hi. destruct (Hb Hi) as (_ & H2 & _).
    apply in_calls in Hm as [[? _]%in_inits|[[? _]%in_starters|Hm]]; [done|done|]. unfold lifecycleCalls.
    assert (stoppers (reverse o) = stoppers (reverse (md :: l2)) ++ stoppers (reverse l1)) as Es by (unfold stoppers; by rewrite Ho, reverse_app, bind_app).
    rewrite Es, !(assoc_L (++)). apply precedes_app.
    + rewrite elem_of_app. right. rewrite Es, elem_of_app in Hm. destruct Hm as [Hm|[_ Hm]%in_stoppers]; [done|]. exfalso.
      destruct (Hb Hi) as (_ & _ & H3). by rewrite reverse_names in Hm.
    + rewrite !elem_of_app. intros [[[? _]%in_inits|[? _]%in_starters]|[_ Hs]%in_stoppers]; [done|done|]. by rewrite reverse_names in Hs.
Qed.
Lemma lifecycle_recorded mods : (∀ md, md ∈ mods → md ∈ o) → lifecycle_ordered lifecycleCalls mods.
Proof. intros Hin md Hmd. split; [by apply own_recorded, Hin|]. intros dep Hd. apply dep_recorded; [by apply Hin|done]. Qed.
End recorded.

(** ** The manager that a helper builds *)

Lemma RegisterModule_ok md m m' : RegisterModule (Some md) m = (None, m') →
  m_state m' = m_state m ∧ m_state m = StateConfiguring ∧ m_modules m !! key md = None ∧ m_modules m' = <[key md := md]> (m_modules m).
Proof.
  unfold RegisterModule. case_decide as Hs; [done|]. case_decide; [done|].
  destruct (m_modules m !! TrimSpace (mod_Name md)) eqn:E; [done|]. intros [= <-]. done.
Qed.
Lemma registerMods_ok mods : ∀ m m', mgr_inv m → registerMods mods m = inl m' →
  mgr_inv m' ∧ (m_state m = StateConfiguring → m_state m' = StateConfiguring) ∧
  (∀ k md, m_modules m !! k = Some md → m_modules m' !! k = Some md) ∧ ∀ md, md ∈ mods → m_modules m' !! key md = Some md.
Proof.
  induction mods as [|md mods IH]; intros m m' Hi.
  - intros [= <-]. split_and!; [done..|]. intros md Hin. by apply elem_of_nil in Hin.
  - cbn [registerMods]. pose proof (RegisterModule_inv (Some md) m Hi) as Hi1. destruct (RegisterModule (Some md) m) as [[err|] m1] eqn:E; [done|].
    intros H. apply RegisterModule_ok in E as (Hs & Hc & Hn & Hm). destruct (IH m1 m' Hi1 H) as (Hi' & Hs' & Hkeep & Hall). split; [done|].
    split; [intros _; apply Hs'; congruence|]. split.
    + intros k md' Hk. apply Hkeep. rewrite Hm, lookup_insert_ne; [done|]. intros <-. congruence.
    + intros md' [->|Hin]%elem_of_cons; [|by apply Hall]. apply Hkeep. rewrite Hm. apply lookup_insert_eq.
Qed.
Lemma fresh_ok mods m : fresh mods = inl m → mgr_inv m ∧ m_state m = StateConfiguring ∧ ∀ md, md ∈ mods → m_modules m !! key md = Some md.
Proof.
  unfold fresh. destruct (NewManager []) as [m0|] eqn:E; [|done]. pose proof (NewManager_inv [] m0 ltac:(constructor) E) as Hi.
  pose proof (NewManager_pristine [] m0 ltac:(constructor) E) as [(_ & _ & _ & _ & _ & _ & Hc & _) _].
  intros H. destruct (registerMods_ok mods m0 m Hi H) as (? & Hs & _ & ?). eauto.
Qed.

(** The order check raises no false alarm: on the manager of this library, whatever
    the modules do and whatever other goroutines do meanwhile, the helper reports
    no violation of the order; it reports nothing, or that the lifecycle itself
    failed. *)
Theorem no_false_alarm start oracle mods log : AssertLifecycleOrder start oracle mods = Some log →
  log = [] ∨ ∃ fmt args err, log = [TFatalf fmt args err].
Proof.
  unfold AssertLifecycleOrder. destruct mods as [|md0 mods0]; [intros [= <-]; eauto|]. set (mods := md0 :: mods0).
  destruct (fresh mods) as [m|e] eqn:Ef.
  2:{ intros [= <-]. right. unfold fresh in Ef. destruct (NewManager []) as [m0|err]; [|injection Ef as <-; eauto].
      clear -Ef. revert m0 Ef. induction mods as [|md mods IH]; intros m0; [done|]. cbn [registerMods].
      destruct (RegisterModule (Some md) m0) as [[err|] m1]; [intros [= <-]; eauto|apply IH]. }
  apply fresh_ok in Ef as (Hi & Hc & Hmods). unfold must.
  destruct (InitModules Background (worldOf start oracle m)) as [[[err|] w1]|] eqn:E1; [intros [= <-]; eauto| |done].
  destruct (StartModules Background w1) as [[[err|] w2]|] eqn:E2; [intros [= <-]; eauto| |done].
  destruct (StopModules Background w2) as [[[err|] w3]|] eqn:E3; [intros [= <-]; eauto| |done].
  intros [= <-]. left. apply order_check_exact.
  destruct (lifecycle_trace _ _ _ [] [] (worldOf start oracle m) w1 w2 None w3 Hi Hc E1 E2 E3) as (o & (Hperm & Htopo & Hreg) & _ & Htr).
  assert (recorderOf (w_trace w3) = lifecycleCalls o) as ->.
  { rewrite recorderOf_calls, Htr. simpl. rewrite !bind_app, calls_inits. cbn [mbind list_bind callsOf app]. fold (mbind (M := list) callsOf).
    rewrite !bind_app, calls_starts. cbn [mbind list_bind callsOf app]. fold (mbind (M := list) callsOf). rewrite !bind_app, calls_stops. simpl.
    unfold lifecycleCalls. by rewrite app_nil_r. }
  apply lifecycle_recorded.
  - rewrite Hperm. apply (mi_reg _ Hi).
  - exact Htopo.
  - intros md Hmd. apply Hmods in Hmd as Hk. assert (key md ∈ key <$> o) as (md' & Hk' & Hin)%list_elem_of_fmap.
    { rewrite Hperm. apply (reg_dom _ _ (mi_reg _ Hi)). eauto. }
    specialize (Hreg md' Hin). simpl in Hreg. rewrite <- Hk', Hk in Hreg. by injection Hreg as ->.
Qed.
Lemma no_false_alarm_witness : ∃ log, AssertLifecycleOrder 0 [[EnvTick 3]; [EnvTick 2]] [demo_b; demo_a] = Some log ∧
  (log = [] ∨ ∃ fmt args err, log = [TFatalf fmt args err]).
Proof.
  exists []. assert (AssertLifecycleOrder 0 [[EnvTick 3]; [EnvTick 2]] [demo_b; demo_a] = Some []) as E by (vm_compute; reflexivity).
  split; [exact E|]. exact (no_false_alarm _ _ _ _ E).
Defined.

(** The rollback helpers on modules that start, that fail by themselves, and that
    have nothing to stop. *)
Example rollback_ex :
  AssertRollbackOnInitFailure 0 [] demo_a = Some [] ∧ AssertRollbackOnStartFailure 0 [] demo_a = Some [] ∧
  AssertRollbackOnInitFailure 0 [] demo_b_bad = Some [TErrorf "modtest: InitModules error does not wrap the induced failure: %v" [];
    TErrorf "modtest: module %q implements modulex.Stopper but its Stop was not called during rollback" ["b"]] ∧
  AssertRollbackOnInitFailure 0 [] (mkModule "c" [] demo_ok None None) =
    Some [TLogf "modtest: module %q does not implement modulex.Stopper; nothing to verify for rollback cleanup" ["c"]].
Proof. vm_compute. done. Qed.
(** A module that ends once its context does, and one that does not look. *)
Example cancellation_ex :
  let looks := mkModule "p" [] (λ _, PTick 3 (PCtxErr (λ e, match e with Some _ => PRet e | None => PTick 100 (PRet None) end))) None None in
  let deaf := mkModule "q" [] (λ _, PTick 100 (PRet None)) None None in
  AssertRespectsCancellation 0 [] looks PhaseInit 5 = Some [] ∧ (∃ m, AssertRespectsCancellation 0 [] deaf PhaseInit 5 = Some [TErrorf m ["q"; "Init"; "5"]]) ∧
  AssertRespectsDeadline 0 [] looks PhaseInit 2 5 = Some [] ∧ AssertRespectsDeadline 0 [] deaf PhaseInit 200 5 = Some [] ∧
  ∃ m, AssertRespectsCancellation 0 [] deaf PhaseStop 5 = Some [TFatalf m ["q"] None].
Proof. vm_compute. split; [done|]. split; [by eexists|]. split; [done|]. split; [done|]. by eexists. Qed.
Example health_ex :
  let md := mkModule "h" [] (λ _, POp (ORegisterHealthCheck " db " (Some 4%Z)) (λ _, PRet None)) None None in
  AssertHealthCheck 0 [] (λ _, None) md "db" false = Some [] ∧ AssertHealthCheck 0 [] (λ _, Some (Const "down")) md "db" true = Some [] ∧
  (∃ f, AssertHealthCheck 0 [] (λ _, Some (Const "down")) md "db" false = Some [TErrorf f ["health"; "db"]]) ∧
  ∃ f, AssertReadinessCheck 0 [] (λ _, None) md "db" false = Some [TFatalf f ["h"; "readiness"; "db"] None].
Proof. vm_compute. split; [done|]. split; [done|]. split; by eexists. Qed.

(** The manager takes a dependency without the space around it, the check does not:
    of a dependency written with space no order is checked, and a recording in
    which it is initialised after its dependent and stopped before passes. *)
Theorem padded_dependency_unchecked :
  let r := [call_of "b" PhaseInit; call_of "a" PhaseInit; call_of "a" PhaseStop; call_of "b" PhaseStop] in
  deps demo_b = ["a"] ∧ checkLifecycleOrder r [demo_b; demo_a] = [] ∧
  checkLifecycleOrder r [mkModule "b" ["a"] demo_ok (Some demo_ok) (Some demo_ok); demo_a] ≠ [].
Proof. vm_compute. done. Qed.
