(* ===== verification/Diagnostics.v ===== *)
(** Diagnostics of the Manager: [ModuleContract], [Diagnostics] and the
    Mermaid rendering [ExportDAG] (src/diagnostics.go, src/modulex.go).

    Go's [map] iteration order is unspecified; every listing is sorted before
    it is returned, so the model iterates in the order of [map_to_list] and
    the theorems show that the order does not matter.  [isPrint] is the
    table of printable runes that [strconv.Quote] uses. *)

From Stdlib Require Import Ascii.
From stdpp Require Import base gmap list strings sorting pretty.
From S2P Require Import Prelude Quote TopoSort Manager.

(** * Snapshots *)

Record ModuleContractEntry := mkEntry { e_Name : string; e_DependsOn : list string }.

(** The normalisation of [DependsOn]: trimmed, without empty entries. *)
Definition trimDeps (deps : list string) : list string :=
  filter (λ d, d ≠ "") (TrimSpace <$> deps).

Definition ModuleContract (m : Manager) : list ModuleContractEntry :=
  omap (λ name, (λ md, mkEntry name (sort_Strings (trimDeps (mod_DependsOn md)))) <$> m_modules m !! name)
       (sorted_keys (m_modules m)).

(** [td_Err] is the error itself where the code has its text. *)
Record TaskDiagnostic := mkTaskDiag { td_Name : string; td_Done : bool; td_Err : option error }.
Definition td_le (a b : TaskDiagnostic) : Prop := String.le (td_Name a) (td_Name b).
#[export] Instance td_le_dec : RelDecision td_le.
Proof. intros a b. unfold td_le. apply _. Defined.
#[export] Instance td_le_total : Total td_le.
Proof. intros a b. apply (total String.le). Qed.

Definition taskDiagnostics (m : Manager) : list TaskDiagnostic :=
  merge_sort td_le
    (omap (λ kh : string * nat,
        (λ t, let done := TaskHandle_Done (Some t) in
              mkTaskDiag (h_name t) done (if done then TaskHandle_Err t else None))
        <$> t_handles (m_tasks m) !! kh.2) (map_to_list (t_tasks (m_tasks m)))).

Definition serviceNames (m : Manager) : list string := sorted_keys (m_services m).
Definition sortedCheckNames (checks : gmap string Z) : list string := sorted_keys checks.

Record ModuleTiming := mkTiming { mt_Name : string; mt_DurationNs : Z }.
Definition sortedModuleTimings (tm : gmap string Z) : list ModuleTiming :=
  omap (λ name, mkTiming name <$> tm !! name) (sorted_keys tm).

Record LifecycleTimings := mkLifecycleTimings {
  lt_InitModules : Z; lt_StartModules : Z;
  lt_ModuleInit : list ModuleTiming; lt_ModuleStart : list ModuleTiming }.
Definition lifecycleTimings (m : Manager) : LifecycleTimings :=
  mkLifecycleTimings (initTotal (m_timings m)) (startTotal (m_timings m))
    (sortedModuleTimings (initTimings (m_timings m)))
    (sortedModuleTimings (startTimings (m_timings m))).

Record Diagnostics_ := mkDiagnostics {
  d_State : string;
  d_Modules : list ModuleContractEntry;
  d_Services : list string;
  d_Tasks : list TaskDiagnostic;
  d_HealthChecks : list string;
  d_ReadinessChecks : list string;
  d_Timings : LifecycleTimings }.

(** Each field is read under its own lock; [ms] are the Managers seen. *)
Definition Diagnostics (m1 m2 m3 m4 m5 m6 m7 : Manager) : Diagnostics_ :=
  mkDiagnostics (LifecycleState_String (m_state m1)) (ModuleContract m2) (serviceNames m3)
    (taskDiagnostics m4) (sortedCheckNames (HealthChecks m5))
    (sortedCheckNames (ReadinessChecks m6)) (lifecycleTimings m7).

(** * Mermaid identifiers *)

(** [mermaidSafeIDPattern]: [^[A-Za-z0-9_-]+$]. *)
Definition safe_byte (a : ascii) : bool :=
  byte_in 65 90 a || byte_in 97 122 a || byte_in 48 57 a || byte_is 95 a || byte_is 45 a.
Definition mermaidSafeIDPattern (s : string) : bool :=
  negb (String.eqb s "") && forallb safe_byte (String.list_ascii_of_string s).

Definition synthetic (counter : N) : string := "n" +:+ pretty counter.

(** The inner loop: skip the counters whose identifier is reserved. *)
Fixpoint skip_reserved (fuel : nat) (reserved : gset string) (counter : N) : option N :=
  match fuel with
  | O => None
  | S fuel =>
    if bool_decide (synthetic counter ∈ reserved)
    then skip_reserved fuel reserved (counter + 1) else Some counter
  end.

Fixpoint assign_ids (reserved : gset string) (names : list string) (counter : N)
    (ids : gmap string string) : option (gmap string string) :=
  match names with
  | [] => Some ids
  | name :: names =>
    match ids !! name with
    | Some _ => assign_ids reserved names counter ids
    | None =>
      if mermaidSafeIDPattern name then assign_ids reserved names counter (<[name := name]> ids)
      else match skip_reserved (S (size reserved)) reserved counter with
           | Some c => assign_ids reserved names (c + 1) (<[name := synthetic c]> ids)
           | None => None
           end
    end
  end.

Definition reservedSafeIDs (names : list string) : gset string :=
  list_to_set (filter (λ n, mermaidSafeIDPattern n = true) names).

Definition mermaidNodeIDs (names : list string) : option (gmap string string) :=
  assign_ids (reservedSafeIDs names) names 0 ∅.

(** * [ExportDAG] *)

Section dag.
Variable isPrint : N → bool.

Definition escape_byte (a : ascii) : string :=
  match N_of_ascii a with
  | 34 => "#quot;" | 60 => "#lt;" | 62 => "#gt;" | 10 => " " | 13 => " "
  | _ => String a ""
  end%N.
Definition mermaidEscapeLabel (name : string) : string :=
  String.concat "" (escape_byte <$> String.list_ascii_of_string name).

Definition mermaidNode (id name : string) : string :=
  if mermaidSafeIDPattern name then id +:+ "[" +:+ name +:+ "]"
  else id +:+ "[" +:+ Quote isPrint (mermaidEscapeLabel name) +:+ "]".

(** The dependencies of a module as [ExportDAG] lists them: sorted, then
    trimmed. *)
Definition dagDeps (md : Module_) : list string := trimDeps (sort_Strings (mod_DependsOn md)).

Definition dagModules (m : Manager) : list (string * list string) :=
  omap (λ name, (λ md, (name, dagDeps md)) <$> m_modules m !! name) (sorted_keys (m_modules m)).

Definition dagLines (ids : gmap string string) (mods : list (string * list string)) : list string :=
  "graph TD" ::
  flat_map (λ nd : string * list string,
    ("    " +:+ mermaidNode (ids !!! nd.1) nd.1) ::
    ((λ d, "    " +:+ (ids !!! nd.1) +:+ " --> " +:+ (ids !!! d)) <$> nd.2)) mods.

Definition newline : string := String (ascii_of_N 10) "".

Definition ExportDAG (m : Manager) : option string :=
  let mods := dagModules m in
  let idInputs := mods.*1 ++ flat_map snd mods in
  ids ← mermaidNodeIDs idInputs;
  Some (String.concat "" ((λ l, l +:+ newline) <$> dagLines ids mods)).
End dag.

(** * Identifiers are distinct *)

Lemma synthetic_inj c d : synthetic c = synthetic d → c = d.
Proof.
  unfold synthetic. change (String "n" (pretty c) = String "n" (pretty d) → c = d).
  intros [= H]. by apply (inj pretty).
Qed.

Lemma skip_None fuel R c :
  skip_reserved fuel R c = None → ∀ i, i < fuel → synthetic (c + N.of_nat i) ∈ R.
Proof.
  revert c. induction fuel as [|fuel IH]; intros c; simpl; [lia|].
  case_bool_decide as Hc; [|done]. intros H [|i] Hi; [by rewrite N.add_0_r|].
  replace (c + N.of_nat (S i))%N with (c + 1 + N.of_nat i)%N by lia. apply IH; [done|lia].
Qed.

Lemma skip_Some fuel R c d :
  skip_reserved fuel R c = Some d → (c ≤ d)%N ∧ synthetic d ∉ R.
Proof.
  revert c. induction fuel as [|fuel IH]; intros c; simpl; [done|].
  case_bool_decide as Hc; [|by intros [= <-]]. intros [? ?]%IH. split; [lia|done].
Qed.

(** More candidates than reserved names: the loop finds one. *)
Lemma skip_total R c : is_Some (skip_reserved (S (size R)) R c).
Proof.
  destruct (skip_reserved _ R c) as [d|] eqn:H; [done|]. exfalso.
  set (l := (λ i, synthetic (c + N.of_nat i)) <$> seq 0 (S (size R))).
  assert (NoDup l) as Hnd.
  { apply NoDup_fmap_2; [|apply NoDup_seq]. intros i j Hij%synthetic_inj. lia. }
  assert (list_to_set (C := gset string) l ⊆ R) as Hsub.
  { intros x [i [-> Hi]]%elem_of_list_to_set%list_elem_of_fmap.
    apply elem_of_seq in Hi. eapply skip_None; [done|lia]. }
  apply subseteq_size in Hsub. rewrite size_list_to_set in Hsub by done.
  unfold l in Hsub. rewrite length_fmap, length_seq in Hsub. lia.
Qed.

(** Invariant of the assignment loop. *)
Record ids_inv (R : gset string) (c : N) (ids : gmap string string) : Prop := IdsInv {
  ii_safe n i : ids !! n = Some i → mermaidSafeIDPattern n = true → i = n ∧ n ∈ R;
  ii_unsafe n i : ids !! n = Some i → mermaidSafeIDPattern n = false →
    ∃ k, i = synthetic k ∧ (k < c)%N ∧ i ∉ R;
  ii_inj n1 n2 i : ids !! n1 = Some i → ids !! n2 = Some i → n1 = n2;
}.

Lemma ids_inv_safe R c ids n :
  ids_inv R c ids → mermaidSafeIDPattern n = true → n ∈ R → ids_inv R c (<[n:=n]> ids).
Proof.
  intros [Hs Hu Hi] Hn HR. split.
  - intros n' i [[<- <-]|[_ H]]%lookup_insert_Some; eauto.
  - intros n' i [[<- <-]|[_ H]]%lookup_insert_Some; [congruence|eauto].
  - assert (∀ n', n ≠ n' → ids !! n' ≠ Some n) as Hfresh.
    { intros n' Hne H. destruct (mermaidSafeIDPattern n') eqn:E.
      - destruct (Hs _ _ H E). congruence.
      - destruct (Hu _ _ H E) as (k & _ & _ & ?). done. }
    intros n1 n2 i [[<- <-]|[? H1]]%lookup_insert_Some [[<- ?]|[? H2]]%lookup_insert_Some;
      try subst; try done; try (by edestruct Hfresh); eauto.
Qed.

Lemma ids_inv_unsafe R c d ids n :
  ids_inv R c ids → mermaidSafeIDPattern n = false → (c ≤ d)%N → synthetic d ∉ R →
  ids_inv R (d + 1) (<[n:=synthetic d]> ids).
Proof.
  intros [Hs Hu Hi] Hn Hd HR. split.
  - intros n' i [[<- <-]|[_ H]]%lookup_insert_Some; [congruence|eauto].
  - intros n' i [[<- <-]|[_ H]]%lookup_insert_Some E; [exists d; split_and!; [done|lia|done]|].
    destruct (Hu _ _ H E) as (k & ? & ? & ?). exists k. split_and!; [done|lia|done].
  - assert (∀ n', ids !! n' ≠ Some (synthetic d)) as Hfresh.
    { intros n' H. destruct (mermaidSafeIDPattern n') eqn:E.
      - destruct (Hs _ _ H E). congruence.
      - destruct (Hu _ _ H E) as (k & Hk%synthetic_inj & ? & ?). lia. }
    intros n1 n2 i [[<- <-]|[? H1]]%lookup_insert_Some [[<- ?]|[? H2]]%lookup_insert_Some;
      try subst; try done; try (by edestruct Hfresh); eauto.
Qed.

Lemma assign_ids_spec R names c ids :
  ids_inv R c ids → (∀ n, n ∈ names → mermaidSafeIDPattern n = true → n ∈ R) →
  ∃ ids' c', assign_ids R names c ids = Some ids' ∧ ids_inv R c' ids' ∧ ids ⊆ ids' ∧
    ∀ n, n ∈ names → is_Some (ids' !! n).
Proof.
  revert c ids. induction names as [|n names IH]; intros c ids I HR; cbn [assign_ids].
  { exists ids, c. split_and!; try done. by intros ? ?%elem_of_nil. }
  assert (∀ n', n' ∈ names → mermaidSafeIDPattern n' = true → n' ∈ R) as HR'
    by (intros; apply HR; [by right|done]).
  assert (∀ c1 ids1 ids2, ids_inv R c1 ids1 → is_Some (ids1 !! n) → ids2 ⊆ ids1 →
    ∃ ids' c', assign_ids R names c1 ids1 = Some ids' ∧ ids_inv R c' ids' ∧ ids2 ⊆ ids' ∧
      ∀ n', n' ∈ n :: names → is_Some (ids' !! n')) as step.
  { intros c1 ids1 ids2 I1 [v Hv] Hsub. destruct (IH c1 ids1 I1 HR') as (ids' & c' & E & I' & S' & D').
    exists ids', c'. split_and!; [done|done|by etrans|].
    intros n' [->|?]%elem_of_cons; [|auto]. eexists. by eapply lookup_weaken. }
  destruct (ids !! n) as [v|] eqn:Hn; [by eapply step|].
  destruct (mermaidSafeIDPattern n) eqn:Hsafe.
  - apply step; [apply ids_inv_safe; [done|done|apply HR; [by left|done]]|
      rewrite lookup_insert_eq; by eexists|by apply insert_subseteq].
  - destruct (skip_total R c) as [d Hd]. rewrite Hd. apply skip_Some in Hd as [Hle HdR].
    apply step; [by apply ids_inv_unsafe with c|rewrite lookup_insert_eq; by eexists|
      by apply insert_subseteq].
Qed.

Lemma mermaidNodeIDs_spec names :
  ∃ ids c, mermaidNodeIDs names = Some ids ∧ ids_inv (reservedSafeIDs names) c ids ∧
    ∀ n, n ∈ names → is_Some (ids !! n).
Proof.
  unfold mermaidNodeIDs. edestruct (assign_ids_spec (reservedSafeIDs names) names 0 ∅)
    as (ids & c & H & I & _ & D); [by split; intros; simplify_map_eq| |eauto].
  intros n Hn Hs. by apply elem_of_list_to_set, list_elem_of_filter.
Qed.

(** ** Identifiers are safe *)

Definition all_bytes (P : ascii → bool) (s : string) : bool :=
  forallb P (String.list_ascii_of_string s).

Lemma all_bytes_app P s t : all_bytes P (s +:+ t) = all_bytes P s && all_bytes P t.
Proof. induction s as [|a s IH]; simpl; [done|]. unfold all_bytes in *. simpl. by rewrite IH, andb_assoc. Qed.

Lemma all_bytes_cons P a s : all_bytes P (String a s) = P a && all_bytes P s.
Proof. done. Qed.

Lemma all_bytes_concat P l : forallb (all_bytes P) l = true → all_bytes P (String.concat "" l) = true.
Proof.
  induction l as [|s [|t l] IH]; simpl; [done|by rewrite andb_true_r|].
  intros [H1 H2]%andb_true_iff. rewrite !all_bytes_app, H1. by apply IH.
Qed.

Lemma all_bytes_of_list P l : all_bytes P (String.string_of_list_ascii l) = forallb P l.
Proof. unfold all_bytes. by rewrite String.list_ascii_of_string_of_list_ascii. Qed.

Lemma pretty_go_safe x s : all_bytes safe_byte s = true → all_bytes safe_byte (pretty_N_go x s) = true.
Proof.
  revert s. induction (N.lt_wf_0 x) as [x _ IH]; intros s Hs.
  assert (x = 0 ∨ 0 < x)%N as [->|?] by lia; [done|].
  rewrite pretty_N_go_step by done. apply IH; [by apply N.div_lt|].
  unfold all_bytes. simpl. rewrite andb_true_iff. split; [|done].
  unfold pretty_N_char. by repeat case_match.
Qed.

Lemma synthetic_safe c : mermaidSafeIDPattern (synthetic c) = true.
Proof.
  unfold mermaidSafeIDPattern, synthetic. simpl. unfold pretty, pretty_N.
  case_decide; [done|]. by apply pretty_go_safe.
Qed.

Lemma ids_safe R c ids n i : ids_inv R c ids → ids !! n = Some i → mermaidSafeIDPattern i = true.
Proof.
  intros I Hi. destruct (mermaidSafeIDPattern n) eqn:E.
  - by destruct (ii_safe _ _ _ I _ _ Hi E) as [-> _].
  - destruct (ii_unsafe _ _ _ I _ _ Hi E) as (k & -> & _). apply synthetic_safe.
Qed.

(** ** Labels cannot break out of their line *)

(** Not a line break; not a line break, a quote or an angle bracket. *)
Definition line_byte (a : ascii) : bool := negb (byte_is 10 a || byte_is 13 a).
Definition clean_byte (a : ascii) : bool :=
  line_byte a && negb (byte_is 34 a || byte_is 60 a || byte_is 62 a).

Lemma clean_line a : clean_byte a = true → line_byte a = true.
Proof. unfold clean_byte. by intros [??]%andb_true_iff. Qed.
Lemma safe_clean a : safe_byte a = true → clean_byte a = true.
Proof. destruct a as [[] [] [] [] [] [] [] []]; by compute. Qed.
Lemma quote1_clean a : clean_byte a = true → forallb clean_byte (quote1 a) = true.
Proof. destruct a as [[] [] [] [] [] [] [] []]; by compute. Qed.

Lemma all_bytes_weaken (P Q : ascii → bool) s :
  (∀ a, P a = true → Q a = true) → all_bytes P s = true → all_bytes Q s = true.
Proof. unfold all_bytes. rewrite !forallb_forall. eauto. Qed.

Lemma hex_clean k n : forallb clean_byte (hex k n) = true.
Proof.
  revert n. induction k as [|k IH]; intros n; simpl; [done|].
  rewrite forallb_app, IH. simpl. rewrite andb_true_r.
  assert (n mod 16 < 16)%N as H by (apply N.mod_lt; lia). revert H.
  generalize (n mod 16)%N. intros d Hd.
  assert (∃ i, d = N.of_nat i ∧ i < 16) as (i & -> & Hi) by (exists (N.to_nat d); lia).
  by do 16 (destruct i as [|i]; [reflexivity|]); lia.
Qed.

Lemma esc_clean c k n : clean_byte c = true → forallb clean_byte (esc c (hex k n)) = true.
Proof. intros Hc. simpl. by rewrite Hc, hex_clean. Qed.

Lemma quoteBytes_clean isPrint n l :
  length l ≤ n → forallb clean_byte l = true → forallb clean_byte (quoteBytes isPrint l) = true.
Proof.
  assert (∀ r enc, forallb clean_byte enc = true →
    forallb clean_byte (quoteRune isPrint r enc) = true) as Hrune.
  { intros r enc He. unfold quoteRune. repeat case_match; [done|..]; apply esc_clean; done. }
  assert (∀ r enc l, forallb clean_byte (enc ++ l) = true →
    forallb clean_byte (quoteBytes isPrint l) = true →
    forallb clean_byte (quoteRune isPrint r enc ++ quoteBytes isPrint l) = true) as Hstep.
  { intros r enc l'. rewrite !forallb_app. intros [He _]%andb_true_iff Hq. by rewrite Hrune, Hq. }
  revert l. induction n as [|n IH]; intros [|a l] Hn Hl; try done; [simpl in *; lia|].
  pose proof Hl as [Ha Hl']%andb_true_iff. change (forallb clean_byte l = true) in Hl'.
  cbn [length] in Hn.
  assert (forallb clean_byte (esc "x" (hex 2 (N_of_ascii a)) ++ quoteBytes isPrint l) = true) as Hbad.
  { rewrite forallb_app, IH by (done || lia). by rewrite esc_clean. }
  cbn [quoteBytes]. destruct (_ <? _)%N.
  { by rewrite forallb_app, quote1_clean, IH by (done || lia). }
  destruct l as [|b l]; [done|]. cbn [length] in Hn.
  assert (forallb clean_byte l = true) as Hb by (by apply andb_true_iff in Hl' as [_ ?]).
  destruct (utf8_2 a b); [apply Hstep; [done|apply IH; [lia|done]]|].
  destruct l as [|c l]; [done|]. cbn [length] in Hn.
  assert (forallb clean_byte l = true) as Hc by (by apply andb_true_iff in Hb as [_ ?]).
  destruct (utf8_3 a b c); [apply Hstep; [done|apply IH; [lia|done]]|].
  destruct l as [|d l]; [done|]. cbn [length] in Hn.
  destruct (utf8_4 a b c d); [|done]. apply Hstep; [done|]. apply IH; [lia|].
  by apply andb_true_iff in Hc as [_ ?].
Qed.

Lemma escape_clean name : all_bytes clean_byte (mermaidEscapeLabel name) = true.
Proof.
  unfold mermaidEscapeLabel. apply all_bytes_concat, forallb_forall.
  intros s. rewrite <-list_elem_of_In. intros (a & -> & _)%list_elem_of_fmap.
  destruct a as [[] [] [] [] [] [] [] []]; by compute.
Qed.

(** A quoted label: delimiters around a body without quotes, angle brackets
    or line breaks. *)
Lemma label_body isPrint name : ∃ body,
  Quote isPrint (mermaidEscapeLabel name) = String quote_byte (body +:+ String quote_byte "") ∧
  all_bytes clean_byte body = true.
Proof.
  exists (String.string_of_list_ascii (quoteBytes isPrint (String.list_ascii_of_string (mermaidEscapeLabel name)))).
  split.
  - unfold Quote. simpl. f_equal. generalize (quoteBytes isPrint (String.list_ascii_of_string (mermaidEscapeLabel name))).
    intros l. induction l as [|a l IH]; simpl; [done|]. by rewrite IH.
  - rewrite all_bytes_of_list. eapply quoteBytes_clean; [done|apply escape_clean].
Qed.

Lemma safe_line s : mermaidSafeIDPattern s = true → all_bytes line_byte s = true.
Proof.
  unfold mermaidSafeIDPattern. intros [_ H]%andb_true_iff.
  eapply all_bytes_weaken; [|exact H]. eauto using clean_line, safe_clean.
Qed.

Lemma mermaidNode_line isPrint id name :
  mermaidSafeIDPattern id = true → all_bytes line_byte (mermaidNode isPrint id name) = true.
Proof.
  intros Hid%safe_line. unfold mermaidNode. destruct (mermaidSafeIDPattern name) eqn:E.
  - apply safe_line in E. by rewrite !all_bytes_app, Hid, E.
  - destruct (label_body isPrint name) as (body & -> & Hb).
    apply (all_bytes_weaken _ line_byte) in Hb; [|apply clean_line].
    rewrite !all_bytes_app, Hid, (all_bytes_cons _ quote_byte), all_bytes_app. by rewrite Hb.
Qed.

Lemma dagLines_line isPrint ids mods :
  (∀ nd, nd ∈ mods → mermaidSafeIDPattern (ids !!! nd.1) = true ∧
     ∀ d, d ∈ nd.2 → mermaidSafeIDPattern (ids !!! d) = true) →
  Forall (λ l, all_bytes line_byte l = true) (dagLines isPrint ids mods).
Proof.
  intros Hids. constructor; [done|]. apply Forall_forall. intros l Hl.
  apply list_elem_of_In, in_flat_map in Hl as (nd & Hnd & Hl).
  apply list_elem_of_In in Hnd, Hl. destruct (Hids _ Hnd) as [Hn Hd].
  apply elem_of_cons in Hl as [->|(d & -> & Hin)%list_elem_of_fmap].
  - rewrite all_bytes_app. simpl. by apply mermaidNode_line.
  - apply Hd in Hin. rewrite !all_bytes_app. by rewrite (safe_line _ Hn), (safe_line _ Hin).
Qed.

Lemma dagModules_ids isPrint m : ∃ ids c,
  let mods := dagModules m in
  mermaidNodeIDs (mods.*1 ++ flat_map snd mods) = Some ids ∧
  ids_inv (reservedSafeIDs (mods.*1 ++ flat_map snd mods)) c ids ∧
  (∀ n, n ∈ mods.*1 ++ flat_map snd mods → is_Some (ids !! n)) ∧
  Forall (λ l, all_bytes line_byte l = true) (dagLines isPrint ids mods).
Proof.
  destruct (mermaidNodeIDs_spec ((dagModules m).*1 ++ flat_map snd (dagModules m)))
    as (ids & c & H & I & D). exists ids, c. split_and!; [done|done|done|].
  assert (∀ n, n ∈ (dagModules m).*1 ++ flat_map snd (dagModules m) →
    mermaidSafeIDPattern (ids !!! n) = true) as Hs.
  { intros n [i Hi]%D. rewrite (lookup_total_correct _ _ _ Hi). by eapply ids_safe. }
  apply dagLines_line. intros nd Hnd. split; [|intros d Hd]; apply Hs, elem_of_app.
  - left. by apply list_elem_of_fmap_2.
  - right. apply list_elem_of_In, in_flat_map. exists nd. by rewrite <-!list_elem_of_In.
Qed.

(** * Properties *)

(** [ExportDAG] always returns; the identifiers it assigns to module and
    dependency names (registered or not) are distinct for distinct names; and
    no name, whatever bytes it has, adds a line to the diagram or closes the
    quotes of its label: every rendered line is free of line breaks, and a
    quoted label has no quote or angle bracket inside. *)
Theorem export_dag_safe isPrint m : ∃ ids,
  let mods := dagModules m in
  ExportDAG isPrint m = Some (String.concat "" ((λ l, l +:+ newline) <$> dagLines isPrint ids mods)) ∧
  Forall (λ l, all_bytes line_byte l = true) (dagLines isPrint ids mods) ∧
  (∀ a b, a ∈ mods.*1 ++ flat_map snd mods → b ∈ mods.*1 ++ flat_map snd mods →
     ids !!! a = ids !!! b → a = b) ∧
  (∀ n, mermaidSafeIDPattern n = false → ∃ body, all_bytes clean_byte body = true ∧
     mermaidNode isPrint (ids !!! n) n =
       (ids !!! n) +:+ "[" +:+ String quote_byte (body +:+ String quote_byte "") +:+ "]").
Proof.
  destruct (dagModules_ids isPrint m) as (ids & c & H & I & D & L). exists ids. split_and!.
  - unfold ExportDAG. by rewrite H.
  - done.
  - intros a b [i Hi]%D [j Hj]%D. rewrite (lookup_total_correct _ _ _ Hi), (lookup_total_correct _ _ _ Hj).
    intros ->. by eapply ii_inj.
  - intros n Hn. destruct (label_body isPrint n) as (body & Hl & Hb). exists body.
    split; [done|]. unfold mermaidNode. by rewrite Hn, Hl.
Qed.

(** The modules of two Managers agree up to white space, empty entries and
    the order of the dependencies. *)
Definition same_graph (m1 m2 : Manager) : Prop :=
  ∀ n, option_Forall2 (λ a b, trimDeps (mod_DependsOn a) ≡ₚ trimDeps (mod_DependsOn b))
         (m_modules m1 !! n) (m_modules m2 !! n).

Lemma sorted_keys_dom {A B} (m1 : gmap string A) (m2 : gmap string B) :
  dom m1 = dom m2 → sorted_keys m1 = sorted_keys m2.
Proof.
  intros Hd. apply sort_Strings_Proper, NoDup_Permutation; try apply NoDup_fst_map_to_list.
  intros k. rewrite <-(elem_of_sort_Strings k), <-(elem_of_sort_Strings k (map_to_list m2).*1).
  change (k ∈ sorted_keys m1 ↔ k ∈ sorted_keys m2).
  rewrite !elem_of_sorted_keys, <-!elem_of_dom. by rewrite Hd.
Qed.

(** [ModuleContract] depends only on the dependency graph: two Managers
    whose modules declare the same dependencies up to white space, empty
    entries and order have equal contracts, whatever the order of
    registration. *)
Theorem contract_normal m1 m2 : same_graph m1 m2 → ModuleContract m1 = ModuleContract m2.
Proof.
  intros Hg. unfold ModuleContract. rewrite (sorted_keys_dom (m_modules m1) (m_modules m2)).
  - apply list_omap_ext. apply Forall_Forall2_diag, Forall_forall. intros n _.
    destruct (Hg n) as [a b Hab|]; simpl; [|done]. by rewrite (sort_Strings_Proper _ _ Hab).
  - apply set_eq. intros n. rewrite !elem_of_dom. destruct (Hg n); by rewrite ?is_Some_alt.
Qed.

Lemma task_diags_map m : mgr_inv m →
  taskDiagnostics m =
  merge_sort td_le ((λ kh : string * nat, mkTaskDiag kh.1 false None) <$> map_to_list (t_tasks (m_tasks m))).
Proof.
  intros I. unfold taskDiagnostics. f_equal.
  assert (∀ kh, kh ∈ map_to_list (t_tasks (m_tasks m)) → t_tasks (m_tasks m) !! kh.1 = Some kh.2) as Hin
    by (intros [k h] H; by apply elem_of_map_to_list in H).
  revert Hin. generalize (map_to_list (t_tasks (m_tasks m))).
  induction l as [|[k h] l IH]; intros Hin; simpl; [done|].
  destruct (mi_tasks _ I k h) as (th & Hth & Hk & Hd); [apply (Hin (k, h)); by left|].
  rewrite Hth. simpl. rewrite Hd, Hk. f_equal. apply IH. intros. apply Hin. by right.
Qed.

(** The task snapshot lists exactly the running tasks, sorted by name;
    a finished task never appears, and no entry carries an error. *)
Theorem task_diagnostics_in_flight m : reachable m →
  td_Name <$> taskDiagnostics m = sorted_keys (t_tasks (m_tasks m)) ∧
  Forall (λ d, td_Done d = false ∧ td_Err d = None) (taskDiagnostics m).
Proof.
  intros I%reachable_inv. rewrite (task_diags_map _ I).
  set (f := λ kh : string * nat, mkTaskDiag kh.1 false None). split.
  - apply (Sorted_unique String.le).
    + apply (Sorted_fmap _ td_le); [done|]. apply Sorted_merge_sort, _.
    + apply sort_Strings_sorted.
    + unfold sorted_keys. rewrite sort_Strings_perm, merge_sort_Permutation, <-list_fmap_compose.
      done.
  - rewrite merge_sort_Permutation. apply Forall_fmap, Forall_true. done.
Qed.

(** * Witnesses *)

Definition dag_mgr (mods : list (string * list string)) : Manager :=
  foldl (λ m nd, (RegisterModule (Some (mkModule nd.1 nd.2 (λ _, PRet None) None None)) m).2)
    newManager0 mods.

Example mermaidNodeIDs_ex :
  map_to_list <$> mermaidNodeIDs ["n0"; "web]"; "n0"; "a b"] =
  Some (map_to_list {[ "n0" := "n0"; "web]" := "n1"; "a b" := "n2" ]}).
Proof. vm_compute. reflexivity. Qed.

Example ExportDAG_ex :
  ExportDAG (λ _, true) (dag_mgr [("web", ["db"; " "]); ("db", [])]) = Some
"graph TD
    db[db]
    web[web]
    web --> db
".
Proof. vm_compute. reflexivity. Qed.

Definition dag_mod (n : string) (deps : list string) : Module_ :=
  mkModule n deps (λ _, PRet None) None None.

Lemma contract_normal_witness :
  ModuleContract (dag_mgr [("a", ["b"; " c"]); ("b", [])]) =
  ModuleContract (dag_mgr [("b", [""]); ("a", ["c "; ""; "b"])]).
Proof.
  apply (contract_normal (dag_mgr [("a", ["b"; " c"]); ("b", [])])
                         (dag_mgr [("b", [""]); ("a", ["c "; ""; "b"])])).
  assert (m_modules (dag_mgr [("a", ["b"; " c"]); ("b", [])]) =
    <["a" := dag_mod "a" ["b"; " c"]]> (<["b" := dag_mod "b" []]> ∅)) as E1
    by (vm_compute; reflexivity).
  assert (m_modules (dag_mgr [("b", [""]); ("a", ["c "; ""; "b"])]) =
    <["a" := dag_mod "a" ["c "; ""; "b"]]> (<["b" := dag_mod "b" [""]]> ∅)) as E2
    by (vm_compute; reflexivity).
  intros n. rewrite E1, E2. destruct (decide (n = "a")) as [->|Ha].
  - rewrite !lookup_insert_eq. constructor. vm_compute. apply perm_swap.
  - rewrite !(lookup_insert_ne _ "a") by done. destruct (decide (n = "b")) as [->|Hb].
    + rewrite !lookup_insert_eq. by constructor.
    + rewrite !lookup_insert_ne by done. rewrite !lookup_empty. constructor.
Defined.

Lemma task_diagnostics_in_flight_witness :
  td_Name <$> taskDiagnostics demo_m1 = ["poll"] ∧
  Forall (λ d, td_Done d = false ∧ td_Err d = None) (taskDiagnostics demo_m1).
Proof. apply (task_diagnostics_in_flight demo_m1). exact demo_reachable1. Defined.
