(* ===== verification/App.v ===== *)
(** The application runner [Run] (src/app/app.go): construct the Manager, run
    the setup hook, register, initialise and start the modules, wait for the
    shutdown signal, then pre-stop hooks, [StopModules], post-stop hooks.

    Contexts are records of the time they end ([Manager.Ctx]); the first of
    the configured signals arrives at time [sig], if ever.  Hooks are
    callbacks like those of modules; the setup hook gets the whole Manager, so
    it is any computation, constrained where needed to what a history of
    calls can do ([life_step]). *)

From stdpp Require Import base gmap list strings relations.
From S2P Require Import Prelude TopoSort Manager Lifecycle.

(** * Options *)

Definition defaultShutdownTimeout : Z := 15 * 1000000000.

Record options := mkOptions {
  o_ctx : Ctx;
  o_shutdownTimeout : Z;
  o_managerOpts : list ManagerOption;
  o_setup : option (M (option error));
  o_preStop : list (Ctx → Prog);
  o_postStop : list (Ctx → Prog) }.

Definition Option_ := options → options.
Definition WithContext (ctx : Ctx) : Option_ := λ o,
  mkOptions ctx (o_shutdownTimeout o) (o_managerOpts o) (o_setup o) (o_preStop o) (o_postStop o).
Definition WithShutdownTimeout (d : Z) : Option_ := λ o,
  mkOptions (o_ctx o) d (o_managerOpts o) (o_setup o) (o_preStop o) (o_postStop o).
Definition WithManagerOptions (opts : list ManagerOption) : Option_ := λ o,
  mkOptions (o_ctx o) (o_shutdownTimeout o) (o_managerOpts o ++ opts) (o_setup o) (o_preStop o) (o_postStop o).
Definition WithSetup (fn : option (M (option error))) : Option_ := λ o,
  mkOptions (o_ctx o) (o_shutdownTimeout o) (o_managerOpts o) fn (o_preStop o) (o_postStop o).
Definition WithPreStop (fn : Ctx → Prog) : Option_ := λ o,
  mkOptions (o_ctx o) (o_shutdownTimeout o) (o_managerOpts o) (o_setup o) (o_preStop o ++ [fn]) (o_postStop o).
Definition WithPostStop (fn : Ctx → Prog) : Option_ := λ o,
  mkOptions (o_ctx o) (o_shutdownTimeout o) (o_managerOpts o) (o_setup o) (o_preStop o) (o_postStop o ++ [fn]).

(** [context.Background()] never ends. *)
Definition Background : Ctx := mkCtx None (Const "").
Definition Canceled : error := Const "context canceled".
Definition DeadlineExceeded : error := Const "context deadline exceeded".

Definition newOptions (opts : list Option_) : options :=
  foldl (λ o f, f o) (mkOptions Background defaultShutdownTimeout [] None [] []) opts.

(** [signal.NotifyContext]: ends with its parent or at the first signal. *)
Definition NotifyContext (parent : Ctx) (sig : option Z) : Ctx :=
  match ctx_done parent, sig with
  | Some d, Some s => if (d <=? s)%Z then parent else mkCtx (Some s) Canceled
  | Some _, None => parent
  | None, Some s => mkCtx (Some s) Canceled
  | None, None => parent
  end.

(** * Run *)

(** Run a list of hooks in order, collecting the errors. *)
Fixpoint runHooks (ev : nat → Event) (msg : string) (i : nat) (ctx : Ctx) (hooks : list (Ctx → Prog))
    : M (list error) :=
  match hooks with
  | [] => mret []
  | hook :: hooks =>
    trace (ev i) ;;
    e ← run_prog ctx (hook ctx);
    es ← runHooks ev msg (S i) ctx hooks;
    mret (match e with Some err => Errorf msg [] [err] :: es | None => es end)
  end.

Definition runStop (cfg : options) : M (option error) :=
  t ← now;
  let stopCtx := mkCtx (Some (t + o_shutdownTimeout cfg)%Z) DeadlineExceeded in
  pre ← runHooks EvPreStop "app: pre-stop hook failed: %w" 0 stopCtx (o_preStop cfg);
  stopErr ← StopModules stopCtx;
  post ← runHooks EvPostStop "app: post-stop hook failed: %w" 0 stopCtx (o_postStop cfg);
  mret (errors_Join ((Some <$> pre) ++
    [match stopErr with Some err => Some (Errorf "app: stop failed: %w" [] [err]) | None => None end]
    ++ (Some <$> post))).

Fixpoint registerAll (i : nat) (modules : list (option Module_)) : M (option error) :=
  match modules with
  | [] => mret None
  | None :: _ => mret (Some (Errorf "app: module at index %d must not be nil" [pretty.pretty i] []))
  | Some md :: modules =>
    yield ;;
    e ← lift (RegisterModule (Some md));
    match e with
    | Some err => mret (Some (Errorf "app: failed to register module %q: %w" [mod_Name md] [err]))
    | None => registerAll (S i) modules
    end
  end.

Definition wrapErr (msg : string) (c : M (option error)) (next : M (option error)) : M (option error) :=
  e ← c;
  match e with Some err => mret (Some (Errorf msg [] [err])) | None => next end.

Definition startModules (cfg : options) (ctx : Ctx) (modules : list (option Module_)) : M (option error) :=
  let rest :=
    e ← registerAll 0 modules;
    match e with
    | Some err => mret (Some err)
    | None =>
      wrapErr "app: init failed: %w" (InitModules ctx)
        (wrapErr "app: start failed: %w" (yield ;; StartModules ctx) (mret None))
    end in
  match o_setup cfg with
  | Some setup => wrapErr "app: setup failed: %w" setup rest
  | None => rest
  end.

(** [<-ctx.Done()]: the environment acts until the context has ended. *)
Fixpoint waitCtx_loop (ctx : Ctx) (batches : list (list EnvEvent)) (w : World) : option (unit * World) :=
  if negb (bool_decide (ctx_Err ctx (w_now w) = None)) then Some (tt, set_oracle batches w)
  else match batches with
  | b :: bs => waitCtx_loop ctx bs (env_batch b w)
  | [] =>
    match ctx_done ctx with
    | Some t => Some (tt, set_oracle [] (set_now t w))
    | None => None
    end
  end.
Definition waitCtx (ctx : Ctx) : M unit := λ w, waitCtx_loop ctx (w_oracle w) w.

Definition joinStop (err : error) (stopErr : option error) : option error :=
  Some (joinErr err stopErr).

Definition Run (configLoader : option (Target → Target * option error))
    (modules : list (option Module_)) (opts : list Option_) (sig : option Z) : M (option error) :=
  let cfg := newOptions opts in
  match NewManager (WithConfigLoader configLoader :: o_managerOpts cfg) with
  | inr err => mret (Some (Errorf "app: failed to construct manager: %w" [] [err]))
  | inl m =>
    modify (λ _, m) ;;
    let ctx := NotifyContext (o_ctx cfg) sig in
    e ← startModules cfg ctx modules;
    match e with
    | Some err => stopErr ← runStop cfg; mret (joinStop err stopErr)
    | None => waitCtx ctx ;; runStop cfg
    end
  end.

(** * Hooks and the shutdown sequence *)

Lemma runHooks_runs ev msg i ctx hooks w es w' :
  runHooks ev msg i ctx hooks w = Some (es, w') → runs (ev <$> seq i (length hooks)) w w'.
Proof.
  revert i w es. induction hooks as [|h hooks IH]; intros i w es H; simpl in *; minv H; [apply runs_refl|].
  eapply (runs_trans [ev i]); [|by eapply IH].
  eapply runs_quiet; [by eapply trace_runs|by eapply run_prog_runs].
Qed.

Lemma runHooks_errs ev msg i ctx hooks w es w' :
  runHooks ev msg i ctx hooks w = Some (es, w') → ∀ e, e ∈ es → ∃ err, e = Errorf msg [] [err].
Proof.
  revert i w es. induction hooks as [|h hooks IH]; intros i w es H; simpl in *; minv H.
  { by intros e ?%elem_of_nil. }
  match goal with H : runHooks _ _ _ _ _ _ = Some _ |- _ => specialize (IH _ _ _ H) end.
  match goal with |- context [match ?e with _ => _ end] => destruct e end; [|done].
  intros e' [->|?]%elem_of_cons; [by eexists|auto].
Qed.

Lemma runHooks_returns ev msg i ctx hooks : returns (runHooks ev msg i ctx hooks).
Proof. revert i. induction hooks; intros; simpl; returns_tac. Qed.

Definition preEvents (cfg : options) : list Event := EvPreStop <$> seq 0 (length (o_preStop cfg)).
Definition postEvents (cfg : options) : list Event := EvPostStop <$> seq 0 (length (o_postStop cfg)).

(** What [StopModules] does in the state reached before it. *)
Definition stopEvents (s : LifecycleState) (o : list Module_) : list Event :=
  if stoppable s then EvState StateStopping :: events_of ev_stop (reverse o) ++
                      [EvClose; EvState StateStopped]
  else [].

Lemma runStop_moves cfg w e w' :
  runStop cfg w = Some (e, w') → mgr_inv (w_mgr w) → settled (m_state (w_mgr w)) = true →
  moves (preEvents cfg ++ stopEvents (m_state (w_mgr w)) (m_orderedMods (w_mgr w)) ++ postEvents cfg) w w' ∧
  m_state (w_mgr w') = StateStopped.
Proof.
  intros H I Hset. unfold runStop in H. minv H.
  apply runHooks_runs in H0 as R0. apply runHooks_runs in H2 as R2.
  fold (preEvents cfg) in R0. fold (postEvents cfg) in R2.
  assert (mgr_inv (w_mgr w0)) as I0 by (eapply mgr_steps_inv; [apply R0|done]).
  rewrite <-(r_ordered _ _ _ R0), <-(r_state _ _ _ R0) in *.
  unfold settled in Hset. rewrite (r_state _ _ _ R2). unfold stopEvents.
  destruct (stoppable (m_state (w_mgr w0))) eqn:Hs.
  - destruct (StopModules_spec _ _ _ _ H1 I0 Hs) as (-> & _ & M1). split; [|done].
    eapply moves_trans; [by apply runs_moves|].
    eapply moves_trans; [done|by apply runs_moves].
  - apply bool_decide_eq_true in Hset.
    destruct (StopModules_refused (mkCtx (Some (w_now w + o_shutdownTimeout cfg)%Z) DeadlineExceeded) w0 Hs)
      as [r Hr]. rewrite Hr in H1. simplify_eq. split; [|done].
    eapply moves_trans; [by apply runs_moves|by apply runs_moves].
Qed.

Lemma runStop_returns cfg : returns (runStop cfg).
Proof.
  unfold runStop. apply returns_bind; [apply returns_prim|intros t].
  apply returns_bind; [apply runHooks_returns|intros ?].
  apply returns_bind; [apply StopModules_returns; by eexists|intros ?].
  apply returns_bind; [apply runHooks_returns|intros ?]. apply returns_prim.
Qed.

(** * Starting *)

Lemma registerAll_life i mods w e w' : registerAll i mods w = Some (e, w') → rtc life_step w w'.
Proof.
  revert i w. induction mods as [|[md|] mods IH]; intros i w H; cbn [registerAll] in H; minv H; try done.
  etrans; [by eapply yield_life|]. eapply rtc_l; [apply (life_env _ (EnvModule (Some md)))|].
  cbn [env_event]. destruct (RegisterModule _ _).1; minv H; [done|by eapply IH].
Qed.

(** The setup hook does what a history of calls can do. *)
Definition setup_ok (cfg : options) : Prop :=
  ∀ f w r w', o_setup cfg = Some f → f w = Some (r, w') → rtc life_step w w'.

Lemma startModules_life cfg ctx mods w e w' :
  setup_ok cfg → startModules cfg ctx mods w = Some (e, w') → rtc life_step w w'.
Proof.
  intros Hok H. unfold startModules in H.
  assert (∀ w w' e, (e ← registerAll 0 mods;
    match e with
    | Some err => mret (Some err)
    | None =>
      wrapErr "app: init failed: %w" (InitModules ctx)
        (wrapErr "app: start failed: %w" (yield ;; StartModules ctx) (mret None))
    end) w = Some (e, w') → rtc life_step w w') as Hrest.
  { clear H. intros v v' r H. unfold wrapErr in H. minv H. apply registerAll_life in H0. etrans; [exact H0|].
    destruct a; minv H; [done|]. eapply rtc_l; [by eapply life_init|].
    destruct a; minv H; [done|]. etrans; [by eapply yield_life|].
    eapply rtc_l; [by eapply life_start|]. by destruct a; minv H. }
  destruct (o_setup cfg) as [f|] eqn:Hf; [|by eapply Hrest].
  unfold wrapErr in H. apply bind_inv in H as (r & w1 & Hs & H).
  etrans; [by eapply Hok|]. destruct r; [by minv H|by eapply Hrest].
Qed.

Lemma waitCtx_runs ctx w u w' : waitCtx ctx w = Some (u, w') → runs [] w w'.
Proof.
  unfold waitCtx. generalize (w_oracle w). intros bs. revert w.
  induction bs as [|b bs IH]; intros w; simpl; (destruct (negb _) eqn:Hc; [intros [= <- <-]; apply runs_oracle, runs_refl|]).
  - apply negb_false_iff, bool_decide_eq_true in Hc. unfold ctx_Err in Hc.
    destruct (ctx_done ctx); [|done]. intros [= <- <-]. apply runs_oracle, runs_now.
    case_match; [done|lia].
  - intros H%IH. eapply runs_quiet_l; [apply env_batch_runs|done].
Qed.

Lemma waitCtx_returns ctx : is_Some (ctx_done ctx) → returns (waitCtx ctx).
Proof.
  intros [t Ht] w. unfold waitCtx. generalize (w_oracle w). intros bs. revert w.
  induction bs; intros w; simpl; case_match; try done. by rewrite Ht.
Qed.

(** A successful start, step by step. *)
Lemma startModules_ok cfg ctx mods w w' :
  o_setup cfg = None → startModules cfg ctx mods w = Some (None, w') →
  ∃ w1 w2 w3, registerAll 0 mods w = Some (None, w1) ∧ InitModules ctx w1 = Some (None, w2) ∧
    yield w2 = Some (tt, w3) ∧ StartModules ctx w3 = Some (None, w').
Proof.
  intros Hs H. unfold startModules, wrapErr in H. rewrite Hs in H.
  do 2 (apply bind_inv in H as ([err|] & ? & ? & H); [discriminate H|]).
  apply bind_inv in H as ([err|] & ? & Hst & H); [discriminate H|]. injection H as <-.
  apply bind_inv in Hst as ([] & ? & ? & Hst). by do 3 eexists.
Qed.

Lemma registerAll_ok i mods w w' :
  registerAll i mods w = Some (None, w') →
  runs [] w w' ∧ ∃ l, mods = Some <$> l ∧ ∀ md, md ∈ l → m_modules (w_mgr w') !! key md = Some md.
Proof.
  revert i w. induction mods as [|[md|] mods IH]; intros i w H; cbn [registerAll] in H.
  - injection H as <-. split; [apply runs_refl|]. exists []. split; [done|]. by intros md ?%elem_of_nil.
  - apply bind_inv in H as ([] & w1 & Hy & H). apply bind_inv in H as (r & w2 & Hl & H).
    injection Hl as Hr <-. destruct (RegisterModule _ _).1 as [err|] eqn:He; subst r; [discriminate H|].
    apply IH in H as (R & l & -> & Hl). split.
    + eapply runs_quiet_l; [by eapply yield_runs|].
      eapply runs_quiet_l; [apply (RegisterModule_runs (Some md))|done].
    + exists (md :: l). split; [done|]. intros x [->|?]%elem_of_cons; [|auto].
      eapply mgr_steps_modules; [apply R|]. simpl. unfold RegisterModule in *.
      revert He. go_cases; simpl; intros; simplify_eq. apply lookup_insert_eq.
  - discriminate H.
Qed.

Lemma valid_order_elem m o md :
  mgr_inv m → valid_order m o → m_modules m !! key md = Some md → md ∈ o.
Proof.
  intros I (Hp & _ & Hall) Hmd.
  assert (key md ∈ key <$> o) as (md' & Hk & Hin)%list_elem_of_fmap.
  { rewrite Hp. apply (reg_dom _ _ (mi_reg _ I)). by eexists. }
  pose proof (Hall _ Hin) as Hmd'. rewrite <-Hk, Hmd in Hmd'. by simplify_eq.
Qed.

Lemma run_manager loader mopts m :
  Forall std_option mopts → NewManager (WithConfigLoader loader :: mopts) = inl m →
  mgr_inv m ∧ m_state m = StateConfiguring.
Proof.
  intros Hstd Hnew. assert (Forall std_option (WithConfigLoader loader :: mopts)) as Hf
    by (constructor; [constructor|done]).
  split; [by eapply NewManager_inv|]. by destruct (NewManager_pristine _ _ Hf Hnew) as [(_ & _ & _ & _ & _ & _ & ? & _) _].
Qed.

(** * Properties *)

Lemma waitCtx_ended ctx w u w' : waitCtx ctx w = Some (u, w') → ctx_Err ctx (w_now w') ≠ None.
Proof.
  unfold waitCtx. generalize (w_oracle w). intros bs. revert w.
  induction bs as [|b bs IH]; intros w; simpl; (destruct (negb _) eqn:Hc;
    [intros [= _ <-]; by apply negb_true_iff, bool_decide_eq_false in Hc|]); [|apply IH].
  destruct (ctx_done ctx) as [t|] eqn:E; [|done]. intros [= _ <-]. unfold ctx_Err. rewrite E. simpl. by rewrite Z.leb_refl.
Qed.
(** Only a start from [Initialized] succeeds. *)
Lemma StartModules_running ctx w w' : StartModules ctx w = Some (None, w') → mgr_inv (w_mgr w) → m_state (w_mgr w') = StateRunning.
Proof.
  intros H I. destruct (decide (m_state (w_mgr w) = StateInitialized)) as [E|E].
  - by destruct (StartModules_spec _ _ _ _ H I E) as [-> _].
  - rewrite StartModules_refused in H by done. simplify_eq.
Qed.
Lemma startModules_running cfg ctx mods w w' :
  setup_ok cfg → mgr_inv (w_mgr w) → startModules cfg ctx mods w = Some (None, w') → m_state (w_mgr w') = StateRunning.
Proof.
  intros Hok I H. unfold startModules, wrapErr in H.
  assert (∃ v, rtc life_step w v ∧ StartModules ctx v = Some (None, w')) as (v & Hv & Hst).
  { destruct (o_setup cfg) as [f|] eqn:Hf.
    - apply bind_inv in H as ([err|] & w1 & Hs & H); [discriminate H|].
      do 2 (apply bind_inv in H as ([err|] & ? & ? & H); [discriminate H|]).
      apply bind_inv in H as ([err|] & ? & Hst & H); [discriminate H|]. injection H as <-.
      apply bind_inv in Hst as ([] & ? & Hy & Hst). eexists. split; [|exact Hst].
      etrans; [by eapply Hok|]. etrans; [by eapply registerAll_life|]. eapply rtc_l; [by eapply life_init|by eapply yield_life].
    - do 2 (apply bind_inv in H as ([err|] & ? & ? & H); [discriminate H|]).
      apply bind_inv in H as ([err|] & ? & Hst & H); [discriminate H|]. injection H as <-.
      apply bind_inv in Hst as ([] & ? & Hy & Hst). eexists. split; [|exact Hst].
      etrans; [by eapply registerAll_life|]. eapply rtc_l; [by eapply life_init|by eapply yield_life]. }
  eapply StartModules_running; [exact Hst|]. destruct (life_steps_moves _ _ Hv I) as [es M]. by eapply moves_inv.
Qed.

(** What [Run] does after the start-up ended in [w1] with the result [r]: every
    pre-stop hook in order, then the shutdown of what was started, then every
    post-stop hook in order, and the Manager is stopped.  When the start-up
    succeeded the Manager was running and the shutdown context has ended; when it
    failed, its error is part of the result. *)
Definition shut_down (cfg : options) (ctx : Ctx) (r : option error) (w1 : World) (e : option error) (w' : World) : Prop :=
  w_trace w' = w_trace w1 ++ preEvents cfg ++ stopEvents (m_state (w_mgr w1)) (m_orderedMods (w_mgr w1)) ++ postEvents cfg ∧
  m_state (w_mgr w') = StateStopped ∧ mgr_inv (w_mgr w') ∧
  match r with
  | Some err => ∃ stopErr, e = Some (joinErr err stopErr)
  | None => m_state (w_mgr w1) = StateRunning ∧ ctx_Err ctx (w_now w') ≠ None
  end.

(** C10. However [Run] ends (setup, registration, init or start failed, or the
    shutdown signal came), once the Manager was constructed and the start-up is
    over every pre-stop hook has run in registration order, then the shutdown of
    exactly the modules the start-up left to stop, then every post-stop hook in
    registration order, and the Manager is stopped; [Run] waits for its context
    only after a start-up that succeeded, and never hides the error of one that
    failed.  The setup hook may do whatever a sequence of calls of the Manager
    does. *)
Theorem run_always_stops loader modules opts sig m w e w' :
  let cfg := newOptions opts in
  let ctx := NotifyContext (o_ctx cfg) sig in
  Forall std_option (o_managerOpts cfg) →
  NewManager (WithConfigLoader loader :: o_managerOpts cfg) = inl m → setup_ok cfg →
  Run loader modules opts sig w = Some (e, w') →
  ∃ r w1, startModules cfg ctx modules (set_mgr m w) = Some (r, w1) ∧ shut_down cfg ctx r w1 e w'.
Proof.
  intros cfg ctx Hstd Hnew Hok H. unfold Run in H. fold cfg in H. fold ctx in H. rewrite Hnew in H.
  destruct (run_manager _ _ _ Hstd Hnew) as [Im Sm].
  assert (settled (m_state m) = true) as Sm' by by rewrite Sm.
  apply bind_inv in H as ([] & w1 & Hm & H). injection Hm as <-.
  apply bind_inv in H as (r & w2 & Hs & H). exists r, w2. split; [exact Hs|].
  pose proof (startModules_life _ _ _ _ _ _ Hok Hs) as Hl.
  destruct (life_steps_moves _ _ Hl Im) as [es M1].
  apply life_steps_settled in Hl as S2; [|done|done].
  pose proof (moves_inv _ _ _ M1 Im) as I2.
  assert (∀ w3 r w4, runs [] w2 w3 → runStop cfg w3 = Some (r, w4) →
    w_trace w4 = w_trace w2 ++ preEvents cfg ++ stopEvents (m_state (w_mgr w2)) (m_orderedMods (w_mgr w2)) ++ postEvents cfg ∧
    m_state (w_mgr w4) = StateStopped ∧ mgr_inv (w_mgr w4) ∧ (w_now w3 ≤ w_now w4)%Z) as Hstop.
  { intros w3 r' w4 R Hr. assert (mgr_inv (w_mgr w3)) as I3 by (eapply moves_inv; [by apply runs_moves|done]).
    apply runStop_moves in Hr as [M4 Hs4]; [|done|by rewrite (r_state _ _ _ R)].
    split_and!; [|done|by eapply moves_inv|apply M4].
    by rewrite (v_trace _ _ _ M4), (r_trace _ _ _ R), (r_state _ _ _ R), (r_ordered _ _ _ R), app_nil_r. }
  destruct r as [err|].
  - apply bind_inv in H as (r & w3 & Hr & H). injection H as <- <-.
    destruct (Hstop _ _ _ (runs_refl _) Hr) as (? & ? & ? & _). split_and!; [done..|by eexists].
  - apply bind_inv in H as ([] & w3 & Hw & H). destruct (Hstop _ _ _ (waitCtx_runs _ _ _ _ Hw) H) as (? & ? & ? & Ht).
    split_and!; [done..|eapply (startModules_running cfg ctx modules (set_mgr m w)); [exact Hok|exact Im|exact Hs]|]. eapply ctx_Err_mono; [exact Ht|by eapply waitCtx_ended].
Qed.

(** [Run] returns nil only after a whole run: every module given was
    initialised and started after its dependencies, the shutdown context was
    reached, the pre-stop hooks ran, every [Stopper] was stopped in reverse,
    the bus was closed and the post-stop hooks ran. *)
Theorem run_nil loader modules opts sig w w' :
  let cfg := newOptions opts in
  Forall std_option (o_managerOpts cfg) → o_setup cfg = None →
  Run loader modules opts sig w = Some (None, w') →
  ∃ l o, modules = Some <$> l ∧ (∀ md, md ∈ l → md ∈ o) ∧ topo_sorted o ∧ NoDup (key <$> o) ∧
    w_trace w' = w_trace w ++
      EvState StateInitializing :: events_of ev_init o ++ EvState StateInitialized ::
      EvState StateStarting :: events_of ev_start o ++ EvState StateRunning ::
      preEvents cfg ++
      EvState StateStopping :: events_of ev_stop (reverse o) ++ [EvClose; EvState StateStopped] ++
      postEvents cfg.
Proof.
  intros cfg Hstd Hsetup H. unfold Run in H. fold cfg in H.
  destruct (NewManager _) as [m|] eqn:Hnew; [|discriminate H].
  destruct (run_manager _ _ _ Hstd Hnew) as [Im Sm].
  apply bind_inv in H as ([] & w1 & Hm & H). injection Hm as <-.
  apply bind_inv in H as (r & w2 & Hs & H).
  destruct r as [err|]; [apply bind_inv in H as (? & ? & _ & H); discriminate H|].
  apply bind_inv in H as ([] & w3 & Hw & H).
  apply startModules_ok in Hs as (v1 & v2 & v3 & Hreg & Hi & Hy & Hst); [|done].
  apply registerAll_ok in Hreg as (R1 & l & -> & Hl).
  assert (mgr_inv (w_mgr v1)) as I1 by (eapply moves_inv; [by apply runs_moves|done]).
  apply InitModules_spec in Hi as (_ & Hv & Hs2 & M2); [|done|by rewrite (r_state _ _ _ R1)].
  apply yield_runs in Hy. assert (mgr_inv (w_mgr v2)) as I2 by by eapply moves_inv.
  assert (mgr_inv (w_mgr v3)) as I3 by (eapply moves_inv; [by apply runs_moves|done]).
  apply StartModules_spec in Hst as (Hs3 & Ho3 & M3); [|done|by rewrite (r_state _ _ _ Hy)].
  apply waitCtx_runs in Hw. assert (mgr_inv (w_mgr w2)) as Iw2 by by eapply moves_inv.
  assert (mgr_inv (w_mgr w3)) as Iw3 by (eapply moves_inv; [by apply runs_moves|done]).
  apply runStop_moves in H as [M4 _]; [|done|by rewrite (r_state _ _ _ Hw), Hs3].
  rewrite (r_state _ _ _ Hw), Hs3, (r_ordered _ _ _ Hw), Ho3, (r_ordered _ _ _ Hy) in M4.
  rewrite (r_ordered _ _ _ Hy) in M3.
  exists l, (m_orderedMods (w_mgr v2)). split_and!; [done| |apply Hv| |].
  - intros md Hmd. eapply valid_order_elem; [exact I1|done|auto].
  - rewrite (proj1 Hv). apply (reg_nodup _ _ (mi_reg _ I1)).
  - rewrite (v_trace _ _ _ M4), (r_trace _ _ _ Hw), (v_trace _ _ _ M3), (r_trace _ _ _ Hy),
      (v_trace _ _ _ M2), (r_trace _ _ _ R1).
    simpl. repeat (rewrite <-?app_assoc, ?app_nil_r; simpl). done.
Qed.

Lemma registerAll_returns i mods : returns (registerAll i mods).
Proof.
  revert i. induction mods as [|[md|] mods IH]; intros i; cbn [registerAll]; [apply returns_prim| |apply returns_prim].
  apply returns_bind; [apply returns_prim|intros _]. apply returns_bind; [apply returns_prim|intros r].
  destruct r; [apply returns_prim|apply IH].
Qed.

Lemma wrapErr_returns msg c next : returns c → returns next → returns (wrapErr msg c next).
Proof. intros. apply returns_bind; [done|]. intros [?|]; [apply returns_prim|done]. Qed.

Lemma startModules_returns cfg ctx mods :
  is_Some (ctx_done ctx) → (∀ f, o_setup cfg = Some f → returns f) → returns (startModules cfg ctx mods).
Proof.
  intros Hd Hset. unfold startModules. cbv zeta.
  match goal with |- returns (match _ with Some s => wrapErr _ s ?r | None => _ end) =>
    assert (returns r) as Hrest end.
  { apply returns_bind; [apply registerAll_returns|]. intros [err|]; [apply returns_prim|].
    apply wrapErr_returns; [by apply InitModules_returns|].
    apply wrapErr_returns; [|apply returns_prim].
    apply returns_bind; [apply returns_prim|intros _; by apply StartModules_returns]. }
  destruct (o_setup cfg) as [f|]; [|done]. apply wrapErr_returns; [by apply Hset|done].
Qed.

(** [Run] returns once a signal arrives or its context ends, provided the
    setup hook returns: start-up and shutdown are both bounded, the latter by
    its own timeout, even when the base context ended before the start. *)
Theorem run_returns loader modules opts sig :
  let cfg := newOptions opts in
  (is_Some sig ∨ is_Some (ctx_done (o_ctx cfg))) →
  (∀ f, o_setup cfg = Some f → returns f) → returns (Run loader modules opts sig).
Proof.
  intros cfg Hsig Hset. unfold Run. fold cfg. destruct (NewManager _) as [m|err]; [|apply returns_prim].
  assert (is_Some (ctx_done (NotifyContext (o_ctx cfg) sig))) as Hd.
  { unfold NotifyContext. destruct Hsig as [[s ->]|[d Hd]].
    - destruct (ctx_done (o_ctx cfg)) eqn:E; [|by eexists]. case_match; [by rewrite E|by eexists].
    - rewrite Hd. destruct sig; [case_match|]; rewrite ?Hd; by eexists. }
  apply returns_bind; [apply returns_prim|intros _].
  apply returns_bind; [by apply startModules_returns|]. intros [err|].
  - apply returns_bind; [apply runStop_returns|intros ?; apply returns_prim].
  - apply returns_bind; [by apply waitCtx_returns|intros _; apply runStop_returns].
Qed.

(** * Witnesses *)

Definition run_opts : list Option_ :=
  [WithPreStop (λ _, PTick 2 (PRet None)); WithPostStop (λ _, PRet (Some (Const "flush")));
   WithPostStop (λ _, PRet None); WithShutdownTimeout 5000;
   WithSetup (Some (λ w, Some (None, env_event (EnvOp (OGo "warm" (Some 1%Z))) w)))].
Definition run_w0 : World := mkWorld newManager0 0 [] [[EnvTick 4]] false.

Lemma run_setup_ok : setup_ok (newOptions run_opts).
Proof. intros f w r w' [= <-] [= _ <-]. apply rtc_once, (life_env w (EnvOp (OGo "warm" (Some 1%Z)))). Qed.

(** The start of [a] fails: the task of the setup hook is cancelled and not
    waited for beyond the timeout, and all hooks run. *)
Lemma run_always_stops_witness :
  let w' := after (Run None [Some demo_a_bad] run_opts (Some 100%Z)) run_w0 in
  m_state (w_mgr w') = StateStopped ∧
  ∃ w1, w_trace w' = w_trace w1 ++ [EvPreStop 0] ++ stopEvents (m_state (w_mgr w1)) (m_orderedMods (w_mgr w1)) ++ [EvPostStop 0; EvPostStop 1].
Proof.
  destruct (run_always_stops None [Some demo_a_bad] run_opts (Some 100%Z)
    (match NewManager [WithConfigLoader None] with inl m => m | inr _ => newManager0 end) run_w0
    (default None (result (Run None [Some demo_a_bad] run_opts (Some 100%Z)) run_w0))
    (after (Run None [Some demo_a_bad] run_opts (Some 100%Z)) run_w0)) as (r & w1 & _ & H1 & H2 & _).
  - constructor.
  - reflexivity.
  - exact run_setup_ok.
  - vm_compute. reflexivity.
  - split; [exact H2|exists w1; exact H1].
Defined.

Lemma run_nil_witness :
  let w' := after (Run None [Some demo_b; Some demo_a] [] (Some 100%Z)) run_w0 in
  ∃ l o, [Some demo_b; Some demo_a] = Some <$> l ∧ (∀ md, md ∈ l → md ∈ o) ∧ topo_sorted o ∧
    NoDup (key <$> o) ∧
    w_trace w' = w_trace run_w0 ++
      EvState StateInitializing :: events_of ev_init o ++ EvState StateInitialized ::
      EvState StateStarting :: events_of ev_start o ++ EvState StateRunning ::
      preEvents (newOptions []) ++
      EvState StateStopping :: events_of ev_stop (reverse o) ++ [EvClose; EvState StateStopped] ++
      postEvents (newOptions []).
Proof.
  apply (run_nil None [Some demo_b; Some demo_a] [] (Some 100%Z));
    [constructor|reflexivity|vm_compute; reflexivity].
Defined.

Lemma run_returns_witness : returns (Run None [Some demo_a] run_opts (Some 7%Z)).
Proof.
  apply (run_returns None [Some demo_a] run_opts (Some 7%Z)); [left; by eexists|].
  intros f [= <-] w. by eexists.
Defined.
