(* ===== verification/WorkerPool.v ===== *)
(** The bounded worker pool (src/workerpool/workerpool.go) as a concurrent
    step system.

    A state holds the [Processor]'s fields and the program counter of every
    goroutine: the callers of [Submit], the workers, and the goroutine that
    [Close] starts.  A step is one atomic operation of one goroutine: a
    critical section, a channel operation, an atomic counter or a WaitGroup
    operation, so the reachable states are those of every interleaving.  A Go
    runtime panic (send on or close of a closed channel, negative WaitGroup)
    sets [p_crashed].  Counters wrap at 64 bits. *)

From stdpp Require Import base list strings relations.
From S2P Require Import Prelude Manager.

Definition ErrClosed : error := Const "worker pool is closed".
Definition ErrPanic : string := "worker pool task panicked".

(** * State *)

(** How a task body ends, and [runTask]'s recovery of panics. *)
Inductive Outcome := Returned (e : option error) | Panicked (v : string).
Definition runTask (o : Outcome) : option error :=
  match o with
  | Returned e => e
  | Panicked v => Some (Errorf "%w: %v" [v] [Const ErrPanic])
  end.

(** A caller of [Submit]: the point it has reached.  A task is represented by
    the handle it reports to. *)
Inductive SubmitPC :=
| S_start (ctx : Ctx) (nilfn : bool)
| S_lock (ctx : Ctx)
| S_reject_closed
| S_select (ctx : Ctx) (h : nat)
| S_accept (h : nat)
| S_reject (e : error)
| S_leave (r : nat + error)
| S_return (r : nat + error).

(** A worker: waiting for a task, then after each operation of the loop body. *)
Inductive WorkerPC :=
| W_recv
| W_got (h : nat)
| W_run (h : nat)
| W_ran (h : nat) (e : option error)
| W_stopped (h : nat) (e : option error)
| W_counted (h : nat) (e : option error)
| W_report (h : nat) (e : option error)
| W_exit.

(** The goroutine [Close] starts. *)
Inductive CloserPC := C_inFlight | C_workers | C_end.

Record Processor := mkProcessor {
  p_workers : nat;
  p_cap : nat;
  p_queue : list nat;
  p_tasksClosed : bool;
  p_closed : bool;
  p_inFlight : nat;
  p_done : bool;
  p_wg : nat;
  p_running : Z;
  p_accepted : Z;
  p_completed : Z;
  p_failed : Z;
  p_rejected : Z;
  p_handles : list (option (option error));
  p_subs : list SubmitPC;
  p_pool : list WorkerPC;
  p_closer : option CloserPC;
  p_now : Z;
  p_crashed : bool;
}.

Definition wrap64 (z : Z) : Z := z mod 2 ^ 64.

Definition New (Workers QueueCapacity : Z) : Processor + error :=
  if (Workers <=? 0)%Z then
    inr (Errorf "workers must be positive: got %d" [pretty.pretty Workers] [])
  else if (QueueCapacity <? 0)%Z then
    inr (Errorf "queue capacity must not be negative: got %d" [pretty.pretty QueueCapacity] [])
  else let n := Z.to_nat Workers in
    inl (mkProcessor n (Z.to_nat QueueCapacity) [] false false 0 false n 0 0 0 0 0 [] []
           (replicate n W_recv) None 0 false).

(** ** Updates *)

Definition set_sub (i : nat) (s : SubmitPC) (p : Processor) : Processor :=
  mkProcessor (p_workers p) (p_cap p) (p_queue p) (p_tasksClosed p) (p_closed p) (p_inFlight p)
    (p_done p) (p_wg p) (p_running p) (p_accepted p) (p_completed p) (p_failed p) (p_rejected p)
    (p_handles p) (<[i:=s]> (p_subs p)) (p_pool p) (p_closer p) (p_now p) (p_crashed p).
Definition set_worker (i : nat) (s : WorkerPC) (p : Processor) : Processor :=
  mkProcessor (p_workers p) (p_cap p) (p_queue p) (p_tasksClosed p) (p_closed p) (p_inFlight p)
    (p_done p) (p_wg p) (p_running p) (p_accepted p) (p_completed p) (p_failed p) (p_rejected p)
    (p_handles p) (p_subs p) (<[i:=s]> (p_pool p)) (p_closer p) (p_now p) (p_crashed p).
Definition set_queue (q : list nat) (p : Processor) : Processor :=
  mkProcessor (p_workers p) (p_cap p) q (p_tasksClosed p) (p_closed p) (p_inFlight p)
    (p_done p) (p_wg p) (p_running p) (p_accepted p) (p_completed p) (p_failed p) (p_rejected p)
    (p_handles p) (p_subs p) (p_pool p) (p_closer p) (p_now p) (p_crashed p).
Definition set_closing (tc cl d : bool) (c : option CloserPC) (p : Processor) : Processor :=
  mkProcessor (p_workers p) (p_cap p) (p_queue p) tc cl (p_inFlight p)
    d (p_wg p) (p_running p) (p_accepted p) (p_completed p) (p_failed p) (p_rejected p)
    (p_handles p) (p_subs p) (p_pool p) c (p_now p) (p_crashed p).
Definition set_groups (i w : nat) (p : Processor) : Processor :=
  mkProcessor (p_workers p) (p_cap p) (p_queue p) (p_tasksClosed p) (p_closed p) i
    (p_done p) w (p_running p) (p_accepted p) (p_completed p) (p_failed p) (p_rejected p)
    (p_handles p) (p_subs p) (p_pool p) (p_closer p) (p_now p) (p_crashed p).
Definition set_counters (r a c f j : Z) (p : Processor) : Processor :=
  mkProcessor (p_workers p) (p_cap p) (p_queue p) (p_tasksClosed p) (p_closed p) (p_inFlight p)
    (p_done p) (p_wg p) r a c f j
    (p_handles p) (p_subs p) (p_pool p) (p_closer p) (p_now p) (p_crashed p).
Definition set_handles (hs : list (option (option error))) (p : Processor) : Processor :=
  mkProcessor (p_workers p) (p_cap p) (p_queue p) (p_tasksClosed p) (p_closed p) (p_inFlight p)
    (p_done p) (p_wg p) (p_running p) (p_accepted p) (p_completed p) (p_failed p) (p_rejected p)
    hs (p_subs p) (p_pool p) (p_closer p) (p_now p) (p_crashed p).
Definition set_env (subs : list SubmitPC) (t : Z) (p : Processor) : Processor :=
  mkProcessor (p_workers p) (p_cap p) (p_queue p) (p_tasksClosed p) (p_closed p) (p_inFlight p)
    (p_done p) (p_wg p) (p_running p) (p_accepted p) (p_completed p) (p_failed p) (p_rejected p)
    (p_handles p) subs (p_pool p) (p_closer p) t (p_crashed p).
Definition crash (p : Processor) : Processor :=
  mkProcessor (p_workers p) (p_cap p) (p_queue p) (p_tasksClosed p) (p_closed p) (p_inFlight p)
    (p_done p) (p_wg p) (p_running p) (p_accepted p) (p_completed p) (p_failed p) (p_rejected p)
    (p_handles p) (p_subs p) (p_pool p) (p_closer p) (p_now p) true.

Definition incRunning (d : Z) (p : Processor) : Processor :=
  set_counters (p_running p + d) (p_accepted p) (p_completed p) (p_failed p) (p_rejected p) p.
Definition incAccepted (p : Processor) : Processor :=
  set_counters (p_running p) (wrap64 (p_accepted p + 1)) (p_completed p) (p_failed p) (p_rejected p) p.
Definition incCompleted (p : Processor) : Processor :=
  set_counters (p_running p) (p_accepted p) (wrap64 (p_completed p + 1)) (p_failed p) (p_rejected p) p.
Definition incFailed (p : Processor) : Processor :=
  set_counters (p_running p) (p_accepted p) (p_completed p) (wrap64 (p_failed p + 1)) (p_rejected p) p.
Definition incRejected (p : Processor) : Processor :=
  set_counters (p_running p) (p_accepted p) (p_completed p) (p_failed p) (wrap64 (p_rejected p + 1)) p.

(** * Steps *)

(** [Handle.setResult]: closing a closed channel panics. *)
Definition setResult (h : nat) (e : option error) (p : Processor) : Processor :=
  match p_handles p !! h with
  | Some None => set_handles (<[h:=Some e]> (p_handles p)) p
  | _ => crash p
  end.

(** [Handle.Wait] at a given time: [None] blocks; when both channels are ready
    [select] may take either, [pick] says which. *)
Definition Wait (h : nat) (ctx : Ctx) (pick : bool) (p : Processor) : option (option error) :=
  match p_handles p !! h, ctx_Err ctx (p_now p) with
  | Some (Some e), None => Some e
  | Some (Some e), Some c => Some (if pick then e else Some c)
  | _, Some c => Some (Some c)
  | _, None => None
  end.

(** The cases of [Submit]'s [select]. *)
Inductive Choice := ChSend | ChHandoff (worker : nat) | ChCtx | ChClosing.

Definition submitSelect (i : nat) (ctx : Ctx) (h : nat) (c : Choice) (p : Processor) : option Processor :=
  match c with
  | ChSend =>
    if p_tasksClosed p then Some (crash p)
    else if length (p_queue p) <? p_cap p then
      Some (set_sub i (S_accept h) (set_queue (p_queue p ++ [h]) p))
    else None
  | ChHandoff j =>
    if p_tasksClosed p then None
    else match p_queue p, p_pool p !! j with
    | [], Some W_recv => Some (set_sub i (S_accept h) (set_worker j (W_got h) p))
    | _, _ => None
    end
  | ChCtx =>
    match ctx_Err ctx (p_now p) with
    | Some e => Some (set_sub i (S_reject e) p)
    | None => None
    end
  | ChClosing => if p_closed p then Some (set_sub i (S_reject ErrClosed) p) else None
  end.

(** One operation of the [i]-th caller of [Submit]. *)
Definition submitStep (i : nat) (c : Choice) (p : Processor) : option Processor :=
  match p_subs p !! i with
  | None => None
  | Some s =>
    match s with
    | S_start ctx true => Some (set_sub i (S_return (inr (Prelude.New "task must not be nil"))) p)
    | S_start ctx false =>
      match ctx_Err ctx (p_now p) with
      | Some e => Some (set_sub i (S_return (inr e)) p)
      | None => Some (set_sub i (S_lock ctx) p)
      end
    | S_lock ctx =>
      if p_closed p then Some (set_sub i S_reject_closed p)
      else Some (set_sub i (S_select ctx (length (p_handles p)))
                  (set_groups (S (p_inFlight p)) (p_wg p) (set_handles (p_handles p ++ [None]) p)))
    | S_reject_closed => Some (set_sub i (S_return (inr ErrClosed)) (incRejected p))
    | S_select ctx h => submitSelect i ctx h c p
    | S_accept h => Some (set_sub i (S_leave (inl h)) (incAccepted p))
    | S_reject e => Some (set_sub i (S_leave (inr e)) (incRejected p))
    | S_leave r =>
      match p_inFlight p with
      | O => Some (crash p)
      | S n => Some (set_sub i (S_return r) (set_groups n (p_wg p) p))
      end
    | S_return _ => None
    end
  end.

(** One operation of the [j]-th worker; [o] is how its task ends, if it does. *)
Definition workerStep (j : nat) (o : Outcome) (p : Processor) : option Processor :=
  match p_pool p !! j with
  | None => None
  | Some s =>
    match s with
    | W_recv =>
      match p_queue p with
      | h :: q => Some (set_worker j (W_got h) (set_queue q p))
      | [] =>
        if p_tasksClosed p then
          match p_wg p with
          | O => Some (crash p)
          | S n => Some (set_worker j W_exit (set_groups (p_inFlight p) n p))
          end
        else None
      end
    | W_got h => Some (set_worker j (W_run h) (incRunning 1 p))
    | W_run h => Some (set_worker j (W_ran h (runTask o)) p)
    | W_ran h e => Some (set_worker j (W_stopped h e) (incRunning (-1) p))
    | W_stopped h e => Some (set_worker j (W_counted h e) (incCompleted p))
    | W_counted h e =>
      Some (set_worker j (W_report h e) (match e with Some _ => incFailed p | None => p end))
    | W_report h e => Some (set_worker j W_recv (setResult h e p))
    | W_exit => None
    end
  end.

(** The critical section of [Close]. *)
Definition closeLocked (p : Processor) : Processor :=
  if p_closed p then p
  else set_closing (p_tasksClosed p) true (p_done p) (Some C_inFlight) p.

(** One operation of the goroutine [Close] starts. *)
Definition closerStep (p : Processor) : option Processor :=
  match p_closer p with
  | Some C_inFlight =>
    if p_inFlight p =? 0 then
      Some (if p_tasksClosed p then crash p else set_closing true (p_closed p) (p_done p) (Some C_workers) p)
    else None
  | Some C_workers =>
    if p_wg p =? 0 then
      Some (if p_done p then crash p else set_closing (p_tasksClosed p) (p_closed p) true (Some C_end) p)
    else None
  | Some C_end | None => None
  end.

(** The wait at the end of [Close], like [Wait]. *)
Definition closeWait (ctx : Ctx) (pick : bool) (p : Processor) : option (option error) :=
  match p_done p, ctx_Err ctx (p_now p) with
  | true, None => Some None
  | true, Some c => Some (if pick then None else Some c)
  | false, Some c => Some (Some c)
  | false, None => None
  end.

Inductive Act :=
| ACall (ctx : Ctx) (nilfn : bool)
| ATick (d : N)
| ASubmit (i : nat) (c : Choice)
| AWorker (j : nat) (o : Outcome)
| AClose
| ACloser.

Definition step (a : Act) (p : Processor) : option Processor :=
  match a with
  | ACall ctx nilfn => Some (set_env (p_subs p ++ [S_start ctx nilfn]) (p_now p) p)
  | ATick d => Some (set_env (p_subs p) (p_now p + Z.of_N d) p)
  | ASubmit i c => submitStep i c p
  | AWorker j o => workerStep j o p
  | AClose => Some (closeLocked p)
  | ACloser => closerStep p
  end.

(** [Stats]: every field is read by its own atomic load; this is the snapshot
    when nothing happens in between. *)
Record Stats := mkStats { st_Workers : nat; st_Queued : nat; st_Running : Z;
  st_Accepted : Z; st_Completed : Z; st_Failed : Z; st_Rejected : Z }.
Definition stats (p : Processor) : Stats :=
  mkStats (p_workers p) (length (p_queue p)) (p_running p) (p_accepted p) (p_completed p)
    (p_failed p) (p_rejected p).

(** * Counting *)

Abbreviation tally := sum_list_with.

Lemma tally_insert {A} (f : A → nat) l i x y :
  l !! i = Some x → tally f (<[i:=y]> l) + f x = tally f l + f y.
Proof.
  revert i. induction l as [|a l IH]; intros [|i] H; simplify_eq/=; [lia|].
  specialize (IH _ H). lia.
Qed.
Lemma tally_elem {A} (f : A → nat) l i x : l !! i = Some x → f x ≤ tally f l.
Proof. revert i. induction l as [|a l IH]; intros [|i] H; simplify_eq/=; [lia|]. specialize (IH _ H). lia. Qed.
Lemma tally_zero {A} (f : A → nat) l i x : tally f l = 0 → l !! i = Some x → f x = 0.
Proof. intros Hs Hx. pose proof (tally_elem f _ _ _ Hx). lia. Qed.
Lemma tally_replicate {A} (f : A → nat) n x : tally f (replicate n x) = n * f x.
Proof. induction n; simpl; lia. Qed.

(** Callers between [inFlight.Add] and [inFlight.Done]; callers whose task is
    in the channel but not yet counted. *)
Definition sub_inflight (s : SubmitPC) : nat :=
  match s with S_select _ _ | S_accept _ | S_reject _ | S_leave _ => 1 | _ => 0 end.
Definition sub_uncounted (s : SubmitPC) : nat := match s with S_accept _ => 1 | _ => 0 end.

Definition w_live (w : WorkerPC) : nat := match w with W_exit => 0 | _ => 1 end.
Definition w_held (w : WorkerPC) : nat := match w with W_recv | W_exit => 0 | _ => 1 end.
Definition w_running (w : WorkerPC) : nat := match w with W_run _ | W_ran _ _ => 1 | _ => 0 end.
Definition w_completed (w : WorkerPC) : nat := match w with W_counted _ _ | W_report _ _ => 1 | _ => 0 end.
Definition w_failed (w : WorkerPC) : nat := match w with W_report _ (Some _) => 1 | _ => 0 end.

Definition h_done (h : option (option error)) : nat := match h with Some _ => 1 | None => 0 end.
Definition h_failed (h : option (option error)) : nat := match h with Some (Some _) => 1 | _ => 0 end.

(** The number of tasks sent to the channel so far. *)
Definition sent (p : Processor) : nat :=
  length (p_queue p) + tally w_held (p_pool p) + tally h_done (p_handles p).

(** ** Where a handle is *)

Definition is_h (h h' : nat) : nat := if decide (h = h') then 1 else 0.
Definition sub_pending (h : nat) (s : SubmitPC) : nat :=
  match s with S_select _ h' => is_h h h' | _ => 0 end.
Definition w_holds (h : nat) (w : WorkerPC) : nat :=
  match w with
  | W_got h' | W_run h' | W_ran h' _ | W_stopped h' _ | W_counted h' _ | W_report h' _ => is_h h h'
  | W_recv | W_exit => 0
  end.
Definition done_at (h : nat) (hs : list (option (option error))) : nat :=
  match hs !! h with Some (Some _) => 1 | _ => 0 end.
Definition pending (h : nat) (p : Processor) : nat := tally (sub_pending h) (p_subs p).
(** The task is queued, held by a worker, or finished. *)
Definition placed (h : nat) (p : Processor) : nat :=
  tally (is_h h) (p_queue p) + tally (w_holds h) (p_pool p) + done_at h (p_handles p).
Definition sub_accepted (s : SubmitPC) : option nat :=
  match s with S_accept h | S_leave (inl h) | S_return (inl h) => Some h | _ => None end.

(** * Invariants *)

(** Synchronisation: WaitGroups, channels and the shutdown goroutine. *)
Record sync_inv (p : Processor) : Prop := SyncInv {
  si_crash : p_crashed p = false;
  si_len : length (p_pool p) = p_workers p;
  si_inFlight : p_inFlight p = tally sub_inflight (p_subs p);
  si_wg : p_wg p = tally w_live (p_pool p);
  si_cap : length (p_queue p) ≤ p_cap p;
  si_closer : match p_closer p with
    | None => p_closed p = false ∧ p_tasksClosed p = false ∧ p_done p = false
    | Some C_inFlight => p_closed p = true ∧ p_tasksClosed p = false ∧ p_done p = false
    | Some C_workers => p_closed p = true ∧ p_tasksClosed p = true ∧ p_done p = false
    | Some C_end => p_closed p = true ∧ p_tasksClosed p = true ∧ p_done p = true ∧ p_wg p = 0
    end;
  si_closed : p_tasksClosed p = true → p_inFlight p = 0;
  si_exit : p_wg p < p_workers p → p_tasksClosed p = true ∧ p_queue p = [];
  si_pos : 0 < p_workers p;
}.

(** Every handle is in at most one place, and an accepted one in exactly one. *)
Record place_inv (p : Processor) : Prop := PlaceInv {
  pi_once h : pending h p + placed h p ≤ 1;
  pi_known h : length (p_handles p) ≤ h → pending h p + placed h p = 0;
  pi_accepted i s h : p_subs p !! i = Some s → sub_accepted s = Some h → placed h p = 1;
}.

(** The counters are the true counts modulo 2^64. *)
Record count_inv (p : Processor) : Prop := CountInv {
  ci_running : p_running p = Z.of_nat (tally w_running (p_pool p));
  ci_accepted : p_accepted p = wrap64 (Z.of_nat (sent p) - Z.of_nat (tally sub_uncounted (p_subs p)));
  ci_completed : p_completed p =
    wrap64 (Z.of_nat (tally h_done (p_handles p) + tally w_completed (p_pool p)));
  ci_failed : p_failed p =
    wrap64 (Z.of_nat (tally h_failed (p_handles p) + tally w_failed (p_pool p)));
}.

Definition pool_inv (p : Processor) : Prop := sync_inv p ∧ place_inv p ∧ count_inv p.

Definition pool_step (p p' : Processor) : Prop := ∃ a, step a p = Some p'.
Definition pool_reachable (p : Processor) : Prop :=
  ∃ w c p0, New w c = inl p0 ∧ rtc pool_step p0 p.

(** ** Case analysis on a step *)

Ltac step_cases H :=
  unfold step, submitStep, submitSelect, workerStep, closerStep, closeLocked, setResult in H;
  repeat match type of H with
  | context [match ?x with _ => _ end] => destruct x eqn:?; try discriminate H
  end;
  try (injection H as <-); simpl in *.

(** Replace each tally over an updated list by the equation for it. *)
Ltac tally_tac :=
  repeat match goal with
  | H : ?l !! ?i = Some ?x |- context [tally ?f (<[?i:=?y]> ?l)] =>
    let E := fresh "E" in
    pose proof (tally_insert f l i x y H) as E; simpl in E;
    generalize dependent (tally f (<[i:=y]> l)); intros
  end.

Lemma is_h_refl h : is_h h h = 1.
Proof. unfold is_h. by rewrite decide_True. Qed.

(** A worker about to report finds its handle open. *)
Lemma report_open p j h e :
  place_inv p → p_pool p !! j = Some (W_report h e) → p_handles p !! h = Some None.
Proof.
  intros I Hj. pose proof (tally_elem (w_holds h) _ _ _ Hj) as Hh. simpl in Hh. rewrite is_h_refl in Hh.
  pose proof (pi_once _ I h) as H1. unfold placed, done_at in H1.
  destruct (p_handles p !! h) as [[?|]|] eqn:Hl; [lia|done|].
  apply lookup_ge_None in Hl. pose proof (pi_known _ I h Hl). unfold placed in *. lia.
Qed.

(** Facts about the goroutine that moves. *)
Ltac elem_facts :=
  repeat match goal with
  | H : p_subs ?p !! ?i = Some ?s |- _ =>
    lazymatch goal with
    | _ : sub_inflight s ≤ _ |- _ => fail
    | _ => pose proof (tally_elem sub_inflight _ _ _ H : sub_inflight s ≤ _)
    end
  | H : p_pool ?p !! ?i = Some ?s |- _ =>
    lazymatch goal with
    | _ : w_live s ≤ _ |- _ => fail
    | _ => pose proof (tally_elem w_live _ _ _ H : w_live s ≤ _)
    end
  end; simpl in *.

Lemma step_no_crash a p p' :
  step a p = Some p' → sync_inv p → place_inv p → p_crashed p' = false.
Proof.
  intros H [Hcr Hlen Hin Hwg Hcap Hcl Hclosed Hexit Hpos] I.
  step_cases H; try done; exfalso.
  all: try (match goal with Hw : p_pool _ !! _ = Some (W_report _ _) |- _ =>
         rewrite (report_open _ _ _ _ I Hw) in *; congruence end).
  all: elem_facts.
  all: try (rewrite Hclosed in Hin by done; lia).
  all: try lia.
  all: destruct_and?; congruence.
Qed.

Lemma tally_app {A} (f : A → nat) l k : tally f (l ++ k) = tally f l + tally f k.
Proof. induction l; simpl; lia. Qed.
Lemma tally_in {A} (f : A → nat) l : 0 < tally f l → ∃ i x, l !! i = Some x ∧ 0 < f x.
Proof.
  induction l as [|a l IH]; simpl; [lia|]. intros H. destruct (decide (0 < f a)); [by exists 0, a|].
  destruct IH as (i & y & ? & ?); [lia|]. by exists (S i), y.
Qed.

Lemma step_sync a p p' : step a p = Some p' → sync_inv p → place_inv p → sync_inv p'.
Proof.
  intros H S I. pose proof (step_no_crash _ _ _ H S I) as Hnc.
  destruct S as [Hcr Hlen Hin Hwg Hcap Hcl Hclosed Hexit Hpos].
  step_cases H; elem_facts; try congruence.
  all: split; simpl; rewrite ?length_insert, ?length_app, ?tally_app; simpl.
  all: try done.
  all: tally_tac.
  all: repeat match goal with
       | H : (_ <? _) = true |- _ => apply Nat.ltb_lt in H
       | H : (_ =? _) = true |- _ => apply Nat.eqb_eq in H
       end.
  all: try lia.
  all: try (destruct (p_closer p) as [[]|]; destruct_and?; split_and?; intros; try congruence; try lia; done).
  all: try (match goal with H : p_queue _ = [] |- _ => rewrite H; simpl; lia end).
  all: intros Ht; try (specialize (Hclosed Ht); lia).
  by destruct (Hexit Ht).
Qed.

(** ** Places *)

Lemma done_at_app h hs : done_at h (hs ++ [None]) = done_at h hs.
Proof.
  unfold done_at. destruct (decide (h < length hs)); [by rewrite lookup_app_l|].
  rewrite lookup_app_r, (lookup_ge_None_2 hs) by lia. by destruct (h - length hs).
Qed.
Lemma done_at_insert h k hs e :
  hs !! k = Some None → done_at h (<[k:=Some e]> hs) = done_at h hs + is_h h k.
Proof.
  intros Hk. unfold done_at, is_h. case_decide as Heq.
  - subst. rewrite list_lookup_insert_eq by (by eapply lookup_lt_Some). by rewrite Hk.
  - rewrite list_lookup_insert_ne by done. lia.
Qed.

(** Which steps move a handle, and where. *)
Lemma step_places a p p' h :
  step a p = Some p' → p_crashed p' = false → place_inv p →
  placed h p ≤ placed h p' ∧
  (length (p_handles p) ≠ h → pending h p' + placed h p' ≤ pending h p + placed h p) ∧
  (length (p_handles p) = h → pending h p' + placed h p' ≤ 1) ∧
  length (p_handles p) ≤ length (p_handles p') ∧
  (length (p_handles p') ≤ h → pending h p' + placed h p' = 0).
Proof.
  intros H Hc I. pose proof (pi_known _ I h) as Hk. unfold pending, placed in *.
  step_cases H; try congruence.
  all: rewrite ?length_insert, ?length_app, ?tally_app; simpl.
  all: tally_tac.
  all: try match goal with H : p_queue _ = [] |- _ => rewrite ?H; simpl end.
  all: rewrite ?done_at_app.
  all: try (erewrite done_at_insert by done).
  all: split_and!; intros; try lia.
  all: unfold is_h in *; repeat case_decide; lia.
Qed.

(** A caller has an accepted handle only from a send it made. *)
Lemma step_newly a p p' i s h :
  step a p = Some p' → p_subs p' !! i = Some s → sub_accepted s = Some h →
  (∃ s0, p_subs p !! i = Some s0 ∧ sub_accepted s0 = Some h) ∨ 1 ≤ placed h p'.
Proof.
  intros H Hs Ha. step_cases H; eauto.
  all: try (apply list_lookup_insert_Some in Hs as [(-> & <- & _)|[_ Hs]]; [|by eauto]).
  all: try discriminate Ha.
  all: try (simplify_eq/=; left; eexists; split; [eassumption|done]).
  - apply lookup_app_Some in Hs as [Hs|[_ Hs]]; [eauto|].
    apply list_lookup_singleton_Some in Hs as [_ <-]. done.
  - right. injection Ha as <-. unfold placed. simpl. rewrite tally_app. simpl. rewrite is_h_refl. lia.
  - right. injection Ha as <-. unfold placed. simpl.
    match goal with H : p_pool p !! ?j = Some W_recv |- context [tally ?f (<[?j:=?y]> _)] =>
      pose proof (tally_insert f _ _ _ y H) as E end.
    simpl in E. rewrite is_h_refl in E. lia.
Qed.

Lemma step_place a p p' :
  step a p = Some p' → p_crashed p' = false → place_inv p → place_inv p'.
Proof.
  intros H Hc I.
  assert (∀ h, pending h p' + placed h p' ≤ 1) as Honce.
  { intros h. destruct (step_places _ _ _ h H Hc I) as (_ & H1 & H2 & _ & _).
    destruct (decide (length (p_handles p) = h)) as [E|E]; [auto|].
    pose proof (pi_once _ I h). specialize (H1 E). lia. }
  split; [done| |].
  - intros h. by destruct (step_places _ _ _ h H Hc I) as (_ & _ & _ & _ & ?).
  - intros i s h Hs Ha. specialize (Honce h).
    destruct (step_newly _ _ _ _ _ _ H Hs Ha) as [(s0 & Hs0 & Ha0)|?]; [|lia].
    destruct (step_places _ _ _ h H Hc I) as (Hm & _). rewrite (pi_accepted _ I _ _ _ Hs0 Ha0) in Hm. lia.
Qed.

(** ** Counters *)

Lemma wrap_add x y : wrap64 (wrap64 x + y) = wrap64 (x + y).
Proof. unfold wrap64. apply Zplus_mod_idemp_l. Qed.

Lemma step_count a p p' :
  step a p = Some p' → p_crashed p' = false → count_inv p → count_inv p'.
Proof.
  intros H Hc [Hr Ha Hm Hf]. unfold sent in Ha. step_cases H; try congruence.
  all: split; unfold sent; simpl; rewrite ?Hr, ?Ha, ?Hm, ?Hf, ?wrap_add;
    rewrite ?length_app, ?tally_app; simpl.
  all: try done.
  all: tally_tac.
  all: try match goal with H : p_queue _ = [] |- _ => rewrite ?H; simpl end.
  all: try lia.
  all: f_equal; lia.
Qed.

(** ** Reachable states *)

Lemma tally_none {A} (f : A → nat) l : (∀ x, x ∈ l → f x = 0) → tally f l = 0.
Proof.
  induction l as [|a l IH]; intros H; simpl; [done|]. rewrite (H a) by (by left).
  rewrite IH; [done|]. intros. apply H. by right.
Qed.

Lemma New_inv w c p : New w c = inl p → pool_inv p.
Proof.
  unfold New. repeat case_match; intros; simplify_eq. split_and!; split; simpl; try done.
  - by rewrite length_replicate.
  - rewrite tally_replicate. simpl. lia.
  - lia.
  - lia.
  - lia.
  - intros h. unfold pending, placed, done_at. simpl. rewrite tally_replicate. simpl. lia.
  - intros h _. unfold pending, placed, done_at. simpl. rewrite tally_replicate. simpl. lia.
  - by rewrite tally_replicate, Nat.mul_0_r.
  - unfold sent. simpl. by rewrite tally_replicate, Nat.mul_0_r.
  - by rewrite tally_replicate, Nat.mul_0_r.
  - by rewrite tally_replicate, Nat.mul_0_r.
Qed.

Lemma pool_step_inv p p' : pool_step p p' → pool_inv p → pool_inv p'.
Proof.
  intros [a H] (S & P & C). pose proof (step_no_crash _ _ _ H S P).
  split_and!; [by eapply step_sync|by eapply step_place|by eapply step_count].
Qed.

Lemma pool_steps_inv p p' : rtc pool_step p p' → pool_inv p → pool_inv p'.
Proof. induction 1; eauto using pool_step_inv. Qed.

Lemma pool_reachable_inv p : pool_reachable p → pool_inv p.
Proof. intros (w & c & p0 & H & Hs). eapply pool_steps_inv; [done|by eapply New_inv]. Qed.

(** ** Stability of results *)

Lemma step_result a p p' h e :
  step a p = Some p' → p_handles p !! h = Some (Some e) → p_handles p' !! h = Some (Some e).
Proof.
  intros H Hh. step_cases H; try done.
  - rewrite lookup_app_l; [done|]. by eapply lookup_lt_Some.
  - destruct (decide (h = h0)) as [->|?]; [congruence|]. by rewrite list_lookup_insert_ne.
Qed.

Lemma steps_result p p' h e :
  rtc pool_step p p' → p_handles p !! h = Some (Some e) → p_handles p' !! h = Some (Some e).
Proof. induction 1 as [|p1 p2 p3 [a Ha] _ IH]; eauto using step_result. Qed.

(** ** Progress *)

(** Steps of the goroutines themselves, as opposed to new calls and time. *)
Definition internal (p p' : Processor) : Prop :=
  ∃ a, step a p = Some p' ∧ match a with ASubmit _ _ | AWorker _ _ | ACloser => True | _ => False end.

Definition sub_work (s : SubmitPC) : nat :=
  match s with
  | S_start _ _ => 14 | S_lock _ => 13 | S_reject_closed => 1 | S_select _ _ => 12
  | S_accept _ | S_reject _ => 2 | S_leave _ => 1 | S_return _ => 0
  end.
Definition w_work (w : WorkerPC) : nat :=
  match w with
  | W_exit => 0 | W_recv => 1 | W_report _ _ => 2 | W_counted _ _ => 3 | W_stopped _ _ => 4
  | W_ran _ _ => 5 | W_run _ => 6 | W_got _ => 7
  end.
Definition c_work (c : option CloserPC) : nat :=
  match c with Some C_inFlight => 2 | Some C_workers => 1 | _ => 0 end.
Definition work (p : Processor) : nat :=
  tally sub_work (p_subs p) + tally w_work (p_pool p) + 7 * length (p_queue p) + c_work (p_closer p).

Lemma internal_work p p' : pool_inv p → internal p p' → work p' < work p.
Proof.
  intros (S & P & _) (a & H & Ha). pose proof (step_no_crash _ _ _ H S P) as Hc.
  pose proof (si_crash _ S) as Hc0. unfold work.
  step_cases H; try done; try congruence.
  all: rewrite ?length_app; simpl.
  all: try match goal with H : p_queue _ = _ |- _ => rewrite ?H; simpl end.
  all: try match goal with H : p_closer _ = _ |- _ => rewrite ?H; simpl end.
  all: tally_tac; lia.
Qed.

(** A closed pool that is not done can always move. *)
Lemma enabled a p :
  is_Some (step a p) → match a with ASubmit _ _ | AWorker _ _ | ACloser => True | _ => False end →
  ∃ p', internal p p'.
Proof. intros [p' H] Ha. by exists p', a. Qed.

Lemma closed_moves p :
  pool_inv p → p_closed p = true → p_done p = false → ∃ p', internal p p'.
Proof.
  intros (S & P & _) Hcl Hd. pose proof (si_closer _ S) as Hc.
  destruct (decide (0 < tally sub_inflight (p_subs p))) as [Hin|Hin].
  { apply tally_in in Hin as (i & s & Hs & Hw). apply (enabled (ASubmit i ChClosing)); [|done].
    simpl. unfold submitStep. rewrite Hs.
    destruct s; simpl in *; try lia; try done; [by rewrite Hcl|by destruct (p_inFlight p)]. }
  pose proof (si_inFlight _ S) as Hif.
  destruct (p_closer p) as [[]|] eqn:Hcp; destruct_and?; try congruence.
  { apply (enabled ACloser); [|done]. simpl. unfold closerStep. rewrite Hcp.
    rewrite (proj2 (Nat.eqb_eq _ 0)) by lia. by eexists. }
  destruct (decide (0 < tally w_live (p_pool p))) as [Hw|Hw].
  - apply tally_in in Hw as (j & w & Hj & Hlive). apply (enabled (AWorker j (Returned None))); [|done].
    simpl. unfold workerStep. rewrite Hj.
    destruct w; simpl in *; try lia; try done. destruct (p_queue p); [|done].
    match goal with H : p_tasksClosed p = true |- _ => rewrite H end. by destruct (p_wg p).
  - apply (enabled ACloser); [|done]. simpl. unfold closerStep. rewrite Hcp.
    rewrite (proj2 (Nat.eqb_eq _ 0)) by (rewrite (si_wg _ S); lia). by eexists.
Qed.

(** * Properties *)

(** C11. Under every interleaving of submitters, workers and closers the pool
    never panics (no send on a closed channel, no channel closed twice, no
    result set twice, no WaitGroup below zero), never holds more waiting
    tasks than its capacity, and never runs more than [Workers] at once. *)
Theorem pool_safe p : pool_reachable p →
  p_crashed p = false ∧ length (p_queue p) ≤ p_cap p ∧
  (0 ≤ p_running p ≤ Z.of_nat (p_workers p))%Z.
Proof.
  intros (S & _ & C)%pool_reachable_inv. split_and!; [apply S|apply S| |]; rewrite (ci_running _ C); [lia|].
  rewrite <-(si_len _ S). clear. induction (p_pool p) as [|w l IH]; simpl; [lia|].
  assert (w_running w ≤ 1) by (destruct w; simpl; lia). lia.
Qed.

(** Accounting, modulo 2^64: the accepted tasks are the queued ones, the
    ones workers hold and the finished ones (less those sent but not counted
    yet); completed and failed count the finished handles and the workers
    about to report. *)
Theorem pool_accounting p : pool_reachable p →
  p_accepted p = wrap64 (Z.of_nat (length (p_queue p) + tally w_held (p_pool p) + tally h_done (p_handles p))
                         - Z.of_nat (tally sub_uncounted (p_subs p))) ∧
  p_completed p = wrap64 (Z.of_nat (tally h_done (p_handles p) + tally w_completed (p_pool p))) ∧
  p_failed p = wrap64 (Z.of_nat (tally h_failed (p_handles p) + tally w_failed (p_pool p))).
Proof. intros (_ & _ & C)%pool_reachable_inv. split_and!; apply C. Qed.

(** A handle [Submit] returned stands for a task that is queued, held by
    one worker, or finished, exactly one of the three; and once its result is
    set it never changes, so every [Wait] that is not cut off by its context
    sees the same one. *)
Theorem handle_result_once p p' i h : pool_reachable p → rtc pool_step p p' →
  p_subs p !! i = Some (S_return (inl h)) →
  placed h p = 1 ∧
  ∀ e, p_handles p !! h = Some (Some e) →
    ∀ ctx pick, ctx_Err ctx (p_now p') = None → Wait h ctx pick p' = Some e.
Proof.
  intros (_ & P & _)%pool_reachable_inv Hs Hi. split; [by eapply pi_accepted|].
  intros e He ctx pick Hctx. unfold Wait. by rewrite (steps_result _ _ _ _ Hs He), Hctx.
Qed.

(** C12. When [Close] reports completion, the pool is drained: the queue is
    empty, every worker has exited, every accepted task has its result, and
    as many were completed as accepted. *)
Theorem close_drains p : pool_reachable p → p_done p = true →
  p_queue p = [] ∧ Forall (λ w, w = W_exit) (p_pool p) ∧
  (∀ i h, p_subs p !! i = Some (S_return (inl h)) → ∃ e, p_handles p !! h = Some (Some e)) ∧
  p_accepted p = p_completed p.
Proof.
  intros (S & P & C)%pool_reachable_inv Hd. pose proof (si_closer _ S) as Hc.
  destruct (p_closer p) as [[]|]; destruct_and?; try congruence.
  assert (tally w_live (p_pool p) = 0) as Hlive by (rewrite <-(si_wg _ S); done).
  assert (Forall (λ w, w = W_exit) (p_pool p)) as Hexit.
  { apply Forall_lookup. intros j w Hj. pose proof (tally_zero _ _ _ _ Hlive Hj). by destruct w. }
  assert (∀ f : WorkerPC → nat, f W_exit = 0 → tally f (p_pool p) = 0) as Hzero.
  { intros f Hf. apply tally_none. intros w Hw. rewrite Forall_forall in Hexit. by rewrite (Hexit w Hw). }
  assert (p_queue p = []) as Hq by (apply (si_exit _ S); pose proof (si_pos _ S); lia).
  assert (tally sub_inflight (p_subs p) = 0) as Hin by (rewrite <-(si_inFlight _ S); by apply (si_closed _ S)).
  split_and!; [done|done| |].
  - intros i h Hi. pose proof (pi_accepted _ P _ _ h Hi eq_refl) as Hp. unfold placed, done_at in Hp.
    rewrite Hq, (Hzero (w_holds h)) in Hp by done. simpl in Hp.
    destruct (p_handles p !! h) as [[e|]|]; [by eexists|done|done].
  - rewrite (ci_accepted _ C), (ci_completed _ C). unfold sent. rewrite Hq, !Hzero by done.
    rewrite (tally_none sub_uncounted); [f_equal; simpl; lia|].
    intros s [i Hs]%list_elem_of_lookup. pose proof (tally_zero _ _ _ _ Hin Hs). by destruct s.
Qed.

(** [Close] makes progress: the goroutines of the pool can take only
    finitely many steps between new calls, and a closed pool in which none of
    them can move is done.  So once [Close] was called, however the steps
    interleave, the pool drains (task bodies being assumed to return). *)
Theorem close_terminates p : pool_reachable p →
  (∀ p', internal p p' → work p' < work p) ∧
  (p_closed p = true → (¬ ∃ p', internal p p') → p_done p = true).
Proof.
  intros I%pool_reachable_inv. split; [intros; by apply internal_work|].
  intros Hc Hn. destruct (p_done p) eqn:Hd; [done|]. by destruct Hn; apply closed_moves.
Qed.

(** * Witnesses *)

(** Run a schedule. *)
Fixpoint run (sched : list Act) (p : Processor) : option Processor :=
  match sched with
  | [] => Some p
  | a :: sched => p' ← step a p; run sched p'
  end.

Lemma run_steps sched p p' : run sched p = Some p' → rtc pool_step p p'.
Proof.
  revert p. induction sched as [|a sched IH]; intros p H; simpl in H; [by injection H as ->|].
  apply bind_Some in H as (q & Ha & Hq). eapply rtc_l; [by exists a|by apply IH].
Qed.

Definition bg : Ctx := mkCtx None (Const "").
Definition demo_p0 : Processor :=
  match New 1 1 with inl p => p | inr _ => mkProcessor 0 0 [] false false 0 false 0 0 0 0 0 0 [] [] [] None 0 false end.
(** Two tasks submitted, the first running. *)
Definition sched1 : list Act :=
  [ACall bg false; ACall bg false; ASubmit 0 ChSend; ASubmit 0 ChSend; ASubmit 0 (ChHandoff 0);
   ASubmit 1 ChSend; ASubmit 1 ChSend; ASubmit 1 ChSend; AWorker 0 (Returned None);
   ASubmit 0 ChSend; ASubmit 0 ChSend; ASubmit 1 ChSend; ASubmit 1 ChSend].
(** Closed while a third caller waits; the first task panics, all is drained. *)
Definition work_of (o : Outcome) : list Act := replicate 5 (AWorker 0 o).
Definition sched2 : list Act :=
  [ACall bg false; ASubmit 2 ChSend; ASubmit 2 ChSend; AClose; ASubmit 2 ChClosing; ASubmit 2 ChSend; ASubmit 2 ChSend]
  ++ work_of (Panicked "boom") ++ [ACloser] ++ replicate 7 (AWorker 0 (Returned None))
  ++ [AWorker 0 (Returned None); ACloser].
Definition demo_p1 : Processor := default demo_p0 (run sched1 demo_p0).
Definition demo_p2 : Processor := default demo_p0 (run sched2 demo_p1).

Example demo_p1_stats : stats demo_p1 = mkStats 1 1 1 2 0 0 0.
Proof. vm_compute. reflexivity. Qed.
Example demo_p2_stats : stats demo_p2 = mkStats 1 0 0 2 2 1 1.
Proof. vm_compute. reflexivity. Qed.

Lemma demo_reach1 : pool_reachable demo_p1.
Proof. exists 1%Z, 1%Z, demo_p0. split; [done|]. apply (run_steps sched1). vm_compute. reflexivity. Qed.
Lemma demo_steps2 : rtc pool_step demo_p1 demo_p2.
Proof. apply (run_steps sched2). vm_compute. reflexivity. Qed.
Lemma demo_reach2 : pool_reachable demo_p2.
Proof.
  exists 1%Z, 1%Z, demo_p0. split; [done|]. etrans; [|apply demo_steps2].
  apply (run_steps sched1). vm_compute. reflexivity.
Qed.

Lemma pool_safe_witness : p_crashed demo_p1 = false ∧ length [1] ≤ 1 ∧ (0 ≤ p_running demo_p1 ≤ 1)%Z.
Proof. apply (pool_safe demo_p1). exact demo_reach1. Defined.

Lemma pool_accounting_witness : p_accepted demo_p1 = wrap64 (Z.of_nat (1 + 1 + 0) - 0).
Proof. apply (pool_accounting demo_p1). exact demo_reach1. Defined.

Lemma handle_result_once_witness :
  placed 0 demo_p2 = 1 ∧
  Wait 0 bg true demo_p2 = Some (Some (Errorf "%w: %v" ["boom"] [Const ErrPanic])).
Proof.
  destruct (handle_result_once demo_p2 demo_p2 0 0) as [H1 H2];
    [exact demo_reach2|constructor|vm_compute; reflexivity|].
  split; [exact H1|]. apply H2; vm_compute; reflexivity.
Defined.

Lemma close_drains_witness :
  p_queue demo_p2 = [] ∧ ∃ e, p_handles demo_p2 !! 1 = Some (Some e).
Proof.
  destruct (close_drains demo_p2) as (H1 & _ & H2 & _); [exact demo_reach2|vm_compute; reflexivity|].
  split; [exact H1|]. apply (H2 1). vm_compute. reflexivity.
Defined.

Definition demo_p3 : Processor := default demo_p0 (step (AWorker 0 (Returned None)) demo_p1).
Lemma close_terminates_witness : internal demo_p1 demo_p3 ∧ work demo_p3 < work demo_p1.
Proof.
  assert (internal demo_p1 demo_p3) as H by (exists (AWorker 0 (Returned None)); split; [vm_compute; reflexivity|exact I]).
  split; [exact H|]. destruct (close_terminates demo_p1 demo_reach1) as [Hw _]. exact (Hw _ H).
Defined.
