(* ===== verification/Provenance.v ===== *)
(** Vocabulary of the provenance schema shared by the approval, patch and
    review components (src/provenance/provenance.go).  The Go types are string
    types whose values are not restricted to the declared constants, so they
    are strings here. *)

From stdpp Require Import base strings.

Definition Status := string.
Definition StatusPass : Status := "pass".
Definition StatusFail : Status := "fail".
Definition StatusSkipped : Status := "skipped".
Definition StatusUnavailable : Status := "unavailable".
Definition StatusApprovalRequired : Status := "approval_required".

Definition CommandClass := string.
Definition ClassSafe : CommandClass := "safe".
Definition ClassMutating : CommandClass := "mutating".
Definition ClassNetworked : CommandClass := "networked".
Definition ClassDestructive : CommandClass := "destructive".
Definition ClassApprovalRequired : CommandClass := "approval_required".

Definition ChangeType := string.
Definition ChangeAdded : ChangeType := "added".
Definition ChangeModified : ChangeType := "modified".
Definition ChangeDeleted : ChangeType := "deleted".
Definition ChangeRenamed : ChangeType := "renamed".

(** A human approval of an elevated action, as recorded in an envelope. *)
Record Approval := mkApproval {
  ap_Action : string; ap_ApprovedBy : string; ap_ApprovedAt : Z; ap_Notes : string }.

Definition VerificationCategory := string.

(** The outcome of one verification check. *)
Record VerificationResult := mkVResult {
  vr_Name : string; vr_Category : VerificationCategory; vr_Status : Status;
  vr_Duration : Z; vr_Message : string; vr_Reason : string }.
