(* ===== verification/Hex.v ===== *)
(** encoding/hex, byte for byte, with its round trip. *)

From Stdlib Require Import Ascii.
From stdpp Require Import base strings.
From S2P Require Import Prelude.

Definition hexDigit (n : N) : ascii :=
  if N.ltb n 10 then ascii_of_N (48 + n) else ascii_of_N (87 + n).
Fixpoint hexEncode (s : string) : string :=
  match s with
  | EmptyString => EmptyString
  | String a s => let n := N_of_ascii a in String (hexDigit (n / 16)) (String (hexDigit (n mod 16)) (hexEncode s))
  end.
Definition hexValue (a : ascii) : option N :=
  let n := N_of_ascii a in
  if byte_in 48 57 a then Some (n - 48)%N
  else if byte_in 97 102 a then Some (n - 87)%N
  else if byte_in 65 70 a then Some (n - 55)%N
  else None.
(** [hex.DecodeString]: [None] is an error. *)
Fixpoint hexDecode (s : string) : option string :=
  match s with
  | EmptyString => Some EmptyString
  | String _ EmptyString => None
  | String a (String b s) =>
    match hexValue a, hexValue b, hexDecode s with
    | Some x, Some y, Some t => Some (String (ascii_of_N (16 * x + y)) t)
    | _, _, _ => None
    end
  end.

Lemma hexValue_digit n : (n < 16)%N → hexValue (hexDigit n) = Some n.
Proof.
  intros Hn. assert (n = 0 ∨ n = 1 ∨ n = 2 ∨ n = 3 ∨ n = 4 ∨ n = 5 ∨ n = 6 ∨ n = 7 ∨ n = 8 ∨ n = 9 ∨ n = 10 ∨
    n = 11 ∨ n = 12 ∨ n = 13 ∨ n = 14 ∨ n = 15)%N as H by lia.
  repeat (destruct H as [->|H]; [reflexivity|]). by subst.
Qed.

(** Decoding undoes encoding. *)
Lemma hexDecode_encode s : hexDecode (hexEncode s) = Some s.
Proof.
  induction s as [|a s IH]; [done|]. simpl. rewrite !hexValue_digit, IH.
  - do 2 f_equal. rewrite <-(ascii_N_embedding a) at 3. f_equal.
    pose proof (N.div_mod (N_of_ascii a) 16). lia.
  - apply N.mod_lt. lia.
  - apply N.Div0.div_lt_upper_bound. pose proof (N_ascii_bounded a). lia.
Qed.
