(* ===== verification/Paths.v ===== *)
(** Slash-separated paths: the parts of path/filepath (Unix) that
    src/patchapply and src/approval use, and their facts on clean paths. *)

From Stdlib Require Import Ascii.
From stdpp Require Import base list strings.
From S2P Require Import Prelude.

(** [strings.Split(s, "/")]. *)
Fixpoint splitSlash (s : string) : list string :=
  match s with
  | EmptyString => [EmptyString]
  | String a s =>
    if Ascii.eqb a "/" then EmptyString :: splitSlash s
    else match splitSlash s with w :: ws => String a w :: ws | [] => [String a EmptyString] end
  end.
(** [strings.Join(l, "/")]. *)
Definition joinSlash (l : list string) : string := String.concat "/" l.

(** [filepath.IsAbs]. *)
Definition IsAbs (s : string) : bool :=
  match s with String a _ => Ascii.eqb a "/" | EmptyString => false end.

(** One element of a path being cleaned; the kept elements are in reverse. *)
Definition cleanStep (rooted : bool) (acc : list string) (seg : string) : list string :=
  if String.eqb seg "" || String.eqb seg "." then acc
  else if String.eqb seg ".." then
    match acc with
    | [] => if rooted then [] else [".."]
    | top :: rest => if String.eqb top ".." then ".." :: acc else rest
    end
  else seg :: acc.
Definition cleanSegs (rooted : bool) (segs : list string) : list string :=
  reverse (foldl (cleanStep rooted) [] segs).

(** [filepath.Clean]. *)
Definition Clean (s : string) : string :=
  let rooted := IsAbs s in
  let out := cleanSegs rooted (splitSlash s) in
  if rooted then "/" +:+ joinSlash out
  else match out with [] => "." | _ => joinSlash out end.

(** [filepath.Join(a, b)]. *)
Definition Join (a b : string) : string :=
  if String.eqb a "" then (if String.eqb b "" then "" else Clean b) else Clean (a +:+ "/" +:+ b).

(** [filepath.Dir]: the cleaned part up to and including the last slash. *)
Definition Dir (s : string) : string :=
  match splitSlash s with
  | [_] => "."
  | l => Clean (joinSlash (removelast l ++ [""]))
  end.

(** [strings.HasPrefix(s, p)]. *)
Definition HasPrefix (s p : string) : bool := String.prefix p s.

(** The non-empty elements of a path, as the file system walks them. *)
Definition elems (s : string) : list string := filter (λ c, c ≠ "") (splitSlash s).

(** * Clean absolute paths *)

Definition noslash (c : string) : Prop := splitSlash c = [c].
(** A name: an element that stands for itself. *)
Definition normal (c : string) : Prop := c ≠ "" ∧ c ≠ "." ∧ c ≠ ".." ∧ noslash c.
(** The absolute path with the given names. *)
Definition abs (cs : list string) : string := "/" +:+ joinSlash cs.

Lemma prefix_app_str a b : String.prefix a (a +:+ b) = true.
Proof. induction a as [|x a IH]; simpl; [by destruct b|]. by destruct (ascii_dec x x). Qed.

Lemma prefix_str a s : String.prefix a s = true → ∃ b, s = a +:+ b.
Proof.
  revert s. induction a as [|x a IH]; intros s; [by exists s|]. destruct s as [|y s]; simpl; [done|].
  destruct (ascii_dec x y) as [->|]; [|done]. intros [b ->]%IH. by exists b.
Qed.

Lemma splitSlash_ne s : splitSlash s ≠ [].
Proof. destruct s as [|a s]; simpl; [done|]. destruct (Ascii.eqb a "/"); [done|]. by destruct (splitSlash s). Qed.

Lemma splitSlash_noslash s : Forall noslash (splitSlash s).
Proof.
  unfold noslash. induction s as [|a s IH]; simpl; [by repeat constructor|].
  destruct (Ascii.eqb a "/") eqn:Ha; [by constructor|].
  destruct (splitSlash s) as [|w ws] eqn:E; [by constructor; simpl; rewrite ?Ha|].
  inversion IH as [|? ? Hw Hws]; subst. constructor; [|done]. simpl. by rewrite Ha, Hw.
Qed.

Lemma splitSlash_app w s : noslash w → splitSlash (w +:+ String "/" s) = w :: splitSlash s.
Proof.
  unfold noslash. induction w as [|a w IH]; intros Hw; [done|].
  change (String a w +:+ String "/" s) with (String a (w +:+ String "/" s)).
  simpl in *. destruct (Ascii.eqb a "/") eqn:Ha.
  - by simplify_eq.
  - destruct (splitSlash w) as [|w' ws] eqn:E; [by destruct (splitSlash_ne w)|]. simplify_eq. by rewrite IH.
Qed.

Lemma splitSlash_join cs : cs ≠ [] → Forall noslash cs → splitSlash (joinSlash cs) = cs.
Proof.
  unfold joinSlash. induction cs as [|c [|d cs] IH]; intros Hne H; [done|by inversion H|].
  inversion H as [|? ? Hc Hcs]; subst.
  change (String.concat "/" (c :: d :: cs)) with (c +:+ String "/" (String.concat "/" (d :: cs))).
  rewrite splitSlash_app by done. by rewrite IH.
Qed.

Lemma joinSlash_app a b : a ≠ [] → b ≠ [] → joinSlash (a ++ b) = joinSlash a +:+ "/" +:+ joinSlash b.
Proof.
  unfold joinSlash. intros Ha Hb. induction a as [|x [|y a] IH]; [done| |].
  - destruct b as [|z b]; [done|]. done.
  - change (x +:+ "/" +:+ String.concat "/" ((y :: a) ++ b) =
      (x +:+ "/" +:+ String.concat "/" (y :: a)) +:+ "/" +:+ String.concat "/" b).
    rewrite IH by done. by rewrite str_app_assoc.
Qed.

Lemma normal_noslash cs : Forall normal cs → Forall noslash cs.
Proof. intros H. eapply Forall_impl; [exact H|]. by intros c (_ & _ & _ & ?). Qed.

Lemma elems_abs cs : Forall normal cs → elems (abs cs) = cs.
Proof.
  intros H. unfold elems, abs. change ("/" +:+ joinSlash cs) with (String "/" (joinSlash cs)). simpl.
  destruct (decide (cs = [])) as [->|Hne]; [done|].
  rewrite splitSlash_join by (done || by apply normal_noslash).
  rewrite filter_cons_False by (intros Hn; by apply Hn). clear Hne.
  induction H as [|c cs (Hc & _) _ IH]; [done|]. by rewrite filter_cons_True, IH.
Qed.

Lemma cleanStep_normal rooted acc c : normal c → cleanStep rooted acc c = c :: acc.
Proof.
  intros (H1 & H2 & H3 & _). unfold cleanStep.
  rewrite (proj2 (String.eqb_neq _ _) H1), (proj2 (String.eqb_neq _ _) H2), (proj2 (String.eqb_neq _ _) H3). done.
Qed.

Lemma foldl_normal rooted acc cs : Forall normal cs → foldl (cleanStep rooted) acc cs = reverse cs ++ acc.
Proof.
  intros H. revert acc. induction H as [|c cs Hc _ IH]; intros acc; [done|].
  simpl. rewrite cleanStep_normal by done. rewrite IH, reverse_cons, <-app_assoc. done.
Qed.

Lemma Clean_abs_segs s segs : splitSlash s = "" :: segs → IsAbs s = true →
  Clean s = abs (cleanSegs true segs).
Proof. intros Hs Ha. unfold Clean. rewrite Ha, Hs. done. Qed.

Lemma cleanSegs_normal rooted cs : Forall normal cs → cleanSegs rooted cs = cs.
Proof. intros H. unfold cleanSegs. by rewrite foldl_normal, app_nil_r, reverse_involutive. Qed.

Lemma splitSlash_abs cs : Forall normal cs → cs ≠ [] → splitSlash (abs cs) = "" :: cs.
Proof.
  intros H Hne. unfold abs. change ("/" +:+ joinSlash cs) with (String "/" (joinSlash cs)). simpl.
  by rewrite splitSlash_join by (done || by apply normal_noslash).
Qed.

Lemma abs_inj a b : Forall normal a → Forall normal b → abs a = abs b → a = b.
Proof. intros Ha Hb E. rewrite <-(elems_abs a), <-(elems_abs b) by done. by rewrite E. Qed.

(** What is kept of a relative path: leading [..]s, then names (in reverse). *)
Definition kept (acc : list string) : Prop :=
  ∃ n cs, Forall normal cs ∧ acc = reverse cs ++ replicate n "..".

Lemma cleanStep_kept acc seg : noslash seg → kept acc → kept (cleanStep false acc seg).
Proof.
  intros Hseg (n & cs & Hcs & ->). unfold cleanStep.
  destruct (String.eqb_spec seg ""); [by exists n, cs|]. destruct (String.eqb_spec seg "."); [by exists n, cs|]. simpl.
  destruct (String.eqb_spec seg "..") as [->|Hne].
  - destruct cs as [|c cs _] using rev_ind.
    + destruct n as [|n]; [by exists 1, []|by exists (S (S n)), []].
    + rewrite reverse_app. simpl. apply Forall_app in Hcs as [Hcs Hc]. inversion Hc as [|? ? (_ & _ & Hcd & _)]; subst.
      rewrite (proj2 (String.eqb_neq _ _) Hcd). by exists n, cs.
  - exists n, (cs ++ [seg]). split; [|by rewrite reverse_app].
    apply Forall_app. split; [done|]. by repeat constructor.
Qed.

Lemma cleanSegs_kept segs : Forall noslash segs → ∃ n cs, Forall normal cs ∧ cleanSegs false segs = replicate n ".." ++ cs.
Proof.
  intros H. assert (∀ acc, kept acc → kept (foldl (cleanStep false) acc segs)) as Hf.
  { induction H as [|seg segs Hseg _ IH]; intros acc Hacc; [done|]. simpl. by apply IH, cleanStep_kept. }
  destruct (Hf []) as (n & cs & Hcs & E); [by exists 0, []|]. exists n, cs. split; [done|].
  unfold cleanSegs. rewrite E, reverse_app, reverse_involutive. f_equal.
  clear. induction n as [|n IH]; [done|]. simpl. rewrite reverse_cons, IH.
  clear. induction n as [|n IH]; [done|]. simpl. by rewrite IH.
Qed.

(** A relative path whose clean form neither is nor starts with [..] is made of
    names, or is the current directory. *)
Lemma Clean_relative s : IsAbs s = false → String.eqb (Clean s) ".." = false → HasPrefix (Clean s) "../" = false →
  Clean s = "." ∨ ∃ cs, cs ≠ [] ∧ Forall normal cs ∧ Clean s = joinSlash cs.
Proof.
  intros Ha Hd Hp. unfold Clean in *. rewrite Ha in *.
  destruct (cleanSegs_kept (splitSlash s) (splitSlash_noslash s)) as (n & cs & Hcs & E). rewrite E in *.
  destruct n as [|n]; simpl in *.
  - destruct cs as [|c cs]; [by left|]. right. by exists (c :: cs).
  - exfalso. destruct (replicate n ".." ++ cs) as [|c l]; [by vm_compute in Hd|].
    assert (HasPrefix (joinSlash (".." :: c :: l)) "../" = true)
      by apply (prefix_app_str "../" (joinSlash (c :: l))). simpl in *. congruence.
Qed.

Lemma Join_abs b cs : Forall normal b → b ≠ [] → Forall normal cs → cs ≠ [] →
  Join (abs b) (joinSlash cs) = abs (b ++ cs).
Proof.
  intros Hb Hbn Hc Hcn. unfold Join. destruct (String.eqb_spec (abs b) "") as [E|_]; [done|].
  assert (abs b +:+ "/" +:+ joinSlash cs = abs (b ++ cs)) as ->.
  { unfold abs. rewrite joinSlash_app by done. by rewrite str_app_assoc. }
  assert (Forall normal (b ++ cs)) as Hbc by (by apply Forall_app).
  unfold Clean. replace (IsAbs (abs (b ++ cs))) with true by done.
  rewrite splitSlash_abs; [|done|by destruct b]. unfold cleanSegs. simpl.
  change (cleanStep true [] "") with (@nil string). change (abs (cleanSegs true (b ++ cs)) = abs (b ++ cs)).
  by rewrite cleanSegs_normal.
Qed.

Lemma Dir_abs cs c : Forall normal cs → normal c → Dir (abs (cs ++ [c])) = abs cs.
Proof.
  intros Hcs Hc. assert (Forall normal (cs ++ [c])) as H by (apply Forall_app; split; [done|by apply Forall_singleton]).
  unfold Dir. rewrite splitSlash_abs; [|done|by destruct cs].
  destruct (cs ++ [c]) as [|d l] eqn:E; [by destruct cs|]. rewrite <-E.
  change ("" :: cs ++ [c]) with (("" :: cs) ++ [c]). rewrite removelast_last.
  assert (IsAbs (joinSlash (("" :: cs) ++ [""])) = true) as Ha by (destruct cs; done).
  unfold Clean. rewrite Ha, splitSlash_join; [|done|].
  - change (("" :: cs) ++ [""]) with ("" :: (cs ++ [""])). unfold cleanSegs. simpl.
    change (cleanStep true [] "") with (@nil string). rewrite foldl_app, (foldl_normal true [] cs), app_nil_r by done.
    simpl. change (cleanStep true (reverse cs) "") with (reverse cs). by rewrite reverse_involutive.
  - apply Forall_app. split; [constructor; [done|by apply normal_noslash]|by apply Forall_singleton].
Qed.

Lemma Dir_root : Dir (abs []) = abs [].
Proof. reflexivity. Qed.


(** * Containment *)

(** [isWithin] of src/patchapply/path.go. *)
Definition isWithin (base target : string) : bool :=
  String.eqb target base || HasPrefix target (base +:+ "/").

Lemma splitSlash_names b s : Forall noslash b → b ≠ [] →
  splitSlash (joinSlash b +:+ "/" +:+ s) = b ++ splitSlash s.
Proof.
  intros H. induction H as [|c b Hc Hb IH]; intros Hne; [done|]. destruct b as [|d b].
  - exact (splitSlash_app c s Hc).
  - change (joinSlash (c :: d :: b)) with (c +:+ "/" +:+ joinSlash (d :: b)). rewrite !str_app_assoc.
    change (c +:+ "/" +:+ (joinSlash (d :: b) +:+ "/" +:+ s))
      with (c +:+ String "/" (joinSlash (d :: b) +:+ "/" +:+ s)).
    rewrite splitSlash_app by done. by rewrite IH.
Qed.

(** On clean absolute paths below the root, it is the prefix order on names. *)
Lemma isWithin_abs b t : Forall normal b → b ≠ [] → Forall normal t →
  isWithin (abs b) (abs t) = true ↔ b `prefix_of` t.
Proof.
  intros Hb Hne Ht. unfold isWithin. rewrite orb_true_iff, String.eqb_eq. split.
  - intros [E|[s E]%prefix_str]; [by rewrite (abs_inj _ _ Ht Hb E)|].
    assert (splitSlash (abs t) = "" :: b ++ splitSlash s) as Hs.
    { rewrite E. unfold abs. rewrite !str_app_assoc.
      change ("/" +:+ (joinSlash b +:+ ("/" +:+ s))) with (String "/" (joinSlash b +:+ "/" +:+ s)). simpl.
      by rewrite splitSlash_names by (done || by apply normal_noslash). }
    destruct (decide (t = [])) as [->|Htn].
    + destruct b as [|c b]; [done|]. injection Hs as <- _. inversion Hb as [|? ? [? _]]. done.
    + rewrite splitSlash_abs in Hs by done. injection Hs as ->. by exists (splitSlash s).
  - intros [r ->]. destruct (decide (r = [])) as [->|Hr]; [left; by rewrite app_nil_r|right].
    unfold abs. rewrite joinSlash_app by done.
    replace ("/" +:+ joinSlash b +:+ "/" +:+ joinSlash r) with (("/" +:+ joinSlash b +:+ "/") +:+ joinSlash r)
      by (by rewrite !str_app_assoc).
    replace (("/" +:+ joinSlash b) +:+ "/") with ("/" +:+ joinSlash b +:+ "/") by (by rewrite !str_app_assoc).
    apply prefix_app_str.
Qed.

Example Clean_ex : (Clean "a//b/./c/../d", Clean "/../x/", Clean "", Clean "../a/../../b") = ("a/b/d", "/x", ".", "../../b").
Proof. reflexivity. Qed.
Example Dir_ex : (Dir "/a/b", Dir "/a", Dir "/", Dir "a", Dir "a/b/") = ("/a", "/", "/", ".", "a/b").
Proof. reflexivity. Qed.
Example Join_ex : (Join "/t" "a/b", Join "" "", Join "" "x/..") = ("/t/a/b", "", ".").
Proof. reflexivity. Qed.
