(* ===== verification/Regex.v ===== *)
(** Go's package regexp as far as the repository uses it: the syntax of the
    patterns, read from the same strings as in the source, leftmost-first
    matching with submatches, and replacement; and package unicode/utf8's
    decoding, since patterns match code points.

    [MustCompile] reads a pattern; [matchAt] is a backtracking matcher whose
    order of alternatives is the preference order of leftmost-first matching.
    The relation [M] says which texts a pattern matches, and [match_sound] and
    [match_complete] relate the two. *)

From Stdlib Require Import Ascii.
From stdpp Require Import base list strings sets.
From S2P Require Import Prelude.
#[local] Open Scope Z_scope.

(** * Text *)

(** A code point with the bytes that encode it. *)
Definition Sym : Type := Z * string.
Definition runeError : Z := 65533.

Definition byteZ (a : ascii) : Z := Z.of_N (N_of_ascii a).
Definition contByte (a : ascii) (lo hi : Z) : bool := (lo <=? byteZ a) && (byteZ a <=? hi).
Definition low6 (a : ascii) : Z := Z.land (byteZ a) 63.

(** The bounds of the second byte for a first byte, and the length; the table
    of package unicode/utf8. *)
Definition lead (b : Z) : option (nat * Z * Z) :=
  if (b <? 194) then None else if (b <=? 223) then Some (2%nat, 128, 191)
  else if (b =? 224) then Some (3%nat, 160, 191) else if (b =? 237) then Some (3%nat, 128, 159)
  else if (b <=? 239) then Some (3%nat, 128, 191)
  else if (b =? 240) then Some (4%nat, 144, 191) else if (b <=? 243) then Some (4%nat, 128, 191)
  else if (b =? 244) then Some (4%nat, 128, 143) else None.

(** The code point at the start of a string of at least one byte, and the rest;
    an invalid byte stands alone as U+FFFD. *)
Definition decodeRune (a : ascii) (s : string) : Sym * string :=
  let bad := ((runeError, String a ""), s) in
  let b := byteZ a in
  if b <? 128 then ((b, String a ""), s) else
  match lead b, s with
  | Some (2%nat, lo, hi), String a1 s1 =>
    if contByte a1 lo hi then ((Z.lor (Z.shiftl (Z.land b 31) 6) (low6 a1), String a (String a1 "")), s1) else bad
  | Some (3%nat, lo, hi), String a1 (String a2 s2) =>
    if contByte a1 lo hi && contByte a2 128 191
    then ((Z.lor (Z.shiftl (Z.land b 15) 12) (Z.lor (Z.shiftl (low6 a1) 6) (low6 a2)),
           String a (String a1 (String a2 ""))), s2) else bad
  | Some (4%nat, lo, hi), String a1 (String a2 (String a3 s3)) =>
    if contByte a1 lo hi && contByte a2 128 191 && contByte a3 128 191
    then ((Z.lor (Z.shiftl (Z.land b 7) 18) (Z.lor (Z.shiftl (low6 a1) 12) (Z.lor (Z.shiftl (low6 a2) 6) (low6 a3))),
           String a (String a1 (String a2 (String a3 "")))), s3) else bad
  | _, _ => bad
  end.

Fixpoint decodeFuel (fuel : nat) (s : string) : list Sym :=
  match fuel, s with
  | S fuel, String a s => let r := decodeRune a s in r.1 :: decodeFuel fuel r.2
  | _, _ => []
  end.
Definition decode (s : string) : list Sym := decodeFuel (String.length s) s.
Definition bytes (t : list Sym) : string := foldr (λ x s, x.2 +:+ s) "" t.

(** * Patterns *)

(** A character class: ranges of code points, negated, with case folding. *)
Record cls := mkCls { c_fold : bool; c_neg : bool; c_ranges : list (Z * Z) }.

Inductive regex :=
| REmpty
| RClass (c : cls)
| RCat (r1 r2 : regex)
| RAlt (r1 r2 : regex)
| RStar (greedy : bool) (r : regex)
| RGroup (n : nat) (r : regex)
| RBegin
| REnd
| RWord.

(** The code points equal to [c] up to case, for the letters of ASCII; U+212A
    and U+017F fold to k and s. *)
Definition orbit (c : Z) : list Z :=
  if (65 <=? c) && (c <=? 90) then [c; c + 32]
  else if (97 <=? c) && (c <=? 122) then [c; c - 32]
  else if c =? 8490 then [c; 107; 75] else if c =? 383 then [c; 115; 83] else [c].
Definition inRanges (rs : list (Z * Z)) (c : Z) : bool := existsb (λ r, (r.1 <=? c) && (c <=? r.2)) rs.
Definition inClass (k : cls) (c : Z) : bool :=
  xorb (c_neg k) (existsb (inRanges (c_ranges k)) (if c_fold k then orbit c else [c])).

(** A word character, for [\b]. *)
Definition isWord (c : option Z) : bool :=
  match c with
  | Some c => inRanges [(48, 57); (65, 90); (95, 95); (97, 122)] c
  | None => false
  end.

(** * Matching *)

(** A position: the code point before it and the text from it on. *)
Definition Pos : Type := option Z * list Sym.
Definition Captures : Type := list (nat * list Sym).
Definition nextRune (p : Pos) : option Z := match p.2 with [] => None | x :: _ => Some x.1 end.
Definition atWordBoundary (p : Pos) : bool := xorb (isWord p.1) (isWord (nextRune p)).
(** The text between two positions. *)
Definition between (p q : Pos) : list Sym := take (length p.2 - length q.2)%nat p.2.

Definition orElse {A} (x y : option A) : option A := match x with Some _ => x | None => y end.

(** Repeat [body], which must advance, and go on with [k]. *)
Fixpoint starLoop {A} (body : Pos → Captures → (Pos → Captures → option A) → option A) (greedy : bool)
    (k : Pos → Captures → option A) (fuel : nat) (p : Pos) (env : Captures) : option A :=
  let again := match fuel with
    | O => None
    | S fuel => body p env (λ q env, if (length q.2 <? length p.2)%nat then starLoop body greedy k fuel q env else None)
    end in
  if greedy then orElse again (k p env) else orElse (k p env) again.

(** Match [r] from [p] and go on with [k]; the first success in the order of
    preference. *)
Fixpoint step {A} (r : regex) (p : Pos) (env : Captures) (k : Pos → Captures → option A) : option A :=
  match r with
  | REmpty => k p env
  | RClass c =>
    match p.2 with
    | [] => None
    | x :: t => if inClass c x.1 then k (Some x.1, t) env else None
    end
  | RCat r1 r2 => step r1 p env (λ q env, step r2 q env k)
  | RAlt r1 r2 => orElse (step r1 p env k) (step r2 p env k)
  | RStar greedy r => starLoop (step r) greedy k (length p.2) p env
  | RGroup n r => step r p env (λ q env, k q ((n, between p q) :: env))
  | RBegin => match p.1 with None => k p env | Some _ => None end
  | REnd => match p.2 with [] => k p env | _ => None end
  | RWord => if atWordBoundary p then k p env else None
  end.

Definition matchAt (r : regex) (p : Pos) : option (Pos * Captures) := step r p [] (λ q env, Some (q, env)).

(** The leftmost match at or after [p]: the text before it, its end and its
    submatches. *)
Fixpoint searchFrom (r : regex) (prev : option Z) (t : list Sym) : option (list Sym * Pos * Captures) :=
  match matchAt r (prev, t) with
  | Some (q, env) => Some ([], q, env)
  | None =>
    match t with
    | [] => None
    | x :: t => match searchFrom r (Some x.1) t with Some (pre, q, env) => Some (x :: pre, q, env) | None => None end
    end
  end.

Definition MatchString (r : regex) (s : string) : bool :=
  match searchFrom r None (decode s) with Some _ => true | None => false end.

(** [FindStringSubmatch]: the submatch [n], empty when its group took no
    part. *)
Definition FindStringSubmatch (r : regex) (s : string) : option (nat → string) :=
  match searchFrom r None (decode s) with
  | Some (_, _, env) => Some (λ n, match find (λ x, Nat.eqb x.1 n) env with Some (_, t) => bytes t | None => "" end)
  | None => None
  end.

(** [ReplaceAllStringFunc]: the matches from left to right; an empty match next
    to the previous one is not replaced, and after an empty match the search
    goes on one code point later. *)
Fixpoint replaceLoop (fuel : nat) (r : regex) (f : list Sym → string) (after : bool) (p : Pos) : string :=
  match fuel with
  | O => bytes p.2
  | S fuel =>
    match searchFrom r p.1 p.2 with
    | None => bytes p.2
    | Some (pre, q, _) =>
      let start := drop (length pre) p.2 in
      if (length q.2 <? length start)%nat
      then bytes pre +:+ f (take (length start - length q.2)%nat start) +:+ replaceLoop fuel r f true q
      else bytes pre +:+ (if after && (length pre =? 0)%nat then "" else f [])
           +:+ match start with
               | [] => ""
               | x :: t => x.2 +:+ replaceLoop fuel r f false (Some x.1, t)
               end
    end
  end.
Definition ReplaceAllStringFunc (r : regex) (s : string) (f : string → string) : string :=
  let t := decode s in replaceLoop (S (length t)) r (λ m, f (bytes m)) false (None, t).
(** The replacement has no [$]. *)
Definition ReplaceAllString (r : regex) (s repl : string) : string := ReplaceAllStringFunc r s (λ _, repl).

(** [FindAllSubmatch] with no limit: the submatches of the successive matches;
    an empty match next to the previous one is ignored. *)
Fixpoint findLoop (fuel : nat) (r : regex) (after : bool) (p : Pos) : list (nat → string) :=
  match fuel with
  | O => []
  | S fuel =>
    match searchFrom r p.1 p.2 with
    | None => []
    | Some (pre, q, env) =>
      let m n := match find (λ x, Nat.eqb x.1 n) env with Some (_, t) => bytes t | None => "" end in
      let start := drop (length pre) p.2 in
      if (length q.2 <? length start)%nat then m :: findLoop fuel r true q
      else (if after && (length pre =? 0)%nat then [] else [m])
           ++ match start with [] => [] | x :: t => findLoop fuel r false (Some x.1, t) end
    end
  end.
Definition FindAllSubmatch (r : regex) (s : string) : list (nat → string) :=
  let t := decode s in findLoop (S (length t)) r false (None, t).

(** * Syntax *)

Definition maxRune : Z := 1114111.
Definition spaces : list (Z * Z) := [(9, 10); (12, 13); (32, 32)].
Definition nonSpaces : list (Z * Z) := [(0, 8); (11, 11); (14, 31); (33, maxRune)].
Definition lit (fold : bool) (a : ascii) : regex := RClass (mkCls fold false [(byteZ a, byteZ a)]).

(** The ranges an escape stands for. *)
Definition escape (a : ascii) : list (Z * Z) :=
  if Ascii.eqb a "s" then spaces else if Ascii.eqb a "S" then nonSpaces
  else if Ascii.eqb a "d" then [(48, 57)] else [(byteZ a, byteZ a)].

(** The members of a bracketed class, up to the closing bracket. *)
Fixpoint parseClass (s : string) (acc : list (Z * Z)) : option (list (Z * Z) * string) :=
  match s with
  | String "]" s => Some (acc, s)
  | String "\" (String a s) => parseClass s (acc ++ escape a)
  | String a s1 =>
    match s1 with
    | String "-" (String b s2) =>
      if Ascii.eqb b "]" then parseClass s1 (acc ++ [(byteZ a, byteZ a)])
      else parseClass s2 (acc ++ [(byteZ a, byteZ b)])
    | _ => parseClass s1 (acc ++ [(byteZ a, byteZ a)])
    end
  | EmptyString => None
  end.

Fixpoint power (n : nat) (r tail : regex) : regex := match n with O => tail | S n => RCat r (power n r tail) end.

(** The count of a repetition [{n,}]. *)
Fixpoint parseCount (s : string) (n : nat) : option (nat * string) :=
  match s with
  | String "," (String "}" s) => Some (n, s)
  | String a s =>
    let d := byteZ a - 48 in
    if (0 <=? d) && (d <=? 9) then parseCount s (n * 10 + Z.to_nat d)%nat else None
  | EmptyString => None
  end.

(** The repetition operator after an atom, if any. *)
Definition quantified (r : regex) (s : string) : option (regex * string) :=
  match s with
  | String "*" (String "?" s) => Some (RStar false r, s)
  | String "*" s => Some (RStar true r, s)
  | String "+" s => Some (RCat r (RStar true r), s)
  | String "?" s => Some (RAlt r REmpty, s)
  | String "{" s => match parseCount s 0 with Some (n, s) => Some (power n r (RStar true r), s) | None => None end
  | _ => Some (r, s)
  end.

Section parser.
Context (fold : bool).

(** Alternatives of sequences of atoms; [g] counts the groups. *)
Fixpoint parseAlt (fuel : nat) (g : nat) (s : string) : option (regex * string * nat) :=
  match fuel with
  | O => None
  | S fuel =>
    match parseCat fuel g s with
    | Some (r, String "|" s, g) =>
      match parseAlt fuel g s with Some (r', s, g) => Some (RAlt r r', s, g) | None => None end
    | x => x
    end
  end
with parseCat (fuel : nat) (g : nat) (s : string) : option (regex * string * nat) :=
  match fuel with
  | O => None
  | S fuel =>
    match s with
    | EmptyString => Some (REmpty, s, g)
    | String ")" _ => Some (REmpty, s, g)
    | String "|" _ => Some (REmpty, s, g)
    | _ =>
      match parseAtom fuel g s with
      | None => None
      | Some (r, s, g) =>
        match quantified r s with
        | None => None
        | Some (r, s) =>
          match parseCat fuel g s with Some (r', s, g) => Some (RCat r r', s, g) | None => None end
        end
      end
    end
  end
with parseAtom (fuel : nat) (g : nat) (s : string) : option (regex * string * nat) :=
  match fuel with
  | O => None
  | S fuel =>
    match s with
    | String "(" (String "?" (String ":" s)) =>
      match parseAlt fuel g s with Some (r, String ")" s, g) => Some (r, s, g) | _ => None end
    | String "(" s =>
      match parseAlt fuel (S g) s with Some (r, String ")" s, g') => Some (RGroup (S g) r, s, g') | _ => None end
    | String "[" (String "^" s) =>
      match parseClass s [] with Some (rs, s) => Some (RClass (mkCls fold true rs), s, g) | None => None end
    | String "[" s =>
      match parseClass s [] with Some (rs, s) => Some (RClass (mkCls fold false rs), s, g) | None => None end
    | String "\" (String "b" s) => Some (RWord, s, g)
    | String "\" (String a s) => Some (RClass (mkCls fold false (escape a)), s, g)
    | String "^" s => Some (RBegin, s, g)
    | String "$" s => Some (REnd, s, g)
    | String a s => Some (lit fold a, s, g)
    | EmptyString => None
    end
  end.
End parser.

Definition compile (s : string) : option regex :=
  let go fold s :=
    match parseAlt fold (4 * S (String.length s)) 0 s with Some (r, EmptyString, _) => Some r | _ => None end in
  match s with
  | String "(" (String "?" (String "i" (String ")" s))) => go true s
  | _ => go false s
  end.
(** A pattern that is not one stands for a class without members; every use
    below is shown to compile. *)
Definition MustCompile (s : string) : regex := default (RClass (mkCls false false [])) (compile s).

(** A double quote, for patterns. *)
Definition dq : string := String (ascii_of_nat 34) "".

Example compile_ex : compile "^git (push|tag)\b" ≠ None.
Proof. vm_compute. discriminate. Qed.
Example submatch_ex :
  (λ m, (m 1%nat, m 2%nat, m 3%nat)) <$> FindStringSubmatch (MustCompile "^@@ -\d+(?:,(\d+))? \+(\d+)(?:,(\d+))? @@") "@@ -10,0 +11,2 @@ f"
  = Some ("0", "11", "2").
Proof. vm_compute. reflexivity. Qed.
Example replace_ex :
  ReplaceAllString (MustCompile "(?i)(key|token)\s*[:=]\s*[^\s]{6,}") "a Key: secret1 token=short api_tokeN =abcdef" "[X]"
  = "a [X] token=short api_[X]".
Proof. vm_compute. reflexivity. Qed.

(** * What a pattern matches *)

Inductive M : regex → Pos → Pos → Prop :=
| M_empty p : M REmpty p p
| M_class c prev x t : inClass c x.1 = true → M (RClass c) (prev, x :: t) (Some x.1, t)
| M_cat r1 r2 p q q' : M r1 p q → M r2 q q' → M (RCat r1 r2) p q'
| M_left r1 r2 p q : M r1 p q → M (RAlt r1 r2) p q
| M_right r1 r2 p q : M r2 p q → M (RAlt r1 r2) p q
| M_stop g r p : M (RStar g r) p p
| M_more g r p q q' : M r p q → (length q.2 < length p.2)%nat → M (RStar g r) q q' → M (RStar g r) p q'
| M_group n r p q : M r p q → M (RGroup n r) p q
| M_begin t : M RBegin (None, t) (None, t)
| M_end prev : M REnd (prev, []) (prev, [])
| M_word p : atWordBoundary p = true → M RWord p p.

Section correct.
Context {A : Type}.
Implicit Types (k : Pos → Captures → option A).

Lemma orElse_Some (x y : option A) a : orElse x y = Some a → x = Some a ∨ y = Some a.
Proof. destruct x; simpl; auto. Qed.
Lemma orElse_None (x y : option A) : x ≠ None ∨ y ≠ None → orElse x y ≠ None.
Proof. destruct x; simpl; [done|tauto]. Qed.

Lemma step_sound r : ∀ p env k a, step r p env k = Some a → ∃ q env', M r p q ∧ k q env' = Some a.
Proof.
  induction r as [|c|r1 IH1 r2 IH2|r1 IH1 r2 IH2|g r IH|n r IH| | |]; intros [prev t] env k a; simpl.
  - eauto using M_empty.
  - destruct t as [|x t]; [done|]. destruct (inClass c x.1) eqn:E; [|done]. eauto using M_class.
  - intros H. apply IH1 in H as (q & env' & H1 & (q' & env'' & H2 & H3)%IH2). eauto using M_cat.
  - intros [(q & env' & H1 & H2)%IH1|(q & env' & H1 & H2)%IH2]%orElse_Some; eauto using M_left, M_right.
  - generalize (length t) as fuel. intros fuel. revert prev t env. induction fuel as [|fuel IHf]; intros prev t env;
      cbn [starLoop snd]; (destruct g; intros [H|H]%orElse_Some); try done; eauto using M_stop.
    all: apply IH in H as (q & env' & H1 & H2); cbn [snd] in H2; destruct (Nat.ltb_spec (length q.2) (length t)) as [Hlt|]; [|done];
      destruct q as [prev' t']; apply IHf in H2 as (q' & env'' & H3 & H4); exists q', env''; split; [|done]; by eapply M_more.
  - intros H. apply IH in H as (q & env' & H1 & H2). eauto using M_group.
  - destruct prev; [done|]. eauto using M_begin.
  - destruct t; [|done]. eauto using M_end.
  - destruct (atWordBoundary (prev, t)) eqn:E; [|done]. eauto using M_word.
Qed.

Lemma step_complete r : ∀ p q, M r p q → ∀ env k, (∀ env', k q env' ≠ None) → step r p env k ≠ None.
Proof.
  induction r as [|c|r1 IH1 r2 IH2|r1 IH1 r2 IH2|g r IH|n r IH| | |]; intros p q HM env k Hk.
  1-4, 6-9: inversion HM; subst; simpl.
  - done.
  - match goal with H : _ = true |- _ => by rewrite H end.
  - eapply IH1; [done|]. intros env'. by eapply IH2.
  - apply orElse_None. left. by eapply IH1.
  - apply orElse_None. right. by eapply IH2.
  - by eapply IH.
  - done.
  - done.
  - match goal with H : _ = true |- _ => by rewrite H end.
  - assert (∀ fuel env, (length p.2 ≤ fuel)%nat → starLoop (step r) g k fuel p env ≠ None) as Hl; [|by apply Hl].
    remember (RStar g r) as rs eqn:Ers. induction HM; simplify_eq; intros fuel env' Hf.
    + destruct fuel; cbn [starLoop]; case_match; apply orElse_None; auto.
    + destruct fuel as [|fuel]; [lia|]. cbn [starLoop].
      match goal with |- context [step ?r p env' ?k'] => assert (step r p env' k' ≠ None) as Hs end.
      { eapply IH; [done|]. intros env''. destruct (Nat.ltb_spec (length q.2) (length p.2)); [|lia].
        apply IHHM2; [done|done|lia]. }
      case_match; apply orElse_None; [left|right]; exact Hs.
Qed.
End correct.

Lemma match_sound r p q env : matchAt r p = Some (q, env) → M r p q.
Proof. intros H. apply step_sound in H as (q' & env' & H & E). by simplify_eq. Qed.
Lemma match_complete r p q : M r p q → matchAt r p ≠ None.
Proof. intros H. eapply step_complete; [exact H|]. done. Qed.

(** The code point before the text that follows [pre]. *)
Definition prevOf (prev : option Z) (pre : list Sym) : option Z :=
  match last pre with Some x => Some x.1 | None => prev end.

Lemma prevOf_cons prev x pre : prevOf prev (x :: pre) = prevOf (Some x.1) pre.
Proof. unfold prevOf. rewrite last_cons. by destruct (last pre). Qed.

Lemma search_Some r t : ∀ prev pre q env, searchFrom r prev t = Some (pre, q, env) →
  ∃ s, t = pre ++ s ∧ matchAt r (prevOf prev pre, s) = Some (q, env).
Proof.
  induction t as [|x t IH]; intros prev pre q env; simpl; destruct (matchAt r _) as [[q' env']|] eqn:E.
  - intros [= <- <- <-]. by exists [].
  - done.
  - intros [= <- <- <-]. by exists (x :: t).
  - destruct (searchFrom r (Some x.1) t) as [[[pre' q'] env']|] eqn:Es; [|done]. intros [= <- <- <-].
    apply IH in Es as (s & -> & Hm). exists s. by rewrite prevOf_cons.
Qed.

Lemma search_None r t : ∀ prev, searchFrom r prev t = None ↔ ∀ pre s, t = pre ++ s → matchAt r (prevOf prev pre, s) = None.
Proof.
  induction t as [|x t IH]; intros prev; simpl; destruct (matchAt r _) as [[q' env']|] eqn:E.
  - split; [done|]. intros H. by specialize (H [] [] eq_refl); unfold prevOf in H; simpl in H; congruence.
  - split; [|done]. intros _ pre s Hs. symmetry in Hs. by apply app_nil in Hs as [-> ->].
  - split; [done|]. intros H. specialize (H [] (x :: t) eq_refl). unfold prevOf in H; simpl in H; congruence.
  - specialize (IH (Some x.1)). destruct (searchFrom r (Some x.1) t) as [[[pre' q'] env']|].
    + split; [done|]. intros H. assert (Some (pre', q', env') = None) as [=]. apply IH. intros pre s ->.
      rewrite <-(prevOf_cons prev). by apply H.
    + split; [|done]. intros _ [|y pre] s Hs; simplify_list_eq; [done|]. rewrite prevOf_cons. by apply IH.
Qed.

(** [MatchString] is true exactly when the pattern matches somewhere. *)
Lemma MatchString_spec r s : MatchString r s = true ↔
  ∃ pre t q, decode s = pre ++ t ∧ M r (prevOf None pre, t) q.
Proof.
  unfold MatchString. destruct (searchFrom r None (decode s)) as [[[pre q] env]|] eqn:E; split; try done.
  - intros _. apply search_Some in E as (t & Ht & Hm). exists pre, t, q. split; [done|by eapply match_sound].
  - intros (pre & t & q & Ht & Hm). apply match_complete in Hm. by destruct Hm; eapply search_None in E.
Qed.

(** * Text *)

Lemma decodeRune_bytes a s : (decodeRune a s).1.2 +:+ (decodeRune a s).2 = String a s.
Proof. unfold decodeRune. repeat case_match; done. Qed.
Lemma decodeRune_length a s : (String.length (decodeRune a s).2 ≤ String.length s)%nat.
Proof. unfold decodeRune. repeat case_match; simpl; lia. Qed.

(** Decoding loses nothing. *)
Lemma bytes_decode s : bytes (decode s) = s.
Proof.
  unfold decode. assert (String.length s ≤ String.length s)%nat as H by lia. revert H.
  generalize (String.length s) at 2 3 as fuel. intros fuel. revert s.
  induction fuel as [|fuel IH]; intros [|a s] H; simpl in *; [done|lia|done|].
  rewrite IH; [apply decodeRune_bytes|]. pose proof (decodeRune_length a s). lia.
Qed.

(** Nothing is replaced where nothing matches. *)
Lemma Replace_nomatch r s f : MatchString r s = false → ReplaceAllStringFunc r s f = s.
Proof.
  unfold MatchString, ReplaceAllStringFunc. simpl. destruct (searchFrom _ _ _); [done|]. intros _. apply bytes_decode.
Qed.

(** * The strings a pattern matches

    The language of a pattern, forgetting where anchors and word boundaries
    hold. *)

Definition okSym (x : Sym) : Prop := x.1 < 128 → x.2 = String (ascii_of_N (Z.to_N x.1)) "".

Inductive SL : regex → string → Prop :=
| SL_empty : SL REmpty ""
| SL_class c x : inClass c x.1 = true → okSym x → SL (RClass c) x.2
| SL_cat r1 r2 s1 s2 : SL r1 s1 → SL r2 s2 → SL (RCat r1 r2) (s1 +:+ s2)
| SL_left r1 r2 s : SL r1 s → SL (RAlt r1 r2) s
| SL_right r1 r2 s : SL r2 s → SL (RAlt r1 r2) s
| SL_stop g r : SL (RStar g r) ""
| SL_more g r s1 s2 : SL r s1 → SL (RStar g r) s2 → SL (RStar g r) (s1 +:+ s2)
| SL_group n r s : SL r s → SL (RGroup n r) s
| SL_begin : SL RBegin ""
| SL_end : SL REnd ""
| SL_word : SL RWord "".

Lemma bytes_app t u : bytes (t ++ u) = bytes t +:+ bytes u.
Proof. induction t as [|x t IH]; simpl; [done|]. by rewrite IH, str_app_assoc. Qed.

Lemma M_SL r p q : M r p q → Forall okSym p.2 → ∃ u, p.2 = u ++ q.2 ∧ SL r (bytes u).
Proof.
  induction 1 as [p|c prev x t Hc|r1 r2 p q q' _ IH1 _ IH2|r1 r2 p q _ IH|r1 r2 p q _ IH|g r p|g r p q q' _ IH1 _ _ IH2|
    n r p q _ IH|t|prev|p Hp]; intros Hok; simpl in *.
  - exists []. split; [done|constructor].
  - inversion Hok; subst. exists [x]. split; [done|]. simpl. rewrite str_app_nil_r. by constructor.
  - destruct IH1 as (u & E1 & H1); [done|]. destruct IH2 as (v & E2 & H2); [rewrite E1 in Hok; by apply Forall_app in Hok as [_ ?]|].
    exists (u ++ v). rewrite E1, E2, app_assoc, bytes_app. split; [done|by constructor].
  - destruct IH as (u & ? & ?); [done|]. exists u. split; [done|by apply SL_left].
  - destruct IH as (u & ? & ?); [done|]. exists u. split; [done|by apply SL_right].
  - exists []. split; [done|constructor].
  - destruct IH1 as (u & E1 & H1); [done|]. destruct IH2 as (v & E2 & H2); [rewrite E1 in Hok; by apply Forall_app in Hok as [_ ?]|].
    exists (u ++ v). rewrite E1, E2, app_assoc, bytes_app. split; [done|by constructor].
  - destruct IH as (u & ? & ?); [done|]. exists u. split; [done|by apply SL_group].
  - exists []. split; [done|constructor].
  - exists []. split; [done|constructor].
  - exists []. split; [done|constructor].
Qed.

(** Patterns that begin with [^], and that end with [$]. *)
Definition beginsAnchored (r : regex) : bool := match r with RCat RBegin _ => true | _ => false end.
Fixpoint endsAnchored (r : regex) : bool :=
  match r with
  | RCat REnd REmpty => true
  | RCat _ r => endsAnchored r
  | _ => false
  end.
Lemma begins_anchored r p q : beginsAnchored r = true → M r p q → p.1 = None.
Proof. destruct r as [| |[]| | | | | |]; try done. intros _ HM. inversion HM as [| |? ? ? ? ? H| | | | | | | |]; subst. by inversion H. Qed.
Lemma ends_anchored r : endsAnchored r = true → ∀ p q, M r p q → q.2 = [].
Proof.
  induction r as [| |r1 _ r2 IH| | | | | |]; try done. intros He p q HM.
  inversion HM as [| |? ? ? q1 ? H1 H2| | | | | | | |]; subst.
  destruct r1; try by eapply IH. destruct r2; try by eapply IH. inversion H2; subst. by inversion H1.
Qed.

Lemma lor_small a b : 0 ≤ a → 0 ≤ b → Z.lor a b < 128 → a < 128 ∧ b < 128.
Proof.
  intros Ha Hb H. assert (Z.shiftr (Z.lor a b) 7 = 0) as E.
  { rewrite Z.shiftr_div_pow2 by lia. apply Z.div_small. pose proof (proj2 (Z.lor_nonneg a b) (conj Ha Hb)). lia. }
  rewrite Z.shiftr_lor in E. pose proof (Z.lor_eq_0_l _ _ E) as E1. rewrite Z.lor_comm in E. apply Z.lor_eq_0_l in E.
  rewrite Z.shiftr_div_pow2 in E, E1 by lia. change (2 ^ 7) with 128 in E, E1.
  apply Z.div_small_iff in E; [|lia]. apply Z.div_small_iff in E1; [|lia]. lia.
Qed.

Lemma byteZ_range a : 0 ≤ byteZ a < 256.
Proof. unfold byteZ. destruct a as [[] [] [] [] [] [] [] []]; vm_compute; split; discriminate || reflexivity. Qed.

(** A byte among 192..255 keeps enough of its low bits. *)
Lemma lead_bits a n lo hi : lead (byteZ a) = Some (n, lo, hi) →
  match n with
  | 2%nat => 2 ≤ Z.land (byteZ a) 31
  | 3%nat => 1 ≤ Z.land (byteZ a) 15 ∨ lo = 160 ∧ hi = 191
  | 4%nat => 1 ≤ Z.land (byteZ a) 7 ∨ lo = 144 ∧ hi = 191
  | _ => False
  end.
Proof. destruct a as [[] [] [] [] [] [] [] []]; vm_compute; intros E; simplify_eq; first [discriminate|by left|by right|idtac]. Qed.

Lemma cont_bits a lo : (lo = 160 ∨ lo = 144) → contByte a lo 191 = true → 16 ≤ low6 a.
Proof.
  destruct a as [[] [] [] [] [] [] [] []]; (intros [-> | ->]); vm_compute; intros E; first [discriminate E|intros ?; discriminate].
Qed.

Lemma low6_nonneg a : 0 ≤ low6 a.
Proof. apply Z.land_nonneg. right. lia. Qed.

Lemma decodeRune_ok a s : okSym (decodeRune a s).1.
Proof.
  assert (∀ n, 0 ≤ Z.land (byteZ a) n) as Hpos.
  { intros n. apply Z.land_nonneg. left. pose proof (byteZ_range a). lia. }
  assert (∀ x k, 0 ≤ x → 0 ≤ Z.shiftl x k) as Hsh by (intros; by apply Z.shiftl_nonneg).
  assert (∀ x y, 0 ≤ x → 0 ≤ y → 0 ≤ Z.lor x y) as Hlor by (intros; by apply Z.lor_nonneg).
  pose proof low6_nonneg as Hlow.
  unfold decodeRune. destruct (Z.ltb_spec (byteZ a) 128) as [Hlt|Hge].
  { intros _. simpl. unfold byteZ. by rewrite N2Z.id, ascii_N_embedding. }
  assert (okSym (runeError, String a "")) as Hbad by (intros H; vm_compute in H; discriminate).
  destruct (lead (byteZ a)) as [[[n lo] hi]|] eqn:Hl; [|exact Hbad].
  pose proof (lead_bits a n lo hi Hl) as Hbits.
  destruct n as [|[|[|[|[|n]]]]]; try exact Hbad.
  - destruct s as [|a1 s]; [exact Hbad|]. case_match eqn:Hc; [|exact Hbad]. intros H. exfalso. cbn [fst] in H.
    apply lor_small in H as [H _]; [|auto|auto]. rewrite Z.shiftl_mul_pow2 in H by lia. lia.
  - destruct s as [|a1 [|a2 s]]; try exact Hbad. case_match eqn:Hc; [|exact Hbad]. intros H. exfalso. cbn [fst] in H.
    apply andb_true_iff in Hc as [Hc _].
    apply lor_small in H as [H1 H]; [|auto|auto]. apply lor_small in H as [H2 _]; [|auto|auto].
    rewrite Z.shiftl_mul_pow2 in H1, H2 by lia. destruct Hbits as [?|[-> ->]]; [lia|].
    apply cont_bits in Hc; [lia|by left].
  - destruct s as [|a1 [|a2 [|a3 s]]]; try exact Hbad. case_match eqn:Hc; [|exact Hbad]. intros H. exfalso. cbn [fst] in H.
    apply andb_true_iff in Hc as [[Hc _]%andb_true_iff _].
    apply lor_small in H as [H1 H]; [|auto|auto 10]. apply lor_small in H as [H2 _]; [|auto|auto 10].
    rewrite Z.shiftl_mul_pow2 in H1, H2 by lia. destruct Hbits as [?|[-> ->]]; [lia|].
    apply cont_bits in Hc; [lia|by right].
Qed.

Lemma decode_ok s : Forall okSym (decode s).
Proof.
  unfold decode. generalize (String.length s) as fuel. intros fuel. revert s.
  induction fuel as [|fuel IH]; intros [|a s]; simpl; constructor; [apply decodeRune_ok|apply IH].
Qed.

(** A string that a pattern anchored on both sides matches is in its
    language. *)
Lemma Match_anchored r s : beginsAnchored r = true → endsAnchored r = true → MatchString r s = true → SL r s.
Proof.
  intros Hb He (pre & t & q & Ht & HM)%MatchString_spec.
  pose proof (begins_anchored _ _ _ Hb HM) as Hp. pose proof (ends_anchored _ He _ _ HM) as Hq.
  assert (pre = []) as ->.
  { unfold prevOf in Hp. simpl in Hp. destruct (last pre) eqn:E; [done|]. by apply last_None in E. }
  apply M_SL in HM as (u & Hu & HS).
  - simpl in Hu. rewrite Hq, app_nil_r in Hu. subst u. simpl in Ht. by rewrite <-(bytes_decode s), Ht.
  - simpl. simpl in Ht. rewrite <-Ht. apply decode_ok.
Qed.

(** ... and one anchored at the beginning matches a prefix. *)
Lemma Match_prefix r s : beginsAnchored r = true → MatchString r s = true → ∃ s1 s2, s = s1 +:+ s2 ∧ SL r s1.
Proof.
  intros Hb (pre & t & q & Ht & HM)%MatchString_spec. pose proof (begins_anchored _ _ _ Hb HM) as Hp.
  assert (pre = []) as ->.
  { unfold prevOf in Hp. simpl in Hp. destruct (last pre) eqn:E; [done|]. by apply last_None in E. }
  apply M_SL in HM as (u & Hu & HS).
  - exists (bytes u), (bytes q.2). split; [|done]. rewrite <-bytes_app. simpl in Hu, Ht. by rewrite <-Hu, <-Ht, bytes_decode.
  - simpl. simpl in Ht. rewrite <-Ht. apply decode_ok.
Qed.

(** ** Characters of the text *)

Lemma list_ascii_app s t : String.list_ascii_of_string (s +:+ t) = String.list_ascii_of_string s ++ String.list_ascii_of_string t.
Proof.
  induction s as [|a s IH]; [done|]. change (String a s +:+ t) with (String a (s +:+ t)). simpl. by rewrite IH.
Qed.

Lemma lead_lo b n lo hi : lead b = Some (n, lo, hi) → 128 ≤ lo.
Proof. unfold lead. repeat case_match; intros; simplify_eq; lia. Qed.

(** An ASCII byte is a code point of its own. *)
Lemma decodeRune_ascii a s c : c ∈ String.list_ascii_of_string (decodeRune a s).1.2 → byteZ c < 128 →
  (decodeRune a s).1.1 = byteZ c.
Proof.
  unfold decodeRune. destruct (Z.ltb_spec (byteZ a) 128) as [Hlt|Hge]; [simpl; set_solver|].
  assert (∀ x lo hi, contByte x lo hi = true → 128 ≤ lo → 128 ≤ byteZ x) as Hc.
  { unfold contByte. intros x lo hi [? _]%andb_true_iff ?. lia. }
  assert (c ∈ String.list_ascii_of_string (String a "") → byteZ c < 128 → runeError = byteZ c) as Hbad.
  { simpl. intros ?%list_elem_of_singleton ?. subst. lia. }
  destruct (lead (byteZ a)) as [[[n lo] hi]|] eqn:Hl; [|exact Hbad]. apply lead_lo in Hl.
  destruct n as [|[|[|[|[|n]]]]]; try exact Hbad.
  - destruct s as [|a1 s]; [exact Hbad|]. case_match eqn:E; [|exact Hbad]. apply Hc in E; [|done]. simpl.
    rewrite !elem_of_cons. intros [->|[->|[]%not_elem_of_nil]]; lia.
  - destruct s as [|a1 [|a2 s]]; try exact Hbad. case_match eqn:E; [|exact Hbad]. apply andb_true_iff in E as [E1 E2].
    apply Hc in E1, E2; [|done..]. simpl. rewrite !elem_of_cons. intros [->|[->|[->|[]%not_elem_of_nil]]]; lia.
  - destruct s as [|a1 [|a2 [|a3 s]]]; try exact Hbad. case_match eqn:E; [|exact Hbad].
    apply andb_true_iff in E as [[E1 E2]%andb_true_iff E3]. apply Hc in E1, E2, E3; [|done..]. simpl. rewrite !elem_of_cons.
    intros [->|[->|[->|[->|[]%not_elem_of_nil]]]]; lia.
Qed.

Lemma decode_ascii s c : c ∈ String.list_ascii_of_string s → byteZ c < 128 →
  ∃ pre x post, decode s = pre ++ x :: post ∧ x.1 = byteZ c.
Proof.
  intros Hin Hc. assert (∃ x, x ∈ decode s ∧ x.1 = byteZ c) as (x & (pre & post & E)%list_elem_of_split & Hx); [|by exists pre, x, post].
  revert Hin. rewrite <-(bytes_decode s) at 1.
  assert (∀ fuel s, c ∈ String.list_ascii_of_string (bytes (decodeFuel fuel s)) → ∃ x, x ∈ decodeFuel fuel s ∧ x.1 = byteZ c) as H;
    [|apply H].
  clear s. intros fuel. induction fuel as [|fuel IH]; intros [|a s]; simpl; try by intros []%not_elem_of_nil.
  rewrite list_ascii_app, elem_of_app. intros [H|(x & Hx & E)%IH].
  - eexists. split; [apply list_elem_of_here|]. by apply decodeRune_ascii.
  - exists x. split; [by apply list_elem_of_further|done].
Qed.

Lemma decode_cons a s : byteZ a < 128 → decode (String a s) = (byteZ a, String a "") :: decode s.
Proof. intros H. unfold decode. cbn [String.length decodeFuel]. unfold decodeRune. by rewrite (proj2 (Z.ltb_lt _ _) H). Qed.

(** Text of ASCII characters, decoded. *)
Definition sym (a : ascii) : Sym := (byteZ a, String a "").
Definition syms (s : string) : list Sym := sym <$> String.list_ascii_of_string s.

Lemma bytes_syms s : bytes (syms s) = s.
Proof. induction s as [|a s IH]; [done|]. change (String a (bytes (syms s)) = String a s). by rewrite IH. Qed.
Lemma decode_syms s t : Forall (λ a, byteZ a < 128) (String.list_ascii_of_string s) → decode (s +:+ t) = syms s ++ decode t.
Proof.
  induction s as [|a s IH]; [done|]. intros H. inversion H; subst. change (String a s +:+ t) with (String a (s +:+ t)).
  rewrite decode_cons by done. by rewrite IH.
Qed.

(** ** Runs of a class *)

(** A greedy repetition of a class takes the whole run, if what follows
    succeeds from there. *)
Lemma star_run {A} (c : cls) (k : Pos → Captures → option A) (ds rest : list Sym) env a :
  Forall (λ x, inClass c x.1 = true) ds → match rest with x :: _ => inClass c x.1 = false | [] => True end → ∀ fuel prev,
  (length (ds ++ rest) ≤ fuel)%nat → k (prevOf prev ds, rest) env = Some a →
  starLoop (step (RClass c)) true k fuel (prev, ds ++ rest) env = Some a.
Proof.
  intros Hds Hrest. induction Hds as [|x ds Hx _ IH]; intros fuel prev Hf Hk.
  - unfold prevOf in Hk. simpl in *. destruct fuel as [|fuel]; cbn [starLoop]; [by rewrite Hk|].
    destruct rest as [|y rest]; simpl; [by rewrite Hk|]. by rewrite Hrest, Hk.
  - destruct fuel as [|fuel]; simpl in Hf; [lia|]. cbn [starLoop]. simpl. rewrite Hx.
    rewrite (proj2 (Nat.ltb_lt _ _)) by lia. rewrite prevOf_cons in Hk. specialize (IH fuel (Some x.1) ltac:(lia) Hk).
    simpl in IH. by rewrite IH.
Qed.
Lemma plus_run {A} (c : cls) (k : Pos → Captures → option A) (ds rest : list Sym) env a prev : ds ≠ [] →
  Forall (λ x, inClass c x.1 = true) ds → match rest with x :: _ => inClass c x.1 = false | [] => True end →
  k (prevOf prev ds, rest) env = Some a → step (RCat (RClass c) (RStar true (RClass c))) (prev, ds ++ rest) env k = Some a.
Proof.
  intros Hne Hds Hrest Hk. destruct Hds as [|x ds Hx Hds]; [done|]. simpl. rewrite Hx. rewrite prevOf_cons in Hk.
  by apply star_run.
Qed.
Lemma plus_syms {A} rs s (k : Pos → Captures → option A) rest env a prev :
  Forall (λ b, inRanges rs (byteZ b) = true) (String.list_ascii_of_string s) → s ≠ "" →
  match rest with x :: _ => inRanges rs x.1 = false | [] => True end → k (prevOf prev (syms s), rest) env = Some a →
  step (RCat (RClass (mkCls false false rs)) (RStar true (RClass (mkCls false false rs)))) (prev, syms s ++ rest) env k = Some a.
Proof.
  intros Hs Hne Hr Hk. apply plus_run; [by destruct s| | |done].
  - unfold syms. apply Forall_fmap. eapply Forall_impl; [exact Hs|]. intros x Hx. unfold compose, inClass. cbn [c_fold c_neg c_ranges existsb xorb sym fst].
    by rewrite Hx.
  - destruct rest as [|x rest]; [done|]. unfold inClass. cbn [c_fold c_neg c_ranges existsb xorb]. by rewrite Hr.
Qed.
Lemma between_app prev q ds rest : between (prev, ds ++ rest) (q, rest) = ds.
Proof. unfold between. simpl. rewrite length_app. replace (_ + _ - _)%nat with (length ds) by lia. by rewrite take_app_length. Qed.

(** * Inversion of the language of a pattern *)

(** All characters in some ranges. *)
Definition allIn (rs : list (Z * Z)) (s : string) : bool :=
  forallb (λ a, inRanges rs (byteZ a)) (String.list_ascii_of_string s).
Definition concatS : list string → string := foldr String.append "".

Lemma allIn_app rs s t : allIn rs (s +:+ t) = allIn rs s && allIn rs t.
Proof. unfold allIn. by rewrite list_ascii_app, forallb_app. Qed.

Lemma SL_cat_inv r1 r2 s : SL (RCat r1 r2) s → ∃ s1 s2, s = s1 +:+ s2 ∧ SL r1 s1 ∧ SL r2 s2.
Proof. inversion 1; subst. eauto. Qed.
Lemma SL_alt_inv r1 r2 s : SL (RAlt r1 r2) s → SL r1 s ∨ SL r2 s.
Proof. inversion 1; subst; auto. Qed.
Lemma SL_group_inv n r s : SL (RGroup n r) s → SL r s.
Proof. by inversion 1; subst. Qed.
Lemma SL_empty_inv s : SL REmpty s → s = "".
Proof. by inversion 1. Qed.
Lemma SL_end_inv s : SL REnd s → s = "".
Proof. by inversion 1. Qed.
Lemma SL_begin_inv s : SL RBegin s → s = "".
Proof. by inversion 1. Qed.
Lemma SL_word_inv s : SL RWord s → s = "".
Proof. by inversion 1. Qed.

(** A class of ASCII characters. *)
Lemma SL_class_inv rs s : forallb (λ r, r.2 <? 128)%Z rs && forallb (λ r, 0 <=? r.1)%Z rs = true →
  SL (RClass (mkCls false false rs)) s → ∃ a, s = String a "" ∧ inRanges rs (byteZ a) = true.
Proof.
  intros [H1 H2]%andb_true_iff HS. inversion HS as [|c x Hc Hx| | | | | | | | |]; subst. unfold inClass in Hc. simpl in Hc.
  rewrite orb_false_r in Hc.
  assert (0 ≤ x.1 < 128)%Z as Hr.
  { unfold inRanges in Hc. apply existsb_exists in Hc as (r & Hin & [Ha Hb]%andb_true_iff).
    rewrite forallb_forall in H1, H2. specialize (H1 r Hin). specialize (H2 r Hin). lia. }
  rewrite Hx by lia. eexists. split; [done|]. unfold byteZ. rewrite N_ascii_embedding by lia. by rewrite Z2N.id by lia.
Qed.

Lemma SL_char n r s : (0 ≤ n < 128)%Z → SL (RCat (RClass (mkCls false false [(n, n)])) r) s →
  ∃ s', s = String (ascii_of_N (Z.to_N n)) s' ∧ SL r s'.
Proof.
  intros Hn (s1 & s2 & -> & (a & -> & Ha)%SL_class_inv & H)%SL_cat_inv.
  - exists s2. split; [|done]. unfold inRanges in Ha. simpl in Ha. rewrite orb_false_r in Ha.
    assert (byteZ a = n) as <- by lia. unfold byteZ. by rewrite N2Z.id, ascii_N_embedding.
  - simpl. apply andb_true_iff. split; apply andb_true_iff; split; lia || done.
Qed.

Lemma SL_star_class g rs s : forallb (λ r, r.2 <? 128)%Z rs && forallb (λ r, 0 <=? r.1)%Z rs = true →
  SL (RStar g (RClass (mkCls false false rs))) s → allIn rs s = true.
Proof.
  intros Hrs HS. remember (RStar g _) as r eqn:E. induction HS; simplify_eq; [done|].
  apply SL_class_inv in HS1 as (a & -> & Ha); [|done]. unfold allIn in *. simpl. rewrite Ha. by apply IHHS2.
Qed.

Lemma SL_star_inv g r s : SL (RStar g r) s → ∃ l, s = concatS l ∧ Forall (SL r) l.
Proof.
  remember (RStar g r) as r' eqn:E. induction 1; simplify_eq; [by exists []|].
  destruct IHSL2 as (l & -> & Hl); [done|]. exists (s1 :: l). split; [done|by constructor].
Qed.

(** One or more characters of a class. *)
Lemma SL_plus_class rs s : forallb (λ r, r.2 <? 128)%Z rs && forallb (λ r, 0 <=? r.1)%Z rs = true →
  SL (RCat (RClass (mkCls false false rs)) (RStar true (RClass (mkCls false false rs)))) s → s ≠ "" ∧ allIn rs s = true.
Proof.
  intros Hrs (s1 & s2 & -> & (a & -> & Ha)%SL_class_inv & H%SL_star_class)%SL_cat_inv; [|done..].
  split; [done|]. unfold allIn in *. simpl. by rewrite Ha.
Qed.

Definition asciiRanges (rs : list (Z * Z)) : bool := forallb (λ r, r.2 <? 128)%Z rs && forallb (λ r, 0 <=? r.1)%Z rs.
(** A first character and the rest. *)
Definition item (first rest : list (Z * Z)) (s : string) : Prop :=
  ∃ a r, s = String a r ∧ inRanges first (byteZ a) = true ∧ allIn rest r = true.
Definition itemRegex (first rest : list (Z * Z)) (tail : regex) : regex :=
  RCat (RClass (mkCls false false first)) (RCat (RStar true (RClass (mkCls false false rest))) tail).

Lemma SL_item first rest tail s : asciiRanges first = true → asciiRanges rest = true → SL (itemRegex first rest tail) s →
  ∃ i s', s = i +:+ s' ∧ item first rest i ∧ SL tail s'.
Proof.
  intros Hf Hr (s1 & s2 & -> & (a & -> & Ha)%SL_class_inv & H)%SL_cat_inv; [|done].
  apply SL_cat_inv in H as (s3 & s4 & -> & H%SL_star_class & Ht); [|done].
  exists (String a s3), s4. split; [done|]. split; [by exists a, s3|done].
Qed.

(** A sequence of items, each after a separator. *)
Lemma SL_items n k first rest s : (0 ≤ n < 128)%Z → asciiRanges first = true → asciiRanges rest = true →
  SL (RStar true (RGroup k (RCat (RClass (mkCls false false [(n, n)])) (itemRegex first rest REmpty)))) s →
  ∃ l, s = concatS (String (ascii_of_N (Z.to_N n)) <$> l) ∧ Forall (item first rest) l.
Proof.
  intros Hn Hf Hr (l & -> & Hl)%SL_star_inv. induction Hl as [|x l Hx _ IH]; [by exists []|].
  apply SL_group_inv, SL_char in Hx as (s' & -> & Hx); [|done]. apply SL_item in Hx as (i & s'' & -> & Hi & ->%SL_empty_inv); [|done..].
  destruct IH as (l' & E & Hl'). exists (i :: l'). simpl. rewrite E, str_app_nil_r. split; [done|by constructor].
Qed.

(** Take a pattern apart: characters, groups, alternatives. *)
Ltac sl_step H :=
  lazymatch type of H with
  | SL (RCat (RClass (mkCls false false [(?n, ?n)])) _) _ => apply SL_char in H as (? & -> & H); [|lia]
  | SL (RCat RBegin _) _ => apply SL_cat_inv in H as (? & ? & -> & ->%SL_begin_inv & H)
  | SL (RCat RWord _) _ => apply SL_cat_inv in H as (? & ? & -> & ->%SL_word_inv & H)
  | SL (RCat REnd _) _ => apply SL_cat_inv in H as (? & ? & -> & ->%SL_end_inv & H)
  | SL REmpty _ => apply SL_empty_inv in H as ->
  | SL (RGroup _ _) _ => apply SL_group_inv in H
  end.

