(* ===== verification/GoStrings.v ===== *)
(** Functions of package strings and strconv that the checks on commands,
    diffs and paths use. *)

From Stdlib Require Import Ascii.
From stdpp Require Import base list strings sets.
From S2P Require Import Prelude Regex Paths.

(** [strings.HasSuffix]. *)
Definition HasSuffix (s suf : string) : bool :=
  (String.length suf <=? String.length s)
  && String.eqb (String.substring (String.length s - String.length suf) (String.length suf) s) suf.

(** [strings.TrimPrefix] and [strings.CutPrefix]. *)
Definition CutPrefix (s p : string) : option string :=
  if HasPrefix s p then Some (String.substring (String.length p) (String.length s - String.length p) s) else None.
Definition TrimPrefix (s p : string) : string := default s (CutPrefix s p).

(** [strings.Contains]. *)
Fixpoint Contains (s sub : string) : bool :=
  HasPrefix s sub || match s with String _ s => Contains s sub | EmptyString => false end.

(** [strings.Split] with a separator of one byte. *)
Fixpoint SplitByte (sep : ascii) (s : string) : list string :=
  match s with
  | EmptyString => [EmptyString]
  | String a s =>
    if Ascii.eqb a sep then EmptyString :: SplitByte sep s
    else match SplitByte sep s with w :: ws => String a w :: ws | [] => [String a EmptyString] end
  end.
Definition newline : ascii := ascii_of_N 10.
Definition nlString : string := String newline EmptyString.
(** [strings.Split(s, "\n")]. *)
Definition Lines (s : string) : list string := SplitByte newline s.

(** [unicode.IsSpace]. *)
Definition unicodeSpace (c : Z) : bool :=
  inRanges [(9, 13); (32, 32); (133, 133); (160, 160); (5760, 5760); (8192, 8202); (8232, 8233); (8239, 8239);
            (8287, 8287); (12288, 12288)]%Z c.

(** [strings.Fields]: the maximal runs of other code points. *)
Fixpoint fieldsFrom (t : list Sym) (word : string) : list string :=
  match t with
  | [] => if String.eqb word "" then [] else [word]
  | x :: t =>
    if unicodeSpace x.1 then (if String.eqb word "" then fieldsFrom t "" else word :: fieldsFrom t "")
    else fieldsFrom t (word +:+ x.2)
  end.
Definition Fields (s : string) : list string := fieldsFrom (decode s) "".

Example Fields_ex : Fields " git  diff --stat " = ["git"; "diff"; "--stat"].
Proof. reflexivity. Qed.
Example HasSuffix_ex : HasSuffix "a.go" ".go" = true ∧ HasSuffix "go" ".go" = false.
Proof. done. Qed.
Example CutPrefix_ex : CutPrefix "retract (" "retract" = Some " (" ∧ TrimPrefix "b/x" "b/" = "x" ∧ TrimPrefix "x" "b/" = "x".
Proof. done. Qed.

(** [strconv.Atoi] of a run of digits, at the 64-bit width: the value saturates
    (with an error the callers ignore). *)
Definition maxInt : Z := 9223372036854775807.
Fixpoint digitsFrom (s : string) (n : Z) : Z :=
  match s with
  | String a s => digitsFrom s (n * 10 + (Z.of_N (N_of_ascii a) - 48))%Z
  | EmptyString => n
  end.
Definition AtoiDigits (s : string) : Z := Z.min maxInt (digitsFrom s 0).

(** Two's complement at 64 bits. *)
Definition wrap64 (x : Z) : Z := ((x + 9223372036854775808) mod 18446744073709551616 - 9223372036854775808)%Z.

(** [strings.Join]. *)
Definition JoinWith (sep : string) (l : list string) : string := String.concat sep l.

(** [err.Error()]: the text of an error; the operands of [%q] are shown as they
    are. *)
Fixpoint render (fmt : string) (args ws : list string) : string :=
  match fmt with
  | EmptyString => EmptyString
  | String "%" (String v fmt) =>
    if Ascii.eqb v "w"
    then match ws with w :: ws => w +:+ render fmt args ws | [] => render fmt args ws end
    else match args with a :: args => a +:+ render fmt args ws | [] => render fmt args ws end
  | String a fmt => String a (render fmt args ws)
  end.
Fixpoint errorText (e : error) : string :=
  match e with
  | Const s => s
  | New s => s
  | Errorf fmt args ws => render fmt args (map errorText ws)
  | Joined es => JoinWith nlString (map errorText es)
  end.
Example errorText_ex : errorText (Errorf "%w: %s" ["path 'x' does not exist in 'main'"] [New "exit status 128"])
  = "exit status 128: path 'x' does not exist in 'main'".
Proof. reflexivity. Qed.

Lemma SplitByte_ne sep s : SplitByte sep s ≠ [].
Proof. destruct s as [|a s]; simpl; [done|]. case_match; [done|]. by destruct (SplitByte sep s). Qed.

(** Splitting undoes joining, for parts without the separator. *)
Lemma SplitByte_part sep w s : sep ∉ String.list_ascii_of_string w →
  SplitByte sep (w +:+ String sep s) = w :: SplitByte sep s.
Proof.
  induction w as [|a w IH]; intros H.
  - change ("" +:+ String sep s) with (String sep s). simpl. by rewrite Ascii.eqb_refl.
  - change (String a w +:+ String sep s) with (String a (w +:+ String sep s)). simpl in H. rewrite elem_of_cons in H.
    cbn [SplitByte]. rewrite (proj2 (Ascii.eqb_neq _ _)) by (intros ->; tauto). rewrite IH by tauto. done.
Qed.
Lemma SplitByte_last sep w : sep ∉ String.list_ascii_of_string w → SplitByte sep w = [w].
Proof.
  induction w as [|a w IH]; intros H; [done|]. simpl in H. rewrite elem_of_cons in H.
  cbn [SplitByte]. rewrite (proj2 (Ascii.eqb_neq _ _)) by (intros ->; tauto). by rewrite IH by tauto.
Qed.
Lemma Lines_Join ls : ls ≠ [] → Forall (λ l, newline ∉ String.list_ascii_of_string l) ls → Lines (JoinWith nlString ls) = ls.
Proof.
  intros Hne Hls. unfold Lines, JoinWith. induction Hls as [|l ls Hl Hls IH]; [done|].
  destruct ls as [|l2 ls]; [simpl; by apply SplitByte_last|].
  change (String.concat nlString (l :: l2 :: ls)) with (l +:+ String newline (String.concat nlString (l2 :: ls))).
  rewrite SplitByte_part by done. by rewrite IH.
Qed.

(** A string cut after its prefix. *)
Lemma substring_full s : String.substring 0 (String.length s) s = s.
Proof. induction s as [|a s IH]; [done|]. simpl. by rewrite IH. Qed.
Lemma substring_skip p s n : String.substring (String.length p) n (p +:+ s) = String.substring 0 n s.
Proof. induction p as [|a p IH]; [done|]. exact IH. Qed.
Lemma length_str_app p s : String.length (p +:+ s) = String.length p + String.length s.
Proof. induction p as [|a p IH]; [done|]. simpl. by f_equal. Qed.
Lemma CutPrefix_app p s : CutPrefix (p +:+ s) p = Some s.
Proof.
  unfold CutPrefix. unfold HasPrefix. rewrite prefix_app_str, substring_skip. f_equal.
  replace (String.length (p +:+ s) - String.length p) with (String.length s) by (rewrite length_str_app; lia). apply substring_full.
Qed.
Lemma TrimPrefix_app p s : TrimPrefix (p +:+ s) p = s.
Proof. unfold TrimPrefix. by rewrite CutPrefix_app. Qed.
