(* ===== verification/GoFlag.v ===== *)
(** What the command binaries use of packages flag, strconv and time: the parsing
    of a command line by a [flag.FlagSet] with [flag.ExitOnError], of booleans,
    and of durations.

    A flag set is a map from names to the current values, whose constructors are
    the kinds of flags.  The recursion is on the argument list. *)

From Stdlib Require Import Ascii.
From stdpp Require Import base gmap list strings.
From S2P Require Import Prelude Regex GoStrings.

(** * strconv.ParseBool *)

Definition ParseBool (s : string) : option bool :=
  if decide (s ∈ ["1"; "t"; "T"; "TRUE"; "true"; "True"]) then Some true
  else if decide (s ∈ ["0"; "f"; "F"; "FALSE"; "false"; "False"]) then Some false
  else None.

(** * strconv.Atoi *)

Definition isDigit (a : ascii) : bool := byte_in 48 57 a.
Definition digits (s : string) : bool := negb (String.eqb s "") && forallb isDigit (String.list_ascii_of_string s).
(** A decimal integer of 64 bits, [None] when it is none or does not fit. *)
Definition Atoi (s : string) : option Z :=
  let '(neg, d) :=
    match s with
    | String c rest => if byte_is 45 c then (true, rest) else if byte_is 43 c then (false, rest) else (false, s)
    | EmptyString => (false, s)
    end in
  if negb (digits d) then None
  else
    let v := digitsFrom d 0 in
    if neg then (if (maxInt + 1 <? v)%Z then None else Some (- v)%Z) else (if (maxInt <? v)%Z then None else Some v).

(** * time.ParseDuration *)

Definition digitVal (a : ascii) : Z := Z.of_N (N_of_ascii a) - 48.

(** [leadingInt]: the run of digits at the start, [None] when it exceeds 1<<63. *)
Fixpoint leadingInt (s : string) (x : Z) : option (Z * string) :=
  match s with
  | String c rest =>
    if negb (isDigit c) then Some (x, s)
    else if (9223372036854775808 / 10 <? x)%Z then None
    else let x := (x * 10 + digitVal c)%Z in if (9223372036854775808 <? x)%Z then None else leadingInt rest x
  | EmptyString => Some (x, s)
  end.
(** [leadingFraction]: digits beyond the range of an int64 are read and ignored. *)
Fixpoint leadingFraction (s : string) (x scale : Z) (overflow : bool) : Z * Z * string :=
  match s with
  | String c rest =>
    if negb (isDigit c) then (x, scale, s)
    else if overflow then leadingFraction rest x scale true
    else if (9223372036854775807 / 10 <? x)%Z then leadingFraction rest x scale true
    else let y := (x * 10 + digitVal c)%Z in
      if (9223372036854775808 <? y)%Z then leadingFraction rest x scale true else leadingFraction rest y (scale * 10)%Z false
  | EmptyString => (x, scale, s)
  end.
(** The bytes up to the next digit or point. *)
Fixpoint unitPrefix (s : string) : string * string :=
  match s with
  | String c rest =>
    if byte_is 46 c || isDigit c then (EmptyString, s) else let '(u, rest) := unitPrefix rest in (String c u, rest)
  | EmptyString => (EmptyString, EmptyString)
  end.
Definition microSign : string := String (ascii_of_N 194) (String (ascii_of_N 181) "s").
Definition greekMu : string := String (ascii_of_N 206) (String (ascii_of_N 188) "s").
Definition unitMap (u : string) : option Z :=
  if String.eqb u "ns" then Some 1%Z
  else if String.eqb u "us" || String.eqb u microSign || String.eqb u greekMu then Some 1000%Z
  else if String.eqb u "ms" then Some 1000000%Z
  else if String.eqb u "s" then Some 1000000000%Z
  else if String.eqb u "m" then Some 60000000000%Z
  else if String.eqb u "h" then Some 3600000000000%Z
  else None.

(** The kinds of flags, with their values. *)
Inductive FlagValue := FString (s : string) | FBool (b : bool) | FDuration (d : Z) | FJobs (jobs : list (string * string)).
Abbreviation FlagSet := (gmap string FlagValue).
Inductive FlagError := ErrHelp | Failf (msg : string).

Section durations.
(** [uint64(float64(f) * (float64(unit) / scale))], in floating point. *)
Context (fraction : Z → Z → Z → Z).

Definition two63 : Z := 9223372036854775808.
(** One number with its unit, and what follows; [None] is an error. *)
Definition durationPart (s : string) : option (Z * string) :=
  match leadingInt s 0 with
  | None => None
  | Some (v, s1) =>
    let pre := negb (String.length s1 =? String.length s) in
    let '(f, scale, s2, post) :=
      match s1 with
      | String c rest =>
        if byte_is 46 c
        then let '(f, scale, s2) := leadingFraction rest 0 1 false in (f, scale, s2, negb (String.length s2 =? String.length rest))
        else (0%Z, 1%Z, s1, false)
      | EmptyString => (0%Z, 1%Z, s1, false)
      end in
    if negb pre && negb post then None
    else
      let '(u, s3) := unitPrefix s2 in
      match unitMap u with
      | None => None
      | Some unit =>
        if (two63 / unit <? v)%Z then None
        else
          let v := (v * unit)%Z in
          let v := if (0 <? f)%Z then (v + fraction f unit scale)%Z else v in
          if (two63 <? v)%Z then None else Some (v, s3)
      end
  end.
(** The sum of the parts; each takes at least one byte, so the length of the
    string is enough fuel. *)
Fixpoint durationParts (fuel : nat) (s : string) (d : Z) : option Z :=
  match s, fuel with
  | EmptyString, _ => Some d
  | _, O => None
  | _, S fuel =>
    match durationPart s with
    | None => None
    | Some (v, s) => let d := (d + v)%Z in if (two63 <? d)%Z then None else durationParts fuel s d
    end
  end.
Definition ParseDuration (s : string) : option Z :=
  let '(neg, s) :=
    match s with
    | String c rest => if byte_is 45 c then (true, rest) else if byte_is 43 c then (false, rest) else (false, s)
    | EmptyString => (false, s)
    end in
  if String.eqb s "0" then Some 0%Z
  else if String.eqb s "" then None
  else
    match durationParts (String.length s) s 0 with
    | None => None
    | Some d => if neg then Some (- d)%Z else if (two63 - 1 <? d)%Z then None else Some d
    end.

(** * flag.FlagSet *)

(** [strings.Cut(s, "=")]: the part before the first equals sign, and the one
    after it if there is one. *)
Fixpoint cutEquals (s : string) : string * option string :=
  match s with
  | EmptyString => (EmptyString, None)
  | String c rest =>
    if Ascii.eqb c "=" then (EmptyString, Some rest)
    else let '(n, v) := cutEquals rest in (String c n, v)
  end.
(** [jobFlags.Set] of the provenanceci command: the flag collects its values. *)
Definition jobFlags_Set (jobs : list (string * string)) (value : string) : option (list (string * string)) :=
  match cutEquals value with
  | (name, Some result) => if String.eqb name "" || String.eqb result "" then None else Some (jobs ++ [(name, result)])
  | (_, None) => None
  end.

Definition isBoolFlag (v : FlagValue) : bool := match v with FBool _ => true | _ => false end.
(** [Value.Set]. *)
Definition SetFlag (v : FlagValue) (text : string) : option FlagValue :=
  match v with
  | FString _ => Some (FString text)
  | FBool _ => FBool <$> ParseBool text
  | FDuration _ => FDuration <$> ParseDuration text
  | FJobs jobs => FJobs <$> jobFlags_Set jobs text
  end.

(** The name and the value of what follows the dashes: an equals sign cannot be
    the first byte. *)
Inductive ArgShape := NotFlag | Terminator | BadSyntax | Named (name : string) (value : option string).
Definition argShape (s : string) : ArgShape :=
  match s with
  | String d (String c rest) =>
    if negb (Ascii.eqb d "-") then NotFlag
    else
      let name := if Ascii.eqb c "-" then rest else String c rest in
      if Ascii.eqb c "-" && String.eqb rest "" then Terminator
      else match name with
      | EmptyString => BadSyntax
      | String n _ => if Ascii.eqb n "-" || Ascii.eqb n "=" then BadSyntax
                      else let '(name, value) := cutEquals name in Named name value
      end
  | _ => NotFlag
  end.

(** [FlagSet.Parse]: the values, and the arguments that are left. *)
Fixpoint Parse (formal : FlagSet) (args : list string) : (FlagSet * list string) + FlagError :=
  match args with
  | [] => inl (formal, [])
  | s :: rest =>
    match argShape s with
    | NotFlag => inl (formal, args)
    | Terminator => inl (formal, rest)
    | BadSyntax => inr (Failf ("bad flag syntax: " +:+ s))
    | Named name value =>
      match formal !! name with
      | None =>
        if String.eqb name "help" || String.eqb name "h" then inr ErrHelp
        else inr (Failf ("flag provided but not defined: -" +:+ name))
      | Some v =>
        if isBoolFlag v then
          match SetFlag v (default "true" value) with
          | None => inr (Failf ("invalid boolean value for -" +:+ name))
          | Some v => Parse (<[name := v]> formal) rest
          end
        else
          match value, rest with
          | Some text, _ =>
            match SetFlag v text with
            | None => inr (Failf ("invalid value for flag -" +:+ name))
            | Some v => Parse (<[name := v]> formal) rest
            end
          | None, text :: rest =>
            match SetFlag v text with
            | None => inr (Failf ("invalid value for flag -" +:+ name))
            | Some v => Parse (<[name := v]> formal) rest
            end
          | None, [] => inr (Failf ("flag needs an argument: -" +:+ name))
          end
      end
    end
  end.
End durations.

(** [*fs.String(...)] and the like after parsing. *)
Definition getString (fs : FlagSet) (name : string) : string := match fs !! name with Some (FString s) => s | _ => "" end.
Definition getBool (fs : FlagSet) (name : string) : bool := match fs !! name with Some (FBool b) => b | _ => false end.
Definition getDuration (fs : FlagSet) (name : string) : Z := match fs !! name with Some (FDuration d) => d | _ => 0%Z end.
Definition getJobs (fs : FlagSet) (name : string) : list (string * string) := match fs !! name with Some (FJobs l) => l | _ => [] end.
(** What [flag.ExitOnError] exits with. *)
Definition flagExit (e : FlagError) : Z := match e with ErrHelp => 0 | Failf _ => 2 end.

Example Atoi_ex : Atoi "60" = Some 60%Z ∧ Atoi "-5" = Some (-5)%Z ∧ Atoi "+0" = Some 0%Z ∧ Atoi "" = None ∧ Atoi "5x" = None ∧ Atoi "-" = None ∧
  Atoi "9223372036854775807" = Some maxInt ∧ Atoi "9223372036854775808" = None.
Proof. vm_compute. repeat split. Qed.
Example ParseDuration_ex : let p := ParseDuration (λ f unit scale, f * unit / scale)%Z in
  p "10m" = Some 600000000000%Z ∧ p "1h30m" = Some 5400000000000%Z ∧ p "1.5s" = Some 1500000000%Z ∧ p "-2ms" = Some (-2000000)%Z ∧
  p "0" = Some 0%Z ∧ p "" = None ∧ p "10" = None ∧ p "5d" = None ∧ p ".s" = None ∧ p "9223372036854775807ns" = Some 9223372036854775807%Z ∧
  p "9223372036854775808ns" = None ∧ p "-9223372036854775808ns" = Some (-9223372036854775808)%Z.
Proof. vm_compute. repeat split. Qed.
Definition seen (r : (FlagSet * list string) + FlagError) : (string * bool * list string) + FlagError :=
  match r with inl (fs, rest) => inl (getString fs "base", getBool fs "full", rest) | inr e => inr e end.
Example Parse_ex : let p args := seen (Parse (λ _ _ _, 0%Z) {[ "base" := FString ""; "full" := FBool false ]} args) in
  p ["-base"; "main"; "--full"; "x"; "-full=false"] = inl ("main", true, ["x"; "-full=false"]) ∧
  p ["-base=a=b"; "-full=0"; "--"; "-h"] = inl ("a=b", false, ["-h"]) ∧
  p ["-h"] = inr ErrHelp ∧ p ["-base"] = inr (Failf "flag needs an argument: -base") ∧ p ["---base"] = inr (Failf "bad flag syntax: ---base").
Proof. vm_compute. repeat split. Qed.

(** * What parsing does *)

Section parsing.
Context (fraction : Z → Z → Z → Z).

(** A name that can be written on a command line. *)
Definition flagName (n : string) : Prop :=
  match n with EmptyString => False | String c _ => c ≠ "-"%char end ∧ "="%char ∉ String.list_ascii_of_string n.
Lemma cutEquals_name n v : "="%char ∉ String.list_ascii_of_string n →
  cutEquals n = (n, None) ∧ cutEquals (n +:+ "=" +:+ v) = (n, Some v).
Proof.
  induction n as [|c n IH]; intros H; [done|]. simpl in H. rewrite elem_of_cons in H. apply Decidable.not_or in H as [Hc Hn].
  change (String c n +:+ "=" +:+ v) with (String c (n +:+ "=" +:+ v)). cbn [cutEquals]. rewrite (proj2 (Ascii.eqb_neq _ _)) by congruence.
  destruct (IH Hn) as [-> ->]. done.
Qed.
Lemma argShape_named n v : flagName n → argShape ("-" +:+ n) = Named n None ∧ argShape ("-" +:+ n +:+ "=" +:+ v) = Named n (Some v).
Proof.
  intros [Hn He]. destruct n as [|c n]; [done|]. assert (c ≠ "="%char) as Hc by (intros ->; apply He; by left).
  assert (Ascii.eqb c "-" = false) as Ed by (by apply Ascii.eqb_neq). assert (Ascii.eqb c "=" = false) as Ee by (by apply Ascii.eqb_neq).
  destruct (cutEquals_name (String c n) v He) as [H1 H2].
  change ("-" +:+ String c n) with (String "-" (String c n)).
  change (String c n +:+ "=" +:+ v) with (String c (n +:+ "=" +:+ v)) in *.
  change ("-" +:+ String c (n +:+ "=" +:+ v)) with (String "-" (String c (n +:+ "=" +:+ v))).
  unfold argShape. rewrite Ascii.eqb_refl. cbn [negb]. rewrite Ed. cbn [andb]. rewrite Ed, Ee. cbn [orb]. by rewrite H1, H2.
Qed.

(** A setting: the name of a flag, and the text it is given. *)
Definition asArg (x : string * string) : string := "-" +:+ x.1 +:+ "=" +:+ x.2.
Definition applied (formal : FlagSet) (x : string * string) : FlagSet :=
  match formal !! x.1 with
  | Some v => match SetFlag fraction v x.2 with Some v => <[x.1 := v]> formal | None => formal end
  | None => formal
  end.
Definition settable (formal : FlagSet) (x : string * string) : Prop :=
  flagName x.1 ∧ ∃ v v', formal !! x.1 = Some v ∧ SetFlag fraction v x.2 = Some v'.

(** Setting a value keeps the kind of a flag, and so what it accepts. *)
Lemma SetFlag_kind v t v' t' : SetFlag fraction v t = Some v' → is_Some (SetFlag fraction v t') ↔ is_Some (SetFlag fraction v' t').
Proof. destruct v; simpl; [intros [= <-]; done|by intros (? & _ & ->)%fmap_Some|by intros (? & _ & ->)%fmap_Some|]. 
  intros (l & _ & ->)%fmap_Some. simpl. rewrite !fmap_is_Some. unfold jobFlags_Set. destruct (cutEquals t') as [n [r|]]; [|done]. by destruct (_ || _).
Qed.
Lemma settable_applied formal x y : settable formal x → settable formal y → settable (applied formal x) y.
Proof.
  intros (_ & v & v' & Hv & Hs) (Hn & w & w' & Hw & Ht). split; [done|]. unfold applied. rewrite Hv, Hs.
  destruct (decide (x.1 = y.1)) as [E|E].
  - rewrite E, Hw in Hv. injection Hv as ->. exists v'. rewrite E, lookup_insert_eq.
    destruct (proj1 (SetFlag_kind _ _ _ y.2 Hs) ltac:(by eexists)) as [v2 ?]. by exists v2.
  - exists w, w'. by rewrite lookup_insert_ne.
Qed.
(** Settings written on a command line are what parsing reads, the later of two
    for one flag winning, and the arguments after them are left. *)
Lemma Parse_args xs : ∀ formal rest, Forall (settable formal) xs → match rest with s :: _ => argShape s = NotFlag | [] => True end →
  Parse fraction formal ((asArg <$> xs) ++ rest) = inl (foldl applied formal xs, rest).
Proof.
  induction xs as [|[n t] xs IH]; intros formal rest Hx Hr.
  - simpl. destruct rest as [|s rest]; [done|]. simpl. by rewrite Hr.
  - apply Forall_cons in Hx as [Hx Hxs]. assert (Forall (settable (applied formal (n, t))) xs) as Hxs'.
    { apply (Forall_impl _ _ _ Hxs). intros y. by apply settable_applied. }
    destruct Hx as (Hn & v & v' & Hv & Hs). simpl in Hn, Hv, Hs. pose proof (proj2 (argShape_named n t Hn)) as Ha.
    rewrite fmap_cons. cbn [app Parse foldl]. change (argShape (asArg (n, t)) = Named n (Some t)) in Ha. rewrite Ha, Hv. cbn [from_option id].
    specialize (IH _ _ Hxs' Hr). assert (applied formal (n, t) = <[n := v']> formal) as Ep by (unfold applied; simpl; by rewrite Hv, Hs).
    rewrite Ep in *. destruct (isBoolFlag v); by rewrite Hs.
Qed.
(** Parsing neither adds nor drops a flag. *)
Lemma Parse_dom args : ∀ formal fs rest, Parse fraction formal args = inl (fs, rest) → dom fs = dom formal.
Proof.
  assert (∀ n args, length args < n → ∀ formal fs rest, Parse fraction formal args = inl (fs, rest) → dom fs = dom formal) as H; [|eauto].
  clear args. induction n as [|n IH]; intros args Hl formal fs rest; [lia|]. destruct args as [|s args]; [by intros [= <- <-]|]. simpl in *.
  assert (∀ name v v', formal !! name = Some v → dom (<[name := v']> formal) = dom formal) as Hd.
  { intros name v v' E. apply (set_eq (C := gset string)). intros k. rewrite dom_insert, elem_of_union, elem_of_singleton.
    pose proof (elem_of_dom_2 _ _ _ E). naive_solver. }
  destruct (argShape s) as [| | |name value]; try done; try (by intros [= <- <-]).
  destruct (formal !! name) as [v|] eqn:E; [|by destruct (_ || _)]. destruct (isBoolFlag v).
  - destruct (SetFlag _ _ _) as [v'|]; [|done]. intros H. rewrite <- (Hd name v v' E). by eapply IH; [|exact H]; lia.
  - destruct value as [t|]; [|destruct args as [|t args]; [done|simpl in Hl]];
      (destruct (SetFlag _ _ _) as [v'|]; [|done]; intros H; rewrite <- (Hd name v v' E); by eapply IH; [|exact H]; lia).
Qed.
End parsing.
