(* ===== verification/Approval.v ===== *)
(** The approval broker (src/approval): grants, checks, and the file store
    that carries grants between processes.

    Times are nanoseconds since the Unix epoch ([Z]).  The broker's critical
    sections are atomic, so an operation is a function of the broker and the
    clock value it reads.  The random token is an argument of [Grant_]; the
    digest [hashToken] (SHA-256), the JSON codec and the outcome of the file
    system calls are parameters. *)

From stdpp Require Import base gmap list strings sorting relations.
From S2P Require Import Prelude Provenance.

(** * Grants *)

Record Scope := mkScope { s_Action : string; s_Resource : string }.
#[export] Instance Scope_eq_dec : EqDecision Scope.
Proof. solve_decision. Defined.

Definition Scope_String (s : Scope) : string :=
  if String.eqb (s_Resource s) "" then s_Action s else s_Action s +:+ ":" +:+ s_Resource s.

Record Grant := mkGrant {
  g_Token : string;
  g_TokenHash : string;
  g_Scope : Scope;
  g_ApprovedBy : string;
  g_ApprovedAt : Z;
  g_ExpiresAt : Z;
  g_Used : bool }.

(** [time.Time{}], 1 January of year 1. *)
Definition zeroTime : Z := -62135596800 * 1000000000.
Definition expired (g : Grant) (now : Z) : bool :=
  if Z.eqb (g_ExpiresAt g) zeroTime then true else negb (now <? g_ExpiresAt g)%Z.

Definition matchesScope (g : Grant) (scope : Scope) : bool :=
  String.eqb (s_Action (g_Scope g)) (s_Action scope)
  && String.eqb (s_Resource (g_Scope g)) (s_Resource scope).

Definition set_used (g : Grant) : Grant :=
  mkGrant (g_Token g) (g_TokenHash g) (g_Scope g) (g_ApprovedBy g) (g_ApprovedAt g) (g_ExpiresAt g) true.

Definition ToProvenanceApproval (g : Grant) : Approval :=
  let notes := "token_hash=" +:+ g_TokenHash g in
  let notes := if String.eqb (s_Resource (g_Scope g)) "" then notes
               else "resource=" +:+ s_Resource (g_Scope g) +:+ " " +:+ notes in
  mkApproval (s_Action (g_Scope g)) (g_ApprovedBy g) (g_ApprovedAt g) notes.

Definition errEmptyAction : error := Const "approval: scope action must not be empty".
Definition errEmptyApprover : error := Const "approval: approvedBy must not be empty".
Definition errNonPositiveTTL : error := Const "approval: ttl must be positive".

(** * The broker *)

(** Grants by token. *)
Abbreviation Broker := (gmap string Grant).
Definition NewBroker : Broker := ∅.

Definition live (now : Z) (g : Grant) : Prop := g_Used g = false ∧ expired g now = false.
Definition pruneLocked (now : Z) (b : Broker) : Broker := filter (λ kg, live now kg.2) b.

(** The preference between matching grants: oldest first, then by digest. *)
Definition better (g best : Grant) : bool :=
  (g_ApprovedAt g <? g_ApprovedAt best)%Z
  || (Z.eqb (g_ApprovedAt g) (g_ApprovedAt best) && String.ltb (g_TokenHash g) (g_TokenHash best)).
Definition pickBest (scope : Scope) (best : option Grant) (g : Grant) : option Grant :=
  if negb (matchesScope g scope) then best
  else match best with
  | None => Some g
  | Some b => if better g b then Some g else best
  end.
Definition bestOf (scope : Scope) (gs : list Grant) : option Grant := foldl (pickBest scope) None gs.

Definition findMatch (token : string) (scope : Scope) (now : Z) (b : Broker) : option Grant * Broker :=
  let b := pruneLocked now b in
  if negb (String.eqb token "") then
    (match b !! token with
     | Some g => if matchesScope g scope then Some g else None
     | None => None end, b)
  else (bestOf scope (map_to_list b).*2, b).

Definition consume (r : option Grant * Broker) : Status * Broker :=
  match r with
  | (None, b) => (StatusApprovalRequired, b)
  | (Some g, b) => (StatusPass, <[g_Token g := set_used g]> b)
  end.
Definition peek (r : option Grant * Broker) : Status * Broker :=
  match r with
  | (None, b) => (StatusApprovalRequired, b)
  | (Some _, b) => (StatusPass, b)
  end.

Definition Check (scope : Scope) (now : Z) (b : Broker) : Status * Broker :=
  consume (findMatch "" scope now b).
Definition CheckToken (token : string) (scope : Scope) (now : Z) (b : Broker) : Status * Broker :=
  if String.eqb token "" then (StatusApprovalRequired, b) else consume (findMatch token scope now b).
Definition DryRunCheck (scope : Scope) (now : Z) (b : Broker) : Status * Broker :=
  peek (findMatch "" scope now b).
Definition DryRunCheckToken (token : string) (scope : Scope) (now : Z) (b : Broker) : Status * Broker :=
  if String.eqb token "" then (StatusApprovalRequired, b) else peek (findMatch token scope now b).

Definition g_le (a b : Grant) : Prop :=
  if decide (g_ApprovedAt a = g_ApprovedAt b) then String.le (g_TokenHash a) (g_TokenHash b)
  else (g_ApprovedAt a < g_ApprovedAt b)%Z.
#[export] Instance g_le_dec : RelDecision g_le.
Proof. intros a b. unfold g_le. destruct (decide _); apply _. Defined.

Definition ActiveGrants (now : Z) (b : Broker) : list Grant * Broker :=
  let b := pruneLocked now b in (merge_sort g_le (map_to_list b).*2, b).

Section Tokens.
(** [hashToken]: hexadecimal SHA-256. *)
Variable hashToken : string → string.

(** [Broker.Grant]; [rnd] is the generated token or the error of the system's
    random source. *)
Definition Grant_ (rnd : string + error) (scope : Scope) (approvedBy : string) (ttl now : Z) (b : Broker)
    : (Grant + error) * Broker :=
  if String.eqb (s_Action scope) "" then (inr errEmptyAction, b)
  else if String.eqb approvedBy "" then (inr errEmptyApprover, b)
  else if (ttl <=? 0)%Z then (inr errNonPositiveTTL, b)
  else match rnd with
  | inr err => (inr (Errorf "approval: generating token: %w" [] [err]), b)
  | inl token =>
    let g := mkGrant token (hashToken token) scope approvedBy now (now + ttl) false in
    (inl g, <[token := g]> (pruneLocked now b))
  end.

(** ** The file store *)

Record storedGrant := mkStored {
  sg_Token : string; sg_Scope : Scope; sg_ApprovedBy : string;
  sg_ApprovedAt : Z; sg_ExpiresAt : Z; sg_Used : bool }.
Definition toStored (g : Grant) : storedGrant :=
  mkStored (g_Token g) (g_Scope g) (g_ApprovedBy g) (g_ApprovedAt g) (g_ExpiresAt g) (g_Used g).
Definition fromStored (sg : storedGrant) : Grant :=
  mkGrant (sg_Token sg) (hashToken (sg_Token sg)) (sg_Scope sg) (sg_ApprovedBy sg)
    (sg_ApprovedAt sg) (sg_ExpiresAt sg) (sg_Used sg).

(** The JSON codec of [storedGrant] lists; file contents by path. *)
Variable marshal : list storedGrant → string + error.
Variable unmarshal : string → list storedGrant + error.
Abbreviation FS := (gmap string string).

(** Outcome of the system calls of [Save]: an error of each, and what a failed
    [WriteFile] leaves in the temporary file. *)
Record SaveIO := mkSaveIO {
  io_mkdir : option error; io_write : option error; io_partial : option string;
  io_rename : option error }.

Definition Save (path : string) (b : Broker) (io : SaveIO) (fs : FS) : option error * FS :=
  match marshal (toStored <$> (map_to_list b).*2) with
  | inr err => (Some (Errorf "approval: marshaling grants: %w" [] [err]), fs)
  | inl data =>
    match io_mkdir io with
    | Some err => (Some (Errorf "approval: creating %s: %w" [path] [err]), fs)
    | None =>
      let tmp := path +:+ ".tmp" in
      match io_write io with
      | Some err =>
        (Some (Errorf "approval: writing %s: %w" [tmp] [err]),
         match io_partial io with Some c => <[tmp := c]> fs | None => fs end)
      | None =>
        let fs := <[tmp := data]> fs in
        match io_rename io with
        | Some err => (Some (Errorf "approval: renaming %s to %s: %w" [tmp; path] [err]), fs)
        | None => (None, <[path := data]> (delete tmp fs))
        end
      end
    end
  end.

(** [Load]; [readErr] is an error of [ReadFile] other than a missing file. *)
Definition Load (path : string) (readErr : option error) (fs : FS) : Broker + error :=
  match readErr with
  | Some err => inr (Errorf "approval: reading %s: %w" [path] [err])
  | None =>
    match fs !! path with
    | None => inl NewBroker
    | Some data =>
      match unmarshal data with
      | inr err => inr (Errorf "approval: parsing %s: %w" [path] [err])
      | inl grants =>
        inl (foldl (λ b sg, <[sg_Token sg := fromStored sg]> b) NewBroker grants)
      end
    end
  end.
End Tokens.

(** * Which commands need approval *)

Record CommandDecl := mkCommandDecl {
  cd_Name : string; cd_Command : string; cd_Class : CommandClass; cd_Reason : string }.

Definition ErrCommandNotFound : string := "approval: command not found in contract".

Fixpoint RequiresApproval (commands : list CommandDecl) (commandName : string) : bool * option error :=
  match commands with
  | [] => (false, Some (Errorf "%w: %q" [commandName] [Const ErrCommandNotFound]))
  | cmd :: commands =>
    if negb (String.eqb (cd_Name cmd) commandName) then RequiresApproval commands commandName
    else (String.eqb (cd_Class cmd) ClassApprovalRequired || String.eqb (cd_Class cmd) ClassDestructive, None)
  end.

(** * The grant found *)

Lemma matchesScope_spec g scope : matchesScope g scope = true ↔ g_Scope g = scope.
Proof.
  unfold matchesScope. rewrite andb_true_iff, !String.eqb_eq. destruct (g_Scope g), scope; simpl.
  split; [by intros [-> ->]|by intros [= -> ->]].
Qed.

Lemma pick_spec scope l best :
  (∀ b, best = Some b → matchesScope b scope = true) →
  match foldl (pickBest scope) best l with
  | Some g => (best = Some g ∨ g ∈ l) ∧ matchesScope g scope = true
  | None => best = None ∧ ∀ g, g ∈ l → matchesScope g scope = false
  end.
Proof.
  revert best. induction l as [|g l IH]; intros best Hb; simpl.
  { destruct best; [auto|]. split; [done|]. by intros g ?%elem_of_nil. }
  assert (∀ b, pickBest scope best g = Some b → matchesScope b scope = true ∧ (best = Some b ∨ g = b)) as Hp.
  { unfold pickBest. intros b. destruct (matchesScope g scope) eqn:E; simpl; [|by eauto].
    destruct best as [b0|]; [destruct (better g b0)|]; naive_solver. }
  specialize (IH (pickBest scope best g)). destruct (foldl _ _ l) as [r|] eqn:Er.
  - destruct IH as [Hr ?]; [intros; by apply Hp|]. split; [|done].
    destruct Hr as [Hr|?]; [|right; by right].
    destruct (Hp _ Hr) as [_ [?| ->]]; [by left|right; by left].
  - destruct IH as [Hn Hl]; [intros; by apply Hp|]. unfold pickBest in Hn.
    destruct (matchesScope g scope) eqn:E; simpl in Hn.
    { destruct best as [b0|]; [destruct (better g b0)|]; done. }
    split; [done|]. intros g' [->|?]%elem_of_cons; auto.
Qed.

Lemma bestOf_spec scope l :
  match bestOf scope l with
  | Some g => g ∈ l ∧ g_Scope g = scope
  | None => ∀ g, g ∈ l → g_Scope g ≠ scope
  end.
Proof.
  pose proof (pick_spec scope l None ltac:(done)) as H. unfold bestOf.
  destruct (foldl _ _ l); [|destruct H as [_ H]].
  - rewrite <-matchesScope_spec. naive_solver.
  - intros g Hg E%matchesScope_spec. by rewrite H in E.
Qed.

Lemma elem_of_values (b : Broker) g : g ∈ (map_to_list b).*2 ↔ ∃ k, b !! k = Some g.
Proof.
  rewrite list_elem_of_fmap. split.
  - intros ([k g'] & -> & H). exists k. by apply elem_of_map_to_list.
  - intros [k H]. exists (k, g). split; [done|]. by apply elem_of_map_to_list.
Qed.

Lemma prune_lookup now (b : Broker) k g :
  pruneLocked now b !! k = Some g ↔ b !! k = Some g ∧ live now g.
Proof. unfold pruneLocked. apply (map_lookup_filter_Some (M := gmap string)). Qed.

(** Tokens are keys: what [Broker.Grant] and [Load] establish. *)
Definition keyed_by_token (b : Broker) : Prop := ∀ k g, b !! k = Some g → g_Token g = k.

Lemma findMatch_spec token scope now b :
  keyed_by_token b →
  let r := findMatch token scope now b in
  r.2 = pruneLocked now b ∧
  match r.1 with
  | Some g => b !! g_Token g = Some g ∧ live now g ∧ g_Scope g = scope ∧ (token ≠ "" → g_Token g = token)
  | None => ∀ k g, b !! k = Some g → live now g → g_Scope g = scope → token ≠ "" ∧ k ≠ token
  end.
Proof.
  intros Hk r. unfold r, findMatch. destruct (String.eqb_spec token "") as [->|Hne]; simpl.
  - split; [done|]. pose proof (bestOf_spec scope (map_to_list (pruneLocked now b)).*2) as H.
    destruct (bestOf _ _) as [g|].
    + destruct H as [[k [H Hl]%prune_lookup]%elem_of_values Hs]. rewrite (Hk _ _ H). by split_and!.
    + intros k g Hg Hl Hs. exfalso. apply (H g); [|done]. apply elem_of_values. exists k. by apply prune_lookup.
  - split; [done|]. destruct (pruneLocked now b !! token) as [g|] eqn:Hg.
    + apply prune_lookup in Hg as [Hg Hl]. destruct (matchesScope g scope) eqn:Hm.
      * apply matchesScope_spec in Hm. rewrite (Hk _ _ Hg). by split_and!.
      * intros k g' Hg' _ Hs. split; [done|]. intros ->. apply matchesScope_spec in Hs. congruence.
    + intros k g' Hg' Hl Hs. split; [done|]. intros ->.
      assert (pruneLocked now b !! token = Some g') by by apply prune_lookup. congruence.
Qed.

(** * Histories *)

Inductive Op :=
| OGrant (token : string) (scope : Scope) (approvedBy : string) (ttl : Z)
| OCheck (scope : Scope)
| OCheckToken (token : string) (scope : Scope)
| ODryRun (scope : Scope)
| ODryRunToken (token : string) (scope : Scope)
| OActive.

(** What has happened: the grants issued, and for each check that answered
    with a pass the token presented, if any, the scope asked for and the time. *)
Record History := mkHistory {
  hi_broker : Broker;
  hi_granted : list Grant;
  hi_passed : list (option string * Scope * Z) }.
Definition history0 : History := mkHistory NewBroker [] [].

(** The answer of a check is noted. *)
Definition answered (r : Status * Broker) (asked : option string * Scope * Z) (h : History) : History :=
  mkHistory r.2 (hi_granted h) (if String.eqb r.1 StatusPass then hi_passed h ++ [asked] else hi_passed h).

Section Histories.
Variable hashToken : string → string.

Definition exec (h : History) (on : Op * Z) : History :=
  let now := on.2 in
  let b := hi_broker h in
  match on.1 with
  | OGrant token scope by_ ttl =>
    let r := Grant_ hashToken (inl token) scope by_ ttl now b in
    mkHistory r.2 (match r.1 with inl g => hi_granted h ++ [g] | inr _ => hi_granted h end) (hi_passed h)
  | OCheck scope => answered (Check scope now b) (None, scope, now) h
  | OCheckToken token scope => answered (CheckToken token scope now b) (Some token, scope, now) h
  | ODryRun scope => mkHistory (DryRunCheck scope now b).2 (hi_granted h) (hi_passed h)
  | ODryRunToken token scope => mkHistory (DryRunCheckToken token scope now b).2 (hi_granted h) (hi_passed h)
  | OActive => mkHistory (ActiveGrants now b).2 (hi_granted h) (hi_passed h)
  end.

Definition op_token (on : Op * Z) : option string :=
  match on.1 with OGrant t _ _ _ => Some t | _ => None end.

(** The grant [g] authorises a check: it has the scope asked for and the token
    presented, and the time is before it expires. *)
Definition authorises (g : Grant) (asked : option string * Scope * Z) : Prop :=
  let '(token, scope, now) := asked in
  g_Scope g = scope ∧ (now < g_ExpiresAt g)%Z ∧ ∀ t, token = Some t → g_Token g = t.

(** [used] are the grants that the passing checks used up, in their order. *)
Record hist_inv (used : list Grant) (h : History) : Prop := HistInv {
  hv_key : keyed_by_token (hi_broker h);
  hv_from k g : hi_broker h !! k = Some g → ∃ g0, g0 ∈ hi_granted h ∧ (g = g0 ∨ g = set_used g0);
  hv_issued g : g ∈ hi_granted h → g_ApprovedBy g ≠ "" ∧ g_Used g = false;
  hv_once : NoDup (g_Token <$> used);
  hv_spent k g : k ∈ g_Token <$> used → hi_broker h !! k = Some g → g_Used g = true;
  hv_granted g : g ∈ used → g ∈ hi_granted h;
  hv_passed : Forall2 authorises used (hi_passed h);
}.

Lemma prune_inv used now h : hist_inv used h →
  hist_inv used (mkHistory (pruneLocked now (hi_broker h)) (hi_granted h) (hi_passed h)).
Proof.
  intros [Hk Hf Hi Ho Hs Hg Hp]. split; simpl; try done.
  - intros k g [? _]%prune_lookup. eauto.
  - intros k g [? _]%prune_lookup. eauto.
  - intros k g Hin [? _]%prune_lookup. eauto.
Qed.

Lemma live_lt now g : live now g → (now < g_ExpiresAt g)%Z.
Proof. intros [_ H]. unfold expired in H. case_match; [done|]. apply negb_false_iff in H. lia. Qed.

Lemma answered_inv used token presented scope now h : hist_inv used h →
  (∀ t, presented = Some t → token = t ∧ t ≠ "") →
  ∃ used', hist_inv used' (answered (consume (findMatch token scope now (hi_broker h))) (presented, scope, now) h).
Proof.
  intros I Ht. pose proof (findMatch_spec token scope now (hi_broker h) (hv_key _ _ I)) as [Hb Hm].
  pose proof (prune_inv _ now _ I) as [Hk Hf Hi Ho Hs Hgr Hp]. simpl in *.
  unfold answered. destruct (findMatch _ _ _ _) as [[g|] b]; simpl in *; subst b; [|by exists used].
  destruct Hm as (Hg & Hl & Hsc & Htok). pose proof (conj Hg Hl) as Hgp. rewrite <-prune_lookup in Hgp.
  assert (g_Token g ∉ g_Token <$> used) as Hnew.
  { intros Hin. destruct Hl as [Hu _]. rewrite (hv_spent _ _ I _ _ Hin Hg) in Hu. done. }
  destruct (Hf _ _ Hgp) as (g0 & Hg0 & Hgg0).
  assert (g_Token g0 = g_Token g ∧ g_Scope g0 = g_Scope g ∧ g_ExpiresAt g0 = g_ExpiresAt g) as (E1 & E2 & E3) by (by destruct Hgg0 as [->| ->]).
  exists (used ++ [g0]). split; simpl.
  - intros k g' [[<- <-]|[_ ?]]%lookup_insert_Some; [done|eauto].
  - intros k g' [[<- <-]|[_ ?]]%lookup_insert_Some; [|eauto]. exists g0. split; [done|]. right. by destruct Hgg0 as [->| ->].
  - done.
  - rewrite fmap_app. apply NoDup_app. split_and!; [done| |apply NoDup_singleton].
    intros k Hin ->%list_elem_of_singleton. by rewrite E1 in Hin.
  - intros k g' Hin [[<- <-]|[Hne ?]]%lookup_insert_Some; [done|].
    rewrite fmap_app in Hin. apply elem_of_app in Hin as [?|Hin]; [eauto|].
    apply list_elem_of_singleton in Hin. congruence.
  - intros g' [?|Hin%list_elem_of_singleton]%elem_of_app; [eauto|by subst].
  - apply Forall2_app; [done|]. constructor; [|constructor]. apply live_lt in Hl. split_and!; [congruence|lia|].
    intros t Hpt. destruct (Ht _ Hpt) as [<- Hne]. rewrite E1. by apply Htok.
Qed.

Lemma grant_inv used g now h :
  hist_inv used h → g_Token g ∉ g_Token <$> hi_granted h → g_ApprovedBy g ≠ "" → g_Used g = false →
  hist_inv used (mkHistory (<[g_Token g := g]> (pruneLocked now (hi_broker h))) (hi_granted h ++ [g]) (hi_passed h)).
Proof.
  intros I Hfresh Hby Hu. pose proof (prune_inv _ now _ I) as [Hk Hf Hi Ho Hs Hgr Hp]. simpl in *.
  split; simpl; try done.
  - intros k g' [[<- <-]|[_ ?]]%lookup_insert_Some; [done|eauto].
  - intros k g' [[<- <-]|[_ Hg']]%lookup_insert_Some.
    + exists g. split; [apply elem_of_app; right; by apply list_elem_of_singleton|by left].
    + destruct (Hf _ _ Hg') as (g0 & ? & ?). exists g0. split; [apply elem_of_app; by left|done].
  - intros g' [?|Hg'%list_elem_of_singleton]%elem_of_app; [eauto|by subst].
  - intros k g' Hin [[<- <-]|[_ ?]]%lookup_insert_Some; [|eauto]. exfalso. apply Hfresh.
    apply list_elem_of_fmap in Hin as (g0 & -> & Hin). apply list_elem_of_fmap. eauto.
  - intros g' Hin. apply elem_of_app. left. auto.
Qed.

Lemma exec_inv used h on :
  hist_inv used h → (∀ t, op_token on = Some t → t ∉ g_Token <$> hi_granted h) → ∃ used', hist_inv used' (exec h on).
Proof.
  intros I Hfresh. assert (hist_inv used (mkHistory (hi_broker h) (hi_granted h) (hi_passed h))) as I' by by destruct h.
  destruct on as [[token scope by_ ttl|scope|token scope|scope|token scope|] now]; unfold exec; simpl in *.
  - exists used. unfold Grant_. destruct (String.eqb (s_Action scope) ""); [done|].
    destruct (String.eqb_spec by_ ""); [done|]. destruct (ttl <=? 0)%Z; [done|].
    apply (grant_inv _ (mkGrant token (hashToken token) scope by_ now (now + ttl) false)); auto.
  - by eapply answered_inv.
  - unfold CheckToken. destruct (String.eqb_spec token ""); [exists used; done|]. eapply answered_inv; [done|]. by intros t [= <-].
  - exists used. unfold DryRunCheck. pose proof (findMatch_spec "" scope now (hi_broker h) (hv_key _ _ I)) as [Hb _].
    destruct (findMatch _ _ _ _) as [[g|] b]; simpl in *; subst b; by apply prune_inv.
  - exists used. unfold DryRunCheckToken. destruct (String.eqb token ""); [done|].
    pose proof (findMatch_spec token scope now (hi_broker h) (hv_key _ _ I)) as [Hb _].
    destruct (findMatch _ _ _ _) as [[g|] b]; simpl in *; subst b; by apply prune_inv.
  - exists used. by apply prune_inv.
Qed.

(** The tokens of the grants issued come from the operations. *)
Lemma exec_granted h on :
  hi_granted (exec h on) = hi_granted h ∨
  ∃ g, hi_granted (exec h on) = hi_granted h ++ [g] ∧ op_token on = Some (g_Token g).
Proof.
  destruct on as [[token scope by_ ttl|scope|token scope|scope|token scope|] now]; unfold exec; simpl; try (by left).
  unfold Grant_. destruct (String.eqb (s_Action scope) ""); [by left|].
  destruct (String.eqb by_ ""); [by left|]. destruct (ttl <=? 0)%Z; [by left|]. right. by eexists.
Qed.

Lemma history_inv ops used h :
  hist_inv used h → NoDup (omap op_token ops) → (∀ t, t ∈ omap op_token ops → t ∉ g_Token <$> hi_granted h) →
  ∃ used', hist_inv used' (foldl exec h ops).
Proof.
  revert used h. induction ops as [|on ops IH]; intros used h I Hnd Hfresh; simpl; [by eauto|]. simpl in Hnd, Hfresh.
  destruct (op_token on) as [t|] eqn:Ht.
  - apply NoDup_cons in Hnd as [Hnt Hnd]. destruct (exec_inv used h on I) as [used' I'].
    { intros t' Ht'. rewrite Ht in Ht'. simplify_eq. apply Hfresh. by left. }
    apply (IH used'); [done|done|].
    intros t' Ht'. destruct (exec_granted h on) as [->|(g & -> & Hg)]; [apply Hfresh; by right|].
    rewrite fmap_app. intros [Hin|Hin]%elem_of_app; [eapply Hfresh; [by right|done]|].
    apply list_elem_of_singleton in Hin. rewrite Ht in Hg. simplify_eq. done.
  - destruct (exec_inv used h on I) as [used' I']; [by rewrite Ht|]. apply (IH used'); [done|done|].
    intros t' Ht'. destruct (exec_granted h on) as [->|(g & _ & Hg)]; [by apply Hfresh|]. congruence.
Qed.

Lemma history0_inv : hist_inv [] history0.
Proof.
  split; simpl; try done.
  - intros g ?%elem_of_nil. done.
  - constructor.
Qed.
End Histories.

(** * Saving and loading *)

Section Stores.
Variable hashToken : string → string.

(** The digest stored in a grant is that of its token. *)
Definition hashed (b : Broker) : Prop := ∀ k g, b !! k = Some g → g_TokenHash g = hashToken (g_Token g).

Lemma stored_id g : g_TokenHash g = hashToken (g_Token g) → fromStored hashToken (toStored g) = g.
Proof. destruct g; simpl. unfold fromStored, toStored. simpl. by intros ->. Qed.

Lemma load_lookup (l : list Grant) (b0 : Broker) k :
  NoDup (g_Token <$> l) → (∀ g, g ∈ l → g_TokenHash g = hashToken (g_Token g)) →
  ∀ r, (foldl (λ b sg, <[sg_Token sg := fromStored hashToken sg]> b) b0 (toStored <$> l) : Broker) !! k = r ↔
    (∃ g, g ∈ l ∧ g_Token g = k ∧ r = Some g) ∨ ((k ∉ g_Token <$> l) ∧ b0 !! k = r).
Proof.
  revert b0. induction l as [|g l IH]; intros b0 Hnd Hh r; simpl.
  { split; [intros; right; split; [apply not_elem_of_nil|done]|].
    intros [(g & Hg%elem_of_nil & _)|[_ ?]]; done. }
  apply NoDup_cons in Hnd as [Hng Hnd].
  rewrite IH; [|done|intros; apply Hh; by right]. rewrite stored_id by (apply Hh; by left).
  split.
  - intros [(g' & ? & ? & ?)|[Hnk Hl]]; [left; exists g'; split_and!; [by right|done|done]|].
    destruct (decide (g_Token g = k)) as [Hk|Hk].
    + left. exists g. split_and!; [by left|done|]. rewrite <-Hl. simpl. rewrite Hk. apply (lookup_insert_eq (M := gmap string)).
    + right. split; [by apply not_elem_of_cons|]. rewrite <-Hl. simpl. by rewrite (lookup_insert_ne (M := gmap string)).
  - intros [(g' & [->|Hin]%elem_of_cons & <- & ->)|[[Hne Hnk]%not_elem_of_cons <-]].
    + right. split; [done|]. apply (lookup_insert_eq (M := gmap string)).
    + left. by exists g'.
    + right. split; [done|]. simpl. by rewrite (lookup_insert_ne (M := gmap string)).
Qed.

Lemma load_stored b : keyed_by_token b → hashed b →
  foldl (λ b sg, <[sg_Token sg := fromStored hashToken sg]> b) NewBroker (toStored <$> (map_to_list b).*2) = b.
Proof.
  intros Hk Hh. apply map_eq. intros k. symmetry.
  assert (g_Token <$> (map_to_list b).*2 = (map_to_list b).*1) as Htok.
  { rewrite <-list_fmap_compose. apply list_fmap_ext. intros i [k' g] Hi. simpl. apply Hk.
    apply elem_of_map_to_list, list_elem_of_lookup. by exists i. }
  symmetry. apply load_lookup.
  - rewrite Htok. apply NoDup_fst_map_to_list.
  - intros g [k' Hg]%elem_of_values. by apply (Hh k').
  - destruct (b !! k) as [g|] eqn:E.
    + left. exists g. split_and!; [apply elem_of_values; by exists k|by apply Hk|done].
    + right. split; [|done]. rewrite Htok. intros ([k' g] & -> & Hin)%list_elem_of_fmap.
      apply elem_of_map_to_list in Hin. simpl in *. congruence.
Qed.
End Stores.

(** ** The preferred grant is unique *)

(** Distinct grants have distinct digests. *)
Definition distinct_hashes (l : list Grant) : Prop :=
  ∀ g g', g ∈ l → g' ∈ l → g_TokenHash g = g_TokenHash g' → g = g'.

Lemma ltb_leb a b : String.ltb a b = negb (String.leb b a).
Proof. unfold String.ltb, String.leb. rewrite (String.compare_antisym b a). by destruct (String.compare a b). Qed.

Lemma g_le_iff a b : g_le a b ↔
  (g_ApprovedAt a < g_ApprovedAt b)%Z ∨
  (g_ApprovedAt a = g_ApprovedAt b ∧ String.le (g_TokenHash a) (g_TokenHash b)).
Proof. unfold g_le. case_decide; intuition lia. Qed.

Lemma better_spec g b : better g b = negb (bool_decide (g_le b g)).
Proof.
  unfold better. rewrite ltb_leb. case_bool_decide as H; rewrite g_le_iff in H; unfold String.le in H;
    destruct (Z.ltb_spec (g_ApprovedAt g) (g_ApprovedAt b)), (Z.eqb_spec (g_ApprovedAt g) (g_ApprovedAt b)),
      (String.leb (g_TokenHash b) (g_TokenHash g)); simpl in *; try done; exfalso; intuition lia.
Qed.

#[export] Instance g_le_total : Total g_le.
Proof.
  intros a b. unfold g_le. destruct (decide (g_ApprovedAt a = g_ApprovedAt b)) as [E|E].
  - rewrite decide_True by done. apply (total String.le).
  - rewrite decide_False by congruence. destruct (Z.lt_total (g_ApprovedAt a) (g_ApprovedAt b)) as [?|[?|?]]; auto; lia.
Qed.
#[export] Instance g_le_trans : Transitive g_le.
Proof.
  intros a b c. unfold g_le. repeat case_decide; try lia. apply (transitivity (R := String.le)).
Qed.
#[export] Instance g_le_refl : Reflexive g_le.
Proof. intros a. unfold g_le. rewrite decide_True by done. reflexivity. Qed.

Lemma pick_min scope l best r :
  (∀ b, best = Some b → matchesScope b scope = true) →
  foldl (pickBest scope) best l = Some r →
  (∀ b, best = Some b → g_le r b) ∧ ∀ g, g ∈ l → matchesScope g scope = true → g_le r g.
Proof.
  revert best. induction l as [|g l IH]; intros best Hb Hr; simpl in Hr.
  { split; [intros b ->; by simplify_eq|]. by intros g ?%elem_of_nil. }
  apply IH in Hr as [H1 H2].
  - assert ((∀ b, best = Some b → g_le r b) ∧ (matchesScope g scope = true → g_le r g)) as [H3 H4].
    { unfold pickBest in H1. destruct (matchesScope g scope) eqn:E; simpl in H1; [|by eauto].
      destruct best as [b|]; [|split; [done|by eauto]]. rewrite better_spec in H1.
      case_bool_decide as Hle; simpl in H1; specialize (H1 _ eq_refl).
      - split; [intros; by simplify_eq|]. intros _. by etrans.
      - split; [|done]. intros ? [= <-]. etrans; [done|]. by destruct (total g_le b g). }
    split; [done|]. intros g' [->|?]%elem_of_cons; auto.
  - unfold pickBest. intros b. destruct (matchesScope g scope) eqn:E; simpl; [|auto].
    destruct best as [b0|]; [destruct (better g b0)|]; naive_solver.
Qed.

Lemma bestOf_perm scope l l' : l ≡ₚ l' → distinct_hashes l → bestOf scope l = bestOf scope l'.
Proof.
  intros Hp Hd. pose proof (bestOf_spec scope l) as H1. pose proof (bestOf_spec scope l') as H2.
  destruct (bestOf scope l) as [r|] eqn:E1, (bestOf scope l') as [r'|] eqn:E2; try done.
  - destruct H1 as [Hr Hs], H2 as [Hr' Hs']. rewrite <-matchesScope_spec in Hs, Hs'.
    assert (g_le r r') as L1 by (eapply (pick_min scope l None r); [done|exact E1|by rewrite Hp|done]).
    assert (g_le r' r) as L2 by (eapply (pick_min scope l' None r'); [done|exact E2|by rewrite <-Hp|done]).
    f_equal. apply Hd; [done|by rewrite Hp|]. unfold g_le in *. repeat case_decide; try lia.
    by apply (anti_symm String.le).
  - destruct H1 as [Hr Hs]. destruct (H2 r); [by rewrite <-Hp|done].
  - destruct H2 as [Hr Hs]. destruct (H1 r'); [by rewrite Hp|done].
Qed.

(** * Properties *)

(** C13. Authority: over any history of grants, checks and dry runs at any
    clock readings, the checks that answered with a pass used up grants, one
    each and none twice: grants that were issued, name their approver, have
    exactly the scope asked for and the token presented, and had not expired.
    (Tokens of distinct grants are distinct: they are 192 random bits.) *)
Theorem approval_single_use hashToken ops :
  NoDup (omap op_token ops) →
  let h := foldl (exec hashToken) history0 ops in
  ∃ used, Forall2 authorises used (hi_passed h) ∧ NoDup (g_Token <$> used) ∧
    ∀ g, g ∈ used → g ∈ hi_granted h ∧ g_ApprovedBy g ≠ "".
Proof.
  intros Hnd h. destruct (history_inv hashToken ops [] history0) as [used I];
    [apply history0_inv|done|intros t _ ?%elem_of_nil; done|].
  exists used. split_and!; [apply I|apply I|]. intros g Hg. pose proof (hv_granted _ _ I _ Hg) as Hgr. split; [done|]. by apply (hv_issued _ _ I).
Qed.

(** [Check] passes exactly when an unused, unexpired grant of exactly that
    scope exists, and then spends one; a dry run gives the same answer and
    spends nothing: the grants that are live afterwards are the same. *)
Theorem check_exact scope now b :
  keyed_by_token b →
  ((Check scope now b).1 = StatusPass ↔ ∃ k g, b !! k = Some g ∧ live now g ∧ g_Scope g = scope) ∧
  (DryRunCheck scope now b).1 = (Check scope now b).1 ∧
  (∀ k g, (DryRunCheck scope now b).2 !! k = Some g ↔ b !! k = Some g ∧ live now g) ∧
  ((Check scope now b).1 = StatusPass → ∃ g, b !! g_Token g = Some g ∧ live now g ∧ g_Scope g = scope ∧
     (Check scope now b).2 = <[g_Token g := set_used g]> (pruneLocked now b)).
Proof.
  intros Hk. unfold Check, DryRunCheck.
  pose proof (findMatch_spec "" scope now b Hk) as [Hb Hm].
  destruct (findMatch "" scope now b) as [[g|] b']; simpl in *; subst b'.
  - destruct Hm as (Hg & Hl & Hs & _). split_and!; [|done|apply prune_lookup|by eauto].
    split; [|done]. intros _. by exists (g_Token g), g.
  - split_and!; [|done|apply prune_lookup|done]. split; [done|].
    intros (k & g & Hg & Hl & Hs). by destruct (Hm _ _ Hg Hl Hs).
Qed.

(** Which grant [Check] spends does not depend on the iteration order of
    the map: it is the one approved first, ties broken by digest. *)
Theorem check_deterministic scope l l' :
  l ≡ₚ l' → distinct_hashes l →
  bestOf scope l = bestOf scope l' ∧
  ∀ r, bestOf scope l = Some r → ∀ g, g ∈ l → g_Scope g = scope → g_le r g.
Proof.
  intros Hp Hd. split; [by apply bestOf_perm|]. intros r Hr g Hg Hs.
  eapply (pick_min scope l None r); [done|exact Hr|done|by apply matchesScope_spec].
Qed.

(** The file store: a save that succeeds is loaded back as the same
    broker, used and expired grants included; a save that fails at any system
    call leaves the previous contents of the store as they were, so a load
    never sees a partial file. *)
Theorem save_load hashToken marshal unmarshal path b io fs :
  keyed_by_token b → hashed hashToken b →
  (∀ data, marshal (toStored <$> (map_to_list b).*2) = inl data →
     unmarshal data = inl (toStored <$> (map_to_list b).*2)) →
  match Save marshal path b io fs with
  | (None, fs') => Load hashToken unmarshal path None fs' = inl b
  | (Some _, fs') => fs' !! path = fs !! path
  end.
Proof.
  intros Hk Hh Hcodec. unfold Save.
  pose proof (string_app_ne path ".tmp" ltac:(done)) as Hne.
  destruct (marshal _) as [data|err] eqn:Hm; [|done]. destruct (io_mkdir io); [done|].
  destruct (io_write io).
  { destruct (io_partial io); [|done]. by rewrite lookup_insert_ne. }
  destruct (io_rename io); [by rewrite lookup_insert_ne|].
  unfold Load. rewrite lookup_insert_eq, (Hcodec _ eq_refl). f_equal. by apply load_stored.
Qed.

(** A command that the contract declares needs approval exactly when its
    class is approval-required or destructive, the first declaration of a
    name deciding; an undeclared command is an error, never a green light. *)
Theorem requires_approval_spec commands name :
  match RequiresApproval commands name with
  | (r, None) => ∃ l1 cmd l2, commands = l1 ++ cmd :: l2 ∧ cd_Name cmd = name ∧
      Forall (λ c, cd_Name c ≠ name) l1 ∧
      (r = true ↔ cd_Class cmd = ClassApprovalRequired ∨ cd_Class cmd = ClassDestructive)
  | (r, Some err) => r = false ∧ error_is ErrCommandNotFound err = true ∧
      Forall (λ c, cd_Name c ≠ name) commands
  end.
Proof.
  induction commands as [|cmd commands IH]; simpl; [by repeat constructor|].
  destruct (String.eqb_spec (cd_Name cmd) name) as [E|E]; simpl.
  - exists [], cmd, commands. split_and!; [done|done|constructor|].
    by rewrite orb_true_iff, !String.eqb_eq.
  - destruct (RequiresApproval commands name) as [r [err|]].
    + destruct IH as (? & ? & ?). split_and!; [done|done|by constructor].
    + destruct IH as (l1 & c & l2 & -> & ? & ? & ?). exists (cmd :: l1), c, l2.
      split_and!; [done|done|by constructor|done].
Qed.

(** * Witnesses *)

Definition demo_scope : Scope := mkScope "push" "main".
Definition demo_ops : list (Op * Z) :=
  [(OGrant "t1" demo_scope "ann" 100, 0%Z); (OGrant "t2" (mkScope "push" "dev") "bob" 100, 1%Z);
   (OGrant "" (mkScope "" "x") "bob" 100, 1%Z); (ODryRun demo_scope, 5%Z); (OCheck demo_scope, 6%Z);
   (OCheck demo_scope, 7%Z); (OCheckToken "t2" demo_scope, 8%Z);
   (OCheckToken "t2" (mkScope "push" "dev"), 200%Z)].

Example demo_history : hi_passed (foldl (exec id) history0 demo_ops) = [(None, demo_scope, 6%Z)].
Proof. vm_compute. reflexivity. Qed.

Lemma approval_single_use_witness :
  ∃ g, g_Scope g = demo_scope ∧ g_ApprovedBy g ≠ "" ∧ (6 < g_ExpiresAt g)%Z.
Proof.
  destruct (approval_single_use id demo_ops) as (used & Hp & _ & Hu).
  - vm_compute. repeat constructor; set_solver.
  - rewrite demo_history in Hp. apply Forall2_cons_inv_r in Hp as (g & l & (H1 & H2 & _) & _ & ->).
    exists g. split_and!; [exact H1|apply Hu; left|exact H2].
Defined.

Definition demo_grant : Grant := mkGrant "t1" "t1" demo_scope "ann" 0 100 false.
Definition demo_broker : Broker := {[ "t1" := demo_grant ]}.
Lemma demo_keyed : keyed_by_token demo_broker.
Proof. intros k g H. unfold demo_broker in H. by apply lookup_singleton_Some in H as [<- <-]. Qed.

Lemma check_exact_witness :
  (Check demo_scope 5 demo_broker).1 = StatusPass ∧ (DryRunCheck demo_scope 5 demo_broker).1 = StatusPass.
Proof.
  destruct (check_exact demo_scope 5 demo_broker demo_keyed) as (H1 & H2 & _).
  assert ((Check demo_scope 5 demo_broker).1 = StatusPass) as H.
  { apply H1. exists "t1", demo_grant. repeat split. }
  split; [exact H|]. rewrite H2. exact H.
Defined.

Definition demo_grant2 : Grant := mkGrant "t0" "t0" demo_scope "ann" 3 100 false.
Lemma check_deterministic_witness :
  bestOf demo_scope [demo_grant2; demo_grant] = bestOf demo_scope [demo_grant; demo_grant2].
Proof.
  apply (check_deterministic demo_scope [demo_grant2; demo_grant]).
  - apply perm_swap.
  - intros g g' Hg Hg'.
    apply elem_of_cons in Hg as [->|Hg]; [|apply list_elem_of_singleton in Hg as ->];
      (apply elem_of_cons in Hg' as [->|Hg']; [|apply list_elem_of_singleton in Hg' as ->]);
      vm_compute; congruence.
Defined.

Definition demo_marshal (gs : list storedGrant) : string + error := inl "[...]".
Definition demo_unmarshal (data : string) : list storedGrant + error := inl [toStored demo_grant].
Lemma save_load_witness :
  Load id demo_unmarshal "approvals.json" None
    (Save demo_marshal "approvals.json" demo_broker (mkSaveIO None None None None) ∅).2 = inl demo_broker.
Proof.
  apply (save_load id demo_marshal demo_unmarshal "approvals.json" demo_broker (mkSaveIO None None None None) ∅).
  - exact demo_keyed.
  - intros k g H. unfold demo_broker in H. apply lookup_singleton_Some in H as [<- <-]. reflexivity.
  - intros data _. vm_compute. reflexivity.
Defined.
