(* ===== verification/Envelope.v ===== *)
(** Secret-shaped values and the provenance envelope
    (src/provenance/provenance.go), and the copies of its patterns in
    src/patchapply/secrets.go.

    The patterns are the strings of the source, read by [Regex]. *)

From stdpp Require Import base list strings pretty sets.
From S2P Require Import Prelude Provenance Regex Approval.

(** * Patterns *)

Definition redactionMarker : string := "[REDACTED]".
Definition RedactionMarker : string := redactionMarker.

Definition awsSecretPattern : regex := Eval vm_compute in
  MustCompile ("(?i)\bAWS_SECRET[A-Z_]*\s*[:=]\s*['" +:+ dq +:+ "]?[A-Za-z0-9/+=]{8,}['" +:+ dq +:+ "]?").
Definition pemPrivateKeyPattern : regex := Eval vm_compute in
  MustCompile "-----BEGIN [A-Z ]*PRIVATE KEY-----[\s\S]*?-----END [A-Z ]*PRIVATE KEY-----".
Definition githubTokenPattern : regex := Eval vm_compute in
  MustCompile "\b(ghp_|gho_|ghu_|ghs_|ghr_|github_pat_)[A-Za-z0-9_]{20,}\b".
Definition jwtPattern : regex := Eval vm_compute in
  MustCompile "\beyJ[A-Za-z0-9_-]+\.[A-Za-z0-9_-]+\.[A-Za-z0-9_-]+\b".
Definition genericAssignmentPattern : regex := Eval vm_compute in
  MustCompile ("(?i)(key|token|password|secret)\s*[:=]\s*['" +:+ dq +:+ "]?[^\s'" +:+ dq +:+ ",]{6,}['" +:+ dq +:+ "]?").

Definition specificSecretPatterns : list regex :=
  [awsSecretPattern; pemPrivateKeyPattern; githubTokenPattern; jwtPattern].
Definition secretPatterns : list regex :=
  [awsSecretPattern; pemPrivateKeyPattern; githubTokenPattern; genericAssignmentPattern; jwtPattern].

Definition containsSecret (s : string) : bool := existsb (λ re, MatchString re s) secretPatterns.

(** The loop of [redactWith]. *)
Fixpoint redactLoop (patterns : list regex) (s : string) (changed : bool) : string * bool :=
  match patterns with
  | [] => (s, changed)
  | re :: patterns =>
    if MatchString re s then redactLoop patterns (ReplaceAllString re s redactionMarker) true
    else redactLoop patterns s changed
  end.
Definition redactWith (s : string) (patterns : list regex) : string * bool :=
  if String.eqb s "" then (s, false) else redactLoop patterns s false.
Definition redactString (s : string) : string * bool := redactWith s secretPatterns.
Definition RedactSecrets (s : string) : string * bool := redactString s.
Definition RedactHighConfidenceSecrets (s : string) : string * bool := redactWith s specificSecretPatterns.

(** [redact] of src/patchapply, with its own copy of the patterns. *)
Definition patchSecretPatterns : list regex :=
  [awsSecretPattern; pemPrivateKeyPattern; githubTokenPattern; genericAssignmentPattern; jwtPattern].
Definition redact (s : string) : string := (redactLoop patchSecretPatterns s false).1.

(** * The envelope *)

Definition SchemaVersion : string := "1.0.0".

Record RepoState := mkRepoState { rs_Path : string; rs_Branch : string; rs_Commit : string; rs_Dirty : bool }.
Record AgentInfo := mkAgentInfo {
  ai_Name : string; ai_Version : string; ai_Tool : string; ai_ToolVersion : string; ai_CLIVersion : string }.
Record ChangedFile := mkChangedFile { cf_Path : string; cf_OldPath : string; cf_Type : ChangeType; cf_Hash : string }.
Record CommandResult := mkCommand {
  cr_Name : string; cr_Args : list string; cr_Classification : CommandClass; cr_Status : Status;
  cr_ExitCode : option Z; cr_Duration : Z; cr_EnvironmentNeeds : list string; cr_Output : string; cr_Reason : string }.
Record RollbackStatus := mkRollbackStatus {
  rb_Available : bool; rb_Applied : bool; rb_Method : string; rb_Notes : string }.
Record Envelope := mkEnvelope {
  en_SchemaVersion : string; en_Repository : RepoState; en_Agent : AgentInfo; en_Changes : list ChangedFile;
  en_Commands : list CommandResult; en_Verification : list VerificationResult; en_Approvals : list Approval;
  en_Rollback : option RollbackStatus; en_CreatedAt : Z }.

(** [Envelope.Redact]. *)
Definition redactCommand (c : CommandResult) : CommandResult :=
  mkCommand (cr_Name c) ((λ a, (redactString a).1) <$> cr_Args c) (cr_Classification c) (cr_Status c) (cr_ExitCode c)
    (cr_Duration c) (cr_EnvironmentNeeds c) (redactString (cr_Output c)).1 (redactString (cr_Reason c)).1.
Definition redactVerification (v : VerificationResult) : VerificationResult :=
  mkVResult (vr_Name v) (vr_Category v) (vr_Status v) (vr_Duration v)
    (redactString (vr_Message v)).1 (redactString (vr_Reason v)).1.
Definition redactApproval (a : Approval) : Approval :=
  mkApproval (ap_Action a) (ap_ApprovedBy a) (ap_ApprovedAt a) (redactString (ap_Notes a)).1.
Definition redactRollback (r : RollbackStatus) : RollbackStatus :=
  mkRollbackStatus (rb_Available r) (rb_Applied r) (rb_Method r) (redactString (rb_Notes r)).1.
Definition Redact (e : Envelope) : Envelope :=
  mkEnvelope (en_SchemaVersion e) (en_Repository e) (en_Agent e) (en_Changes e) (redactCommand <$> en_Commands e)
    (redactVerification <$> en_Verification e) (redactApproval <$> en_Approvals e)
    (redactRollback <$> en_Rollback e) (en_CreatedAt e).

(** * Validation *)

Definition requiresReason (status : Status) : bool :=
  String.eqb status StatusSkipped || String.eqb status StatusUnavailable.
Definition when (b : bool) (e : error) : list error := if b then [e] else [].

Definition validateCommand (i : nat) (c : CommandResult) : list error :=
  when (requiresReason (cr_Status c) && String.eqb (TrimSpace (cr_Reason c)) "")
    (Errorf "commands[%d] (%s): reason is required when status is %q" [pretty i; cr_Name c; cr_Status c] [])
  ++ when (containsSecret (cr_Output c))
       (Errorf "commands[%d] (%s): output contains an unredacted secret-shaped value" [pretty i; cr_Name c] [])
  ++ when (containsSecret (cr_Reason c))
       (Errorf "commands[%d] (%s): reason contains an unredacted secret-shaped value" [pretty i; cr_Name c] [])
  ++ when (existsb containsSecret (cr_Args c))
       (Errorf "commands[%d] (%s): args contains an unredacted secret-shaped value" [pretty i; cr_Name c] []).

Definition validateVerification (i : nat) (v : VerificationResult) : list error :=
  when (requiresReason (vr_Status v) && String.eqb (TrimSpace (vr_Reason v)) "")
    (Errorf "verification[%d] (%s): reason is required when status is %q" [pretty i; vr_Name v; vr_Status v] [])
  ++ when (containsSecret (vr_Message v))
       (Errorf "verification[%d] (%s): message contains an unredacted secret-shaped value" [pretty i; vr_Name v] [])
  ++ when (containsSecret (vr_Reason v))
       (Errorf "verification[%d] (%s): reason contains an unredacted secret-shaped value" [pretty i; vr_Name v] []).

Definition validateApproval (i : nat) (a : Approval) : list error :=
  when (containsSecret (ap_Notes a))
    (Errorf "approvals[%d] (%s): notes contains an unredacted secret-shaped value" [pretty i; ap_Action a] []).

(** The errors of all elements, with their indices. *)
Definition indexed {A} (f : nat → A → list error) (l : list A) : list error := mjoin (imap f l).

Definition Validate (e : Envelope) : option error :=
  errors_Join (Some <$> (
    when (String.eqb (en_SchemaVersion e) "") (New "schema_version is required")
    ++ when (String.eqb (rs_Path (en_Repository e)) "") (New "repository.path is required")
    ++ when (String.eqb (rs_Commit (en_Repository e)) "") (New "repository.commit is required")
    ++ when (en_CreatedAt e =? zeroTime)%Z (New "created_at is required")
    ++ indexed validateCommand (en_Commands e)
    ++ indexed validateVerification (en_Verification e)
    ++ indexed validateApproval (en_Approvals e)
    ++ match en_Rollback e with
       | Some r => when (containsSecret (rb_Notes r)) (New "rollback: notes contains an unredacted secret-shaped value")
       | None => []
       end)).

(** Every pattern is one. *)
Example patterns_compile :
  Forall (λ r, r ≠ RClass (mkCls false false [])) secretPatterns.
Proof. repeat constructor; discriminate. Qed.
Example redact_ex1 : redactString "db_password: hunter22 and ghp_0123456789abcdefghij" = ("db_[REDACTED] and [REDACTED]", true).
Proof. vm_compute. reflexivity. Qed.
Example redact_ex2 : redactString "key: key: abcdef" = ("key: [REDACTED]", true).
Proof. vm_compute. reflexivity. Qed.
Example redact_ex3 : redactString "secret: token: hunter2" = ("[REDACTED] hunter2", true).
Proof. vm_compute. reflexivity. Qed.

(** * Correctness *)

Lemma redactLoop_changed patterns : ∀ s changed, (redactLoop patterns s changed).2 = true ↔
  changed = true ∨ ∃ re, re ∈ patterns ∧ MatchString re s = true.
Proof.
  induction patterns as [|re patterns IH]; intros s changed; simpl.
  - split; [by left|]. intros [?|(re & []%not_elem_of_nil & _)]. done.
  - destruct (MatchString re s) eqn:E.
    + rewrite IH. split; [|by left]. intros _. right. exists re. split; [apply list_elem_of_here|done].
    + rewrite IH. split; (intros [?|(re' & Hin & Hm)]; [by left|]); right; exists re'; split; try done.
      * by apply list_elem_of_further.
      * apply elem_of_cons in Hin as [->|?]; [congruence|done].
Qed.

Lemma redactLoop_same patterns s changed : (∀ re, re ∈ patterns → MatchString re s = false) →
  redactLoop patterns s changed = (s, changed).
Proof.
  induction patterns as [|re patterns IH]; intros H; simpl; [done|].
  rewrite (H re) by apply list_elem_of_here. apply IH. intros re' Hre'. apply H. by apply list_elem_of_further.
Qed.

Lemma existsb_elem {A} (f : A → bool) l : existsb f l = true ↔ ∃ x, x ∈ l ∧ f x = true.
Proof. rewrite existsb_exists. by setoid_rewrite list_elem_of_In. Qed.

(** What [redactWith] reports is exact. *)
Lemma redactWith_exact patterns s : existsb (λ re, MatchString re "") patterns = false →
  (redactWith s patterns).2 = existsb (λ re, MatchString re s) patterns ∧
  (existsb (λ re, MatchString re s) patterns = false → (redactWith s patterns).1 = s).
Proof.
  intros Hempty. unfold redactWith. destruct (String.eqb_spec s "") as [->|_]; [by rewrite Hempty|].
  split.
  - apply eq_true_iff_eq. rewrite redactLoop_changed, existsb_elem. naive_solver.
  - intros Hno. rewrite redactLoop_same; [done|]. intros re Hre. destruct (MatchString re s) eqn:E; [|done].
    rewrite (proj2 (existsb_elem _ patterns)) in Hno; [done|]. eauto.
Qed.

(** [RedactSecrets] reports a replacement exactly when the text contains a
    secret-shaped value, and otherwise returns the text unchanged; the
    high-confidence variant does so for its patterns. *)
Theorem redact_exact s :
  (RedactSecrets s).2 = containsSecret s ∧ (containsSecret s = false → (RedactSecrets s).1 = s) ∧
  (RedactHighConfidenceSecrets s).2 = existsb (λ re, MatchString re s) specificSecretPatterns ∧
  ((RedactHighConfidenceSecrets s).2 = true → containsSecret s = true).
Proof.
  destruct (redactWith_exact secretPatterns s) as [H1 H2]; [vm_compute; reflexivity|].
  destruct (redactWith_exact specificSecretPatterns s) as [H3 _]; [vm_compute; reflexivity|].
  split_and!; [done|done|done|]. intros H. unfold RedactHighConfidenceSecrets in H. rewrite H3 in H.
  apply existsb_elem in H as (re & Hre & Hm). apply existsb_elem. exists re. split; [|done].
  unfold specificSecretPatterns, secretPatterns in *. set_solver.
Qed.

(** ** Validation *)

Definition clean (s : string) : Prop := containsSecret s = false.
Definition reasoned (status : Status) (reason : string) : Prop :=
  status = StatusSkipped ∨ status = StatusUnavailable → TrimSpace reason ≠ "".

(** What the schema asks of an envelope. *)
Record wellFormed (e : Envelope) : Prop := {
  wf_version : en_SchemaVersion e ≠ ""; wf_path : rs_Path (en_Repository e) ≠ "";
  wf_commit : rs_Commit (en_Repository e) ≠ ""; wf_created : en_CreatedAt e ≠ zeroTime;
  wf_commands : Forall (λ c, reasoned (cr_Status c) (cr_Reason c) ∧ clean (cr_Output c) ∧ clean (cr_Reason c) ∧
    Forall clean (cr_Args c)) (en_Commands e);
  wf_verification : Forall (λ v, reasoned (vr_Status v) (vr_Reason v) ∧ clean (vr_Message v) ∧ clean (vr_Reason v))
    (en_Verification e);
  wf_approvals : Forall (λ a, clean (ap_Notes a)) (en_Approvals e);
  wf_rollback : ∀ r, en_Rollback e = Some r → clean (rb_Notes r) }.

Lemma app_nil_iff {A} (l k : list A) : l ++ k = [] ↔ l = [] ∧ k = [].
Proof. split; [apply app_nil|by intros [-> ->]]. Qed.

Lemma when_nil b e : when b e = [] ↔ b = false.
Proof. by destruct b. Qed.

Lemma indexed_nil {A} (f : nat → A → list error) (P : A → Prop) l : (∀ i x, f i x = [] ↔ P x) →
  indexed f l = [] ↔ Forall P l.
Proof.
  intros Hf. unfold indexed. revert f Hf. induction l as [|x l IH]; intros f Hf; [by split|].
  rewrite imap_cons. simpl. rewrite Forall_cons, <-(IH (f ∘ S)) by (intros; apply Hf). rewrite <-(Hf 0).
  apply app_nil_iff.
Qed.

Lemma reasoned_spec status reason :
  requiresReason status && String.eqb (TrimSpace reason) "" = false ↔ reasoned status reason.
Proof.
  unfold requiresReason, reasoned. rewrite andb_false_iff, orb_false_iff, !String.eqb_neq.
  destruct (decide (TrimSpace reason = "")); destruct (decide (status = StatusSkipped)), (decide (status = StatusUnavailable)); tauto.
Qed.

Lemma clean_args args : existsb containsSecret args = false ↔ Forall clean args.
Proof.
  induction args as [|a args IH]; [by split|]. simpl. rewrite orb_false_iff, Forall_cons, IH. done.
Qed.

Lemma Joined_nil (l : list error) : errors_Join (Some <$> l) = None ↔ l = [].
Proof. rewrite errors_Join_None. destruct l; simpl; [by split|]. split; [|done]. intros H. by inversion H. Qed.

Lemma validateCommand_nil i c : validateCommand i c = [] ↔
  reasoned (cr_Status c) (cr_Reason c) ∧ clean (cr_Output c) ∧ clean (cr_Reason c) ∧ Forall clean (cr_Args c).
Proof. unfold validateCommand. by rewrite !app_nil_iff, !when_nil, reasoned_spec, clean_args. Qed.
Lemma validateVerification_nil i v : validateVerification i v = [] ↔
  reasoned (vr_Status v) (vr_Reason v) ∧ clean (vr_Message v) ∧ clean (vr_Reason v).
Proof. unfold validateVerification. by rewrite !app_nil_iff, !when_nil, reasoned_spec. Qed.
Lemma validateApproval_nil i a : validateApproval i a = [] ↔ clean (ap_Notes a).
Proof. unfold validateApproval. by rewrite when_nil. Qed.

(** [Validate] returns nil exactly for the well-formed envelopes. *)
Theorem validate_exact e : Validate e = None ↔ wellFormed e.
Proof.
  unfold Validate. rewrite Joined_nil, !app_nil_iff, !when_nil, !String.eqb_neq, Z.eqb_neq.
  rewrite (indexed_nil _ _ _ validateCommand_nil), (indexed_nil _ _ _ validateVerification_nil),
    (indexed_nil _ _ _ validateApproval_nil).
  assert (match en_Rollback e with
    | Some r => when (containsSecret (rb_Notes r)) (New "rollback: notes contains an unredacted secret-shaped value")
    | None => [] end = [] ↔ ∀ r, en_Rollback e = Some r → clean (rb_Notes r)) as ->.
  { destruct (en_Rollback e); rewrite ?when_nil; split; naive_solver. }
  split; [|by intros []; split_and!]. intros (? & ? & ? & ? & ? & ? & ? & ?). by split.
Qed.

(** ** Where redaction ends *)

Definition demo_command (output : string) : CommandResult :=
  mkCommand "make test" [] ClassSafe StatusPass (Some 0%Z) 0 [] output "".
Definition demo_envelope (output : string) : Envelope :=
  mkEnvelope SchemaVersion (mkRepoState "/repo" "main" "abc" false) (mkAgentInfo "a" "" "" "" "") []
    [demo_command output] [] [] None 1.

(** The marker itself has the shape of a secret's value.  Where a replaced
    assignment was itself the value of a key, what is left is matched again, so
    an envelope that was redacted can fail to validate; and where the key of an
    assignment is long enough to be taken for the value of the one before it,
    only the key is replaced and the secret stays. *)
Theorem redaction_incomplete :
  Validate (demo_envelope "key: key: abcdef") ≠ None ∧ Validate (Redact (demo_envelope "key: key: abcdef")) ≠ None ∧
  Validate (Redact (Redact (demo_envelope "key: key: abcdef"))) = None ∧
  RedactSecrets "secret: token: hunter2" = ("[REDACTED] hunter2", true).
Proof. vm_compute. done. Qed.
