(* ===== verification/Classify.v ===== *)
(** Classification of command lines (src/discovery/classify.go): the ordered
    rule table and [ClassifyCommand], which decides what an agent may run
    without approval. *)

From Stdlib Require Import Ascii.
From stdpp Require Import base list strings sets.
From S2P Require Import Prelude Provenance Regex Paths GoStrings.

Record ClassificationRule := mkRule {
  ru_Pattern : regex; ru_RejectArgs : option (list string → bool); ru_Class : CommandClass; ru_Reason : string }.

Definition unsafeGitReadOnlyArg (arg : string) : bool :=
  if String.eqb arg "-o" || String.eqb arg "-O" || String.eqb arg "-c" then true
  else if HasPrefix arg "--output" || HasPrefix arg "--output-directory" then true
  else HasPrefix arg "--ext-diff".

Definition rejectUnsafeGitReadOnlyArgs (args : list string) : bool := existsb unsafeGitReadOnlyArg args.

Definition gitReadPattern : regex := Eval vm_compute in MustCompile "^git (status|diff|log)\b".
Definition goSafePattern : regex := Eval vm_compute in
  MustCompile "^go (-C [A-Za-z0-9_][A-Za-z0-9_-]*(/[A-Za-z0-9_][A-Za-z0-9_-]*)* )?(build|vet|test)( [A-Za-z0-9_.][A-Za-z0-9_./-]*)*$".
Definition goModVerifyPattern : regex := Eval vm_compute in MustCompile "^go mod verify$".
Definition scriptPattern : regex := Eval vm_compute in MustCompile "^\./scripts/check-[A-Za-z0-9_.-]+\.sh$".
Definition makeSafePattern : regex := Eval vm_compute in
  MustCompile "^make (build|test|test-arch|lint|help|check-[a-z-]+)$".

Definition ClassificationRules : list ClassificationRule := [
  mkRule gitReadPattern (Some rejectUnsafeGitReadOnlyArgs) ClassSafe
    "read-only git inspection command; always allowed per agent-safety-policy.md";
  mkRule (MustCompile "^git (reset --hard|clean -f|branch -D)\b") None ClassDestructive
    "discards uncommitted work or deletes a branch irreversibly; requires explicit human approval before running per agent-safety-policy.md";
  mkRule (MustCompile "^git (push|tag)\b") None ClassApprovalRequired
    "pushes to a remote or creates a tag; external mutation requires explicit, current-session human approval per agent-safety-policy.md";
  mkRule (MustCompile "^git (add|commit)\b") None ClassMutating
    "writes to the local git index/history on the current branch; allowed on a feature branch, never directly on main";
  mkRule goSafePattern None ClassSafe
    "compiles or statically checks code with no side effects; always allowed per agent-safety-policy.md";
  mkRule goModVerifyPattern None ClassSafe
    "verifies downloaded modules against go.sum checksums; read-only, no network or mutation";
  mkRule (MustCompile "^go mod download\b") None ClassNetworked
    "fetches module content from the configured module proxy";
  mkRule scriptPattern None ClassSafe
    "runs a repository check script (scripts/check-*.sh), the same read-only verification the make check-* targets wrap";
  mkRule (MustCompile "^make fmt\b") None ClassMutating "rewrites source files in place (gofmt -s -w .)";
  mkRule (MustCompile "^make deps\b") None ClassNetworked "downloads Go module dependencies (go mod download)";
  mkRule (MustCompile "^make vuln\b") None ClassNetworked "fetches the govulncheck vulnerability database over the network";
  mkRule (MustCompile "^make release\b") None ClassApprovalRequired
    "tags and pushes a release (git tag + git push origin); tagging/publishing a release always requires explicit human approval per agent-safety-policy.md, regardless of any standing autonomy instruction";
  mkRule (MustCompile "^make publish-godev\b") None ClassApprovalRequired
    "networked AND externally visible (asks proxy.golang.org/pkg.go.dev to index a release); approval_required takes precedence over networked per this rule table's documented tie-break";
  mkRule makeSafePattern None ClassSafe
    "runs a read-only build, test, or verification target (wraps go build/test/vet, golangci-lint run, or a read-only check script) with no network or mutating side effects"].

Definition shellMetacharacters : regex := Eval vm_compute in
  MustCompile ("[;&|`$<>" +:+ nlString +:+ String (ascii_of_N 13) "]").

(** The first rule that matches and does not reject the arguments. *)
Definition applies (trimmed : string) (rule : ClassificationRule) : bool :=
  MatchString (ru_Pattern rule) trimmed
  && match ru_RejectArgs rule with Some f => negb (f (Fields trimmed)) | None => true end.

Definition ClassifyCommand (cmd : string) : CommandClass * string :=
  let trimmed := TrimSpace cmd in
  if MatchString shellMetacharacters trimmed
  then (ClassApprovalRequired, "command contains a shell metacharacter (;, &, |, `, $, <, >, or a newline) that could chain, substitute, or redirect beyond the matched command; fail-safe default treats this as approval-required rather than classifying by prefix alone")
  else match find (applies trimmed) ClassificationRules with
  | Some rule => (ru_Class rule, ru_Reason rule)
  | None => (ClassApprovalRequired, "no classification rule matched this command; fail-safe default treats any unrecognized command as approval-required rather than assuming it is safe")
  end.

Example classify_ex :
  (λ c, (ClassifyCommand c).1) <$> ["git diff --stat"; " git push origin main"; "git diff --output=x"; "go -C tools/a test ./...";
    "go test -exec=x ."; "go -C ../x build"; "make test"; "make test -f evil.mk"; "rm -rf /"; "git status; rm x"; "make release VERSION=1";
    "./scripts/check-a.sh"; "git commit -m x"; "go mod download"; "git reset --hard"]
  = ["safe"; "approval_required"; "approval_required"; "safe"; "approval_required"; "approval_required"; "safe"; "approval_required";
     "approval_required"; "approval_required"; "approval_required"; "safe"; "mutating"; "networked"; "destructive"].
Proof. vm_compute. reflexivity. Qed.

(** * What is classified as safe *)

Definition wordChars : list (Z * Z) := [(65, 90); (97, 122); (48, 57); (95, 95)]%Z.
Definition dash : Z * Z := (45, 45)%Z.

(** A name that does not start with a dash or a dot: a segment of a [-C]
    directory. *)
Definition segment (s : string) : Prop :=
  ∃ a r, s = String a r ∧ inRanges wordChars (byteZ a) = true ∧ allIn (wordChars ++ [dash]) r = true.
(** An argument of go: it starts with a letter, a digit, [_] or [.], so it is
    neither a flag nor an absolute path. *)
Definition goArg (s : string) : Prop :=
  ∃ a r, s = String a r ∧ inRanges (wordChars ++ [(46, 46)%Z]) (byteZ a) = true ∧
    allIn (wordChars ++ [(46, 46)%Z; (47, 47)%Z; dash]) r = true.

(** An argument, as it stands, that neither names an output file ([-o], [-O],
    [--output], [--output=...], [--output-directory...]) nor gives control to a
    configured program ([--ext-diff], and [-c], which sets one). *)
Definition gitArg (arg : string) : Prop :=
  arg ≠ "-o" ∧ arg ≠ "-O" ∧ arg ≠ "-c" ∧ ∀ rest, arg ≠ "--output" +:+ rest ∧ arg ≠ "--ext-diff" +:+ rest.

Inductive safeCommand : string → Prop :=
| safe_git verb rest : verb ∈ ["status"; "diff"; "log"] →
    Forall gitArg (Fields ("git " +:+ verb +:+ rest)) →
    safeCommand ("git " +:+ verb +:+ rest)
| safe_go verb args : verb ∈ ["build"; "vet"; "test"] → Forall goArg args →
    safeCommand ("go " +:+ verb +:+ concatS (String.append " " <$> args))
| safe_go_dir seg segs verb args : segment seg → Forall segment segs →
    verb ∈ ["build"; "vet"; "test"] → Forall goArg args →
    safeCommand ("go -C " +:+ seg +:+ concatS (String.append "/" <$> segs) +:+ " " +:+ verb
                 +:+ concatS (String.append " " <$> args))
| safe_mod_verify : safeCommand "go mod verify"
| safe_script name : name ≠ "" → allIn (wordChars ++ [(46, 46)%Z; dash]) name = true →
    safeCommand ("./scripts/check-" +:+ name +:+ ".sh")
| safe_make target : target ∈ ["build"; "test"; "test-arch"; "lint"; "help"] → safeCommand ("make " +:+ target)
| safe_check name : name ≠ "" → allIn [(97, 122)%Z; dash] name = true → safeCommand ("make check-" +:+ name).

(** ** The shapes of the safe rules *)

Lemma git_read_shape t : MatchString gitReadPattern t = true →
  ∃ verb rest, t = "git " +:+ verb +:+ rest ∧ verb ∈ ["status"; "diff"; "log"].
Proof.
  intros (s1 & s2 & -> & H)%Match_prefix; [|done]. unfold gitReadPattern in H. do 5 sl_step H.
  apply SL_cat_inv in H as (v & s3 & -> & Hv & H). do 2 sl_step H. sl_step Hv. exists v, s2. split.
  - vm_compute (ascii_of_N _). by rewrite str_app_nil_r.
  - apply SL_alt_inv in Hv as [Hv|[Hv|Hv]%SL_alt_inv]; repeat sl_step Hv; vm_compute (ascii_of_N _); set_solver.
Qed.

Lemma go_mod_verify_shape t : MatchString goModVerifyPattern t = true → t = "go mod verify".
Proof. intros H%Match_anchored; [|done..]. unfold goModVerifyPattern in H. repeat sl_step H. done. Qed.

Lemma script_shape t : MatchString scriptPattern t = true →
  ∃ name, t = "./scripts/check-" +:+ name +:+ ".sh" ∧ name ≠ "" ∧ allIn (wordChars ++ [(46, 46)%Z; dash]) name = true.
Proof.
  intros H%Match_anchored; [|done..]. unfold scriptPattern in H. do 17 sl_step H.
  apply SL_cat_inv in H as (v & s & -> & [Hv Hall]%SL_plus_class & H); [|done]. repeat sl_step H. by exists v.
Qed.

Lemma make_shape t : MatchString makeSafePattern t = true →
  (∃ target, t = "make " +:+ target ∧ target ∈ ["build"; "test"; "test-arch"; "lint"; "help"]) ∨
  ∃ name, t = "make check-" +:+ name ∧ name ≠ "" ∧ allIn [(97, 122)%Z; dash] name = true.
Proof.
  intros H%Match_anchored; [|done..]. unfold makeSafePattern in H. do 6 sl_step H.
  apply SL_cat_inv in H as (v & s & -> & Hv & H). repeat sl_step H. sl_step Hv. vm_compute (ascii_of_N _).
  rewrite str_app_nil_r.
  do 5 (apply SL_alt_inv in Hv as [Hv|Hv];
    [left; exists v; split; [done|]; repeat sl_step Hv; vm_compute (ascii_of_N _); set_solver|]).
  right. do 6 sl_step Hv. apply SL_cat_inv in Hv as (n & s & -> & [Hn Hall]%SL_plus_class & Hv); [|done].
  repeat sl_step Hv. exists n. by rewrite str_app_nil_r.
Qed.

Lemma go_shape t : MatchString goSafePattern t = true → safeCommand t.
Proof.
  intros H%Match_anchored; [|done..]. unfold goSafePattern in H. do 4 sl_step H.
  apply SL_cat_inv in H as (d & s & -> & Hd & H). apply SL_cat_inv in H as (v & s' & -> & Hv & H).
  apply SL_cat_inv in H as (a & s'' & -> & Ha & H). repeat sl_step H. sl_step Hv.
  assert (v ∈ ["build"; "vet"; "test"]) as Hverb.
  { apply SL_alt_inv in Hv as [Hv|[Hv|Hv]%SL_alt_inv]; repeat sl_step Hv; vm_compute (ascii_of_N _); set_solver. }
  apply SL_items in Ha as (args & -> & Hargs); [|lia|done..].
  vm_compute (ascii_of_N _). rewrite str_app_nil_r.
  apply SL_alt_inv in Hd as [Hd|Hd].
  - do 4 sl_step Hd. apply SL_item in Hd as (seg & r & -> & Hseg & Hd); [|done..].
    apply SL_cat_inv in Hd as (r1 & r2 & -> & Hsegs & Hd). apply SL_items in Hsegs as (segs & -> & Hsegs); [|lia|done..].
    repeat sl_step Hd. vm_compute (ascii_of_N _).
    change (safeCommand ("go -C " +:+ (seg +:+ concatS (String.append "/" <$> segs) +:+ " ") +:+ v
      +:+ concatS (String.append " " <$> args))).
    rewrite (str_app_assoc seg), (str_app_assoc (concatS _) " "). by apply safe_go_dir.
  - sl_step Hd. by apply (safe_go v args).
Qed.

Lemma safe_gitArg arg : unsafeGitReadOnlyArg arg = false → gitArg arg.
Proof.
  unfold unsafeGitReadOnlyArg. destruct (String.eqb_spec arg "-o"), (String.eqb_spec arg "-O"), (String.eqb_spec arg "-c"); try done. simpl.
  destruct (HasPrefix arg "--output") eqn:E1; [done|]. destruct (HasPrefix arg "--output-directory"); [done|]. simpl. intros E2.
  split_and!; try done. intros rest. unfold HasPrefix in *. split; intros ->; [by rewrite prefix_app_str in E1|by rewrite prefix_app_str in E2].
Qed.

(** The characters that mean something to a shell. *)
Definition metacharacters : list ascii := [";"; "&"; "|"; "`"; "$"; "<"; ">"; newline; ascii_of_N 13]%char.

Lemma no_metacharacter t a : MatchString shellMetacharacters t = false → a ∈ String.list_ascii_of_string t → a ∉ metacharacters.
Proof.
  intros Hno Hin Hmeta. assert (MatchString shellMetacharacters t = true) as E; [|congruence].
  assert (byteZ a < 128 ∧ inRanges [(59, 59); (38, 38); (124, 124); (96, 96); (36, 36); (60, 60); (62, 62); (10, 10); (13, 13)] (byteZ a) = true)%Z
    as [Hlt Hc].
  { unfold metacharacters in Hmeta. rewrite !elem_of_cons in Hmeta.
    destruct Hmeta as [->|[->|[->|[->|[->|[->|[->|[->|[->|[]%not_elem_of_nil]]]]]]]]]; vm_compute; done. }
  destruct (decode_ascii t a Hin Hlt) as (pre & x & post & Ht & Hx). apply MatchString_spec.
  exists pre, (x :: post), (Some x.1, post). split; [done|]. eapply M_cat; [|apply M_empty]. apply M_class.
  unfold inClass. cbn [c_fold c_neg c_ranges xorb existsb]. rewrite Hx, orb_false_r. exact Hc.
Qed.

(** C25. A command that [ClassifyCommand] calls safe has no character that means
    anything to a shell beyond words and quoting, and is one of: git status,
    diff or log none of whose words, as they stand, is an option for an output
    file or another program ([gitArg]); go build, vet or test, possibly in a
    directory below the current one, with arguments that are not flags; go mod
    verify; a check script; or one of the make targets that take no arguments.
    The words are those of the text: quotes and backslashes, which the shell
    removes, can still hide such an option (see [classify_quotes_and_parents]). *)
Theorem classify_safe cmd : (ClassifyCommand cmd).1 = ClassSafe →
  safeCommand (TrimSpace cmd) ∧ ∀ a, a ∈ String.list_ascii_of_string (TrimSpace cmd) → a ∉ metacharacters.
Proof.
  unfold ClassifyCommand. set (t := TrimSpace cmd). destruct (MatchString shellMetacharacters t) eqn:Hm; [done|].
  destruct (find (applies t) ClassificationRules) as [rule|] eqn:Hf; [|done]. cbn [fst]. intros Hclass.
  split; [|intros a; by apply no_metacharacter].
  apply find_some in Hf as [Hin [Hmatch Hargs]%andb_true_iff].
  unfold ClassificationRules in Hin. cbn [In] in Hin.
  repeat (destruct Hin as [<-|Hin]; [try done; cbn [ru_Pattern ru_RejectArgs] in Hmatch, Hargs|]); [| | | | |done].
  - destruct (git_read_shape t Hmatch) as (verb & rest & -> & Hverb). constructor; [done|].
    apply negb_true_iff in Hargs. unfold rejectUnsafeGitReadOnlyArgs in Hargs.
    apply Forall_forall. intros arg Harg. apply safe_gitArg. destruct (unsafeGitReadOnlyArg arg) eqn:E; [|done].
    rewrite (proj2 (existsb_exists _ _)) in Hargs; [done|]. exists arg. split; [by apply list_elem_of_In|done].
  - by apply go_shape.
  - rewrite (go_mod_verify_shape t Hmatch). constructor.
  - destruct (script_shape t Hmatch) as (name & -> & ? & ?). by constructor.
  - destruct (make_shape t Hmatch) as [(target & -> & ?)|(name & -> & ? & ?)]; [by apply safe_make|by apply safe_check].
Qed.

Lemma classify_safe_witness :
  safeCommand "go -C tools/x test ./..." ∧ ∀ a, a ∈ String.list_ascii_of_string "go -C tools/x test ./..." → a ∉ metacharacters.
Proof. apply (classify_safe "  go -C tools/x test ./... "). vm_compute. reflexivity. Defined.

(** The arguments are checked as they stand, with the quotes that the shell
    removes and options written out in part, and go's arguments may lead out of
    the directory. *)
Theorem classify_quotes_and_parents :
  (ClassifyCommand "git diff --output=README.md").1 = ClassApprovalRequired ∧
  (ClassifyCommand "git diff '--output=README.md'").1 = ClassSafe ∧
  (ClassifyCommand "git log --outpu\t=go.sum").1 = ClassSafe ∧ (ClassifyCommand "git diff --ext-dif").1 = ClassSafe ∧
  (ClassifyCommand "go -C ../other test .").1 = ClassApprovalRequired ∧ (ClassifyCommand "go test ../other/...").1 = ClassSafe.
Proof. vm_compute. done. Qed.
