(* ===== verification/VerifyPlan.v ===== *)
(** Verification planning and running (src/verify/verify.go, run.go): which
    checks a set of changed files calls for, and how checks are executed.

    [PlanFor] is a function; [Run] executes processes, so it takes its answers
    from an environment and returns what it spawned along with the results. *)

From Stdlib Require Import Ascii.
From stdpp Require Import base gmap list strings pretty sorting.
From S2P Require Import Prelude Quote Provenance Regex Paths GoStrings.

Definition VerificationFocused : VerificationCategory := "focused".
Definition VerificationFull : VerificationCategory := "full".

Record CheckSpec := mkCheck {
  cs_Name : string; cs_Command : string; cs_Category : VerificationCategory; cs_Reason : string;
  cs_RequiredTool : string; cs_Networked : bool; cs_Dir : string }.
#[export] Instance CheckSpec_eq_dec : EqDecision CheckSpec.
Proof. solve_decision. Defined.

Record Plan := mkPlan { pl_FocusedChecks : list CheckSpec; pl_FullGates : list CheckSpec }.

Definition safePathPattern : regex := Eval vm_compute in MustCompile "^[A-Za-z0-9_.\-/]+$".
Definition isPathSafeForCommand (path : string) : bool :=
  if String.eqb path "" || Contains path ".." then false else MatchString safePathPattern path.

(** A check of neither network nor directory of its own. *)
Definition check (name command : string) (category : VerificationCategory) (reason tool : string) : CheckSpec :=
  mkCheck name command category reason tool false "".

Definition FullGates : list CheckSpec := [
  check "build" "make build" VerificationFull
    "compiles all packages and examples; required before any push or release per AGENTS.md" "go";
  check "test" "make test" VerificationFull
    "runs the full test suite; required before any push or release per AGENTS.md" "go";
  check "test-arch" "make test-arch" VerificationFull
    "runs the full test suite under the race detector; required before any push or release per AGENTS.md" "go";
  check "lint" "make lint" VerificationFull
    "runs golangci-lint across the repository; required before any push or release per AGENTS.md" "golangci-lint";
  check "check-consumer-boundary" "make check-consumer-boundary" VerificationFull
    "verifies a consumer importing only the core package does not compile in an integration adapter as a build dependency" "go";
  check "check-module-boundary" "make check-module-boundary" VerificationFull
    "runs the modboundary analyzer against examples/deployment to enforce feature-module boundaries" "go";
  check "check-api-compat" "make check-api-compat" VerificationFull "reports public API changes since the latest git tag" "go";
  check "check-changelog" "make check-changelog" VerificationFull
    "verifies CHANGELOG.md is updated when required (PR diff vs origin/main)" "git"].

Definition isWorkflowFile (path : string) : bool :=
  if negb (HasPrefix path ".github/workflows/") then false else HasSuffix path ".yml" || HasSuffix path ".yaml".
Definition isCheckScript (path : string) : bool :=
  if negb (HasPrefix path "scripts/check-") then false else HasSuffix path ".sh".

(** The part before the first slash, empty when there is none. *)
Fixpoint beforeSlash (s : string) : option string :=
  match s with
  | EmptyString => None
  | String a s => if Ascii.eqb a "/" then Some "" else String a <$> beforeSlash s
  end.
Definition topLevelSegment (path : string) : string := default "" (beforeSlash path).

(** The loop over the two parents of nested modules. *)
Fixpoint nestedUnder (parents : list string) (path : string) : option string :=
  match parents with
  | [] => None
  | parent :: parents =>
    if HasPrefix path parent then
      let sub := topLevelSegment (TrimPrefix path parent) in
      if negb (String.eqb sub "") then Some (parent +:+ sub) else nestedUnder parents path
    else nestedUnder parents path
  end.
Definition nestedModuleDir (path : string) : string :=
  match nestedUnder ["tools/"; "services/"] path with
  | Some dir => dir
  | None => if HasPrefix path "examples/external-consumer/" then "examples/external-consumer" else ""
  end.

Definition nestedModuleChecks (path dir : string) : list CheckSpec := [
  check ("test-" +:+ dir) ("go -C " +:+ dir +:+ " test ./...") VerificationFocused
    (path +:+ " changed; " +:+ dir +:+ " is its own Go module, so its tests run from that module's root") "go";
  check ("vet-" +:+ dir) ("go -C " +:+ dir +:+ " vet ./...") VerificationFocused
    (path +:+ " changed; " +:+ dir +:+ " is its own Go module, so vet runs from that module's root") "go"].

Definition focusedChecksForExample (path : string) : list CheckSpec :=
  let checks := [check "build-examples" "go build ./examples/..." VerificationFocused
    (path +:+ " changed under examples/; ensure all examples still build") "go"] in
  let nested := nestedModuleDir path in
  if negb (String.eqb nested "") then checks ++ nestedModuleChecks path nested else
  let dir := topLevelSegment (TrimPrefix path "examples/") in
  if negb (String.eqb dir "")
  then let examplePath := "examples/" +:+ dir in
       checks ++ [check ("test-" +:+ examplePath) ("go test ./" +:+ examplePath +:+ "/...") VerificationFocused
                    (examplePath +:+ " changed; run its own tests") "go"]
  else checks.

Section planning.
(** The printable runes, for [%q]. *)
Context (isPrint : N → bool).

Definition fallbackToFullGates (path : string) : list CheckSpec :=
  (λ g, mkCheck (cs_Name g) (cs_Command g) VerificationFocused
    ("no focused-check rule matched " +:+ Quote isPrint path
     +:+ "; falling back to the full gate set out of caution rather than recommending nothing")
    (cs_RequiredTool g) (cs_Networked g) "") <$> FullGates.

Definition focusedChecksForGoFile (path : string) : list CheckSpec :=
  let dir := nestedModuleDir path in
  if negb (String.eqb dir "") then nestedModuleChecks path dir else
  if HasPrefix path "tools/" || HasPrefix path "services/" then fallbackToFullGates path else
  let pkg := topLevelSegment path in
  if String.eqb pkg "" then [
    check "test-root" "go test ." VerificationFocused (path +:+ " changed; it belongs to the root package") "go";
    check "vet-root" "go vet ." VerificationFocused (path +:+ " changed; it belongs to the root package") "go"]
  else [
    check ("test-" +:+ pkg) ("go test ./" +:+ pkg +:+ "/...") VerificationFocused (pkg +:+ "/ changed") "go";
    check ("vet-" +:+ pkg) ("go vet ./" +:+ pkg +:+ "/...") VerificationFocused (pkg +:+ "/ changed") "go"].

(** [strings.ReplaceAll(path, "\\", "/")]. *)
Fixpoint slashes (s : string) : string :=
  match s with
  | EmptyString => EmptyString
  | String a s => String (if Ascii.eqb a "\" then "/" else a)%char (slashes s)
  end.

Definition focusedChecksForFile (path : string) : list CheckSpec :=
  let path := slashes path in
  if negb (isPathSafeForCommand path) then fallbackToFullGates path
  else if isWorkflowFile path then []
  else if isCheckScript path then
    [check path ("./" +:+ path) VerificationFocused
       (path +:+ " itself changed; run it directly rather than only its make wrapper") ""]
  else if HasPrefix path "examples/" then focusedChecksForExample path
  else if String.eqb path "go.mod" || String.eqb path "go.sum" then [
    check "check-api-compat" "make check-api-compat" VerificationFocused
      (path +:+ " changed; dependency changes can affect the public API surface") "go";
    check "go-mod-verify" "go mod verify" VerificationFocused
      (path +:+ " changed; verify downloaded modules match go.sum checksums") "go"]
  else if String.eqb path "CHANGELOG.md" then
    [check "check-changelog" "make check-changelog" VerificationFocused
       "CHANGELOG.md changed; trivially fast to re-check now rather than only at full-gate time" "git"]
  else if HasSuffix path ".go" then focusedChecksForGoFile path
  else
    let dir := nestedModuleDir path in
    if negb (String.eqb dir "") then nestedModuleChecks path dir else fallbackToFullGates path.

(** * Deduplication and order *)

Definition nulString : string := String (ascii_of_N 0) "".
Definition checkKey (c : CheckSpec) : string :=
  cs_Category c +:+ nulString +:+ cs_Name c +:+ nulString +:+ cs_Command c.
(** The first check of every key. *)
Fixpoint dedupe (seen : list string) (checks : list CheckSpec) : list CheckSpec :=
  match checks with
  | [] => []
  | c :: checks => if decide (checkKey c ∈ seen) then dedupe seen checks else c :: dedupe (checkKey c :: seen) checks
  end.
(** By category, then name. *)
Definition checkLe (a b : CheckSpec) : Prop :=
  if decide (cs_Category a = cs_Category b) then String.le (cs_Name a) (cs_Name b)
  else String.le (cs_Category a) (cs_Category b).
#[export] Instance checkLe_dec : RelDecision checkLe.
Proof. intros a b. unfold checkLe. destruct (decide _); apply _. Defined.

Section plan.
(** [sort.Slice] with that order; it is not stable. *)
Context (sortSlice : list CheckSpec → list CheckSpec).

Definition dedupeAndSort (checks : list CheckSpec) : list CheckSpec := sortSlice (dedupe [] checks).
Definition copyFullGates : list CheckSpec := FullGates.
Definition PlanFor (changedFiles : list string) : Plan :=
  mkPlan (dedupeAndSort (changedFiles ≫= focusedChecksForFile)) copyFullGates.
End plan.

(** * Commands of a plan *)

Definition pathChars : list (Z * Z) := [(65, 90); (97, 122); (48, 57); (95, 95); (46, 46); (45, 45); (47, 47)]%Z.
(** What a command line of a plan is made of: no quote, no backslash, nothing
    that a shell expands. *)
Definition commandChars : list (Z * Z) := (32, 32)%Z :: pathChars.

Lemma allIn_impl rs rs' s : (∀ a, inRanges rs a = true → inRanges rs' a = true) → allIn rs s = true → allIn rs' s = true.
Proof. intros H. unfold allIn. rewrite !forallb_forall. auto. Qed.

Lemma path_command s : allIn pathChars s = true → allIn commandChars s = true.
Proof. apply allIn_impl. intros a Ha. unfold inRanges, commandChars in *. cbn [existsb]. by rewrite Ha, orb_true_r. Qed.

Lemma safe_path_chars path : isPathSafeForCommand path = true → allIn pathChars path = true.
Proof.
  unfold isPathSafeForCommand. case_match; [done|]. intros H1%Match_anchored; [|done..]. unfold safePathPattern in H1.
  sl_step H1. apply SL_cat_inv in H1 as (s1 & s2 & -> & [_ Hall]%SL_plus_class & H1); [|done]. repeat sl_step H1.
  by rewrite str_app_nil_r.
Qed.

Lemma topLevelSegment_chars rs s : allIn rs s = true → allIn rs (topLevelSegment s) = true.
Proof.
  unfold topLevelSegment, allIn. induction s as [|a s IH]; [done|]. simpl. intros [Ha Hs]%andb_true_iff.
  destruct (Ascii.eqb a "/"); [done|]. specialize (IH Hs). destruct (beforeSlash s); simpl in *; [|done]. by rewrite Ha.
Qed.

Lemma substring_chars rs s : ∀ n m, allIn rs s = true → allIn rs (String.substring n m s) = true.
Proof.
  unfold allIn. induction s as [|a s IH]; intros [|n] [|m]; try done; simpl; intros [Ha Hs]%andb_true_iff.
  - rewrite Ha. by apply IH.
  - by apply IH.
  - by apply IH.
Qed.

Lemma TrimPrefix_chars rs s p : allIn rs s = true → allIn rs (TrimPrefix s p) = true.
Proof. intros H. unfold TrimPrefix, CutPrefix. case_match; [by apply substring_chars|done]. Qed.

Lemma nestedModuleDir_chars path : allIn pathChars path = true → allIn pathChars (nestedModuleDir path) = true.
Proof.
  intros H. unfold nestedModuleDir. cbn [nestedUnder].
  repeat case_match; simplify_eq; try done; rewrite allIn_app; apply andb_true_iff; split; try done;
    by apply topLevelSegment_chars, TrimPrefix_chars.
Qed.

Definition plainCommand (c : CheckSpec) : Prop := allIn commandChars (cs_Command c) = true.

Ltac plain_command := unfold plainCommand; cbn [cs_Command check]; rewrite ?allIn_app, ?andb_true_iff; split_and?; (reflexivity || idtac).

Lemma fallback_plain path : Forall plainCommand (fallbackToFullGates path).
Proof. unfold fallbackToFullGates. repeat constructor; reflexivity. Qed.

Lemma nested_plain path dir : allIn pathChars dir = true → Forall plainCommand (nestedModuleChecks path dir).
Proof. intros H%path_command. repeat constructor; plain_command; done. Qed.

Lemma focused_plain path : Forall plainCommand (focusedChecksForFile path).
Proof.
  unfold focusedChecksForFile. set (p := slashes path). destruct (isPathSafeForCommand p) eqn:Hsafe; cbn [negb]; [|apply fallback_plain].
  apply safe_path_chars in Hsafe as Hp. pose proof (nestedModuleDir_chars p Hp) as Hd.
  repeat case_match; try by repeat constructor.
  - repeat constructor. plain_command. by apply path_command.
  - unfold focusedChecksForExample. repeat case_match; try by repeat constructor.
    + constructor; [reflexivity|by apply nested_plain].
    + constructor; [reflexivity|]. repeat constructor. plain_command.
      by apply path_command, topLevelSegment_chars, TrimPrefix_chars.
  - unfold focusedChecksForGoFile. repeat case_match; try by repeat constructor.
    + by apply nested_plain.
    + apply path_command in Hp. repeat constructor; plain_command; by apply topLevelSegment_chars.
  - by apply nested_plain.
Qed.

Section sorted.
Context (sortSlice : list CheckSpec → list CheckSpec).
(** [sort.Slice] rearranges. *)
Context (Hsort : ∀ l, sortSlice l ≡ₚ l).

Lemma elem_of_dedupe seen l c : c ∈ dedupe seen l → c ∈ l ∧ checkKey c ∉ seen.
Proof.
  revert seen. induction l as [|x l IH]; intros seen; simpl; [by intros []%not_elem_of_nil|]. case_decide as Hd.
  - intros [? ?]%IH. split; [by apply list_elem_of_further|done].
  - rewrite !elem_of_cons. intros [->|[? Hn]%IH]; [auto|]. rewrite elem_of_cons in Hn. tauto.
Qed.

Lemma dedupe_key seen l c : c ∈ l → checkKey c ∉ seen → ∃ c', c' ∈ dedupe seen l ∧ checkKey c' = checkKey c.
Proof.
  revert seen. induction l as [|x l IH]; intros seen; [by intros []%not_elem_of_nil|]. rewrite elem_of_cons. simpl.
  intros [->|Hin] Hn; case_decide as Hd; [done| | |].
  - exists x. split; [apply list_elem_of_here|done].
  - by apply IH.
  - destruct (decide (checkKey c = checkKey x)) as [E|E]; [exists x; split; [apply list_elem_of_here|done]|].
    destruct (IH (checkKey x :: seen) Hin) as (c' & ? & ?); [rewrite elem_of_cons; tauto|].
    exists c'. split; [by apply list_elem_of_further|done].
Qed.

Lemma elem_of_focused files c : c ∈ pl_FocusedChecks (PlanFor sortSlice files) →
  ∃ f, f ∈ files ∧ c ∈ focusedChecksForFile f.
Proof.
  simpl. unfold dedupeAndSort. rewrite Hsort. intros [(f & ? & ?)%list_elem_of_bind _]%elem_of_dedupe. eauto.
Qed.
Lemma focused_key files f c : f ∈ files → c ∈ focusedChecksForFile f →
  ∃ c', c' ∈ pl_FocusedChecks (PlanFor sortSlice files) ∧ checkKey c' = checkKey c.
Proof.
  intros Hf Hc. simpl. unfold dedupeAndSort. setoid_rewrite Hsort. apply dedupe_key; [|apply not_elem_of_nil].
  apply list_elem_of_bind. eauto.
Qed.
End sorted.

Definition isSorting (sortSlice : list CheckSpec → list CheckSpec) : Prop :=
  ∀ l, sortSlice l ≡ₚ l ∧ Sorted checkLe (sortSlice l).

(** C26. Whatever the names of the changed files, every command of a plan consists of
    letters, digits, spaces and the characters _ . - and /, so no path can
    inject shell syntax; and the full gates are always there. *)
Theorem plan_commands_safe sortSlice files : isSorting sortSlice →
  let plan := PlanFor sortSlice files in
  Forall plainCommand (pl_FocusedChecks plan ++ pl_FullGates plan) ∧ pl_FullGates plan = FullGates.
Proof.
  intros Hsort plan. split; [|done]. apply Forall_app. split; [|repeat constructor; reflexivity].
  apply Forall_forall. intros c (f & _ & Hc)%elem_of_focused; [|intros l; apply Hsort].
  pose proof (focused_plain f) as H. rewrite Forall_forall in H. auto.
Qed.
Lemma merge_sorting : isSorting (merge_sort checkLe).
Proof.
  assert (Total checkLe) as Htot.
  { intros a b. unfold checkLe. destruct (decide (cs_Category a = cs_Category b)) as [E|E].
    - rewrite decide_True by done. apply total, _.
    - rewrite decide_False by done. apply total, _. }
  intros l. split; [apply merge_sort_Permutation|]. apply Sorted_merge_sort, _.
Qed.

(** A changed file that is not a workflow definition always contributes a check
    to the plan; one whose name could not be used in a command, or that no rule
    knows, contributes all the gates.  Which checks a plan has does not depend
    on the order of the files. *)
Theorem plan_complete sortSlice files : isSorting sortSlice →
  let keys fs := checkKey <$> pl_FocusedChecks (PlanFor sortSlice fs) in
  (∀ f, f ∈ files → isWorkflowFile (slashes f) = false ∨ isPathSafeForCommand (slashes f) = false →
     ∃ c, c ∈ focusedChecksForFile f ∧ checkKey c ∈ keys files) ∧
  (∀ f, f ∈ files → isPathSafeForCommand (slashes f) = false →
     Forall (λ g, cs_Command g ∈ cs_Command <$> focusedChecksForFile f) FullGates) ∧
  NoDup (keys files) ∧
  (∀ files', files ≡ₚ files' → keys files ≡ₚ keys files').
Proof.
  intros Hsort keys. assert (∀ l, sortSlice l ≡ₚ l) as Hperm by (intros l; apply Hsort).
  assert (∀ fs k, k ∈ keys fs ↔ ∃ f c, f ∈ fs ∧ c ∈ focusedChecksForFile f ∧ k = checkKey c) as Hkeys.
  { intros fs k. unfold keys. rewrite list_elem_of_fmap. split.
    - intros (c & -> & (f & ? & ?)%elem_of_focused); eauto 6.
    - intros (f & c & Hf & Hc & ->). destruct (focused_key sortSlice Hperm fs f c Hf Hc) as (c' & ? & ?). eauto. }
  assert (∀ fs, NoDup (keys fs)) as Hnd.
  { intros fs. unfold keys. simpl. unfold dedupeAndSort. rewrite Hperm.
    assert (∀ seen l, NoDup (checkKey <$> dedupe seen l)) as H; [|apply H].
    intros seen l. revert seen. induction l as [|x l IH]; intros seen; simpl; [constructor|]. case_decide; [done|].
    constructor; [|done]. intros (c & E & [_ Hn]%elem_of_dedupe)%list_elem_of_fmap. rewrite elem_of_cons in Hn. naive_solver. }
  split_and!.
  - intros f Hf Hw. assert (∃ c, c ∈ focusedChecksForFile f) as [c Hc]; [|exists c; rewrite Hkeys; eauto 6].
    unfold focusedChecksForFile. set (p := slashes f) in *.
    destruct (isPathSafeForCommand p); simpl; [|eexists; apply list_elem_of_here].
    destruct Hw as [->|]; [|done].
    unfold focusedChecksForExample, focusedChecksForGoFile, nestedModuleChecks, fallbackToFullGates.
    repeat case_match; eexists; apply list_elem_of_here.
  - intros f Hf Hun. unfold focusedChecksForFile. rewrite Hun. simpl. repeat constructor; set_solver.
  - apply Hnd.
  - intros files' Hp. apply NoDup_Permutation; [apply Hnd..|]. intros k. rewrite !Hkeys. by setoid_rewrite Hp.
Qed.
End planning.

Example plan_ex : cs_Command <$> pl_FocusedChecks (PlanFor (λ _, true) (merge_sort checkLe) ["httpx/a.go"; "tools/x/main.go"; "httpx/b.go"; "CHANGELOG.md"])
  = ["make check-changelog"; "go test ./httpx/..."; "go -C tools/x test ./..."; "go vet ./httpx/..."; "go -C tools/x vet ./..."].
Proof. vm_compute. reflexivity. Qed.

Lemma plan_commands_safe_witness :
  Forall plainCommand (pl_FocusedChecks (PlanFor (λ _, true) (merge_sort checkLe) ["a;rm -rf $HOME/x.go"; "tools/x/a.go"]) ++ FullGates).
Proof. apply (plan_commands_safe (λ _, true) (merge_sort checkLe) ["a;rm -rf $HOME/x.go"; "tools/x/a.go"] merge_sorting). Defined.
Lemma plan_complete_witness :
  ∃ c, c ∈ focusedChecksForFile (λ _, true) "httpx/a.go" ∧
    checkKey c ∈ checkKey <$> pl_FocusedChecks (PlanFor (λ _, true) (merge_sort checkLe) ["httpx/a.go"; "go.mod"]).
Proof.
  apply (plan_complete (λ _, true) (merge_sort checkLe) ["httpx/a.go"; "go.mod"] merge_sorting).
  - apply list_elem_of_here.
  - left. reflexivity.
Defined.

(** But the plan itself does depend on it: of two checks with one key the first
    file's reason is kept, and checks with the same name and different commands
    are left in the order the sort happens to give. *)
Lemma plan_order_visible :
  pl_FocusedChecks (PlanFor (λ _, true) (merge_sort checkLe) ["a.go"; "b.go"]) ≠ pl_FocusedChecks (PlanFor (λ _, true) (merge_sort checkLe) ["b.go"; "a.go"]).
Proof. vm_compute. discriminate. Qed.

(** * Running checks *)

Record ToolStatus := mkTool { to_Name : string; to_Present : bool; to_Path : string }.

(** What the environment answers while one check runs: which files exist,
    whether make and sh are found, what make -n and the shell return, and how
    long that takes. *)
Record Env := mkEnv {
  ev_exists : string → bool; ev_makeFound : bool; ev_probe : string → string → string * option error;
  ev_shMissing : option error; ev_shell : string → string → string * option error; ev_duration : Z }.
(** Processes spawned. *)
Inductive Process := MakeProbe (dir target : string) | Shell (dir command : string).

Definition maxOutputBytes : nat := 4096.
Definition truncateOutput (s : string) : string :=
  if decide (String.length s ≤ maxOutputBytes) then s
  else "...[output truncated]..." +:+ nlString +:+ String.substring (String.length s - maxOutputBytes) maxOutputBytes s.

Definition makeCommandRe : regex := Eval vm_compute in MustCompile "^make ([A-Za-z0-9._-]+)$".
Definition makefileNames : list string := ["GNUmakefile"; "makefile"; "Makefile"].
Definition noRulePatterns : list string := ["No rule to make target"; "don't know how to make"].

(** The later of two entries of one name counts. *)
Definition toolPresence (tools : list ToolStatus) : gmap string bool :=
  foldl (λ m t, <[to_Name t := to_Present t]> m) ∅ tools.
Definition isPresent (present : gmap string bool) (tool : string) : bool := default false (present !! tool).

(** The reason, empty when the check is to be run, and the process spawned to
    find out. *)
Definition missingMakeTarget (e : Env) (c : CheckSpec) : string * list Process :=
  match FindStringSubmatch makeCommandRe (cs_Command c) with
  | None => ("", [])
  | Some m =>
    let target := m 1 in
    let dir := if String.eqb (cs_Dir c) "" then "." else cs_Dir c in
    if negb (existsb (λ name, ev_exists e (Join dir name)) makefileNames)
    then ("make target " +:+ dq +:+ target +:+ dq +:+ " is not defined: the repository has no Makefile", [])
    else if negb (ev_makeFound e)
    then ("make target " +:+ dq +:+ target +:+ dq +:+ " cannot be verified: " +:+ dq +:+ "make" +:+ dq +:+ " is not present on PATH", [])
    else
      let r := ev_probe e (cs_Dir c) target in
      let spawned := [MakeProbe (cs_Dir c) target] in
      match r.2 with
      | None => ("", spawned)
      | Some _ =>
        if existsb (Contains r.1) noRulePatterns
        then ("make target " +:+ dq +:+ target +:+ dq +:+ " is not defined in the repository's Makefile", spawned)
        else ("", spawned)
      end
  end.

Definition runCommand (e : Env) (command dir : string) : (string * option error) * list Process :=
  match ev_shMissing e with
  | Some err => (("", Some err), [])
  | None => (ev_shell e dir command, [Shell dir command])
  end.

Definition runOne (e : Env) (c : CheckSpec) (present : gmap string bool) (allowNetwork : bool)
    : VerificationResult * list Process :=
  if negb (String.eqb (cs_RequiredTool c) "") && negb (isPresent present (cs_RequiredTool c))
  then (mkVResult (cs_Name c) (cs_Category c) StatusUnavailable 0 ""
          ("required tool " +:+ dq +:+ cs_RequiredTool c +:+ dq +:+ " is not present on PATH"), [])
  else if cs_Networked c && negb allowNetwork
  then (mkVResult (cs_Name c) (cs_Category c) StatusSkipped 0 ""
          "networked check skipped: no network access in this environment", [])
  else
    let m := missingMakeTarget e c in
    if negb (String.eqb m.1 "")
    then (mkVResult (cs_Name c) (cs_Category c) StatusUnavailable 0 "" m.1, m.2)
    else
      let r := runCommand e (cs_Command c) (cs_Dir c) in
      let status := match r.1.2 with Some _ => StatusFail | None => StatusPass end in
      (mkVResult (cs_Name c) (cs_Category c) status (ev_duration e) (truncateOutput r.1.1) "", m.2 ++ r.2).

(** The results, each with what was spawned for it. *)
Definition Run (env : nat → Env) (checks : list CheckSpec) (tools : list ToolStatus) (allowNetwork : bool)
    : list (VerificationResult * list Process) :=
  let present := toolPresence tools in imap (λ i c, runOne (env i) c present allowNetwork) checks.

Lemma toolPresence_spec tools name : isPresent (toolPresence tools) name = true ↔
  ∃ l t l', tools = l ++ t :: l' ∧ to_Name t = name ∧ to_Present t = true ∧ Forall (λ t, to_Name t ≠ name) l'.
Proof.
  unfold toolPresence, isPresent. induction tools as [|t tools IH] using rev_ind.
  - cbn [foldl]. rewrite lookup_empty. split; [done|]. by intros ([] & ? & ? & ? & _).
  - rewrite foldl_app. simpl. destruct (decide (to_Name t = name)) as [E|E].
    + rewrite E, lookup_insert_eq. simpl. split.
      * intros Hp. exists tools, t, []. by split_and!.
      * intros (l & t' & l' & El & Hn & Hp & Hl). destruct l' as [|y l' _] using rev_ind.
        -- apply app_inj_tail in El as [_ ->]. done.
        -- rewrite app_comm_cons, app_assoc in El. apply app_inj_tail in El as [_ ->].
           apply Forall_app in Hl as [_ Hl]. inversion Hl. done.
    + rewrite lookup_insert_ne by done. rewrite IH. split.
      * intros (l & t' & l' & -> & Hn & Hp & Hl). exists l, t', (l' ++ [t]). rewrite <-app_assoc. split_and!; try done.
        apply Forall_app. split; [done|by apply Forall_singleton].
      * intros (l & t' & l' & El & Hn & Hp & Hl). destruct l' as [|y l' _] using rev_ind.
        -- apply app_inj_tail in El as [_ ->]. done.
        -- rewrite app_comm_cons, app_assoc in El. apply app_inj_tail in El as [-> ->].
           apply Forall_app in Hl as [Hl _]. by exists l, t', l'.
Qed.

(** What one result says about what happened. *)
Record honest (e : Env) (tools : list ToolStatus) (allowNetwork : bool) (c : CheckSpec) (r : VerificationResult * list Process) : Prop := {
  ho_name : vr_Name r.1 = cs_Name c ∧ vr_Category r.1 = cs_Category c;
  ho_status : vr_Status r.1 ∈ [StatusPass; StatusFail; StatusSkipped; StatusUnavailable];
  ho_reason : vr_Status r.1 ∈ [StatusSkipped; StatusUnavailable] → vr_Reason r.1 ≠ "";
  ho_pass : vr_Status r.1 = StatusPass →
    Shell (cs_Dir c) (cs_Command c) ∈ r.2 ∧ (ev_shell e (cs_Dir c) (cs_Command c)).2 = None;
  ho_shell : ∀ dir command, Shell dir command ∈ r.2 →
    dir = cs_Dir c ∧ command = cs_Command c ∧ (cs_Networked c = true → allowNetwork = true) ∧
    (cs_RequiredTool c ≠ "" → isPresent (toolPresence tools) (cs_RequiredTool c) = true);
  ho_spawn : cs_Networked c = true ∧ allowNetwork = false ∨
    cs_RequiredTool c ≠ "" ∧ isPresent (toolPresence tools) (cs_RequiredTool c) = false → r.2 = [];
  ho_bound : String.length (vr_Message r.1) ≤ maxOutputBytes + 25 }.

Lemma substring_length n m s : String.length (String.substring n m s) ≤ m.
Proof.
  revert n m. induction s as [|a s IH]; intros [|n] [|m]; simpl; try lia.
  - specialize (IH 0 m). lia.
  - apply (IH n 0).
  - apply (IH n (S m)).
Qed.

Lemma truncate_bound s : String.length (truncateOutput s) ≤ maxOutputBytes + 25.
Proof.
  unfold truncateOutput. case_decide; [lia|]. pose proof (substring_length (String.length s - maxOutputBytes) maxOutputBytes s) as H1.
  set (x := String.substring _ _ _) in *. change (25 + String.length x ≤ maxOutputBytes + 25). lia.
Qed.

Lemma missing_no_shell e c dir command : Shell dir command ∉ (missingMakeTarget e c).2.
Proof. unfold missingMakeTarget. repeat case_match; simpl; set_solver. Qed.

Lemma runOne_honest e c tools allowNetwork : honest e tools allowNetwork c (runOne e c (toolPresence tools) allowNetwork).
Proof.
  unfold runOne. set (present := toolPresence tools).
  destruct (negb (String.eqb (cs_RequiredTool c) "") && negb (isPresent present (cs_RequiredTool c))) eqn:Htool.
  { split; simpl; try done; [set_solver|intros ??; set_solver|lia]. }
  apply andb_false_iff in Htool. rewrite !negb_false_iff, String.eqb_eq in Htool.
  destruct (cs_Networked c && negb allowNetwork) eqn:Hnet.
  { split; simpl; try done; [set_solver|intros ??; set_solver|lia]. }
  assert (cs_Networked c = true → allowNetwork = true) as Hallow by (by destruct (cs_Networked c), allowNetwork).
  assert (¬ (cs_Networked c = true ∧ allowNetwork = false ∨
    cs_RequiredTool c ≠ "" ∧ isPresent present (cs_RequiredTool c) = false)) as Hok.
  { intros [[H1 H2]|[H1 H2]]; [apply Hallow in H1; congruence|]. destruct Htool; congruence. }
  pose proof (missing_no_shell e c) as Hms. destruct (missingMakeTarget e c) as [reason spawned]. cbn [fst snd] in *.
  destruct (String.eqb_spec reason "") as [->|Hr]; simpl.
  - unfold runCommand. destruct (ev_shMissing e) as [err|]; simpl; (split; simpl; [done| | | | |done|first [apply truncate_bound|lia]]).
    + set_solver.
    + intros H. exfalso. revert H. rewrite !elem_of_cons. by intros [?|[?|[]%not_elem_of_nil]].
    + done.
    + intros dir command. rewrite app_nil_r. intros H. by apply Hms in H.
    + destruct (ev_shell e _ _).2; set_solver.
    + intros H. exfalso. revert H. rewrite !elem_of_cons. destruct (ev_shell e _ _).2; by intros [?|[?|[]%not_elem_of_nil]].
    + intros H. split; [set_solver|]. by destruct (ev_shell e _ _).2.
    + intros dir command [H|H]%elem_of_app; [by apply Hms in H|]. apply list_elem_of_singleton in H as [= -> ->].
      split_and!; try done. intros Hne. by destruct Htool.
  - split; simpl; try done; [set_solver|intros dir command H; by apply Hms in H|lia].
Qed.

(** ** What exactly is run *)

(** [make] with one target and nothing else. *)
Definition targetChars : list (Z * Z) := [(65, 90); (97, 122); (48, 57); (46, 46); (95, 95); (45, 45)]%Z.
Definition makeTarget (command target : string) : Prop := command = "make " +:+ target ∧ target ≠ "" ∧ allIn targetChars target = true.

Lemma makeCommand_shape command : MatchString makeCommandRe command = true → ∃ target, makeTarget command target.
Proof.
  intros H%Match_anchored; [|done..]. unfold makeCommandRe in H. do 6 sl_step H. apply SL_cat_inv in H as (v & s & -> & Hv & H).
  repeat sl_step H. sl_step Hv. apply SL_cat_inv in Hv as (w & s' & -> & [Hw Hall]%SL_plus_class & Hv); [|done].
  repeat sl_step Hv. exists w. rewrite !str_app_nil_r. done.
Qed.
Lemma makeCommand_target command target : makeTarget command target →
  ∃ m, FindStringSubmatch makeCommandRe command = Some m ∧ m 1 = target.
Proof.
  intros (-> & Hne & Hall). unfold FindStringSubmatch.
  assert (Forall (λ b, inRanges targetChars (byteZ b) = true) (String.list_ascii_of_string target)) as Hin.
  { apply Forall_forall. intros b Hb. unfold allIn in Hall. rewrite forallb_forall in Hall. by apply Hall, list_elem_of_In. }
  assert (decode ("make " +:+ target) = syms "make " ++ syms target) as Hd.
  { rewrite decode_syms by (by repeat constructor). f_equal. rewrite <- (str_app_nil_r target) at 1. rewrite decode_syms; [by rewrite app_nil_r|].
    eapply Forall_impl; [exact Hin|]. intros b Hb. unfold inRanges, targetChars in Hb. simpl in Hb. lia. }
  assert (∃ q, matchAt makeCommandRe (None, syms "make " ++ syms target) = Some (q, [(1, syms target)])) as [q Hm].
  { eexists. match goal with |- ?x = _ => change x with
      (step (RCat (RGroup 1 (RCat (RCat (RClass (mkCls false false targetChars)) (RStar true (RClass (mkCls false false targetChars)))) REmpty)) (RCat REnd REmpty))
        (Some 32%Z, syms target) [] (λ q env, Some (q, env))) end.
    rewrite <- (app_nil_r (syms target)) at 1. cbn [step]. apply plus_syms; [done..|].
    rewrite between_app. reflexivity. }
  rewrite Hd. exists (λ n, match find (λ x, Nat.eqb x.1 n) [(1, syms target)] with Some (_, t) => bytes t | None => "" end).
  split; [|simpl; apply bytes_syms]. change (syms "make " ++ syms target) with (sym "m" :: (syms "ake " ++ syms target)) in *.
  cbn [searchFrom]. by rewrite Hm.
Qed.
Lemma makeTarget_unique command t u : makeTarget command t → makeTarget command u → t = u.
Proof. intros [-> _] [E _]. by simplify_eq/=. Qed.

(** A check may be run: its tool is there, and it does not need a network that it
    may not use. *)
Definition permitted (tools : list ToolStatus) (allowNetwork : bool) (c : CheckSpec) : Prop :=
  (cs_RequiredTool c = "" ∨ isPresent (toolPresence tools) (cs_RequiredTool c) = true) ∧ (cs_Networked c = true → allowNetwork = true).
(** Its make target cannot exist: there is no makefile or no make, or [make -n]
    reports that it has no rule. *)
Definition undefinedTarget (e : Env) (c : CheckSpec) (target : string) : Prop :=
  makeTarget (cs_Command c) target ∧
  ((∀ name, name ∈ ["GNUmakefile"; "makefile"; "Makefile"] → ev_exists e (Join (if String.eqb (cs_Dir c) "" then "." else cs_Dir c) name) = false) ∨
   ev_makeFound e = false ∨
   (ev_probe e (cs_Dir c) target).2 ≠ None ∧
   (Contains (ev_probe e (cs_Dir c) target).1 "No rule to make target" = true ∨ Contains (ev_probe e (cs_Dir c) target).1 "don't know how to make" = true)).

(** The result of a check and the processes spawned for it. *)
Inductive outcome (e : Env) (tools : list ToolStatus) (allowNetwork : bool) (c : CheckSpec) : VerificationResult → list Process → Prop :=
  | out_refused v : ¬ permitted tools allowNetwork c → vr_Status v ∈ [StatusSkipped; StatusUnavailable] → outcome e tools allowNetwork c v []
  | out_undefined v probes target : permitted tools allowNetwork c → undefinedTarget e c target → vr_Status v = StatusUnavailable →
      (∀ p, p ∈ probes → p = MakeProbe (cs_Dir c) target) → outcome e tools allowNetwork c v probes
  | out_run v probes : permitted tools allowNetwork c → (∀ target, ¬ undefinedTarget e c target) →
      (∀ p, p ∈ probes → ∃ target, makeTarget (cs_Command c) target ∧ p = MakeProbe (cs_Dir c) target) →
      ev_shMissing e = None →
      vr_Status v = (if decide ((ev_shell e (cs_Dir c) (cs_Command c)).2 = None) then StatusPass else StatusFail) →
      outcome e tools allowNetwork c v (probes ++ [Shell (cs_Dir c) (cs_Command c)])
  | out_noShell v probes : permitted tools allowNetwork c →
      (∀ p, p ∈ probes → ∃ target, makeTarget (cs_Command c) target ∧ p = MakeProbe (cs_Dir c) target) →
      ev_shMissing e ≠ None → vr_Status v = StatusFail → outcome e tools allowNetwork c v probes.

(** The preflight. *)
Lemma missing_exact e c :
  (∀ p, p ∈ (missingMakeTarget e c).2 → ∃ target, makeTarget (cs_Command c) target ∧ p = MakeProbe (cs_Dir c) target) ∧
  ((missingMakeTarget e c).1 ≠ "" → ∃ target, undefinedTarget e c target) ∧
  ((missingMakeTarget e c).1 = "" → ∀ target, ¬ undefinedTarget e c target).
Proof.
  destruct (FindStringSubmatch makeCommandRe (cs_Command c)) as [m0|] eqn:Em; unfold missingMakeTarget; rewrite Em.
  2:{ split_and!; [by intros ? ?%not_elem_of_nil|done|]. intros _ target [Ht _]. apply makeCommand_target in Ht as (m & Hm & _). congruence. }
  destruct (makeCommand_shape (cs_Command c)) as [target Ht].
  { unfold MatchString. unfold FindStringSubmatch in Em. by destruct (searchFrom _ _ _). }
  destruct (makeCommand_target _ _ Ht) as (m & Hm & E1). rewrite Em in Hm. injection Hm as ->. rewrite E1.
  assert (∀ s t, "make target " +:+ s +:+ t ≠ "") as Hne by done.
  set (dir := if String.eqb (cs_Dir c) "" then "." else cs_Dir c).
  destruct (existsb (λ name, ev_exists e (Join dir name)) makefileNames) eqn:Ex; simpl.
  2:{ split_and!; [by intros ? ?%not_elem_of_nil| |by intros ?%Hne]. intros _. exists target. split; [done|]. left.
      intros name Hin. destruct (ev_exists e (Join dir name)) eqn:E; [|done].
      rewrite (proj2 (existsb_exists _ _)) in Ex; [done|]. exists name. split; [by apply list_elem_of_In|done]. }
  destruct (ev_makeFound e) eqn:Ef; simpl.
  2:{ split_and!; [by intros ? ?%not_elem_of_nil| |by intros ?%Hne]. intros _. exists target. split; [done|]. auto. }
  assert (∀ t, undefinedTarget e c t → t = target ∧ (ev_probe e (cs_Dir c) target).2 ≠ None ∧
    existsb (Contains (ev_probe e (cs_Dir c) target).1) noRulePatterns = true) as Hu.
  { intros t [Ht' H]. pose proof (makeTarget_unique _ _ _ Ht Ht') as <-. split; [done|]. destruct H as [H|[H|[H1 H2]]]; [|congruence|].
    - apply existsb_exists in Ex as (name & Hin%list_elem_of_In & Ex). fold dir in H. rewrite (H name Hin) in Ex. done.
    - split; [done|]. unfold noRulePatterns. simpl. destruct H2 as [-> | ->]; by rewrite ?orb_true_r. }
  destruct (ev_probe e (cs_Dir c) target) as [out [err|]] eqn:Ep; simpl.
  2:{ split_and!; [intros p ->%list_elem_of_singleton; by exists target|done|]. by intros _ t (_ & [] & _)%Hu. }
  destruct (Contains out "No rule to make target" || (Contains out "don't know how to make" || false)) eqn:Ec; simpl.
  - split_and!; [intros p ->%list_elem_of_singleton; by exists target| |by intros ?%Hne]. intros _. exists target. split; [done|]. right. right.
    rewrite Ep. split; [done|]. rewrite orb_false_r, orb_true_iff in Ec. done.
  - split_and!; [intros p ->%list_elem_of_singleton; by exists target|done|]. intros _ t (_ & _ & H)%Hu. simpl in H. congruence.
Qed.

Lemma runOne_outcome e c tools allowNetwork :
  outcome e tools allowNetwork c (runOne e c (toolPresence tools) allowNetwork).1 (runOne e c (toolPresence tools) allowNetwork).2.
Proof.
  unfold runOne. set (present := toolPresence tools).
  destruct (negb (String.eqb (cs_RequiredTool c) "") && negb (isPresent present (cs_RequiredTool c))) eqn:Htool.
  { apply andb_true_iff in Htool as [H1%negb_true_iff H2%negb_true_iff]. apply String.eqb_neq in H1.
    apply out_refused; [|simpl; set_solver]. intros [[?|?] _]; unfold present in *; congruence. }
  apply andb_false_iff in Htool. rewrite !negb_false_iff, String.eqb_eq in Htool.
  destruct (cs_Networked c && negb allowNetwork) eqn:Hnet.
  { apply andb_true_iff in Hnet as [H1 H2%negb_true_iff]. apply out_refused; [|simpl; set_solver]. intros [_ H]. specialize (H H1). congruence. }
  assert (permitted tools allowNetwork c) as Hp by (split; [done|]; by destruct (cs_Networked c), allowNetwork).
  destruct (missing_exact e c) as (Hprobe & Hmiss & Hdef). destruct (missingMakeTarget e c) as [reason probes]. cbn [fst snd] in *.
  destruct (String.eqb_spec reason "") as [->|Hr]; simpl.
  - unfold runCommand. destruct (ev_shMissing e) as [err|] eqn:Es; simpl.
    + rewrite app_nil_r. apply out_noShell; [done..|by rewrite Es|done].
    + apply out_run; [done|by apply Hdef|done..|]. simpl. by destruct (ev_shell e _ _).2.
  - destruct (Hmiss Hr) as [target Ht]. apply (out_undefined _ _ _ _ _ _ target); [done..|].
    intros p (t & Ht' & ->)%Hprobe. by rewrite (makeTarget_unique _ _ _ Ht' (proj1 Ht)).
Qed.

(** Running checks is honest: one result per check, in order; a check passes
    only if its own command was executed and succeeded; nothing is spawned for
    a check whose tool is missing or that needs a network it may not use, and
    it is reported with a reason; outputs are bounded. *)
Theorem run_honest env checks tools allowNetwork :
  length (Run env checks tools allowNetwork) = length checks ∧
  ∀ i c, checks !! i = Some c →
    ∃ r, Run env checks tools allowNetwork !! i = Some r ∧ honest (env i) tools allowNetwork c r.
Proof.
  unfold Run. split; [apply length_imap|]. intros i c Hc. rewrite list_lookup_imap, Hc. eexists. split; [done|].
  apply runOne_honest.
Qed.
Definition demo_env (i : nat) : Env := mkEnv (λ _, true) true (λ _ _, ("", None)) None (λ _ _, ("ok", None)) 5.
Lemma run_honest_witness :
  ∃ r, Run demo_env FullGates [mkTool "go" true "/go"] false !! 0 = Some r ∧
    honest (demo_env 0) [mkTool "go" true "/go"] false (check "build" "make build" VerificationFull
      "compiles all packages and examples; required before any push or release per AGENTS.md" "go") r.
Proof. apply (run_honest demo_env FullGates [mkTool "go" true "/go"] false). reflexivity. Defined.
