(* ===== verification/Glob.v ===== *)
(** Shell patterns: [path.Match] of the standard library, and the protected-path
    patterns with [**] of src/review/protectedpaths.go, which split a path into
    segments and match each with it. *)

From Stdlib Require Import Ascii.
From stdpp Require Import base list strings.
From S2P Require Import Prelude Regex Paths.

(** * path.Match

    An error is [path.ErrBadPattern]. *)

Inductive Result (A : Type) := Ok (a : A) | ErrBadPattern.
#[global] Arguments Ok {A} a.
#[global] Arguments ErrBadPattern {A}.

(** The leading stars, the chunk up to the next star outside brackets, and the
    rest. *)
Fixpoint skipStars (s : string) : bool * string :=
  match s with
  | String "*" s => (true, (skipStars s).2)
  | _ => (false, s)
  end.
Fixpoint chunkEnd (s : string) (inrange : bool) : string * string :=
  match s with
  | EmptyString => (EmptyString, EmptyString)
  | String "\" (String b s) => let r := chunkEnd s inrange in (String "\" (String b r.1), r.2)
  | String a s' =>
    if Ascii.eqb a "*" && negb inrange then (EmptyString, s)
    else
      let inrange := if Ascii.eqb a "[" then true else if Ascii.eqb a "]" then false else inrange in
      let r := chunkEnd s' inrange in (String a r.1, r.2)
  end.
Definition scanChunk (pattern : string) : bool * string * string :=
  let r := skipStars pattern in
  let c := chunkEnd r.2 false in (r.1, c.1, c.2).

(** A code point of a class, possibly escaped. *)
Definition getEsc (chunk : string) : Result (Z * string) :=
  let take chunk :=
    match chunk with
    | EmptyString => ErrBadPattern
    | String a s =>
      let r := decodeRune a s in
      if ((r.1.1 =? runeError)%Z && (String.length r.1.2 =? 1)%nat) then ErrBadPattern
      else if String.eqb r.2 "" then ErrBadPattern else Ok (r.1.1, r.2)
    end in
  match chunk with
  | EmptyString => ErrBadPattern
  | String a s => if Ascii.eqb a "-" || Ascii.eqb a "]" then ErrBadPattern else if Ascii.eqb a "\" then take s else take chunk
  end.

(** The ranges of a class after the bracket, and whether [r] is in one; at
    least one range.  The fuel is the length of the chunk. *)
Fixpoint matchRanges (fuel : nat) (chunk : string) (r : Z) (nrange : nat) (matched : bool) : Result (bool * string) :=
  match fuel with
  | 0 => ErrBadPattern
  | S fuel =>
    match chunk, nrange with
    | String "]" chunk, S _ => Ok (matched, chunk)
    | _, _ =>
      match getEsc chunk with
      | ErrBadPattern => ErrBadPattern
      | Ok (lo, chunk) =>
        let hi := match chunk with String "-" chunk => getEsc chunk | _ => Ok (lo, chunk) end in
        match hi with
        | ErrBadPattern => ErrBadPattern
        | Ok (hi, chunk) => matchRanges fuel chunk r (S nrange) (matched || ((lo <=? r) && (r <=? hi))%Z)
        end
      end
    end
  end.

(** One code point off a string. *)
Definition dropRune (s : string) : Z * string :=
  match s with EmptyString => (runeError, "") | String a s => let r := decodeRune a s in (r.1.1, r.2) end.

(** Match a chunk at the beginning of [s]: the rest of [s] if it matches.  Once
    it cannot match ([None]) the rest of the chunk is still checked. *)
Fixpoint matchChunk (fuel : nat) (chunk : string) (s : option string) : Result (option string) :=
  match fuel with
  | 0 => ErrBadPattern
  | S fuel =>
    match chunk with
    | EmptyString => Ok s
    | String a chunk' =>
      let s := match s with Some EmptyString => None | _ => s end in
      if Ascii.eqb a "[" then
        let r := match s with Some s => dropRune s | None => (0%Z, "") end in
        let neg := match chunk' with String "^" c => (true, c) | _ => (false, chunk') end in
        match matchRanges (S (String.length neg.2)) neg.2 r.1 0 false with
        | ErrBadPattern => ErrBadPattern
        | Ok (matched, chunk) =>
          matchChunk fuel chunk (match s with Some _ => if Bool.eqb matched neg.1 then None else Some r.2 | None => None end)
        end
      else if Ascii.eqb a "?" then
        matchChunk fuel chunk' (match s with
          | Some (String "/" _) => None
          | Some s => Some (dropRune s).2
          | None => None end)
      else
        let lit := if Ascii.eqb a "\" then chunk' else chunk in
        match lit with
        | EmptyString => ErrBadPattern
        | String b chunk => matchChunk fuel chunk (match s with
          | Some (String c s) => if Ascii.eqb b c then Some s else None
          | _ => None end)
        end
    end
  end.
Definition matchChunkIn (chunk s : string) : Result (option string) := matchChunk (S (String.length chunk)) chunk (Some s).

(** The later starting points a star allows: not beyond a slash. *)
Fixpoint starStarts (name : string) : list string :=
  match name with
  | String a s => if Ascii.eqb a "/" then [] else s :: starStarts s
  | EmptyString => []
  end.

(** The first starting point at which the chunk matches; the last chunk must
    use up the name. *)
Fixpoint tryStarts (chunk : string) (last : bool) (starts : list string) : Result (option string) :=
  match starts with
  | [] => Ok None
  | s :: starts =>
    match matchChunkIn chunk s with
    | ErrBadPattern => ErrBadPattern
    | Ok (Some t) => if last && negb (String.eqb t "") then tryStarts chunk last starts else Ok (Some t)
    | Ok None => tryStarts chunk last starts
    end
  end.

(** Whether the remaining chunks are well-formed. *)
Fixpoint checkChunks (fuel : nat) (pattern : string) : Result unit :=
  match fuel with
  | 0 => ErrBadPattern
  | S fuel =>
    match pattern with
    | EmptyString => Ok tt
    | _ =>
      let c := scanChunk pattern in
      match matchChunkIn c.1.2 "" with ErrBadPattern => ErrBadPattern | Ok _ => checkChunks fuel c.2 end
    end
  end.

Fixpoint matchFrom (fuel : nat) (pattern name : string) : Result bool :=
  match fuel with
  | 0 => ErrBadPattern
  | S fuel =>
    match pattern with
    | EmptyString => Ok (String.eqb name "")
    | _ =>
      let '(star, chunk, rest) := scanChunk pattern in
      if star && String.eqb chunk "" then Ok (match splitSlash name with [_] => true | _ => false end) else
      let fail := match checkChunks fuel rest with ErrBadPattern => ErrBadPattern | Ok _ => Ok false end in
      match matchChunkIn chunk name with
      | Ok (Some t) =>
        if String.eqb t "" || negb (String.eqb rest "") then matchFrom fuel rest t
        else if star then match tryStarts chunk (String.eqb rest "") (starStarts name) with
                          | ErrBadPattern => ErrBadPattern
                          | Ok (Some t) => matchFrom fuel rest t
                          | Ok None => fail
                          end
        else fail
      | ErrBadPattern => ErrBadPattern
      | Ok None =>
        if star then match tryStarts chunk (String.eqb rest "") (starStarts name) with
                     | ErrBadPattern => ErrBadPattern
                     | Ok (Some t) => matchFrom fuel rest t
                     | Ok None => fail
                     end
        else fail
      end
    end
  end.
(** Every round takes at least one character off the pattern. *)
Definition Match (pattern name : string) : Result bool := matchFrom (S (S (String.length pattern))) pattern name.

Example Match_ex :
  Match "*.md" "a.md" = Ok true ∧ Match "*.md" "a.mdx" = Ok false ∧ Match "a*b?c" "axxbyc" = Ok true ∧
  Match "[a-c]x" "bx" = Ok true ∧ Match "[^a-c]x" "bx" = Ok false ∧ Match "[a" "x" = ErrBadPattern ∧
  Match "x[a" "" = ErrBadPattern ∧ Match "*" "a/b" = Ok false ∧ Match "\*" "*" = Ok true ∧ Match "*[" "" = ErrBadPattern ∧
  Match "a*b*c" "aabbcc" = Ok true ∧ Match "" "" = Ok true ∧ Match "go.mod" "go.mod" = Ok true ∧ Match "*?" "" = Ok false.
Proof. vm_compute. repeat split. Qed.

(** * Protected paths *)

(** The order of evaluation is the source's: the first error or match of the
    positions of a [**]. *)
Fixpoint firstMatch {A} (f : A → Result bool) (l : list A) : Result bool :=
  match l with
  | [] => Ok false
  | x :: l =>
    match f x with
    | ErrBadPattern => ErrBadPattern
    | Ok true => Ok true
    | Ok false => firstMatch f l
    end
  end.
(** The suffixes of a list, the longest first. *)
Fixpoint suffixes {A} (l : list A) : list (list A) :=
  match l with [] => [[]] | x :: l' => l :: suffixes l' end.

Fixpoint matchPathSegments (pattern name : list string) : Result bool :=
  match pattern with
  | [] => Ok (match name with [] => true | _ => false end)
  | p :: pattern =>
    if String.eqb p "**" then
      match pattern with
      | [] => Ok true
      | _ => firstMatch (matchPathSegments pattern) (suffixes name)
      end
    else match name with
    | [] => Ok false
    | n :: name =>
      match Match p n with
      | ErrBadPattern => ErrBadPattern
      | Ok false => Ok false
      | Ok true => matchPathSegments pattern name
      end
    end
  end.
Definition matchProtectedPath (pattern name : string) : Result bool :=
  matchPathSegments (splitSlash pattern) (splitSlash name).

Definition validSegment (seg : string) : bool :=
  String.eqb seg "**" || match Match seg "" with Ok _ => true | ErrBadPattern => false end.
Definition partitionGlobs (patterns : list string) : list string * list string :=
  let ok p := forallb validSegment (splitSlash p) in
  (filter (λ p, ok p = true) patterns, filter (λ p, ok p = false) patterns).

Example matchProtectedPath_ex :
  matchProtectedPath "docs/**/*.md" "docs/a/b/c.md" = Ok true ∧ matchProtectedPath "docs/**/*.md" "docs/c.md" = Ok true ∧
  matchProtectedPath "docs/**" "docs" = Ok true ∧ matchProtectedPath "docs/*.md" "docs/a/c.md" = Ok false.
Proof. vm_compute. repeat split. Qed.

(** * Correctness *)

(** Whether a chunk is well-formed does not depend on the name. *)
Lemma matchRanges_bad fuel chunk r r' n m m' :
  match matchRanges fuel chunk r n m, matchRanges fuel chunk r' n m' with
  | Ok (_, c), Ok (_, c') => c = c'
  | ErrBadPattern, ErrBadPattern => True
  | _, _ => False
  end.
Proof.
  revert chunk n m m'. induction fuel as [|fuel IH]; intros chunk n m m'; cbn [matchRanges]; [done|].
  assert (match match getEsc chunk with
      | Ok (lo, chunk0) => match (match chunk0 with String "-" c => getEsc c | _ => Ok (lo, chunk0) end) with
        | Ok (hi, chunk1) => matchRanges fuel chunk1 r (S n) (m || ((lo <=? r) && (r <=? hi))%Z)
        | ErrBadPattern => ErrBadPattern end
      | ErrBadPattern => ErrBadPattern end,
    match getEsc chunk with
      | Ok (lo, chunk0) => match (match chunk0 with String "-" c => getEsc c | _ => Ok (lo, chunk0) end) with
        | Ok (hi, chunk1) => matchRanges fuel chunk1 r' (S n) (m' || ((lo <=? r') && (r' <=? hi))%Z)
        | ErrBadPattern => ErrBadPattern end
      | ErrBadPattern => ErrBadPattern end with
    | Ok (_, c), Ok (_, c') => c = c' | ErrBadPattern, ErrBadPattern => True | _, _ => False end) as H.
  { destruct (getEsc chunk) as [[lo c]|]; [|done].
    destruct (match c with String "-" c => getEsc c | _ => Ok (lo, c) end) as [[hi c']|]; [|done]. apply IH. }
  destruct chunk as [|a chunk]; [exact H|]. destruct (decide (a = "]"%char)) as [->|Ha].
  - destruct n; [exact H|done].
  - destruct a as [[] [] [] [] [] [] [] []]; try exact H; done.
Qed.

Lemma matchChunk_bad fuel : ∀ chunk s s', matchChunk fuel chunk s = ErrBadPattern → matchChunk fuel chunk s' = ErrBadPattern.
Proof.
  induction fuel as [|fuel IH]; intros chunk s s'; cbn [matchChunk]; [done|]. destruct chunk as [|a chunk]; [done|].
  destruct (Ascii.eqb a "[").
  - set (neg := match chunk with String "^" c => _ | _ => _ end).
    match goal with |- context [match matchRanges ?f ?c ?r 0 false with _ => _ end = ErrBadPattern → match matchRanges _ _ ?r' 0 false with _ => _ end = _] =>
      pose proof (matchRanges_bad f c r r' 0 false false) as H;
      destruct (matchRanges f c r 0 false) as [[b c1]|], (matchRanges f c r' 0 false) as [[b' c2]|] end; try done.
    subst c2. apply IH.
  - destruct (Ascii.eqb a "?"); [apply IH|]. destruct (if Ascii.eqb a "\" then chunk else String a chunk); [done|apply IH].
Qed.

Lemma chunkEnd_length s b : String.length (chunkEnd s b).1 + String.length (chunkEnd s b).2 = String.length s.
Proof.
  assert (∀ n s b, String.length s ≤ n → String.length (chunkEnd s b).1 + String.length (chunkEnd s b).2 = String.length s) as H;
    [|by apply (H (String.length s))].
  clear s b. induction n as [|n IH]; intros [|a s] b Hn; simpl in Hn; try lia; [done..|].
  assert (String.length (if Ascii.eqb a "*" && negb b then (EmptyString, String a s)
    else let inrange := if Ascii.eqb a "[" then true else if Ascii.eqb a "]" then false else b in
      let r := chunkEnd s inrange in (String a r.1, r.2)).1 +
    String.length (if Ascii.eqb a "*" && negb b then (EmptyString, String a s)
    else let inrange := if Ascii.eqb a "[" then true else if Ascii.eqb a "]" then false else b in
      let r := chunkEnd s inrange in (String a r.1, r.2)).2 = S (String.length s)) as H.
  { destruct (Ascii.eqb a "*" && negb b); [done|]. simpl. rewrite IH by lia. done. }
  destruct a as [[] [] [] [] [] [] [] []]; try exact H. destruct s as [|a2 s]; [exact H|]. simpl in *. rewrite IH by lia. done.
Qed.

Lemma skipStars_length s : String.length (skipStars s).2 ≤ String.length s.
Proof. induction s as [|a s IH]; [done|]. destruct a as [[] [] [] [] [] [] [] []]; simpl in *; lia. Qed.

(** A round uses up part of the pattern. *)
Lemma scanChunk_length a s : let c := scanChunk (String a s) in String.length c.2 ≤ String.length s.
Proof.
  unfold scanChunk. cbn [fst snd]. pose proof (chunkEnd_length (skipStars (String a s)).2 false) as H.
  pose proof (skipStars_length s) as H1. pose proof (skipStars_length (String a s)) as H2.
  destruct (decide (a = "*"%char)) as [->|Ha]; [simpl in *; lia|].
  assert ((skipStars (String a s)).2 = String a s) as E by (by destruct a as [[] [] [] [] [] [] [] []]). rewrite E in *.
  assert ((chunkEnd (String a s) false).1 ≠ "") as Hne.
  { destruct a as [[] [] [] [] [] [] [] []]; try done. by destruct s. }
  destruct (chunkEnd (String a s) false).1; [done|]. cbn [String.length] in H |- *. lia.
Qed.

Lemma checkChunks_fuel fuel : ∀ fuel' pattern, String.length pattern < fuel → String.length pattern < fuel' →
  checkChunks fuel pattern = checkChunks fuel' pattern.
Proof.
  induction fuel as [|fuel IH]; intros [|fuel'] pattern H H'; try lia. cbn [checkChunks]. destruct pattern as [|a s]; [done|].
  pose proof (scanChunk_length a s) as Hl. cbn [String.length] in H, H'. cbv zeta in Hl. destruct (matchChunkIn _ ""); [|done]. apply IH; lia.
Qed.

Lemma tryStarts_bad chunk last starts : matchChunkIn chunk "" ≠ ErrBadPattern → tryStarts chunk last starts ≠ ErrBadPattern.
Proof.
  intros Hc. induction starts as [|s starts IH]; [done|]. cbn [tryStarts]. unfold matchChunkIn in *.
  destruct (matchChunk _ chunk (Some s)) as [[t|]|] eqn:E; [by case_match|done|].
  by eapply matchChunk_bad in E.
Qed.

(** A pattern is well-formed or not, whatever name it is matched against. *)
Lemma matchFrom_bad fuel : ∀ pattern name, String.length pattern < fuel →
  checkChunks fuel pattern ≠ ErrBadPattern → matchFrom fuel pattern name ≠ ErrBadPattern.
Proof.
  induction fuel as [|fuel IH]; intros pattern name Hf; [lia|]. cbn [checkChunks matchFrom]. destruct pattern as [|a s]; [done|].
  pose proof (scanChunk_length a s) as Hl. cbn [String.length] in Hf. cbv zeta in Hl. destruct (scanChunk (String a s)) as [[star chunk] rest].
  cbn [fst snd] in *. destruct (matchChunkIn chunk "") as [x|] eqn:Hc; [|done]. intros Hrest.
  case_match; [done|].
  assert ((match checkChunks fuel rest with ErrBadPattern => ErrBadPattern | Ok _ => Ok false end : Result bool) ≠ ErrBadPattern) as Hfail
    by (by destruct (checkChunks fuel rest)).
  assert (∀ t, matchFrom fuel rest t ≠ ErrBadPattern) as Hgo by (intros t; apply IH; [lia|done]).
  assert (match tryStarts chunk (String.eqb rest "") (starStarts name) with
    | ErrBadPattern => ErrBadPattern | Ok (Some t) => matchFrom fuel rest t
    | Ok None => match checkChunks fuel rest with ErrBadPattern => ErrBadPattern | Ok _ => Ok false end end ≠ ErrBadPattern) as Hstar.
  { pose proof (tryStarts_bad chunk (String.eqb rest "") (starStarts name)) as Ht.
    destruct (tryStarts _ _ _) as [[t|]|]; [done|done|]. by rewrite Hc in Ht; destruct Ht. }
  destruct (matchChunkIn chunk name) as [[t|]|] eqn:E.
  - repeat case_match; done.
  - by destruct star.
  - unfold matchChunkIn in *. apply (matchChunk_bad _ _ _ (Some "")) in E. congruence.
Qed.

(** After the stars comes no star, so an empty chunk is the last one. *)
Lemma scanChunk_last pattern star rest : scanChunk pattern = (star, "", rest) → rest = "".
Proof.
  unfold scanChunk. intros [= _ Hc <-]. assert ((skipStars pattern).2 = "") as ->; [|done].
  assert (∀ s, (skipStars s).2 = "" ∨ ∃ a s', (skipStars s).2 = String a s' ∧ a ≠ "*"%char) as H.
  { induction s as [|a s IH]; [by left|]. destruct (decide (a = "*"%char)) as [->|Ha]; [exact IH|right].
    exists a, s. split; [|done]. by destruct a as [[] [] [] [] [] [] [] []]. }
  destruct (H pattern) as [->|(a & s & E & Ha)]; [done|]. rewrite E in Hc. exfalso. revert Hc.
  destruct a as [[] [] [] [] [] [] [] []]; try done. by destruct s.
Qed.

Lemma matchFrom_check fuel : ∀ pattern name, String.length pattern < fuel →
  matchFrom fuel pattern name ≠ ErrBadPattern → checkChunks fuel pattern ≠ ErrBadPattern.
Proof.
  induction fuel as [|fuel IH]; intros pattern name Hf; [lia|]. cbn [checkChunks matchFrom]. destruct pattern as [|a s]; [done|].
  pose proof (scanChunk_length a s) as Hl. cbn [String.length] in Hf. cbv zeta in Hl.
  destruct (scanChunk (String a s)) as [[star chunk] rest] eqn:Hscan. cbn [fst snd] in *.
  destruct (star && String.eqb chunk "") eqn:Hlast.
  { intros _. apply andb_true_iff in Hlast as [_ ->%String.eqb_eq]. apply scanChunk_last in Hscan as ->.
    destruct fuel; [lia|done]. }
  assert (∀ t, matchFrom fuel rest t ≠ ErrBadPattern → checkChunks fuel rest ≠ ErrBadPattern) as IH' by (intros t; apply IH; lia).
  assert ((match checkChunks fuel rest with ErrBadPattern => ErrBadPattern | Ok _ => Ok false end : Result bool) ≠ ErrBadPattern →
    checkChunks fuel rest ≠ ErrBadPattern) as Hfail by (by destruct (checkChunks fuel rest)).
  destruct (matchChunkIn chunk "") as [x|] eqn:Hc.
  - repeat case_match; eauto; done.
  - unfold matchChunkIn in *. by rewrite (matchChunk_bad _ _ _ (Some name) Hc).
Qed.

(** Probing a pattern with the empty name tells whether it is well-formed. *)
Lemma Match_probe pattern name : Match pattern "" ≠ ErrBadPattern → Match pattern name ≠ ErrBadPattern.
Proof. unfold Match. intros H. apply matchFrom_bad; [lia|]. eapply matchFrom_check; [lia|exact H]. Qed.

(** What a pattern of segments means. *)
Inductive PathMatch : list string → list string → Prop :=
| PM_nil : PathMatch [] []
| PM_any ps skipped names : PathMatch ps names → PathMatch ("**" :: ps) (skipped ++ names)
| PM_segment p ps n names : p ≠ "**" → Match p n = Ok true → PathMatch ps names → PathMatch (p :: ps) (n :: names).

Lemma firstMatch_spec {A} (f : A → Result bool) (P : A → Prop) l :
  (∀ x, ∃ b, f x = Ok b ∧ (b = true ↔ P x)) → ∃ b, firstMatch f l = Ok b ∧ (b = true ↔ ∃ x, x ∈ l ∧ P x).
Proof.
  intros Hf. induction l as [|x l IH]; simpl; [exists false; split; [done|]; split; [done|]; by intros (? & []%not_elem_of_nil & _)|].
  destruct (Hf x) as (b & -> & Hb). destruct b.
  - exists true. split; [done|]. split; [|done]. intros _. exists x. split; [apply list_elem_of_here|by apply Hb].
  - destruct IH as (b & -> & Hb'). exists b. split; [done|]. rewrite Hb'. split.
    + intros (y & ? & ?). exists y. split; [by apply list_elem_of_further|done].
    + intros (y & [->|?]%elem_of_cons & Hy); [by apply Hb in Hy|eauto].
Qed.

Lemma elem_of_suffixes {A} (l k : list A) : k ∈ suffixes l ↔ ∃ u, l = u ++ k.
Proof.
  induction l as [|x l IH]; simpl.
  - rewrite list_elem_of_singleton. split; [by exists []|]. intros (u & Hu). symmetry in Hu. by apply app_nil in Hu as [_ ->].
  - rewrite elem_of_cons, IH. split.
    + intros [->|(u & ->)]; [by exists []|by exists (x :: u)].
    + intros ([|y u] & E); simplify_list_eq; eauto.
Qed.

(** [matchPathSegments] decides that for well-formed patterns. *)
Lemma matchPathSegments_spec ps : ∀ names, forallb validSegment ps = true →
  ∃ b, matchPathSegments ps names = Ok b ∧ (b = true ↔ PathMatch ps names).
Proof.
  induction ps as [|p ps IH]; intros names Hv.
  - destruct names; eexists; (split; [done|]); split; try done; [intros _; constructor|inversion 1].
  - simpl in Hv. apply andb_true_iff in Hv as [Hp Hps]. cbn [matchPathSegments]. destruct (String.eqb_spec p "**") as [->|Hne].
    + assert (∃ b, firstMatch (matchPathSegments ps) (suffixes names) = Ok b ∧
        (b = true ↔ PathMatch ("**" :: ps) names)) as Hany.
      { destruct (firstMatch_spec (matchPathSegments ps) (PathMatch ps) (suffixes names)) as (b & -> & Hb); [intros x; by apply IH|].
        exists b. split; [done|]. rewrite Hb. split.
        - intros (k & (u & ->)%elem_of_suffixes & Hk). by constructor.
        - inversion 1; subst; [|done]. eexists. split; [apply elem_of_suffixes; by eexists|done]. }
      destruct ps as [|p2 ps]; [|exact Hany]. exists true. split; [done|]. split; [|done]. intros _.
      rewrite <-(app_nil_r names). apply PM_any, PM_nil.
    + destruct names as [|n names]; [exists false; split; [done|]; split; [done|]; by inversion 1|].
      unfold validSegment in Hp. apply orb_true_iff in Hp as [->%String.eqb_eq|Hp]; [done|].
      assert (Match p n ≠ ErrBadPattern) as Hm by (apply Match_probe; by destruct (Match p "")).
      destruct (Match p n) as [[]|] eqn:E; [| |done].
      * destruct (IH names Hps) as (b & -> & Hb). exists b. split; [done|]. rewrite Hb.
        split; [by apply PM_segment|]. by inversion 1.
      * exists false. split; [done|]. split; [done|]. inversion 1; congruence.
Qed.

(** For a pattern that [partitionGlobs] accepts, matching a path gives no error
    and decides the relation on segments in which a double star stands for any
    number of segments and every other segment is matched by [path.Match]. *)
Theorem protected_path_match pattern name : pattern ∈ (partitionGlobs [pattern]).1 →
  ∃ b, matchProtectedPath pattern name = Ok b ∧ (b = true ↔ PathMatch (splitSlash pattern) (splitSlash name)).
Proof.
  intros [H _]%list_elem_of_filter. by apply matchPathSegments_spec.
Qed.
Lemma protected_path_match_witness : ∃ b, matchProtectedPath "docs/**/*.md" "docs/a/b.md" = Ok b ∧
  (b = true ↔ PathMatch ["docs"; "**"; "*.md"] ["docs"; "a"; "b.md"]).
Proof. apply (protected_path_match "docs/**/*.md" "docs/a/b.md"). vm_compute. left. Defined.
