(* ===== verification/DiffScan.v ===== *)
(** The secret scan of a diff (src/review/secrets.go).

    git is a parameter: a function from the arguments of an invocation to its
    output, or to the error and the text it wrote to stderr. *)

From Stdlib Require Import Ascii.
From stdpp Require Import base list strings pretty.
From S2P Require Import Prelude Provenance Regex Paths GoStrings Approval Envelope.

(** [fmt.Sprintf("%d", n)]. *)
Definition showZ (n : Z) : string := pretty n.

(** * git *)

Definition errInvalidRef : error := New "git ref must not be empty or start with '-'".
Definition validateRef (ref : string) : option error :=
  if String.eqb ref "" || HasPrefix ref "-" then Some errInvalidRef else None.

Definition Git : Type := list string → string + error * string.

Section git.
Context (git : Git).

Definition gitOutput (dir : string) (args : list string) : string + error :=
  match git ((if negb (String.eqb dir "") then ["-C"; dir] else []) ++ args) with
  | inl out => inl out
  | inr (err, stderr) =>
    let msg := TrimSpace stderr in
    if negb (String.eqb msg "") then inr (Errorf "%w: %s" [msg] [err]) else inr err
  end.

Definition gitDiff (dir baseRef headRef : string) : string + error :=
  match validateRef baseRef with
  | Some err => inr err
  | None =>
    match validateRef headRef with
    | Some err => inr err
    | None => gitOutput dir ["diff"; "--unified=0"; "--no-color"; baseRef +:+ "..." +:+ headRef]
    end
  end.
End git.

(** * Added lines *)

Record addedLine := mkAdded { al_file : string; al_line : Z; al_text : string }.
#[export] Instance addedLine_eq_dec : EqDecision addedLine.
Proof. solve_decision. Defined.

Definition hunkHeaderPattern : regex := Eval vm_compute in MustCompile "^@@ -\d+(?:,(\d+))? \+(\d+)(?:,(\d+))? @@".

(** The length of the body and the first new line.  A count out of range
    saturates. *)
Definition parseHunkHeader (line : string) : option (Z * Z) :=
  match FindStringSubmatch hunkHeaderPattern line with
  | None => None
  | Some m =>
    let oldCount := if negb (String.eqb (m 1) "") then AtoiDigits (m 1) else 1%Z in
    let newStart := AtoiDigits (m 2) in
    let newCount := if negb (String.eqb (m 3) "") then AtoiDigits (m 3) else 1%Z in
    Some (wrap64 (oldCount + newCount), newStart)
  end.

(** The bytes after the first. *)
Definition tailString (s : string) : string := match s with String _ s => s | EmptyString => EmptyString end.

Fixpoint appendHunkAdds (file : string) (nextLine : Z) (body : list string) : list addedLine :=
  match body with
  | [] => []
  | b :: body =>
    if negb (HasPrefix b "+") then appendHunkAdds file nextLine body
    else
      let rest := appendHunkAdds file (wrap64 (nextLine + 1)) body in
      if negb (String.eqb file "") && negb (String.eqb file "/dev/null")
      then mkAdded file nextLine (tailString b) :: rest else rest
  end.

(** The loop over the lines from index [i] on; [None] is the panic of a slice
    whose end is before its beginning, after an overflow. *)
Fixpoint addedFrom (fuel : nat) (file : string) (i : Z) (lines : list string) : option (list addedLine) :=
  match fuel, lines with
  | S fuel, line :: lines =>
    if HasPrefix line "+++ "
    then addedFrom fuel (TrimPrefix (TrimPrefix line "+++ ") "b/") (i + 1) lines
    else if HasPrefix line "@@ " then
      match parseHunkHeader line with
      | None => addedFrom fuel file (i + 1) lines
      | Some (bodyLen, newStart) =>
        let total := (i + 1 + Z.of_nat (length lines))%Z in
        let stop := Z.min (wrap64 (i + 1 + bodyLen)) total in
        if (stop <? i + 1)%Z then None
        else
          let n := Z.to_nat (stop - (i + 1)) in
          match addedFrom fuel file stop (drop n lines) with
          | None => None
          | Some rest => Some (appendHunkAdds file newStart (take n lines) ++ rest)
          end
      end
    else addedFrom fuel file (i + 1) lines
  | _, _ => Some []
  end.
Definition addedLines (diff : string) : option (list addedLine) :=
  let lines := Lines diff in addedFrom (length lines) "" 0 lines.

(** * Scanning a line *)

Definition strictGenericSecretPattern : regex := Eval vm_compute in
  MustCompile ("(?i)(key|token|password|secret)\s*(:=|[:=])\s*['" +:+ dq +:+ "]([^\s'" +:+ dq +:+ "]{6,})['" +:+ dq +:+ "]").
Definition identifierLikeValue : regex := Eval vm_compute in MustCompile "^[A-Za-z0-9]+(?:[-_][A-Za-z0-9]+)+$".
Definition nosecretMarkerPattern : regex := Eval vm_compute in MustCompile "(?i)//\s*nosecret\b\s*:\s*\S".

Definition secretShapedValue (value : string) : bool :=
  (16 <=? String.length value) || negb (MatchString identifierLikeValue value).
Definition hasNosecretMarker (line : string) : bool := MatchString nosecretMarkerPattern line.

(** The text of the third group of a match, matched again on its own. *)
Definition matchedValue (m : string) : string :=
  match FindStringSubmatch strictGenericSecretPattern m with Some sub => sub 3 | None => "" end.

(** The matches of the strict pattern that look like secrets. *)
Definition flagged (m : string) : bool := secretShapedValue (matchedValue m).
(** The matches [ReplaceAllStringFunc] visits. *)
Fixpoint matchesFrom (fuel : nat) (r : regex) (p : Pos) : list string :=
  match fuel with
  | 0 => []
  | S fuel =>
    match searchFrom r p.1 p.2 with
    | None => []
    | Some (pre, q, _) =>
      let start := drop (length pre) p.2 in
      bytes (take (length start - length q.2) start) ::
      (if (length q.2 <? length start) then matchesFrom fuel r q
       else match start with [] => [] | x :: t => matchesFrom fuel r (Some x.1, t) end)
    end
  end.
Definition FindAll (r : regex) (s : string) : list string := let t := decode s in matchesFrom (S (length t)) r (None, t).

Definition redactLine (line : string) : string * bool :=
  let r := RedactHighConfidenceSecrets line in
  (ReplaceAllStringFunc strictGenericSecretPattern r.1 (λ m, if flagged m then RedactionMarker else m),
   r.2 || existsb flagged (FindAll strictGenericSecretPattern r.1)).

(** * The scan *)

Definition maxSecretFindings : nat := 20.
Definition VerificationSecretScan : VerificationCategory := "secret_scan".

Definition findingOf (l : addedLine) : option string :=
  if hasNosecretMarker (al_text l) then None
  else let r := redactLine (al_text l) in
       if negb r.2 then None else Some (al_file l +:+ ":" +:+ showZ (al_line l) +:+ ": " +:+ r.1).

(** [None] is a panic. *)
Definition ScanSecrets (git : Git) (dir baseRef headRef : string) : option VerificationResult :=
  let name := "check-secrets" in
  match gitDiff git dir baseRef headRef with
  | inr err => Some (mkVResult name VerificationSecretScan StatusUnavailable 0 ""
      ("could not compute diff " +:+ baseRef +:+ "..." +:+ headRef +:+ ": " +:+ errorText err))
  | inl diff =>
    match addedLines diff with
    | None => None
    | Some added =>
      let findings := omap findingOf added in
      match findings with
      | [] => Some (mkVResult name VerificationSecretScan StatusPass 0 "" "")
      | _ =>
        let more := length findings - maxSecretFindings in
        let suffix := if decide (maxSecretFindings < length findings)
                      then nlString +:+ "... and " +:+ pretty more +:+ " more" else "" in
        Some (mkVResult name VerificationSecretScan StatusFail 0
          ("found " +:+ pretty (length findings) +:+ " secret-shaped value(s) added in this diff (values redacted):"
           +:+ nlString +:+ JoinWith nlString (take maxSecretFindings findings) +:+ suffix) "")
      end
    end
  end.

Example parseHunkHeader_ex :
  parseHunkHeader "@@ -10,0 +11,2 @@ func foo() {" = Some (2%Z, 11%Z) ∧ parseHunkHeader "@@ -3 +3 @@" = Some (2%Z, 3%Z) ∧
  parseHunkHeader "@@ x" = None.
Proof. vm_compute. repeat split. Qed.
Example redactLine_ex :
  redactLine ("apiKey := " +:+ dq +:+ "s3cr3tvalue" +:+ dq) = ("api[REDACTED]", true) ∧
  redactLine ("ticket_key=" +:+ dq +:+ "pr-42-fix" +:+ dq) = ("ticket_key=" +:+ dq +:+ "pr-42-fix" +:+ dq, false) ∧
  redactLine "token = hex.EncodeToString(buf)" = ("token = hex.EncodeToString(buf)", false).
Proof. vm_compute. repeat split. Qed.

(** * Correctness *)

(** ** Numbers in a header *)

Definition digits (s : string) : Prop := Forall (λ a, inRanges [(48, 57)%Z] (byteZ a) = true) (String.list_ascii_of_string s).

Lemma digits_ascii s : digits s → Forall (λ a, byteZ a < 128)%Z (String.list_ascii_of_string s).
Proof. intros H. eapply Forall_impl; [exact H|]. intros a. unfold inRanges. simpl. lia. Qed.

Lemma pretty_char_digit x : (x < 10)%N →
  inRanges [(48, 57)%Z] (byteZ (pretty_N_char x)) = true ∧ (Z.of_N (N_of_ascii (pretty_N_char x)) - 48 = Z.of_N x)%Z.
Proof.
  intros H. assert (x = 0 ∨ x = 1 ∨ x = 2 ∨ x = 3 ∨ x = 4 ∨ x = 5 ∨ x = 6 ∨ x = 7 ∨ x = 8 ∨ x = 9)%N as Hx by lia.
  by destruct Hx as [->|[->|[->|[->|[->|[->|[->|[->|[->| ->]]]]]]]]].
Qed.
Lemma pretty_go_value x : ∀ s, digits s → digits (pretty_N_go x s) ∧ digitsFrom (pretty_N_go x s) 0 = digitsFrom s (Z.of_N x).
Proof.
  induction (N.lt_wf_0 x) as [x _ IH]. intros s Hs. destruct (decide (x = 0)%N) as [->|Hx]; [done|].
  rewrite pretty_N_go_step by lia. pose proof (N.mod_lt x 10 ltac:(done)) as Hm. destruct (pretty_char_digit _ Hm) as [Hd Hv].
  destruct (IH (x / 10)%N (N.div_lt x 10 ltac:(lia) ltac:(done)) (String (pretty_N_char (x mod 10)) s)) as [H1 H2].
  { by constructor. }
  split; [done|]. rewrite H2. cbn [digitsFrom]. f_equal. rewrite Hv. pose proof (N.div_mod x 10 ltac:(done)). lia.
Qed.
(** A number reads back, and is written in digits. *)
Lemma pretty_value (n : N) : digits (pretty n) ∧ pretty n ≠ "" ∧ digitsFrom (pretty n) 0 = Z.of_N n.
Proof.
  unfold pretty, pretty_N. destruct (decide (n = 0)%N) as [->|Hn]; [by repeat constructor|].
  destruct (pretty_go_value n "") as [H1 H2]; [by constructor|]. split_and!; [done| |done].
  intros E. rewrite E in H2. simpl in H2. lia.
Qed.

(** ** The lines of a diff

    A diff without context, as git writes it: the line that names the new file,
    hunks, and the lines that are neither.  A hunk is a header, with where it
    starts on each side and how many lines it has there (a count of one is left
    out), and the lines removed and added.  A hunk that holds git's note on a
    missing final newline is not one of these (see
    [scan_misses_unterminated_line]). *)
Inductive DiffItem :=
  | Other (line : string)
  | NewFile (path : string)
  | Removed
  | Hunk (oldStart newStart : N) (section : string) (removed added : list string).

Definition countText (n : N) : string := if (n =? 1)%N then "" else "," +:+ pretty n.
Definition hunkHeader (oldStart oldCount newStart newCount : N) (section : string) : string :=
  "@@ -" +:+ pretty oldStart +:+ countText oldCount +:+ " +" +:+ pretty newStart +:+ countText newCount +:+ " @@" +:+ section.
Definition hunkBody (removed added : list string) : list string := (String.append "-" <$> removed) ++ (String.append "+" <$> added).
Definition itemLines (d : DiffItem) : list string :=
  match d with
  | Other line => [line]
  | NewFile path => ["+++ b/" +:+ path]
  | Removed => ["+++ /dev/null"]
  | Hunk oldStart newStart section removed added =>
    hunkHeader oldStart (N.of_nat (length removed)) newStart (N.of_nat (length added)) section :: hunkBody removed added
  end.
Definition diffLines (ds : list DiffItem) : list string := ds ≫= itemLines.

Definition wfItem (d : DiffItem) : Prop :=
  match d with
  | Other line => HasPrefix line "+++ " = false ∧ HasPrefix line "@@ " = false
  | NewFile path => path ≠ "" ∧ path ≠ "/dev/null"
  | Removed => True
  | Hunk _ newStart _ removed added => (Z.of_N newStart + Z.of_nat (length removed + length added) ≤ maxInt)%Z
  end.

(** The lines the diff adds: those of the hunks, under the name of the last file
    and numbered from where their hunk starts in the new file. *)
Fixpoint additions (file : option string) (ds : list DiffItem) : list addedLine :=
  match ds with
  | [] => []
  | Other _ :: ds => additions file ds
  | NewFile path :: ds => additions (Some path) ds
  | Removed :: ds => additions None ds
  | Hunk _ newStart _ _ added :: ds =>
    match file with
    | Some path => imap (λ k b, mkAdded path (Z.of_N newStart + Z.of_nat k) b) added ++ additions file ds
    | None => additions file ds
    end
  end.

(** ** Headers *)

Definition digit1 : regex := RCat (RClass (mkCls false false [(48, 57)%Z])) (RStar true (RClass (mkCls false false [(48, 57)%Z]))).
Definition countPart (n : nat) : regex := RAlt (RCat (lit false ",") (RCat (RGroup n (RCat digit1 REmpty)) REmpty)) REmpty.

Lemma digits_run {A} s (k : Pos → Captures → option A) rest env a prev : digits s → s ≠ "" →
  match rest with x :: _ => inRanges [(48, 57)%Z] x.1 = false | [] => True end →
  (∀ prev', k (prev', rest) env = Some a) → step digit1 (prev, syms s ++ rest) env k = Some a.
Proof. intros. by apply plus_syms. Qed.
Definition countCapture (n : nat) (c : N) : Captures := if (c =? 1)%N then [] else [(n, syms (pretty c))].
Lemma count_run {A} n c (k : Pos → Captures → option A) rest env a prev :
  match rest with x :: _ => x.1 = 32%Z | [] => False end →
  (∀ prev', k (prev', rest) (countCapture n c ++ env) = Some a) → step (countPart n) (prev, syms (countText c) ++ rest) env k = Some a.
Proof.
  intros Hr Hk. unfold countText, countCapture in *. destruct (c =? 1)%N.
  - change (syms "" ++ rest) with rest. unfold countPart. cbn [step]. destruct rest as [|x rest]; [done|]. cbn [step snd].
    unfold lit. cbn [step snd].
    assert (inClass (mkCls false false [(byteZ ",", byteZ ",")]) x.1 = false) as -> by (by rewrite Hr). simpl. apply Hk.
  - destruct (pretty_value c) as (Hd & Hne & _). unfold countPart. cbn [step]. change (syms ("," +:+ pretty c) ++ rest) with (sym "," :: (syms (pretty c) ++ rest)).
    unfold lit. cbn [step snd]. match goal with |- orElse ?x _ = _ => assert (x = Some a) as -> end; [|done].
    change (inClass (mkCls false false [(byteZ ",", byteZ ",")]) (sym ",").1) with true. cbn iota.
    apply digits_run; [done..| |].
    + destruct rest as [|x rest]; [done|]. by rewrite Hr.
    + intros prev'. rewrite between_app. apply Hk.
Qed.

Lemma hunkHeader_decode os oc ns nc section : decode (hunkHeader os oc ns nc section) =
  sym "@" :: sym "@" :: sym " " :: sym "-" :: syms (pretty os) ++ syms (countText oc) ++ sym " " :: sym "+" ::
  syms (pretty ns) ++ syms (countText nc) ++ sym " " :: sym "@" :: sym "@" :: decode section.
Proof.
  unfold hunkHeader. assert (∀ c, Forall (λ a, byteZ a < 128)%Z (String.list_ascii_of_string (countText c))) as Hc.
  { intros c. unfold countText. destruct (c =? 1)%N; [constructor|]. constructor; [done|]. apply digits_ascii, pretty_value. }
  assert (∀ n : N, Forall (λ a, byteZ a < 128)%Z (String.list_ascii_of_string (pretty n))) as Hp by (intros n; apply digits_ascii, pretty_value).
  rewrite (decode_syms "@@ -") by (by repeat constructor). rewrite (decode_syms (pretty os)), (decode_syms (countText oc)) by done.
  rewrite (decode_syms " +") by (by repeat constructor). rewrite (decode_syms (pretty ns)), (decode_syms (countText nc)) by done.
  rewrite (decode_syms " @@") by (by repeat constructor). done.
Qed.
Lemma hunkHeader_match os oc ns nc section : ∃ q,
  matchAt hunkHeaderPattern (None, decode (hunkHeader os oc ns nc section)) =
  Some (q, countCapture 3 nc ++ (2, syms (pretty ns)) :: countCapture 1 oc).
Proof.
  rewrite hunkHeader_decode. eexists. unfold matchAt.
  change hunkHeaderPattern with (RCat RBegin (RCat (lit false "@") (RCat (lit false "@") (RCat (lit false " ") (RCat (lit false "-")
    (RCat digit1 (RCat (countPart 1) (RCat (lit false " ") (RCat (lit false "+") (RCat (RGroup 2 (RCat digit1 REmpty)) (RCat (countPart 3)
    (RCat (lit false " ") (RCat (lit false "@") (RCat (lit false "@") REmpty)))))))))))))).
  destruct (pretty_value os) as (Ho & Hone & _), (pretty_value ns) as (Hn & Hnne & _).
  match goal with |- ?x = _ => change x with
    (step (RCat digit1 (RCat (countPart 1) (RCat (lit false " ") (RCat (lit false "+") (RCat (RGroup 2 (RCat digit1 REmpty)) (RCat (countPart 3)
    (RCat (lit false " ") (RCat (lit false "@") (RCat (lit false "@") REmpty))))))))) (Some 45%Z, syms (pretty os) ++ syms (countText oc) ++ sym " " :: sym "+" ::
  syms (pretty ns) ++ syms (countText nc) ++ sym " " :: sym "@" :: sym "@" :: decode section) [] (λ q env, Some (q, env))) end.
  cbn [step]. apply digits_run; [done..| |].
  { unfold countText. by destruct (oc =? 1)%N. }
  intros p1. apply count_run; [done|]. intros p2. unfold lit. cbn [step snd]. apply digits_run; [done..| |].
  { unfold countText. by destruct (nc =? 1)%N. }
  intros p3. rewrite between_app. apply count_run; [done|]. intros p4. rewrite app_nil_r. reflexivity.
Qed.
(** The header announces the lines of its hunk and where they start. *)
Lemma parseHunkHeader_exact os oc ns nc section : (Z.of_N oc + Z.of_N nc ≤ maxInt)%Z → (Z.of_N ns ≤ maxInt)%Z →
  parseHunkHeader (hunkHeader os oc ns nc section) = Some ((Z.of_N oc + Z.of_N nc)%Z, Z.of_N ns).
Proof.
  intros Hc Hs. unfold parseHunkHeader, FindStringSubmatch. destruct (hunkHeader_match os oc ns nc section) as [q Hm].
  assert (searchFrom hunkHeaderPattern None (decode (hunkHeader os oc ns nc section)) =
    Some ([], q, countCapture 3 nc ++ (2, syms (pretty ns)) :: countCapture 1 oc)) as ->.
  { destruct (decode _) as [|x t]; cbn [searchFrom]; by rewrite Hm. }
  destruct (pretty_value oc) as (_ & Hone & Ho), (pretty_value nc) as (_ & Hnne & Hn), (pretty_value ns) as (_ & _ & Hns).
  unfold countCapture.
  assert (∀ n : N, pretty n ≠ "" → String.eqb (pretty n) "" = false) as Hneq by (intros n ?; by apply String.eqb_neq).
  destruct (N.eqb_spec oc 1) as [->|], (N.eqb_spec nc 1) as [->|]; cbn [app find fst Nat.eqb negb String.eqb];
    rewrite ?bytes_syms, ?Hneq by done; cbn [negb]; unfold AtoiDigits; rewrite ?Ho, ?Hn, Hns; f_equal; f_equal; try lia;
    rewrite ?Z.min_r by lia; unfold wrap64, maxInt in *; rewrite Z.mod_small; lia.
Qed.

Lemma wrap64_id x : (-9223372036854775808 ≤ x ≤ maxInt)%Z → wrap64 x = x.
Proof. unfold wrap64, maxInt. intros H. rewrite Z.mod_small; lia. Qed.

Lemma appendHunkAdds_removed file start removed added :
  appendHunkAdds file start (hunkBody removed added) = appendHunkAdds file start (String.append "+" <$> added).
Proof. unfold hunkBody. by induction removed as [|b removed IH]. Qed.
Lemma appendHunkAdds_exact path added : path ≠ "" → path ≠ "/dev/null" → ∀ start,
  (0 ≤ start)%Z → (start + Z.of_nat (length added) ≤ maxInt)%Z →
  appendHunkAdds path start (String.append "+" <$> added) = imap (λ k b, mkAdded path (start + Z.of_nat k) b) added.
Proof.
  intros Hp1 Hp2. apply String.eqb_neq in Hp1, Hp2. induction added as [|b added IH]; intros start Hlo Hhi; [done|].
  cbn [length] in Hhi. cbn [fmap list_fmap appendHunkAdds].
  unfold HasPrefix. rewrite Hp1, Hp2. destruct b; simpl; rewrite Z.add_0_r, wrap64_id by lia;
    (f_equal; rewrite IH by lia; apply imap_ext; intros k x _; simpl; f_equal; lia).
Qed.

Lemma appendHunkAdds_none file start body : file = "" ∨ file = "/dev/null" → appendHunkAdds file start body = [].
Proof.
  intros Hf. revert start. induction body as [|b body IH]; intros start; simpl; [done|].
  destruct (HasPrefix b "+"); simpl; [|apply IH]. destruct Hf as [-> | ->]; simpl; apply IH; auto.
Qed.

(** The variable [file] of the loop. *)
Definition fileIs (file : string) (o : option string) : Prop :=
  match o with
  | Some path => file = path ∧ path ≠ "" ∧ path ≠ "/dev/null"
  | None => file = "" ∨ file = "/dev/null"
  end.

Lemma newFile_name path : TrimPrefix (TrimPrefix ("+++ b/" +:+ path) "+++ ") "b/" = path.
Proof.
  change ("+++ b/" +:+ path) with ("+++ " +:+ ("b/" +:+ path)). by rewrite !TrimPrefix_app.
Qed.

Lemma hunk_not_file s : HasPrefix s "@@ " = true → HasPrefix s "+++ " = false.
Proof. destruct s as [|a s]; [done|]. unfold HasPrefix. cbn [String.prefix]. by destruct (ascii_dec "@" a) as [<-|]. Qed.

Lemma addedFrom_step fuel file i header body rest start :
  HasPrefix header "+++ " = false → HasPrefix header "@@ " = true →
  parseHunkHeader header = Some (Z.of_nat (length body), start) →
  (0 ≤ i)%Z → (i + 1 + Z.of_nat (length (body ++ rest)) ≤ maxInt)%Z →
  addedFrom (S fuel) file i (header :: body ++ rest) =
    (λ r, appendHunkAdds file start body ++ r) <$> addedFrom fuel file (i + 1 + Z.of_nat (length body)) rest.
Proof.
  intros H1 H2 H3 Hi Hb. cbn [addedFrom]. rewrite H1, H2, H3. rewrite length_app in *.
  rewrite wrap64_id, Z.min_l by lia. rewrite (proj2 (Z.ltb_ge _ _)) by lia.
  replace (Z.to_nat (i + 1 + Z.of_nat (length body) - (i + 1))) with (length body) by lia.
  rewrite drop_app_length, take_app_length. by destruct (addedFrom fuel _ _ rest).
Qed.

Lemma addedFrom_items ds : Forall wfItem ds → ∀ fuel file o i, fileIs file o → length (diffLines ds) ≤ fuel →
  (0 ≤ i)%Z → (i + Z.of_nat (length (diffLines ds)) ≤ maxInt)%Z →
  addedFrom fuel file i (diffLines ds) = Some (additions o ds).
Proof.
  induction 1 as [|d ds Hd Hds IH]; intros fuel file o i Hf Hfuel Hi Hmax; [by destruct fuel|].
  change (diffLines (d :: ds)) with (itemLines d ++ diffLines ds) in *. rewrite length_app in Hfuel, Hmax.
  destruct d as [line|path| |oldStart newStart section removed added]; simpl in Hfuel, Hmax;
    (destruct fuel as [|fuel]; [lia|]); cbn [itemLines app wfItem additions] in *.
  - destruct Hd as [H1 H2]. cbn [addedFrom]. rewrite H1, H2. apply IH; [done|lia..].
  - destruct Hd as [H1 H2]. cbn [addedFrom].
    change (HasPrefix ("+++ b/" +:+ path) "+++ ") with (HasPrefix ("+++ " +:+ ("b/" +:+ path)) "+++ ").
    unfold HasPrefix at 1. rewrite prefix_app_str, newFile_name. apply IH; [done|lia..].
  - cbn [addedFrom]. apply IH; [by right|lia..].
  - rewrite (addedFrom_step _ _ _ _ _ _ (Z.of_N newStart)); [|done|done| |lia|rewrite length_app; lia].
    2:{ rewrite parseHunkHeader_exact by (unfold hunkBody in *; rewrite ?length_app, ?length_fmap in *; lia).
        f_equal. f_equal. unfold hunkBody. rewrite length_app, !length_fmap. lia. }
    rewrite (IH _ _ o) by (done || lia). simpl. f_equal. rewrite appendHunkAdds_removed.
    destruct o as [path|]; simpl in Hf; [destruct Hf as (-> & Hp1 & Hp2)|].
    + rewrite appendHunkAdds_exact by (done || lia). done.
    + by rewrite appendHunkAdds_none.
Qed.

(** C27. The added lines of a diff without context are found exactly, with the
    name of their file as the diff writes it and their line numbers, whatever the
    text of the lines: one that itself reads as a header of a file or a hunk is
    still an added line.  The hunks are those whose lines are all removed or
    added; git's note on a missing final newline, which is neither, is excluded
    (see [scan_misses_unterminated_line]). *)
Theorem added_lines_exact ds : Forall wfItem ds → ds ≠ [] →
  Forall (λ l, newline ∉ String.list_ascii_of_string l) (diffLines ds) → (Z.of_nat (length (diffLines ds)) ≤ maxInt)%Z →
  addedLines (JoinWith nlString (diffLines ds)) = Some (additions None ds).
Proof.
  intros Hwf Hne Hnl Hlen. unfold addedLines. rewrite Lines_Join; [|by destruct ds as [|[] ds]|done].
  apply addedFrom_items; [done|by left|lia..].
Qed.

Definition demo_diff : list DiffItem :=
  [Other "diff --git a/x.go b/x.go"; Other "--- a/x.go"; NewFile "x.go";
   Hunk 3 3 " func f() {" ["-- a/y"] ["++ b/y.go"; "@@ -1 +1 @@"]; Other ""].
Lemma added_lines_exact_witness :
  JoinWith nlString (diffLines demo_diff) = JoinWith nlString ["diff --git a/x.go b/x.go"; "--- a/x.go"; "+++ b/x.go";
    "@@ -3 +3,2 @@ func f() {"; "--- a/y"; "+++ b/y.go"; "+@@ -1 +1 @@"; ""] ∧
  addedLines (JoinWith nlString (diffLines demo_diff)) =
    Some [mkAdded "x.go" 3 "++ b/y.go"; mkAdded "x.go" 4 "@@ -1 +1 @@"].
Proof.
  split; [vm_compute; reflexivity|]. rewrite (added_lines_exact demo_diff); [vm_compute; reflexivity| |done| |by vm_compute].
  - repeat constructor; done.
  - unfold demo_diff. repeat constructor; vm_compute; intros H; inversion_clear H; repeat match goal with H : _ ∈ _ |- _ => inversion_clear H end.
Defined.

(** ** The scan *)

(** Whether a line holds one of the precise shapes, or a quoted assignment whose
    value looks like a secret. *)
Definition secretLine (t : string) : bool :=
  existsb (λ re, MatchString re t) specificSecretPatterns || existsb flagged (FindAll strictGenericSecretPattern t).

Lemma redactLine_found t : (redactLine t).2 = secretLine t.
Proof.
  unfold redactLine, secretLine. cbn [snd].
  destruct (redactWith_exact specificSecretPatterns t) as [H1 H2]; [by vm_compute|].
  unfold RedactHighConfidenceSecrets. rewrite H1.
  destruct (existsb (λ re, MatchString re t) specificSecretPatterns); [done|]. by rewrite H2.
Qed.

Lemma findingOf_Some l : is_Some (findingOf l) ↔ secretLine (al_text l) = true ∧ hasNosecretMarker (al_text l) = false.
Proof.
  unfold findingOf. rewrite redactLine_found. destruct (hasNosecretMarker (al_text l)).
  - split; [by intros []|by intros []].
  - destruct (secretLine (al_text l)); simpl; split; [done|by eexists|by intros []|by intros []].
Qed.

(** The added lines that hold a secret and carry no marker. *)
Definition leaks (ds : list DiffItem) : Prop :=
  ∃ l, l ∈ additions None ds ∧ secretLine (al_text l) = true ∧ hasNosecretMarker (al_text l) = false.

Lemma leaks_findings ds : leaks ds ↔ omap findingOf (additions None ds) ≠ [].
Proof.
  split.
  - intros (l & Hl & Hs) H. apply findingOf_Some in Hs as [t Ht].
    assert (t ∈ omap findingOf (additions None ds)) as Hin by (apply list_elem_of_omap; eauto). rewrite H in Hin. by inversion Hin.
  - intros H. destruct (omap findingOf (additions None ds)) as [|t ts] eqn:E; [done|].
    assert (t ∈ omap findingOf (additions None ds)) as Hin by (rewrite E; left).
    apply list_elem_of_omap in Hin as (l & Hl & Ht). exists l. split; [done|]. apply findingOf_Some. by eexists.
Qed.

(** The secret scan fails exactly when the diff adds a line that holds a
    secret and is not marked, and passes otherwise; it does not panic. *)
Theorem scan_exact git dir baseRef headRef ds :
  gitDiff git dir baseRef headRef = inl (JoinWith nlString (diffLines ds)) → Forall wfItem ds → ds ≠ [] →
  Forall (λ l, newline ∉ String.list_ascii_of_string l) (diffLines ds) → (Z.of_nat (length (diffLines ds)) ≤ maxInt)%Z →
  ∃ v, ScanSecrets git dir baseRef headRef = Some v ∧
    (vr_Status v = StatusFail ∧ leaks ds ∨ vr_Status v = StatusPass ∧ ¬ leaks ds).
Proof.
  intros Hg Hwf Hne Hnl Hlen. unfold ScanSecrets, addedLines. rewrite Hg, Lines_Join by (by destruct ds as [|[] ds]).
  rewrite (addedFrom_items _ Hwf _ "" None) by (done || lia || by left). pose proof (leaks_findings ds) as Hf.
  destruct (omap findingOf (additions None ds)) as [|t ts]; (eexists; split; [done|]); [right|left]; (split; [done|]).
  - intros H. by apply Hf in H.
  - by apply Hf.
Qed.

Definition demo_git (out : string) : Git := λ args,
  if decide (args = ["diff"; "--unified=0"; "--no-color"; "main...HEAD"]) then inl out else inr (New "exit status 129", "usage").
Definition demo_leak : list DiffItem :=
  [NewFile "x.go"; Hunk 0 1 "" [] ["password := '[' // nosecret"; "key := " +:+ dq +:+ "abcdef123" +:+ dq]; Other ""].
Lemma demo_leak_ok : Forall wfItem demo_leak ∧ Forall (λ l, newline ∉ String.list_ascii_of_string l) (diffLines demo_leak).
Proof.
  split; [repeat constructor; done|].
  repeat constructor; vm_compute; intros H; inversion_clear H; repeat match goal with H : _ ∈ _ |- _ => inversion_clear H end.
Qed.
Lemma scan_exact_witness : ∃ v, ScanSecrets (demo_git (JoinWith nlString (diffLines demo_leak))) "" "main" "HEAD" = Some v ∧
  vr_Status v = StatusFail.
Proof.
  destruct (scan_exact (demo_git (JoinWith nlString (diffLines demo_leak))) "" "main" "HEAD" demo_leak)
    as (v & Hv & [[Hs _]|[_ Hno]]); [vm_compute; reflexivity|exact (proj1 demo_leak_ok)|discriminate|exact (proj2 demo_leak_ok)|vm_compute; discriminate|exact (ex_intro _ v (conj Hv Hs))|].
  destruct Hno. exists (mkAdded "x.go" 2 ("key := " +:+ dq +:+ "abcdef123" +:+ dq)).
  split; [vm_compute; right; left|split; vm_compute; reflexivity].
Defined.

(** A hunk that holds git's note on a missing final newline has more lines
    than its header announces: a secret in the changed last line of such a file
    is not scanned, and the scan passes. *)
Theorem scan_misses_unterminated_line :
  let secret := "key := " +:+ dq +:+ "abcdef123" +:+ dq in
  let note := "\ No newline at end of file" in
  let diff := JoinWith nlString ["--- a/x.go"; "+++ b/x.go"; "@@ -3 +3 @@"; "-old"; note; "+" +:+ secret; note; ""] in
  secretLine secret = true ∧ addedLines diff = Some [] ∧
  ScanSecrets (demo_git diff) "" "main" "HEAD" = Some (mkVResult "check-secrets" VerificationSecretScan StatusPass 0 "" "").
Proof. vm_compute. repeat split. Qed.
