(* ===== verification/Contract.v ===== *)
(** The repository contract, modulex.agent.yaml: its schema, validation and
    loading (src/contract/contract.go, secrets.go, load.go) and its rendering
    (render.go).

    The YAML decoder and the reading of a file are parameters. *)

From Stdlib Require Import Ascii.
From stdpp Require Import base list strings pretty.
From S2P Require Import Prelude Provenance Regex Paths GoStrings Approval Envelope Glob.

(** * The schema *)

Definition SchemaVersion : string := "1.0.0".

Record Project := mkProject {
  pj_Name : string; pj_Path : string; pj_ModulePath : string; pj_Description : string; pj_CompositionRoots : list string }.
Record InstructionFile := mkInstructionFile { if_Path : string; if_Priority : Z; if_Notes : string }.
Record InstructionPrecedence := mkInstructions { ip_Files : list InstructionFile; ip_Rule : string }.
Record Boundary := mkBoundary { bd_Name : string; bd_Description : string; bd_Paths : list string; bd_Rule : string }.
Record CheckDecl := mkCheckDecl {
  ck_Name : string; ck_Command : string; ck_Reason : string; ck_RequiredTool : string; ck_Networked : bool }.
Record VerificationDecl := mkVerificationDecl { vd_Focused : list CheckDecl; vd_Full : list CheckDecl }.
Record OptionalService := mkOptionalService { os_Name : string; os_Description : string }.
Record Contract := mkContract {
  ct_SchemaVersion : string; ct_Projects : list Project; ct_Instructions : InstructionPrecedence;
  ct_Boundaries : list Boundary; ct_Commands : list CommandDecl; ct_Verification : VerificationDecl;
  ct_ProtectedPaths : list string; ct_GeneratedPaths : list string; ct_RequiredTools : list string;
  ct_OptionalServices : list OptionalService; ct_RequiredCredentials : list string; ct_HandoffFormat : string }.

(** * Secrets *)

Definition secretPatterns : list (string * regex) :=
  [("AWS secret key", awsSecretPattern);
   ("PEM private key", pemPrivateKeyPattern);
   ("GitHub token", githubTokenPattern);
   ("generic key/token/password/secret assignment", genericAssignmentPattern);
   ("JWT-shaped value", jwtPattern)].

Fixpoint firstLabel (patterns : list (string * regex)) (s : string) : option string :=
  match patterns with
  | [] => None
  | (label, re) :: patterns => if MatchString re s then Some label else firstLabel patterns s
  end.
Definition secretLabel (s : string) : option string := firstLabel secretPatterns s.

(** [fmt.Sprintf("%s[%d]", name, i)]. *)
Definition at_ (name : string) (i : nat) : string := name +:+ "[" +:+ pretty i +:+ "]".

(** A field that is not empty, with its path. *)
Definition add (path value : string) : list (string * string) :=
  if String.eqb value "" then [] else [(path, value)].
Definition addEach (name : string) (l : list string) : list (string * string) := mjoin (imap (λ i, add (at_ name i)) l).
Definition each {A} (name : string) (f : string → A → list (string * string)) (l : list A) : list (string * string) :=
  mjoin (imap (λ i, f (at_ name i)) l).

Definition projectFields (at_i : string) (p : Project) : list (string * string) :=
  add (at_i +:+ ".name") (pj_Name p) ++ add (at_i +:+ ".path") (pj_Path p)
  ++ add (at_i +:+ ".module_path") (pj_ModulePath p) ++ add (at_i +:+ ".description") (pj_Description p)
  ++ addEach (at_i +:+ ".composition_roots") (pj_CompositionRoots p).
Definition checkFields (at_i : string) (k : CheckDecl) : list (string * string) :=
  add (at_i +:+ ".name") (ck_Name k) ++ add (at_i +:+ ".command") (ck_Command k)
  ++ add (at_i +:+ ".reason") (ck_Reason k) ++ add (at_i +:+ ".required_tool") (ck_RequiredTool k).

Definition fieldsForSecretScan (c : Contract) : list (string * string) :=
  each "projects" projectFields (ct_Projects c)
  ++ add "instructions.rule" (ip_Rule (ct_Instructions c))
  ++ each "instructions.files" (λ at_i f, add (at_i +:+ ".path") (if_Path f) ++ add (at_i +:+ ".notes") (if_Notes f))
       (ip_Files (ct_Instructions c))
  ++ each "boundaries" (λ at_i b,
       add (at_i +:+ ".name") (bd_Name b) ++ add (at_i +:+ ".description") (bd_Description b)
       ++ add (at_i +:+ ".rule") (bd_Rule b) ++ addEach (at_i +:+ ".paths") (bd_Paths b)) (ct_Boundaries c)
  ++ each "commands" (λ at_i d,
       add (at_i +:+ ".name") (cd_Name d) ++ add (at_i +:+ ".command") (cd_Command d)
       ++ add (at_i +:+ ".reason") (cd_Reason d)) (ct_Commands c)
  ++ each "verification.focused" checkFields (vd_Focused (ct_Verification c))
  ++ each "verification.full" checkFields (vd_Full (ct_Verification c))
  ++ addEach "protected_paths" (ct_ProtectedPaths c)
  ++ addEach "generated_paths" (ct_GeneratedPaths c)
  ++ addEach "required_tools" (ct_RequiredTools c)
  ++ addEach "required_credentials" (ct_RequiredCredentials c)
  ++ each "optional_services" (λ at_i s,
       add (at_i +:+ ".name") (os_Name s) ++ add (at_i +:+ ".description") (os_Description s)) (ct_OptionalServices c)
  ++ add "handoff_format" (ct_HandoffFormat c).

Definition validateSecrets (c : Contract) : list error :=
  fieldsForSecretScan c ≫= (λ f,
    match secretLabel f.2 with
    | Some label => [Errorf "%s: contains a value that looks like a secret (%s)" [f.1; label] []]
    | None => []
    end).

(** * Validation *)

Definition validCommandClasses (c : CommandClass) : bool :=
  bool_decide (c ∈ [ClassSafe; ClassMutating; ClassNetworked; ClassDestructive; ClassApprovalRequired]).
Definition validCommandClassNames : string := "safe, mutating, networked, destructive, approval_required".

(** [path.ErrBadPattern]. *)
Definition errBadPattern : error := New "syntax error in pattern".

Definition Validate (c : Contract) : option error :=
  errors_Join (Some <$> (
    when (String.eqb (TrimSpace (ct_SchemaVersion c)) "") (New "schema_version is required")
    ++ when (bool_decide (ct_Projects c = [])) (New "projects: at least one project is required")
    ++ indexed (λ i p,
         when (String.eqb (TrimSpace (pj_Name p)) "") (Errorf "projects[%d]: name is required" [pretty i] [])
         ++ when (String.eqb (TrimSpace (pj_Path p)) "") (Errorf "projects[%d] (%q): path is required" [pretty i; pj_Name p] []))
         (ct_Projects c)
    ++ indexed (λ i d,
         when (negb (validCommandClasses (cd_Class d)))
           (Errorf "commands[%d] (%q): unknown command class %q; must be one of: %s"
             [pretty i; cd_Name d; cd_Class d; validCommandClassNames] []))
         (ct_Commands c)
    ++ indexed (λ i p,
         match Match p "" with
         | ErrBadPattern => [Errorf "protected_paths[%d] (%q): invalid glob pattern: %w" [pretty i; p] [errBadPattern]]
         | Ok _ => []
         end) (ct_ProtectedPaths c)
    ++ validateSecrets c)).

(** * Loading *)

Definition FileName : string := "modulex.agent.yaml".

Section loading.
(** [yaml.Unmarshal] into a [Contract]. *)
Context (yamlUnmarshal : string → Contract + error).

Definition Unmarshal (data : string) : Contract + error :=
  match yamlUnmarshal data with
  | inr err => inr (Errorf "parsing %s: %w" [FileName] [err])
  | inl parsed => inl parsed
  end.

(** [os.ReadFile]: [inl None] is [os.ErrNotExist]. *)
Context (readFile : string → option string + error).

(** The contract, whether it is present, and the error. *)
Definition Load (root : string) : option Contract * bool * option error :=
  match readFile (Join root FileName) with
  | inl None => (None, false, None)
  | inr readErr => (None, false, Some (Errorf "reading %s: %w" [FileName] [readErr]))
  | inl (Some data) =>
    match Unmarshal data with
    | inr unmarshalErr => (None, true, Some unmarshalErr)
    | inl parsed => (Some parsed, true, None)
    end
  end.
End loading.

(** * Correctness *)

(** ** Validation *)

(** The free text of a contract. *)
Definition checkText (k : CheckDecl) : list string := [ck_Name k; ck_Command k; ck_Reason k; ck_RequiredTool k].
Definition freeText (c : Contract) : list string :=
  (ct_Projects c ≫= λ p, [pj_Name p; pj_Path p; pj_ModulePath p; pj_Description p] ++ pj_CompositionRoots p)
  ++ [ip_Rule (ct_Instructions c)] ++ (ip_Files (ct_Instructions c) ≫= λ f, [if_Path f; if_Notes f])
  ++ (ct_Boundaries c ≫= λ b, [bd_Name b; bd_Description b; bd_Rule b] ++ bd_Paths b)
  ++ (ct_Commands c ≫= λ d, [cd_Name d; cd_Command d; cd_Reason d])
  ++ (vd_Focused (ct_Verification c) ≫= checkText) ++ (vd_Full (ct_Verification c) ≫= checkText)
  ++ ct_ProtectedPaths c ++ ct_GeneratedPaths c ++ ct_RequiredTools c ++ ct_RequiredCredentials c
  ++ (ct_OptionalServices c ≫= λ s, [os_Name s; os_Description s]) ++ [ct_HandoffFormat c].

(** The labels are those of the envelope's patterns. *)
Lemma secretLabel_None s : secretLabel s = None ↔ clean s.
Proof.
  unfold secretLabel, clean, containsSecret. cbn [secretPatterns firstLabel Envelope.secretPatterns existsb].
  repeat (case_match; simpl; [split; (done || (rewrite ?orb_true_r; done))|]). done.
Qed.

(** The fields scanned hold the free text. *)
Definition scanned (fields : list (string * string)) : Prop := Forall (λ f, secretLabel f.2 = None) fields.
Lemma add_scanned path value : scanned (add path value) ↔ clean value.
Proof.
  unfold add, scanned. destruct (String.eqb_spec value "") as [->|].
  - split; [intros; by vm_compute|done].
  - by rewrite Forall_singleton, <-secretLabel_None.
Qed.
Lemma each_scanned {A} name (f : string → A → list (string * string)) (g : A → list string) l :
  (∀ path x, scanned (f path x) ↔ Forall clean (g x)) → scanned (each name f l) ↔ Forall clean (l ≫= g).
Proof.
  intros Hf. unfold each, scanned in *. generalize (at_ name). induction l as [|x l IH]; intros h; [by split|].
  rewrite imap_cons. cbn [mjoin list_join mbind list_bind]. rewrite !Forall_app, Hf.
  specialize (IH (h ∘ S)). rewrite <-IH. done.
Qed.
Lemma addEach_scanned name l : scanned (addEach name l) ↔ Forall clean l.
Proof.
  change (addEach name l) with (each name add l).
  rewrite (each_scanned name add (λ x, [x])) by (intros; rewrite Forall_singleton; apply add_scanned).
  induction l as [|x l IH]; [done|]. cbn [mbind list_bind app]. by rewrite !Forall_cons, IH.
Qed.

Lemma scanned_app l k : scanned (l ++ k) ↔ scanned l ∧ scanned k.
Proof. apply Forall_app. Qed.

Ltac scan_fields :=
  intros; try unfold projectFields; try unfold checkFields, checkText;
  rewrite ?scanned_app, ?add_scanned, ?addEach_scanned, ?Forall_app, ?Forall_cons, ?Forall_nil; tauto.

Lemma fields_scanned c : scanned (fieldsForSecretScan c) ↔ Forall clean (freeText c).
Proof.
  unfold fieldsForSecretScan, freeText. rewrite !scanned_app, !Forall_app, !addEach_scanned, !add_scanned, !Forall_singleton.
  repeat match goal with |- context [Forall clean (?l ≫= ?g)] =>
    match goal with |- context [scanned (each ?name ?f l)] => rewrite (each_scanned name f g l) by scan_fields end end.
  done.
Qed.

(** What the schema asks of a contract. *)
Record contractOk (c : Contract) : Prop := {
  ok_version : TrimSpace (ct_SchemaVersion c) ≠ "";
  ok_projects : ct_Projects c ≠ [];
  ok_named : Forall (λ p, TrimSpace (pj_Name p) ≠ "" ∧ TrimSpace (pj_Path p) ≠ "") (ct_Projects c);
  ok_classes : Forall (λ d, cd_Class d ∈ [ClassSafe; ClassMutating; ClassNetworked; ClassDestructive; ClassApprovalRequired])
    (ct_Commands c);
  ok_patterns : Forall (λ p, ∃ b, Match p "" = Ok b) (ct_ProtectedPaths c);
  ok_text : Forall clean (freeText c) }.

Lemma validateSecrets_nil c : validateSecrets c = [] ↔ Forall clean (freeText c).
Proof.
  rewrite <-fields_scanned. unfold validateSecrets, scanned. induction (fieldsForSecretScan c) as [|f l IH]; [by split|].
  cbn [mbind list_bind]. rewrite app_nil_iff, Forall_cons, IH. destruct (secretLabel f.2); naive_solver.
Qed.

(** A contract is valid exactly when it names a version and projects, its
    commands have known classes, its protected paths are patterns and none of
    its free text looks like a secret. *)
Theorem contract_validate_exact c : Validate c = None ↔ contractOk c.
Proof.
  unfold Validate. rewrite Joined_nil, !app_nil_iff, !when_nil, String.eqb_neq, bool_decide_eq_false, validateSecrets_nil.
  rewrite (indexed_nil _ (λ p, TrimSpace (pj_Name p) ≠ "" ∧ TrimSpace (pj_Path p) ≠ ""))
    by (intros; by rewrite app_nil_iff, !when_nil, !String.eqb_neq).
  rewrite (indexed_nil _ (λ d, cd_Class d ∈ [ClassSafe; ClassMutating; ClassNetworked; ClassDestructive; ClassApprovalRequired]))
    by (intros; by rewrite when_nil, negb_false_iff; unfold validCommandClasses; rewrite bool_decide_eq_true).
  rewrite (indexed_nil _ (λ p, ∃ b, Match p "" = Ok b)) by (intros; case_match; split; naive_solver).
  split; [by intros (? & ? & ? & ? & ? & ?); split|by intros []; split_and!].
Qed.

(** Two checks of a contract are weaker than its documentation says: the
    schema version is not scanned, and a class that spans a slash is accepted as
    a protected path although the review of a change cannot enforce it. *)
Theorem contract_unchecked :
  let c := λ v ps, mkContract v [mkProject "m" "." "" "" []] (mkInstructions [] "") [] [] (mkVerificationDecl [] []) ps [] [] [] [] "" in
  Validate (c "ghp_0123456789abcdefghij" []) = None ∧
  Validate (c "1.0.0" ["docs/[a/b].md"]) = None ∧ partitionGlobs ["docs/[a/b].md"] = ([], ["docs/[a/b].md"]).
Proof. vm_compute. repeat split. Qed.
