(* ===== verification/ProtectedPaths.v ===== *)
(** The protected-path check of a change and the diff review
    (src/review/protectedpaths.go, src/review/review.go).

    git, the YAML decoder and the table of printable runes are parameters. *)

From Stdlib Require Import Ascii.
From stdpp Require Import base list strings pretty.
From S2P Require Import Prelude Quote Provenance Regex Paths GoStrings Approval Envelope Glob DiffScan Contract VerifyPlan.

(** * Hunks *)

Record diffHunk := mkHunk { oldStart : Z; oldCount : Z; newStart : Z; newCount : Z }.

Definition fullHunkHeaderPattern : regex := Eval vm_compute in MustCompile "^@@ -(\d+)(?:,(\d+))? \+(\d+)(?:,(\d+))? @@".

(** A count, one where it is left out. *)
Definition countOf (s : string) : Z := if negb (String.eqb s "") then AtoiDigits s else 1%Z.
Definition parseHunk (line : string) : option diffHunk :=
  if negb (HasPrefix line "@@ ") then None
  else match FindStringSubmatch fullHunkHeaderPattern line with
       | None => None
       | Some m => Some (mkHunk (AtoiDigits (m 1)) (countOf (m 2)) (AtoiDigits (m 3)) (countOf (m 4)))
       end.
Definition parseHunks (diff : string) : list diffHunk := omap parseHunk (Lines diff).

(** * Line ranges

    Lines are numbered from one; a range holds both its ends, and [(0, 0)] is
    the range that was not found. *)

Definition splitLines (content : string) : list string :=
  let lines := Lines content in
  match reverse lines with
  | l :: ls => if String.eqb l "" then reverse ls else lines
  | [] => lines
  end.

Definition versionSectionHeaderPattern : regex := Eval vm_compute in MustCompile "^## \[".

(** The number of the last line before the next header, from line [n + 1] on. *)
Fixpoint sectionEnd (n : Z) (lines : list string) : Z :=
  match lines with
  | [] => n
  | l :: lines => if MatchString versionSectionHeaderPattern l then n else sectionEnd (n + 1) lines
  end.
Fixpoint unreleasedFrom (n : Z) (lines : list string) : Z * Z :=
  match lines with
  | [] => (0, 0)%Z
  | l :: lines =>
    if negb (HasPrefix l "## [Unreleased]") then unreleasedFrom (n + 1) lines
    else ((n + 1)%Z, sectionEnd (n + 1) lines)
  end.
Definition unreleasedSectionRange (content : string) : Z * Z := unreleasedFrom 0 (splitLines content).

Definition rangeWithin (start count : Z) (r : Z * Z) : bool :=
  if (count =? 0)%Z then true
  else if bool_decide (r = (0, 0)%Z) then false
  else let stop := wrap64 (start + count - 1) in ((r.1 <=? start) && (stop <=? r.2))%Z.

Definition rangeIntersectsAny (start count : Z) (ranges : list (Z * Z)) : bool :=
  if (count =? 0)%Z then false
  else let stop := wrap64 (start + count - 1) in existsb (λ r, (start <=? r.2) && (r.1 <=? stop))%Z ranges.

(** [cutRetractKeyword]; the bytes that may follow the keyword. *)
Definition tab : ascii := ascii_of_N 9.
Definition afterKeyword (rest : string) : bool :=
  match rest with
  | EmptyString => true
  | String a _ => Ascii.eqb a " " || Ascii.eqb a tab || Ascii.eqb a "("
  end.
Definition cutRetractKeyword (trimmed : string) : option string :=
  match CutPrefix trimmed "retract" with
  | Some rest => if afterKeyword rest then Some (TrimSpace rest) else None
  | None => None
  end.
Definition isRetractBlockOpen (rest : string) : bool :=
  match CutPrefix rest "(" with
  | None => false
  | Some after => let after := TrimSpace after in String.eqb after "" || HasPrefix after "//"
  end.
Definition isRetractBlockClose (trimmed : string) : bool :=
  if negb (HasPrefix trimmed ")") then false
  else let rest := TrimSpace (tailString trimmed) in String.eqb rest "" || HasPrefix rest "//".

(** The loop of [retractLineRanges]; [block] is the first line of an open
    block. *)
Fixpoint retractFrom (lineNo : Z) (block : option Z) (lines : list string) : list (Z * Z) :=
  match lines with
  | [] => []
  | raw :: lines =>
    let trimmed := TrimSpace raw in
    match block with
    | Some blockStart =>
      if isRetractBlockClose trimmed then (blockStart, lineNo) :: retractFrom (lineNo + 1) None lines
      else retractFrom (lineNo + 1) block lines
    | None =>
      match cutRetractKeyword trimmed with
      | None => retractFrom (lineNo + 1) None lines
      | Some rest =>
        if isRetractBlockOpen rest then retractFrom (lineNo + 1) (Some lineNo) lines
        else (lineNo, lineNo) :: retractFrom (lineNo + 1) None lines
      end
    end
  end.
Definition retractLineRanges (content : string) : list (Z * Z) := retractFrom 1 None (splitLines content).

(** * The check *)

Section check.
Context (isPrint : N → bool) (git : Git).

Definition ChangedFiles (dir baseRef headRef : string) : list string + error :=
  match validateRef baseRef with
  | Some err => inr err
  | None =>
    match validateRef headRef with
    | Some err => inr err
    | None =>
      match gitOutput git dir ["diff"; "--name-only"; "--no-color"; baseRef +:+ "..." +:+ headRef] with
      | inr err => inr err
      | inl out => let trimmed := TrimSpace out in if String.eqb trimmed "" then inl [] else inl (Lines trimmed)
      end
    end
  end.

Definition gitShow (dir ref file : string) : string + error :=
  match validateRef ref with
  | Some err => inr err
  | None => gitOutput git dir ["show"; ref +:+ ":" +:+ file]
  end.

Definition singleFileDiff (dir baseRef headRef file : string) : string + error :=
  match validateRef baseRef with
  | Some err => inr err
  | None =>
    match validateRef headRef with
    | Some err => inr err
    | None => gitOutput git dir ["diff"; "--unified=0"; "--no-color"; baseRef +:+ "..." +:+ headRef; "--"; file]
    end
  end.

Definition fileExceptionApplies (dir baseRef headRef file : string) (hunkIsSafe : diffHunk → string → string → bool) : bool :=
  match gitShow dir baseRef file with
  | inr _ => false
  | inl baseContent =>
    match gitShow dir headRef file with
    | inr _ => false
    | inl headContent =>
      match singleFileDiff dir baseRef headRef file with
      | inr _ => false
      | inl diff => forallb (λ h, hunkIsSafe h baseContent headContent) (parseHunks diff)
      end
    end
  end.

Definition changelogEditIsWithinUnreleased (dir baseRef headRef : string) : bool :=
  fileExceptionApplies dir baseRef headRef "CHANGELOG.md" (λ h baseContent headContent,
    rangeWithin (oldStart h) (oldCount h) (unreleasedSectionRange baseContent)
    && rangeWithin (newStart h) (newCount h) (unreleasedSectionRange headContent)).

Definition goModEditTouchesOnlyNonRetractLines (dir baseRef headRef : string) : bool :=
  fileExceptionApplies dir baseRef headRef "go.mod" (λ h baseContent headContent,
    negb (rangeIntersectsAny (oldStart h) (oldCount h) (retractLineRanges baseContent))
    && negb (rangeIntersectsAny (newStart h) (newCount h) (retractLineRanges headContent))).

(** The patterns in their order, up to the first that matches. *)
Fixpoint hitOf (dir baseRef headRef file : string) (patterns : list string) : option string :=
  match patterns with
  | [] => None
  | pattern :: patterns =>
    match matchProtectedPath pattern file with
    | Ok true =>
      if String.eqb file "CHANGELOG.md" && changelogEditIsWithinUnreleased dir baseRef headRef then None
      else if String.eqb file "go.mod" && goModEditTouchesOnlyNonRetractLines dir baseRef headRef then None
      else Some (file +:+ " matches protected path " +:+ Quote isPrint pattern)
    | _ => hitOf dir baseRef headRef file patterns
    end
  end.

Definition VerificationProtectedPaths : VerificationCategory := "protected_paths".

Definition CheckProtectedPaths (dir baseRef headRef : string) (protectedPaths : list string) : VerificationResult :=
  let name := "check-protected-paths" in
  if bool_decide (protectedPaths = [])
  then mkVResult name VerificationProtectedPaths StatusPass 0 "" "no protected_paths declared in modulex.agent.yaml"
  else
    let '(validPatterns, invalidPatterns) := partitionGlobs protectedPaths in
    let problems := (λ pattern, "protected path " +:+ Quote isPrint pattern
      +:+ " is not a valid glob pattern and cannot be enforced (fix modulex.agent.yaml)") <$> invalidPatterns in
    match ChangedFiles dir baseRef headRef with
    | inr err =>
      let reason := "could not compute diff " +:+ baseRef +:+ "..." +:+ headRef +:+ ": " +:+ errorText err in
      let reason := if negb (bool_decide (problems = [])) then reason +:+ "; " +:+ JoinWith "; " problems else reason in
      mkVResult name VerificationProtectedPaths StatusUnavailable 0 "" reason
    | inl changed =>
      let problems := problems ++ omap (λ file, hitOf dir baseRef headRef file validPatterns) changed in
      if bool_decide (problems = []) then mkVResult name VerificationProtectedPaths StatusPass 0 "" ""
      else mkVResult name VerificationProtectedPaths StatusFail 0
        (pretty (length problems)
         +:+ " protected-paths problem(s) (a protected-path change requires explicit human approval, see docs/planning/agent-safety-policy.md):"
         +:+ nlString +:+ JoinWith nlString problems) ""
    end.

Definition contractMissingAtRefSubstrings : list string := ["does not exist in"; "exists on disk, but not in"].
Definition ErrContractUnparseable : string := "contract is present but unparseable".

(** [yaml.Unmarshal] into a contract. *)
Context (yamlUnmarshal : string → Contract + error).

Definition LoadProtectedPathsAtRef (dir ref : string) : list string + error :=
  match gitShow dir ref FileName with
  | inr err =>
    if existsb (Contains (errorText err)) contractMissingAtRefSubstrings then inl []
    else inr (Errorf "loading %s at %s: %w" [FileName; ref] [err])
  | inl data =>
    match Unmarshal yamlUnmarshal data with
    | inr parseErr => inr (Errorf "loading %s at %s: %w: %w" [FileName; ref] [Const ErrContractUnparseable; parseErr])
    | inl c =>
      if existsb (λ p, String.eqb p FileName) (ct_ProtectedPaths c) then inl (ct_ProtectedPaths c)
      else inl (ct_ProtectedPaths c ++ [FileName])
    end
  end.

(** * The review *)

Definition VerificationBoundary : VerificationCategory := "boundary".
Definition VerificationCompatibility : VerificationCategory := "compatibility".
Definition VerificationChangelog : VerificationCategory := "changelog".

Definition Checks : list CheckSpec := [
  VerifyPlan.check "check-consumer-boundary" "make check-consumer-boundary" VerificationBoundary
    "verifies a consumer importing only the core package does not compile in an integration adapter as a build dependency" "go";
  VerifyPlan.check "check-module-boundary" "make check-module-boundary" VerificationBoundary
    "runs the modboundary analyzer against examples/deployment to enforce feature-module boundaries" "go";
  VerifyPlan.check "check-api-compat" "make check-api-compat" VerificationCompatibility
    "reports public API changes since the latest git tag" "go";
  VerifyPlan.check "check-changelog" "make check-changelog" VerificationChangelog
    "verifies CHANGELOG.md is updated when required (working tree vs origin/main)" "git"].

Definition withDir (dir : string) (c : CheckSpec) : CheckSpec :=
  mkCheck (cs_Name c) (cs_Command c) (cs_Category c) (cs_Reason c) (cs_RequiredTool c) (cs_Networked c) dir.

(** [None] is a panic of the secret scan. *)
Definition Review (env : nat → Env) (dir baseRef headRef : string) (tools : list ToolStatus) (allowNetwork : bool)
    (protectedPaths : list string) : option (list VerificationResult) :=
  let results := (Run env (withDir dir <$> Checks) tools allowNetwork).*1 in
  match ScanSecrets git dir baseRef headRef with
  | None => None
  | Some secrets => Some (results ++ [secrets; CheckProtectedPaths dir baseRef headRef protectedPaths])
  end.
End check.

Example ranges_ex :
  let content := JoinWith nlString ["# Log"; "## [Unreleased]"; "- a"; ""; "## [1.0.0]"; "- b"; ""] in
  unreleasedSectionRange content = (2, 4)%Z ∧ unreleasedSectionRange "x" = (0, 0)%Z ∧
  retractLineRanges (JoinWith nlString ["module m"; "retract v1.0.0"; "retract ( // old"; "  v0.1.0"; ") // end"; "retracted"; "retract(";  ")"])
    = [(2, 2); (3, 5); (7, 8)]%Z.
Proof. vm_compute. repeat split. Qed.

(** * Correctness *)

Section correctness.
Context (isPrint : N → bool) (git : Git) (dir baseRef headRef : string).

(** A pattern that can be enforced, and the files it is about. *)
Definition enforceable (p : string) : Prop := forallb validSegment (splitSlash p) = true.
Definition protects (p file : string) : Prop := PathMatch (splitSlash p) (splitSlash file).

(** The two files with a part that may change. *)
Definition excused (file : string) : Prop :=
  file = "CHANGELOG.md" ∧ changelogEditIsWithinUnreleased git dir baseRef headRef = true ∨
  file = "go.mod" ∧ goModEditTouchesOnlyNonRetractLines git dir baseRef headRef = true.

Lemma excused_spec file : excused file ↔
  String.eqb file "CHANGELOG.md" && changelogEditIsWithinUnreleased git dir baseRef headRef = true ∨
  String.eqb file "go.mod" && goModEditTouchesOnlyNonRetractLines git dir baseRef headRef = true.
Proof. by rewrite !andb_true_iff, !String.eqb_eq. Qed.

Lemma hitOf_None file ps : Forall enforceable ps →
  hitOf isPrint git dir baseRef headRef file ps = None ↔ Forall (λ p, protects p file → excused file) ps.
Proof.
  induction 1 as [|p ps Hp Hps IH]; simpl; [by split|].
  destruct (matchPathSegments_spec (splitSlash p) (splitSlash file) Hp) as (b & Hb & Hm).
  unfold matchProtectedPath. rewrite Hb, Forall_cons. destruct b.
  - assert (protects p file) as Hpf by (by apply Hm). rewrite excused_spec.
    destruct (_ && changelogEditIsWithinUnreleased git dir baseRef headRef) eqn:E1.
    { split; [|done]. intros _. split; [auto|]. apply Forall_true. intros ? _. apply excused_spec. auto. }
    destruct (_ && goModEditTouchesOnlyNonRetractLines git dir baseRef headRef) eqn:E2.
    { split; [|done]. intros _. split; [auto|]. apply Forall_true. intros ? _. apply excused_spec. auto. }
    split; [done|]. intros [H _]. by destruct (H Hpf).
  - rewrite IH. assert (¬ protects p file) as Hpf by (intros H; apply Hm in H; done). tauto.
Qed.

Lemma partition_valid ps : Forall enforceable (partitionGlobs ps).1.
Proof. unfold partitionGlobs. apply Forall_forall. intros p. simpl. rewrite list_elem_of_filter. by intros [? _]. Qed.
Lemma partition_invalid ps : (partitionGlobs ps).2 = [] ↔ Forall enforceable ps.
Proof.
  unfold partitionGlobs. simpl. rewrite Forall_forall. split.
  - intros H p Hp. unfold enforceable. apply not_false_is_true. intros E.
    assert (p ∈ filter (λ p, forallb validSegment (splitSlash p) = false) ps) as Hin by (by apply list_elem_of_filter).
    rewrite H in Hin. by apply not_elem_of_nil in Hin.
  - intros H. destruct (filter _ ps) as [|p l] eqn:E; [done|].
    assert (p ∈ filter (λ p, forallb validSegment (splitSlash p) = false) ps) as [Hf Hin]%list_elem_of_filter by (rewrite E; left).
    specialize (H p Hin). unfold enforceable in H. congruence.
Qed.

Lemma omap_nil {A B} (f : A → option B) l : omap f l = [] ↔ Forall (λ x, f x = None) l.
Proof.
  induction l as [|x l IH]; simpl; [by split|]. rewrite Forall_cons. destruct (f x) eqn:E; [split; [done|by intros []]|].
  rewrite IH. tauto.
Qed.

(** What the check asks of a change. *)
Definition respects (protectedPaths changed : list string) : Prop :=
  Forall enforceable protectedPaths ∧
  ∀ file p, file ∈ changed → p ∈ protectedPaths → protects p file → excused file.

Lemma problems_nil protectedPaths changed (f : string → string) :
  (f <$> (partitionGlobs protectedPaths).2) ++
    omap (λ file, hitOf isPrint git dir baseRef headRef file (partitionGlobs protectedPaths).1) changed = []
  ↔ respects protectedPaths changed.
Proof.
  rewrite app_nil_iff, omap_nil. unfold respects.
  assert (f <$> (partitionGlobs protectedPaths).2 = [] ↔ Forall enforceable protectedPaths) as ->.
  { rewrite <-partition_invalid. by destruct (partitionGlobs protectedPaths).2. }
  split; intros [Hall H]; (split; [done|]).
  - intros file p Hf Hp. rewrite Forall_forall in H. specialize (H file Hf). rewrite (hitOf_None _ _ (partition_valid protectedPaths)) in H.
    rewrite Forall_forall in H. apply H. rewrite Forall_forall in Hall. unfold partitionGlobs. simpl. apply list_elem_of_filter.
    split; [by apply Hall|done].
  - apply Forall_forall. intros file Hf. apply (hitOf_None _ _ (partition_valid protectedPaths)). apply Forall_forall.
    intros p Hp. apply list_elem_of_filter in Hp as [_ Hp]. by apply H.
Qed.

Lemma check_status protectedPaths changed :
  protectedPaths ≠ [] → ChangedFiles git dir baseRef headRef = inl changed →
  let v := CheckProtectedPaths isPrint git dir baseRef headRef protectedPaths in
  vr_Name v = "check-protected-paths" ∧
  (vr_Status v = StatusPass ∧ respects protectedPaths changed ∨ vr_Status v = StatusFail ∧ ¬ respects protectedPaths changed).
Proof.
  intros Hne Hch v. unfold v, CheckProtectedPaths. rewrite bool_decide_eq_false_2 by done. rewrite Hch.
  pose proof (problems_nil protectedPaths changed) as Hnil. destruct (partitionGlobs protectedPaths) as [valid invalid]. simpl in Hnil.
  case_bool_decide as Hp; (split; [done|]); [left|right]; (split; [done|]); rewrite Hnil in Hp; done.
Qed.

(** When the changed files are known, the check passes exactly when every
    protected path is a valid pattern and every changed file that one of them
    protects has an edit its exception allows; otherwise it fails. *)
Theorem protected_paths_exact protectedPaths changed :
  protectedPaths ≠ [] → ChangedFiles git dir baseRef headRef = inl changed →
  let v := CheckProtectedPaths isPrint git dir baseRef headRef protectedPaths in
  vr_Status v = StatusPass ∧ respects protectedPaths changed ∨ vr_Status v = StatusFail ∧ ¬ respects protectedPaths changed.
Proof.
  intros Hne Hch. by apply check_status.
Qed.
End correctness.

(** ** The contract protects itself *)

Lemma load_adds_contract git yaml dir ref data c : gitShow git dir ref FileName = inl data → Unmarshal yaml data = inl c →
  ∃ ps, LoadProtectedPathsAtRef git yaml dir ref = inl ps ∧ FileName ∈ ps ∧ ∀ p, p ∈ ct_ProtectedPaths c → p ∈ ps.
Proof.
  intros Hs Hu. unfold LoadProtectedPathsAtRef. rewrite Hs, Hu.
  destruct (existsb _ (ct_ProtectedPaths c)) eqn:E.
  - apply existsb_elem in E as (p & Hp & ->%String.eqb_eq). eauto.
  - eexists. split; [done|]. setoid_rewrite elem_of_app. rewrite list_elem_of_singleton. auto.
Qed.

Lemma contract_protected : protects FileName FileName.
Proof.
  assert (forallb validSegment (splitSlash FileName) = true) as H by (by vm_compute).
  destruct (matchPathSegments_spec _ (splitSlash FileName) H) as (b & Hb & Hm). apply Hm.
  assert (matchPathSegments (splitSlash FileName) (splitSlash FileName) = Ok true) as E by (by vm_compute). congruence.
Qed.

(** A change cannot disarm the policy it is reviewed under: with the
    protected paths of the contract as of the base, the review of a change that
    touches the contract file has a failing result, whatever the contract at the
    head says. *)
Theorem contract_edit_fails isPrint git yaml env dir baseRef headRef tools allowNetwork data c ps changed results :
  gitShow git dir baseRef FileName = inl data → Unmarshal yaml data = inl c →
  LoadProtectedPathsAtRef git yaml dir baseRef = inl ps →
  ChangedFiles git dir baseRef headRef = inl changed → FileName ∈ changed →
  Review isPrint git env dir baseRef headRef tools allowNetwork ps = Some results →
  ∃ v, v ∈ results ∧ vr_Name v = "check-protected-paths" ∧ vr_Status v = StatusFail.
Proof.
  intros Hs Hu Hl Hc Hin Hr. destruct (load_adds_contract _ _ _ _ _ _ Hs Hu) as (ps' & Hl' & Hself & _).
  rewrite Hl in Hl'. injection Hl' as <-. unfold Review in Hr. destruct (ScanSecrets _ _ _ _) as [sec|]; [|done].
  apply (inj Some) in Hr as <-. eexists. split; [rewrite elem_of_app; right; right; left|].
  destruct (check_status isPrint git dir baseRef headRef ps changed) as [Hname H]; [by intros ->; apply not_elem_of_nil in Hself|done|].
  split; [done|]. destruct H as [[_ [_ H]]|[H _]]; [|done].
  specialize (H FileName FileName Hin Hself contract_protected) as [[H _]|[H _]]; by vm_compute in H.
Qed.

(** ** What the exceptions allow *)

(** A hunk whose line numbers fit an int. *)
Definition fits (h : diffHunk) : Prop :=
  (0 ≤ oldStart h ∧ 0 ≤ oldCount h ∧ oldStart h + oldCount h ≤ maxInt ∧
   0 ≤ newStart h ∧ 0 ≤ newCount h ∧ newStart h + newCount h ≤ maxInt)%Z.
Definition oldLine (h : diffHunk) (n : Z) : Prop := (oldStart h ≤ n < oldStart h + oldCount h)%Z.
Definition newLine (h : diffHunk) (n : Z) : Prop := (newStart h ≤ n < newStart h + newCount h)%Z.
Definition inRange (r : Z * Z) (n : Z) : Prop := (r.1 ≤ n ≤ r.2)%Z.

Lemma rangeWithin_spec start count r : (0 ≤ start)%Z → (0 ≤ count)%Z → (start + count ≤ maxInt)%Z →
  rangeWithin start count r = true → ∀ n, (start ≤ n < start + count)%Z → r ≠ (0, 0)%Z ∧ inRange r n.
Proof.
  intros H1 H2 H3. unfold rangeWithin, inRange. destruct (Z.eqb_spec count 0) as [->|Hc]; [intros _ n; lia|].
  case_bool_decide as Hr; [done|]. rewrite wrap64_id by lia. intros [?%Z.leb_le ?%Z.leb_le]%andb_true_iff n Hn. split; [done|lia].
Qed.
Lemma rangeIntersectsAny_spec start count rs : (0 ≤ start)%Z → (0 ≤ count)%Z → (start + count ≤ maxInt)%Z →
  rangeIntersectsAny start count rs = false → ∀ n, (start ≤ n < start + count)%Z → Forall (λ r, ¬ inRange r n) rs.
Proof.
  intros H1 H2 H3. unfold rangeIntersectsAny, inRange. destruct (Z.eqb_spec count 0) as [->|Hc]; [intros _ n; lia|].
  rewrite wrap64_id by lia. intros H n Hn. apply Forall_forall. intros r Hr Hin.
  assert (existsb (λ r, (start <=? r.2) && (r.1 <=? start + count - 1))%Z rs = true); [|congruence].
  apply existsb_elem. exists r. split; [done|]. apply andb_true_iff. rewrite !Z.leb_le. lia.
Qed.

Lemma fileException_inv git dir baseRef headRef file safe :
  fileExceptionApplies git dir baseRef headRef file safe = true →
  ∃ base head diff, gitShow git dir baseRef file = inl base ∧ gitShow git dir headRef file = inl head ∧
    singleFileDiff git dir baseRef headRef file = inl diff ∧ Forall (λ h, safe h base head = true) (parseHunks diff).
Proof.
  unfold fileExceptionApplies. intros H. repeat case_match; try done. rewrite forallb_forall in H.
  eexists _, _, _. split_and!; try done. apply Forall_forall. intros h Hh. apply H. by apply list_elem_of_In.
Qed.

(** The exceptions are as narrow as the policy says.  A change of
    CHANGELOG.md is excused only if every line it removes is in the Unreleased
    section of the old file and every line it adds in that of the new one; a
    change of go.mod only if no line it removes or adds is in a retract
    directive. *)
Theorem exceptions_confined git dir baseRef headRef base head diff file :
  gitShow git dir baseRef file = inl base → gitShow git dir headRef file = inl head →
  singleFileDiff git dir baseRef headRef file = inl diff → Forall fits (parseHunks diff) →
  excused git dir baseRef headRef file → ∀ h, h ∈ parseHunks diff →
  file = "CHANGELOG.md" ∧
    (∀ n, oldLine h n → unreleasedSectionRange base ≠ (0, 0)%Z ∧ inRange (unreleasedSectionRange base) n) ∧
    (∀ n, newLine h n → unreleasedSectionRange head ≠ (0, 0)%Z ∧ inRange (unreleasedSectionRange head) n) ∨
  file = "go.mod" ∧
    (∀ n, oldLine h n → Forall (λ r, ¬ inRange r n) (retractLineRanges base)) ∧
    (∀ n, newLine h n → Forall (λ r, ¬ inRange r n) (retractLineRanges head)).
Proof.
  intros Hb Hh Hd Hfit Hex h Hin. rewrite Forall_forall in Hfit. destruct (Hfit h Hin) as (? & ? & ? & ? & ? & ?).
  destruct Hex as [[-> (b & hd & d & Hb' & Hh' & Hd' & Hall)%fileException_inv]|[-> (b & hd & d & Hb' & Hh' & Hd' & Hall)%fileException_inv]];
    [left|right]; (split; [done|]); rewrite Hb in Hb'; rewrite Hh in Hh'; rewrite Hd in Hd'; simplify_eq;
    rewrite Forall_forall in Hall; apply Hall in Hin; apply andb_true_iff in Hin as [Ho Hn].
  - split; intros n Hl; [by apply (rangeWithin_spec (oldStart h) (oldCount h))|by apply (rangeWithin_spec (newStart h) (newCount h))].
  - apply negb_true_iff in Ho, Hn.
    split; intros n Hl; [by apply (rangeIntersectsAny_spec (oldStart h) (oldCount h))|by apply (rangeIntersectsAny_spec (newStart h) (newCount h))].
Qed.

(** * Examples *)

Definition demo_contract : Contract :=
  mkContract "1.0.0" [mkProject "m" "." "" "" []] (mkInstructions [] "") [] [] (mkVerificationDecl [] []) ["docs/**"] [] [] [] [] "".
Definition demo_yaml (_ : string) : Contract + error := inl demo_contract.

(** A repository in which the files [names] changed. *)
Definition answers (table : list (list string * string)) : Git := λ args,
  match list_find (λ e, e.1 = args) table with
  | Some (_, (_, out)) => inl out
  | None => inr (New "exit status 128", "fatal: bad revision")
  end.
Definition demo_changes (names : list string) : list (list string * string) :=
  [(["diff"; "--name-only"; "--no-color"; "main...HEAD"], JoinWith nlString names +:+ nlString);
   (["diff"; "--unified=0"; "--no-color"; "main...HEAD"], "");
   (["show"; "main:modulex.agent.yaml"], "protected_paths: [docs/**]")].
Definition allPrint (_ : N) : bool := true.

Lemma protected_paths_exact_witness :
  vr_Status (CheckProtectedPaths allPrint (answers (demo_changes ["x.go"; "docs/a/b.md"])) "" "main" "HEAD" ["docs/**"]) = StatusFail.
Proof.
  destruct (protected_paths_exact allPrint (answers (demo_changes ["x.go"; "docs/a/b.md"])) "" "main" "HEAD" ["docs/**"]
    ["x.go"; "docs/a/b.md"]) as [[_ [_ H]]|[H _]]; [discriminate|vm_compute; reflexivity| |exact H].
  exfalso. destruct (H "docs/a/b.md" "docs/**") as [[E _]|[E _]]; [right; left|left| |discriminate E|discriminate E].
  apply (PM_segment "docs" ["**"] "docs" ["a"; "b.md"]); [discriminate|vm_compute; reflexivity|]. apply (PM_any [] ["a"; "b.md"] []), PM_nil.
Defined.

Lemma contract_edit_fails_witness :
  ∃ results v, Review allPrint (answers (demo_changes [FileName])) demo_env "" "main" "HEAD" [] false ["docs/**"; FileName] = Some results ∧
    v ∈ results ∧ vr_Status v = StatusFail.
Proof.
  eexists. destruct (contract_edit_fails allPrint (answers (demo_changes [FileName])) demo_yaml demo_env "" "main" "HEAD" [] false
    "protected_paths: [docs/**]" demo_contract ["docs/**"; FileName] [FileName]
    (default [] (Review allPrint (answers (demo_changes [FileName])) demo_env "" "main" "HEAD" [] false ["docs/**"; FileName])))
    as (v & Hin & _ & Hs); [vm_compute; reflexivity..|left|vm_compute; reflexivity|].
  exists v. split; [|split; [exact Hin|exact Hs]]. vm_compute. reflexivity.
Defined.

Definition demo_changelog : list (list string * string) :=
  [(["show"; "main:CHANGELOG.md"], JoinWith nlString ["# Log"; "## [Unreleased]"; "- a"; "## [1.0.0]"; "- b"; ""]);
   (["show"; "HEAD:CHANGELOG.md"], JoinWith nlString ["# Log"; "## [Unreleased]"; "- a"; "- new"; "## [1.0.0]"; "- b"; ""]);
   (["diff"; "--unified=0"; "--no-color"; "main...HEAD"; "--"; "CHANGELOG.md"],
     JoinWith nlString ["+++ b/CHANGELOG.md"; "@@ -3,0 +4 @@"; "+- new"; ""])].
Lemma demo_hunks : parseHunks (JoinWith nlString ["+++ b/CHANGELOG.md"; "@@ -3,0 +4 @@"; "+- new"; ""]) = [mkHunk 3 0 4 1].
Proof. vm_compute. reflexivity. Qed.
Lemma demo_range :
  unreleasedSectionRange (JoinWith nlString ["# Log"; "## [Unreleased]"; "- a"; "- new"; "## [1.0.0]"; "- b"; ""]) = (2, 4)%Z.
Proof. vm_compute. reflexivity. Qed.
Lemma exceptions_confined_witness :
  excused (answers demo_changelog) "" "main" "HEAD" "CHANGELOG.md" ∧ inRange (2, 4)%Z 4.
Proof.
  assert (excused (answers demo_changelog) "" "main" "HEAD" "CHANGELOG.md") as Hex by (left; split; [reflexivity|vm_compute; reflexivity]).
  split; [exact Hex|].
  destruct (exceptions_confined (answers demo_changelog) "" "main" "HEAD"
    (JoinWith nlString ["# Log"; "## [Unreleased]"; "- a"; "## [1.0.0]"; "- b"; ""])
    (JoinWith nlString ["# Log"; "## [Unreleased]"; "- a"; "- new"; "## [1.0.0]"; "- b"; ""])
    (JoinWith nlString ["+++ b/CHANGELOG.md"; "@@ -3,0 +4 @@"; "+- new"; ""]) "CHANGELOG.md") with (h := mkHunk 3 0 4 1)
    as [(_ & _ & H)|[H _]]; [vm_compute; reflexivity..| |exact Hex|vm_compute; left| |discriminate H].
  - rewrite demo_hunks. repeat constructor; discriminate.
  - rewrite demo_range in H. apply (H 4%Z). split; [discriminate|reflexivity].
Defined.

(** By default git quotes a name with bytes outside ASCII in the listing of
    changed files, and the quoted name matches no pattern: such a file under a
    protected path can be changed without a hit. *)
Theorem quoted_name_evades :
  let name := "docs/" +:+ String (ascii_of_N 195) (String (ascii_of_N 169) ".md") in
  let listed := dq +:+ "docs/\303\251.md" +:+ dq in
  matchProtectedPath "docs/**" name = Ok true ∧
  ChangedFiles (answers (demo_changes [listed])) "" "main" "HEAD" = inl [listed] ∧
  vr_Status (CheckProtectedPaths allPrint (answers (demo_changes [listed])) "" "main" "HEAD" ["docs/**"]) = StatusPass.
Proof. vm_compute. repeat split. Qed.
