(* ===== verification/Discovery.v ===== *)
(** Repository discovery (src/discovery/discovery.go).

    Discovery only reads: the repository is a tree of entries, as it is while
    [Discover] runs.  A symbolic link carries what it finally leads to, if
    anything; [os.ReadDir] and [filepath.WalkDir] do not follow links, while
    [os.Stat] and [os.ReadFile] do.  Entries of a directory are in the order of
    [os.ReadDir], by name.  Parameters: the Go parser, the search path for
    binaries, and [git status]. *)

From Stdlib Require Import Ascii.
From stdpp Require Import base gmap list strings sorting.
From S2P Require Import Prelude Paths Regex GoStrings VerifyPlan.

(** * The tree *)

#[local] Unset Elimination Schemes.
Inductive Entry :=
  | EFile (content : string + error)                                   (* its content, or why it cannot be read *)
  | EDir (readErr : option error) (entries : list (string * Entry))
  | ELink (target : option Entry).
#[local] Set Elimination Schemes.

Definition ErrNotExist : error := Const "file does not exist".
Definition IsNotExist (err : error) : bool := error_is "file does not exist" err.
Definition isDir (e : Entry) : bool := match e with EDir _ _ => true | _ => false end.
(** What a path to an entry leads to. *)
Definition follow (e : Entry) : option Entry := match e with ELink target => target | e => Some e end.
Fixpoint child (es : list (string * Entry)) (name : string) : option Entry :=
  match es with [] => None | (n, e) :: es => if String.eqb n name then Some e else child es name end.
(** [os.Stat], [os.ReadFile] and [os.ReadDir] of an entry of a directory. *)
Definition statIn (es : list (string * Entry)) (name : string) : Entry + error :=
  match child es name ≫= follow with Some e => inl e | None => inr ErrNotExist end.
Definition readFileIn (es : list (string * Entry)) (name : string) : string + error :=
  match statIn es name with
  | inl (EFile content) => content
  | inl _ => inr (Const "is a directory")
  | inr err => inr err
  end.
Definition readDirOf (e : Entry) : list (string * Entry) + error :=
  match e with
  | EDir None es => inl es
  | EDir (Some err) _ => inr err
  | _ => inr (Const "not a directory")
  end.
Definition readDirIn (es : list (string * Entry)) (name : string) : list (string * Entry) + error :=
  match statIn es name with inl e => readDirOf e | inr err => inr err end.
(** The names in a directory; nothing when it is not one. *)
Definition entriesOf (e : Entry) : list (string * Entry) := match e with EDir _ es => es | _ => [] end.

(** [filepath.Base] of a clean absolute path. *)
Definition Base (s : string) : string := default "/" (last (elems s)).
(** The absolute path of a place below the root, and its path relative to it. *)
Definition pathOf (root : string) (p : list string) : string := foldl Join root p.
Definition relOf (p : list string) : string := match p with [] => "." | _ => joinSlash p end.

(** What a function finds in the entries of a directory, in order, up to the
    first error. *)
Definition collect {A} (f : string → Entry → list A + error) : list (string * Entry) → list A + error :=
  fix go es :=
    match es with
    | [] => inl []
    | (name, e) :: es =>
      match f name e with
      | inr err => inr err
      | inl l => match go es with inr err => inr err | inl ls => inl (l ++ ls) end
      end
    end.

(** [sort.Slice] by a key; the keys are distinct, so that the order is
    determined. *)
Definition keyLe {A} (key : A → string) (x y : A) : Prop := String.le (key x) (key y).
#[export] Instance keyLe_dec {A} (key : A → string) x y : Decision (keyLe key x y) := decide (String.le _ _).
Definition sortBy {A} (key : A → string) (l : list A) : list A := merge_sort (keyLe key) l.

(** * Modules *)

Record GoModule := mkGoModule { gm_Path : string; gm_ModulePath : string }.

Definition shouldSkipDir (name : string) : bool :=
  if String.eqb name "vendor" || String.eqb name "node_modules" then true
  else if String.eqb name ".github" then false
  else HasPrefix name ".".

Definition moduleDirectiveRe : regex := Eval vm_compute in MustCompile "^\s*module\s+(\S+)".
(** [strings.Trim] with the cutset of the two quotes. *)
Definition isQuote (a : ascii) : bool := Ascii.eqb a (ascii_of_nat 34) || Ascii.eqb a (ascii_of_nat 96).
Fixpoint dropQuotes (l : list ascii) : list ascii := match l with a :: l' => if isQuote a then dropQuotes l' else l | [] => [] end.
Definition TrimQuotes (s : string) : string :=
  String.string_of_list_ascii (reverse (dropQuotes (reverse (dropQuotes (String.list_ascii_of_string s))))).
Fixpoint moduleLine (lines : list string) : string :=
  match lines with
  | [] => ""
  | line :: lines => match FindStringSubmatch moduleDirectiveRe line with Some m => TrimQuotes (m 1) | None => moduleLine lines end
  end.
(** [None]: there is no go.mod. *)
Definition readModulePath (goModPath : string) (es : list (string * Entry)) : option string + error :=
  match readFileIn es "go.mod" with
  | inr err => if IsNotExist err then inl None else inr (Errorf "reading %s: %w" [goModPath] [err])
  | inl data => inl (Some (moduleLine (Lines data)))
  end.

Section walk.
Variable root : string.

(** [p] is the place of the directory. *)
Fixpoint walkForModules (p : list string) (e : Entry) : list GoModule + error :=
  match e with
  | EDir readErr es =>
    match readModulePath (Join (pathOf root p) "go.mod") es with
    | inr err => inr err
    | inl (Some modulePath) => inl [mkGoModule (relOf p) modulePath]
    | inl None =>
      match readErr with
      | Some err => inr (Errorf "reading %s: %w" [pathOf root p] [err])
      | None => collect (λ name e, if negb (isDir e) || shouldSkipDir name then inl [] else walkForModules (p ++ [name]) e) es
      end
    end
  | _ => inl []
  end.
Definition discoverModules (e : Entry) : list GoModule + error :=
  match readModulePath (Join root "go.mod") (entriesOf e) with
  | inr err => inr err
  | inl rootMod =>
    match readDirOf e with
    | inr err => inr (Errorf "reading %s: %w" [root] [err])
    | inl entries =>
      match collect (λ name e, if negb (isDir e) || shouldSkipDir name then inl [] else walkForModules [name] e) entries with
      | inr err => inr err
      | inl mods => inl (sortBy gm_Path (match rootMod with Some mp => [mkGoModule "." mp] | None => [] end ++ mods))
      end
    end
  end.
End walk.

(** * Walks of the tree *)

(** [filepath.WalkDir] with a callback that skips the directories discovery
    skips and fails on errors: the places it acts on, in order.  [top]: the
    place is the root. *)
Fixpoint walkDir (top : bool) (p : list string) (name : string) (e : Entry) : list (list string * Entry) + error :=
  match e with
  | EDir readErr es =>
    if negb top && shouldSkipDir name then inl []
    else
      match readErr with
      | Some err => inr err
      | None =>
        match collect (λ n e', walkDir false (p ++ [n]) n e') es with
        | inr err => inr err
        | inl l => inl ((p, e) :: l)
        end
      end
  | _ => inl [(p, e)]
  end.
(** A root that is a symbolic link is not a directory for [filepath.WalkDir]. *)
Definition WalkDir (isLink : bool) (e : Entry) : list (list string * Entry) + error :=
  if isLink then inl [([], ELink (Some e))] else walkDir true [] "" e.

(** ** Instruction files *)

Record InstructionFile := mkInstructionFile { if_Path : string; if_Name : string }.
Definition wellKnownInstructionNames : list string := ["AGENTS.md"; "CLAUDE.md"; ".cursorrules"; "copilot-instructions.md"].
(** [rootName] is the base name of the root. *)
Definition discoverInstructionFiles (rootName : string) (isLink : bool) (e : Entry) : list InstructionFile + error :=
  match WalkDir isLink e with
  | inr err => inr (Errorf "walking for instruction files: %w" [] [err])
  | inl places => inl (sortBy if_Path (omap (λ pe : list string * Entry,
      let name := default rootName (last pe.1) in
      if isDir pe.2 then None
      else if bool_decide (name ∈ wellKnownInstructionNames) then Some (mkInstructionFile (relOf pe.1) name) else None) places))
  end.

(** ** Composition roots *)

Record CompositionRoot := mkCompositionRoot { cr_Path : string; cr_Reason : string }.
(** A parsed Go file: its package, and its declarations. *)
Inductive Decl := FuncDecl (hasRecv : bool) (name : string) | OtherDecl.
Record GoFile := mkGoFile { gf_Name : string; gf_Decls : list Decl }.

Section roots.
(** [parser.ParseFile] of a file's content; [None] when it does not parse. *)
Variable ParseFile : string → option GoFile.

Definition declaresMain (f : GoFile) : bool :=
  String.eqb (gf_Name f) "main" &&
  existsb (λ d, match d with FuncDecl hasRecv name => negb hasRecv && String.eqb name "main" | OtherDecl => false end) (gf_Decls f).
Definition dirHasMainFunc (e : Entry) : bool + error :=
  match readDirOf e with
  | inr err => inr err
  | inl es => inl (existsb (λ ne : string * Entry,
      negb (isDir ne.2) && HasSuffix ne.1 ".go" && negb (HasSuffix ne.1 "_test.go") &&
      match readFileIn es ne.1 with
      | inl content => match ParseFile content with Some f => declaresMain f | None => false end
      | inr _ => false
      end) es)
  end.
Definition mainReason : string := "contains a func main() declaration".
Definition examplesReason : string := "direct child directory of examples/".
(** The composition root of a directory, and the places recorded. *)
Definition mainCompositionRoot (p : list string) (e : Entry) (seen : gset string) : option CompositionRoot * gset string :=
  match dirHasMainFunc e with
  | inl true =>
    if decide (relOf p ∈ seen) then (None, seen) else (Some (mkCompositionRoot (relOf p) mainReason), {[ relOf p ]} ∪ seen)
  | _ => (None, seen)
  end.
Definition examplesCompositionRoots (root : string) (e : Entry) : (list CompositionRoot * gset string) + error :=
  match statIn (entriesOf e) "examples" with
  | inr err => if IsNotExist err then inl ([], ∅) else inr (Errorf "stat %s: %w" [Join root "examples"] [err])
  | inl ex =>
    if negb (isDir ex) then inl ([], ∅)
    else
      match readDirOf ex with
      | inr err => inr (Errorf "reading %s: %w" [Join root "examples"] [err])
      | inl es =>
        let rels := (λ ne : string * Entry, Join "examples" ne.1) <$> filter (λ ne, isDir ne.2 = true) es in
        inl ((λ rel, mkCompositionRoot rel examplesReason) <$> rels, list_to_set rels)
      end
  end.
Definition addRoot (s : list CompositionRoot * gset string) (pe : list string * Entry) : list CompositionRoot * gset string :=
  if negb (isDir pe.2) then s
  else
    let r := mainCompositionRoot pe.1 pe.2 s.2 in
    (s.1 ++ match r.1 with Some cr => [cr] | None => [] end, r.2).
Definition discoverCompositionRoots (root : string) (isLink : bool) (e : Entry) : list CompositionRoot + error :=
  match examplesCompositionRoots root e with
  | inr err => inr err
  | inl s =>
    match WalkDir isLink e with
    | inr err => inr (Errorf "walking for composition roots: %w" [] [err])
    | inl places => inl (sortBy cr_Path (foldl addRoot s places).1)
    end
  end.
End roots.

(** * Make targets, workflows, indexes, tools *)

Definition makeTargetRe : regex := Eval vm_compute in MustCompile "^([A-Za-z0-9_-]+):".
(** [strings.TrimRight(line, "\r")]. *)
Definition carriageReturn : ascii := ascii_of_nat 13.
Fixpoint dropCR (l : list ascii) : list ascii := match l with a :: l' => if Ascii.eqb a carriageReturn then dropCR l' else l | [] => [] end.
Definition TrimRightCR (s : string) : string := String.string_of_list_ascii (reverse (dropCR (reverse (String.list_ascii_of_string s)))).
Definition tab : string := String (ascii_of_nat 9) "".
(** The targets a line declares. *)
Definition lineTargets (line : string) : list string :=
  let line := TrimRightCR line in
  if HasPrefix line tab then []
  else if HasPrefix line "#" then []
  else if Contains line ":=" then []
  else if HasPrefix line ".PHONY:" then Fields (TrimPrefix line ".PHONY:")
  else match FindStringSubmatch makeTargetRe line with Some m => [m 1] | None => [] end.
Definition discoverMakeTargets (es : list (string * Entry)) : list string + error :=
  match readFileIn es "Makefile" with
  | inr err => if IsNotExist err then inl [] else inr (Errorf "reading Makefile: %w" [] [err])
  | inl data => inl (sort_Strings (elements (list_to_set (Lines data ≫= lineTargets) : gset string)))
  end.

Definition discoverCIWorkflows (root : string) (es : list (string * Entry)) : list string + error :=
  match (match statIn es ".github" with inr err => inr err | inl (EDir _ gh) => readDirIn gh "workflows" | inl _ => inr (Const "not a directory") end) with
  | inr err => if IsNotExist err then inl [] else inr (Errorf "reading %s: %w" [Join (Join root ".github") "workflows"] [err])
  | inl entries =>
    inl (sort_Strings (omap (λ ne : string * Entry,
      if isDir ne.2 then None else if HasSuffix ne.1 ".yml" || HasSuffix ne.1 ".yaml" then Some ne.1 else None) entries))
  end.

Record IndexStatus := mkIndexStatus { is_Name : string; is_Present : bool }.
Definition defaultIndexNames : list string := [".codegraph"; ".git"; ".tokensave"].
Definition discoverIndexes (es : list (string * Entry)) (names : list string) : list IndexStatus :=
  sortBy is_Name ((λ name, mkIndexStatus name (match statIn es name with inl e => isDir e | inr _ => false end)) <$> names).

Definition defaultToolNames : list string := ["go"; "git"; "golangci-lint"; "gofmt"; "docker"].
Section path.
(** [exec.LookPath], with the path it resolves even when it fails, and the
    output of [git -C root status --porcelain]. *)
Variable LookPath : string → string * option error.
Variable gitStatus : string → string → string + error.

Definition discoverTools (names : list string) : list ToolStatus :=
  sortBy to_Name ((λ name, mkTool name (bool_decide ((LookPath name).2 = None)) (LookPath name).1) <$> names).
Definition discoverGitStatus (root : string) (es : list (string * Entry)) : bool * bool :=
  match statIn es ".git" with
  | inr _ => (false, false)
  | inl _ =>
    match LookPath "git" with
    | (_, Some _) => (true, false)
    | (gitPath, None) =>
      match gitStatus gitPath root with
      | inr _ => (true, false)
      | inl out => (true, 0 <? String.length (TrimSpace out))
      end
    end
  end.

(** * Discover *)

Record Repository := mkRepository {
  re_Root : string; re_IsGitRepo : bool; re_Dirty : bool; re_Modules : list GoModule; re_CompositionRoots : list CompositionRoot;
  re_InstructionFiles : list InstructionFile; re_MakeTargets : list string; re_CIWorkflows : list string;
  re_Indexes : list IndexStatus; re_Tools : list ToolStatus }.
Definition wrapErr {A} (msg : string) (r : A + error) : A + error :=
  match r with inl a => inl a | inr err => inr (Errorf msg [] [err]) end.
Notation "'try' x ':=' r 'in' k" := (match r with inr err => inr err | inl x => k end)
  (at level 10, x name, r at level 100, k at level 200).
(** [absRoot] is what [filepath.Abs] makes of [root], [info] what [os.Stat] finds
    there, and [isLink] whether it is a symbolic link. *)
Definition Discover (ParseFile : string → option GoFile) (root : string) (absRoot : string + error) (info : Entry + error) (isLink : bool) :
    Repository + error :=
  match absRoot with
  | inr err => inr (Errorf "discovery: resolving root %q: %w" [root] [err])
  | inl absRoot =>
    match info with
    | inr err => inr (Errorf "discovery: root %q: %w" [root] [err])
    | inl e =>
      if negb (isDir e) then inr (Errorf "discovery: root %q is not a directory" [root] [])
      else
        try modules := wrapErr "discovery: scanning for go modules: %w" (discoverModules absRoot e) in
        try compositionRoots := wrapErr "discovery: scanning for composition roots: %w" (discoverCompositionRoots ParseFile absRoot isLink e) in
        try instructionFiles := wrapErr "discovery: scanning for instruction files: %w" (discoverInstructionFiles (Base absRoot) isLink e) in
        try makeTargets := wrapErr "discovery: parsing Makefile: %w" (discoverMakeTargets (entriesOf e)) in
        try ciWorkflows := wrapErr "discovery: scanning for CI workflows: %w" (discoverCIWorkflows absRoot (entriesOf e)) in
        let git := discoverGitStatus absRoot (entriesOf e) in
        inl (mkRepository absRoot git.1 git.2 modules compositionRoots instructionFiles makeTargets ciWorkflows
               (discoverIndexes (entriesOf e) defaultIndexNames) (discoverTools defaultToolNames))
    end
  end.
End path.

(** * What is found *)

(** Induction over the directories. *)
Lemma entry_ind (P : Entry → Prop) :
  (∀ c, P (EFile c)) → (∀ r es, Forall (λ ne : string * Entry, P ne.2) es → P (EDir r es)) → (∀ t, P (ELink t)) → ∀ e, P e.
Proof.
  intros Hf Hd Hl. fix IH 1. intros [c|r es|t]; [apply Hf| |apply Hl]. apply Hd. induction es as [|[n e] es IHes]; constructor; [apply IH|exact IHes].
Qed.

(** The entry at a place, through directories. *)
Fixpoint entryAt (e : Entry) (p : list string) : option Entry :=
  match p with
  | [] => Some e
  | c :: p => match e with EDir _ es => match child es c with Some e' => entryAt e' p | None => None end | _ => None end
  end.
(** Names of a directory are distinct, and are names. *)
Definition wfEntry (e : Entry) : Prop := ∀ p r es, entryAt e p = Some (EDir r es) → NoDup es.*1 ∧ Forall normal es.*1.

Lemma child_elem es n e : NoDup es.*1 → (n, e) ∈ es ↔ child es n = Some e.
Proof.
  induction es as [|[n' e'] es IH]; simpl; intros Hd.
  - split; [by intros ?%not_elem_of_nil|done].
  - apply NoDup_cons in Hd as [Hn Hd]. rewrite elem_of_cons. destruct (String.eqb_spec n' n) as [->|Hne].
    + split; [|intros [= ->]; by left]. intros [[= ->]|Hin]; [done|]. exfalso. apply Hn. apply list_elem_of_fmap. by exists (n, e).
    + rewrite <-IH by done. split; [|by right]. by intros [[= -> ->]|?].
Qed.
Lemma wf_child r es n e : wfEntry (EDir r es) → (n, e) ∈ es → child es n = Some e ∧ wfEntry e ∧ normal n.
Proof.
  intros Hwf Hin. destruct (Hwf [] r es eq_refl) as [Hd Hn]. apply child_elem in Hin as Hc; [|done]. split; [done|]. split.
  - intros p r' es' Hp. apply (Hwf (n :: p) r'). simpl. by rewrite Hc.
  - eapply (Forall_forall normal (es.*1)); [exact Hn|]. apply list_elem_of_fmap. by exists (n, e).
Qed.

(** ** Collecting *)

Lemma collect_elem {A} (f : string → Entry → list A + error) es out : collect f es = inl out →
  ∀ x, x ∈ out ↔ ∃ n e l, (n, e) ∈ es ∧ f n e = inl l ∧ x ∈ l.
Proof.
  revert out. induction es as [|[n e] es IH]; simpl; intros out H x.
  - injection H as <-. split; [by intros ?%not_elem_of_nil|by intros (?&?&?&?%not_elem_of_nil&_)].
  - destruct (f n e) as [l|] eqn:E; [|done]. destruct (collect f es) as [ls|]; [|done]. injection H as <-. rewrite elem_of_app, (IH ls eq_refl). split.
    + intros [Hx|(n' & e' & l' & Hin & Hf & Hx)]; [exists n, e, l|exists n', e', l']; (split; [|split]); try done; [left|by right].
    + intros (n' & e' & l' & [[= -> ->]|?]%elem_of_cons & Hf & Hx); [rewrite E in Hf; injection Hf as <-; by left|]. right. by exists n', e', l'.
Qed.
Lemma collect_ok {A} (f : string → Entry → list A + error) es out : collect f es = inl out → ∀ n e, (n, e) ∈ es → ∃ l, f n e = inl l.
Proof.
  revert out. induction es as [|[n e] es IH]; simpl; intros out H n' e'; [by intros ?%not_elem_of_nil|].
  destruct (f n e) as [l|] eqn:E; [|done]. destruct (collect f es) as [ls|]; [|done]. intros [[= -> ->]|?]%elem_of_cons; eauto.
Qed.
(** No key is found twice when those found in different entries differ. *)
Lemma collect_NoDup {A K} (key : A → K) (owner : string → K → Prop) (f : string → Entry → list A + error) es out :
  collect f es = inl out → NoDup es.*1 → (∀ n n' k, owner n k → owner n' k → n = n') →
  (∀ n e l, (n, e) ∈ es → f n e = inl l → NoDup (key <$> l) ∧ Forall (λ x, owner n (key x)) l) → NoDup (key <$> out).
Proof.
  intros H Hd Ho. revert out H Hd. induction es as [|[n e] es IH]; simpl; intros out H Hd Hf.
  { injection H as <-. apply NoDup_nil_2. }
  destruct (f n e) as [l|] eqn:E; [|done]. destruct (collect f es) as [ls|] eqn:Ec; [|done]. injection H as <-. apply NoDup_cons in Hd as [Hn Hd].
  destruct (Hf n e l ltac:(left) E) as [Hl Hk]. rewrite fmap_app. apply NoDup_app. split; [done|]. split; [|apply IH; [done..|]; intros; eapply Hf; [right|]; done].
  intros k (x & -> & Hx)%list_elem_of_fmap (y & Ek & Hy)%list_elem_of_fmap. apply (collect_elem f es ls Ec) in Hy as (n' & e' & l' & Hin & Hf' & Hy).
  destruct (Hf n' e' l' ltac:(by right) Hf') as [_ Hk'].
  assert (n = n') as <-.
  { apply (Ho n n' (key x)); [by apply (Forall_forall (λ x, owner n (key x)) l)|]. rewrite Ek. by apply (Forall_forall (λ x, owner n' (key x)) l'). }
  apply Hn. apply list_elem_of_fmap. by exists (n, e').
Qed.

Lemma sortBy_elem {A} (key : A → string) l x : x ∈ sortBy key l ↔ x ∈ l.
Proof. unfold sortBy. by rewrite merge_sort_Permutation. Qed.
Lemma sortBy_sorted {A} (key : A → string) l : Sorted (keyLe key) (sortBy key l).
Proof. apply Sorted_merge_sort. intros x y. apply (total String.le). Qed.
Lemma sortBy_NoDup {A} (key : A → string) l : NoDup (key <$> l) → NoDup (key <$> sortBy key l).
Proof. unfold sortBy. by rewrite merge_sort_Permutation. Qed.

(** ** Modules *)

Definition goModIn (es : list (string * Entry)) (mp : string) : Prop := ∃ data, readFileIn es "go.mod" = inl data ∧ mp = moduleLine (Lines data).
Definition noGoMod (es : list (string * Entry)) : Prop := ∃ err, readFileIn es "go.mod" = inr err ∧ IsNotExist err = true.
(** A directory with a go.mod, reached through directories that are not skipped
    and of which none has a go.mod (but for the root, with [top]). *)
Definition moduleAt (top : bool) (e : Entry) (p : list string) (mp : string) : Prop := ∃ r es,
  entryAt e p = Some (EDir r es) ∧ goModIn es mp ∧ Forall (λ n, shouldSkipDir n = false) p ∧
  ∀ q q' r es, p = q ++ q' → (top = true → q ≠ []) → q' ≠ [] → entryAt e q = Some (EDir r es) → noGoMod es.

Lemma readModulePath_cases path es :
  match readModulePath path es with
  | inl (Some mp) => goModIn es mp ∧ ∀ mp', goModIn es mp' → mp' = mp
  | inl None => noGoMod es
  | inr _ => True
  end.
Proof.
  unfold readModulePath, goModIn, noGoMod. destruct (readFileIn es "go.mod") as [data|err] eqn:E.
  - split; [by exists data|]. intros mp' (d & [= <-] & ->). done.
  - destruct (IsNotExist err) eqn:Ei; [by exists err|done].
Qed.
Lemma goMod_none es mp : goModIn es mp → noGoMod es → False.
Proof. intros (d & E & _) (err & E' & _). by rewrite E in E'. Qed.

Lemma entryAt_isDir e p r es : entryAt e p = Some (EDir r es) → isDir e = true.
Proof. destruct p as [|c p]; simpl; [by intros [= ->]|]. by destruct e. Qed.

(** A module below a directory is one of an entry of it. *)
Lemma moduleAt_cons top r es n p mp : (top = true ∨ noGoMod es) →
  moduleAt top (EDir r es) (n :: p) mp ↔ ∃ e, child es n = Some e ∧ isDir e = true ∧ shouldSkipDir n = false ∧ moduleAt false e p mp.
Proof.
  intros Htop. split.
  - intros (r' & es' & He & Hg & [Hs Hp]%Forall_cons & Hno). simpl in He. destruct (child es n) as [e|] eqn:Ec; [|done]. exists e.
    split; [done|]. split; [by eapply entryAt_isDir|]. split; [done|]. exists r', es'. split; [done|]. split; [done|]. split; [done|].
    intros q q' r2 es2 -> _ Hq' Hq. apply (Hno (n :: q) q' r2 es2); [done|done|done|]. simpl. by rewrite Ec.
  - intros (e & Ec & Hd & Hs & r' & es' & He & Hg & Hp & Hno). exists r', es'. simpl. rewrite Ec. split; [done|]. split; [done|].
    split; [by constructor|]. intros [|n' q] q' r2 es2 Hq Ht Hq' Hat.
    + simpl in Hat. injection Hat as -> ->. destruct Htop as [->|?]; [by specialize (Ht eq_refl)|done].
    + injection Hq as -> ->. simpl in Hat. rewrite Ec in Hat. by apply (Hno q q' r2 es2).
Qed.
Lemma moduleAt_nil top r es mp : moduleAt top (EDir r es) [] mp ↔ goModIn es mp.
Proof.
  split; [by intros (r' & es' & [= <- <-] & ? & _)|]. intros Hg. exists r, es. split; [done|]. split; [done|]. split; [done|].
  intros q q' ? ? Hq _ Hq' _. symmetry in Hq. by apply app_eq_nil in Hq as [_ ?].
Qed.

(** What the entries of a directory contribute. *)
Lemma collect_modules root top p r es ms : wfEntry (EDir r es) → (top = true ∨ noGoMod es) →
  Forall (λ ne : string * Entry, ∀ p ms, wfEntry ne.2 → isDir ne.2 = true → walkForModules root p ne.2 = inl ms →
    ∀ x, x ∈ ms ↔ ∃ q mp, x = mkGoModule (relOf (p ++ q)) mp ∧ moduleAt false ne.2 q mp) es →
  collect (λ name e, if negb (isDir e) || shouldSkipDir name then inl [] else walkForModules root (p ++ [name]) e) es = inl ms →
  ∀ x, x ∈ ms ↔ ∃ n q mp, x = mkGoModule (relOf (p ++ n :: q)) mp ∧ moduleAt top (EDir r es) (n :: q) mp.
Proof.
  intros Hwf Htop IH Hc x. rewrite (collect_elem _ _ _ Hc). pose proof (collect_ok _ _ _ Hc) as Hok. split.
  - intros (n & e & l & Hin & Hf & Hx). destruct (wf_child _ _ _ _ Hwf Hin) as (Ec & Hwe & _). destruct (isDir e) eqn:Ed; simpl in Hf; [|simplify_eq; by apply not_elem_of_nil in Hx].
    destruct (shouldSkipDir n) eqn:Es; [simplify_eq; by apply not_elem_of_nil in Hx|].
    apply (proj1 (Forall_forall _ _) IH (n, e) Hin _ _ Hwe Ed Hf) in Hx as (q & mp & -> & Hm). exists n, q, mp.
    rewrite <-app_assoc. split; [done|]. apply moduleAt_cons; [done|]. by exists e.
  - intros (n & q & mp & -> & (e & Ec & Hd & Hs & Hm)%moduleAt_cons); [|done]. destruct (Hwf [] r es eq_refl) as [Hnd _].
    apply child_elem in Ec as Hin; [|done]. destruct (Hok n e Hin) as [l Hl]. exists n, e, l. split; [done|]. split; [done|].
    rewrite Hd, Hs in Hl. simpl in Hl. destruct (wf_child _ _ _ _ Hwf Hin) as (_ & Hwe & _).
    apply (proj1 (Forall_forall _ _) IH (n, e) Hin _ _ Hwe Hd Hl). exists q, mp. by rewrite <-app_assoc.
Qed.

Lemma walkForModules_spec root e : ∀ p ms, wfEntry e → isDir e = true → walkForModules root p e = inl ms →
  ∀ x, x ∈ ms ↔ ∃ q mp, x = mkGoModule (relOf (p ++ q)) mp ∧ moduleAt false e q mp.
Proof.
  induction e as [c|r es IH|t] using entry_ind; [done| |done]. intros p ms Hwf _ Hw x. simpl in Hw.
  pose proof (readModulePath_cases (Join (pathOf root p) "go.mod") es) as Hr. destruct (readModulePath _ _) as [[mp|]|err]; [| |done].
  - destruct Hr as [Hg Hu]. injection Hw as <-. rewrite list_elem_of_singleton. split.
    + intros ->. exists [], mp. rewrite app_nil_r. split; [done|]. by apply moduleAt_nil.
    + intros (q & mp' & -> & Hm). destruct q as [|n q]; [apply moduleAt_nil, Hu in Hm as ->; by rewrite app_nil_r|].
      destruct Hm as (r' & es' & _ & _ & _ & Hno). exfalso. apply (goMod_none es mp Hg). by apply (Hno [] (n :: q) r es).
  - destruct r as [err|]; [done|]. rewrite (collect_modules root false p None es ms Hwf (or_intror Hr) IH Hw). split.
    + intros (n & q & mp & -> & Hm). by exists (n :: q), mp.
    + intros ([|n q] & mp & -> & Hm); [|by exists n, q, mp]. apply moduleAt_nil in Hm. exfalso. by eapply goMod_none.
Qed.

Lemma relOf_inj p q : Forall normal p → Forall normal q → relOf p = relOf q → p = q.
Proof.
  assert (∀ c q, normal c → Forall normal q → joinSlash (c :: q) ≠ ".") as Hdot.
  { intros c l Hc Hl E. pose proof (splitSlash_join (c :: l) ltac:(done) (normal_noslash _ (Forall_cons_2 _ _ _ Hc Hl))) as Hs. rewrite E in Hs.
    injection Hs as <- _. destruct Hc as (_ & H & _). by apply H. }
  intros Hp Hq. destruct p as [|c p], q as [|d q]; simpl; [done|..].
  - intros E. symmetry in E. apply Forall_cons in Hq as [? ?]. by apply Hdot in E.
  - intros E. apply Forall_cons in Hp as [? ?]. by apply Hdot in E.
  - intros E. rewrite <-(splitSlash_join (c :: p)), <-(splitSlash_join (d :: q)) by (done || by apply normal_noslash). by rewrite E.
Qed.
Lemma entryAt_normal e q x : wfEntry e → entryAt e q = Some x → Forall normal q.
Proof.
  revert e. induction q as [|c q IH]; intros e Hwf; [constructor|]. simpl. destruct e as [|r es|]; try done.
  destruct (child es c) as [e'|] eqn:Ec; [|done]. intros Hq. destruct (Hwf [] r es eq_refl) as [Hd _].
  destruct (wf_child r es c e' Hwf (proj2 (child_elem es c e' Hd) Ec)) as (_ & Hw & Hn). constructor; [done|by eapply IH].
Qed.

Definition below (p : list string) (n k : string) : Prop := ∃ q, Forall normal (p ++ n :: q) ∧ k = relOf (p ++ n :: q).
Lemma below_unique p n n' k : below p n k → below p n' k → n = n'.
Proof. intros (q & Hq & ->) (q' & Hq' & E). apply relOf_inj in E; [|done..]. by simplify_eq. Qed.

Lemma collect_modules_NoDup root p r es ms : wfEntry (EDir r es) → Forall normal p →
  Forall (λ ne : string * Entry, ∀ p ms, wfEntry ne.2 → Forall normal p → walkForModules root p ne.2 = inl ms → NoDup (gm_Path <$> ms)) es →
  collect (λ name e, if negb (isDir e) || shouldSkipDir name then inl [] else walkForModules root (p ++ [name]) e) es = inl ms →
  NoDup (gm_Path <$> ms).
Proof.
  intros Hwf Hp IH Hc. apply (collect_NoDup gm_Path (below p) _ _ _ Hc); [apply (Hwf [] r es eq_refl)|apply below_unique|].
  intros n e l Hin Hf. destruct (wf_child _ _ _ _ Hwf Hin) as (_ & Hwe & Hn). destruct (isDir e) eqn:Ed; simpl in Hf; [|simplify_eq; by repeat constructor].
  destruct (shouldSkipDir n); [simplify_eq; by repeat constructor|].
  assert (Forall normal (p ++ [n])) as Hpn by (apply Forall_app; split; [done|by apply Forall_singleton]).
  split; [by apply (proj1 (Forall_forall _ _) IH (n, e) Hin _ _ Hwe Hpn Hf)|]. apply Forall_forall. intros x Hx.
  apply (walkForModules_spec root e _ _ Hwe Ed Hf) in Hx as (q & mp & -> & r' & es' & He & _). exists q.
  rewrite <-app_assoc. simpl. split; [|done]. apply entryAt_normal in He; [|done]. rewrite cons_middle, app_assoc. by apply Forall_app.
Qed.
Lemma walkForModules_NoDup root e : ∀ p ms, wfEntry e → Forall normal p → walkForModules root p e = inl ms → NoDup (gm_Path <$> ms).
Proof.
  induction e as [c|r es IH|t] using entry_ind; intros p ms Hwf Hp Hw; simpl in Hw; [simplify_eq; apply NoDup_nil_2| |simplify_eq; apply NoDup_nil_2].
  destruct (readModulePath _ _) as [[mp|]|err]; [simplify_eq; apply NoDup_singleton| |done]. destruct r as [err|]; [done|].
  by apply (collect_modules_NoDup root p None es ms).
Qed.

(** C38. The modules discovered are the root's, if it has a go.mod, and every
    directory with one that is reached through directories that are not skipped
    and are not modules themselves; each once, in the order of their paths. *)
Theorem modules_exact root e mods : wfEntry e → discoverModules root e = inl mods →
  Sorted (keyLe gm_Path) mods ∧ NoDup (gm_Path <$> mods) ∧
  ∀ path mp, mkGoModule path mp ∈ mods ↔ ∃ p, path = relOf p ∧ moduleAt true e p mp.
Proof.
  intros Hwf H. unfold discoverModules in H. destruct e as [c|r es|t]; simpl in H; [by repeat case_match|..|by repeat case_match].
  pose proof (readModulePath_cases (Join root "go.mod") es) as Hr. destruct (readModulePath _ _) as [rm|]; [|done]. destruct r as [err|]; [done|].
  destruct (collect _ _) as [ms|] eqn:Ec; [|done]. injection H as <-.
  assert (∀ x, x ∈ ms ↔ ∃ n q mp, x = mkGoModule (relOf (n :: q)) mp ∧ moduleAt true (EDir None es) (n :: q) mp) as Hms.
  { apply (collect_modules root true [] None es ms Hwf); [by left| |done]. apply Forall_forall. intros ne _ p ms'. apply walkForModules_spec. }
  split; [apply sortBy_sorted|]. split.
  - apply sortBy_NoDup. rewrite fmap_app. apply NoDup_app. split; [|split].
    + destruct rm; [apply NoDup_singleton|apply NoDup_nil_2].
    + destruct rm as [mp|]; [|by intros ? ?%not_elem_of_nil]. intros k ->%list_elem_of_singleton (x & E & Hx)%list_elem_of_fmap.
      apply Hms in Hx as (n & q & mp' & -> & r' & es' & He & _). apply (entryAt_normal _ _ _ Hwf) in He.
      by apply (relOf_inj [] (n :: q)) in E.
    + apply (collect_modules_NoDup root [] None es ms Hwf); [done| |done]. apply Forall_forall. intros ne _ p ms'. apply walkForModules_NoDup.
  - intros path mp. rewrite sortBy_elem, elem_of_app, Hms. split.
    + intros [Hin|(n & q & mp' & [= -> ->] & Hm)]; [|by exists (n :: q)]. destruct rm as [mp'|]; [|by apply not_elem_of_nil in Hin].
      apply list_elem_of_singleton in Hin. simplify_eq. exists []. split; [done|]. apply moduleAt_nil. apply Hr.
    + intros ([|n q] & -> & Hm); [|right; by exists n, q, mp]. left. apply moduleAt_nil in Hm. destruct rm as [mp'|].
      * destruct Hr as [_ Hu]. apply Hu in Hm as ->. left.
      * exfalso. by eapply goMod_none.
Qed.

(** A service with a nested module, whose own subdirectories are its own. *)
Definition demoTree : Entry := EDir None [
  ("AGENTS.md", EFile (inl "# Agents"));
  ("docs", EDir None [("CLAUDE.md", ELink None)]);
  ("examples", EDir None [("hello", EDir None [("main.go", EFile (inl "package main"))])]);
  ("go.mod", EFile (inl ("module example.com/app" +:+ nlString +:+ "go 1.22")));
  ("tools", EDir None [("go.mod", EFile (inl "module example.com/app/tools")); ("sub", EDir None [("go.mod", EFile (inl "module inner"))])]);
  ("vendor", EDir None [("x", EDir None [("go.mod", EFile (inl "module vendored"))])])].
(** A checker of well-formedness for concrete trees. *)
Fixpoint wfb (e : Entry) : bool :=
  match e with
  | EDir _ es => bool_decide (NoDup es.*1) && forallb (λ ne, (negb (String.eqb ne.1 "") && negb (String.eqb ne.1 ".") && negb (String.eqb ne.1 "..") &&
      bool_decide (splitSlash ne.1 = [ne.1])) && wfb ne.2) es
  | _ => true
  end.
Lemma wfb_ok e : wfb e = true → wfEntry e.
Proof.
  induction e as [c|r es IH|t] using entry_ind; simpl; intros H; [by intros [|? ?] ? ?| |by intros [|? ?] ? ?].
  apply andb_true_iff in H as [Hd H]. apply bool_decide_eq_true in Hd. rewrite forallb_forall in H.
  intros [|c p] r' es'; simpl.
  - intros [= <- <-]. split; [done|]. apply Forall_forall. intros n ([n' e'] & -> & Hin)%list_elem_of_fmap. apply list_elem_of_In in Hin.
    specialize (H _ Hin). simpl in *. repeat (apply andb_true_iff in H as [H ?]). unfold normal, noslash.
    repeat match goal with H : negb _ = true |- _ => apply negb_true_iff in H; apply String.eqb_neq in H end. case_bool_decide; done.
  - destruct (child es c) as [e'|] eqn:Ec; [|done]. apply child_elem in Ec; [|done]. intros Hp.
    pose proof (proj1 (Forall_forall _ _) IH (c, e') Ec) as Hw. apply list_elem_of_In in Ec. specialize (H _ Ec). apply andb_true_iff in H as [_ H].
    by apply (Hw H p r').
Qed.
Lemma modules_exact_witness : ∃ mods, discoverModules "/repo" demoTree = inl mods ∧
  (gm_Path <$> mods) = ["."; "tools"] ∧ NoDup (gm_Path <$> mods) ∧ ∃ p, "tools" = relOf p ∧ moduleAt true demoTree p "example.com/app/tools".
Proof.
  assert (discoverModules "/repo" demoTree = inl [mkGoModule "." "example.com/app"; mkGoModule "tools" "example.com/app/tools"]) as E
    by (vm_compute; reflexivity).
  destruct (modules_exact "/repo" demoTree _ (wfb_ok demoTree ltac:(vm_compute; reflexivity)) E) as (_ & Hd & Hm).
  eexists. split; [exact E|]. split; [reflexivity|]. split; [exact Hd|]. apply Hm. right. left.
Defined.

(** ** Files and roots *)

(** A place the walk acts on: reached through directories that are not skipped,
    and not such a directory itself. *)
Definition walked (e : Entry) (q : list string) (x : Entry) : Prop :=
  entryAt e q = Some x ∧ ∀ q1 n q2, q = q1 ++ n :: q2 → q2 ≠ [] ∨ isDir x = true → shouldSkipDir n = false.
Lemma walked_nil e x : walked e [] x ↔ x = e.
Proof. split; [by intros [[= ->] _]|]. intros ->. split; [done|]. intros [|? ?] ? ? ?; done. Qed.
Lemma walked_cons r es n q x : walked (EDir r es) (n :: q) x ↔
  ∃ e, child es n = Some e ∧ (isDir e = true → shouldSkipDir n = false) ∧ walked e q x.
Proof.
  split.
  - intros [He Hs]. simpl in He. destruct (child es n) as [e|] eqn:Ec; [|done]. exists e. split; [done|]. split.
    + intros Hd. apply (Hs [] n q eq_refl). destruct q; [right; simpl in He; by simplify_eq|by left].
    + split; [done|]. intros q1 n' q2 ->. apply (Hs (n :: q1) n' q2 eq_refl).
  - intros (e & Ec & Hd & He & Hs). split; [simpl; by rewrite Ec|]. intros [|n' q1] n2 q2 Hq Hor; simpl in Hq; simplify_eq.
    + apply Hd. destruct Hor as [Hq|Hx]; [|by destruct q2; [simpl in He; simplify_eq|destruct e; try done]].
      destruct q2; [done|]. by destruct e.
    + eapply Hs; [done|done].
Qed.

Lemma walkDir_spec e : ∀ top p name l, wfEntry e → walkDir top p name e = inl l →
  (top = true ∨ (isDir e = true → shouldSkipDir name = false)) → ∀ y, y ∈ l ↔ ∃ q x, y = (p ++ q, x) ∧ walked e q x.
Proof.
  assert (∀ p e y, isDir e = false → y ∈ [(p, e)] ↔ ∃ q x, y = (p ++ q, x) ∧ walked e q x) as Hleaf.
  { intros p e' y Hd. rewrite list_elem_of_singleton. split.
    - intros ->. exists [], e'. rewrite app_nil_r. split; [done|]. by apply walked_nil.
    - intros ([|n q] & x & -> & Hw); [apply walked_nil in Hw as ->; by rewrite app_nil_r|]. destruct Hw as [Hw _]. by destruct e'. }
  induction e as [c|r es IH|t] using entry_ind; intros top p name l Hwf Hl Htop y; simpl in Hl; [simplify_eq; by apply Hleaf| |simplify_eq; by apply Hleaf].
  replace (negb top && shouldSkipDir name) with false in Hl; [|destruct Htop as [->|Hs]; [done|rewrite Hs by done; by rewrite andb_false_r]].
  destruct r as [err|]; [done|]. destruct (collect _ _) as [ls|] eqn:Ec; [|done]. injection Hl as <-.
  rewrite elem_of_cons, (collect_elem _ _ _ Ec). pose proof (collect_ok _ _ _ Ec) as Hok. split.
  - intros [->|(n & e & l & Hin & Hf & Hy)]; [exists [], (EDir None es); rewrite app_nil_r; split; [done|by apply walked_nil]|].
    destruct (wf_child _ _ _ _ Hwf Hin) as (Hc & Hwe & _). destruct (decide (isDir e = true → shouldSkipDir n = false)) as [Hs|Hs].
    + apply (proj1 (Forall_forall _ _) IH (n, e) Hin false (p ++ [n]) n l Hwe Hf (or_intror Hs)) in Hy as (q & x & -> & Hw).
      exists (n :: q), x. rewrite <-app_assoc. split; [done|]. apply walked_cons. by exists e.
    + destruct e as [c|r' es'|t']; [by exfalso; apply Hs..| |by exfalso; apply Hs]. simpl in Hf. destruct (shouldSkipDir n) eqn:Es; [|by exfalso; apply Hs].
      simpl in Hf. simplify_eq. by apply not_elem_of_nil in Hy.
  - intros ([|n q] & x & -> & Hw); [apply walked_nil in Hw as ->; rewrite app_nil_r; by left|]. right.
    apply walked_cons in Hw as (e & Hc & Hs & Hw). destruct (Hwf [] None es eq_refl) as [Hnd _]. apply child_elem in Hc; [|done].
    destruct (Hok n e Hc) as [l Hl]. exists n, e, l. split; [done|]. split; [done|]. destruct (wf_child _ _ _ _ Hwf Hc) as (_ & Hwe & _).
    apply (proj1 (Forall_forall _ _) IH (n, e) Hc false (p ++ [n]) n l Hwe Hl (or_intror Hs)). exists q, x. by rewrite <-app_assoc.
Qed.

(** The instruction files discovered below a directory are the files (or links)
    with a well-known name in directories that are not skipped, in order. *)
Theorem instruction_files_exact rootName e fs : wfEntry e → isDir e = true → discoverInstructionFiles rootName false e = inl fs →
  Sorted (keyLe if_Path) fs ∧
  ∀ path name, mkInstructionFile path name ∈ fs ↔ ∃ dir x, path = relOf (dir ++ [name]) ∧ name ∈ wellKnownInstructionNames ∧
    Forall (λ n, shouldSkipDir n = false) dir ∧ entryAt e (dir ++ [name]) = Some x ∧ isDir x = false.
Proof.
  intros Hwf Hd H. unfold discoverInstructionFiles, WalkDir in H. destruct (walkDir true [] "" e) as [places|] eqn:Ew; [|done]. injection H as <-.
  split; [apply sortBy_sorted|]. intros path name. rewrite sortBy_elem, list_elem_of_omap.
  pose proof (walkDir_spec e true [] "" places Hwf Ew (or_introl eq_refl)) as Hpl. split.
  - intros ([p x] & (q & x' & [= -> ->] & Hat & Hs)%Hpl & Hf). simpl in Hf. destruct (isDir x') eqn:Ed; [done|]. case_bool_decide as Hn; [|done].
    injection Hf as <- <-. destruct q as [|n q _] using rev_ind; [simpl in Hat; simplify_eq; by rewrite Hd in Ed|].
    rewrite last_snoc in *. simpl in *. exists q, x'. split; [done|]. split; [done|]. split; [|done]. apply Forall_forall. intros m (q1 & q2 & ->)%list_elem_of_split.
    apply (Hs q1 m (q2 ++ [n])); [by rewrite <-app_assoc|]. left. by destruct q2.
  - intros (dir & x & -> & Hn & Hs & Hat & Hx). exists (dir ++ [name], x). split.
    + apply Hpl. exists (dir ++ [name]), x. split; [done|]. split; [done|]. intros q1 n q2 Hq [Hne|?]; [|congruence].
      destruct q2 as [|m q2 _] using rev_ind; [done|]. rewrite app_comm_cons, app_assoc in Hq. apply app_inj_tail in Hq as [-> _].
      apply (Forall_forall (λ n, shouldSkipDir n = false) (q1 ++ n :: q2) ); [done|]. apply elem_of_app. right. left.
    + simpl. rewrite last_snoc, Hx. simpl. by rewrite bool_decide_eq_true_2.
Qed.
Lemma instruction_files_exact_witness : ∃ fs, discoverInstructionFiles "repo" false demoTree = inl fs ∧
  (if_Path <$> fs) = ["AGENTS.md"; "docs/CLAUDE.md"] ∧ ∃ dir x, "docs/CLAUDE.md" = relOf (dir ++ ["CLAUDE.md"]) ∧
    entryAt demoTree (dir ++ ["CLAUDE.md"]) = Some x ∧ isDir x = false.
Proof.
  assert (discoverInstructionFiles "repo" false demoTree = inl [mkInstructionFile "AGENTS.md" "AGENTS.md"; mkInstructionFile "docs/CLAUDE.md" "CLAUDE.md"]) as E
    by (vm_compute; reflexivity).
  destruct (instruction_files_exact "repo" demoTree _ (wfb_ok demoTree ltac:(vm_compute; reflexivity)) eq_refl E) as (_ & Hm).
  eexists. split; [exact E|]. split; [reflexivity|].
  destruct (proj1 (Hm "docs/CLAUDE.md" "CLAUDE.md") ltac:(right; left)) as (dir & x & H1 & _ & _ & H2 & H3). exists dir, x. auto.
Defined.

(** Under a root that is a symbolic link none are found, and no directory with a
    [main] is a composition root, though its modules are found. *)
Theorem linked_root_hides ParseFile root e : (Base root ∉ wellKnownInstructionNames) →
  discoverInstructionFiles (Base root) true e = inl [] ∧
  discoverCompositionRoots ParseFile root true e = match examplesCompositionRoots root e with inl s => inl (sortBy cr_Path s.1) | inr err => inr err end.
Proof.
  intros Hb. unfold discoverInstructionFiles, discoverCompositionRoots, WalkDir. simpl. rewrite bool_decide_eq_false_2 by done. split; [done|].
  by destruct (examplesCompositionRoots root e).
Qed.
Lemma linked_root_hides_witness : discoverInstructionFiles (Base "/work/repo") true demoTree = inl [] ∧
  (∃ fs, discoverInstructionFiles (Base "/work/repo") false demoTree = inl fs ∧ fs ≠ []).
Proof.
  split; [|eexists; split; [vm_compute; reflexivity|done]].
  apply (linked_root_hides (λ _, None) "/work/repo" demoTree). apply (bool_decide_unpack _). vm_compute. exact I.
Defined.

(** The composition roots are the directories in examples/, and the directories
    the walk reaches that declare [main] and are not among them. *)
Section found_roots.
Context (ParseFile : string → option GoFile).

Definition isMainDir (pe : list string * Entry) : bool := isDir pe.2 && match dirHasMainFunc ParseFile pe.2 with inl true => true | _ => false end.
Lemma addRoot_eq s pe : addRoot ParseFile s pe =
  if isMainDir pe && negb (bool_decide (relOf pe.1 ∈ s.2)) then (s.1 ++ [mkCompositionRoot (relOf pe.1) mainReason], {[ relOf pe.1 ]} ∪ s.2) else s.
Proof.
  unfold addRoot, mainCompositionRoot, isMainDir. destruct s as [out seen], (isDir pe.2); simpl; [|done].
  destruct (dirHasMainFunc ParseFile pe.2) as [[|]|]; simpl; rewrite ?app_nil_r; try done. case_decide; simpl.
  - rewrite bool_decide_eq_true_2 by done. simpl. by rewrite app_nil_r.
  - by rewrite bool_decide_eq_false_2.
Qed.
Definition mainPlace (k : string) (pe : list string * Entry) : Prop := isMainDir pe = true ∧ k = relOf pe.1.
Lemma addRoots_spec places s0 : ∀ s, s = foldl (addRoot ParseFile) s0 places →
  (∀ x, x ∈ s.1 ↔ x ∈ s0.1 ∨ cr_Reason x = mainReason ∧ (cr_Path x ∉ s0.2) ∧ Exists (mainPlace (cr_Path x)) places) ∧
  (∀ k, k ∈ s.2 ↔ k ∈ s0.2 ∨ Exists (mainPlace k) places).
Proof.
  induction places as [|pe places IH] using rev_ind; intros s ->.
  { simpl. split; intros; rewrite Exists_nil; tauto. }
  rewrite foldl_app. simpl. destruct (IH _ eq_refl) as [H1 H2]. revert H1 H2. generalize (foldl (addRoot ParseFile) s0 places). intros s H1 H2.
  assert (∀ k, Exists (mainPlace k) (places ++ [pe]) ↔ Exists (mainPlace k) places ∨ mainPlace k pe) as HE.
  { intros k. rewrite Exists_app, Exists_cons, Exists_nil. tauto. }
  setoid_rewrite HE. rewrite addRoot_eq. unfold mainPlace at 2 4.
  destruct (isMainDir pe) eqn:Em; simpl; [case_bool_decide as Hin; simpl|].
  - apply H2 in Hin. split.
    + intros x. rewrite H1. split; [tauto|]. intros [?|(? & ? & [?|[_ E]])]; [tauto..|]. rewrite E in *. tauto.
    + intros k. rewrite H2. split; [tauto|]. intros [?|[?|[_ ->]]]; tauto.
  - split.
    + intros [path reason]. rewrite elem_of_app, H1, list_elem_of_singleton. simpl. rewrite H2 in Hin. split.
      * intros [?|[= -> ->]]; [tauto|]. tauto.
      * intros [?|(-> & ? & [?|[_ ->]])]; tauto.
    + intros k. rewrite elem_of_union, H2, elem_of_singleton. tauto.
  - split; intros ?; rewrite ?H1, ?H2; intuition discriminate.
Qed.

Lemma examples_seen root e out seen : examplesCompositionRoots root e = inl (out, seen) →
  (∀ x, x ∈ out ↔ cr_Reason x = examplesReason ∧ cr_Path x ∈ seen) ∧
  ∀ k, k ∈ seen ↔ ∃ ex es n x, statIn (entriesOf e) "examples" = inl ex ∧ readDirOf ex = inl es ∧ (n, x) ∈ es ∧ isDir x = true ∧ k = Join "examples" n.
Proof.
  unfold examplesCompositionRoots. destruct (statIn (entriesOf e) "examples") as [ex|err].
  2:{ destruct (IsNotExist err); [|done]. intros [= <- <-]. split; [intros x; split; [by intros ?%not_elem_of_nil|by intros [_ ?%not_elem_of_empty]]|].
      intros k. split; [by intros ?%not_elem_of_empty|by intros (? & ? & ? & ? & ? & _)]. }
  destruct (isDir ex) eqn:Ed; simpl.
  2:{ intros [= <- <-]. split; [intros x; split; [by intros ?%not_elem_of_nil|by intros [_ ?%not_elem_of_empty]]|].
      intros k. split; [by intros ?%not_elem_of_empty|]. intros (? & ? & ? & ? & [= <-] & H & _). by destruct ex. }
  destruct (readDirOf ex) as [es|err] eqn:Er; [|done]. intros [= <- <-]. split.
  - intros [path reason]. rewrite elem_of_list_to_set, list_elem_of_fmap. simpl. split; [intros (rel & [= -> ->] & ?); done|]. intros [-> ?]. by exists path.
  - intros k. rewrite elem_of_list_to_set, list_elem_of_fmap. split.
    + intros ([n x] & -> & [Hx Hin]%list_elem_of_filter). by exists ex, es, n, x.
    + intros (ex' & es' & n & x & [= <-] & Er' & Hin & Hx & ->). rewrite Er in Er'. injection Er' as <-. exists (n, x). split; [done|]. by apply list_elem_of_filter.
Qed.

(** [path] is a directory in examples/; a place of the tree declares [main]. *)
Definition inExamples (e : Entry) (path : string) : Prop := ∃ ex es n x,
  statIn (entriesOf e) "examples" = inl ex ∧ readDirOf ex = inl es ∧ (n, x) ∈ es ∧ isDir x = true ∧ path = Join "examples" n.
Definition declaresMainAt (e : Entry) (path : string) : Prop := ∃ q x, walked e q x ∧ isMainDir (q, x) = true ∧ path = relOf q.
Theorem composition_roots_exact root e roots : wfEntry e → discoverCompositionRoots ParseFile root false e = inl roots →
  Sorted (keyLe cr_Path) roots ∧
  ∀ path reason, mkCompositionRoot path reason ∈ roots ↔
    reason = examplesReason ∧ inExamples e path ∨ reason = mainReason ∧ ¬ inExamples e path ∧ declaresMainAt e path.
Proof.
  intros Hwf H. unfold discoverCompositionRoots, WalkDir in H. destruct (examplesCompositionRoots root e) as [[out seen]|] eqn:Ee; [|done].
  destruct (walkDir true [] "" e) as [places|] eqn:Ew; [|done]. injection H as <-. split; [apply sortBy_sorted|]. intros path reason.
  destruct (examples_seen _ _ _ _ Ee) as [Ho Hs]. rewrite sortBy_elem, (proj1 (addRoots_spec places (out, seen) _ eq_refl)). simpl.
  rewrite Ho. simpl. rewrite (Hs path). fold (inExamples e path).
  assert (Exists (mainPlace path) places ↔ declaresMainAt e path) as ->; [|done]. rewrite Exists_exists. split.
  - intros (pe & (q & x & -> & Hw)%(walkDir_spec e true [] "" places Hwf Ew (or_introl eq_refl)) & Hm & ->). by exists q, x.
  - intros (q & x & Hw & Hm & ->). exists (q, x). split; [|done]. apply (walkDir_spec e true [] "" places Hwf Ew (or_introl eq_refl)). by exists q, x.
Qed.
End found_roots.

(** A parser that knows one file. *)
Definition demoParse (content : string) : option GoFile :=
  if String.eqb content "package main" then Some (mkGoFile "main" [FuncDecl false "main"]) else None.
Lemma composition_roots_exact_witness : ∃ roots, discoverCompositionRoots demoParse "/repo" false demoTree = inl roots ∧
  roots = [mkCompositionRoot "examples/hello" examplesReason] ∧ inExamples demoTree "examples/hello".
Proof.
  assert (discoverCompositionRoots demoParse "/repo" false demoTree = inl [mkCompositionRoot "examples/hello" examplesReason]) as E
    by (vm_compute; reflexivity).
  destruct (composition_roots_exact demoParse "/repo" demoTree _ (wfb_ok demoTree ltac:(vm_compute; reflexivity)) E) as (_ & Hm).
  eexists. split; [exact E|]. split; [reflexivity|].
  destruct (proj1 (Hm "examples/hello" examplesReason) ltac:(left)) as [[_ Hx]|[Hr _]]; [exact Hx|discriminate Hr].
Defined.

(** The make targets are those the lines declare, each once and in order. *)
Lemma make_targets_exact es data targets : readFileIn es "Makefile" = inl data → discoverMakeTargets es = inl targets →
  Sorted String.le targets ∧ NoDup targets ∧ ∀ t, t ∈ targets ↔ ∃ line, line ∈ Lines data ∧ t ∈ lineTargets line.
Proof.
  intros Hd. unfold discoverMakeTargets. rewrite Hd. intros [= <-]. split; [apply sort_Strings_sorted|]. split.
  - rewrite sort_Strings_perm. apply NoDup_elements.
  - intros t. rewrite elem_of_sort_Strings, elem_of_elements, elem_of_list_to_set, list_elem_of_bind. naive_solver.
Qed.
Example make_targets_ex : discoverMakeTargets [("Makefile", EFile (inl (JoinWith nlString
    [".PHONY: build test"; "GOFLAGS:=-mod=mod"; "build: deps"; tab +:+ "go build ./..."; "release: VERSION := 1"; "# note: x"])))]
  = inl ["build"; "test"].
Proof. vm_compute. reflexivity. Qed.
