(* ===== verification/AgentDocs.v ===== *)
(** Instruction documents for agents, generated from the repository contract
    (src/agentdocs/agentdocs.go). *)

From Stdlib Require Import Ascii.
From stdpp Require Import base list strings sorting.
From S2P Require Import Prelude Regex GoStrings Approval Contract.

Definition nl : string := nlString.

(** * Targets *)

Definition Target := string.
Definition TargetAGENTS : Target := "AGENTS.md".
Definition TargetCLAUDE : Target := "CLAUDE.md".
Definition TargetKimi : Target := "kimi".
Definition TargetCodex : Target := "codex".

Definition sourceFile : string := "modulex.agent.yaml".
Definition safetyPolicyPath : string := "docs/planning/agent-safety-policy.md".
Definition contractGuidePath : string := "docs/planning/agent-repository-contract-guide.md".
Definition generationGuidePath : string := "docs/planning/agent-instruction-generation-guide.md".

Record targetFraming := mkFraming { fr_title : string; fr_intro : string }.

Definition framingFor (target : Target) : targetFraming + error :=
  if String.eqb target TargetAGENTS then inl (mkFraming "AGENTS.md — Repository Agent Instructions"
    ("This file is baseline guidance for OpenAI/Codex and any other " +:+
     "generic, repository-aware coding agent operating in this " +:+
     "repository, per the portability guidance. It is read " +:+
     "directly from the repository root; no provider-specific hook or " +:+
     "global configuration is required to use it."))
  else if String.eqb target TargetCLAUDE then inl (mkFraming "CLAUDE.md — Claude Code Instructions"
    ("This file is Claude-specific guidance for Claude Code sessions " +:+
     "in this repository. It covers the same contract as AGENTS.md; " +:+
     "where a Claude-specific hook or setting is available it may " +:+
     "supplement this file, but nothing below requires one to be " +:+
     "present."))
  else if String.eqb target TargetKimi then inl (mkFraming "Kimi Code CLI — Project Guidance"
    ("This file is project guidance for the Kimi Code CLI. If Kimi " +:+
     "hook support is configured for this repository (for example, a " +:+
     "project-specific hook registered under " +:+
     "`~/.kimi-code/config.toml`), it may supplement this file; the " +:+
     "content below is authoritative on its own and does not require " +:+
     "that hook configuration to be present."))
  else if String.eqb target TargetCodex then inl (mkFraming "Codex / Repository-Aware Agent Instructions"
    ("This file is guidance for the OpenAI Codex CLI/cloud agent and " +:+
     "other generic repository-aware agents that read a dedicated " +:+
     "instructions document. Its content mirrors AGENTS.md by design " +:+
     "(both audiences share one baseline); it is " +:+
     "generated as a separate document so a Codex-specific " +:+
     "integration can be pointed at it without depending on " +:+
     "AGENTS.md's exact filename."))
  else inr (Errorf "agentdocs: unknown target %q (must be one of %q, %q, %q, %q)"
              [target; TargetAGENTS; TargetCLAUDE; TargetKimi; TargetCodex] []).

(** * Sections *)

(** [strings.TrimRight(s, "\n")]. *)
Fixpoint dropNewlines (l : list ascii) : list ascii :=
  match l with a :: k => if decide (a = newline) then dropNewlines k else l | [] => [] end.
Definition trimNewlines (s : string) : string :=
  String.string_of_list_ascii (reverse (dropNewlines (reverse (String.list_ascii_of_string s)))).

Definition code (s : string) : string := "`" +:+ s +:+ "`".
Definition ifSet (s text : string) : string := if String.eqb s "" then "" else text.
Definition eachOf {A} (f : A → string) (l : list A) : string := concatS (f <$> l).

Definition renderGeneratedComment (schemaVersion : string) : string :=
  "<!-- GENERATED FROM " +:+ sourceFile +:+ " (schema v" +:+ schemaVersion +:+ ") — DO NOT EDIT BY HAND. " +:+
  "Regenerate via agentdocs.Generate; see " +:+ generationGuidePath +:+ ". -->".
Definition renderFooterComment (schemaVersion : string) : string :=
  "<!-- End of generated content. Source: " +:+ sourceFile +:+ " (schema v" +:+ schemaVersion +:+ "). " +:+
  "Regenerate via agentdocs.Generate rather than editing by hand. -->".
Definition renderSourceNote (schemaVersion : string) : string :=
  "Generated from " +:+ code sourceFile +:+ " (schema v" +:+ schemaVersion +:+ "). See " +:+ code contractGuidePath +:+
  " for the contract's full schema and " +:+ code generationGuidePath +:+ " for how this file is generated and how to detect " +:+
  "drift between it and the checked-in contract. Do not hand-edit below this line — regenerate instead.".

Definition projectLines (p : Project) : string :=
  "- **" +:+ pj_Name p +:+ "** (" +:+ code (pj_Path p) +:+ ")" +:+
  ifSet (pj_ModulePath p) (" — module " +:+ code (pj_ModulePath p)) +:+ nl +:+
  ifSet (pj_Description p) ("  " +:+ pj_Description p +:+ nl) +:+
  eachOf (λ root, "  - composition root: " +:+ code root +:+ nl) (pj_CompositionRoots p).
Definition renderProjectsSection (projects : list Project) : string :=
  match projects with
  | [] => ""
  | _ => trimNewlines ("## Projects" +:+ nl +:+ nl +:+ eachOf projectLines projects)
  end.

Definition boundaryLines (b : Boundary) : string :=
  "- **" +:+ bd_Name b +:+ "**" +:+ ifSet (bd_Rule b) (" — " +:+ bd_Rule b) +:+ nl +:+
  ifSet (bd_Description b) ("  " +:+ bd_Description b +:+ nl).
Definition renderBoundariesSection (boundaries : list Boundary) : string :=
  match boundaries with
  | [] => ""
  | _ => trimNewlines ("## Boundaries" +:+ nl +:+ nl +:+ eachOf boundaryLines boundaries)
  end.

Definition emptyDash (s : string) : string := if String.eqb s "" then "—" else s.
Definition commandRow (c : CommandDecl) : string :=
  "| " +:+ cd_Class c +:+ " | " +:+ cd_Name c +:+ " | " +:+ code (cd_Command c) +:+ " | " +:+ emptyDash (cd_Reason c) +:+ " |" +:+ nl.
Definition renderCommandsSection (commands : list CommandDecl) : string :=
  let title := "## Command matrix" +:+ nl +:+ nl in
  match commands with
  | [] => title +:+ "No commands declared in the contract."
  | _ => trimNewlines (title +:+ "| Class | Name | Command | Reason |" +:+ nl +:+ "|---|---|---|---|" +:+ nl +:+ eachOf commandRow commands)
  end.

Definition checkRow (k : CheckDecl) : string :=
  "| " +:+ ck_Name k +:+ " | " +:+ code (ck_Command k) +:+ " | " +:+ emptyDash (ck_Reason k) +:+ " | " +:+ emptyDash (ck_RequiredTool k) +:+ " |" +:+ nl.
Definition writeCheckTable (checks : list CheckDecl) : string :=
  match checks with
  | [] => "None declared." +:+ nl
  | _ => "| Name | Command | Reason | Required tool |" +:+ nl +:+ "|---|---|---|---|" +:+ nl +:+ eachOf checkRow checks
  end.
Definition renderVerificationSection (focused full : list CheckDecl) : string :=
  trimNewlines ("## Verification" +:+ nl +:+ nl +:+
    "Focused checks are recommended for a specific, scoped change. " +:+
    "Full gates are always required before push or release, regardless of " +:+
    "what changed — focused checks are never a substitute for full " +:+
    "gates." +:+ nl +:+ nl +:+
    "### Focused checks" +:+ nl +:+ nl +:+
    writeCheckTable focused +:+
    nl +:+ "### Full gates (always required before push or release)" +:+ nl +:+ nl +:+
    writeCheckTable full).

Definition bullets (title : string) (l : list string) : string :=
  match l with
  | [] => ""
  | _ => nl +:+ title +:+ nl +:+ nl +:+ eachOf (λ p, "- " +:+ code p +:+ nl) l
  end.
Definition renderSafetySection (protectedPaths requiredCredentials : list string) : string :=
  trimNewlines ("## Safety policy" +:+ nl +:+ nl +:+
    "The default posture in this repository is repository-local and " +:+
    "read-only: agents may read any file and run non-mutating commands " +:+
    "freely. The following always require explicit, current-session human " +:+
    "approval — a general standing instruction to " +:+ dq +:+ "work autonomously" +:+ dq +:+ " " +:+
    "does not itself cover these unless it names them specifically:" +:+ nl +:+ nl +:+
    "- Pushing to a shared branch or the default branch." +:+ nl +:+
    "- Opening, merging, or closing a pull request." +:+ nl +:+
    "- Tagging or publishing a release." +:+ nl +:+
    "- Deleting a branch, file, or remote resource not created by " +:+
    "the agent in the current session." +:+ nl +:+
    "- Any infrastructure or CI/CD configuration change." +:+ nl +:+
    "- Any external mutation (issue tracker, chat, or third-party " +:+
    "service state)." +:+ nl +:+
    "- Force-pushing, history rewriting, or skipping commit " +:+
    "hooks/CI gates." +:+ nl +:+ nl +:+
    "See " +:+ code safetyPolicyPath +:+ " for the full policy; this section summarizes it and " +:+
    "does not replace it. Where the two disagree, " +:+ code safetyPolicyPath +:+ " wins." +:+ nl +:+
    bullets "### Protected paths (do not modify without explicit human approval)" protectedPaths +:+
    bullets "### Required credentials (names only — never values)" requiredCredentials).

Definition renderHandoffSection (handoffFormat : string) : string :=
  if String.eqb handoffFormat "" then ""
  else "## Handoff" +:+ nl +:+ nl +:+ "Before reporting work as complete, run the full " +:+
    "verification gates above and produce a handoff artifact " +:+
    "conforming to: " +:+ code handoffFormat +:+ ". Report skipped or unavailable checks " +:+
    "explicitly — never report a check as passing when it was " +:+
    "skipped or could not run.".

(** * The document *)

Record renderData := mkRenderData {
  rd_GeneratedComment : string; rd_Title : string; rd_Intro : string; rd_SourceNote : string;
  rd_ProjectsSection : string; rd_BoundariesSection : string; rd_CommandsSection : string;
  rd_VerificationSection : string; rd_SafetySection : string; rd_HandoffSection : string; rd_FooterComment : string }.

(** The skeleton, with its conditional sections. *)
Definition optSection (s : string) : string := ifSet s (nl +:+ s +:+ nl).
Definition docTemplate (d : renderData) : string :=
  rd_GeneratedComment d +:+ nl +:+ nl +:+ "# " +:+ rd_Title d +:+ nl +:+ nl +:+ rd_Intro d +:+ nl +:+ nl +:+ rd_SourceNote d +:+ nl +:+
  optSection (rd_ProjectsSection d) +:+ optSection (rd_BoundariesSection d) +:+ nl +:+
  rd_CommandsSection d +:+ nl +:+ nl +:+ rd_VerificationSection d +:+ nl +:+ nl +:+ rd_SafetySection d +:+ nl +:+
  optSection (rd_HandoffSection d) +:+ nl +:+ rd_FooterComment d +:+ nl.

(** [a < b] on strings. *)
Definition strLess (a b : string) : bool := negb (bool_decide (String.le b a)).
Definition projectLess (a b : Project) : bool := strLess (pj_Name a) (pj_Name b).
Definition boundaryLess (a b : Boundary) : bool := strLess (bd_Name a) (bd_Name b).
Definition commandLess (a b : CommandDecl) : bool :=
  if String.eqb (cd_Class a) (cd_Class b) then strLess (cd_Name a) (cd_Name b) else strLess (cd_Class a) (cd_Class b).
Definition checkLess (a b : CheckDecl) : bool := strLess (ck_Name a) (ck_Name b).

Section generate.
(** [sort.Slice]; it is not stable. *)
Context (sortSlice : ∀ A, (A → A → bool) → list A → list A).

Definition sortedProjects : list Project → list Project := sortSlice _ projectLess.
Definition sortedBoundaries : list Boundary → list Boundary := sortSlice _ boundaryLess.
Definition sortedCommands : list CommandDecl → list CommandDecl := sortSlice _ commandLess.
Definition sortedChecks : list CheckDecl → list CheckDecl := sortSlice _ checkLess.
Definition sortedStrings : list string → list string := sort_Strings.

Definition buildRenderData (c : Contract) (framing : targetFraming) : renderData :=
  mkRenderData (renderGeneratedComment (ct_SchemaVersion c)) (fr_title framing) (fr_intro framing)
    (renderSourceNote (ct_SchemaVersion c))
    (renderProjectsSection (sortedProjects (ct_Projects c)))
    (renderBoundariesSection (sortedBoundaries (ct_Boundaries c)))
    (renderCommandsSection (sortedCommands (ct_Commands c)))
    (renderVerificationSection (sortedChecks (vd_Focused (ct_Verification c))) (sortedChecks (vd_Full (ct_Verification c))))
    (renderSafetySection (sortedStrings (ct_ProtectedPaths c)) (sortedStrings (ct_RequiredCredentials c)))
    (renderHandoffSection (ct_HandoffFormat c))
    (renderFooterComment (ct_SchemaVersion c)).

Definition Generate (c : Contract) (target : Target) : string + error :=
  match framingFor target with
  | inr err => inr err
  | inl framing => inl (docTemplate (buildRenderData c framing))
  end.

Definition Drift (c : Contract) (target : Target) (existingContent : string) : bool + error :=
  match Generate c target with
  | inr err => inr err
  | inl current => inl (negb (String.eqb current existingContent))
  end.
End generate.

(** * Sorting by a key *)

(** What [sort.Slice] promises for a strict weak order. *)
Definition strictWeak {A} (less : A → A → bool) : Prop :=
  (∀ a b, less a b = true → less b a = false) ∧ Transitive (λ a b, less b a = false).
Definition isSort (sortSlice : ∀ A, (A → A → bool) → list A → list A) : Prop :=
  ∀ A less l, strictWeak less → sortSlice A less l ≡ₚ l ∧ StronglySorted (λ a b, less b a = false) (sortSlice A less l).

Section keyed.
Context {A K : Type} (key : A → K) (le : relation K) `{!AntiSymm (=) le, !Transitive le, !Total le} (less : A → A → bool).
Context (Hless : ∀ a b, less b a = false ↔ le (key a) (key b)).

Lemma keyed_weak : strictWeak less.
Proof.
  split.
  - intros a b Hab. apply Hless. destruct (total le (key b) (key a)) as [H|H]; [|done].
    apply Hless in H. congruence.
  - intros a b c Hab%Hless Hbc%Hless. apply Hless. by etrans.
Qed.

(** Elements with the same keys in the same order are the same. *)
Lemma same_keys l k : l ≡ₚ k → key <$> l = key <$> k → NoDup (key <$> l) → l = k.
Proof.
  intros Hp Hk Hnd. apply list_eq. intros i.
  assert (key <$> l !! i = key <$> k !! i) as Hi by (by rewrite <- !list_lookup_fmap, Hk).
  destruct (l !! i) as [x|] eqn:El, (k !! i) as [y|] eqn:Ek; try done. f_equal. injection Hi as Hi.
  assert (y ∈ l) as [n Hn]%list_elem_of_lookup by (rewrite Hp; by eapply list_elem_of_lookup_2).
  assert (i = n) as <-; [|congruence]. apply (NoDup_lookup _ i n (key x) Hnd); rewrite list_lookup_fmap, ?El, ?Hn; simpl; congruence.
Qed.

Lemma keyed_sorted l : StronglySorted (λ a b, less b a = false) l → StronglySorted le (key <$> l).
Proof.
  induction 1 as [|a l Hl IH Ha]; [constructor|]. constructor; [done|]. apply Forall_fmap.
  eapply Forall_impl; [exact Ha|]. intros b Hb. by apply Hless.
Qed.

(** Sorting forgets the order, when the keys are distinct. *)
Lemma sort_forgets sort sort' l k : isSort sort → isSort sort' → l ≡ₚ k → NoDup (key <$> l) → sort A less l = sort' A less k.
Proof.
  intros Hs Hs' Hp Hnd. destruct (Hs A less l keyed_weak) as [P1 S1], (Hs' A less k keyed_weak) as [P2 S2].
  apply same_keys.
  - by rewrite P1, P2.
  - apply (StronglySorted_unique le); [by apply keyed_sorted..|]. apply fmap_Permutation. by rewrite P1, P2.
  - rewrite P1. done.
Qed.
End keyed.

Lemma strLess_le a b : strLess b a = false ↔ String.le a b.
Proof. unfold strLess. rewrite negb_false_iff. apply bool_decide_eq_true. Qed.

(** Pairs of strings in the order of [commandLess]. *)
Definition pairLe (p q : string * string) : Prop := if decide (p.1 = q.1) then String.le p.2 q.2 else String.le p.1 q.1.
#[export] Instance pairLe_antisymm : AntiSymm (=) pairLe.
Proof.
  intros [a b] [c d]. unfold pairLe. simpl. repeat case_decide; subst; try done.
  - intros H1 H2. f_equal. by apply (anti_symm String.le).
  - intros H1 H2. destruct H. by apply (anti_symm String.le).
Qed.
#[export] Instance pairLe_trans : Transitive pairLe.
Proof.
  intros [a b] [c d] [e f]. unfold pairLe. simpl. repeat case_decide; subst; try done; try (by intros; etrans).
  intros H1 H2. exfalso. apply H. by apply (anti_symm String.le).
Qed.
#[export] Instance pairLe_total : Total pairLe.
Proof. intros [a b] [c d]. unfold pairLe. simpl. repeat case_decide; subst; try done; apply (total String.le). Qed.

Definition commandKey (c : CommandDecl) : string * string := (cd_Class c, cd_Name c).
Lemma commandLess_le a b : commandLess b a = false ↔ pairLe (commandKey a) (commandKey b).
Proof.
  unfold commandLess, pairLe, commandKey. simpl. destruct (String.eqb_spec (cd_Class b) (cd_Class a)) as [E|E]; case_decide; try congruence;
    apply strLess_le.
Qed.

(** * The documents do not depend on the order of the declarations *)

Record sameDeclarations (c c' : Contract) : Prop := {
  sd_version : ct_SchemaVersion c = ct_SchemaVersion c';
  sd_handoff : ct_HandoffFormat c = ct_HandoffFormat c';
  sd_projects : ct_Projects c ≡ₚ ct_Projects c';
  sd_boundaries : ct_Boundaries c ≡ₚ ct_Boundaries c';
  sd_commands : ct_Commands c ≡ₚ ct_Commands c';
  sd_focused : vd_Focused (ct_Verification c) ≡ₚ vd_Focused (ct_Verification c');
  sd_full : vd_Full (ct_Verification c) ≡ₚ vd_Full (ct_Verification c');
  sd_protected : ct_ProtectedPaths c ≡ₚ ct_ProtectedPaths c';
  sd_credentials : ct_RequiredCredentials c ≡ₚ ct_RequiredCredentials c' }.
Record distinctNames (c : Contract) : Prop := {
  dn_projects : NoDup (pj_Name <$> ct_Projects c);
  dn_boundaries : NoDup (bd_Name <$> ct_Boundaries c);
  dn_commands : NoDup (commandKey <$> ct_Commands c);
  dn_focused : NoDup (ck_Name <$> vd_Focused (ct_Verification c));
  dn_full : NoDup (ck_Name <$> vd_Full (ct_Verification c)) }.

(** Two contracts with the same declarations in any order, whose names are
    distinct, have the same documents for every target, whichever algorithm
    sorts: reordering modulex.agent.yaml is no drift. *)
Theorem generate_order_independent sort sort' c c' target :
  isSort sort → isSort sort' → sameDeclarations c c' → distinctNames c →
  Generate sort c target = Generate sort' c' target ∧
  ∀ doc, Generate sort c target = inl doc → Drift sort' c' target doc = inl false.
Proof.
  intros Hs Hs' [S1 S2 S3 S4 S5 S6 S7 S8 S9] [D1 D2 D3 D4 D5].
  assert (Generate sort c target = Generate sort' c' target) as Heq.
  { unfold Generate. destruct (framingFor target) as [fr|]; [|done]. do 2 f_equal. unfold buildRenderData, sortedStrings.
    rewrite S1, S2, (sort_Strings_Proper _ _ S8), (sort_Strings_Proper _ _ S9). unfold sortedProjects, sortedBoundaries, sortedCommands, sortedChecks.
    rewrite (sort_forgets pj_Name String.le projectLess (λ a b, strLess_le _ _) sort sort' _ _ Hs Hs' S3 D1),
      (sort_forgets bd_Name String.le boundaryLess (λ a b, strLess_le _ _) sort sort' _ _ Hs Hs' S4 D2),
      (sort_forgets commandKey pairLe commandLess commandLess_le sort sort' _ _ Hs Hs' S5 D3),
      (sort_forgets ck_Name String.le checkLess (λ a b, strLess_le _ _) sort sort' _ _ Hs Hs' S6 D4),
      (sort_forgets ck_Name String.le checkLess (λ a b, strLess_le _ _) sort sort' _ _ Hs Hs' S7 D5). done. }
  split; [done|]. intros doc Hdoc. unfold Drift. rewrite <- Heq, Hdoc. by rewrite String.eqb_refl.
Qed.

(** Merge sort is such a sort. *)
Definition notAfter {A} (less : A → A → bool) (a b : A) : Prop := less b a = false.
#[export] Instance notAfter_dec {A} (less : A → A → bool) : RelDecision (notAfter less).
Proof. intros a b. unfold notAfter. apply _. Defined.
Definition mergeSort (A : Type) (less : A → A → bool) (l : list A) : list A := merge_sort (notAfter less) l.
Lemma mergeSort_isSort : isSort mergeSort.
Proof.
  intros A less l [Hasym Htr]. split; [apply merge_sort_Permutation|]. apply Sorted_StronglySorted; [exact Htr|].
  assert (Total (notAfter less)) by (intros a b; unfold notAfter; destruct (less b a) eqn:E; [right; by apply Hasym|by left]).
  apply (Sorted_merge_sort (notAfter less)).
Qed.

Definition demoContract (commands : list CommandDecl) (protected : list string) : Contract :=
  mkContract "1.0.0" [mkProject "app" "." "" "" []] (mkInstructions [] "") [] commands (mkVerificationDecl [] []) protected [] [] [] [] "".
Definition demoTest : CommandDecl := mkCommandDecl "test" "go test ./..." "safe" "".
Definition demoBuild : CommandDecl := mkCommandDecl "build" "go build ./..." "safe" "compiles".
Lemma generate_order_independent_witness :
  Drift mergeSort (demoContract [demoBuild; demoTest] ["b"; "a"]) TargetCLAUDE
    (match Generate mergeSort (demoContract [demoTest; demoBuild] ["a"; "b"]) TargetCLAUDE with inl doc => doc | inr _ => "" end) = inl false.
Proof.
  apply (generate_order_independent mergeSort mergeSort (demoContract [demoTest; demoBuild] ["a"; "b"])
    (demoContract [demoBuild; demoTest] ["b"; "a"]) TargetCLAUDE mergeSort_isSort mergeSort_isSort); [| |reflexivity].
  - split; try reflexivity; apply Permutation_swap.
  - split; apply (bool_decide_unpack _); vm_compute; exact I.
Defined.

(** With two commands of one class and name the order shows. *)
Lemma duplicate_names_drift :
  let c := demoContract [demoTest; mkCommandDecl "test" "make test" "safe" ""] [] in
  let c' := demoContract [mkCommandDecl "test" "make test" "safe" ""; demoTest] [] in
  ∃ doc, Generate mergeSort c TargetAGENTS = inl doc ∧ Drift mergeSort c' TargetAGENTS doc = inl true.
Proof. eexists. split; [reflexivity|]. vm_compute. reflexivity. Qed.

(** A document is generated exactly for the four targets. *)
Lemma generate_targets sort c target :
  (∃ doc, Generate sort c target = inl doc) ↔ target ∈ [TargetAGENTS; TargetCLAUDE; TargetKimi; TargetCodex].
Proof.
  unfold Generate, framingFor. rewrite !elem_of_cons, elem_of_nil.
  destruct (String.eqb_spec target TargetAGENTS); [split; [tauto|by eexists]|].
  destruct (String.eqb_spec target TargetCLAUDE); [split; [tauto|by eexists]|].
  destruct (String.eqb_spec target TargetKimi); [split; [tauto|by eexists]|].
  destruct (String.eqb_spec target TargetCodex); [split; [tauto|by eexists]|]. split; [by intros [? ?]|tauto].
Qed.

(** Cells are not escaped: a command with a pipe makes a row of more than the
    four cells the header announces. *)
Definition pipe : ascii := ascii_of_N 124.
Definition cells (row : string) : nat := length (filter (λ a, a = pipe) (String.list_ascii_of_string row)) - 1.
Lemma pipe_splits_row : cells (commandRow demoTest) = 4 ∧
  cells (commandRow (mkCommandDecl "test" "go test ./... | tee log" "safe" "")) = 5.
Proof. split; vm_compute; reflexivity. Qed.
