(* ===== verification/ModBoundary.v ===== *)
(** The analyzer of boundaries between feature modules
    (src/tools/modboundary/modboundary.go): imports and database tables.

    A pass of the analysis framework is given by the package's name and path
    and, per file, the imported paths, the comments and the string literals
    ([None] for a literal that cannot be unquoted).  The file system, and the
    lower case of non-ASCII letters, are parameters. *)

From Stdlib Require Import Ascii.
From stdpp Require Import base list gmap strings sets.
From S2P Require Import Prelude Regex Paths GoStrings.

(** * Names *)

(** [strings.TrimSuffix]. *)
Definition TrimSuffix (s suf : string) : string :=
  if HasSuffix s suf then String.substring 0 (String.length s - String.length suf) s else s.

(** [strings.IndexByte], and the text before and after. *)
Fixpoint cutSlash (s : string) : option (string * string) :=
  match s with
  | EmptyString => None
  | String a s =>
    if Ascii.eqb a "/" then Some (EmptyString, s)
    else match cutSlash s with Some (u, v) => Some (String a u, v) | None => None end
  end.

Definition moduleOf (importPath root : string) : option string :=
  if String.eqb importPath root then None
  else
    match CutPrefix importPath (root +:+ "/") with
    | None => None
    | Some rest => match cutSlash rest with Some (m, _) => Some m | None => Some rest end
    end.
Definition normalizeTestModule (module : string) : string := TrimSuffix module "_test".
Definition analyzedModule (pkgPath root : string) : option string :=
  match moduleOf pkgPath root with
  | None => None
  | Some raw => if HasSuffix raw ".test" then None else Some (normalizeTestModule raw)
  end.
Definition parseNameSet (csv : string) : gset string :=
  list_to_set (filter (λ n, n ≠ "") (TrimSpace <$> SplitByte "," csv)).
(** The part after the last slash. *)
Definition lastSegment (path : string) : string := List.last (splitSlash path) "".

(** * Imports *)

Record File := mkFile { fl_Imports : list (option string); fl_Comments : list string; fl_Literals : list (option string) }.
Record Pass := mkPass { ps_Name : string; ps_Path : string; ps_Files : list File; ps_Dir : option string }.

Inductive Diagnostic :=
  | DImport (pkg module path importedModule : string) (allowed : list string)
  | DTable (module table owner : string).

Definition checkImport (pkg root currentModule : string) (allowed : gset string) (imp : option string) : list Diagnostic :=
  match imp with
  | None => []
  | Some path =>
    match moduleOf path root with
    | None => []
    | Some raw =>
      let importedModule := normalizeTestModule raw in
      if String.eqb importedModule currentModule then []
      else if bool_decide (lastSegment path ∈ allowed) then []
      else [DImport pkg currentModule path importedModule (sort_Strings (elements allowed))]
    end
  end.
Definition checkImports (pass : Pass) (root currentModule : string) (allowed : gset string) : list Diagnostic :=
  f ← ps_Files pass; imp ← fl_Imports f; checkImport (ps_Path pass) root currentModule allowed imp.

(** * Globs *)

Inductive atom := AStar | AAny | ALit (c : Z).
Definition atomOf (x : Sym) : atom := if (x.1 =? 42)%Z then AStar else if (x.1 =? 63)%Z then AAny else ALit x.1.
Definition atoms (seg : string) : list atom := atomOf <$> decode seg.

Definition notSlash : regex := RClass (mkCls false true [(47, 47)%Z]).
Definition slash : regex := RClass (mkCls false false [(47, 47)%Z]).
Definition anyRune : regex := RClass (mkCls false true [(10, 10)%Z]).
Definition atomRegex (a : atom) : regex :=
  match a with
  | AStar => RStar true notSlash
  | AAny => notSlash
  | ALit c => RClass (mkCls false false [(c, c)])
  end.
Definition segRegex (as' : list atom) : regex := foldr (λ a r, RCat (atomRegex a) r) REmpty as'.
(** [(?:.+/)?]. *)
Definition doubleStar : regex := RAlt (RCat (RCat anyRune (RStar true anyRune)) slash) REmpty.

(** The pieces with the separators between them, and the end; the expression
    that [regexp.Compile] reads from the text the code builds. *)
Fixpoint globPieces (segs : list string) : regex :=
  match segs with
  | [] => REnd
  | seg :: rest =>
    if String.eqb seg "**" then RCat doubleStar (globPieces rest)
    else match rest with
    | [] => RCat (segRegex (atoms seg)) REnd
    | _ => RCat (segRegex (atoms seg)) (RCat slash (globPieces rest))
    end
  end.
Definition globToRegexp (pattern : string) : regex := RCat RBegin (globPieces (splitSlash pattern)).

(** * Tables *)

Definition createStatementRE : regex := MustCompile "(?i)CREATE\s+(TABLE|VIEW)\s+(\S+)".
Definition sqlKeywordPattern : regex :=
  MustCompile "\b(select|from|where|join|insert|update|delete|into|set|on|table|alter|drop|create|truncate|grant)\b".
(** [(?i)\b], the quoted name, [\b]. *)
Definition tableRegex (table : string) : regex :=
  RCat RWord (foldr (λ x r, RCat (RClass (mkCls true false [(x.1, x.1)])) r) RWord (decode table)).

(** [strings.TrimRight] and [strings.TrimLeft] with a set of ASCII bytes. *)
Fixpoint dropIn (cut : list ascii) (l : list ascii) : list ascii :=
  match l with a :: k => if decide (a ∈ cut) then dropIn cut k else l | [] => [] end.
Definition TrimLeft (s : string) (cut : list ascii) : string := String.string_of_list_ascii (dropIn cut (String.list_ascii_of_string s)).
Definition TrimRight (s : string) (cut : list ascii) : string :=
  String.string_of_list_ascii (reverse (dropIn cut (reverse (String.list_ascii_of_string s)))).
Definition quoteChar : ascii := ascii_of_N 34.
Definition backquote : ascii := ascii_of_N 96.
Definition tableName (m : string) : string :=
  TrimLeft (TrimRight m [" "%char; "("%char; ";"%char; quoteChar; backquote]) [quoteChar; backquote].

Definition addTable (module : string) (allowedTables : gset string) (tables : gmap string string) (name : string) : gmap string string :=
  if String.eqb name "" || bool_decide (name ∈ allowedTables) then tables
  else match tables !! name with
  | Some existing => if String.eqb existing module then <[name := module]> tables else tables
  | None => <[name := module]> tables
  end.
(** [rel] is the path below the root, [data] its content, if readable. *)
Definition addTablesFromFile (allowedTables : gset string) (tables : gmap string string) (rel : string) (data : option string) : gmap string string :=
  match data with
  | None => tables
  | Some data =>
    let module := hd "" (splitSlash rel) in
    foldl (addTable module allowedTables) tables ((λ m, tableName (m 2)) <$> FindAllSubmatch createStatementRE data)
  end.

(** [filepath.Base]. *)
Definition Base (path : string) : string :=
  if String.eqb path "" then "."
  else match reverse (filter (λ c, c ≠ "") (splitSlash path)) with [] => "/" | c :: _ => c end.
Fixpoint findRootFrom (fuel : nat) (dir lastSeg current : string) : string :=
  match fuel with
  | O => dir
  | S fuel =>
    if String.eqb (Base current) lastSeg then current
    else let parent := Dir current in
      if String.eqb parent current then dir else findRootFrom fuel dir lastSeg parent
  end.
Definition findModuleRoot (dir root : string) : string :=
  findRootFrom (S (S (String.length dir))) dir (List.last (splitSlash root) "") dir.

Section analysis.
Context (toLower : string → string).
(** The files below a directory, by their path relative to it, in the order of
    the walk; an error says whether the directory is missing. *)
Context (walk : string → list string + (bool * error)) (readFile : string → option string).

Definition isLikelySQLReference (lower table : string) : bool :=
  MatchString sqlKeywordPattern lower || String.eqb (TrimSpace lower) table.
Definition checkSQLTableRef (schemaTables : gmap string string) (currentModule val : string) : list Diagnostic :=
  omap (λ to : string * string,
    if String.eqb to.2 currentModule then None
    else if negb (MatchString (tableRegex to.1) val) then None
    else if negb (isLikelySQLReference (toLower val) (toLower to.1)) then None
    else Some (DTable currentModule to.1 to.2)) (map_to_list schemaTables).
Definition checkTableReferences (pass : Pass) (schemaTables : gmap string string) (currentModule : string) : list Diagnostic :=
  (f ← ps_Files pass; c ← fl_Comments f; checkSQLTableRef schemaTables currentModule c) ++
  (f ← ps_Files pass; l ← fl_Literals f;
   match (l : option string) with Some val => checkSQLTableRef schemaTables currentModule val | None => [] end).

Definition findSchemaFiles (moduleRoot : string) (matcher : regex) : list string + (bool * error) :=
  match walk moduleRoot with
  | inl files => inl (filter (λ f, MatchString matcher f = true) files)
  | inr err => inr err
  end.
Definition loadSchemaTables (pass : Pass) (root dbschemaGlob : string) (allowedTables : gset string) : gmap string string + error :=
  match ps_Dir pass with
  | None => inl ∅
  | Some dir =>
    let moduleRoot := findModuleRoot dir root in
    match findSchemaFiles moduleRoot (globToRegexp dbschemaGlob) with
    | inr (notExist, err) => if (notExist : bool) then inl ∅ else inr err
    | inl matches => inl (foldl (λ t f, addTablesFromFile allowedTables t f (readFile (moduleRoot +:+ "/" +:+ f))) ∅ matches)
    end
  end.

Record Flags := mkFlags { fg_root : string; fg_allow : string; fg_dbschema : string; fg_sqltables : string }.
Definition run (flags : Flags) (pass : Pass) : list Diagnostic + error :=
  let root := TrimSuffix (fg_root flags) "/" in
  if String.eqb root "" then inr (Errorf "modboundary: -root flag must be set to the import path prefix identifying the module boundary" [] [])
  else if String.eqb (ps_Name pass) "main" then inl []
  else match analyzedModule (ps_Path pass) root with
  | None => inl []
  | Some currentModule =>
    let imports := checkImports pass root currentModule (parseNameSet (fg_allow flags)) in
    if String.eqb (fg_dbschema flags) "" then inl imports
    else match loadSchemaTables pass root (fg_dbschema flags) (parseNameSet (fg_sqltables flags)) with
    | inr err => inr (Errorf "modboundary: failed to load schema: %w" [] [err])
    | inl schemaTables => inl (imports ++ checkTableReferences pass schemaTables currentModule)
    end
  end.
End analysis.

(** * What a glob matches *)

(** [r] matches exactly the texts in [P], whatever surrounds them. *)
Definition denotes (r : regex) (P : list Z → Prop) : Prop :=
  ∀ p q, M r p q ↔ ∃ u, p.2 = u ++ q.2 ∧ q.1 = prevOf p.1 u ∧ P u.*1.

Lemma prevOf_app prev u v : prevOf prev (u ++ v) = prevOf (prevOf prev u) v.
Proof. revert prev. induction u as [|x u IH]; intros prev; [done|]. by rewrite <- app_comm_cons, !prevOf_cons. Qed.

Lemma denotes_ext r (P Q : list Z → Prop) : denotes r P → (∀ w, P w ↔ Q w) → denotes r Q.
Proof. intros H HPQ p q. rewrite (H p q). by setoid_rewrite HPQ. Qed.
Lemma denotes_empty : denotes REmpty (λ w, w = []).
Proof.
  intros [prev t] [prev' t']. split.
  - inversion 1; subst. by exists [].
  - intros ([|x u] & H1 & H2 & H3); [|done]. simpl in *. subst. constructor.
Qed.
Lemma denotes_class c : denotes (RClass c) (λ w, ∃ x, w = [x] ∧ inClass c x = true).
Proof.
  intros [prev t] [prev' t']. split.
  - inversion 1; subst. exists [x]. split_and!; [done|done|]. by eexists.
  - intros ([|x [|y u]] & H1 & H2 & x' & Hx & Hc); try done. simpl in *. injection Hx as <-. subst. by constructor.
Qed.
Lemma denotes_cat r1 r2 P1 P2 : denotes r1 P1 → denotes r2 P2 → denotes (RCat r1 r2) (λ w, ∃ u v, w = u ++ v ∧ P1 u ∧ P2 v).
Proof.
  intros D1 D2 p q. split.
  - inversion 1 as [| |r r' p' m q' H1 H2| | | | | | | |]; subst. apply D1 in H1 as (u & E1 & F1 & G1). apply D2 in H2 as (v & E2 & F2 & G2).
    exists (u ++ v). split_and!; [by rewrite E1, E2, app_assoc|by rewrite F2, F1, prevOf_app|]. exists u.*1, v.*1. by rewrite fmap_app.
  - intros (w & E & F & u & v & Hw & Hu & Hv). apply fmap_app_inv in Hw as (u' & v' & -> & -> & ->).
    apply (M_cat _ _ _ (prevOf p.1 u', v' ++ q.2)).
    + apply D1. exists u'. by rewrite E, <- app_assoc.
    + apply D2. exists v'. split_and!; [done|by rewrite F, prevOf_app|done].
Qed.
Lemma denotes_alt r1 r2 P1 P2 : denotes r1 P1 → denotes r2 P2 → denotes (RAlt r1 r2) (λ w, P1 w ∨ P2 w).
Proof.
  intros D1 D2 p q. split.
  - inversion 1; subst; [destruct (proj1 (D1 p q)) as (u & ? & ? & ?)|destruct (proj1 (D2 p q)) as (u & ? & ? & ?)]; try done; exists u; auto.
  - intros (u & ? & ? & [?|?]); [apply M_left, D1|apply M_right, D2]; by exists u.
Qed.
Lemma denotes_star g c : denotes (RStar g (RClass c)) (λ w, Forall (λ x, inClass c x = true) w).
Proof.
  intros p q. split.
  - intros H. remember (RStar g (RClass c)) as r eqn:E. induction H as [| | | | |g' r' p|g' r' p m q H1 _ Hlt H2 IH| | | |]; try done; simplify_eq.
    + exists []. by split_and!; [| |constructor].
    + apply denotes_class in H1 as (u & E1 & F1 & x & Hx & Hc). destruct (IH eq_refl) as (v & E2 & F2 & G2).
      exists (u ++ v). split_and!; [by rewrite E1, E2, app_assoc|by rewrite F2, F1, prevOf_app|]. rewrite fmap_app, Hx. by constructor.
  - intros (u & E & F & G). revert p E F. induction u as [|x u IH]; intros [prev t] E F; simpl in *.
    + destruct q as [prev' t']. simpl in *. subst. constructor.
    + subst t. apply Forall_cons in G as [Gx Gu]. apply (M_more _ _ _ (Some x.1, u ++ q.2)); [by constructor|simpl; lia|]. apply IH; [done..|].
      by rewrite F, prevOf_cons.
Qed.

#[local] Open Scope Z_scope.

(** A segment of a pattern and a name. *)
Inductive SegM : list atom → list Z → Prop :=
| Sg_nil : SegM [] []
| Sg_star as' u w : Forall (λ c, c ≠ 47) u → SegM as' w → SegM (AStar :: as') (u ++ w)
| Sg_any as' c w : c ≠ 47 → SegM as' w → SegM (AAny :: as') (c :: w)
| Sg_lit as' c w : SegM as' w → SegM (ALit c :: as') (c :: w).

Lemma in_single c x : inClass (mkCls false false [(c, c)]) x = true ↔ x = c.
Proof. unfold inClass, inRanges. simpl. rewrite !orb_false_r. destruct (Z.leb_spec c x), (Z.leb_spec x c); simpl; split; try done; lia. Qed.
Lemma not_single c x : inClass (mkCls false true [(c, c)]) x = true ↔ x ≠ c.
Proof. unfold inClass, inRanges. simpl. rewrite !orb_false_r. destruct (Z.leb_spec c x), (Z.leb_spec x c); simpl; split; try done; lia. Qed.

Lemma denotes_slash : denotes slash (λ w, w = [47]).
Proof.
  eapply denotes_ext; [apply denotes_class|]. intros w. split.
  - intros (x & -> & Hx%in_single). by subst.
  - intros ->. exists 47. split; [done|]. by apply in_single.
Qed.
Lemma denotes_seg as' : denotes (segRegex as') (SegM as').
Proof.
  induction as' as [|a as' IH]; simpl.
  - eapply denotes_ext; [apply denotes_empty|]. intros w. split; [intros ->; constructor|by inversion 1].
  - destruct a as [| |c]; simpl.
    + eapply denotes_ext; [apply denotes_cat; [apply denotes_star|exact IH]|]. intros w. split.
      * intros (u & v & -> & Hu & Hv). constructor; [|done]. eapply Forall_impl; [exact Hu|]. intros x. apply not_single.
      * inversion 1 as [|as1 u v Hu Hv| |]; subst. exists u, v. split_and!; try done. eapply Forall_impl; [exact Hu|]. intros x. apply not_single.
    + eapply denotes_ext; [apply denotes_cat; [apply denotes_class|exact IH]|]. intros w. split.
      * intros (u & v & -> & (x & -> & Hx%not_single) & Hv). by constructor.
      * inversion 1 as [| |as1 x v Hx Hv|]; subst. exists [x], v. split_and!; try done. exists x. split; [done|]. by apply not_single.
    + eapply denotes_ext; [apply denotes_cat; [apply denotes_class|exact IH]|]. intros w. split.
      * intros (u & v & -> & (x & -> & ->%in_single) & Hv). by constructor.
      * inversion 1 as [| | |as1 x v Hv]; subst. exists [c], v. split_and!; try done. exists c. split; [done|]. by apply in_single.
Qed.
Lemma denotes_doubleStar : denotes doubleStar (λ w, w = [] ∨ ∃ u, w = u ++ [47] ∧ u ≠ [] ∧ Forall (λ c, c ≠ 10) u).
Proof.
  eapply denotes_ext; [apply denotes_alt; [apply denotes_cat; [apply denotes_cat; [apply denotes_class|apply denotes_star]|apply denotes_slash]|apply denotes_empty]|].
  intros w. split.
  - intros [(u & v & -> & (x & y & -> & (c & -> & Hc%not_single) & Hy) & ->)|?]; [|by left]. right. exists ([c] ++ y). split_and!; try done.
    constructor; [done|]. eapply Forall_impl; [exact Hy|]. intros ?. apply not_single.
  - intros [?|(u & -> & Hne & Hu)]; [by right|]. left. exists u, [47]. split_and!; try done. destruct u as [|c y]; [done|].
    apply Forall_cons in Hu as [Hc Hy]. exists [c], y. split_and!; try done.
    + exists c. split; [done|]. by apply not_single.
    + eapply Forall_impl; [exact Hy|]. intros ?. apply not_single.
Qed.

(** What is left of a text for the segments of a pattern. *)
Fixpoint TextM (segs : list string) (w : list Z) : Prop :=
  match segs with
  | [] => w = []
  | seg :: rest =>
    if String.eqb seg "**" then TextM rest w ∨ ∃ u v, w = u ++ 47 :: v ∧ u ≠ [] ∧ Forall (λ c, c ≠ 10) u ∧ TextM rest v
    else match rest with
    | [] => SegM (atoms seg) w
    | _ => ∃ u v, w = u ++ 47 :: v ∧ SegM (atoms seg) u ∧ TextM rest v
    end
  end.

Lemma M_split r1 r2 P p q : denotes r1 P → M (RCat r1 r2) p q ↔
  ∃ u t, p.2 = u ++ t ∧ P u.*1 ∧ M r2 (prevOf p.1 u, t) q.
Proof.
  intros D. split.
  - inversion 1 as [| |r r' p' [prev t] q' H1 H2| | | | | | | |]; subst. apply D in H1 as (u & E & F & G). simpl in *. exists u, t. by rewrite <- F.
  - intros (u & t & E & HP & H). eapply M_cat; [|exact H]. apply D. by exists u.
Qed.
Lemma M_end_iff p q : M REnd p q ↔ p.2 = [] ∧ q = p.
Proof. split; [by inversion 1|]. destruct p as [prev t]. simpl. intros [-> ->]. constructor. Qed.

(** A glob matches a text to its end when [TextM] holds. *)
Lemma pieces_text segs : ∀ p, (∃ q, M (globPieces segs) p q) ↔ TextM segs p.2.*1.
Proof.
  induction segs as [|seg rest IH]; intros p; simpl.
  - setoid_rewrite M_end_iff. split; [intros (q & -> & _); done|]. intros H%fmap_nil_inv. by exists p.
  - destruct (String.eqb seg "**").
    + setoid_rewrite (M_split _ _ _ _ _ denotes_doubleStar). split.
      * intros (q & u & t & -> & [Hu%fmap_nil_inv|(u' & Hu & Hne & Hnl)] & Hm).
        -- subst u. left. apply (proj1 (IH (prevOf p.1 [], t))). by exists q.
        -- right. exists u', t.*1. rewrite fmap_app, Hu, <- app_assoc. split_and!; try done. apply (proj1 (IH (prevOf p.1 u, t))). by exists q.
      * intros [H|(u & v & Hw & Hne & Hnl & H)].
        -- destruct (proj2 (IH (prevOf p.1 [], p.2)) H) as (q & Hq). exists q, [], p.2. split_and!; [done|by left|done].
        -- change (u ++ 47 :: v) with (u ++ [47] ++ v) in Hw. rewrite app_assoc in Hw.
           apply fmap_app_inv in Hw as (u' & v' & Hu & Hv & Hp). subst v. destruct (proj2 (IH (prevOf p.1 u', v')) H) as (q & Hq).
           exists q, u', v'. split_and!; [done| |done]. right. by exists u.
    + destruct rest as [|r rest].
      * setoid_rewrite (M_split _ _ _ _ _ (denotes_seg (atoms seg))). split.
        -- intros (q & u & t & -> & Hu & [Ht _]%M_end_iff). simpl in Ht. subst t. by rewrite app_nil_r.
        -- intros H. exists (prevOf p.1 p.2, []), p.2, []. rewrite app_nil_r. split_and!; [done|done|]. by apply M_end_iff.
      * setoid_rewrite (M_split _ _ _ _ _ (denotes_seg (atoms seg))). setoid_rewrite (M_split _ _ _ _ _ denotes_slash). split.
        -- intros (q & u & t & -> & Hu & s & t' & Ht & Hs & Hm). simpl in Ht, Hm. subst t. exists u.*1, t'.*1. rewrite !fmap_app, Hs.
           split_and!; try done. apply (proj1 (IH (prevOf (prevOf p.1 u) s, t'))). by exists q.
        -- intros (u & v & Hw & Hu & H). change (u ++ 47 :: v) with (u ++ [47] ++ v) in Hw.
           apply fmap_app_inv in Hw as (u' & sv & -> & Hsv & Hp). symmetry in Hsv. apply fmap_app_inv in Hsv as (s & v' & Hs & -> & ->).
           destruct (proj2 (IH (prevOf (prevOf p.1 u') s, v')) H) as (q & Hq). exists q, u', (s ++ v'). split_and!; try done.
           by exists s, v'.
Qed.

(** ** Paths as lists of names *)

Fixpoint splitZ (w : list Z) : list (list Z) :=
  match w with
  | [] => [[]]
  | c :: w => if c =? 47 then [] :: splitZ w else match splitZ w with n :: ns => (c :: n) :: ns | [] => [[c]] end
  end.
Fixpoint joinZ (ns : list (list Z)) : list Z :=
  match ns with [] => [] | [n] => n | n :: ns => n ++ 47 :: joinZ ns end.
Lemma join_split w : joinZ (splitZ w) = w ∧ splitZ w ≠ [] ∧ Forall (λ n, 47 ∉ n) (splitZ w).
Proof.
  induction w as [|c w (IH1 & IH2 & IH3)]; simpl; [split_and!; [done|done|repeat constructor; by intros ?%not_elem_of_nil]|].
  destruct (Z.eqb_spec c 47) as [->|Hc].
  - split_and!; [|done|constructor; [by intros ?%not_elem_of_nil|done]]. destruct (splitZ w) as [|n ns] eqn:E; [done|]. by rewrite <- IH1.
  - destruct (splitZ w) as [|n ns]; [done|]. apply Forall_cons in IH3 as [Hn Hns]. split_and!; [|done|].
    + rewrite <- IH1. by destruct ns.
    + constructor; [|done]. rewrite elem_of_cons. by intros [?|?].
Qed.

(** Where a path is cut at a slash, its list of names is cut. *)
Lemma joinZ_cut ns : ∀ u v, Forall (λ n, 47 ∉ n) ns → joinZ ns = u ++ 47 :: v →
  ∃ a b, ns = a ++ b ∧ a ≠ [] ∧ b ≠ [] ∧ u = joinZ a ∧ v = joinZ b.
Proof.
  induction ns as [|n [|m ns] IH]; intros u v Hns H.
  - by destruct u.
  - simpl in H. apply Forall_cons in Hns as [Hn _]. destruct Hn. rewrite H, elem_of_app, elem_of_cons. auto.
  - apply Forall_cons in Hns as [Hn Hns]. change (joinZ (n :: m :: ns)) with (n ++ 47 :: joinZ (m :: ns)) in H.
    assert (u = n ∧ v = joinZ (m :: ns) ∨ ∃ u', u = n ++ 47 :: u') as [[-> ->]|[u' ->]].
    { clear IH Hns. revert u H. generalize (joinZ (m :: ns)) as X. intros X.
      induction n as [|c n IHn]; intros [|d u] H; simpl in H.
      - injection H as ->. by left.
      - injection H as <- _. right. by exists u.
      - injection H as -> _. destruct Hn. by left.
      - injection H as -> Ht. destruct (IHn (λ Hin, Hn (list_elem_of_further _ _ _ Hin)) u Ht) as [[-> ->]|[u' ->]]; [by left|]. right. by exists u'. }
    + exists [n], (m :: ns). by split_and!.
    + rewrite <- app_assoc in H. apply app_inv_head in H. simpl in H. injection H as H.
      destruct (IH u' v Hns H) as (a & b & E & Ha & Hb & -> & ->). exists (n :: a), b. rewrite E. split_and!; try done.
      destruct a; done.
Qed.
Lemma joinZ_app a b : a ≠ [] → b ≠ [] → joinZ (a ++ b) = joinZ a ++ 47 :: joinZ b.
Proof.
  intros Ha Hb. induction a as [|n a IH]; [done|]. destruct a as [|m a]; [by destruct b|].
  change (joinZ (n :: m :: a)) with (n ++ 47 :: joinZ (m :: a)). change (joinZ ((n :: m :: a) ++ b)) with (n ++ 47 :: joinZ ((m :: a) ++ b)).
  rewrite IH by done. by rewrite <- app_assoc.
Qed.
Lemma joinZ_ne ns : ns ≠ [] → Forall (λ n, n ≠ []) ns → joinZ ns ≠ [].
Proof. intros Hne H. destruct ns as [|n [|m ns]]; [done| |]; apply Forall_cons in H as [Hn _]; [done|]. by destruct n. Qed.
Lemma joinZ_forall (P : Z → Prop) ns : P 47 → Forall (Forall P) ns → Forall P (joinZ ns).
Proof.
  intros H47. induction 1 as [|n ns Hn Hns IH]; [constructor|]. destruct ns as [|m ns]; [done|].
  apply Forall_app. split; [done|]. by constructor.
Qed.

(** What a pattern matches: a double star that is not the last segment stands for
    any number of names. *)
Inductive GlobM : list string → list (list Z) → Prop :=
| G_last seg n : seg ≠ "**" → SegM (atoms seg) n → GlobM [seg] [n]
| G_seg seg segs n ns : seg ≠ "**" → SegM (atoms seg) n → GlobM segs ns → GlobM (seg :: segs) (n :: ns)
| G_any segs skipped ns : GlobM segs ns → GlobM ("**" :: segs) (skipped ++ ns).

Lemma GlobM_ne segs ns : GlobM segs ns → segs ≠ [] ∧ ns ≠ [].
Proof. induction 1 as [| |segs skipped ns H [IH1 IH2]]; split; try done. by intros [_ ?]%app_nil. Qed.

Lemma SegM_slash as' w : SegM as' w → ALit 47 ∉ as' → 47 ∉ w.
Proof.
  induction 1 as [|as' u w Hu H IH|as' c w Hc H IH|as' c w H IH]; rewrite ?elem_of_cons, ?elem_of_app; intros Hn.
  - by apply not_elem_of_nil.
  - intros [Hin|?]; [|naive_solver]. rewrite Forall_forall in Hu. by apply (Hu 47).
  - naive_solver.
  - intros [<-|?]; naive_solver.
Qed.
Lemma atoms_slash seg : noslash seg → ALit 47 ∉ atoms seg.
Proof.
  intros Hs ([c e] & Hx & Hin)%list_elem_of_fmap. assert (c = 47) as -> by (unfold atomOf in Hx; simpl in Hx; repeat case_match; naive_solver).
  pose proof (decode_ok seg) as Hok. rewrite Forall_forall in Hok. specialize (Hok _ Hin ltac:(simpl; lia)). simpl in Hok.
  apply list_elem_of_split in Hin as (l & r & Hd).
  pose proof (bytes_decode seg) as Hb. rewrite Hd, bytes_app in Hb. simpl in Hb. rewrite Hok in Hb. unfold noslash in Hs. rewrite <- Hb in Hs.
  revert Hs. generalize (bytes l), (bytes r). intros a b Hs. change (splitSlash (a +:+ String "/" b) = [a +:+ String "/" b]) in Hs.
  assert (2 ≤ length (splitSlash (a +:+ String "/" b)))%nat as H; [|rewrite Hs in H; simpl in H; lia].
  clear Hs. induction a as [|c a IH]; simpl; [pose proof (splitSlash_ne b); destruct (splitSlash b); [done|simpl; lia]|].
  destruct (Ascii.eqb c "/"); simpl; [lia|]. change (a +:+ String "/" b) with (String.append a (String "/" b)) in IH.
  destruct (splitSlash (String.append a (String "/" b))); simpl in *; lia.
Qed.

Definition goodName (n : list Z) : Prop := n ≠ [] ∧ (47 ∉ n) ∧ (10 ∉ n).

Lemma good_join ns : Forall goodName ns → Forall (λ c, c ≠ 10) (joinZ ns).
Proof.
  intros H. apply joinZ_forall; [done|]. eapply Forall_impl; [exact H|]. intros n (_ & _ & Hn). apply Forall_forall. by intros c Hc ->.
Qed.
Lemma good_slash ns : Forall goodName ns → Forall (λ n, 47 ∉ n) ns.
Proof. intros H. eapply Forall_impl; [exact H|]. by intros n (_ & ? & _). Qed.
Lemma good_ne ns : Forall goodName ns → ns ≠ [] → joinZ ns ≠ [].
Proof. intros H Hne. apply joinZ_ne; [done|]. eapply Forall_impl; [exact H|]. by intros n (? & _). Qed.

(** On a path the texts left for the segments are lists of names. *)
Lemma text_glob segs : ∀ ns, segs ≠ [] → Forall noslash segs → ns ≠ [] → Forall goodName ns → TextM segs (joinZ ns) ↔ GlobM segs ns.
Proof.
  induction segs as [|seg rest IH]; intros ns Hne Hs Hns Hg; [done|]. apply Forall_cons in Hs as [Hseg Hrest]. clear Hne. simpl.
  assert (∀ w, SegM (atoms seg) w → 47 ∉ w) as Hsl by (intros w Hw; eapply SegM_slash; [exact Hw|by apply atoms_slash]).
  destruct (String.eqb_spec seg "**") as [->|Hd].
  - split.
    + intros [H|(u & v & E & Hu & Hnl & H)].
      * destruct rest as [|r rest]; [simpl in H; by apply good_ne in H|]. apply (G_any (r :: rest) [] ns). by apply IH.
      * apply joinZ_cut in E as (a & b & -> & Ha & Hb & -> & ->); [|by apply good_slash].
        apply Forall_app in Hg as [Hga Hgb]. destruct rest as [|r rest]; [simpl in H; by apply good_ne in H|].
        apply G_any. by apply IH.
    + inversion 1 as [|seg' segs n ns' Hbad|segs skipped ns' HG]; subst; [done..|]. apply Forall_app in Hg as [Hga Hgb].
      destruct (GlobM_ne _ _ HG) as [Hr Hn]. apply IH in HG; [|done..]. destruct skipped as [|n sk]; [by left|].
      right. exists (joinZ (n :: sk)), (joinZ ns'). split_and!; [by apply joinZ_app|by apply good_ne|by apply good_join|done].
  - destruct rest as [|r rest].
    + split.
      * intros H. pose proof (Hsl _ H) as Hno. destruct ns as [|n [|m ns]]; [done|by apply G_last|]. destruct Hno.
        simpl. rewrite elem_of_app, elem_of_cons. auto.
      * inversion 1 as [seg' n Hx Hm|seg' segs n ns' Hx Hm HG|]; subst; [done| |done]. by destruct (GlobM_ne _ _ HG).
    + split.
      * intros (u & v & E & Hu & H). apply joinZ_cut in E as (a & b & -> & Ha & Hb & -> & ->); [|by apply good_slash].
        pose proof (Hsl _ Hu) as Hno. destruct a as [|n [|m a]]; [done| |].
        -- apply Forall_cons in Hg as [_ Hg]. apply (G_seg seg (r :: rest) n b); [done|done|]. by apply IH.
        -- destruct Hno. simpl. rewrite elem_of_app, elem_of_cons. auto.
      * inversion 1 as [|seg' segs n ns' Hx Hm HG|]; subst; [|done]. apply Forall_cons in Hg as [_ Hg].
        destruct (GlobM_ne _ _ HG) as [Hr Hn]. exists n, (joinZ ns'). split_and!; [by destruct ns'|done|]. by apply IH.
Qed.

(** The expression and [GlobM]. *)
Lemma glob_text pattern path : Forall goodName (splitZ (decode path).*1) →
  MatchString (globToRegexp pattern) path = true ↔ GlobM (splitSlash pattern) (splitZ (decode path).*1).
Proof.
  intros Hg. destruct (join_split (decode path).*1) as (Hj & Hne & _).
  rewrite <- (text_glob _ _ (splitSlash_ne pattern) (splitSlash_noslash pattern) Hne Hg), Hj, MatchString_spec.
  unfold globToRegexp. split.
  - intros (pre & t & q & Hd & Hm). pose proof (begins_anchored (RCat RBegin (globPieces (splitSlash pattern))) _ _ eq_refl Hm) as Hpre. simpl in Hpre.
    assert (pre = []) as -> by (unfold prevOf in Hpre; destruct pre as [|x pre] using rev_ind; [done|by rewrite last_snoc in Hpre]).
    simpl in Hd. subst t. inversion Hm as [| |r r' p' m q' H1 H2| | | | | | | |]; subst. inversion H1; subst.
    apply (proj1 (pieces_text (splitSlash pattern) (None, decode path))). by exists q.
  - intros H. destruct (proj2 (pieces_text (splitSlash pattern) (None, decode path)) H) as (q & Hq).
    exists [], (decode path), q. split; [done|]. eapply M_cat; [apply M_begin|exact Hq].
Qed.

(** What a pattern is documented to mean: its segments match the names one by one,
    a double star standing for zero or more entire names, wherever it is. *)
Inductive GlobDoc : list string → list (list Z) → Prop :=
| D_nil : GlobDoc [] []
| D_seg seg segs n ns : seg ≠ "**" → SegM (atoms seg) n → GlobDoc segs ns → GlobDoc (seg :: segs) (n :: ns)
| D_any segs skipped ns : GlobDoc segs ns → GlobDoc ("**" :: segs) (skipped ++ ns).

Lemma GlobM_doc segs ns : segs ≠ [] → GlobM segs ns ↔ GlobDoc segs ns ∧ List.last segs "" ≠ "**".
Proof.
  intros Hne. split; [clear Hne|].
  - induction 1 as [seg n Hd Hm|seg segs n ns Hd Hm HG [IH1 IH2]|segs skipped ns HG [IH1 IH2]].
    + split; [|done]. apply D_seg; [done..|constructor].
    + split; [by apply D_seg|]. destruct (GlobM_ne _ _ HG). by destruct segs.
    + split; [by apply D_any|]. destruct (GlobM_ne _ _ HG). by destruct segs.
  - intros [HG Hl]. induction HG as [|seg segs n ns Hd Hm HG IH|segs skipped ns HG IH]; [done|..];
      destruct segs as [|seg2 segs]; [|by apply G_seg, IH| |by apply G_any, IH]; [|done]. inversion HG; subst. by apply G_last.
Qed.


(** The paths that [orders/**] is documented to match are not matched. *)
Lemma trailing_double_star : MatchString (globToRegexp "orders/**") "orders/migrations/1.sql" = false ∧
  MatchString (globToRegexp "orders/**") "orders/1.sql" = false.
Proof. split; vm_compute; reflexivity. Qed.

(** * Imports are checked exactly *)

Lemma noslash_cons a s : noslash (String a s) ↔ a ≠ "/"%char ∧ noslash s.
Proof.
  unfold noslash. simpl. destruct (Ascii.eqb_spec a "/") as [->|Ha].
  - split; [|by intros [? _]]. intros [= E _].
  - pose proof (splitSlash_ne s). destruct (splitSlash s) as [|w ws]; [done|]. split; [intros [= -> ->]; by split|]. by intros [_ [= -> ->]].
Qed.
Lemma cutSlash_Some s u v : cutSlash s = Some (u, v) ↔ s = u +:+ "/" +:+ v ∧ noslash u.
Proof.
  revert u. induction s as [|a s IH]; intros u; simpl.
  - split; [done|]. intros [H _]. by destruct u.
  - destruct (Ascii.eqb_spec a "/") as [->|Ha].
    + split; [intros [= <- <-]; by split|]. intros [H Hn]. destruct u as [|b u]; [by injection H as ->|].
      injection H as <- _. by apply noslash_cons in Hn as [? _].
    + destruct (cutSlash s) as [[u' v']|] eqn:E.
      * split.
        -- intros [= <- <-]. destruct (proj1 (IH u')) as [-> Hn]; [done|]. split; [done|]. by apply noslash_cons.
        -- intros [H Hn]. destruct u as [|b u]; [by injection H as -> _|]. injection H as -> Hs. apply noslash_cons in Hn as [_ Hn].
           assert (Some (u', v') = Some (u, v)) as [= -> ->]; [|done]. by apply IH.
      * split; [done|]. intros [H Hn]. destruct u as [|b u]; [by injection H as -> _|]. injection H as -> Hs.
        apply noslash_cons in Hn as [_ Hn]. assert (None = Some (u, v)) as [=]. by apply IH.
Qed.
Lemma cutSlash_None s : cutSlash s = None ↔ noslash s.
Proof.
  induction s as [|a s IH]; [done|]. rewrite noslash_cons. simpl. destruct (Ascii.eqb_spec a "/") as [->|Ha]; [split; [done|by intros [? _]]|].
  rewrite <- IH. destruct (cutSlash s) as [[u v]|]; naive_solver.
Qed.
Lemma CutPrefix_Some s p r : CutPrefix s p = Some r ↔ s = p +:+ r.
Proof.
  split; [|intros ->; apply CutPrefix_app]. intros H. assert (HasPrefix s p = true) as [b ->]%prefix_str.
  { unfold CutPrefix in H. by destruct (HasPrefix s p). }
  rewrite CutPrefix_app in H. by injection H as ->.
Qed.

(** A package below the root belongs to the directory right below it. *)
Definition inModule (root m path : string) : Prop :=
  noslash m ∧ (path = root +:+ "/" +:+ m ∨ ∃ rest, path = root +:+ "/" +:+ m +:+ "/" +:+ rest).
Lemma below_inj root a b : root +:+ "/" +:+ a = root +:+ "/" +:+ b → a = b.
Proof. intros H. apply (inj (String.append root)), (inj (String.append "/")) in H. done. Qed.
Lemma moduleOf_spec path root m : moduleOf path root = Some m ↔ inModule root m path.
Proof.
  unfold moduleOf, inModule. destruct (String.eqb_spec path root) as [->|Hne].
  - split; [done|]. intros [_ [H|[rest H]]]; by apply string_app_ne in H.
  - destruct (CutPrefix path (root +:+ "/")) as [rest|] eqn:E.
    + apply CutPrefix_Some in E as ->. rewrite !str_app_assoc. destruct (cutSlash rest) as [[u v]|] eqn:Ec.
      * apply cutSlash_Some in Ec as [-> Hu]. split.
        -- intros [= <-]. split; [done|]. right. by exists v.
        -- intros [Hm [H|[w H]]].
           ++ apply below_inj in H. exfalso.
              assert (cutSlash m = None) as Hc by (by apply cutSlash_None). subst m.
              assert (cutSlash (u +:+ "/" +:+ v) = Some (u, v)) as Hc' by (by apply cutSlash_Some). congruence.
           ++ apply below_inj in H.
              assert (cutSlash (u +:+ "/" +:+ v) = Some (u, v)) as Hc by (by apply cutSlash_Some).
              assert (cutSlash (m +:+ "/" +:+ w) = Some (m, w)) as Hc' by (by apply cutSlash_Some). rewrite H in Hc. congruence.
      * apply cutSlash_None in Ec as Hr. split; [intros [= <-]; auto|].
        intros [Hm [H|[w H]]]; apply below_inj in H as ->; [done|].
        assert (cutSlash (m +:+ "/" +:+ w) = Some (m, w)) as Hc' by (by apply cutSlash_Some). congruence.
    + split; [done|]. intros [_ H]. exfalso.
      assert (∃ r, path = (root +:+ "/") +:+ r) as [r Hr] by (destruct H as [->|[rest ->]]; eexists; by rewrite str_app_assoc).
      apply CutPrefix_Some in Hr. congruence.
Qed.

(** The analyzer reports exactly the imports of another module's packages,
    where the last element of the path is not an allowed one; packages outside
    the root, [main] packages and synthesized test mains are not checked. *)
Theorem import_boundary_exact toLower walk readFile root allow sqltables pass d : root ≠ "" → HasSuffix root "/" = false →
  (∃ ds, run toLower walk readFile (mkFlags root allow "" sqltables) pass = inl ds ∧ d ∈ ds) ↔
  ps_Name pass ≠ "main" ∧
  ∃ own f path raw, inModule root own (ps_Path pass) ∧ HasSuffix own ".test" = false ∧
    f ∈ ps_Files pass ∧ Some path ∈ fl_Imports f ∧ inModule root raw path ∧
    normalizeTestModule raw ≠ normalizeTestModule own ∧ (lastSegment path ∉ parseNameSet allow) ∧
    d = DImport (ps_Path pass) (normalizeTestModule own) path (normalizeTestModule raw) (sort_Strings (elements (parseNameSet allow))).
Proof.
  intros Hroot Hslash. unfold run. simpl. assert (TrimSuffix root "/" = root) as -> by (unfold TrimSuffix; by rewrite Hslash).
  destruct (String.eqb_spec root ""); [done|]. destruct (String.eqb_spec (ps_Name pass) "main") as [Hm|Hm].
  { split; [intros (ds & [= <-] & []%not_elem_of_nil)|by intros [? _]]. }
  unfold analyzedModule. destruct (moduleOf (ps_Path pass) root) as [own|] eqn:Eown.
  - pose proof (proj1 (moduleOf_spec _ _ _) Eown) as Hown. destruct (HasSuffix own ".test") eqn:Et.
    { split; [intros (ds & [= <-] & []%not_elem_of_nil)|]. intros (_ & own' & f & path & raw & Ho & Ht & _).
      apply moduleOf_spec in Ho. congruence. }
    setoid_rewrite (inj_iff inl). split.
    + intros (ds & <- & Hd). split; [done|]. unfold checkImports in Hd. apply list_elem_of_bind in Hd as (f & Hd & Hf).
      apply list_elem_of_bind in Hd as (imp & Hd & Himp). unfold checkImport in Hd. destruct imp as [path|]; [|by apply not_elem_of_nil in Hd].
      destruct (moduleOf path root) as [raw|] eqn:Eraw; [|by apply not_elem_of_nil in Hd].
      destruct (String.eqb_spec (normalizeTestModule raw) (normalizeTestModule own)) as [|Hne]; [by apply not_elem_of_nil in Hd|].
      case_bool_decide as Ha; [by apply not_elem_of_nil in Hd|]. apply list_elem_of_singleton in Hd.
      exists own, f, path, raw. split_and!; try done. by apply moduleOf_spec.
    + intros (_ & own' & f & path & raw & Ho & _ & Hf & Hp & Hraw & Hne & Ha & ->). eexists. split; [reflexivity|].
      apply moduleOf_spec in Ho, Hraw. assert (own' = own) as -> by congruence. unfold checkImports.
      apply list_elem_of_bind. exists f. split; [|done]. apply list_elem_of_bind. exists (Some path). split; [|done].
      unfold checkImport. rewrite Hraw. destruct (String.eqb_spec (normalizeTestModule raw) (normalizeTestModule own)); [done|].
      rewrite bool_decide_false by done. apply list_elem_of_here.
  - split; [intros (ds & [= <-] & []%not_elem_of_nil)|]. intros (_ & own' & f & path & raw & Ho & _). apply moduleOf_spec in Ho. congruence.
Qed.

Definition demoPass (imports : list string) : Pass :=
  mkPass "orders" "example.com/app/modules/orders" [mkFile (Some <$> imports) [] []] None.
Lemma import_boundary_exact_witness :
  let flags := mkFlags "example.com/app/modules" "ports" "" "" in
  let pass := demoPass ["example.com/app/modules/billing/ports"; "example.com/app/modules/billing/service"] in
  ps_Name pass ≠ "main" ∧
  run id (λ _, inl []) (λ _, None) flags pass =
    inl [DImport "example.com/app/modules/orders" "orders" "example.com/app/modules/billing/service" "billing" ["ports"]].
Proof.
  intros flags pass.
  assert (run id (λ _, inl []) (λ _, None) flags pass =
    inl [DImport "example.com/app/modules/orders" "orders" "example.com/app/modules/billing/service" "billing" ["ports"]]) as H
    by (vm_compute; reflexivity).
  split; [|exact H].
  apply (import_boundary_exact id (λ _, inl []) (λ _, None) "example.com/app/modules" "ports" "" pass
    (DImport "example.com/app/modules/orders" "orders" "example.com/app/modules/billing/service" "billing" ["ports"]));
    [discriminate|reflexivity|]. eexists. split; [exact H|]. left.
Defined.

(** * Tables *)

Definition tablesIn (data : string) : list string := (λ m, tableName (m 2%nat)) <$> FindAllSubmatch createStatementRE data.
(** The names found in the usual forms of a statement: with [IF NOT EXISTS] the
    word IF, and without a space before the parenthesis the first column too. *)
Lemma create_statements :
  tablesIn "CREATE TABLE orders (id int); create view v AS SELECT" = ["orders"; "v"] ∧
  tablesIn "CREATE TABLE IF NOT EXISTS orders (id int);" = ["IF"] ∧
  tablesIn "CREATE TABLE orders(id int);" = ["orders(id"].
Proof. split_and!; vm_compute; reflexivity. Qed.
(** The owner of a table is the first module that creates it. *)
Lemma addTable_owner module allowed tables name t owner : tables !! t = Some owner → addTable module allowed tables name !! t = Some owner.
Proof.
  intros H. unfold addTable. destruct (_ || _); [done|]. destruct (tables !! name) as [o|] eqn:E.
  - destruct (String.eqb_spec o module) as [->|]; [|done]. destruct (decide (name = t)) as [->|]; [|by rewrite lookup_insert_ne].
    rewrite lookup_insert_eq. congruence.
  - by rewrite lookup_insert_ne by congruence.
Qed.
Lemma addTables_owner allowed tables rel data t owner : tables !! t = Some owner → addTablesFromFile allowed tables rel data !! t = Some owner.
Proof.
  intros H. unfold addTablesFromFile. destruct data as [data|]; [|done]. revert tables H.
  induction ((λ m, tableName (m 2%nat)) <$> FindAllSubmatch createStatementRE data) as [|n ns IH]; intros tables H; simpl; [done|].
  by apply IH, addTable_owner.
Qed.
