(* ===== verification/RateLimit.v ===== *)
(** The per-installation rate limiter (src/services/prreview/ratelimit).

    [Allow] is one critical section, so it is a function of the limiter and
    the clock it reads; [time.Time.Sub] saturates at the bounds of a 64-bit
    duration. *)

From stdpp Require Import base gmap list sorting.
From S2P Require Import Prelude.

Definition maxDuration : Z := 2 ^ 63 - 1.
Definition minDuration : Z := - 2 ^ 63.
(** [t.Sub(u)]. *)
Definition Sub (t u : Z) : Z := Z.max minDuration (Z.min maxDuration (t - u)).

Record windowCount := mkWindow { windowStart : Z; count : Z }.
Record Limiter := mkLimiter {
  limit : Z; window : Z; counts : gmap Z windowCount; lastSweep : Z }.

(** The zero [time.Time], in nanoseconds since the Unix epoch. *)
Definition zeroTime : Z := -62135596800 * 1000000000.
Definition New (limit window : Z) : Limiter := mkLimiter limit window ∅ zeroTime.

Definition sweepLocked (now : Z) (l : Limiter) : Limiter :=
  if (Sub now (lastSweep l) <? window l)%Z then l
  else mkLimiter (limit l) (window l)
         (filter (λ kw, (Sub now (windowStart kw.2) < window l)%Z) (counts l)) now.

(** The entry [Allow] counts in: a fresh window if there is none or it ended. *)
Definition current (now window : Z) (wc : option windowCount) : windowCount :=
  match wc with
  | Some wc => if (window <=? Sub now (windowStart wc))%Z then mkWindow now 0 else wc
  | None => mkWindow now 0
  end.

Definition Allow (installationID : Z) (now : Z) (l : Limiter) : bool * Limiter :=
  if (limit l <=? 0)%Z then (true, l)
  else
    let l := sweepLocked now l in
    let wc := current now (window l) (counts l !! installationID) in
    if (limit l <=? count wc)%Z then
      (false, mkLimiter (limit l) (window l) (<[installationID := wc]> (counts l)) (lastSweep l))
    else
      (true, mkLimiter (limit l) (window l)
               (<[installationID := mkWindow (windowStart wc) (count wc + 1)]> (counts l)) (lastSweep l)).

(** A sequence of calls, each with its installation and clock reading. *)
Fixpoint runCalls (calls : list (Z * Z)) (l : Limiter) : list bool :=
  match calls with
  | [] => []
  | (id, now) :: calls => let r := Allow id now l in r.1 :: runCalls calls r.2
  end.

(** * One installation alone *)

(** The reference: one window, no map, no sweep. *)
Definition allow1 (lim win now : Z) (wc : option windowCount) : bool * option windowCount :=
  if (lim <=? 0)%Z then (true, wc)
  else
    let wc := current now win wc in
    if (lim <=? count wc)%Z then (false, Some wc)
    else (true, Some (mkWindow (windowStart wc) (count wc + 1))).

Fixpoint run1 (lim win : Z) (times : list Z) (wc : option windowCount) : list bool :=
  match times with
  | [] => []
  | now :: times => let r := allow1 lim win now wc in r.1 :: run1 lim win times r.2
  end.

(** Two entries the limiter cannot tell apart from [now] on: equal, or each
    absent or ended. *)
Definition ended (win now : Z) (wc : option windowCount) : Prop :=
  match wc with Some wc => (win ≤ Sub now (windowStart wc))%Z | None => True end.
Definition same_from (win now : Z) (a b : option windowCount) : Prop :=
  a = b ∨ (ended win now a ∧ ended win now b).

Lemma Sub_mono t t' u : (t ≤ t')%Z → (Sub t u ≤ Sub t' u)%Z.
Proof. unfold Sub. lia. Qed.

Lemma ended_mono win t t' wc : (t ≤ t')%Z → ended win t wc → ended win t' wc.
Proof. destruct wc as [wc|]; simpl; [|done]. intros Ht H. pose proof (Sub_mono _ _ (windowStart wc) Ht). lia. Qed.

Lemma same_from_mono win t t' a b : (t ≤ t')%Z → same_from win t a b → same_from win t' a b.
Proof. intros Ht [->|[? ?]]; [by left|right]. split; by eapply ended_mono. Qed.

Lemma same_from_trans win t a b c : same_from win t a b → same_from win t b c → same_from win t a c.
Proof. intros [->|[? ?]] [->|[? ?]]; unfold same_from; auto. Qed.

Lemma current_ended win now wc : ended win now wc → current now win wc = mkWindow now 0.
Proof. destruct wc as [wc|]; simpl; [|done]. intros H. by rewrite (proj2 (Z.leb_le _ _) H). Qed.

Lemma current_same win now a b : same_from win now a b → current now win a = current now win b.
Proof. intros [->|[Ha Hb]]; [done|]. by rewrite !current_ended. Qed.

Lemma sweep_same now l id :
  limit (sweepLocked now l) = limit l ∧ window (sweepLocked now l) = window l ∧
  same_from (window l) now (counts (sweepLocked now l) !! id) (counts l !! id).
Proof.
  unfold sweepLocked. destruct (_ <? _)%Z; [split_and!; [done|done|by left]|].
  split_and!; [done|done|]. simpl.
  destruct (counts l !! id) as [wc|] eqn:E.
  - destruct (decide (Sub now (windowStart wc) < window l)%Z) as [Hlt|Hge].
    + left. by apply map_lookup_filter_Some.
    + right. split; simpl; [|lia]. rewrite (proj2 (map_lookup_filter_None _ _ _)); [done|].
      right. intros x Hx. rewrite E in Hx. by simplify_eq.
  - left. apply map_lookup_filter_None. by left.
Qed.

Lemma Allow_spec id now l :
  let r := Allow id now l in
  let s := allow1 (limit l) (window l) now (counts (sweepLocked now l) !! id) in
  r.1 = s.1 ∧ limit r.2 = limit l ∧ window r.2 = window l ∧
  ((0 < limit l)%Z → counts r.2 !! id = s.2) ∧
  (∀ id', id' ≠ id → same_from (window l) now (counts r.2 !! id') (counts l !! id')).
Proof.
  intros r s. unfold r, s, Allow, allow1. destruct (limit l <=? 0)%Z eqn:E.
  { split_and!; try done; [intros; lia|]. by left. }
  destruct (sweep_same now l id) as (Hl & Hw & _). rewrite Hl, Hw.
  destruct (limit l <=? count _)%Z; simpl; rewrite lookup_insert_eq; split_and!; try done.
  all: intros id' Hne; rewrite lookup_insert_ne by done; apply sweep_same.
Qed.

Lemma allow1_same lim win now a b : same_from win now a b → (0 < lim)%Z →
  allow1 lim win now a = allow1 lim win now b.
Proof. intros H Hl. unfold allow1. rewrite (proj2 (Z.leb_gt lim 0)) by lia. by rewrite (current_same _ _ _ _ H). Qed.

(** The calls of one installation. *)
Definition callsOf (id : Z) (calls : list (Z * Z)) : list Z :=
  snd <$> filter (λ c, c.1 = id) calls.
Fixpoint resultsOf (id : Z) (calls : list (Z * Z)) (rs : list bool) : list bool :=
  match calls, rs with
  | c :: calls, r :: rs => if decide (c.1 = id) then r :: resultsOf id calls rs else resultsOf id calls rs
  | _, _ => []
  end.

(** Clock readings do not go back. *)
Definition monotone (times : list Z) : Prop := StronglySorted Z.le times.

Lemma runCalls_isolated id calls l wc :
  (0 < limit l)%Z → monotone (snd <$> calls) →
  (∀ now, now ∈ snd <$> calls → same_from (window l) now (counts l !! id) wc) →
  resultsOf id calls (runCalls calls l) = run1 (limit l) (window l) (callsOf id calls) wc.
Proof.
  revert l wc. induction calls as [|[id' now] calls IH]; intros l wc Hlim Hmono Hsame; simpl; [done|].
  inversion Hmono as [|? ? Hm Hle]; subst. rewrite Forall_forall in Hle.
  assert (same_from (window l) now (counts l !! id) wc) as Hnow by (apply Hsame; by left).
  pose proof (Allow_spec id' now l) as (Hr & Hl & Hw & Hid & Hothers). simpl in *.
  unfold callsOf. simpl. destruct (decide (id' = id)) as [->|Hne].
  - rewrite filter_cons_True by done. simpl.
    rewrite (allow1_same _ _ _ (counts (sweepLocked now l) !! id) wc) in Hr, Hid;
      [|eapply same_from_trans; [apply sweep_same|done]|done|eapply same_from_trans; [apply sweep_same|done]|done].
    rewrite Hr. f_equal. rewrite <-Hl, <-Hw. apply IH; [by rewrite Hl|done|].
    intros t Ht. left. rewrite Hid by done. by rewrite Hl, Hw.
  - rewrite filter_cons_False by done. rewrite <-Hl, <-Hw. apply IH; [by rewrite Hl|done|].
    intros t Ht. rewrite Hw. eapply same_from_trans.
    + eapply same_from_mono; [apply Hle; exact Ht|]. by apply Hothers.
    + eapply same_from_mono; [apply Hle; exact Ht|done].
Qed.

(** * The bound *)

(** Accepted calls with a clock reading in [[t, t + win)]. *)
Fixpoint acceptedIn (t win : Z) (times : list Z) (rs : list bool) : Z :=
  match times, rs with
  | now :: times, r :: rs =>
    (if r && (t <=? now)%Z && (now <? t + win)%Z then 1 else 0) + acceptedIn t win times rs
  | _, _ => 0
  end.

Lemma acceptedIn_late t win times rs :
  Forall (λ now, (t + win ≤ now)%Z) times → acceptedIn t win times rs = 0%Z.
Proof.
  intros H. revert rs. induction H as [|now times Hnow _ IH]; intros [|r rs]; simpl; try done.
  rewrite IH. rewrite (proj2 (Z.ltb_ge now (t + win))) by done. by rewrite andb_false_r.
Qed.

Section Bound.
Context (lim win t : Z) (Hlim : (0 < lim)%Z) (Hwin : (0 ≤ win ≤ maxDuration)%Z).

Lemma Sub_win now s : (win <=? Sub now s)%Z = (win <=? now - s)%Z.
Proof using Hwin.
  clear Hlim. apply eq_true_iff_eq. rewrite !Z.leb_le. unfold Sub, minDuration, maxDuration in *. lia.
Qed.

(** What a call does to a window. *)
Lemma allow1_window now s c :
  allow1 lim win now (Some (mkWindow s c)) =
  if (win <=? now - s)%Z then (true, Some (mkWindow now 1))
  else if (lim <=? c)%Z then (false, Some (mkWindow s c)) else (true, Some (mkWindow s (c + 1))).
Proof using Hlim Hwin.
  unfold allow1, current. simpl. rewrite Sub_win, (proj2 (Z.leb_gt lim 0)) by lia.
  destruct (win <=? now - s)%Z; simpl; [|by destruct (lim <=? c)%Z].
  by rewrite (proj2 (Z.leb_gt lim 0)) by lia.
Qed.
Lemma allow1_none now : allow1 lim win now None = (true, Some (mkWindow now 1)).
Proof using Hlim.
  unfold allow1, current. rewrite (proj2 (Z.leb_gt lim 0)) by lia. simpl.
  by rewrite (proj2 (Z.leb_gt lim 0)) by lia.
Qed.

(** A window that began inside the interval is the last one to count. *)
Lemma accepted_inside times s c :
  (t ≤ s)%Z → (0 ≤ c ≤ lim)%Z → monotone times →
  (acceptedIn t win times (run1 lim win times (Some (mkWindow s c))) ≤ lim - c)%Z.
Proof using Hlim Hwin.
  intros Hs. revert c. induction times as [|now times IH]; intros c Hc Hm; [simpl; lia|].
  inversion Hm as [|? ? Hm' Hle]; subst. cbn [run1]. rewrite allow1_window.
  destruct (Z.leb_spec win (now - s)).
  - rewrite acceptedIn_late; [lia|]. constructor; [lia|].
    eapply Forall_impl; [exact Hle|]. simpl. lia.
  - destruct (Z.leb_spec lim c); cbn [acceptedIn fst snd andb].
    + apply IH; done.
    + specialize (IH (c + 1)%Z ltac:(lia) Hm'). destruct (_ && _); lia.
Qed.

(** From a window that began before the interval, with all calls inside or
    after it, at most one more window counts. *)
Lemma accepted_after times s c :
  (s < t)%Z → (0 ≤ c ≤ lim)%Z → monotone times → Forall (λ now, t ≤ now)%Z times →
  (acceptedIn t win times (run1 lim win times (Some (mkWindow s c))) ≤ lim - c + lim)%Z.
Proof using Hlim Hwin.
  intros Hs. revert c. induction times as [|now times IH]; intros c Hc Hm Ht; [simpl; lia|].
  inversion Hm as [|? ? Hm' Hle]; inversion Ht as [|? ? Hn Ht']; subst.
  cbn [run1]. rewrite allow1_window. destruct (Z.leb_spec win (now - s)); cbn [acceptedIn fst snd andb].
  - pose proof (accepted_inside times now 1 ltac:(lia) ltac:(lia) Hm'). destruct (_ && _); lia.
  - destruct (Z.leb_spec lim c); cbn [acceptedIn fst snd andb].
    + apply IH; done.
    + specialize (IH (c + 1)%Z ltac:(lia) Hm' Ht'). destruct (_ && _); lia.
Qed.

Definition before (wc : option windowCount) : Prop :=
  match wc with Some w => (windowStart w < t)%Z ∧ (0 ≤ count w ≤ lim)%Z | None => True end.

Lemma accepted_bound times wc :
  before wc → monotone times →
  (acceptedIn t win times (run1 lim win times wc) ≤ 2 * lim)%Z.
Proof using Hlim Hwin.
  revert wc. induction times as [|now times IH]; intros wc Hb Hm; [simpl; lia|].
  inversion Hm as [|? ? Hm' Hle]; subst. destruct (Z.lt_ge_cases now t) as [Hlt|Hge].
  - cbn [run1 acceptedIn]. rewrite (proj2 (Z.leb_gt t now)) by lia. rewrite andb_false_r. simpl.
    apply IH; [|done]. destruct wc as [[s c]|]; [rewrite allow1_window|rewrite allow1_none].
    + destruct Hb as [Hs Hc]. simpl in *. repeat case_match; simpl; lia.
    + simpl. lia.
  - destruct wc as [[s c]|].
    + destruct Hb as [Hs Hc]. cbn [windowStart count] in Hs, Hc.
      pose proof (accepted_after (now :: times) s c Hs Hc Hm) as Ha. etrans; [apply Ha|lia].
      constructor; [done|]. eapply Forall_impl; [exact Hle|]. simpl. lia.
    + cbn [run1]. rewrite allow1_none. cbn [acceptedIn fst snd andb].
      pose proof (accepted_inside times now 1 ltac:(lia) ltac:(lia) Hm'). destruct (_ && _); lia.
Qed.
End Bound.

(** What the entry adds to the calls accepted in the window that ends with
    [now]. *)
Definition held (win now : Z) (wc : option windowCount) : Z :=
  match wc with Some w => if (now - windowStart w <? win)%Z then count w else 0 | None => 0 end.

(** A call is refused only when the limit was used up within a window's length. *)
Lemma refused_full lim win times : (0 < lim)%Z → (0 ≤ win ≤ maxDuration)%Z → ∀ wc i now,
  monotone times → (∀ w, wc = Some w → (0 ≤ count w)%Z ∧ Forall (λ n, windowStart w ≤ n)%Z times) →
  times !! i = Some now → run1 lim win times wc !! i = Some false →
  (lim ≤ acceptedIn (now - win + 1) win (take i times) (take i (run1 lim win times wc)) + held win now wc)%Z.
Proof.
  intros Hlim Hwin. induction times as [|n0 times IH]; intros wc i now Hm Hwc Hi Hr; [done|].
  inversion Hm as [|? ? Hm' Hle]; subst. rewrite Forall_forall in Hle.
  assert (∀ w, wc = Some w → (windowStart w ≤ n0)%Z) as Hs0 by (intros w Hw; destruct (Hwc w Hw) as [_ Hf]; by inversion Hf).
  destruct i as [|i].
  - injection Hi as ->. cbn [run1] in Hr. destruct wc as [[s c]|]; [rewrite allow1_window in Hr by done|by rewrite allow1_none in Hr].
    destruct (Z.leb_spec win (now - s)); [done|]. destruct (Z.leb_spec lim c); [|done]. simpl.
    rewrite (proj2 (Z.ltb_lt (now - s) win)) by done. lia.
  - cbn [lookup list_lookup] in Hi. assert (n0 ≤ now)%Z as Hn0.
    { apply Hle. apply list_elem_of_lookup. by exists i. }
    assert (∀ w, Forall (λ n, windowStart w ≤ n)%Z (n0 :: times) → Forall (λ n, windowStart w ≤ n)%Z times) as Htl by (intros w Hf; by inversion Hf).
    cbn [run1] in Hr |- *. destruct wc as [[s c]|]; [rewrite allow1_window in * by done|rewrite allow1_none in * by done].
    + destruct (Hwc _ eq_refl) as [Hc Hs]. specialize (Hs0 _ eq_refl). cbn [windowStart count] in *.
      destruct (Z.leb_spec win (n0 - s)); [|destruct (Z.leb_spec lim c)]; cbn [fst snd lookup list_lookup take acceptedIn andb] in *.
      * pose proof (IH (Some (mkWindow n0 1)) i now Hm' ltac:(intros w [= <-]; split; [simpl; lia|by apply Forall_forall]) Hi Hr) as H1.
        cbn [held windowStart count] in *. destruct (Z.ltb_spec (now - n0) win), (Z.ltb_spec (now - s) win), (Z.leb_spec (now - win + 1) n0), (Z.ltb_spec n0 (now - win + 1 + win)); simpl; lia.
      * pose proof (IH (Some (mkWindow s c)) i now Hm' ltac:(intros w [= <-]; split; [done|by apply (Htl (mkWindow s c))]) Hi Hr) as H1. lia.
      * pose proof (IH (Some (mkWindow s (c + 1))) i now Hm' ltac:(intros w [= <-]; split; [simpl; lia|by apply (Htl (mkWindow s c))]) Hi Hr) as H1.
        cbn [held windowStart count] in *. destruct (Z.ltb_spec (now - s) win), (Z.leb_spec (now - win + 1) n0), (Z.ltb_spec n0 (now - win + 1 + win)); simpl; lia.
    + cbn [fst snd lookup list_lookup take acceptedIn andb] in *.
      pose proof (IH (Some (mkWindow n0 1)) i now Hm' ltac:(intros w [= <-]; split; [simpl; lia|by apply Forall_forall]) Hi Hr) as H1.
      cbn [held windowStart count] in *. destruct (Z.ltb_spec (now - n0) win), (Z.leb_spec (now - win + 1) n0), (Z.ltb_spec n0 (now - win + 1 + win)); simpl; lia.
Qed.

Lemma callsOf_monotone id calls : monotone (snd <$> calls) → monotone (callsOf id calls).
Proof.
  unfold callsOf, monotone. induction calls as [|[i n] calls IH]; intros Hm; [constructor|].
  inversion Hm as [|? ? Hm' Hle]; subst. rewrite filter_cons. case_decide; [|by apply IH].
  simpl. constructor; [by apply IH|]. rewrite Forall_forall in *. intros x Hx. apply Hle.
  apply list_elem_of_fmap in Hx as (c & -> & [_ Hc]%list_elem_of_filter). by apply list_elem_of_fmap_2.
Qed.

(** * Properties *)

(** Installations do not affect each other, and the sweep is invisible:
    with a clock that does not go back, the answers one installation gets in
    any interleaved sequence of calls are those of its own calls against a
    single window. *)
Theorem allow_isolated id calls lim win :
  (0 < lim)%Z → monotone (snd <$> calls) →
  resultsOf id calls (runCalls calls (New lim win)) = run1 lim win (callsOf id calls) None.
Proof.
  intros Hl Hm. apply (runCalls_isolated id calls (New lim win) None); [done|done|]. by left.
Qed.

(** C24. The blast radius: with a clock that does not go back, in any interval of
    one window's length, wherever it starts, an installation gets at most twice
    the limit; a call of its is refused only when its own calls used up the limit
    within a window's length; and what other installations do, and when, makes no
    difference to its answers. *)
Theorem allow_bounded id calls lim win :
  (0 < lim)%Z → (0 ≤ win ≤ maxDuration)%Z → monotone (snd <$> calls) →
  let times := callsOf id calls in
  let rs := resultsOf id calls (runCalls calls (New lim win)) in
  (∀ t, (acceptedIn t win times rs ≤ 2 * lim)%Z) ∧
  (∀ i now, times !! i = Some now → rs !! i = Some false → (lim ≤ acceptedIn (now - win + 1) win (take i times) (take i rs))%Z) ∧
  (∀ calls', monotone (snd <$> calls') → callsOf id calls' = times →
     resultsOf id calls' (runCalls calls' (New lim win)) = rs).
Proof.
  intros Hl Hw Hm times rs. assert (∀ calls, monotone (snd <$> calls) →
    resultsOf id calls (runCalls calls (New lim win)) = run1 lim win (callsOf id calls) None) as Hiso.
  { intros cl Hcl. apply (runCalls_isolated id cl (New lim win) None); [done|done|]. by left. }
  pose proof (callsOf_monotone id calls Hm) as Hm1. unfold rs. rewrite Hiso by done. split_and!.
  - intros t. by apply (accepted_bound lim win t Hl Hw).
  - intros i now Hi Hr. pose proof (refused_full lim win times Hl Hw None i now Hm1 ltac:(done) Hi Hr) as H. cbn [held] in H. rewrite Z.add_0_r in H. exact H.
  - intros calls' Hm' E. by rewrite Hiso, E.
Qed.

(** * Witnesses *)

Definition demo_calls : list (Z * Z) :=
  [(1, 0); (2, 1); (1, 8); (1, 9); (1, 10); (2, 11); (1, 12); (1, 13)]%Z.
Lemma demo_monotone : monotone (snd <$> demo_calls).
Proof. unfold monotone. simpl. repeat constructor; lia. Qed.

Lemma allow_isolated_witness :
  resultsOf 1 demo_calls (runCalls demo_calls (New 2 10)) = [true; true; false; true; true; false].
Proof. rewrite (allow_isolated 1 demo_calls 2 10); [reflexivity|reflexivity|exact demo_monotone]. Defined.

Lemma allow_bounded_witness :
  (acceptedIn 5 10 (callsOf 1 demo_calls) (resultsOf 1 demo_calls (runCalls demo_calls (New 2 10))) ≤ 2 * 2)%Z ∧
  resultsOf 1 demo_calls (runCalls demo_calls (New 2 10)) !! 2 = Some false.
Proof.
  destruct (allow_bounded 1 demo_calls 2 10) as [H _]; [reflexivity|split; discriminate|exact demo_monotone|].
  split; [apply H|vm_compute; reflexivity].
Defined.
