(* ===== verification/Lease.v ===== *)
(** Durable state of the hosted review service (src/services/prreview/store):
    the per-pull-request job document with its lease, the decision functions
    that make up the lease state machine, delivery deduplication and the usage
    ledger, and the in-memory store.

    Times are nanoseconds since the Unix epoch; counters are 64-bit signed and
    wrap. *)

From stdpp Require Import base gmap list strings relations countable.
From S2P Require Import Prelude.

(** * The job document *)

Record JobKey := mkJobKey {
  k_InstallationID : Z; k_Owner : string; k_Repo : string; k_PRNumber : Z }.
#[export] Instance JobKey_eq_dec : EqDecision JobKey.
Proof. solve_decision. Defined.
#[export] Instance JobKey_countable : Countable JobKey.
Proof.
  refine (inj_countable' (λ k, (k_InstallationID k, k_Owner k, k_Repo k, k_PRNumber k))
    (λ '(a, b, c, d), mkJobKey a b c d) _); by intros [].
Defined.

Definition JobStatus := string.
Definition StatusIdle : JobStatus := "idle".
Definition StatusRunning : JobStatus := "running".

Definition zeroTime : Z := -62135596800 * 1000000000.

Record Job := mkJob {
  j_Status : JobStatus;
  j_TargetSHA : string;
  j_LeaseExpiry : Z;
  j_LeaseOwner : string;
  j_LastReviewedSHA : string;
  j_CommentID : Z;
  j_ReviewCount : Z;
  j_TokensUsed : Z }.
Definition zeroJob : Job := mkJob "" "" zeroTime "" "" 0 0 0.

Definition set_target (s : string) (j : Job) : Job :=
  mkJob (j_Status j) s (j_LeaseExpiry j) (j_LeaseOwner j) (j_LastReviewedSHA j) (j_CommentID j)
    (j_ReviewCount j) (j_TokensUsed j).
Definition set_lease (st : JobStatus) (exp : Z) (owner : string) (j : Job) : Job :=
  mkJob st (j_TargetSHA j) exp owner (j_LastReviewedSHA j) (j_CommentID j) (j_ReviewCount j) (j_TokensUsed j).
Definition set_comment (id : Z) (j : Job) : Job :=
  mkJob (j_Status j) (j_TargetSHA j) (j_LeaseExpiry j) (j_LeaseOwner j) (j_LastReviewedSHA j) id
    (j_ReviewCount j) (j_TokensUsed j).

(** 64-bit two's complement. *)
Definition wrap_i64 (z : Z) : Z := (z + 2 ^ 63) mod 2 ^ 64 - 2 ^ 63.

Inductive AcquireAction := ActionRun | ActionSkip.

Definition AcquireDecision (job : Job) (now : Z) (headSHA : string) (leaseTTL : Z) (owner : string)
    : Job * AcquireAction :=
  let job := if negb (String.eqb headSHA (j_LastReviewedSHA job)) || String.eqb (j_TargetSHA job) ""
             then set_target headSHA job else job in
  if String.eqb (j_Status job) StatusRunning && (now <? j_LeaseExpiry job)%Z then (job, ActionSkip)
  else (set_lease StatusRunning (now + leaseTTL) owner job, ActionRun).

Record CompleteOutcome := mkOutcome { co_Post : bool; co_FollowUp : bool; co_FollowUpSHA : string }.

Definition CompleteDecision (job : Job) (reviewedSHA : string) (tokensUsed : Z) (owner : string)
    : Job * CompleteOutcome :=
  if negb (String.eqb (j_LeaseOwner job) owner) then (job, mkOutcome false false "")
  else if String.eqb (j_TargetSHA job) reviewedSHA then
    (mkJob StatusIdle (j_TargetSHA job) zeroTime "" reviewedSHA (j_CommentID job)
       (wrap_i64 (j_ReviewCount job + 1)) (wrap_i64 (j_TokensUsed job + tokensUsed)),
     mkOutcome true false "")
  else (set_lease StatusIdle zeroTime "" job, mkOutcome false true (j_TargetSHA job)).

Definition ReleaseDecision (job : Job) (owner : string) : Job :=
  if negb (String.eqb (j_LeaseOwner job) owner) then job
  else set_lease StatusIdle zeroTime "" job.

(** * The store interface *)

(** What the worker relies on: an atomic read-modify-write and a read, either
    of which may fail; a failed write changes nothing.  A document that was
    never written reads as the zero value.  The Go callbacks hand a result
    back by assigning a captured variable; here the mutation returns it. *)
Class JobStore (S : Type) := {
  js_read : S → JobKey → Job;
  Mutate {A : Type} : JobKey → (Job → Job * A) → S → (Job * A + error) * S;
  Get : JobKey → S → (Job + error) * S;
  Mutate_ok {A} key (f : Job → Job * A) s r s' : Mutate key f s = (inl r, s') →
    r = f (js_read s key) ∧ js_read s' key = r.1 ∧ ∀ k, k ≠ key → js_read s' k = js_read s k;
  Mutate_err {A} key (f : Job → Job * A) s e s' : Mutate key f s = (inr e, s') →
    ∀ k, js_read s' k = js_read s k;
  Get_ok key s j s' : Get key s = (inl j, s') → j = js_read s key;
  Get_same key s r s' : Get key s = (r, s') → ∀ k, js_read s' k = js_read s k;
}.

(** ** The in-memory store *)

Record Usage := mkUsage { u_Reviews : Z; u_Tokens : Z }.
Record Memory := mkMemory {
  m_jobs : gmap JobKey Job;
  m_dedup : gmap string Z;
  m_ledger : gmap Z Usage }.
Definition NewMemory : Memory := mkMemory ∅ ∅ ∅.

Definition Memory_Mutate {A} (key : JobKey) (mutate : Job → Job * A) (m : Memory)
    : (Job * A + error) * Memory :=
  let r := mutate (default zeroJob (m_jobs m !! key)) in
  (inl r, mkMemory (<[key := r.1]> (m_jobs m)) (m_dedup m) (m_ledger m)).
Definition Memory_Get (key : JobKey) (m : Memory) : (Job + error) * Memory :=
  (inl (default zeroJob (m_jobs m !! key)), m).

#[export] Program Instance Memory_store : JobStore Memory := {
  js_read m key := default zeroJob (m_jobs m !! key);
  Mutate := @Memory_Mutate;
  Get := Memory_Get;
}.
Next Obligation.
  intros A key f s j s' [= <- <-]. simpl. split_and!; [done|by rewrite lookup_insert_eq|].
  intros k Hk. by rewrite lookup_insert_ne.
Qed.
Next Obligation. by intros A key f s e s' [=]. Qed.
Next Obligation. by intros key s j s' [= <- _]. Qed.
Next Obligation. by intros key s r s' [= _ <-]. Qed.

(** The same store behind a connection that may fail: a script says which of
    the next operations fail.  It is the second instance of the interface, the
    one that exercises the error paths of its clients. *)
Record Flaky := mkFlaky { f_mem : Memory; f_script : list bool }.
Definition unavailable : error := New "store unavailable".
Definition Flaky_Mutate {A} (key : JobKey) (mutate : Job → Job * A) (f : Flaky)
    : (Job * A + error) * Flaky :=
  match f_script f with
  | true :: l => (inr unavailable, mkFlaky (f_mem f) l)
  | l => let '(r, m) := Memory_Mutate key mutate (f_mem f) in (r, mkFlaky m (tail l))
  end.
Definition Flaky_Get (key : JobKey) (f : Flaky) : (Job + error) * Flaky :=
  match f_script f with
  | true :: l => (inr unavailable, mkFlaky (f_mem f) l)
  | l => ((Memory_Get key (f_mem f)).1, mkFlaky (f_mem f) (tail l))
  end.

#[export] Program Instance Flaky_store : JobStore Flaky := {
  js_read f := js_read (f_mem f);
  Mutate := @Flaky_Mutate;
  Get := Flaky_Get;
}.
Next Obligation.
  intros A key f s r s'. unfold Flaky_Mutate.
  destruct (f_script s) as [|[] l]; try done; intros [= <- <-].
  all: by apply (Mutate_ok (S:=Memory) key f (f_mem s) _ (Memory_Mutate key f (f_mem s)).2).
Qed.
Next Obligation.
  intros A key f s e s'. unfold Flaky_Mutate. by destruct (f_script s) as [|[] l]; intros [= <- <-].
Qed.
Next Obligation.
  intros key s j s'. unfold Flaky_Get. by destruct (f_script s) as [|[] l]; intros [= <- <-].
Qed.
Next Obligation.
  intros key s r s'. unfold Flaky_Get. by destruct (f_script s) as [|[] l]; intros [= <- <-].
Qed.

Definition Memory_Seen (deliveryID : string) (ttl now : Z) (m : Memory) : bool * Memory :=
  match m_dedup m !! deliveryID with
  | Some expiry =>
    if (now <? expiry)%Z then (true, m)
    else (false, mkMemory (m_jobs m) (<[deliveryID := (now + ttl)%Z]> (m_dedup m)) (m_ledger m))
  | None => (false, mkMemory (m_jobs m) (<[deliveryID := (now + ttl)%Z]> (m_dedup m)) (m_ledger m))
  end.
Definition Memory_Forget (deliveryID : string) (m : Memory) : Memory :=
  mkMemory (m_jobs m) (delete deliveryID (m_dedup m)) (m_ledger m).

Definition Memory_Total (id : Z) (m : Memory) : Usage := default (mkUsage 0 0) (m_ledger m !! id).
Definition Memory_Add (id reviews tokens : Z) (m : Memory) : Memory :=
  let u := Memory_Total id m in
  mkMemory (m_jobs m) (m_dedup m)
    (<[id := mkUsage (wrap_i64 (u_Reviews u + reviews)) (wrap_i64 (u_Tokens u + tokens))]> (m_ledger m)).

(** * Facts about the lease *)

Definition holds (owner : string) (j : Job) : Prop := j_LeaseOwner j = owner.

Lemma acquire_owner job now head ttl owner :
  let r := AcquireDecision job now head ttl owner in
  match r.2 with
  | ActionRun => j_LeaseOwner r.1 = owner ∧ j_Status r.1 = StatusRunning ∧ j_LeaseExpiry r.1 = (now + ttl)%Z
  | ActionSkip => j_LeaseOwner r.1 = j_LeaseOwner job ∧ j_Status r.1 = StatusRunning ∧
      (now < j_LeaseExpiry job)%Z ∧ j_LeaseExpiry r.1 = j_LeaseExpiry job
  end.
Proof.
  intros r. unfold r, AcquireDecision. destruct (_ || _); simpl.
  all: destruct (String.eqb_spec (j_Status job) StatusRunning); simpl; try done.
  all: destruct (Z.ltb_spec now (j_LeaseExpiry job)); simpl; done.
Qed.

(** A worker without the lease changes nothing by completing or releasing. *)
Lemma complete_fenced job sha tok owner :
  j_LeaseOwner job ≠ owner → CompleteDecision job sha tok owner = (job, mkOutcome false false "").
Proof. intros H. unfold CompleteDecision. by rewrite (proj2 (String.eqb_neq _ _) H). Qed.
Lemma release_fenced job owner : j_LeaseOwner job ≠ owner → ReleaseDecision job owner = job.
Proof. intros H. unfold ReleaseDecision. by rewrite (proj2 (String.eqb_neq _ _) H). Qed.

Lemma complete_frees job sha tok owner :
  owner ≠ "" → j_LeaseOwner (CompleteDecision job sha tok owner).1 ≠ owner.
Proof.
  intros Ho. unfold CompleteDecision. destruct (String.eqb_spec (j_LeaseOwner job) owner); simpl; [|done].
  destruct (String.eqb _ _); simpl; done.
Qed.
Lemma release_frees job owner : owner ≠ "" → j_LeaseOwner (ReleaseDecision job owner) ≠ owner.
Proof. intros Ho. unfold ReleaseDecision. destruct (String.eqb_spec (j_LeaseOwner job) owner); simpl; done. Qed.
