(* ===== verification/Code.v ===== *)
(** Programs as trees of atomic operations.

    Code that talks to shared or remote state through interfaces is written
    once, as a tree whose nodes are the calls it makes and whose branches are
    the answers; a system of such programs interleaves at the nodes.  Used for
    the hosted review service (src/services/prreview). *)

From stdpp Require Import base tactics list.

Section code.
Context {O : Type} (R : O → Type).

Inductive Code (A : Type) : Type :=
| Ret (a : A)
| Call (o : O) (k : R o → Code A).

Definition call (o : O) : Code (R o) := Call _ o (Ret _).

Fixpoint code_bind {A B} (f : A → Code B) (c : Code A) : Code B :=
  match c with
  | Ret _ a => f a
  | Call _ o k => Call _ o (λ r, code_bind f (k r))
  end.
End code.

Arguments Ret {O R A} a.
Arguments Call {O R A} o k.
Arguments call {O R} o.

#[export] Instance code_mret {O} (R : O → Type) : MRet (Code R) := λ A, Ret.
#[export] Instance code_mbind {O} (R : O → Type) : MBind (Code R) := λ A B, code_bind R.

(** * Protocols

    A protocol is an automaton on operations and answers: which operation a
    phase permits, the phase after an answer, and which results may be
    returned.  [follows] says a program obeys it whatever the answers are, so
    a global invariant may reason about phases instead of programs. *)

Section protocol.
Context {O : Type} (R : O → Type) {P A : Type}.
Context (allowed : P → O → Prop) (next : P → ∀ o, R o → P) (final : P → A → Prop).

Fixpoint follows (ph : P) (c : Code R A) : Prop :=
  match c with
  | Ret a => final ph a
  | Call o k => allowed ph o ∧ ∀ r, follows (next ph o r) (k r)
  end.
End protocol.

(** The same with an intermediate condition: a program with a continuation. *)
Lemma follows_bind {O} (R : O → Type) {P A B} allowed (next : P → ∀ o, R o → P)
    (mid : P → A → Prop) (final : P → B → Prop) (f : A → Code R B) (c : Code R A) ph :
  follows R allowed next mid ph c →
  (∀ ph' a, mid ph' a → follows R allowed next final ph' (f a)) →
  follows R allowed next final ph (c ≫= f).
Proof.
  intros Hc Hf. revert ph Hc. induction c as [a|o k IH]; intros ph; simpl; [apply Hf|].
  intros [Ho Hk]. split; [done|]. intros r. apply IH, Hk.
Qed.

(** A weaker condition on the results. *)
Lemma follows_weaken {O} (R : O → Type) {P A} allowed (next : P → ∀ o, R o → P) (mid final : P → A → Prop) (c : Code R A) ph :
  follows R allowed next mid ph c → (∀ ph' a, mid ph' a → final ph' a) → follows R allowed next final ph c.
Proof.
  intros Hc Hf. revert ph Hc. induction c as [a|o k IH]; intros ph; simpl; [apply Hf|].
  intros [Ho Hk]. split; [done|]. intros r. apply IH, Hk.
Qed.

(** * Partial runs

    The calls a program has made, with their answers, and what is left of it. *)

Section runs.
Context {O : Type} (R : O → Type) {A : Type}.

Inductive runs : Code R A → list (sigT R) → Code R A → Prop :=
| runs_nil c : runs c [] c
| runs_call o k r tr c : runs (k r) tr c → runs (Call o k) (existT o r :: tr) c.

(** A run to the end starts with the program's first call. *)
Lemma runs_ret (c : Code R A) tr a : runs c tr (Ret a) →
  match c with Ret a' => tr = [] ∧ a' = a | Call o k => ∃ r tr', tr = existT o r :: tr' ∧ runs (k r) tr' (Ret a) end.
Proof.
  intros H. remember (Ret a) as c' eqn:E. destruct H as [c|o k r tr c H]; subst; [done|]. by exists r, tr.
Qed.

(** A run of a program that has ended, and of one that calls. *)
Lemma runs_cases c0 tr c : runs c0 tr c →
  match c0 with
  | Ret a => tr = [] ∧ c = Ret a
  | Call o k => (tr = [] ∧ c = Call o k) ∨ ∃ r tr', tr = existT o r :: tr' ∧ runs (k r) tr' c
  end.
Proof. destruct 1 as [[a|o k]|o k r tr c H]; [done|by left|]. right. by exists r, tr. Qed.
Lemma runs_ended (a : A) tr c : runs (Ret a) tr c → tr = [] ∧ c = Ret a.
Proof. apply (runs_cases (Ret a)). Qed.
Lemma runs_calls o k tr c : runs (Call o k) tr c → (tr = [] ∧ c = Call o k) ∨ ∃ r tr', tr = existT o r :: tr' ∧ runs (k r) tr' c.
Proof. apply (runs_cases (Call o k)). Qed.

(** One more call. *)
Lemma runs_snoc c tr o k r : runs c tr (Call o k) → runs c (tr ++ [existT o r]) (k r).
Proof.
  intros H. remember (Call o k) as c' eqn:E. induction H as [c|o' k' r' tr c H IH]; subst.
  - apply runs_call, runs_nil.
  - apply runs_call. by apply IH.
Qed.

(** The phase of a protocol after a run. *)
Fixpoint phaseAfter {P} (next : P → ∀ o, R o → P) (ph : P) (tr : list (sigT R)) : P :=
  match tr with
  | [] => ph
  | existT o r :: tr => phaseAfter next (next ph o r) tr
  end.

Lemma follows_runs {P} allowed (next : P → ∀ o, R o → P) final ph (c c' : Code R A) tr :
  runs c tr c' → follows R allowed next final ph c → follows R allowed next final (phaseAfter next ph tr) c'.
Proof.
  intros Hr. revert ph. induction Hr as [c|o k r tr c Hr IH]; intros ph Hf; [done|]. simpl. apply IH. apply Hf.
Qed.

(** An invariant of the phases along the runs of a program that follows a
    protocol. *)
Lemma follows_invariant {P} allowed (next : P → ∀ o, R o → P) final (I : list (sigT R) → P → Prop) :
  (∀ tr ph o r, I tr ph → allowed ph o → I (tr ++ [existT o r]) (next ph o r)) →
  ∀ ph (c c' : Code R A) tr, I [] ph → follows R allowed next final ph c → runs c tr c' → I tr (phaseAfter next ph tr).
Proof.
  intros Hstep ph c c' tr HI Hf Hr. assert (∀ pre, I pre ph → I (pre ++ tr) (phaseAfter next ph tr)) as H; [|by apply (H [])].
  clear HI. revert ph Hf. induction Hr as [c|o k r tr c Hr IH]; intros ph Hf pre HI; simpl; [by rewrite app_nil_r|].
  destruct Hf as [Ho Hk]. change (existT o r :: tr) with ([existT o r] ++ tr). rewrite (app_assoc pre). apply IH; [apply Hk|by apply Hstep].
Qed.
End runs.

(** * Phases of a system of threads *)

Section phases.
Context {P : Type}.

(** The number of phases with a property. *)
Definition countIf (f : P → bool) (phs : list P) : nat := length (filter (λ ph, f ph = true) phs).

Lemma countIf_app f l k : countIf f (l ++ k) = countIf f l + countIf f k.
Proof. unfold countIf. by rewrite filter_app, length_app. Qed.
Lemma countIf_one f ph : countIf f [ph] = if f ph then 1 else 0.
Proof. unfold countIf. rewrite filter_cons. by destruct (f ph). Qed.
Lemma countIf_insert f phs i ph ph' : phs !! i = Some ph →
  countIf f (<[i := ph']> phs) + (if f ph then 1 else 0) = countIf f phs + (if f ph' then 1 else 0).
Proof.
  revert i. induction phs as [|x phs IH]; intros [|i] Hi; try done; simpl in Hi.
  - injection Hi as ->. change (<[0:=ph']> (ph :: phs)) with (ph' :: phs). unfold countIf. rewrite !filter_cons.
    destruct (f ph), (f ph'); simpl; lia.
  - change (<[S i:=ph']> (x :: phs)) with (x :: <[i:=ph']> phs). specialize (IH i Hi). unfold countIf in *. rewrite !filter_cons.
    case_decide; simpl; lia.
Qed.
Lemma countIf_pos f phs ph : ph ∈ phs → f ph = true → 1 ≤ countIf f phs.
Proof.
  intros [i Hi]%list_elem_of_lookup Hf. pose proof (countIf_insert f phs i ph ph Hi) as H. unfold countIf in *.
  assert (ph ∈ filter (λ ph, f ph = true) phs) as Hin by (apply list_elem_of_filter; split; [done|by eapply list_elem_of_lookup_2]).
  destruct (filter _ phs); [by apply not_elem_of_nil in Hin|]. simpl. lia.
Qed.

Lemma countIf_unique f phs i j x y : countIf f phs ≤ 1 → phs !! i = Some x → f x = true → phs !! j = Some y → f y = true → i = j.
Proof.
  revert i j. induction phs as [|z phs IH]; intros i j Hle Hi Hx Hj Hy; [done|]. change (z :: phs) with ([z] ++ phs) in Hle.
  rewrite countIf_app, countIf_one in Hle. destruct i as [|i], j as [|j]; simpl in Hi, Hj; simplify_eq; [done|..|f_equal; eapply IH; eauto; lia].
  - rewrite Hx in Hle. pose proof (countIf_pos f phs y (list_elem_of_lookup_2 _ _ _ Hj) Hy). lia.
  - rewrite Hy in Hle. pose proof (countIf_pos f phs x (list_elem_of_lookup_2 _ _ _ Hi) Hx). lia.
Qed.

(** A phase after one of them has changed. *)
Lemma elem_of_insert (phs : list P) (i : nat) (ph x : P) : x ∈ <[i := ph]> phs → x = ph ∨ ∃ k, k ≠ i ∧ phs !! k = Some x.
Proof.
  intros [n Hn]%list_elem_of_lookup. destruct (decide (n = i)) as [->|Hne].
  - left. apply list_lookup_insert_Some in Hn as [(_ & -> & _)|[? _]]; done.
  - right. rewrite list_lookup_insert_ne in Hn by done. eauto.
Qed.
End phases.
