(* ===== verification/Threads.v ===== *)
(** Systems of threads over one shared state, and wait groups.

    A thread is a program of [Code]: each call is one atomic step on the shared
    state, which may also start threads.  The labels of a system are the calls
    made from outside, each a new thread, and the steps of a thread; what leaves
    the model is answered by the label, so that runs are executable and theorems
    about all runs hold for every environment.  Used by the event buses
    (src/nats, src/rabbitmq, src/watermill). *)

From stdpp Require Import base list strings.
From S2P Require Import Prelude Code.

Record Sys {O : Type} {R : O → Type} {A St : Type} := mkSys { sys_st : St; sys_threads : list (Code R A) }.
Arguments Sys {O} R A St.
Arguments mkSys {O R A St} _ _.

Section system.
Context {O : Type} {R : O → Type} {A St L : Type}.
(** [exec env fuel o s]: the answer of a call, the state after it and the
    threads it starts; [None] when it cannot return yet. *)
Context (exec : (∀ o, R o) → nat → ∀ o, St → option (R o * St * list (Code R A))).
Context (spawn : L → Code R A).

Inductive Label :=
| LSpawn (l : L)
| LRun (i : nat) (env : ∀ o, R o) (fuel : nat).

Definition step (l : Label) (s : Sys R A St) : option (Sys R A St) :=
  match l with
  | LSpawn l => Some (mkSys (sys_st s) (sys_threads s ++ [spawn l]))
  | LRun i env fuel =>
    match sys_threads s !! i with
    | Some (Call o k) =>
      match exec env fuel o (sys_st s) with
      | Some (r, st, ps) => Some (mkSys st (<[i := k r]> (sys_threads s) ++ ps))
      | None => None
      end
    | _ => None
    end
  end.
Fixpoint run (ls : list Label) (s : Sys R A St) : option (Sys R A St) :=
  match ls with
  | [] => Some s
  | l :: ls => match step l s with Some s => run ls s | None => None end
  end.
Definition reachable (s0 : St) (s : Sys R A St) : Prop := ∃ ls, run ls (mkSys s0 []) = Some s.

(** ** Phases

    When every thread follows a protocol, a step of the system is a new thread
    in the phase [free], or a call its thread's phase allows, and [started] are
    the phases of the threads it starts. *)
Section phases.
Context {P : Type} (allowed : P → O → Prop) (next : P → ∀ o, R o → P) (free : L → P) (started : ∀ o, R o → list P).

Inductive movesR (s : St) (phs : list P) : St → list P → Prop :=
| moves_spawn l : movesR s phs s (phs ++ [free l])
| moves_call i ph o r s' env fuel ps : phs !! i = Some ph → allowed ph o → exec env fuel o s = Some (r, s', ps) →
  movesR s phs s' (<[i := next ph o r]> phs ++ started o r).

(** [T]: what a phase says of its thread. *)
Context (T : P → Code R A → Prop).
Hypothesis obeys : ∀ ph o k, T ph (Call o k) → allowed ph o ∧ ∀ r, T (next ph o r) (k r).
Hypothesis spawned : ∀ l, T (free l) (spawn l).
Hypothesis starts : ∀ env fuel o s r s' ps, exec env fuel o s = Some (r, s', ps) → Forall2 T (started o r) ps.

Lemma step_moves l s s' phs : Forall2 T phs (sys_threads s) → step l s = Some s' →
  ∃ phs', movesR (sys_st s) phs (sys_st s') phs' ∧ Forall2 T phs' (sys_threads s').
Proof.
  intros Hth. destruct l as [l|i env fuel]; simpl.
  - intros [= <-]. eexists. split; [apply moves_spawn|]. apply Forall2_app; [done|by constructor].
  - destruct (sys_threads s !! i) as [[a|o k]|] eqn:Ei; try done.
    destruct (exec env fuel o (sys_st s)) as [[[r st] ps]|] eqn:Ee; [|done]. intros [= <-].
    destruct (Forall2_lookup_r _ _ _ _ _ Hth Ei) as (ph & Eph & [Ha Hk]%obeys).
    eexists. split; [by eapply moves_call|]. apply Forall2_app; [apply Forall2_insert; [done|apply Hk]|by eapply starts].
Qed.

(** What every move preserves holds of the reachable states. *)
Lemma threads_invR (I : St → list P → Prop) s0 : I s0 [] →
  (∀ s phs s' phs', I s phs → movesR s phs s' phs' → I s' phs') →
  ∀ s, reachable s0 s → ∃ phs, Forall2 T phs (sys_threads s) ∧ I (sys_st s) phs.
Proof.
  intros H0 Hstep s [ls Hrun].
  pose (init := mkSys (R := R) (A := A) s0 []). fold init in Hrun.
  assert (∃ phs, Forall2 T phs (sys_threads init) ∧ I (sys_st init) phs) as Hinit.
  { exists []. split; [apply Forall2_nil_2|done]. }
  revert Hrun Hinit. clear H0. generalize init. induction ls as [|l ls IH]; intros s1; simpl; [by intros [= ->]|].
  destruct (step l s1) as [s2|] eqn:E; [|done]. intros Hrun (phs & Hth & Hi). apply (IH s2 Hrun).
  destruct (step_moves l s1 s2 phs Hth E) as (phs' & Hm & Hth'). eauto.
Qed.

(** When calls start no threads, and a phase tells the call its thread runs, the
    phases tell the calls in the order they were made. *)
Definition callOf (l : Label) : option L := match l with LSpawn c => Some c | _ => None end.
Lemma threads_calls (I : St → list P → Prop) (call : P → L) s0 : (∀ c, call (free c) = c) → (∀ ph o r, call (next ph o r) = call ph) →
  (∀ o r, started o r = []) → I s0 [] → (∀ s phs s' phs', I s phs → movesR s phs s' phs' → I s' phs') →
  ∀ ls s, run ls (mkSys s0 []) = Some s → ∃ phs, Forall2 T phs (sys_threads s) ∧ I (sys_st s) phs ∧ call <$> phs = omap callOf ls.
Proof.
  intros Hfree Hnext Hst H0 Hstep ls s Hrun.
  assert (∀ ls s1 phs, Forall2 T phs (sys_threads s1) → I (sys_st s1) phs → run ls s1 = Some s →
    ∃ phs', Forall2 T phs' (sys_threads s) ∧ I (sys_st s) phs' ∧ call <$> phs' = (call <$> phs) ++ omap callOf ls) as H.
  { clear Hrun ls. intros ls. induction ls as [|l ls IH]; intros s1 phs Hth Hi; simpl; [intros [= ->]; exists phs; by rewrite app_nil_r|].
    destruct (step l s1) as [s2|] eqn:E; [|done]. intros Hrun.
    assert (∃ phs2, movesR (sys_st s1) phs (sys_st s2) phs2 ∧ Forall2 T phs2 (sys_threads s2) ∧
      call <$> phs2 = (call <$> phs) ++ omap callOf [l]) as (phs2 & Hm & Hth2 & Hc).
    { destruct l as [c|i env fuel]; simpl in E.
      - injection E as <-. exists (phs ++ [free c]). split; [apply moves_spawn|]. split; [by apply Forall2_app; [|constructor]|].
        rewrite fmap_app. simpl. by rewrite Hfree.
      - destruct (sys_threads s1 !! i) as [[a|o k]|] eqn:Ei; try done.
        destruct (exec env fuel o (sys_st s1)) as [[[r st] ps]|] eqn:Ee; [|done]. injection E as <-.
        destruct (Forall2_lookup_r _ _ _ _ _ Hth Ei) as (ph & Eph & [Ha Hk]%obeys).
        exists (<[i := next ph o r]> phs ++ started o r). split; [by eapply moves_call|]. split.
        + apply Forall2_app; [apply Forall2_insert; [done|apply Hk]|by eapply starts].
        + rewrite Hst, app_nil_r, list_fmap_insert, Hnext. simpl. rewrite app_nil_r. apply list_insert_id. by rewrite list_lookup_fmap, Eph. }
    destruct (IH s2 phs2 Hth2 (Hstep _ _ _ _ Hi Hm) Hrun) as (phs' & ? & ? & Hc'). exists phs'. split_and!; [done..|].
    rewrite Hc', Hc, <- app_assoc. f_equal. by destruct l. }
  apply (H ls (mkSys s0 []) []); [apply Forall2_nil_2|done|done].
Qed.
End phases.

End system.

(** The common case: a phase says that its thread follows the protocol, and
    neither what a call starts depends on its answer nor the first phase of a
    thread on its call. *)
Section follow.
Context {O : Type} {R : O → Type} {A St P : Type} (exec : (∀ o, R o) → nat → ∀ o, St → option (R o * St * list (Code R A))).

Definition moves (allowed : P → O → Prop) (next : P → ∀ o, R o → P) (free : P) (started : O → list P) : St → list P → St → list P → Prop :=
  movesR exec allowed next (λ _ : unit, free) (λ o _, started o).
Lemma threads_inv {L : Type} (spawn : L → Code R A) allowed next (final : P → A → Prop) free started :
  (∀ l, follows R allowed next final free (spawn l)) →
  (∀ env fuel o s r s' ps, exec env fuel o s = Some (r, s', ps) → Forall2 (follows R allowed next final) (started o) ps) →
  ∀ (I : St → list P → Prop) s0, I s0 [] → (∀ s phs s' phs', I s phs → moves allowed next free started s phs s' phs' → I s' phs') →
  ∀ s, reachable exec spawn s0 s → ∃ phs, Forall2 (follows R allowed next final) phs (sys_threads s) ∧ I (sys_st s) phs.
Proof.
  intros Hsp Hst I s0 H0 Hstep. apply (threads_invR exec spawn allowed next (λ _, free) (λ o _, started o)); [done..|].
  intros s phs s' phs' Hi Hm. apply (Hstep s phs); [done|].
  destruct Hm; [apply (moves_spawn exec allowed next (λ _ : unit, free) _ _ _ tt)|by eapply moves_call].
Qed.
End follow.

Arguments LSpawn {O R L} l.
Arguments LRun {O R L} i env fuel.

(** * Wait groups

    Threads counted by a [sync.WaitGroup] whose [Add] is refused once the bus is
    closed, and closers that wait for it.  [waited]: a closer has returned nil. *)

Inductive WView := WCounted | WClosing | WOther.
Definition isCounted (v : WView) : bool := match v with WCounted => true | _ => false end.
Record wgInv (closed waited : bool) (wg : nat) (vs : list WView) : Prop := {
  wg_count : wg = countIf isCounted vs;
  wg_waited : waited = true → closed = true ∧ wg = 0;
  wg_closing : WClosing ∈ vs → closed = true }.

Section waitgroup.
Context (waited : bool) (wg : nat) (vs : list WView).

Lemma closing_insert i v : WClosing ∈ <[i := v]> vs → v = WClosing ∨ WClosing ∈ vs.
Proof. intros [<-|(k & _ & Hk%list_elem_of_lookup_2)]%elem_of_insert; auto. Qed.

Lemma wg_init : wgInv false false 0 [].
Proof. split; try done. by intros ?%not_elem_of_nil. Qed.
Lemma wg_spawn c : wgInv c waited wg vs → wgInv c waited wg (vs ++ [WOther]).
Proof.
  intros [I1 I2 I3]. split; try done; [rewrite countIf_app, countIf_one; simpl; lia|].
  rewrite elem_of_app, list_elem_of_singleton. by intros [?|?]; [apply I3|].
Qed.
(** A thread that is not counted turns to something else. *)
Lemma wg_leave c i v : wgInv c waited wg vs → vs !! i = Some v → isCounted v = false → wgInv c waited wg (<[i := WOther]> vs).
Proof.
  intros [I1 I2 I3] Hi Hv. pose proof (countIf_insert isCounted vs i v WOther Hi) as Hc. rewrite Hv in Hc. simpl in Hc.
  split; try done; [lia|]. intros [?|?]%closing_insert; [done|by apply I3].
Qed.
Lemma wg_enter i : wgInv false waited wg vs → vs !! i = Some WOther → wgInv false waited (S wg) (<[i := WCounted]> vs).
Proof.
  intros [I1 I2 I3] Hi. pose proof (countIf_insert isCounted vs i _ WCounted Hi) as Hc. simpl in Hc.
  split; [lia|by intros [? _]%I2|]. intros [?|?]%closing_insert; [done|by apply I3].
Qed.
Lemma wg_done c i : wgInv c waited wg vs → vs !! i = Some WCounted → wgInv c waited (pred wg) (<[i := WOther]> vs).
Proof.
  intros [I1 I2 I3] Hi. pose proof (countIf_insert isCounted vs i _ WOther Hi) as Hc. simpl in Hc.
  split; [lia| |]; [intros [? ?]%I2; split; [done|lia]|]. intros [?|?]%closing_insert; [done|by apply I3].
Qed.
(** A counted thread hands its count to the one it starts. *)
Lemma wg_give c i : wgInv c waited wg vs → vs !! i = Some WCounted → wgInv c waited wg (<[i := WOther]> vs ++ [WCounted]).
Proof.
  intros [I1 I2 I3] Hi. pose proof (countIf_insert isCounted vs i _ WOther Hi) as Hc. simpl in Hc.
  split; try done; [rewrite countIf_app, countIf_one; simpl; lia|].
  rewrite elem_of_app, list_elem_of_singleton. intros [[?|?]%closing_insert|?]; [done|by apply I3|done].
Qed.
Lemma wg_close c i : wgInv c waited wg vs → vs !! i = Some WOther → wgInv true waited wg (<[i := WClosing]> vs).
Proof.
  intros [I1 I2 I3] Hi. pose proof (countIf_insert isCounted vs i _ WClosing Hi) as Hc. simpl in Hc.
  split; [lia|by intros [_ ?]%I2|done].
Qed.
Lemma wg_wait c i : wgInv c waited wg vs → vs !! i = Some WClosing → wg = 0 → wgInv c true wg (<[i := WOther]> vs).
Proof.
  intros H Hi Hz. destruct (wg_leave c i WClosing H Hi eq_refl) as [J1 J2 J3]. split; try done.
  intros _. split; [|done]. apply (wg_closing _ _ _ _ H). by eapply list_elem_of_lookup_2.
Qed.
(** No thread is counted once a closer has returned. *)
Lemma wg_quiet c i : wgInv c true wg vs → vs !! i ≠ Some WCounted.
Proof.
  intros [I1 I2 I3] Hi%list_elem_of_lookup_2. destruct (I2 eq_refl) as [_ Hz].
  pose proof (countIf_pos isCounted vs _ Hi eq_refl). lia.
Qed.
End waitgroup.

(** * Handlers *)

(** What a handler does: it returns, or panics with a value. *)
Inductive Handled := HReturn (err : option error) | HPanic (value : string).

(** [handlerpanic.Recover]. *)
Definition Recover (h : Handled) : option error :=
  match h with
  | HReturn err => err
  | HPanic p => Some (Errorf "handler panic: %v" [p] [])
  end.
