(* ===== verification/Health.v ===== *)
(** Health endpoints: the HTTP handlers (src/httpx/httpx.go: runChecks,
    writeCheckResponse, HealthHandler, ReadinessHandler) and the gRPC health
    service (src/grpc/health.go).

    Checks run on goroutines of their own, each of which ends with one critical
    section; an order of those sections is a permutation of the checks.  Every
    check returns or panics in the end: one that never does holds its response
    back for ever.  JSON encoding and logging are not modelled. *)

From stdpp Require Import base gmap list strings fin_maps.
From S2P Require Import Prelude GoStrings Code.

#[local] Open Scope Z_scope.

(** * Checks *)

(** How a check ends. *)
Inductive Outcome := OPass | OErr (err : error) | OPanic (value : string).
(** A check is nil, or takes some time under the context it is given (here, how
    long that lives) and ends. *)
Definition Check : Type := option (Z → Z * Outcome).
Definition defaultCheckTimeout : Z := 5000000000.
(** [context.WithTimeout] of a context with or without a deadline. *)
Definition withTimeout (ctx : option Z) (timeout : Z) : Z :=
  match ctx with None => timeout | Some rest => Z.min rest timeout end.
Definition outcomeOf (f : Z → Z * Outcome) (rest : Z) : Outcome := (f rest).2.

(** ** HTTP *)

Definition genericCheckFailureMessage : string := "failed".
Record handlerConfig := mkHandlerConfig { hc_detailed : bool }.
Definition HandlerOption := handlerConfig → handlerConfig.
Definition WithDetailedErrors : HandlerOption := λ c, mkHandlerConfig true.
(** The logger is not modelled. *)
Definition WithHandlerLogger : HandlerOption := λ c, c.
Definition newHandlerConfig (opts : list HandlerOption) : handlerConfig := foldl (λ c opt, opt c) (mkHandlerConfig false) opts.

(** The message of one check and whether it passed. *)
Definition runCheck (ctx : option Z) (cfg : handlerConfig) (c : Check) : string * bool :=
  match c with
  | None => ("check function is nil", false)
  | Some f =>
    match outcomeOf f (withTimeout ctx defaultCheckTimeout) with
    | OPass => ("ok", true)
    | OErr err => (if hc_detailed cfg then errorText err else genericCheckFailureMessage, false)
    | OPanic v => (if hc_detailed cfg then "panic: " +:+ v else genericCheckFailureMessage, false)
    end
  end.

(** The critical section of the goroutine of a check. *)
Definition record (ctx : option Z) (cfg : handlerConfig) (s : gmap string string * bool) (nc : string * Check) : gmap string string * bool :=
  let r := runCheck ctx cfg nc.2 in (<[nc.1 := r.1]> s.1, if r.2 then s.2 else false).
(** [order] is the order in which the goroutines get the lock. *)
Definition runChecks (ctx : option Z) (cfg : handlerConfig) (order : list (string * Check)) : gmap string string * bool :=
  foldl (record ctx cfg) (∅, true) order.

Record Response := mkResponse { rs_code : Z; rs_Status : string; rs_Checks : gmap string string }.
Definition StatusOK : Z := 200.
Definition StatusServiceUnavailable : Z := 503.
Definition writeCheckResponse (ctx : option Z) (cfg : handlerConfig) (order : list (string * Check)) (okStatus failStatus : string) : Response :=
  let r := runChecks ctx cfg order in
  mkResponse (if r.2 then StatusOK else StatusServiceUnavailable) (if r.2 then okStatus else failStatus) r.1.
(** A provider is nil, or has checks. *)
Definition HealthHandler (ctx : option Z) (opts : list HandlerOption) (provider : option (list (string * Check))) : Response :=
  match provider with
  | None => mkResponse StatusServiceUnavailable "unhealthy" {[ "provider" := "health check provider is nil" ]}
  | Some order => writeCheckResponse ctx (newHandlerConfig opts) order "ok" "unhealthy"
  end.
Definition ReadinessHandler (ctx : option Z) (opts : list HandlerOption) (provider : option (list (string * Check))) : Response :=
  match provider with
  | None => mkResponse StatusServiceUnavailable "not-ready" {[ "provider" := "readiness provider is nil" ]}
  | Some order => writeCheckResponse ctx (newHandlerConfig opts) order "ready" "not-ready"
  end.

(** ** gRPC *)

Definition ReadinessService : string := "readiness".
Record HealthChecker := mkChecker { hk_HealthChecks : gmap string Check; hk_ReadinessChecks : gmap string Check }.
Inductive ServingStatus := SERVICE_UNKNOWN | SERVING | NOT_SERVING.
#[export] Instance ServingStatus_eq_dec : EqDecision ServingStatus.
Proof. solve_decision. Defined.

Record HealthServer := mkHealthServer { hs_checker : HealthChecker; hs_watchInterval : Z; hs_checkTimeout : Z }.
Definition defaultWatchInterval : Z := 5000000000.
Definition HealthServerOption := HealthServer → HealthServer.
Definition WithWatchInterval (d : Z) : HealthServerOption := λ h, mkHealthServer (hs_checker h) d (hs_checkTimeout h).
Definition NewHealthServer (checker : HealthChecker) (opts : list HealthServerOption) : HealthServer :=
  let h := foldl (λ h opt, opt h) (mkHealthServer checker defaultWatchInterval defaultCheckTimeout) opts in
  if hs_watchInterval h <=? 0 then WithWatchInterval defaultWatchInterval h else h.

(** [None] is a panic. *)
Definition runCheckWithTimeout (ctx : option Z) (f : Z → Z * Outcome) (timeout : Z) : option bool :=
  match outcomeOf f (withTimeout ctx timeout) with OPass => Some true | OErr _ => Some false | OPanic _ => None end.
(** Whether the goroutine of a check leaves [healthy] as it is; a panic is
    recovered. *)
Definition checkOk (ctx : option Z) (timeout : Z) (c : Check) : bool :=
  match c with None => false | Some f => default false (runCheckWithTimeout ctx f timeout) end.
Definition evaluateChecks (h : HealthServer) (ctx : option Z) (order : list (string * Check)) : bool :=
  foldl (λ healthy nc, if checkOk ctx (hs_checkTimeout h) nc.2 then healthy else false) true order.
Definition servingStatus (healthy : bool) : ServingStatus := if healthy then SERVING else NOT_SERVING.

Definition NotFound : Z := 5.
Definition checksFor (h : HealthServer) (service : string) : gmap string Check + (Z * error) :=
  if String.eqb service ReadinessService then inl (hk_ReadinessChecks (hs_checker h))
  else if String.eqb service "" then inl (hk_HealthChecks (hs_checker h))
  else inr (NotFound, Errorf "unknown service %q" [service] []).
(** [schedule] orders the goroutines of the checks it is given. *)
Definition HealthCheck (h : HealthServer) (ctx : option Z) (service : string) (schedule : gmap string Check → list (string * Check)) :
    ServingStatus + (Z * error) :=
  match checksFor h service with
  | inr err => inr err
  | inl checks => inl (servingStatus (evaluateChecks h ctx (schedule checks)))
  end.

(** [Watch], as a program that runs the checks, sends, and waits for the next
    tick ([None]) or the end of the stream.  The checks behave differently from
    tick to tick: running them answers with how each behaves, in the order they
    end. *)
Inductive HOp := HRunChecks (checks : gmap string Check) | HSend (st : ServingStatus) | HSelect.
Definition HRes (o : HOp) : Type :=
  match o with HRunChecks _ => list (string * Check) | HSend _ => option error | HSelect => option error end.
(** How a call of [Watch] ended; [WGoesOn] is a loop of more than [fuel] turns. *)
Inductive WatchEnd := WErr (err : error) | WGoesOn.
Fixpoint watchLoop (fuel : nat) (h : HealthServer) (ctx : option Z) (checks : gmap string Check) (lastStatus : ServingStatus) :
    Code HRes WatchEnd :=
  match fuel with
  | O => mret WGoesOn
  | S fuel =>
    order ← call (HRunChecks checks);
    let current := servingStatus (evaluateChecks h ctx order) in
    sendErr ← (if decide (current = lastStatus) then mret None else call (HSend current));
    match (sendErr : option error) with
    | Some err => mret (WErr err)
    | None =>
      done ← call HSelect;
      match (done : option error) with
      | Some err => mret (WErr err)
      | None => watchLoop fuel h ctx checks current
      end
    end
  end.
Definition Watch (fuel : nat) (h : HealthServer) (ctx : option Z) (service : string) : Code HRes WatchEnd + (Z * error) :=
  match checksFor h service with
  | inr err => inr err
  | inl checks => inl (watchLoop fuel h ctx checks SERVICE_UNKNOWN)
  end.

(** * The HTTP response *)

Definition passes (ctx : option Z) (cfg : handlerConfig) (nc : string * Check) : bool := (runCheck ctx cfg nc.2).2.

(** What a run of the checks leaves, in any order without repeated names. *)
Lemma runChecks_spec ctx cfg order : NoDup order.*1 →
  (runChecks ctx cfg order).1 = list_to_map (prod_map id (λ c, (runCheck ctx cfg c).1) <$> order) ∧
  (runChecks ctx cfg order).2 = forallb (passes ctx cfg) order.
Proof.
  unfold runChecks. induction order as [|[n c] order IH] using rev_ind; [done|]. rewrite fmap_app. simpl.
  intros [Hd [Hn _]]%NoDup_app. destruct (IH Hd) as [IH1 IH2]. rewrite foldl_app. simpl.
  revert IH1 IH2. generalize (foldl (record ctx cfg) (∅, true) order). intros s -> ->. rewrite fmap_app, forallb_app. simpl. split.
  - rewrite list_to_map_snoc; [done|]. intros ([m d] & -> & ([m' d'] & [= -> ->] & Hin)%list_elem_of_fmap)%list_elem_of_fmap.
    apply (Hn m'); [|set_solver]. apply list_elem_of_fmap. by exists (m', d').
  - change (passes ctx cfg (n, c)) with (runCheck ctx cfg c).2. generalize (forallb (passes ctx cfg) order). intros b.
    by destruct (runCheck ctx cfg c).2, b.
Qed.

(** The order of a map's entries has no repeated names. *)
Lemma order_NoDup {A} (m : gmap string A) order : order ≡ₚ map_to_list m → NoDup order.*1.
Proof. intros ->. apply NoDup_fst_map_to_list. Qed.

Lemma forallb_map_to_list {A} (m : gmap string A) (f : A → bool) order : order ≡ₚ map_to_list m →
  forallb (λ nc, f nc.2) order = bool_decide (map_Forall (λ _ c, f c = true) m).
Proof.
  intros Hp. apply Bool.eq_true_iff_eq. rewrite forallb_forall, bool_decide_eq_true. unfold map_Forall. split.
  - intros H n c Hn. apply (H (n, c)). apply list_elem_of_In. rewrite Hp. by apply elem_of_map_to_list.
  - intros H [n c] Hin. apply list_elem_of_In in Hin. rewrite Hp in Hin. apply elem_of_map_to_list in Hin. by apply (H n).
Qed.

(** ** What the endpoints promise *)

(** Whether the options of an endpoint ask for detailed errors. *)
Inductive asksDetails : list HandlerOption → bool → Prop :=
| asks_nothing : asksDetails [] false
| asks_details opts b : asksDetails opts b → asksDetails (WithDetailedErrors :: opts) true
| asks_logger opts b : asksDetails opts b → asksDetails (WithHandlerLogger :: opts) b.
(** A check has five seconds, or what is left of the request if that is less. *)
Definition budget (ctx : option Z) : Z := match ctx with None => 5000000000 | Some rest => Z.min rest 5000000000 end.
(** What is to be said of a check, and whether it is well: it must be there and
    return nil when it runs with that much time. *)
Inductive judged (ctx : option Z) (detailed : bool) : Check → string → bool → Prop :=
| judged_nil : judged ctx detailed None "check function is nil" false
| judged_pass f t : f (budget ctx) = (t, OPass) → judged ctx detailed (Some f) "ok" true
| judged_err f t err : f (budget ctx) = (t, OErr err) → judged ctx detailed (Some f) (if detailed then errorText err else "failed") false
| judged_panic f t v : f (budget ctx) = (t, OPanic v) → judged ctx detailed (Some f) (if detailed then "panic: " +:+ v else "failed") false.
(** The response that the checks call for. *)
Record answers (ctx : option Z) (detailed : bool) (checks : gmap string Check) (okStatus failStatus : string) (r : Response) : Prop := {
  an_code : rs_code r = 200 ∧ rs_Status r = okStatus ∨ rs_code r = 503 ∧ rs_Status r = failStatus;
  an_healthy : rs_code r = 200 ↔ ∀ name c, checks !! name = Some c → ∃ msg, judged ctx detailed c msg true;
  an_message name c : checks !! name = Some c → ∃ msg b, rs_Checks r !! name = Some msg ∧ judged ctx detailed c msg b;
  an_only name : checks !! name = None → rs_Checks r !! name = None;
}.

Lemma asksDetails_spec opts b : asksDetails opts b → hc_detailed (newHandlerConfig opts) = b.
Proof.
  unfold newHandlerConfig.
  assert (∀ b, asksDetails opts b → ∀ c, hc_detailed (foldl (λ c opt, opt c) c opts) = b || hc_detailed c) as H.
  { clear b. induction 1 as [|opts b _ IH|opts b _ IH]; intros c; simpl; [done|rewrite IH; simpl; apply orb_true_r|apply IH]. }
  intros Ha. rewrite (H _ Ha). apply orb_false_r.
Qed.
Lemma runCheck_judged ctx cfg c : judged ctx (hc_detailed cfg) c (runCheck ctx cfg c).1 (runCheck ctx cfg c).2.
Proof.
  destruct c as [f|]; [|constructor]. unfold runCheck, outcomeOf. change (withTimeout ctx defaultCheckTimeout) with (budget ctx).
  destruct (f (budget ctx)) as [t []] eqn:E; by econstructor.
Qed.
Lemma judged_verdict ctx cfg c msg b : judged ctx (hc_detailed cfg) c msg b → (runCheck ctx cfg c).2 = b.
Proof. unfold runCheck, outcomeOf. change (withTimeout ctx defaultCheckTimeout) with (budget ctx). by destruct 1 as [|? ? ->|? ? ? ->|? ? ? ->]. Qed.
(** With errors not shown in detail, a message is one of these. *)
Definition safeMessages : list string := ["ok"; "failed"; "check function is nil"].
Lemma judged_safe ctx c msg b : judged ctx false c msg b → msg ∈ safeMessages.
Proof. unfold safeMessages. destruct 1; set_solver. Qed.

Lemma response_answers ctx cfg checks order okStatus failStatus : order ≡ₚ map_to_list checks →
  answers ctx (hc_detailed cfg) checks okStatus failStatus (writeCheckResponse ctx cfg order okStatus failStatus).
Proof.
  intros Hp. pose proof (order_NoDup _ _ Hp) as Hd. destruct (runChecks_spec ctx cfg order Hd) as [H1 H2]. unfold writeCheckResponse.
  assert (∀ name, (runChecks ctx cfg order).1 !! name = fst ∘ runCheck ctx cfg <$> checks !! name) as Hmap.
  { intros name. rewrite H1, (list_to_map_fmap (M := gmap string)), lookup_fmap.
    by rewrite (list_to_map_proper order (map_to_list checks) Hd Hp), list_to_map_to_list. }
  rewrite (forallb_map_to_list checks (λ c, (runCheck ctx cfg c).2) order Hp : forallb (passes ctx cfg) order = _) in H2.
  split; simpl.
  - case_match; auto.
  - rewrite H2. case_bool_decide as Hb; split; try done.
    + intros _ name c Hc. specialize (Hb name c Hc). simpl in Hb. exists (runCheck ctx cfg c).1. rewrite <-Hb. apply runCheck_judged.
    + intros H. destruct Hb. intros name c Hc. destruct (H name c Hc) as [msg Hj]. by eapply judged_verdict.
  - intros name c Hc. exists (runCheck ctx cfg c).1, (runCheck ctx cfg c).2. rewrite Hmap, Hc. split; [done|apply runCheck_judged].
  - intros name Hn. by rewrite Hmap, Hn.
Qed.

(** C36. Whatever the order in which the checks finish, the health and the readiness
    endpoint answer for them alone: 200 exactly when every check is there and
    returns nil within the time it is given, 503 otherwise; one message for every
    check, and no other; and unless the options ask for detailed errors, no
    message depends on an error or on the value of a panic. *)
Theorem health_response_exact ctx opts detailed checks order : order ≡ₚ map_to_list checks → asksDetails opts detailed →
  answers ctx detailed checks "ok" "unhealthy" (HealthHandler ctx opts (Some order)) ∧
  answers ctx detailed checks "ready" "not-ready" (ReadinessHandler ctx opts (Some order)) ∧
  (detailed = false → ∀ name msg, rs_Checks (HealthHandler ctx opts (Some order)) !! name = Some msg ∨
    rs_Checks (ReadinessHandler ctx opts (Some order)) !! name = Some msg → msg ∈ safeMessages).
Proof.
  intros Hp <-%asksDetails_spec.
  assert (∀ okStatus failStatus, answers ctx (hc_detailed (newHandlerConfig opts)) checks okStatus failStatus
    (writeCheckResponse ctx (newHandlerConfig opts) order okStatus failStatus)) as Ha by (intros; by apply response_answers).
  split; [apply Ha|]. split; [apply Ha|]. intros Hdet name msg Hm.
  assert (rs_Checks (writeCheckResponse ctx (newHandlerConfig opts) order "ok" "unhealthy") !! name = Some msg) as Hm' by (by destruct Hm).
  destruct (Ha "ok" "unhealthy") as [_ _ Hmsg Hnone]. destruct (checks !! name) as [c|] eqn:Hc; [|by rewrite Hnone in Hm'].
  destruct (Hmsg name c Hc) as (msg' & b & Hr & Hj). rewrite Hm' in Hr. injection Hr as <-. rewrite Hdet in Hj. by eapply judged_safe.
Qed.

(** A database check that fails with an error that names its host, and one that
    passes. *)
Definition dbCheck : Check := Some (λ _, (10, OErr (New "dial tcp db.internal:5432: connection refused"))).
Definition okCheck : Check := Some (λ _, (10, OPass)).
Lemma health_response_exact_witness :
  let r := HealthHandler None [WithHandlerLogger] (Some [("db", dbCheck); ("cache", okCheck)]) in
  rs_code r = 503 ∧ rs_Checks r !! "db" = Some "failed" ∧ (∀ msg, rs_Checks r !! "db" = Some msg → msg ∈ safeMessages).
Proof.
  assert ([("db", dbCheck); ("cache", okCheck)] ≡ₚ map_to_list (list_to_map [("db", dbCheck); ("cache", okCheck)] : gmap string Check)) as Hp.
  { rewrite map_to_list_to_map; [done|]. apply (bool_decide_unpack _). vm_compute. exact I. }
  destruct (health_response_exact None [WithHandlerLogger] false _ _ Hp (asks_logger _ _ asks_nothing)) as (_ & _ & H). split; [done|]. split; [done|].
  intros msg Hm. apply (H eq_refl "db" msg). by left.
Defined.

(** * The gRPC service *)

Lemma evaluateChecks_forallb h ctx order :
  evaluateChecks h ctx order = forallb (λ nc, checkOk ctx (hs_checkTimeout h) nc.2) order.
Proof.
  unfold evaluateChecks. induction order as [|nc order IH] using rev_ind; [done|]. rewrite foldl_app, forallb_app. simpl. rewrite IH.
  generalize (forallb (λ nc, checkOk ctx (hs_checkTimeout h) nc.2) order). intros b. by destruct (checkOk _ _ _), b.
Qed.

(** [Check] answers for the liveness or the readiness checks, whatever the order
    in which they end, and refuses any other service. *)
Theorem check_status_exact h ctx service schedule :
  (∀ checks, schedule checks ≡ₚ map_to_list checks) →
  HealthCheck h ctx service schedule =
  if decide (service = "readiness" ∨ service = "") then
    inl (if decide (map_Forall (λ _ c, checkOk ctx (hs_checkTimeout h) c = true)
          (if decide (service = "") then hk_HealthChecks (hs_checker h) else hk_ReadinessChecks (hs_checker h))) then SERVING else NOT_SERVING)
  else inr (NotFound, Errorf "unknown service %q" [service] []).
Proof.
  intros Hs. unfold HealthCheck, checksFor, ReadinessService.
  assert (∀ checks, servingStatus (evaluateChecks h ctx (schedule checks)) =
    if decide (map_Forall (λ _ c, checkOk ctx (hs_checkTimeout h) c = true) checks) then SERVING else NOT_SERVING) as He.
  { intros checks. rewrite evaluateChecks_forallb, (forallb_map_to_list checks (checkOk ctx (hs_checkTimeout h))) by done.
    unfold servingStatus. case_bool_decide; [by rewrite decide_True|by rewrite decide_False]. }
  destruct (String.eqb_spec service "readiness") as [->|H1]; [rewrite He, (decide_True (P := _ ∨ _)) by auto; done|].
  destruct (String.eqb_spec service "") as [->|H2]; [rewrite He, (decide_True (P := _ ∨ _)) by auto; done|].
  rewrite decide_False; [done|]. by intros [?|?].
Qed.

(** A check that outlives its timeout and then returns nil counts as passed. *)
Lemma late_pass_counts h ctx f : (f (withTimeout ctx (hs_checkTimeout h))).2 = OPass → checkOk ctx (hs_checkTimeout h) (Some f) = true.
Proof. unfold checkOk, runCheckWithTimeout, outcomeOf. by intros ->. Qed.

(** ** Watch *)

(** The statuses a stream of evaluations should report: those that differ from
    the one before. *)
Fixpoint changes (last : ServingStatus) (l : list ServingStatus) : list ServingStatus :=
  match l with
  | [] => []
  | st :: l => if decide (st = last) then changes last l else st :: changes st l
  end.
(** The statuses evaluated and those sent along a trace. *)
Fixpoint evaluated (h : HealthServer) (ctx : option Z) (tr : list (sigT HRes)) : list ServingStatus :=
  match tr with
  | [] => []
  | existT (HRunChecks _) order :: tr => servingStatus (evaluateChecks h ctx order) :: evaluated h ctx tr
  | _ :: tr => evaluated h ctx tr
  end.
Fixpoint sent (tr : list (sigT HRes)) : list ServingStatus :=
  match tr with
  | [] => []
  | existT (HSend st) _ :: tr => st :: sent tr
  | _ :: tr => sent tr
  end.
(** What a program is about to send. *)
Definition pending (c : Code HRes WatchEnd) : list ServingStatus := match c with Call (HSend st) _ => [st] | _ => [] end.
Definition ranOn (checks : gmap string Check) (x : sigT HRes) : Prop :=
  match x with existT (HRunChecks checks') _ => checks' = checks | _ => True end.

(** The wait for the next turn, and the turns after it. *)
Lemma select_reports h ctx checks cur (next : Code HRes WatchEnd) tr c :
  (∀ tr, runs HRes next tr c → changes cur (evaluated h ctx tr) = sent tr ++ pending c ∧ Forall (ranOn checks) tr) →
  runs HRes (call HSelect ≫= λ done : option error, match done with Some err => mret (WErr err) | None => next end) tr c →
  changes cur (evaluated h ctx tr) = sent tr ++ pending c ∧ Forall (ranOn checks) tr.
Proof.
  intros Hn [[-> ->]|(r & tr' & -> & Hr)]%runs_calls; [done|]. simpl in *. destruct r as [err|].
  - apply runs_ended in Hr as [-> ->]. split; [done|by repeat constructor].
  - destruct (Hn _ Hr) as [H1 H2]. split; [done|by constructor].
Qed.

Lemma watchLoop_reports h ctx checks fuel last tr c :
  runs HRes (watchLoop fuel h ctx checks last) tr c →
  changes last (evaluated h ctx tr) = sent tr ++ pending c ∧ Forall (ranOn checks) tr.
Proof.
  revert last tr. induction fuel as [|fuel IH]; intros last tr Hr; simpl in Hr.
  { apply runs_ended in Hr as [-> ->]. by split; [|constructor]. }
  apply runs_calls in Hr as [[-> ->]|(order & tr' & -> & Hr)]; [by split; [|constructor]|]. simpl in *.
  set (cur := servingStatus (evaluateChecks h ctx order)) in *. case_decide as Hc.
  - apply (select_reports h ctx checks cur) in Hr as [H1 H2]; [|apply IH]. rewrite <-Hc. split; [done|by constructor].
  - apply runs_calls in Hr as [[-> ->]|(r & tr & -> & Hr)]; [by split; [|repeat constructor]|]. simpl in *. destruct r as [err|].
    + apply runs_ended in Hr as [-> ->]. split; [done|by repeat constructor].
    + apply (select_reports h ctx checks cur) in Hr as [H1 H2]; [|apply IH]. rewrite H1. split; [done|by repeat constructor].
Qed.

(** Along every run of [Watch], the statuses sent (with the one being sent) are
    exactly those evaluated that differ from the one before, the first included;
    and every turn runs the checks that were registered when the stream began. *)
Theorem watch_reports_changes h ctx service fuel prog tr c :
  Watch fuel h ctx service = inl prog → runs HRes prog tr c →
  changes SERVICE_UNKNOWN (evaluated h ctx tr) = sent tr ++ pending c ∧
  ∃ checks, checksFor h service = inl checks ∧ Forall (ranOn checks) tr.
Proof.
  unfold Watch. destruct (checksFor h service) as [checks|e]; [|done]. intros [= <-] Hr.
  apply watchLoop_reports in Hr as [H1 H2]. split; [done|]. by exists checks.
Qed.

(** A service whose check fails on the second of three turns. *)
Definition watchTrace : list (sigT HRes) :=
  [existT (HRunChecks {[ "db" := okCheck ]}) [("db", okCheck)]; existT (HSend SERVING) None; existT HSelect None;
   existT (HRunChecks {[ "db" := okCheck ]}) [("db", okCheck)]; existT HSelect None;
   existT (HRunChecks {[ "db" := okCheck ]}) [("db", dbCheck)]].
Lemma watch_reports_changes_witness :
  let h := NewHealthServer (mkChecker {[ "db" := okCheck ]} ∅) [] in
  changes SERVICE_UNKNOWN (evaluated h None watchTrace) = [SERVING; NOT_SERVING] ∧
  ∃ c, changes SERVICE_UNKNOWN (evaluated h None watchTrace) = sent watchTrace ++ pending c.
Proof.
  intros h. split; [done|].
  assert (∃ c, runs HRes (watchLoop 5 h None {[ "db" := okCheck ]} SERVICE_UNKNOWN) watchTrace c) as [c Hc].
  { eexists. unfold watchTrace. repeat apply runs_call. apply runs_nil. }
  exists c. exact (proj1 (watch_reports_changes h None "" 5 _ watchTrace c eq_refl Hc)).
Defined.
