(* ===== verification/GrpcErrors.v ===== *)
(** Errors over gRPC (src/grpc/errors.go): the server's interceptor, which turns
    a handler's error into a status, and the client's translation of a status
    into a sentinel.

    The status type is google.golang.org/grpc/status's: a code and a message.
    [status.FromError] is a parameter, of which the documented behaviour is
    assumed: it finds the status of an error that is one, has the method
    [GRPCStatus], or wraps such an error, whose code it then keeps, with the text
    of the whole as its message.  Status details and logging are not modelled. *)

From stdpp Require Import base gmap list strings.
From S2P Require Import Prelude GoStrings.

#[local] Open Scope Z_scope.

(** * Codes and sentinels *)

Definition OK : Z := 0.
Definition Canceled : Z := 1.
Definition Unknown : Z := 2.
Definition InvalidArgument : Z := 3.
Definition DeadlineExceeded : Z := 4.
Definition NotFound : Z := 5.
Definition AlreadyExists : Z := 6.
Definition PermissionDenied : Z := 7.
Definition Internal : Z := 13.
Definition Unavailable : Z := 14.
Definition Unauthenticated : Z := 16.

Definition ErrInvalidInput : string := "grpc: invalid input".
Definition ErrNotFound : string := "grpc: not found".
Definition ErrAlreadyExists : string := "grpc: already exists".
Definition ErrPermissionDenied : string := "grpc: permission denied".
Definition ErrUnauthenticated : string := "grpc: unauthenticated".
Definition ErrUnavailable : string := "grpc: unavailable".
Definition ErrDeadlineExceeded : string := "grpc: deadline exceeded".
Definition ErrCanceled : string := "grpc: canceled".
Definition ErrInternal : string := "grpc: internal error".

Definition codeSentinels : gmap Z string := list_to_map [
  (InvalidArgument, ErrInvalidInput); (NotFound, ErrNotFound); (AlreadyExists, ErrAlreadyExists);
  (PermissionDenied, ErrPermissionDenied); (Unauthenticated, ErrUnauthenticated); (Unavailable, ErrUnavailable);
  (DeadlineExceeded, ErrDeadlineExceeded); (Canceled, ErrCanceled)].
Definition clientSafeStatusCodes : gmap Z bool := list_to_map [
  (InvalidArgument, true); (NotFound, true); (AlreadyExists, true); (PermissionDenied, true);
  (Unauthenticated, true); (Unavailable, true); (DeadlineExceeded, true); (Canceled, true)].
Definition genericInternalErrorMessage : string := "internal error".

(** * Errors *)

Record Status := mkStatus { st_Code : Z; st_Message : string }.
(** An error of the program, a status as an error, [translatedError], and an error
    with a text of its own that wraps others (fmt.Errorf with %w, errors.Join). *)
#[warnings="-register-all"]
Inductive gerror :=
| GErr (e : error)
| GStatus (st : Status)
| GTranslated (st : Status) (sentinel : string)
| GWrap (text : string) (wrapped : list gerror).
(** [translatedError.Error], and the texts of the others. *)
Definition gText (statusText : Status → string) (e : gerror) : string :=
  match e with
  | GErr e => errorText e
  | GStatus st => statusText st
  | GTranslated st sentinel => st_Message st +:+ ": " +:+ sentinel
  | GWrap text _ => text
  end.
(** [errors.Is] with a sentinel; [translatedError.Unwrap] gives the sentinel. *)
Fixpoint gIs (c : string) (e : gerror) : bool :=
  match e with
  | GErr e => error_is c e
  | GStatus _ => false
  | GTranslated _ sentinel => String.eqb sentinel c
  | GWrap _ es => existsb (gIs c) es
  end.
(** [translatedError.GRPCStatus], and that of a status. *)
Definition GRPCStatus (e : gerror) : option Status :=
  match e with GErr _ | GWrap _ _ => None | GStatus st => Some st | GTranslated st _ => Some st end.
(** The status of the first error with one that [e] is or wraps (errors.As). *)
Fixpoint carriedStatus (e : gerror) : option Status :=
  match e with
  | GErr _ => None
  | GStatus st | GTranslated st _ => Some st
  | GWrap _ es => head (omap carriedStatus es)
  end.
(** [status.Error]: no error for the code OK. *)
Definition statusError (code : Z) (msg : string) : option gerror :=
  if code =? OK then None else Some (GStatus (mkStatus code msg)).

Definition ErrorMapping := gerror → Z.
Definition canceledText : string := "context canceled".
Definition deadlineText : string := "context deadline exceeded".
Definition DefaultErrorMapping : ErrorMapping := λ err,
  if gIs canceledText err then Canceled
  else if gIs deadlineText err then DeadlineExceeded
  else Internal.

Record serverErrorInterceptorConfig := mkServerErrorConfig { sc_exposeInternal : bool }.
Definition ServerErrorInterceptorOption := serverErrorInterceptorConfig → serverErrorInterceptorConfig.
Definition WithExposeInternalErrors : ServerErrorInterceptorOption := λ _, mkServerErrorConfig true.

Section status.
(** [status.FromError] of a non-nil error, and the text of a status. *)
Variable FromError : gerror → Status * bool.
Variable statusText : Status → string.

Section interceptor.
Context {Resp : Type}.
Definition UnaryServerErrorInterceptor (mapping : option ErrorMapping) (opts : list ServerErrorInterceptorOption)
    (handled : Resp * option gerror) : Resp * option gerror :=
  let mapping := default DefaultErrorMapping mapping in
  let cfg := foldl (λ c opt, opt c) (mkServerErrorConfig false) opts in
  match handled with
  | (resp, None) => (resp, None)
  | (resp, Some err) =>
    if (FromError err).2 then (resp, Some err)
    else
      let code := mapping err in
      let msg := if negb (sc_exposeInternal cfg) && negb (default false (clientSafeStatusCodes !! code)) then genericInternalErrorMessage
                 else gText statusText err in
      (resp, statusError code msg)
  end.
End interceptor.

Definition TranslateError (err : option gerror) : option gerror :=
  match err with
  | None => None
  | Some err =>
    let (st, ok) := FromError err in
    if negb ok then Some err
    else if st_Code st =? OK then None
    else Some (GTranslated st (default ErrInternal (codeSentinels !! st_Code st)))
  end.
Definition UnaryClientErrorInterceptor (invoked : option gerror) : option gerror := TranslateError invoked.

(** * Theorems *)

(** What the documentation of [status.FromError] says. *)
Hypothesis FromError_status : ∀ e st, GRPCStatus e = Some st → FromError e = (st, true).
Hypothesis FromError_wrapped : ∀ e st, GRPCStatus e = None → carriedStatus e = Some st →
  FromError e = (mkStatus (st_Code st) (gText statusText e), true).
Hypothesis FromError_none : ∀ e, carriedStatus e = None → (FromError e).2 = false.

(** The table of the documentation of [TranslateError]. *)
Inductive sentinelFor : Z → string → Prop :=
  | sentinel_InvalidArgument : sentinelFor 3 "grpc: invalid input"
  | sentinel_NotFound : sentinelFor 5 "grpc: not found"
  | sentinel_AlreadyExists : sentinelFor 6 "grpc: already exists"
  | sentinel_PermissionDenied : sentinelFor 7 "grpc: permission denied"
  | sentinel_Unauthenticated : sentinelFor 16 "grpc: unauthenticated"
  | sentinel_Unavailable : sentinelFor 14 "grpc: unavailable"
  | sentinel_DeadlineExceeded : sentinelFor 4 "grpc: deadline exceeded"
  | sentinel_Canceled : sentinelFor 1 "grpc: canceled"
  | sentinel_other code : code ∉ [1; 3; 4; 5; 6; 7; 14; 16] → sentinelFor code "grpc: internal error".
Lemma sentinel_table code : sentinelFor code (default ErrInternal (codeSentinels !! code)).
Proof.
  destruct (decide (code ∈ [1; 3; 4; 5; 6; 7; 14; 16])) as [Hin|Hn].
  - rewrite !elem_of_cons in Hin. destruct Hin as [->|[->|[->|[->|[->|[->|[->|[->|[]%not_elem_of_nil]]]]]]]]; vm_compute; constructor.
  - assert (codeSentinels !! code = None) as ->; [|by apply sentinel_other].
    rewrite !not_elem_of_cons in Hn. unfold codeSentinels. simpl. destruct Hn as (?&?&?&?&?&?&?&?&_). by rewrite !lookup_insert_ne by done.
Qed.
Definition safeCode (code : Z) : Prop := code ∈ [Canceled; InvalidArgument; DeadlineExceeded; NotFound; AlreadyExists; PermissionDenied; Unavailable; Unauthenticated].

Lemma safeCode_spec code : default false (clientSafeStatusCodes !! code) = bool_decide (safeCode code).
Proof.
  destruct (decide (safeCode code)) as [Hs|Hs].
  - rewrite bool_decide_eq_true_2 by done. unfold safeCode in Hs. rewrite !elem_of_cons in Hs.
    repeat (destruct Hs as [->|Hs]; [by vm_compute|]). by apply not_elem_of_nil in Hs.
  - rewrite bool_decide_eq_false_2 by done. unfold safeCode in Hs. rewrite !not_elem_of_cons in Hs. unfold clientSafeStatusCodes. simpl.
    destruct Hs as (?&?&?&?&?&?&?&?&_). by rewrite !lookup_insert_ne by done.
Qed.
(** A client's translation of an error with the status [st]: it has the same
    status, is the sentinel [s] of its code and no other, and is translated to
    itself; the status alone, as it crosses the network, is translated alike. *)
Record translated (e : option gerror) (st : Status) (s : string) : Prop := {
  tr_error : TranslateError e = Some (GTranslated st s);
  tr_sentinel : sentinelFor (st_Code st) s;
  tr_is : ∀ c, gIs c (GTranslated st s) = true ↔ c = s;
  tr_again : TranslateError (Some (GTranslated st s)) = Some (GTranslated st s);
  tr_wire : TranslateError (Some (GStatus st)) = Some (GTranslated st s) }.
Lemma found_translated e st : FromError e = (st, true) → st_Code st ≠ OK →
  translated (Some e) st (default ErrInternal (codeSentinels !! st_Code st)).
Proof.
  intros Hf Hc. apply Z.eqb_neq in Hc. split; unfold TranslateError.
  - by rewrite Hf, Hc.
  - apply sentinel_table.
  - intros c. simpl. by rewrite String.eqb_eq.
  - rewrite (FromError_status (GTranslated _ _) _ eq_refl). simpl. by rewrite Hc.
  - rewrite (FromError_status (GStatus _) _ eq_refl). simpl. by rewrite Hc.
Qed.

(** C35. What a client with the translation sees of a handler's error.  One that
    carries no status, of its own or wrapped, gets the code the mapping gives it:
    if that is not OK, the client sees that code with its sentinel of the
    documented table, and as its message the text of the error for the codes
    meant for callers, or when the server opted in, and [internal error]
    otherwise; if it is OK, the call succeeds.  One that carries a status passes
    the server as it is, and the client sees its code, unless it is OK, with its
    sentinel, and its message, or the text of the whole if it was wrapped. *)
Theorem rpc_error_exact {Resp} mapping opts (resp : Resp) err :
  let sent := (UnaryServerErrorInterceptor mapping opts (resp, Some err)).2 in
  let code := default DefaultErrorMapping mapping err in
  let expose := sc_exposeInternal (foldl (λ c opt, opt c) (mkServerErrorConfig false) opts) in
  match carriedStatus err with
  | None =>
    (code = 0 → sent = None) ∧
    (code ≠ 0 → ∃ s, translated sent (mkStatus code (if decide (expose = true ∨ safeCode code) then gText statusText err else "internal error")) s)
  | Some st =>
    sent = Some err ∧
    (st_Code st ≠ 0 → ∃ s, translated sent (match GRPCStatus err with Some _ => st | None => mkStatus (st_Code st) (gText statusText err) end) s)
  end.
Proof.
  intros sent code expose. unfold sent, UnaryServerErrorInterceptor. destruct (carriedStatus err) as [st|] eqn:Hc.
  - destruct (GRPCStatus err) as [st'|] eqn:Hg.
    + assert (st' = st) as -> by (destruct err; simpl in *; congruence). rewrite (FromError_status _ _ Hg). simpl. split; [done|].
      intros Hok. eexists. apply found_translated; [by apply FromError_status|done].
    + rewrite (FromError_wrapped _ _ Hg Hc). simpl. split; [done|]. intros Hok. eexists. apply found_translated; [by apply FromError_wrapped|done].
  - rewrite (FromError_none err Hc). fold code expose. simpl. unfold statusError. split; [by intros ->|]. intros Hok.
    rewrite (proj2 (Z.eqb_neq code OK) Hok). eexists. apply found_translated; [|done]. rewrite (FromError_status (GStatus _) _ eq_refl).
    f_equal. f_equal. rewrite safeCode_spec. destruct (decide (expose = true ∨ safeCode code)) as [[->|Hs]|Hs]; [done|..].
    + by rewrite bool_decide_eq_true_2, andb_false_r by done.
    + destruct expose; [tauto|]. rewrite bool_decide_eq_false_2; [done|tauto].
Qed.
End status.

(** [status.FromError] on the errors of the model. *)
Definition fromError (e : gerror) : Status * bool :=
  match GRPCStatus e, carriedStatus e with
  | Some st, _ => (st, true)
  | None, Some st => (mkStatus (st_Code st) (gText st_Message e), true)
  | None, None => (mkStatus Unknown (gText st_Message e), false)
  end.
Lemma fromError_status e st : GRPCStatus e = Some st → fromError e = (st, true).
Proof. unfold fromError. by intros ->. Qed.
Lemma fromError_wrapped e st : GRPCStatus e = None → carriedStatus e = Some st → fromError e = (mkStatus (st_Code st) (gText st_Message e), true).
Proof. unfold fromError. by intros -> ->. Qed.
Lemma fromError_none e : carriedStatus e = None → (fromError e).2 = false.
Proof. unfold fromError. intros H. rewrite H. by destruct e. Qed.
(** A driver's error under the default mapping, and a wrapped answer of another
    service. *)
Lemma rpc_error_exact_witness :
  (∃ s, translated fromError (UnaryServerErrorInterceptor fromError st_Message None [] ((), Some (GErr (New "dial tcp db.internal:5432: refused")))).2
      (mkStatus Internal "internal error") s) ∧
  (∃ s, translated fromError (UnaryServerErrorInterceptor fromError st_Message None [] ((), Some (GWrap "users: gone" [GStatus (mkStatus NotFound "gone")]))).2
      (mkStatus NotFound "users: gone") s).
Proof.
  split.
  - apply (rpc_error_exact fromError st_Message fromError_status fromError_wrapped fromError_none
      None [] () (GErr (New "dial tcp db.internal:5432: refused"))). discriminate.
  - apply (rpc_error_exact fromError st_Message fromError_status fromError_wrapped fromError_none
      None [] () (GWrap "users: gone" [GStatus (mkStatus NotFound "gone")])). discriminate.
Defined.
