(* ===== verification/Servers.v ===== *)
(** Servers owned by the lifecycle: the gRPC server (src/grpc/server.go) and the
    supervised HTTP server (src/httpx/httpx.go: Serve).

    [Start] and [Stop] of the gRPC server, the goroutine that serves and the one
    that stops gracefully are threads over one server; a critical section is one
    call.  The gRPC and HTTP libraries answer arbitrarily: their [Serve] returns
    when it likes, with the documented effect that the listener is closed then.
    Logging is left out. *)

From stdpp Require Import base list strings.
From S2P Require Import Prelude Code Threads.

#[local] Open Scope Z_scope.

(** * Configuration *)

Definition DefaultShutdownTimeout : Z := 10000000000.
Record ServerConfig := mkServerConfig { sg_shutdownTimeout : Z }.
Definition ServerOption := ServerConfig → ServerConfig.
Definition WithShutdownTimeout (d : Z) : ServerOption := λ _, mkServerConfig d.
Definition NewServer (hasServer hasListener : bool) (opts : list ServerOption) : ServerConfig + error :=
  if negb hasServer then inr (New "grpc: server must not be nil")
  else if negb hasListener then inr (New "grpc: listener must not be nil")
  else inl (foldl (λ s opt, opt s) (mkServerConfig DefaultShutdownTimeout) opts).

(** * Calls *)

Inductive GOp :=
  (* Start and the goroutine it launches *)
  | GStartEnter                  (* the critical section of Start: the error it returns with *)
  | GGoServe
  | GServe                       (* grpcServer.Serve *)
  | GRecord (err : error)        (* s.serveErr = err *)
  | GCloseDone                   (* close(s.done) *)
  (* Stop *)
  | GStopEnter                   (* its critical section: whether the server was started *)
  | GCloseListener
  | GOnceEnter                   (* stopOnce.Do: whether this call runs the function *)
  | GGoGraceful
  | GSelect                      (* the select of stop: the error of the context, or gracefulDone *)
  | GForceStop                   (* grpcServer.Stop *)
  | GWaitGraceful                (* <-gracefulDone *)
  | GWaitDone                    (* <-s.done *)
  | GReadServeErr
  | GSetStopErr (err : option error)
  | GOnceExit
  | GReadStopErr
  (* the goroutine of stop *)
  | GGracefulStop
  | GCloseGraceful.
Definition GRes (o : GOp) : Type :=
  match o with
  | GStartEnter | GServe | GSelect | GReadServeErr | GReadStopErr => option error
  | GStopEnter | GOnceEnter => bool
  | _ => unit
  end.
(** What a thread ends with. *)
Inductive GEnd := RStart (err : option error) | RStop (err : option error) | RGoroutine.
Definition GProg := Code GRes GEnd.

(** * The programs *)

Definition ErrServerStopped : string := "grpc: the server has been stopped".
Definition Start : GProg :=
  err ← call GStartEnter;
  match (err : option error) with
  | Some err => mret (RStart (Some err))
  | None => call GGoServe ;; mret (RStart None)
  end.
Definition serveGoroutine : GProg :=
  err ← call GServe;
  (match (err : option error) with
   | Some err => if negb (error_is ErrServerStopped err) then call (GRecord err) else mret tt
   | None => mret tt
   end) ;;
  call GCloseDone ;;
  mret RGoroutine.
Definition gracefulGoroutine : GProg := call GGracefulStop ;; call GCloseGraceful ;; mret RGoroutine.

Definition stop : Code GRes (option error) :=
  call GGoGraceful ;;
  forced ← call GSelect;
  (match (forced : option error) with
   | Some _ => call GForceStop ;; call GWaitGraceful
   | None => mret tt
   end) ;;
  call GWaitDone ;;
  serveErr ← call GReadServeErr;
  mret (match (forced : option error) with
        | Some ctxErr => Some (Errorf "grpc: graceful shutdown did not complete before the deadline, forced stop: %w" [] [ctxErr])
        | None =>
          match (serveErr : option error) with
          | Some err => Some (Errorf "grpc: server exited with error: %w" [] [err])
          | None => None
          end
        end).
Definition Stop : GProg :=
  started ← call GStopEnter;
  if negb (started : bool) then call GCloseListener ;; mret (RStop None)
  else
    first ← call GOnceEnter;
    (if (first : bool) then stopErr ← stop; call (GSetStopErr stopErr) ;; call GOnceExit else mret tt) ;;
    err ← call GReadStopErr;
    mret (RStop err).

(** * The server and its threads *)

Inductive OnceState := OnceFresh | OnceRunning | OnceDone.
#[export] Instance OnceState_eq_dec : EqDecision OnceState.
Proof. solve_decision. Defined.
Record Server := mkServer {
  sv_started : bool; sv_stopRequested : bool; sv_serveErr : option error; sv_done : bool;
  sv_once : OnceState; sv_stopErr : option error; sv_gracefulDone : bool;
  sv_listenerClosed : bool }.
Definition newServer : Server := mkServer false false None false OnceFresh None false false.

Definition exec (env : ∀ o, GRes o) (fuel : nat) (o : GOp) (s : Server) : option (GRes o * Server * list GProg) :=
  let '(mkServer started stopRequested serveErr done once stopErr gracefulDone closed) := s in
  match o return option (GRes o * Server * list GProg) with
  | GStartEnter =>
    if started then Some (Some (New "grpc: Start called more than once"), s, [])
    else if stopRequested then Some (Some (New "grpc: Start called after Stop"), s, [])
    else Some (None, mkServer true stopRequested serveErr done once stopErr gracefulDone closed, [])
  | GGoServe => Some (tt, s, [serveGoroutine])
  | GServe => Some (env GServe, mkServer started stopRequested serveErr done once stopErr gracefulDone true, [])
  | GRecord err => Some (tt, mkServer started stopRequested (Some err) done once stopErr gracefulDone closed, [])
  | GCloseDone => Some (tt, mkServer started stopRequested serveErr true once stopErr gracefulDone closed, [])
  | GStopEnter => Some (started, mkServer started true serveErr done once stopErr gracefulDone closed, [])
  | GCloseListener => Some (tt, mkServer started stopRequested serveErr done once stopErr gracefulDone true, [])
  | GOnceEnter =>
    match once with
    | OnceFresh => Some (true, mkServer started stopRequested serveErr done OnceRunning stopErr gracefulDone closed, [])
    | OnceRunning => None
    | OnceDone => Some (false, s, [])
    end
  | GGoGraceful => Some (tt, s, [gracefulGoroutine])
  | GSelect =>
    match env GSelect with
    | Some err => Some (Some err, s, [])
    | None => if gracefulDone then Some (None, s, []) else None
    end
  | GForceStop => Some (tt, s, [])
  | GWaitGraceful => if gracefulDone then Some (tt, s, []) else None
  | GWaitDone => if done then Some (tt, s, []) else None
  | GReadServeErr => Some (serveErr, s, [])
  | GSetStopErr err => Some (tt, mkServer started stopRequested serveErr done once err gracefulDone closed, [])
  | GOnceExit => Some (tt, mkServer started stopRequested serveErr done OnceDone stopErr gracefulDone closed, [])
  | GReadStopErr => Some (stopErr, s, [])
  | GGracefulStop => Some (tt, s, [])
  | GCloseGraceful => Some (tt, mkServer started stopRequested serveErr done once stopErr true closed, [])
  end.

Inductive GMethod := MStart | MStop.
Definition method (m : GMethod) : GProg := match m with MStart => Start | MStop => Stop end.
Definition serverReachable : Sys GRes GEnd Server → Prop := Threads.reachable exec method newServer.

(** * What a thread may still do *)

Inductive GPhase :=
  | PFree
  | PLaunch                     (* Start has marked the server started *)
  | PStarted
  | PServing
  | PServed                     (* Serve has returned *)
  | PUnstarted                  (* Stop of a server that was not started *)
  | PStopping                   (* Stop of one that was *)
  | PInOnce
  | PWaited                     (* in the once, after <-s.done *)
  | PAfterOnce
  | PStopped (err : option error)
  | PEnd.
Definition allowedG (ph : GPhase) (o : GOp) : Prop :=
  match o with
  | GStartEnter | GStopEnter => ph = PFree
  | GGoServe => ph = PLaunch
  | GServe => ph = PServing
  | GRecord _ | GCloseDone => ph = PServed
  | GCloseListener => ph = PUnstarted
  | GOnceEnter => ph = PStopping
  | GGoGraceful | GSelect | GForceStop | GWaitGraceful | GWaitDone => ph = PInOnce
  | GReadServeErr | GSetStopErr _ | GOnceExit => ph = PWaited
  | GReadStopErr => ph = PAfterOnce
  | GGracefulStop | GCloseGraceful => ph = PEnd
  end.
Definition nextG (ph : GPhase) (o : GOp) : GRes o → GPhase :=
  match o return GRes o → GPhase with
  | GStartEnter => λ err, match err with None => PLaunch | Some _ => PEnd end
  | GGoServe => λ _, PStarted
  | GServe => λ _, PServed
  | GCloseDone => λ _, PEnd
  | GStopEnter => λ started : bool, if started then PStopping else PUnstarted
  | GCloseListener => λ _, PStopped None
  | GOnceEnter => λ first : bool, if first then PInOnce else PAfterOnce
  | GWaitDone => λ _, PWaited
  | GOnceExit => λ _, PAfterOnce
  | GReadStopErr => λ err, PStopped err
  | _ => λ _, ph
  end.
Definition finalG (ph : GPhase) (r : GEnd) : Prop :=
  match r with
  | RStart None => ph = PStarted
  | RStart (Some _) => ph = PEnd
  | RStop err => ph = PStopped err
  | RGoroutine => ph = PEnd
  end.
Definition gthread (ph : GPhase) (c : GProg) : Prop := follows GRes allowedG nextG finalG ph c.

Lemma serve_thread : gthread PServing serveGoroutine.
Proof.
  split; [done|]. intros err. cbn [nextG]. eapply (follows_bind GRes _ _ (λ ph _, ph = PServed)); [|intros ph ? ->; by repeat split].
  destruct err as [err|]; [|done]. by destruct (negb _).
Qed.
Lemma graceful_thread : gthread PEnd gracefulGoroutine.
Proof. by repeat (split; [done|]; intros ?). Qed.
Lemma stop_follows : follows GRes allowedG nextG (λ ph _, ph = PWaited) PInOnce stop.
Proof.
  split; [done|]. intros ?. split; [done|]. intros forced. cbn [nextG].
  eapply (follows_bind GRes _ _ (λ ph _, ph = PInOnce)); [by destruct forced; repeat (split; [done|]; intros ?)|].
  intros ph ? ->. split; [done|]. intros ?. split; [done|]. by intros ?.
Qed.
Lemma server_method_thread m : gthread PFree (method m).
Proof.
  destruct m; split; try done.
  - intros [err|]; [done|]. by split.
  - intros [|]; [|by split]. split; [done|]. intros first. cbn [nextG].
    eapply (follows_bind GRes _ _ (λ ph _, ph = PAfterOnce)); [|intros ph ? ->; split; [done|]; by intros ?].
    destruct first; [|done]. cbn [nextG]. eapply follows_bind; [apply stop_follows|]. intros ph e ->. by repeat (split; [done|]; intros ?).
Qed.
Definition startedG (o : GOp) : list GPhase := match o with GGoServe => [PServing] | GGoGraceful => [PEnd] | _ => [] end.
Lemma server_starts env fuel o b r b' ps : exec env fuel o b = Some (r, b', ps) → Forall2 gthread (startedG o) ps.
Proof.
  destruct b, o; cbn [exec]; intros H; repeat (case_match; simplify_eq); simplify_eq; cbn [startedG];
    first [apply Forall2_nil_2 | apply Forall2_cons; split; [apply serve_thread || apply graceful_thread|apply Forall2_nil_2]].
Qed.

(** * Shutdown *)

Definition isLauncher (ph : GPhase) : bool := match ph with PLaunch | PStarted => true | _ => false end.
Definition isServer (ph : GPhase) : bool := match ph with PLaunch | PServing | PServed => true | _ => false end.
Definition inOnce (ph : GPhase) : bool := match ph with PInOnce | PWaited => true | _ => false end.
Definition b2n (b : bool) : nat := if b then 1 else 0.
(** What a phase says about the server. *)
Definition phaseOk (s : Server) (ph : GPhase) : Prop :=
  match ph with
  | PServed => sv_listenerClosed s = true
  | PUnstarted => sv_started s = false ∧ sv_stopRequested s = true
  | PStopping | PInOnce => sv_started s = true
  | PWaited => sv_done s = true
  | PAfterOnce => sv_once s = OnceDone
  | PStopped err =>
    (sv_started s = false ∧ sv_stopRequested s = true ∧ sv_listenerClosed s = true ∧ err = None) ∨
    (sv_once s = OnceDone ∧ err = sv_stopErr s)
  | _ => True
  end.
Record serverInv (s : Server) (phs : list GPhase) : Prop := {
  si_launched : countIf isLauncher phs = b2n (sv_started s);
  si_serves : (countIf isServer phs + b2n (sv_done s) = b2n (sv_started s))%nat;
  si_once : countIf inOnce phs = b2n (bool_decide (sv_once s = OnceRunning));
  si_ran : sv_once s = OnceDone → sv_done s = true;
  si_closed : sv_done s = true → sv_listenerClosed s = true;
  si_phases : Forall (phaseOk s) phs }.


(** What never changes back. *)
Record later (s s' : Server) : Prop := {
  la_started : sv_started s = true → sv_started s' = true;
  la_requested : sv_stopRequested s = true → sv_stopRequested s' = true ∧ sv_started s' = sv_started s;
  la_done : sv_done s = true → sv_done s' = true;
  la_closed : sv_listenerClosed s = true → sv_listenerClosed s' = true;
  la_once : sv_once s = OnceDone → sv_once s' = OnceDone ∧ sv_stopErr s' = sv_stopErr s }.
Lemma phaseOk_later s s' ph : later s s' → phaseOk s ph → phaseOk s' ph.
Proof.
  intros [L1 L2 L3 L4 L5]. destruct ph; simpl; auto.
  - intros [H1 H2]. destruct (L2 H2) as [? ->]. done.
  - intros H. by apply L5.
  - intros [(H1 & H2 & H3 & ->)|[H1 ->]]; [left|right].
    + destruct (L2 H2) as [? ->]. auto.
    + destruct (L5 H1) as [? ->]. done.
Qed.

Ltac server_cases s o :=
  destruct s as [st sr se dn on er gd cl]; destruct o; cbn [exec allowedG nextG startedG] in *; subst; simpl in *;
  repeat (case_match; simplify_eq); simplify_eq; simpl in *.

Lemma exec_later env fuel o s r s' ps ph : exec env fuel o s = Some (r, s', ps) → allowedG ph o →
  (inOnce ph = true → sv_once s = OnceRunning) → later s s'.
Proof. intros He Ha Ho. server_cases s o; split; simpl; naive_solver. Qed.

Lemma exec_phaseOk env fuel o s r s' ps ph : exec env fuel o s = Some (r, s', ps) → allowedG ph o → phaseOk s ph →
  (inOnce ph = true → sv_once s = OnceRunning) → (sv_done s = true → sv_listenerClosed s = true) → phaseOk s' (nextG ph o r).
Proof. intros He Ha Hok Ho Hc. server_cases s o; naive_solver. Qed.

(** How many threads there are of each kind after a call. *)
Lemma exec_counts env fuel o s r s' ps ph nl ns no : exec env fuel o s = Some (r, s', ps) → allowedG ph o →
  (nl + b2n (isLauncher ph) = b2n (sv_started s))%nat → (ns + b2n (isServer ph) + b2n (sv_done s) = b2n (sv_started s))%nat →
  (no + b2n (inOnce ph) = b2n (bool_decide (sv_once s = OnceRunning)))%nat →
  (nl + b2n (isLauncher (nextG ph o r)) = b2n (sv_started s'))%nat ∧
  (ns + b2n (isServer (nextG ph o r)) + countIf isServer (startedG o) + b2n (sv_done s') = b2n (sv_started s'))%nat ∧
  (no + b2n (inOnce (nextG ph o r)) = b2n (bool_decide (sv_once s' = OnceRunning)))%nat.
Proof.
  intros He Ha. server_cases s o; unfold b2n, countIf; simpl; repeat case_match; simplify_eq; try lia.
Qed.

Lemma server_inv_moves s phs s' phs' : serverInv s phs → moves exec allowedG nextG PFree startedG s phs s' phs' → serverInv s' phs'.
Proof.
  intros [H1 H2 H3 H4 H5 H6] Hm. destruct Hm as [|i ph o r s' env fuel ps Hph Ha He].
  { split; rewrite ?countIf_app, ?countIf_one; simpl; try done; try lia. apply Forall_app. split; [done|by repeat constructor]. }
  pose proof (countIf_insert isLauncher phs i ph (nextG ph o r) Hph) as C1.
  pose proof (countIf_insert isServer phs i ph (nextG ph o r) Hph) as C2.
  pose proof (countIf_insert inOnce phs i ph (nextG ph o r) Hph) as C3.
  fold (b2n (isLauncher ph)) (b2n (isLauncher (nextG ph o r))) in C1. fold (b2n (isServer ph)) (b2n (isServer (nextG ph o r))) in C2.
  fold (b2n (inOnce ph)) (b2n (inOnce (nextG ph o r))) in C3.
  pose proof (Forall_lookup_1 _ _ _ _ H6 Hph) as Hok. pose proof (list_elem_of_lookup_2 _ _ _ Hph) as Hin.
  assert (∀ f, (b2n (f ph) ≤ countIf f phs)%nat) as Hpos.
  { intros f. destruct (f ph) eqn:E; [by apply (countIf_pos f phs ph)|simpl; lia]. }
  pose proof (Hpos isLauncher) as P1. pose proof (Hpos isServer) as P2. pose proof (Hpos inOnce) as P3.
  assert (inOnce ph = true → sv_once s = OnceRunning) as Hon.
  { intros E. rewrite E in P3. simpl in P3. destruct (decide (sv_once s = OnceRunning)) as [|Eo]; [done|].
    rewrite bool_decide_eq_false_2 in H3 by done. simpl in H3. lia. }
  destruct (exec_counts env fuel o s r s' ps ph (countIf isLauncher phs - b2n (isLauncher ph)) (countIf isServer phs - b2n (isServer ph))
    (countIf inOnce phs - b2n (inOnce ph)) He Ha) as (N1 & N2 & N3); [lia..|].
  assert (countIf isLauncher (startedG o) = 0%nat) as S1 by (by destruct o). assert (countIf inOnce (startedG o) = 0%nat) as S3 by (by destruct o).
  pose proof (exec_later _ _ _ _ _ _ _ _ He Ha Hon) as HL. split; rewrite ?countIf_app; [lia..| | |].
  - clear -He Ha Hon Hok H4. server_cases s o; naive_solver.
  - clear -He Ha Hok H5. server_cases s o; naive_solver.
  - apply Forall_app. split; [|by destruct o; repeat constructor]. apply Forall_insert.
    + eapply Forall_impl; [exact H6|]. intros ph'. by apply phaseOk_later.
    + by eapply exec_phaseOk.
Qed.

Lemma server_reachable_inv s : serverReachable s → ∃ phs, Forall2 gthread phs (sys_threads s) ∧ serverInv (sys_st s) phs.
Proof.
  apply (threads_inv exec method allowedG nextG finalG PFree startedG server_method_thread server_starts serverInv); [|exact server_inv_moves].
  split; try done.
Qed.
Lemma returned_phase phs ts n r : Forall2 gthread phs ts → ts !! n = Some (Ret r) → ∃ ph, phs !! n = Some ph ∧ finalG ph r.
Proof. intros H Hn. destruct (Forall2_lookup_r _ _ _ _ _ H Hn) as (ph & ? & ?). eauto. Qed.
Lemma calling_phase phs ts n o k : Forall2 gthread phs ts → ts !! n = Some (Call o k) → ∃ ph, phs !! n = Some ph ∧ allowedG ph o.
Proof. intros H Hn. destruct (Forall2_lookup_r _ _ _ _ _ H Hn) as (ph & ? & ? & ?). eauto. Qed.

(** The calls of a server that is still to serve, or serves. *)
Definition servingOp (o : GOp) : bool := match o with GGoServe | GServe | GRecord _ | GCloseDone => true | _ => false end.
Lemma servingOp_isServer ph o : allowedG ph o → servingOp o = true → isServer ph = true.
Proof. by destruct o; simpl; try done; intros ->. Qed.

(** C34. When a [Stop] of the gRPC server has returned, the listener is closed and no
    goroutine serves or will; all calls of [Stop] return the same result; [Start]
    succeeds at most once; and a [Stop] that waits for the serving goroutine has
    one to wait for. *)
Theorem grpc_stop_exact s : serverReachable s →
  (∀ i err, sys_threads s !! i = Some (Ret (RStop err)) →
    sv_listenerClosed (sys_st s) = true ∧ ∀ n o k, sys_threads s !! n = Some (Call o k) → servingOp o = false) ∧
  (∀ i j err err', sys_threads s !! i = Some (Ret (RStop err)) → sys_threads s !! j = Some (Ret (RStop err')) → err = err') ∧
  (∀ i j, sys_threads s !! i = Some (Ret (RStart None)) → sys_threads s !! j = Some (Ret (RStart None)) → i = j) ∧
  (∀ i k, sys_threads s !! i = Some (Call GWaitDone k) → sv_done (sys_st s) = false → ∃ n ph, isServer ph = true ∧
    (∃ c, sys_threads s !! n = Some c ∧ gthread ph c)).
Proof.
  intros (phs & Hth & [H1 H2 H3 H4 H5 H6])%server_reachable_inv.
  assert (∀ i err, sys_threads s !! i = Some (Ret (RStop err)) → phaseOk (sys_st s) (PStopped err)) as Hst.
  { intros i err Hi. destruct (returned_phase _ _ _ _ Hth Hi) as (ph & Hph & ->). by apply (Forall_lookup_1 _ _ _ _ H6 Hph). }
  split; [|split; [|split]].
  - intros i err Hi. assert (sv_listenerClosed (sys_st s) = true ∧ countIf isServer phs = 0%nat) as [Hc H0].
    { destruct (Hst i err Hi) as [(Es & _ & Ec & _)|[Eo _]].
      - rewrite Es in H2. simpl in H2. split; [done|lia].
      - rewrite (H4 Eo) in H2. split; [by apply H5, H4|]. destruct (sv_started (sys_st s)); simpl in H2; lia. }
    split; [done|]. intros n o k Hn. destruct (calling_phase _ _ _ _ _ Hth Hn) as (ph & Hph & Ha).
    destruct (servingOp o) eqn:Eo; [|done]. pose proof (countIf_pos isServer phs ph (list_elem_of_lookup_2 _ _ _ Hph) (servingOp_isServer _ _ Ha Eo)). lia.
  - intros i j err err' Hi%Hst Hj%Hst. destruct Hi as [(Es & _ & _ & ->)|[Eo ->]], Hj as [(Es' & _ & _ & ->)|[Eo' ->]]; try done.
    + specialize (H4 Eo'). rewrite Es, H4 in H2. simpl in H2. lia.
    + specialize (H4 Eo). rewrite Es', H4 in H2. simpl in H2. lia.
  - intros i j Hi Hj. destruct (returned_phase _ _ _ _ Hth Hi) as (ph & Hph & ->), (returned_phase _ _ _ _ Hth Hj) as (ph' & Hph' & ->).
    apply (countIf_unique isLauncher phs i j PStarted PStarted); [|done..]. rewrite H1. destruct (sv_started _); simpl; lia.
  - intros i k Hi Hd. destruct (calling_phase _ _ _ _ _ Hth Hi) as (ph & Hph & Ha). simpl in Ha. subst ph.
    pose proof (Forall_lookup_1 _ _ _ _ H6 Hph) as Es. simpl in Es. rewrite Es, Hd in H2. simpl in H2.
    assert (filter (λ ph, isServer ph = true) phs ≠ []) as Hne by (intros E; unfold countIf in H2; rewrite E in H2; simpl in H2; lia).
    destruct (filter (λ ph, isServer ph = true) phs) as [|ph l] eqn:E; [done|].
    assert (ph ∈ filter (λ ph, isServer ph = true) phs) as [Hs [n Hn]%list_elem_of_lookup]%list_elem_of_filter by (rewrite E; left).
    destruct (Forall2_lookup_l _ _ _ _ _ Hth Hn) as (c & Hc & Hf). by exists n, ph; eauto.
Qed.

Definition demoLibrary (o : GOp) : GRes o :=
  match o return GRes o with
  | GStartEnter | GServe | GReadServeErr | GReadStopErr => None
  | GSelect => Some (Const "context deadline exceeded")
  | GStopEnter | GOnceEnter => true
  | _ => tt
  end.
Definition runServer (ls : list (Label (R := GRes) (L := GMethod))) := Threads.run exec method ls (mkSys newServer []).
Lemma runServer_reachable ls s : runServer ls = Some s → serverReachable s.
Proof. intros H. by exists ls. Qed.
(** Start, then a forced [Stop] and a second [Stop] that waits for it. *)
Definition forced_run : list (Label (R := GRes) (L := GMethod)) :=
  [LSpawn MStart; LRun 0 demoLibrary 0; LRun 0 demoLibrary 0; LSpawn MStop; LSpawn MStop] ++ replicate 5 (LRun 2 demoLibrary 0) ++
  [LRun 3 demoLibrary 0] ++ replicate 2 (LRun 4 demoLibrary 0) ++ [LRun 2 demoLibrary 0] ++ replicate 2 (LRun 1 demoLibrary 0) ++
  replicate 5 (LRun 2 demoLibrary 0) ++ replicate 2 (LRun 3 demoLibrary 0).
Lemma grpc_stop_exact_witness : ∃ s err, runServer forced_run = Some s ∧ sys_threads s !! 2%nat = Some (Ret (RStop (Some err))) ∧
  sv_listenerClosed (sys_st s) = true ∧ ∀ err', sys_threads s !! 3%nat = Some (Ret (RStop err')) → Some err = err'.
Proof.
  assert (match runServer forced_run with
    | Some s => match sys_threads s !! 2%nat, sys_threads s !! 3%nat with Some (Ret (RStop (Some _))), Some (Ret (RStop (Some _))) => true | _, _ => false end
    | None => false end = true) as H by (vm_compute; reflexivity).
  destruct (runServer forced_run) as [s|] eqn:E; [|discriminate H].
  destruct (sys_threads s !! 2%nat) as [[[?|[err|]|]|o k]|] eqn:E2; try discriminate H.
  destruct (grpc_stop_exact s (runServer_reachable _ _ E)) as (P1 & P2 & _). exists s, err.
  split; [reflexivity|]. split; [exact E2|]. split; [exact (proj1 (P1 2%nat _ E2))|]. intros err' E3. exact (P2 2%nat 3%nat _ _ E2 E3).
Defined.

(** * The supervised HTTP server *)

(** [Serve] and the task it hands to the spawner. *)
Inductive HServeOp :=
  | SListen (addr : string)          (* net.Listen: the error, if any *)
  | SGo (name : string)              (* spawner.Go of the task: the error, if any *)
  | SCloseListener
  (* the task *)
  | SGoServe                         (* server.Serve(ln) on a goroutine *)
  | SSelect                          (* its result, or the end of the task's context *)
  | SShutdown (timeout : Z)
  | SServeErr.                       (* <-serveErrCh *)
Inductive Selected := SelServed (err : option error) | SelDone.
Definition SRes (o : HServeOp) : Type :=
  match o with
  | SListen _ | SGo _ | SShutdown _ | SServeErr => option error
  | SSelect => Selected
  | SCloseListener | SGoServe => unit
  end.

Definition ErrServerClosed : string := "http: Server closed".
Definition serverExited (err : option error) : option error :=
  match err with
  | Some err => if negb (error_is ErrServerClosed err) then Some (Errorf "httpx: server exited: %w" [] [err]) else None
  | None => None
  end.
Definition serveTask (shutdownTimeout : Z) : Code SRes (option error) :=
  call SGoServe ;;
  sel ← call SSelect;
  match (sel : Selected) with
  | SelServed err => mret (serverExited err)
  | SelDone =>
    shutdownErr ← call (SShutdown shutdownTimeout);
    err ← call SServeErr;
    mret (match serverExited err with
          | Some err => Some err
          | None =>
            match (shutdownErr : option error) with
            | Some err => Some (Errorf "httpx: graceful shutdown failed: %w" [] [err])
            | None => None
            end
          end)
  end.
(** The error of [Serve]; without one, it returns the task's handle. *)
Definition Serve (hasSpawner hasServer : bool) (name addr : string) : Code SRes (option error) :=
  if negb hasSpawner then mret (Some (Errorf "httpx: spawner must not be nil" [] []))
  else if negb hasServer then mret (Some (Errorf "httpx: server must not be nil" [] []))
  else
    let addr := if String.eqb addr "" then ":http" else addr in
    err ← call (SListen addr);
    match (err : option error) with
    | Some err => mret (Some (Errorf "httpx: listen on %q: %w" [addr] [err]))
    | None =>
      err ← call (SGo name);
      match (err : option error) with
      | Some err => call SCloseListener ;; mret (Some err)
      | None => mret None
      end
    end.

(** A bound listener is the task's when [Serve] returns nil, and closed by
    [Serve] when the task was refused. *)
Definition bound (tr : list (sigT SRes)) : bool := existsb (λ x, match x with existT (SListen _) None => true | _ => false end) tr.
Lemma serve_owns_listener hs hv name addr tr r : runs SRes (Serve hs hv name addr) tr (Ret r) → bound tr = true →
  (r = None ∧ existT (SGo name) None ∈ tr) ∨ (r ≠ None ∧ ∃ tr', tr = tr' ++ [existT SCloseListener tt]).
Proof.
  unfold Serve. destruct hs; simpl; [|by intros [-> _]%runs_ended].
  destruct hv; simpl; [|by intros [-> _]%runs_ended].
  intros (err & tr1 & -> & H)%(runs_ret SRes) Hb. apply (runs_ret SRes) in H. destruct err as [err|]; simpl in H.
  { by destruct H as [-> <-]. }
  destruct H as (err & tr2 & -> & H). apply (runs_ret SRes) in H. destruct err as [err|]; simpl in H.
  - destruct H as ([] & tr3 & -> & H). apply (runs_ret SRes) in H as [-> <-]. right. split; [done|].
    exists [existT (SListen (if String.eqb addr "" then ":http" else addr)) None; existT (SGo name) (Some err)]. done.
  - destruct H as [-> <-]. left. split; [done|]. right. left.
Qed.

(** The task ends only with the result of [server.Serve], which it asks to stop
    exactly when its context has ended. *)
Lemma serve_task_exact t tr r : runs SRes (serveTask t) tr (Ret r) →
  (∃ err, tr = [existT SGoServe tt; existT SSelect (SelServed err)] ∧ r = serverExited err) ∨
  (∃ err sh, tr = [existT SGoServe tt; existT SSelect SelDone; existT (SShutdown t) sh; existT SServeErr err] ∧
    (r = None ↔ serverExited err = None ∧ sh = None)).
Proof.
  intros ([] & tr1 & -> & H)%(runs_ret SRes). apply (runs_ret SRes) in H as ([err|] & tr2 & -> & H); apply (runs_ret SRes) in H; simpl in H.
  - destruct H as [-> <-]. left. by exists err.
  - destruct H as (sh & tr3 & -> & H). apply (runs_ret SRes) in H as (err & tr4 & -> & H). apply (runs_ret SRes) in H as [-> <-].
    right. exists err, sh. split; [done|]. destruct (serverExited err), sh; naive_solver.
Qed.
