(* ===== verification/JetStream.v ===== *)
(** Durable consumption from JetStream (src/nats/jetstream.go) and the contract
    of a durable consumer (src/modulex.go, DurableConsumer).

    The client of the broker, the handler, the context and the clock are calls
    whose answers are arbitrary.  The consume loop is unbounded; [fuel] bounds
    the number of rounds, so that the theorems speak about every finite part of
    a run.  Logging and tracing are left out. *)

From Stdlib Require Import Ascii.
From stdpp Require Import base list strings.
From S2P Require Import Prelude Paths GoStrings Code.

#[local] Open Scope Z_scope.

(** * The vocabulary of durable consumption *)

(** [AckDecision] is an int; a handler may return any value. *)
Definition AckDecision := Z.
Definition Ack : AckDecision := 0.
Definition Nack : AckDecision := 1.
Definition DeadLetter : AckDecision := 2.
Definition AckDecision_String (d : AckDecision) : string :=
  if d =? Ack then "ack" else if d =? Nack then "nack" else if d =? DeadLetter then "dead_letter" else "unknown".

Definition ReplayPolicy := Z.
Definition ReplayAll : ReplayPolicy := 0.
Definition ReplayNew : ReplayPolicy := 1.
Definition ReplayPolicy_String (p : ReplayPolicy) : string :=
  if p =? ReplayAll then "replay_all" else if p =? ReplayNew then "replay_new" else "unknown".

Record DurableMessage := mkDM { dm_Payload : string; dm_Redelivered : bool; dm_DeliveryCount : Z }.

Record DurableSubscribeOptions := mkDSO { so_ConsumerName : string; so_Replay : ReplayPolicy }.
Definition WithConsumerName (name : string) (o : DurableSubscribeOptions) : DurableSubscribeOptions := mkDSO name (so_Replay o).
Definition WithReplayPolicy (p : ReplayPolicy) (o : DurableSubscribeOptions) : DurableSubscribeOptions := mkDSO (so_ConsumerName o) p.

(** * The bus *)

(** Durations are nanoseconds. *)
Definition second : Z := 1000000000.
Definition defaultDurableMaxDeliver : Z := 5.
Definition defaultDurableAckWait : Z := 30 * second.
Definition defaultDurableBatchSize : Z := 10.
Definition defaultDurableFetchWait : Z := 5 * second.
Definition defaultDeadLetterSuffix : string := ".DEAD".
Definition initialDurableFetchBackoff : Z := second / 10.
Definition maxDurableFetchBackoff : Z := 30 * second.
Definition maxDurableNakDelay : Z := 300 * second.

(** The settings of a [JetStreamEventBus]. *)
Record Settings := mkSettings {
  durableMaxDeliver : Z; durableAckWait : Z; durableBatchSize : Z; durableFetchWait : Z; deadLetterSuffix : string }.
Definition JetStreamOption := Settings → Settings.
Definition WithDurableMaxDeliver (n : Z) : JetStreamOption := λ j,
  if 0 <? n then mkSettings n (durableAckWait j) (durableBatchSize j) (durableFetchWait j) (deadLetterSuffix j) else j.
Definition WithDurableAckWait (d : Z) : JetStreamOption := λ j,
  if 0 <? d then mkSettings (durableMaxDeliver j) d (durableBatchSize j) (durableFetchWait j) (deadLetterSuffix j) else j.
Definition WithDurableBatchSize (n : Z) : JetStreamOption := λ j,
  if 0 <? n then mkSettings (durableMaxDeliver j) (durableAckWait j) n (durableFetchWait j) (deadLetterSuffix j) else j.
Definition WithDurableFetchWait (d : Z) : JetStreamOption := λ j,
  if 0 <? d then mkSettings (durableMaxDeliver j) (durableAckWait j) (durableBatchSize j) d (deadLetterSuffix j) else j.
Definition WithDurableDeadLetterSuffix (suffix : string) : JetStreamOption := λ j,
  mkSettings (durableMaxDeliver j) (durableAckWait j) (durableBatchSize j) (durableFetchWait j) suffix.
Definition NewJetStreamEventBus (opts : list JetStreamOption) : Settings :=
  foldl (λ j opt, opt j)
    (mkSettings defaultDurableMaxDeliver defaultDurableAckWait defaultDurableBatchSize defaultDurableFetchWait
       defaultDeadLetterSuffix) opts.

(** An error of the client: which of its sentinels it is, and its text. *)
Inductive Sentinel :=
  | ErrTimeout | ErrConnectionClosed | ErrConsumerNotFound | ErrConsumerDeleted | ErrBadSubscription
  | ErrSubscriptionClosed | ErrNoResponders | ErrStreamNotFound.
#[export] Instance Sentinel_eq_dec : EqDecision Sentinel.
Proof. solve_decision. Defined.
Record NatsError := mkNatsError { ne_is : list Sentinel; ne_text : string }.
Definition errors_Is (err : NatsError) (s : Sentinel) : bool := bool_decide (s ∈ ne_is err).

(** A delivered message.  [mg_id] tells deliveries apart; [mg_NumDelivered] is
    [None] when the metadata cannot be read. *)
Record Msg := mkMsg { mg_id : nat; mg_Data : string; mg_Header : list (string * list string); mg_NumDelivered : option Z }.
#[export] Instance Msg_eq_dec : EqDecision Msg.
Proof. solve_decision. Defined.

(** The calls of the loop. *)
Inductive JOp :=
  | JCtxErr                                  (* ctx.Err() *)
  | JFetch (batch wait : Z)                  (* sub.Fetch *)
  | JConsumerInfo (stream consumer : string) (wait : Z)
  | JAfter (d : Z)                           (* time.After(d) or ctx.Done() *)
  | JHandler (m : Msg) (dm : DurableMessage) (* handler(ctx, dm) *)
  | JAck (m : Msg)
  | JNakWithDelay (m : Msg) (delay : Z)
  | JTerm (m : Msg)
  | JPublish (subject data : string) (header : list (string * list string)).

(** The answers: whether the context is done; the messages or an error; whether
    the context ended the wait; the decision, or a panic; an error. *)
Definition JRes (o : JOp) : Type :=
  match o with
  | JCtxErr => bool
  | JFetch _ _ => list Msg + NatsError
  | JConsumerInfo _ _ _ => option NatsError
  | JAfter _ => bool
  | JHandler _ _ => option AckDecision
  | JAck _ | JNakWithDelay _ _ | JTerm _ | JPublish _ _ _ => option error
  end.

(** * Handling a message *)

Section bus.
Context (j : Settings).

Definition nextDurableFetchBackoff (d : Z) : Z :=
  let d := wrap64 (d * 2) in
  if (d <=? 0) || (maxDurableFetchBackoff <? d) then maxDurableFetchBackoff else d.

(** The doublings of [nakDelay]. *)
Fixpoint doublings (shifts : nat) (delay : Z) : Z :=
  match shifts with
  | O => delay
  | S n => if delay <? maxDurableNakDelay then doublings n (wrap64 (delay * 2)) else delay
  end.
Definition maxShifts : Z := 20.
Definition nakDelay (deliveryCount : Z) : Z :=
  let deliveryCount := if deliveryCount <? 1 then 1 else deliveryCount in
  let shifts := deliveryCount - 1 in
  let shifts := if maxShifts <? shifts then maxShifts else shifts in
  let delay := doublings (Z.to_nat shifts) (durableAckWait j) in
  if maxDurableNakDelay <? delay then maxDurableNakDelay else delay.

Definition durableMessage (m : Msg) : DurableMessage :=
  match mg_NumDelivered m with
  | Some n => mkDM (mg_Data m) (1 <? n) n
  | None => mkDM (mg_Data m) false 0
  end.

(** A panic is recovered as [Nack]. *)
Definition decisionOf (r : option AckDecision) : AckDecision := match r with Some d => d | None => Nack end.
Definition invokeDurableHandler (m : Msg) (dm : DurableMessage) : Code JRes AckDecision :=
  r ← call (JHandler m dm);
  mret (decisionOf r).

Definition deadLetter (topic : string) (m : Msg) : Code JRes unit :=
  (if negb (String.eqb (deadLetterSuffix j) "")
   then call (JPublish (topic +:+ deadLetterSuffix j) (mg_Data m) (mg_Header m)) ;; mret tt
   else mret tt) ;;
  call (JTerm m) ;; mret tt.

Definition handleDurableMessage (topic : string) (m : Msg) : Code JRes unit :=
  let dm := durableMessage m in
  decision ← invokeDurableHandler m dm;
  if decision =? Ack then call (JAck m) ;; mret tt
  else if decision =? DeadLetter then deadLetter topic m
  else if (0 <? dm_DeliveryCount dm) && (durableMaxDeliver j <=? dm_DeliveryCount dm) then deadLetter topic m
  else call (JNakWithDelay m (nakDelay (dm_DeliveryCount dm))) ;; mret tt.

Fixpoint handleDurableBatch (topic : string) (msgs : list Msg) : Code JRes bool :=
  match msgs with
  | [] => mret true
  | msg :: msgs =>
    handleDurableMessage topic msg ;;
    done ← call JCtxErr;
    if (done : bool) then mret false else handleDurableBatch topic msgs
  end.

(** * The loop *)

Definition isTerminalFetchErrorMatch (err : NatsError) : bool * string :=
  if errors_Is err ErrConnectionClosed || errors_Is err ErrConsumerNotFound || errors_Is err ErrConsumerDeleted
     || errors_Is err ErrBadSubscription || errors_Is err ErrSubscriptionClosed
  then (true, "sentinel")
  else if Contains (ne_text err) "consumer not found" || Contains (ne_text err) "consumer deleted"
  then (true, "substring")
  else (false, "").
Definition isTerminalFetchError (err : NatsError) : bool := (isTerminalFetchErrorMatch err).1.

Definition isDurableConsumerGone (stream consumerName : string) : Code JRes bool :=
  if String.eqb stream "" then mret false
  else
    err ← call (JConsumerInfo stream consumerName (durableFetchWait j));
    mret (match (err : option NatsError) with
          | Some e => errors_Is e ErrConsumerNotFound || errors_Is e ErrStreamNotFound
          | None => false
          end).

Definition classifyTerminalFetchError (stream consumerName : string) (err : NatsError) : Code JRes (bool * string) :=
  let r := isTerminalFetchErrorMatch err in
  if negb r.1 && errors_Is err ErrNoResponders
  then gone ← isDurableConsumerGone stream consumerName; mret (if (gone : bool) then (true, "consumer_info") else r)
  else mret r.

(** The next backoff, and whether to stop. *)
Definition handleDurableFetchError (stream consumerName : string) (err : NatsError) (backoff : Z) : Code JRes (Z * bool) :=
  done ← call JCtxErr;
  if (done : bool) then mret (backoff, true)
  else if errors_Is err ErrTimeout then mret (initialDurableFetchBackoff, false)
  else
    r ← classifyTerminalFetchError stream consumerName err;
    if (r : bool * string).1 then mret (backoff, true)
    else
      done ← call (JAfter backoff);
      if (done : bool) then mret (backoff, true) else mret (nextDurableFetchBackoff backoff, false).

(** [false] is a run that goes on beyond [fuel] rounds. *)
Fixpoint durableConsumeLoop (fuel : nat) (stream topic consumerName : string) (backoff : Z) : Code JRes bool :=
  match fuel with
  | O => mret false
  | S fuel =>
    done ← call JCtxErr;
    if (done : bool) then mret true
    else
      r ← call (JFetch (durableBatchSize j) (durableFetchWait j));
      match (r : list Msg + NatsError) with
      | inr err =>
        x ← handleDurableFetchError stream consumerName err backoff;
        if (x : Z * bool).2 then mret true else durableConsumeLoop fuel stream topic consumerName x.1
      | inl msgs =>
        go ← handleDurableBatch topic msgs;
        if (go : bool) then durableConsumeLoop fuel stream topic consumerName initialDurableFetchBackoff else mret true
      end
  end.
End bus.

Example nakDelay_ex :
  (λ n, nakDelay (NewJetStreamEventBus []) n / second) <$> [0; 1; 2; 3; 4; 5; 100] = [30; 30; 60; 120; 240; 300; 300].
Proof. reflexivity. Qed.

(** * Delays *)

Lemma wrap64_small x : 0 ≤ x ≤ maxInt → wrap64 x = x.
Proof. unfold wrap64, maxInt. intros H. rewrite Z.mod_small; lia. Qed.

(** The doublings stop at the cap, so they never overflow. *)
Lemma doublings_spec n : ∀ d, 0 < d ≤ maxInt →
  Z.min maxDurableNakDelay (doublings n d) = Z.min maxDurableNakDelay (d * 2 ^ Z.of_nat n).
Proof.
  induction n as [|n IH]; intros d Hd; cbn [doublings]; [by rewrite Z.mul_1_r|].
  replace (2 ^ Z.of_nat (S n)) with (2 * 2 ^ Z.of_nat n) by (rewrite Nat2Z.inj_succ, Z.pow_succ_r; lia).
  assert (0 < 2 ^ Z.of_nat n) as Hp by (apply Z.pow_pos_nonneg; lia).
  destruct (Z.ltb_spec d maxDurableNakDelay) as [Hlt|Hge].
  - unfold maxDurableNakDelay, second in Hlt. rewrite wrap64_small by (unfold maxInt; lia).
    rewrite IH by (unfold maxInt; lia). f_equal. lia.
  - rewrite !Z.min_l; [done| |done]. nia.
Qed.

(** The delay of a redelivery: the acknowledgement time doubled for every
    earlier delivery, at most twenty times, up to five minutes. *)
Definition scheduledDelay (ackWait deliveryCount : Z) : Z :=
  Z.min maxDurableNakDelay (ackWait * 2 ^ Z.min maxShifts (Z.max 1 deliveryCount - 1)).

Lemma nakDelay_spec j n : 0 < durableAckWait j ≤ maxInt → nakDelay j n = scheduledDelay (durableAckWait j) n.
Proof.
  intros Hj. unfold nakDelay, scheduledDelay.
  set (s := if maxShifts <? _ then maxShifts else _).
  assert (s = Z.min maxShifts (Z.max 1 n - 1)) as Hs.
  { unfold s. destruct (Z.ltb_spec n 1); case_match eqn:E; rewrite ?Z.ltb_lt, ?Z.ltb_ge in E; unfold maxShifts in *; lia. }
  clearbody s. rewrite <-Hs. pose proof (doublings_spec (Z.to_nat s) _ Hj) as H.
  rewrite Z2Nat.id in H by (unfold maxShifts in *; lia). rewrite <-H.
  destruct (Z.ltb_spec maxDurableNakDelay (doublings (Z.to_nat s) (durableAckWait j))); lia.
Qed.

Lemma nextBackoff_spec d : initialDurableFetchBackoff ≤ d ≤ maxDurableFetchBackoff →
  nextDurableFetchBackoff d = Z.min maxDurableFetchBackoff (2 * d).
Proof.
  change initialDurableFetchBackoff with 100000000. unfold nextDurableFetchBackoff, maxDurableFetchBackoff, second. intros H.
  rewrite wrap64_small by (unfold maxInt; lia). destruct (Z.leb_spec (d * 2) 0); simpl; [lia|].
  case_match eqn:E; rewrite ?Z.ltb_lt, ?Z.ltb_ge in E; lia.
Qed.

(** The settings a constructor can give. *)
Definition okSettings (j : Settings) : Prop :=
  0 < durableMaxDeliver j ∧ 0 < durableAckWait j ∧ 0 < durableBatchSize j ∧ 0 < durableFetchWait j.
(** The options of the package. *)
Inductive isOption : JetStreamOption → Prop :=
  | io_deliver n : isOption (WithDurableMaxDeliver n)
  | io_ack d : isOption (WithDurableAckWait d)
  | io_batch n : isOption (WithDurableBatchSize n)
  | io_fetch d : isOption (WithDurableFetchWait d)
  | io_suffix s : isOption (WithDurableDeadLetterSuffix s).
Lemma New_ok opts : Forall isOption opts → okSettings (NewJetStreamEventBus opts).
Proof.
  intros Hf. unfold NewJetStreamEventBus. match goal with |- okSettings (foldl _ ?j0 _) => assert (okSettings j0) as Hj by done; revert Hj; generalize j0 end.
  induction Hf as [|o opts Ho Hf IH]; intros j0 Hj; [done|]. apply IH. destruct Hj as (? & ? & ? & ?).
  destruct Ho; unfold WithDurableMaxDeliver, WithDurableAckWait, WithDurableBatchSize, WithDurableFetchWait; simpl;
    try (case_match eqn:E; [apply Z.ltb_lt in E|]); by split_and!.
Qed.

(** * The contract

    What a durable consumer promises (DurableConsumer): every message it is
    given is handled and resolved before the next one is handled or fetched,
    and resolved as the handler decided.  As an automaton over the calls. *)

Inductive Resolution := RAck | RNak (delay : Z) | RTerm.
#[export] Instance Resolution_eq_dec : EqDecision Resolution.
Proof. solve_decision. Defined.

Inductive JPhase :=
  | PTop (backoff : Z)                       (* before a round *)
  | PFetch (backoff : Z)
  | PFailed (err : NatsError) (backoff : Z)
  | PProbe (backoff : Z)                     (* does the consumer still exist? *)
  | PWait (backoff : Z)
  | PDeliver (m : Msg) (ms : list Msg)       (* [m] is next, then [ms] *)
  | PResolve (m : Msg) (r : Resolution) (published : bool) (ms : list Msg)
  | PCheck (ms : list Msg)                   (* after a message *)
  | PStop.

Section contract.
Context (j : Settings) (stream topic consumerName : string).

(** How the decision on a message is to be resolved; a panic counts as a
    request to retry, and so does an unknown decision. *)
Definition outcome (m : Msg) (d : option AckDecision) : Resolution :=
  let count := dm_DeliveryCount (durableMessage m) in
  if decide (d = Some Ack) then RAck
  else if decide (d = Some DeadLetter ∨ (0 < count ∧ durableMaxDeliver j ≤ count)) then RTerm
  else RNak (scheduledDelay (durableAckWait j) count).

Definition deliver (ms : list Msg) : JPhase :=
  match ms with [] => PTop initialDurableFetchBackoff | m :: ms => PDeliver m ms end.

Definition allowed (ph : JPhase) (o : JOp) : Prop :=
  match ph with
  | PTop _ | PFailed _ _ | PCheck _ => o = JCtxErr
  | PFetch _ => o = JFetch (durableBatchSize j) (durableFetchWait j)
  | PProbe _ => o = JConsumerInfo stream consumerName (durableFetchWait j)
  | PWait b => o = JAfter b ∧ initialDurableFetchBackoff ≤ b ≤ maxDurableFetchBackoff
  | PDeliver m _ => o = JHandler m (durableMessage m)
  | PResolve m RAck _ _ => o = JAck m
  | PResolve m (RNak d) _ _ => o = JNakWithDelay m d
  | PResolve m RTerm published _ =>
    if published then o = JTerm m else o = JPublish (topic +:+ deadLetterSuffix j) (mg_Data m) (mg_Header m)
  | PStop => False
  end.

Definition next (ph : JPhase) (o : JOp) : JRes o → JPhase :=
  match o return JRes o → JPhase with
  | JCtxErr => λ done : bool,
    if done then PStop
    else match ph with
    | PTop b => PFetch b
    | PFailed err b =>
      if errors_Is err ErrTimeout then PTop initialDurableFetchBackoff
      else if isTerminalFetchError err then PStop
      else if errors_Is err ErrNoResponders && negb (String.eqb stream "") then PProbe b else PWait b
    | PCheck ms => deliver ms
    | ph => ph
    end
  | JFetch _ _ => λ r, match ph with PFetch b => match r with inl ms => deliver ms | inr err => PFailed err b end | ph => ph end
  | JConsumerInfo _ _ _ => λ r,
    match ph with
    | PProbe b =>
      match r with
      | Some e => if errors_Is e ErrConsumerNotFound || errors_Is e ErrStreamNotFound then PStop else PWait b
      | None => PWait b
      end
    | ph => ph
    end
  | JAfter _ => λ done : bool, if done then PStop else match ph with PWait b => PTop (Z.min maxDurableFetchBackoff (2 * b)) | ph => ph end
  | JHandler m _ => λ d, match ph with PDeliver m ms => PResolve m (outcome m d) (String.eqb (deadLetterSuffix j) "") ms | ph => ph end
  | JPublish _ _ _ => λ _, match ph with PResolve m r _ ms => PResolve m r true ms | ph => ph end
  | JAck _ | JNakWithDelay _ _ | JTerm _ => λ _, match ph with PResolve _ _ _ ms => PCheck ms | ph => ph end
  end.

(** A loop that returns has stopped; one that goes on is at the beginning of a
    round. *)
Definition final (ph : JPhase) (stopped : bool) : Prop :=
  if stopped then ph = PStop else ∃ b, ph = PTop b.

Context (Hack : 0 < durableAckWait j ≤ maxInt).

Lemma deadLetter_follows m ms :
  follows JRes allowed next (λ ph _, ph = PCheck ms) (PResolve m RTerm (String.eqb (deadLetterSuffix j) "") ms) (deadLetter j topic m).
Proof.
  unfold deadLetter. destruct (String.eqb (deadLetterSuffix j) ""); simpl; by repeat (split; [done|]; intros).
Qed.

Lemma message_follows m ms : follows JRes allowed next (λ ph _, ph = PCheck ms) (PDeliver m ms) (handleDurableMessage j topic m).
Proof.
  unfold handleDurableMessage, invokeDurableHandler. split; [done|]. intros d. change (option AckDecision) in d. cbn [next].
  pose proof (deadLetter_follows m ms) as Hdl. unfold outcome. set (dm := durableMessage m).
  assert ((decisionOf d = Ack ↔ d = Some Ack) ∧ (decisionOf d = DeadLetter ↔ d = Some DeadLetter)) as [H1 H2].
  { destruct d; simpl; split; split; by intros [= ->] || congruence. }
  clearbody dm. simpl. destruct (Z.eqb_spec (decisionOf d) Ack) as [E|E].
  - rewrite decide_True by tauto. simpl. by split.
  - rewrite decide_False by tauto. destruct (Z.eqb_spec (decisionOf d) DeadLetter) as [E2|E2]; [by rewrite decide_True by tauto|].
    destruct ((0 <? dm_DeliveryCount dm) && (durableMaxDeliver j <=? dm_DeliveryCount dm)) eqn:Ec.
    + apply andb_true_iff in Ec as [Ec1%Z.ltb_lt Ec2%Z.leb_le]. by rewrite decide_True by tauto.
    + rewrite decide_False; [simpl; by rewrite nakDelay_spec by done|]. apply andb_false_iff in Ec. rewrite Z.ltb_ge, Z.leb_gt in Ec. intros [?|[? ?]]; [tauto|lia].
Qed.
Lemma batch_follows ms :
  follows JRes allowed next (λ ph go, if (go : bool) then ph = PTop initialDurableFetchBackoff else ph = PStop)
    (deliver ms) (handleDurableBatch j topic ms).
Proof.
  induction ms as [|m ms IH]; [done|]. cbn [handleDurableBatch deliver].
  eapply follows_bind; [apply message_follows|]. intros ph _ ->. split; [done|]. intros [|]; [done|exact IH].
Qed.

Lemma fetchError_follows err b : initialDurableFetchBackoff ≤ b ≤ maxDurableFetchBackoff →
  follows JRes allowed next
    (λ ph x, if (x : Z * bool).2 then ph = PStop else ph = PTop x.1 ∧ initialDurableFetchBackoff ≤ x.1 ≤ maxDurableFetchBackoff)
    (PFailed err b) (handleDurableFetchError j stream consumerName err b).
Proof.
  intros Hb. split; [done|]. intros [|]; [done|]. cbn [next].
  assert (∀ o, o = JAfter b → allowed (PWait b) o) as Hal by (intros o ->; done).
  assert (follows JRes allowed next
    (λ ph x, if (x : Z * bool).2 then ph = PStop else ph = PTop x.1 ∧ initialDurableFetchBackoff ≤ x.1 ≤ maxDurableFetchBackoff)
    (PWait b) (done ← call (JAfter b); if (done : bool) then mret (b, true) else mret (nextDurableFetchBackoff b, false))) as Hwait.
  { split; [by apply Hal|]. intros [|]; [done|]. simpl. rewrite nextBackoff_spec by done. split; [done|].
    unfold maxDurableFetchBackoff, second in *. change initialDurableFetchBackoff with 100000000 in *. lia. }
  simpl. destruct (errors_Is err ErrTimeout); [done|]. unfold classifyTerminalFetchError, isTerminalFetchError, isDurableConsumerGone.
  destruct (isTerminalFetchErrorMatch err) as [[|] via]; [done|]. simpl.
  destruct (errors_Is err ErrNoResponders); simpl; [|exact Hwait].
  destruct (String.eqb stream ""); simpl; [exact Hwait|]. split; [done|]. intros [e|]; simpl; [|exact Hwait].
  destruct (errors_Is e ErrConsumerNotFound || errors_Is e ErrStreamNotFound); [done|exact Hwait].
Qed.

Lemma loop_follows fuel : ∀ b, initialDurableFetchBackoff ≤ b ≤ maxDurableFetchBackoff →
  follows JRes allowed next final (PTop b) (durableConsumeLoop j fuel stream topic consumerName b).
Proof.
  induction fuel as [|fuel IH]; intros b Hb; [by exists b|]. cbn [durableConsumeLoop].
  split; [done|]. intros [|]; [done|]. split; [done|]. intros [ms|err]; cbn [next].
  - eapply follows_bind; [apply batch_follows|]. intros ph [|] ->; [by apply IH|done].
  - eapply follows_bind; [by apply fetchError_follows|]. intros ph [b' [|]] H; [done|]. destruct H as [-> ?]. by apply IH.
Qed.
End contract.

(** ** Runs of the loop *)

Definition fetchedBy (e : sigT JRes) : list Msg :=
  match e with existT (JFetch _ _) (inl ms) => ms | _ => [] end.
Definition handledBy (e : sigT JRes) : list (Msg * option AckDecision) :=
  match e with existT (JHandler m _) d => [(m, d)] | _ => [] end.
Definition resolvedBy (e : sigT JRes) : list (Msg * Resolution) :=
  match e with
  | existT (JAck m) _ => [(m, RAck)]
  | existT (JNakWithDelay m d) _ => [(m, RNak d)]
  | existT (JTerm m) _ => [(m, RTerm)]
  | _ => []
  end.
Definition publishedBy (e : sigT JRes) : list (string * string) :=
  match e with existT (JPublish subject data _) _ => [(subject, data)] | _ => [] end.

(** What a run did. *)
Definition fetched (tr : list (sigT JRes)) : list Msg := tr ≫= fetchedBy.
Definition handled (tr : list (sigT JRes)) : list (Msg * option AckDecision) := tr ≫= handledBy.
Definition resolved (tr : list (sigT JRes)) : list (Msg * Resolution) := tr ≫= resolvedBy.
Definition published (tr : list (sigT JRes)) : list (string * string) := tr ≫= publishedBy.

(** The messages of a batch that are still to be handled. *)
Definition restOf (ph : JPhase) : list Msg :=
  match ph with
  | PDeliver m ms => m :: ms
  | PResolve _ _ _ ms | PCheck ms => ms
  | _ => []
  end.

Section trace.
Context (j : Settings) (stream topic consumerName : string).

(** The dead letters of messages with their resolutions. *)
Definition deadLetters (l : list (Msg * Resolution)) : list (string * string) :=
  if String.eqb (deadLetterSuffix j) "" then []
  else (λ x, (topic +:+ deadLetterSuffix j, mg_Data x.1)) <$> filter (λ x, x.2 = RTerm) l.

Definition outcomes (l : list (Msg * option AckDecision)) : list (Msg * Resolution) := (λ x, (x.1, outcome j x.1 x.2)) <$> l.

(** The invariant of a run: what was handled is resolved, but for the message
    at hand; what was fetched was handled in order, but for the rest. *)
Record traceInv (tr : list (sigT JRes)) (ph : JPhase) : Prop := {
  ti_fetched : ∃ rest, fetched tr = (handled tr).*1 ++ rest ∧
    (ph = PStop ∨ rest = restOf ph);
  ti_resolved : match ph with
    | PResolve m r _ _ => outcomes (handled tr) = resolved tr ++ [(m, r)]
    | _ => outcomes (handled tr) = resolved tr
    end;
  ti_published : match ph with
    | PResolve m RTerm true _ => published tr = deadLetters (resolved tr ++ [(m, RTerm)])
    | PResolve m RTerm false _ => deadLetterSuffix j ≠ "" ∧ published tr = deadLetters (resolved tr)
    | _ => published tr = deadLetters (resolved tr)
    end }.

Lemma deadLetters_other l m r : r ≠ RTerm → deadLetters (l ++ [(m, r)]) = deadLetters l.
Proof. intros H. unfold deadLetters. case_match; [done|]. rewrite filter_app, filter_cons_False by done. by rewrite app_nil_r. Qed.
Lemma deadLetters_term l m : deadLetterSuffix j ≠ "" →
  deadLetters (l ++ [(m, RTerm)]) = deadLetters l ++ [(topic +:+ deadLetterSuffix j, mg_Data m)].
Proof.
  intros H. unfold deadLetters. destruct (String.eqb_spec (deadLetterSuffix j) ""); [done|].
  by rewrite filter_app, filter_cons_True, fmap_app.
Qed.
Lemma deadLetters_off l : deadLetterSuffix j = "" → deadLetters l = [].
Proof. intros H. unfold deadLetters. by rewrite H. Qed.

Lemma bind_snoc {A B} (f : A → list B) l x : (l ++ [x]) ≫= f = (l ≫= f) ++ f x.
Proof. rewrite bind_app. simpl. by rewrite app_nil_r. Qed.

Definition resolving (ph : JPhase) : bool := match ph with PResolve _ _ _ _ => true | _ => false end.

(** A call that neither fetches, handles, resolves nor publishes. *)
Lemma traceInv_quiet tr e ph ph' : fetchedBy e = [] → handledBy e = [] → resolvedBy e = [] → publishedBy e = [] →
  resolving ph = false → resolving ph' = false → ph ≠ PStop → ph' = PStop ∨ restOf ph' = restOf ph →
  traceInv tr ph → traceInv (tr ++ [e]) ph'.
Proof.
  intros E1 E2 E3 E4 Hq Hq' Hne Hrest [[rest [Hf Hr]] H2 H3].
  split; unfold fetched, handled, resolved, published in *; rewrite !bind_snoc, ?E1, ?E2, ?E3, ?E4, !app_nil_r.
  - exists rest. split; [done|]. destruct Hr as [?|Hr]; [done|]. destruct Hrest as [?|Hrest]; [by left|]. right. congruence.
  - by destruct ph, ph'.
  - by destruct ph, ph'.
Qed.

Ltac quiet_step ph := cbn [next]; repeat case_match; apply (traceInv_quiet _ _ ph); simpl; auto; done.

Lemma restOf_deliver ms : restOf (deliver ms) = ms.
Proof. by destruct ms. Qed.

Lemma traceInv_fetch tr b r : traceInv tr (PFetch b) →
  traceInv (tr ++ [existT (JFetch (durableBatchSize j) (durableFetchWait j)) r]) (next j stream (PFetch b) _ r).
Proof.
  intros Hi. destruct r as [ms|err]; [|by apply (traceInv_quiet _ _ (PFetch b)); auto].
  destruct Hi as [[rest [Hf [?|Hr]]] H2 H3]; [done|]. simpl in Hr. subst rest. rewrite app_nil_r in Hf.
  split; unfold fetched, handled, resolved, published in *; rewrite !bind_snoc; cbn [fetchedBy handledBy resolvedBy publishedBy next];
    rewrite ?app_nil_r.
  - exists ms. rewrite Hf, restOf_deliver. auto.
  - by destruct ms.
  - by destruct ms.
Qed.

Lemma traceInv_handle tr m ms d : traceInv tr (PDeliver m ms) →
  traceInv (tr ++ [existT (JHandler m (durableMessage m)) d])
    (PResolve m (outcome j m d) (String.eqb (deadLetterSuffix j) "") ms).
Proof.
  intros [[rest [Hf [?|Hr]]] H2 H3]; [done|]. simpl in Hr. subst rest.
  split; unfold fetched, handled, resolved, published in *; rewrite !bind_snoc; cbn [fetchedBy handledBy resolvedBy publishedBy];
    rewrite ?app_nil_r.
  - exists ms. split; [|by right]. rewrite fmap_app. simpl. rewrite <-app_assoc. done.
  - unfold outcomes in *. rewrite fmap_app, H2. done.
  - destruct (outcome j m d); try done. destruct (String.eqb_spec (deadLetterSuffix j) "") as [E|E]; [|done].
    by rewrite !deadLetters_off in * by done.
Qed.

Lemma traceInv_resolve tr m r pub ms e : traceInv tr (PResolve m r pub ms) → (r = RTerm → pub = true) →
  fetchedBy e = [] → handledBy e = [] → resolvedBy e = [(m, r)] → publishedBy e = [] → traceInv (tr ++ [e]) (PCheck ms).
Proof.
  intros [[rest [Hf [?|Hr]]] H2 H3] Hpub E1 E2 E3 E4; [done|]. simpl in Hr. subst rest.
  split; unfold fetched, handled, resolved, published in *; rewrite !bind_snoc, ?E1, ?E2, ?E3, ?E4, ?app_nil_r.
  - exists ms. auto.
  - done.
  - destruct r; [by rewrite deadLetters_other..|]. by rewrite Hpub in H3.
Qed.

Lemma traceInv_publish tr m ms h err : traceInv tr (PResolve m RTerm false ms) →
  traceInv (tr ++ [existT (JPublish (topic +:+ deadLetterSuffix j) (mg_Data m) h) err]) (PResolve m RTerm true ms).
Proof.
  intros [[rest [Hf [?|Hr]]] H2 [H3 H4]]; [done|]. simpl in Hr. subst rest.
  split; unfold fetched, handled, resolved, published in *; rewrite !bind_snoc; cbn [fetchedBy handledBy resolvedBy publishedBy];
    rewrite ?app_nil_r; [by exists ms; auto|done|]. by rewrite H4, deadLetters_term.
Qed.

Lemma traceInv_step tr ph o r : traceInv tr ph → allowed j stream topic consumerName ph o →
  traceInv (tr ++ [existT o r]) (next j stream ph o r).
Proof.
  intros Hi Ha. destruct ph as [b|b|err b|b|b|m ms|m [|d|] pub ms|ms|]; cbn [allowed] in Ha.
  - subst o. quiet_step (PTop b).
  - subst o. by apply traceInv_fetch.
  - subst o. quiet_step (PFailed err b).
  - subst o. quiet_step (PProbe b).
  - destruct Ha as [-> _]. quiet_step (PWait b).
  - subst o. by apply traceInv_handle.
  - subst o. by eapply traceInv_resolve.
  - subst o. by eapply traceInv_resolve.
  - destruct pub; subst o; [by eapply traceInv_resolve|by apply traceInv_publish].
  - subst o. destruct r; [by quiet_step (PCheck ms)|]. apply (traceInv_quiet _ _ (PCheck ms)); try done; [by destruct ms|].
    right. apply restOf_deliver.
  - done.
Qed.
End trace.

(** What the invariant says about the run. *)
Lemma traceInv_settled j stream topic consumerName tr ph c :
  traceInv j topic tr ph → follows JRes (allowed j stream topic consumerName) (next j stream) final ph c →
  ∃ settled current todo,
    handled tr = settled ++ current ∧ (length current ≤ 1)%nat ∧ fetched tr = (handled tr).*1 ++ todo ∧
    resolved tr = outcomes j settled ∧ deadLetters j topic (resolved tr) `prefix_of` published tr ∧
    (∀ n w k, c = Call (JFetch n w) k → current = [] ∧ todo = []) ∧
    (∀ b, c = Ret b → current = []).
Proof.
  intros [[rest [Hf Hrest]] H2 H3] Hc. destruct (resolving ph) eqn:Eph.
  - destruct ph as [| | | | | |m r pub ms| |]; try done. destruct (handled tr) as [|x l _] eqn:Eh using rev_ind; [by destruct (resolved tr)|].
    unfold outcomes in H2. rewrite fmap_app in H2. apply app_inj_tail in H2 as [H2 _].
    exists l, [x], rest. split_and!; try done.
    + destruct r; [by rewrite H3..|]. destruct pub; [|by destruct H3 as [_ ->]]. rewrite H3. unfold deadLetters. case_match; [done|].
      rewrite filter_app, fmap_app. by eexists.
    + intros n w k ->. destruct Hc as [Ha _]. destruct r; try done. by destruct pub.
    + intros b ->. simpl in Hc. destruct b; [done|]. by destruct Hc.
  - exists (handled tr), [], rest. rewrite app_nil_r. split_and!; try done; [simpl; lia|by destruct ph|destruct ph; try done; by rewrite H3| ].
    intros n w k ->. destruct Hc as [Ha _]. destruct Hrest as [->|Hrest]; [done|].
    destruct ph; simpl in Ha; try (by destruct Ha) || done.
Qed.

Lemma initial_in_bounds : initialDurableFetchBackoff ≤ initialDurableFetchBackoff ≤ maxDurableFetchBackoff.
Proof. by vm_compute. Qed.

(** C20. The consume loop refines the contract of a durable consumer: in every run it
    makes exactly the calls the automaton allows.  It fetches only when every
    message of the last batch is resolved, hands the messages over in order,
    resolves each as decided, waits between failed fetches for a time that
    doubles from 100 ms up to 30 s, and stops only when the context is done or
    the consumer is gone. *)
Theorem durable_loop_refines opts j fuel stream topic consumerName :
  Forall isOption opts → j = NewJetStreamEventBus opts → durableAckWait j ≤ maxInt →
  follows JRes (allowed j stream topic consumerName) (next j stream) final (PTop initialDurableFetchBackoff)
    (durableConsumeLoop j fuel stream topic consumerName initialDurableFetchBackoff).
Proof.
  intros Ho -> Hmax. destruct (New_ok opts Ho) as (_ & ? & _). apply loop_follows; [done|apply initial_in_bounds].
Qed.
Lemma durable_loop_refines_witness :
  follows JRes (allowed (NewJetStreamEventBus [WithDurableMaxDeliver 3]) "S" "orders" "billing")
    (next (NewJetStreamEventBus [WithDurableMaxDeliver 3]) "S") final (PTop initialDurableFetchBackoff)
    (durableConsumeLoop (NewJetStreamEventBus [WithDurableMaxDeliver 3]) 2 "S" "orders" "billing" initialDurableFetchBackoff).
Proof.
  apply (durable_loop_refines [WithDurableMaxDeliver 3]); [repeat constructor|reflexivity|]. vm_compute. discriminate.
Defined.

(** At every point of a run of the consume loop: the messages were handled in
    the order they were fetched; every handled message but at most the last one
    has been resolved, once, in that order, and as the handler decided (a
    message at its last permitted delivery is never sent back, but dead-lettered);
    every terminated message was first published to the dead-letter subject;
    and nothing is left when the next batch is fetched or the loop returns. *)
Theorem durable_order opts j fuel stream topic consumerName tr c :
  Forall isOption opts → j = NewJetStreamEventBus opts → durableAckWait j ≤ maxInt →
  runs JRes (durableConsumeLoop j fuel stream topic consumerName initialDurableFetchBackoff) tr c →
  ∃ settled current todo,
    handled tr = settled ++ current ∧ (length current ≤ 1)%nat ∧ fetched tr = (handled tr).*1 ++ todo ∧
    resolved tr = outcomes j settled ∧ deadLetters j topic (resolved tr) `prefix_of` published tr ∧
    (∀ n w k, c = Call (JFetch n w) k → current = [] ∧ todo = []) ∧
    (∀ b, c = Ret b → current = []).
Proof.
  intros Ho -> Hmax Hr. destruct (New_ok opts Ho) as (_ & Hack & _). set (j := NewJetStreamEventBus opts) in *.
  pose proof (loop_follows j stream topic consumerName (conj Hack Hmax) fuel _ initial_in_bounds) as Hfol.
  pose proof (follows_runs JRes _ _ _ _ _ _ _ Hr Hfol) as Hc.
  assert (traceInv j topic tr (phaseAfter JRes (next j stream) (PTop initialDurableFetchBackoff) tr)) as Hi.
  { eapply follows_invariant; [apply traceInv_step| |exact Hfol|exact Hr].
    split; [by exists []; auto|done|]. simpl. unfold deadLetters. by case_match. }
  by eapply traceInv_settled.
Qed.
Lemma durable_order_witness :
  let j := NewJetStreamEventBus [WithDurableMaxDeliver 2] in
  let m := mkMsg 0 "x" [] (Some 2) in
  let tr := [existT JCtxErr false; existT (JFetch 10 (5 * second)) (inl [m]); existT (JHandler m (durableMessage m)) (Some Nack);
             existT (JPublish "orders.DEAD" "x" []) None; existT (JTerm m) None] in
  ∃ settled current, handled tr = settled ++ current ∧ (length current ≤ 1)%nat ∧ resolved tr = outcomes j settled ∧
    resolved tr = [(m, RTerm)].
Proof.
  intros j m tr.
  edestruct (durable_order [WithDurableMaxDeliver 2] j 1 "S" "orders" "billing" tr) as (settled & current & todo & H1 & H2 & _ & H3 & _).
  - repeat constructor.
  - reflexivity.
  - vm_compute. discriminate.
  - unfold tr. do 5 (eapply (runs_call JRes); cbn -[durableMessage]). apply runs_nil.
  - exists settled, current. split; [exact H1|]. split; [exact H2|]. split; [exact H3|]. reflexivity.
Defined.
