(* ===== verification/JetStreamBus.v ===== *)
(** Subscribing to and closing a JetStream bus (src/nats/jetstream.go:
    Publish, SubscribeDurable, ensureDurableConsumer, Close; src/internal/busshutdown).

    Subscribers, consume loops and closers are threads over one bus; a critical
    section of the bus is one call.  The broker answers arbitrarily. *)

From Stdlib Require Import Ascii.
From stdpp Require Import base list strings.
From S2P Require Import Prelude Paths GoStrings Code Threads JetStream.

#[local] Open Scope Z_scope.

(** * Consumers *)

Definition DeliverAllPolicy : Z := 0.
Definition DeliverNewPolicy : Z := 2.
Definition AckExplicitPolicy : Z := 2.
(** The fields of a [nats.ConsumerConfig] that the bus uses. *)
Record ConsumerConfig := mkCC {
  cc_Durable : string; cc_FilterSubject : string; cc_AckPolicy : Z; cc_DeliverPolicy : Z; cc_MaxDeliver : Z;
  cc_AckWait : Z; cc_OptStartSeq : Z; cc_OptStartTime : option Z }.

Definition durableConsumerConfigMatches (existing desired : ConsumerConfig) : bool :=
  String.eqb (cc_FilterSubject existing) (cc_FilterSubject desired)
  && (cc_AckPolicy existing =? cc_AckPolicy desired)
  && (cc_DeliverPolicy existing =? cc_DeliverPolicy desired)
  && (cc_MaxDeliver existing =? cc_MaxDeliver desired)
  && (cc_AckWait existing =? cc_AckWait desired).

(** The options of [PullSubscribe]. *)
Record SubOpts := mkSubOpts { su_MaxDeliver : Z; su_AckWait : Z; su_DeliverNew : bool }.

(** * Calls *)

Inductive BOp :=
  | BCtxErr
  | BCheckClosed                                   (* the first critical section of SubscribeDurable *)
  | BStreamNameBySubject (topic : string)
  | BConsumerInfo (stream consumer : string)
  | BAddConsumer (stream : string) (cfg : ConsumerConfig)
  | BUpdateConsumer (stream : string) (cfg : ConsumerConfig)
  | BPullSubscribe (topic consumer : string) (opts : SubOpts)
  | BRegister (sub : nat)                          (* its second: the bookkeeping and durableWG.Add *)
  | BUnsubscribe (sub : nat)
  | BGo (stream topic consumer : string) (sub : nat) (* go j.durableConsumeLoop *)
  | BLoop (o : JOp)                                (* a call of the loop *)
  | BDone                                          (* durableWG.Done *)
  | BClose                                         (* the critical section of Close *)
  | BCancel (sub : nat)
  | BWait                                          (* busshutdown.WaitGroup *)
  | BPublishMsg (topic payload : string).

Definition BRes (o : BOp) : Type :=
  match o with
  | BCtxErr | BAddConsumer _ _ | BUpdateConsumer _ _ | BWait | BPublishMsg _ _ => option error
  | BCheckClosed | BRegister _ => bool
  | BStreamNameBySubject _ => string + error
  | BConsumerInfo _ _ => ConsumerConfig + NatsError
  | BPullSubscribe _ _ _ => nat + error
  | BUnsubscribe _ | BGo _ _ _ _ | BDone | BCancel _ => unit
  | BLoop o => JRes o
  | BClose => option (list nat)
  end.

Definition Prog := Code BRes (option error).

(** * The programs *)

Definition Publish (topic payload : string) : Prog :=
  err ← call BCtxErr;
  match (err : option error) with
  | Some err => mret (Some err)
  | None =>
    err ← call (BPublishMsg topic payload);
    mret (match (err : option error) with
          | Some err => Some (Errorf "failed to publish to jetstream subject %q: %w" [topic] [err])
          | None => None
          end)
  end.

Definition ErrJetStreamSubscribeUnsupported : string :=
  "nats: JetStreamEventBus does not support Subscribe; use nats.EventBus or SubscribeDurable".
Definition Subscribe : Prog := mret (Some (Const ErrJetStreamSubscribeUnsupported)).

Section programs.
Context (j : Settings).

(** The policy the consumer has, and its stream. *)
Definition ensureDurableConsumer (topic consumerName : string) (deliverPolicy : Z)
    : Code BRes (Z * (string + error)) :=
  let cfg := mkCC consumerName topic AckExplicitPolicy deliverPolicy (durableMaxDeliver j) (durableAckWait j) 0 None in
  r ← call (BStreamNameBySubject topic);
  match (r : string + error) with
  | inr err => mret (deliverPolicy, inr (Errorf "failed to resolve stream for subject %q: %w" [topic] [err]))
  | inl stream =>
    r ← call (BConsumerInfo stream consumerName);
    match (r : ConsumerConfig + NatsError) with
    | inr err =>
      if negb (errors_Is err ErrConsumerNotFound)
      then mret (deliverPolicy, inr (Errorf "failed to look up durable consumer %q on stream %q: %w" [consumerName; stream] [New (ne_text err)]))
      else
        r ← call (BAddConsumer stream cfg);
        match (r : option error) with
        | Some err => mret (deliverPolicy, inr (Errorf "failed to create durable consumer %q on stream %q: %w" [consumerName; stream] [err]))
        | None => mret (deliverPolicy, inl stream)
        end
    | inl existing =>
      let cfg := if negb (cc_DeliverPolicy existing =? cc_DeliverPolicy cfg)
                 then mkCC (cc_Durable cfg) (cc_FilterSubject cfg) (cc_AckPolicy cfg) (cc_DeliverPolicy existing)
                        (cc_MaxDeliver cfg) (cc_AckWait cfg) (cc_OptStartSeq existing) (cc_OptStartTime existing)
                 else cfg in
      if durableConsumerConfigMatches existing cfg then mret (cc_DeliverPolicy cfg, inl stream)
      else
        r ← call (BUpdateConsumer stream cfg);
        match (r : option error) with
        | Some err => mret (cc_DeliverPolicy cfg, inr (Errorf "failed to update durable consumer %q on stream %q: %w" [consumerName; stream] [err]))
        | None => mret (cc_DeliverPolicy cfg, inl stream)
        end
    end
  end.

Definition ErrDurableConsumerNameRequired : string := "nats: SubscribeDurable requires a non-empty ConsumerName".
Definition closedErr (topic : string) : error := Errorf "failed to subscribe durably to %q: event bus is closed" [topic] [].

(** [hasHandler] tells whether the handler is not nil. *)
Definition SubscribeDurable (topic : string) (hasHandler : bool) (opts : list (DurableSubscribeOptions → DurableSubscribeOptions)) : Prog :=
  if negb hasHandler then mret (Some (Errorf "failed to subscribe durably to %q: handler must not be nil" [topic] []))
  else
    err ← call BCtxErr;
    match (err : option error) with
    | Some err => mret (Some err)
    | None =>
      let o := foldl (λ o opt, opt o) (mkDSO "" ReplayAll) opts in
      if String.eqb (TrimSpace (so_ConsumerName o)) ""
      then mret (Some (Errorf "failed to subscribe durably to %q: %w" [topic] [Const ErrDurableConsumerNameRequired]))
      else
        closed ← call BCheckClosed;
        if (closed : bool) then mret (Some (closedErr topic))
        else
          let deliverPolicy := if so_Replay o =? ReplayNew then DeliverNewPolicy else DeliverAllPolicy in
          x ← ensureDurableConsumer topic (so_ConsumerName o) deliverPolicy;
          match (x : Z * (string + error)).2 with
          | inr err => mret (Some (Errorf "failed to create durable consumer %q for %q: %w" [so_ConsumerName o; topic] [err]))
          | inl stream =>
            let subOpts := mkSubOpts (durableMaxDeliver j) (durableAckWait j) (x.1 =? DeliverNewPolicy) in
            r ← call (BPullSubscribe topic (so_ConsumerName o) subOpts);
            match (r : nat + error) with
            | inr err => mret (Some (Errorf "failed to create durable consumer %q for %q: %w" [so_ConsumerName o; topic] [err]))
            | inl sub =>
              ok ← call (BRegister sub);
              if negb (ok : bool)
              then call (BCancel sub) ;; call (BUnsubscribe sub) ;; mret (Some (closedErr topic))
              else call (BGo stream topic (so_ConsumerName o) sub) ;; mret None
            end
          end
    end.

(** The calls of the loop, as calls of a thread. *)
Fixpoint inThread {A} (c : Code JRes A) : Code BRes A :=
  match c with
  | Ret a => Ret a
  | Call o k => Call (BLoop o) (λ r, inThread (k r))
  end.
(** A loop that has not returned within [fuel] rounds is still running. *)
Definition consumeThread (fuel : nat) (stream topic consumerName : string) : Prog :=
  stopped ← inThread (durableConsumeLoop j fuel stream topic consumerName initialDurableFetchBackoff);
  if (stopped : bool) then call BDone ;; mret None else mret None.

Fixpoint eachSub (o : nat → BOp) (subs : list nat) : Code BRes unit :=
  match subs with [] => mret tt | s :: subs => call (o s) ;; eachSub o subs end.
Definition Close : Prog :=
  r ← call BClose;
  match (r : option (list nat)) with
  | None => mret None
  | Some subs => eachSub BCancel subs ;; eachSub BUnsubscribe subs ;; call BWait
  end.
End programs.

(** * The bus and its threads *)

(** [bu_waited] records that a [Close] has waited for the loops and returned
    nil. *)
Record Bus := mkBus { bu_closed : bool; bu_subs : list nat; bu_wg : nat; bu_waited : bool }.
Definition newBus : Bus := mkBus false [] 0 false.

(** One call.  [env] answers what leaves the bus, [fuel] bounds a loop that is
    started.  The wait returns nil only when the counter is zero. *)
Definition exec (j : Settings) (env : ∀ o, BRes o) (fuel : nat) (o : BOp) (b : Bus) : option (BRes o * Bus * list Prog) :=
  match o return option (BRes o * Bus * list Prog) with
  | BCheckClosed => Some (bu_closed b, b, [])
  | BRegister sub =>
    if bu_closed b then Some (false, b, [])
    else Some (true, mkBus false (bu_subs b ++ [sub]) (S (bu_wg b)) (bu_waited b), [])
  | BGo stream topic consumer _ => Some (tt, b, [consumeThread j fuel stream topic consumer])
  | BDone => Some (tt, mkBus (bu_closed b) (bu_subs b) (pred (bu_wg b)) (bu_waited b), [])
  | BClose =>
    if bu_closed b then Some (None, b, [])
    else Some (Some (bu_subs b), mkBus true [] (bu_wg b) (bu_waited b), [])
  | BWait =>
    match env BWait with
    | Some err => Some (Some err, b, [])
    | None => if (bu_wg b =? 0)%nat then Some (None, mkBus (bu_closed b) (bu_subs b) (bu_wg b) true, []) else None
    end
  | o => Some (env o, b, [])
  end.

(** The methods of the bus. *)
Inductive Method :=
  | MPublish (topic payload : string)
  | MSubscribe
  | MSubscribeDurable (topic : string) (hasHandler : bool) (opts : list (DurableSubscribeOptions → DurableSubscribeOptions))
  | MClose.
Definition method (j : Settings) (m : Method) : Prog :=
  match m with
  | MPublish topic payload => Publish topic payload
  | MSubscribe => Subscribe
  | MSubscribeDurable topic hasHandler opts => SubscribeDurable j topic hasHandler opts
  | MClose => Close
  end.
Definition busReachable (j : Settings) : Sys BRes (option error) Bus → Prop := reachable (exec j) (method j) newBus.

(** * What a thread may still do *)

Inductive LPhase :=
  | LFree       (* not counted by the wait group *)
  | LRegistered (* counted, the loop is not started yet *)
  | LLooping
  | LClosing
  | LEnd.
#[export] Instance LPhase_eq_dec : EqDecision LPhase.
Proof. solve_decision. Defined.

Definition allowedL (ph : LPhase) (o : BOp) : Prop :=
  match o with
  | BRegister _ => ph = LFree
  | BGo _ _ _ _ => ph = LRegistered
  | BLoop _ | BDone => ph = LLooping
  | BClose => ph = LFree
  | BWait => ph = LClosing
  | _ => ph = LFree ∨ ph = LClosing
  end.
Definition nextL (ph : LPhase) (o : BOp) : BRes o → LPhase :=
  match o return BRes o → LPhase with
  | BRegister _ => λ ok : bool, if ok then LRegistered else LFree
  | BGo _ _ _ _ => λ _, LEnd
  | BDone => λ _, LEnd
  | BClose => λ r, match r with Some _ => LClosing | None => LEnd end
  | BWait => λ _, LEnd
  | _ => λ _, ph
  end.
(** A loop that ran out of fuel is still running. *)
Definition finalL (ph : LPhase) (_ : option error) : Prop := ph ≠ LRegistered.

Definition thread (ph : LPhase) (c : Prog) : Prop := follows BRes allowedL nextL finalL ph c.

Lemma subscribe_thread j topic hasHandler opts : thread LFree (SubscribeDurable j topic hasHandler opts).
Proof.
  unfold SubscribeDurable. case_match; [done|]. split; [by left|]. intros [err|]; [done|]. case_match; [done|].
  split; [by left|]. intros [|]; [done|].
  eapply (follows_bind BRes _ _ (λ ph _, ph = LFree)).
  - unfold ensureDurableConsumer.
    split; [by left|]. intros [stream|err]; [|done]. split; [by left|]. intros [existing|err]; simpl.
    + destruct (durableConsumerConfigMatches existing _); [done|]. split; [by left|]. by intros [err|].
    + destruct (negb (errors_Is err ErrConsumerNotFound)); [done|]. split; [by left|]. by intros [err'|].
  - intros ph [pol [stream|err]] ->; [|done]. split; [by left|]. intros [sub|err]; [|done].
    split; [done|]. intros [|]; simpl; by repeat (split; [by auto|]; intros).
Qed.

Lemma consume_thread j fuel stream topic consumer : thread LLooping (consumeThread j fuel stream topic consumer).
Proof.
  unfold consumeThread. eapply (follows_bind BRes _ _ (λ ph _, ph = LLooping)).
  - generalize (durableConsumeLoop j fuel stream topic consumer initialDurableFetchBackoff). intros c.
    induction c as [a|o k IH]; [done|]. split; [done|]. intros r. apply IH.
  - by intros ph [|] ->; simpl.
Qed.

Lemma eachSub_thread o subs : (∀ s, allowedL LClosing (o s)) → (∀ s r, nextL LClosing (o s) r = LClosing) →
  follows BRes allowedL nextL (λ ph _, ph = LClosing) LClosing (eachSub o subs).
Proof.
  intros Ha Hn. induction subs as [|s subs IH]; [done|]. split; [apply Ha|]. intros r. rewrite Hn. exact IH.
Qed.
Lemma close_thread : thread LFree Close.
Proof.
  split; [done|]. intros [subs|]; [|done]. cbn [nextL].
  eapply follows_bind; [by apply (eachSub_thread BCancel); [right|]|]. intros ph _ ->.
  eapply follows_bind; [by apply (eachSub_thread BUnsubscribe); [right|]|]. intros ph _ ->. by split.
Qed.

(** * The invariant *)

Definition started (o : BOp) : list LPhase := match o with BGo _ _ _ _ => [LLooping] | _ => [] end.
Lemma starts j env fuel o b r b' ps : exec j env fuel o b = Some (r, b', ps) → Forall2 thread (started o) ps.
Proof.
  destruct o; cbn [exec]; intros H; repeat (case_match; simplify_eq); simplify_eq; repeat constructor. apply consume_thread.
Qed.
Lemma method_thread j m : thread LFree (method j m).
Proof.
  destruct m as [topic payload| |topic hh opts|]; [|done|apply subscribe_thread|apply close_thread].
  split; [by left|]. intros [err|]; [done|]. split; [by left|]. by intros [err|].
Qed.

Definition viewL (ph : LPhase) : WView :=
  match ph with LRegistered | LLooping => WCounted | LClosing => WClosing | _ => WOther end.
Definition busInv (b : Bus) (phs : list LPhase) : Prop := wgInv (bu_closed b) (bu_waited b) (bu_wg b) (viewL <$> phs).

Lemma jetstream_moves_inv j b phs b' phs' : busInv b phs → moves (exec j) allowedL nextL LFree started b phs b' phs' → busInv b' phs'.
Proof.
  intros Hi Hm. destruct Hm as [|i ph o r b' env fuel ps Hph Ha He]; unfold busInv in *.
  { rewrite fmap_app. by apply wg_spawn. }
  rewrite fmap_app, list_fmap_insert.
  assert ((viewL <$> phs) !! i = Some (viewL ph)) as Hv by (by rewrite list_lookup_fmap, Hph).
  destruct o; cbn [exec allowedL nextL started fmap list_fmap] in *; rewrite ?app_nil_r;
    try (injection He as <- <- <-; by rewrite list_insert_id).
  - (* BRegister *) subst ph. destruct (bu_closed b) eqn:Ec; injection He as <- <- <-; rewrite ?Ec in *.
    + by rewrite list_insert_id.
    + by apply wg_enter.
  - (* BGo *) subst ph. injection He as <- <- <-. by apply wg_give.
  - (* BDone *) subst ph. injection He as <- <- <-. by apply wg_done.
  - (* BClose *) subst ph. destruct (bu_closed b) eqn:Ec; injection He as <- <- <-; rewrite ?Ec in *.
    + by eapply wg_leave.
    + by eapply wg_close.
  - (* BWait *) subst ph. destruct (env BWait) as [err|]; [|destruct (Nat.eqb_spec (bu_wg b) 0) as [E|]; [|done]]; injection He as <- <- <-.
    + by eapply wg_leave.
    + by eapply wg_wait.
Qed.

(** Once a [Close] has returned nil after its wait, no consume loop makes a call
    any more, whatever subscribers and closers did concurrently: no handler
    runs, and none will, since every later state is one of these too. *)
Theorem close_quiesces j s : busReachable j s → bu_waited (sys_st s) = true →
  bu_closed (sys_st s) = true ∧ bu_wg (sys_st s) = 0%nat ∧ ∀ i o k, sys_threads s !! i ≠ Some (Call (BLoop o) k).
Proof.
  intros Hr Hw. destruct (threads_inv (exec j) (method j) allowedL nextL finalL LFree started (method_thread j) (starts j) busInv newBus
    wg_init (jetstream_moves_inv j) s Hr) as (phs & Hth & Hi). unfold busInv in Hi. rewrite Hw in Hi.
  destruct (wg_waited _ _ _ _ Hi eq_refl) as [Hc Hz]. split_and!; try done.
  intros i o k Ei. destruct (Forall2_lookup_r _ _ _ _ _ Hth Ei) as (ph & Eph & Ha & _). simpl in Ha. subst ph.
  apply (wg_quiet _ _ _ i Hi). by rewrite list_lookup_fmap, Eph.
Qed.

(** A broker that answers well, and a context that ends a loop at once. *)
Definition demoLoop (o : JOp) : JRes o :=
  match o return JRes o with
  | JCtxErr | JAfter _ => true
  | JFetch _ _ => inl []
  | JConsumerInfo _ _ _ | JHandler _ _ | JAck _ | JNakWithDelay _ _ | JTerm _ | JPublish _ _ _ => None
  end.
Definition demoBroker (o : BOp) : BRes o :=
  match o return BRes o with
  | BCtxErr | BAddConsumer _ _ | BUpdateConsumer _ _ | BWait | BPublishMsg _ _ => None
  | BCheckClosed => false
  | BRegister _ => true
  | BStreamNameBySubject _ => inl "S"
  | BConsumerInfo _ _ => inr (mkNatsError [ErrConsumerNotFound] "nats: consumer not found")
  | BPullSubscribe _ _ _ => inl 7%nat
  | BUnsubscribe _ | BGo _ _ _ _ | BDone | BCancel _ => tt
  | BLoop o => demoLoop o
  | BClose => None
  end.
Definition demo_run : list (Label (R := BRes) (L := Method)) :=
  [LSpawn (MSubscribeDurable "orders" true [WithConsumerName "billing"])] ++ replicate 8 (LRun 0 demoBroker 3) ++
  [LSpawn MClose] ++ replicate 3 (LRun 2 demoBroker 3) ++ replicate 2 (LRun 1 demoBroker 3) ++ [LRun 2 demoBroker 3].
Lemma close_quiesces_witness :
  let j := NewJetStreamEventBus [] in
  ∃ s, run (exec j) (method j) demo_run (mkSys newBus []) = Some s ∧ length (sys_threads s) = 3%nat ∧
  ∀ i o k, sys_threads s !! i ≠ Some (Call (BLoop o) k).
Proof.
  intros j. assert (match run (exec j) (method j) demo_run (mkSys newBus []) with
    | Some s => bu_waited (sys_st s) && (length (sys_threads s) =? 3)%nat | None => false end = true) as H by (vm_compute; reflexivity).
  destruct (run (exec j) (method j) demo_run (mkSys newBus [])) as [s|] eqn:E; [|discriminate H].
  apply andb_true_iff in H as [Hw Hn%Nat.eqb_eq]. exists s. split; [reflexivity|]. split; [exact Hn|].
  apply (close_quiesces j s (ex_intro _ demo_run E) Hw).
Defined.
