(* ===== verification/RabbitBus.v ===== *)
(** The RabbitMQ event bus (src/rabbitmq/rabbitmq.go; src/internal/handlerpanic,
    src/internal/busshutdown): how deliveries are resolved, and how consumers
    share a channel and are shut down.

    Subscribers, consume loops, the tasks of their pools and closers are threads
    over one bus; a critical section of the bus is one call.  The broker, the
    handlers and the contexts answer arbitrarily; logging and tracing are left
    out.  The model has one bus on its channel: what several buses that share a
    channel do to one another (the prefetch that one sets for the consumers of
    the other, tags told apart by the address of their bus) is not covered. *)

From Stdlib Require Import Ascii.
From stdpp Require Import base list strings.
From S2P Require Import Prelude Regex Paths GoStrings Code Threads WorkerPool.

#[local] Open Scope Z_scope.

Definition Canceled : string := "context canceled".
Definition DeadlineExceeded : string := "context deadline exceeded".

(** * Deliveries *)

Record Delivery := mkDelivery { dl_id : nat; dl_Body : string }.

Inductive ROp :=
  (* a delivery *)
  | RHandler (d : Delivery)
  | RAck (d : Delivery)
  | RNack (d : Delivery) (requeue : bool)
  | RSubmit (p : nat) (d : Delivery)         (* processor.Submit of the delivery's task *)
  | RTaskDone (p : nat)                      (* the worker is done with the task *)
  (* a loop *)
  | RReceive                                 (* the select of consumeLoop *)
  | RCancelCtx (tag : nat)
  | RBrokerCancel (tag : nat)                (* ch.Cancel *)
  | RPoolClose (p : nat)                     (* processor.Close(context.Background()) *)
  | RExit (stopped : nat)                    (* its last critical section *)
  (* a subscriber *)
  | RPoolNew                                 (* workerpool.New, with valid options *)
  | RCtxErr
  | RCheckClosed
  | RQueueDeclare (topic : string)
  | RNextTag                                 (* the critical section of startConsumer *)
  | RLockConsume                             (* consumeMu, or ctx.Done() *)
  | RQos (prefetch : Z)
  | ROwned                                   (* qosOwnedByPool *)
  | RSetOwned
  | RConsume (topic : string) (tag : nat) (prefetch : Z)
  | RUnlockConsume
  | RRegister (tag : nat)                    (* registerConsumer *)
  | RGo (topic : string) (tag stopped : nat) (processor : option nat)
  (* Close *)
  | RClose
  | RWait (stopped : nat)                    (* busshutdown.Wait *)
  (* Publish *)
  | RConfirm                                 (* confirmOnce.Do, and confirmErr *)
  | RPublish (topic payload : string)
  | RPublishDeferred (topic payload : string)
  | RWaitConfirm.

(** What a loop receives. *)
Inductive Received := RcDone | RcClosed | RcDelivery (d : Delivery).

Definition RRes (o : ROp) : Type :=
  match o with
  | RHandler _ => Handled
  | RReceive => Received
  | RAck _ | RNack _ _ | RSubmit _ _ | RBrokerCancel _ | RPoolClose _ | RCtxErr | RQueueDeclare _ | RLockConsume | RQos _
  | RConsume _ _ _ | RWait _ | RConfirm | RPublish _ _ | RPublishDeferred _ _ => option error
  | RWaitConfirm => bool + error
  | RCancelCtx _ | RExit _ | RSetOwned | RUnlockConsume | RGo _ _ _ _ | RTaskDone _ => unit
  | RCheckClosed | ROwned => bool
  | RNextTag | RPoolNew => nat
  | RRegister _ => option nat
  | RClose => option (list nat * nat)
  end.

Definition isContextDoneErr (err : error) : bool := error_is Canceled err || error_is DeadlineExceeded err.

Definition resolveDelivery (d : Delivery) (herr : option error) : Code RRes unit :=
  match herr with
  | Some err => call (RNack d (isContextDoneErr err)) ;; mret tt
  | None => call (RAck d) ;; mret tt
  end.

Definition handleDelivery (d : Delivery) : Code RRes unit :=
  h ← call (RHandler d);
  resolveDelivery d (Recover h).

(** The closure given to the pool; it ends with the handler's error or panics on. *)
Definition deliveryTask (d : Delivery) : Code RRes Handled :=
  h ← call (RHandler d);
  match (h : Handled) with
  | HPanic p => call (RNack d false) ;; mret (HPanic p)
  | HReturn herr => resolveDelivery d herr ;; mret (HReturn herr)
  end.

(** A worker of the pool [p] with that closure; [workerpool.runTask] recovers. *)
Definition RProg := Code RRes (option error).
Definition poolTask (p : nat) (d : Delivery) : RProg := deliveryTask d ;; call (RTaskDone p) ;; mret None.

(** An accepted submission starts a [poolTask] (see [exec]). *)
Definition submitDelivery (p : nat) (d : Delivery) : Code RRes unit :=
  err ← call (RSubmit p d);
  match (err : option error) with
  | Some _ => call (RNack d true) ;; mret tt
  | None => mret tt
  end.

(** * Consumers *)

(** [processor] is the pool, [None] for nil.  [false] is a loop that goes on
    beyond [fuel] deliveries. *)
Fixpoint receiveLoop (fuel : nat) (processor : option nat) : Code RRes bool :=
  match fuel with
  | O => mret false
  | S fuel =>
    r ← call RReceive;
    match (r : Received) with
    | RcDone | RcClosed => mret true
    | RcDelivery d => match processor with Some p => submitDelivery p d | None => handleDelivery d end ;; receiveLoop fuel processor
    end
  end.
Definition consumeLoop (fuel : nat) (tag stopped : nat) (processor : option nat) : RProg :=
  ended ← receiveLoop fuel processor;
  if (ended : bool) then
    call (RCancelCtx tag) ;;
    call (RBrokerCancel tag) ;;
    match processor with Some p => call (RPoolClose p) ;; mret tt | None => mret tt end ;;
    call (RExit stopped) ;;
    mret None
  else mret None.

Definition plainAfterPool (topic : string) : error :=
  Errorf "failed to consume queue %q: a SubscribeWithOptions call has already changed this channel's default prefetch; a plain Subscribe consumer created now would silently inherit it instead of the channel's original prefetch. Use a dedicated *amqp.Channel for plain Subscribe calls made after SubscribeWithOptions on this EventBus"
    [topic] [].

(** The tag of the consumer; [consumeMu] is released on every return. *)
Definition startConsumer (topic : string) (prefetch : Z) : Code RRes (nat + error) :=
  tag ← call RNextTag;
  err ← call RLockConsume;
  match (err : option error) with
  | Some err => mret (inr err)
  | None =>
    ready ← (if 0 <? prefetch then
               err ← call (RQos prefetch);
               match (err : option error) with
               | Some err => mret (Some (Errorf "failed to configure prefetch for queue %q: %w" [topic] [err]))
               | None => call RSetOwned ;; mret None
               end
             else
               owned ← call ROwned;
               mret (if (owned : bool) then Some (plainAfterPool topic) else None));
    match (ready : option error) with
    | Some err => call RUnlockConsume ;; mret (inr err)
    | None =>
      err ← call (RConsume topic tag prefetch);
      call RUnlockConsume ;;
      mret (match (err : option error) with
            | Some err => inr (Errorf "failed to consume queue %q: %w" [topic] [err])
            | None => inl tag
            end)
    end
  end.

Definition busClosed : error := Errorf "event bus is closed" [] [].
Definition subscribeErr (topic : string) (err : error) : error := Errorf "failed to subscribe to queue %q: %w" [topic] [err].
Definition nilHandler (topic : string) : error := Errorf "failed to subscribe to queue %q: handler must not be nil" [topic] [].

Definition subscribe (topic : string) (hasHandler : bool) (processor : option nat) (prefetch : Z) : RProg :=
  if negb hasHandler then mret (Some (nilHandler topic))
  else
    err ← call RCtxErr;
    match (err : option error) with
    | Some err => mret (Some err)
    | None =>
      closed ← call RCheckClosed;
      if (closed : bool) then mret (Some (subscribeErr topic busClosed))
      else
        err ← call (RQueueDeclare topic);
        match (err : option error) with
        | Some err => mret (Some (Errorf "failed to declare queue %q: %w" [topic] [err]))
        | None =>
          r ← startConsumer topic prefetch;
          match (r : nat + error) with
          | inr err => mret (Some err)
          | inl tag =>
            r ← call (RRegister tag);
            match (r : option nat) with
            | None => call (RCancelCtx tag) ;; call (RBrokerCancel tag) ;; mret (Some (subscribeErr topic busClosed))
            | Some stopped => call (RGo topic tag stopped processor) ;; mret None
            end
          end
        end
    end.

Definition Subscribe (topic : string) (hasHandler : bool) : RProg := subscribe topic hasHandler None 0.

Definition SubscribeWithOptions (topic : string) (hasHandler : bool) (Workers QueueCapacity : Z) : RProg :=
  if negb hasHandler then mret (Some (nilHandler topic))
  else
    err ← call RCtxErr;
    match (err : option error) with
    | Some err => mret (Some err)
    | None =>
      closed ← call RCheckClosed;
      if (closed : bool) then mret (Some (subscribeErr topic busClosed))
      else match WorkerPool.New Workers QueueCapacity with
      | inr err => mret (Some (Errorf "failed to subscribe to queue %q: invalid worker options: %w" [topic] [err]))
      | inl _ =>
        processor ← call RPoolNew;
        err ← subscribe topic hasHandler (Some processor) (GoStrings.wrap64 (Workers + QueueCapacity));
        match (err : option error) with
        | Some err => call (RPoolClose processor) ;; mret (Some err)
        | None => mret None
        end
      end
    end.

Fixpoint cancelAll (tags : list nat) : Code RRes unit :=
  match tags with [] => mret tt | t :: tags => call (RCancelCtx t) ;; cancelAll tags end.
Definition Close : RProg :=
  r ← call RClose;
  match (r : option (list nat * nat)) with
  | None => mret None
  | Some (tags, stopped) => cancelAll tags ;; call (RWait stopped)
  end.

(** Messages are sent persistent, to the default exchange. *)
Definition Publish (publisherConfirms : bool) (topic payload : string) : RProg :=
  err ← call RCtxErr;
  match (err : option error) with
  | Some err => mret (Some err)
  | None =>
    if negb publisherConfirms then call (RPublish topic payload)
    else
      err ← call RConfirm;
      match (err : option error) with
      | Some err => mret (Some (Errorf "failed to enable publisher confirms for queue %q: %w" [topic] [err]))
      | None =>
        err ← call (RPublishDeferred topic payload);
        match (err : option error) with
        | Some err => mret (Some (Errorf "failed to publish to queue %q: %w" [topic] [err]))
        | None =>
          r ← call RWaitConfirm;
          mret (match (r : bool + error) with
                | inr err => Some (Errorf "failed waiting for publisher confirm on queue %q: %w" [topic] [err])
                | inl false => Some (Errorf "broker nacked publish to queue %q" [topic] [])
                | inl true => None
                end)
        end
      end
  end.

(** * A plain consumer *)

(** How a delivery is resolved. *)
Inductive Resolution := Acked | Nacked (requeue : bool).
Definition resolution (d : Delivery) (v : Resolution) : ROp := match v with Acked => RAck d | Nacked requeue => RNack d requeue end.
(** What a handler's end calls for: the message is acknowledged on success,
    returned to the queue when the handler was cut off by its context, and
    dropped otherwise, after a panic too. *)
Definition verdict (h : Handled) : Resolution :=
  match h with
  | HReturn None => Acked
  | HReturn (Some err) => Nacked (error_is "context canceled" err || error_is "context deadline exceeded" err)
  | HPanic _ => Nacked false
  end.

(** What a thread has at hand: a delivery received and not handled yet, or one
    that is to be resolved. *)
Inductive Hand := HNone | HGot (d : Delivery) | HDue (d : Delivery) (v : Resolution).
Definition waitingH (h : Hand) : list Delivery := match h with HGot d => [d] | _ => [] end.
Definition pendingH (h : Hand) : list (Delivery * Resolution) := match h with HDue d v => [(d, v)] | _ => [] end.

Definition allowedD (ph : option Hand) (o : ROp) : Prop :=
  match ph with
  | Some HNone => o = RReceive
  | Some (HGot d) => o = RHandler d
  | Some (HDue d v) => o = resolution d v
  | None => False
  end.
Definition nextD (ph : option Hand) (o : ROp) : RRes o → option Hand :=
  match o return RRes o → option Hand with
  | RReceive => λ r, match r with RcDelivery d => Some (HGot d) | _ => None end
  | RHandler d => λ h, Some (HDue d (verdict h))
  | RAck _ | RNack _ _ => λ _, Some HNone
  | _ => λ _, ph
  end.

Lemma handle_follows d : follows RRes allowedD nextD (λ ph _, ph = Some HNone) (Some (HGot d)) (handleDelivery d).
Proof. split; [done|]. intros [[err|]|p]; simpl; (split; [done|]); by intros _. Qed.
Lemma receive_follows fuel :
  follows RRes allowedD nextD (λ ph ended, ph = if (ended : bool) then None else Some HNone) (Some HNone) (receiveLoop fuel None).
Proof.
  induction fuel as [|fuel IH]; [done|]. split; [done|]. intros [| |d]; [done..|]. cbn [nextD].
  eapply follows_bind; [apply handle_follows|]. intros ph _ ->. exact IH.
Qed.

(** What a run received and resolved. *)
Definition receivedBy (e : sigT RRes) : list Delivery := match e with existT RReceive (RcDelivery d) => [d] | _ => [] end.
Definition resolvedBy (e : sigT RRes) : list Delivery := match e with existT (RAck d) _ | existT (RNack d _) _ => [d] | _ => [] end.
Definition atHand (ph : option Hand) : list Delivery := match ph with Some (HGot d) | Some (HDue d _) => [d] | _ => [] end.

Lemma delivery_trace tr ph o r :
  tr ≫= receivedBy = (tr ≫= resolvedBy) ++ atHand ph → allowedD ph o →
  (tr ++ [existT o r]) ≫= receivedBy = ((tr ++ [existT o r]) ≫= resolvedBy) ++ atHand (nextD ph o r).
Proof.
  intros H Ha. rewrite !bind_app, H. cbn [mbind list_bind]. rewrite !app_nil_r.
  destruct ph as [[|d|d v]|]; cbn [allowedD] in Ha; [| | |done].
  - subst o. destruct r as [| |d]; simpl; by rewrite ?app_nil_r.
  - subst o. simpl. by rewrite ?app_nil_r.
  - destruct v; subst o; simpl; by rewrite ?app_nil_r.
Qed.
(** A consumer without a pool resolves its deliveries in the order received, each
    before it receives the next. *)
Lemma plain_in_order fuel tr c : runs RRes (receiveLoop fuel None) tr c →
  ∃ current, tr ≫= receivedBy = (tr ≫= resolvedBy) ++ current ∧ (length current ≤ 1)%nat ∧
    (∀ k, c = Call RReceive k → current = []) ∧ (∀ b, c = Ret b → current = []).
Proof.
  intros Hr. pose proof (follows_runs RRes _ _ _ _ _ _ _ Hr (receive_follows fuel)) as Hc.
  pose proof (follows_invariant RRes allowedD nextD _ (λ tr ph, tr ≫= receivedBy = (tr ≫= resolvedBy) ++ atHand ph)
    delivery_trace (Some HNone) _ _ tr eq_refl (receive_follows fuel) Hr) as Hi. cbn beta in Hi.
  set (ph := phaseAfter _ _ _ _) in *. clearbody ph. exists (atHand ph).
  split_and!; [done|by destruct ph as [[]|]; simpl; lia| |].
  - intros k ->. destruct Hc as [Ha _]. destruct ph as [[|d|d v]|]; try done. by destruct v.
  - intros b ->. simpl in Hc. by destruct b; subst ph.
Qed.

(** * The bus and its threads *)

(** What the broker was asked to do with success, the latest first. *)
Inductive REvent := EQos (n : Z) | EConsume (tag : nat) (want : option Z) | ECancel (tag : nat).
(** The prefetch a consumer asks for; [None]: that of the channel. *)
Definition want (prefetch : Z) : option Z := if 0 <? prefetch then Some prefetch else None.
#[export] Instance REvent_eq_dec : EqDecision REvent.
Proof. solve_decision. Defined.

(** What happened to deliveries, the latest first. *)
Inductive LEvent := LReceived (d : Delivery) | LHandled (d : Delivery) (h : Handled) | LRejected (d : Delivery) | LResolved (d : Delivery) (v : Resolution).

(** Channels of the type of [stopped] are numbered; [rb_closedChans] are those
    closed.  [rb_panicked] is the close of a closed channel, [rb_waited] that a
    [Close] has waited for the loops and returned nil, [rb_confirm] what
    [confirmOnce] left, [rb_tasks] the pools of the tasks accepted and not done. *)
Record RBus := mkRBus {
  rb_closed : bool; rb_active : nat; rb_stopped : nat; rb_closedChans : list nat; rb_nextChan : nat;
  rb_nextTag : nat; rb_tags : list nat; rb_owned : bool; rb_locked : bool;
  rb_trace : list REvent; rb_panicked : bool; rb_waited : bool; rb_confirm : option (option error);
  rb_nextPool : nat; rb_tasks : list nat; rb_log : list LEvent }.

Definition set_mu (closed : bool) (active stopped : nat) (chans : list nat) (nextChan : nat) (tags : list nat) (b : RBus) : RBus :=
  mkRBus closed active stopped chans nextChan (rb_nextTag b) tags (rb_owned b) (rb_locked b) (rb_trace b) (rb_panicked b)
    (rb_waited b) (rb_confirm b) (rb_nextPool b) (rb_tasks b) (rb_log b).
Definition set_nextTag (n : nat) (b : RBus) : RBus :=
  mkRBus (rb_closed b) (rb_active b) (rb_stopped b) (rb_closedChans b) (rb_nextChan b) n (rb_tags b) (rb_owned b) (rb_locked b)
    (rb_trace b) (rb_panicked b) (rb_waited b) (rb_confirm b) (rb_nextPool b) (rb_tasks b) (rb_log b).
Definition set_channel (owned locked : bool) (trace : list REvent) (b : RBus) : RBus :=
  mkRBus (rb_closed b) (rb_active b) (rb_stopped b) (rb_closedChans b) (rb_nextChan b) (rb_nextTag b) (rb_tags b) owned locked
    trace (rb_panicked b) (rb_waited b) (rb_confirm b) (rb_nextPool b) (rb_tasks b) (rb_log b).
Definition set_flags (panicked waited : bool) (b : RBus) : RBus :=
  mkRBus (rb_closed b) (rb_active b) (rb_stopped b) (rb_closedChans b) (rb_nextChan b) (rb_nextTag b) (rb_tags b) (rb_owned b)
    (rb_locked b) (rb_trace b) panicked waited (rb_confirm b) (rb_nextPool b) (rb_tasks b) (rb_log b).
Definition set_confirm (c : option error) (b : RBus) : RBus :=
  mkRBus (rb_closed b) (rb_active b) (rb_stopped b) (rb_closedChans b) (rb_nextChan b) (rb_nextTag b) (rb_tags b) (rb_owned b)
    (rb_locked b) (rb_trace b) (rb_panicked b) (rb_waited b) (Some c) (rb_nextPool b) (rb_tasks b) (rb_log b).
Definition set_pools (nextPool : nat) (tasks : list nat) (log : list LEvent) (b : RBus) : RBus :=
  mkRBus (rb_closed b) (rb_active b) (rb_stopped b) (rb_closedChans b) (rb_nextChan b) (rb_nextTag b) (rb_tags b) (rb_owned b)
    (rb_locked b) (rb_trace b) (rb_panicked b) (rb_waited b) (rb_confirm b) nextPool tasks log.
Definition record (e : REvent) (b : RBus) : RBus := set_channel (rb_owned b) (rb_locked b) (e :: rb_trace b) b.
Definition note (e : LEvent) (b : RBus) : RBus := set_pools (rb_nextPool b) (rb_tasks b) (e :: rb_log b) b.

(** [NewEventBus]: the first channel is closed from the start. *)
Definition NewEventBus : RBus := mkRBus false 0 0 [0%nat] 1 0 [] false false [] false false None 0 [] [].

(** A task of the pool [p] leaves. *)
Fixpoint dropTask (p : nat) (tasks : list nat) : list nat :=
  match tasks with [] => [] | q :: tasks => if (p =? q)%nat then tasks else q :: dropTask p tasks end.

(** The last critical section of a loop. *)
Definition exitLoop (stopped : nat) (b : RBus) : RBus :=
  let active := pred (rb_active b) in
  if (active =? 0)%nat then
    if decide (stopped ∈ rb_closedChans b)
    then set_flags true (rb_waited b) b
    else set_mu (rb_closed b) active (rb_stopped b) (stopped :: rb_closedChans b) (rb_nextChan b) (rb_tags b) b
  else set_mu (rb_closed b) active (rb_stopped b) (rb_closedChans b) (rb_nextChan b) (rb_tags b) b.

Definition checkClosed (b : RBus) : bool := rb_closed b.
Definition registerConsumer (tag : nat) (b : RBus) : option nat * RBus :=
  if rb_closed b then (None, b)
  else
    let fresh := (rb_active b =? 0)%nat in
    let stopped := if fresh then rb_nextChan b else rb_stopped b in
    (Some stopped, set_mu false (S (rb_active b)) stopped (rb_closedChans b)
       (if fresh then S (rb_nextChan b) else rb_nextChan b) (rb_tags b ++ [tag]) b).

(** The critical section of [Close]: the consumers to cancel and the channel to
    wait on, unless the bus is closed already. *)
Definition beginClose (b : RBus) : option (list nat * nat) * RBus :=
  if rb_closed b then (None, b)
  else (Some (rb_tags b, rb_stopped b), set_mu true (rb_active b) (rb_stopped b) (rb_closedChans b) (rb_nextChan b) [] b).

(** One call: its answer, the bus after it, and the threads it starts; [None]
    when the call cannot return.  [env] answers what leaves the bus.  A pool runs
    every task it has accepted, and its [Close], under a context that never ends,
    returns when they are done (what [WorkerPool.close_drains] shows of a pool). *)
Definition exec (env : ∀ o, RRes o) (fuel : nat) (o : ROp) (b : RBus) : option (RRes o * RBus * list RProg) :=
  match o return option (RRes o * RBus * list RProg) with
  | RCheckClosed => Some (checkClosed b, b, [])
  | RNextTag => Some (rb_nextTag b, set_nextTag (S (rb_nextTag b)) b, [])
  | RLockConsume =>
    match env RLockConsume with
    | Some err => Some (Some err, b, [])
    | None => if rb_locked b then None else Some (None, set_channel (rb_owned b) true (rb_trace b) b, [])
    end
  | RUnlockConsume => Some (tt, set_channel (rb_owned b) false (rb_trace b) b, [])
  | RQos n => let r := env (RQos n) in Some (r, match (r : option error) with None => record (EQos n) b | Some _ => b end, [])
  | ROwned => Some (rb_owned b, b, [])
  | RSetOwned => Some (tt, set_channel true (rb_locked b) (rb_trace b) b, [])
  | RConsume topic tag prefetch =>
    let r := env (RConsume topic tag prefetch) in
    Some (r, match (r : option error) with None => record (EConsume tag (want prefetch)) b | Some _ => b end, [])
  | RBrokerCancel tag => Some (env (RBrokerCancel tag), record (ECancel tag) b, [])
  | RRegister tag => Some (registerConsumer tag b, [])
  | RGo _ tag stopped processor => Some (tt, b, [consumeLoop fuel tag stopped processor])
  | RReceive =>
    let r := env RReceive in
    Some (r, match (r : Received) with RcDelivery d => note (LReceived d) b | _ => b end, [])
  | RHandler d => let h := env (RHandler d) in Some (h, note (LHandled d h) b, [])
  | RAck d => Some (env (RAck d), note (LResolved d Acked) b, [])
  | RNack d requeue => Some (env (RNack d requeue), note (LResolved d (Nacked requeue)) b, [])
  | RPoolNew => Some (rb_nextPool b, set_pools (S (rb_nextPool b)) (rb_tasks b) (rb_log b) b, [])
  | RSubmit p d =>
    match env (RSubmit p d) with
    | Some err => Some (Some err, note (LRejected d) b, [])
    | None => Some (None, set_pools (rb_nextPool b) (p :: rb_tasks b) (rb_log b) b, [poolTask p d])
    end
  | RTaskDone p => Some (tt, set_pools (rb_nextPool b) (dropTask p (rb_tasks b)) (rb_log b) b, [])
  | RPoolClose p => if decide (p ∈ rb_tasks b) then None else Some (env (RPoolClose p), b, [])
  | RExit stopped => Some (tt, exitLoop stopped b, [])
  | RClose => Some (beginClose b, [])
  | RWait stopped =>
    match env (RWait stopped) with
    | Some err => Some (Some err, b, [])
    | None => if decide (stopped ∈ rb_closedChans b) then Some (None, set_flags (rb_panicked b) true b, []) else None
    end
  | RConfirm =>
    match rb_confirm b with
    | Some err => Some (err, b, [])
    | None => let err := env RConfirm in Some (err, set_confirm err b, [])
    end
  | o => Some (env o, b, [])
  end.

(** The methods of the bus. *)
Inductive RMethod :=
  | MPublish (publisherConfirms : bool) (topic payload : string)
  | MSubscribe (topic : string) (hasHandler : bool)
  | MSubscribeWithOptions (topic : string) (hasHandler : bool) (Workers QueueCapacity : Z)
  | MClose.
Definition method (m : RMethod) : RProg :=
  match m with
  | MPublish confirms topic payload => Publish confirms topic payload
  | MSubscribe topic hasHandler => Subscribe topic hasHandler
  | MSubscribeWithOptions topic hasHandler w q => SubscribeWithOptions topic hasHandler w q
  | MClose => Close
  end.
Definition busReachable : Sys RRes (option error) RBus → Prop := Threads.reachable exec method NewEventBus.

(** * What a thread may still do *)

Inductive RPhase :=
  | FFree
  | FTag (t : nat)                    (* has a tag *)
  | FLocked (t : nat)                 (* holds consumeMu *)
  | FQosed (t : nat) (n : Z)          (* and has set the prefetch, which is not recorded yet *)
  | FReady (t : nat) (w : option Z)   (* and may create the consumer *)
  | FConsumed (t : nat) (ok : bool)   (* and has tried to *)
  | FAbort                            (* holds consumeMu and gives up *)
  | FConsumer (t : nat)               (* has a consumer at the broker *)
  | FRefused (t : nat)                (* and found the bus closed *)
  | FReg (t st : nat)                 (* or is registered *)
  | FLoop (t st : nat) (p : option nat) (h : Hand)
  | FLeaving (t st : nat) (p : option nat)  (* the consumer is cancelled at the broker *)
  | FLeft (t st : nat)                (* and its pool is closed *)
  | FTask (p : nat) (h : Hand)        (* a task of a pool *)
  | FGone                             (* the end of a loop or task *)
  | FClosing (st : nat)
  | FEnd.

Definition allowedF (ph : RPhase) (o : ROp) : Prop :=
  match o with
  | RCtxErr | RCheckClosed | RQueueDeclare _ | RNextTag | RClose | RConfirm | RPublish _ _ | RPublishDeferred _ _ | RWaitConfirm | RPoolNew => ph = FFree
  | RLockConsume => ∃ t, ph = FTag t
  | RQos _ | ROwned => ∃ t, ph = FLocked t
  | RSetOwned => ∃ t n, ph = FQosed t n
  | RConsume _ t prefetch => ph = FReady t (want prefetch)
  | RUnlockConsume => ph = FAbort ∨ ∃ t ok, ph = FConsumed t ok
  | RRegister t => ph = FConsumer t
  | RGo _ t st _ => ph = FReg t st
  | RReceive => ∃ t st p, ph = FLoop t st p HNone
  | RHandler d => (∃ t st, ph = FLoop t st None (HGot d)) ∨ ∃ p, ph = FTask p (HGot d)
  | RSubmit p d => ∃ t st, ph = FLoop t st (Some p) (HGot d)
  | RAck d => (∃ t st p, ph = FLoop t st p (HDue d Acked)) ∨ ∃ p, ph = FTask p (HDue d Acked)
  | RNack d q => (∃ t st p, ph = FLoop t st p (HDue d (Nacked q))) ∨ ∃ p, ph = FTask p (HDue d (Nacked q))
  | RTaskDone p => ph = FTask p HNone
  | RCancelCtx t => ph = FRefused t ∨ (∃ st p, ph = FLoop t st p HNone) ∨ ∃ st, ph = FClosing st
  | RBrokerCancel t => ph = FRefused t ∨ ∃ st p, ph = FLoop t st p HNone
  | RPoolClose p => ph = FFree ∨ ph = FEnd ∨ ∃ t st, ph = FLeaving t st (Some p)
  | RExit st => ∃ t, ph = FLeaving t st None ∨ ph = FLeft t st
  | RWait st => ph = FClosing st
  end.
Definition setHand (h : Hand) (ph : RPhase) : RPhase :=
  match ph with FLoop t st p _ => FLoop t st p h | FTask p _ => FTask p h | ph => ph end.
Definition nextF (ph : RPhase) (o : ROp) : RRes o → RPhase :=
  match o return RRes o → RPhase with
  | RNextTag => λ t, FTag t
  | RLockConsume => λ err, match err, ph with None, FTag t => FLocked t | _, _ => FEnd end
  | RQos n => λ err, match err, ph with None, FLocked t => FQosed t n | _, _ => FAbort end
  | ROwned => λ owned : bool, match owned, ph with false, FLocked t => FReady t None | _, _ => FAbort end
  | RSetOwned => λ _, match ph with FQosed t n => FReady t (Some n) | _ => FAbort end
  | RConsume _ t _ => λ err, FConsumed t (match err with None => true | Some _ => false end)
  | RUnlockConsume => λ _, match ph with FConsumed t true => FConsumer t | _ => FEnd end
  | RRegister t => λ st, match st with Some st => FReg t st | None => FRefused t end
  | RReceive => λ r, match r with RcDelivery d => setHand (HGot d) ph | _ => ph end
  | RHandler d => λ h, setHand (HDue d (verdict h)) ph
  | RSubmit _ d => λ err, setHand (match err with Some _ => HDue d (Nacked true) | None => HNone end) ph
  | RAck _ | RNack _ _ => λ _, setHand HNone ph
  | RBrokerCancel _ => λ _, match ph with FLoop t st p _ => FLeaving t st p | _ => FEnd end
  | RPoolClose _ => λ _, match ph with FLeaving t st _ => FLeft t st | _ => ph end
  | RClose => λ r, match r with Some (_, st) => FClosing st | None => FEnd end
  | RGo _ _ _ _ | RWait _ => λ _, FEnd
  | RExit _ | RTaskDone _ => λ _, FGone
  | _ => λ _, ph
  end.
(** A loop that ran out of fuel is still running. *)
Definition finalF {A} (ph : RPhase) (_ : A) : Prop :=
  match ph with FFree | FEnd | FGone | FLoop _ _ _ HNone => True | _ => False end.
Definition rthread (ph : RPhase) (c : RProg) : Prop := follows RRes allowedF nextF finalF ph c.

Lemma startConsumer_follows topic prefetch :
  follows RRes allowedF nextF (λ ph r, match (r : nat + error) with inl t => ph = FConsumer t | inr _ => ph = FEnd end)
    FFree (startConsumer topic prefetch).
Proof.
  split; [done|]. intros t. split; [by eexists|]. intros [err|]; [done|]. cbn [nextF].
  eapply (follows_bind RRes _ _
    (λ ph r, match (r : option error) with None => ph = FReady t (want prefetch) | Some _ => ph = FAbort end)).
  - unfold want. destruct (0 <? prefetch).
    + split; [by eexists|]. intros [err|]; [done|]. split; [by eexists _, _|]. by intros ?.
    + split; [by eexists|]. by intros [|].
  - intros ph [err|] ->.
    + split; [by left|]. by intros ?.
    + split; [done|]. intros [err|]; (split; [right; by eexists _, _|]); by intros ?.
Qed.

Definition idle (ph : RPhase) : Prop := ph = FFree ∨ ph = FEnd.
Lemma subscribe_follows topic hh processor prefetch :
  follows RRes allowedF nextF (λ ph _, idle ph) FFree (subscribe topic hh processor prefetch).
Proof.
  unfold subscribe. destruct hh; cbn [negb]; [|by left]. split; [done|]. intros [err|]; [by left|]. split; [done|].
  intros [|]; [by left|]. split; [done|]. intros [err|]; [by left|]. cbn [nextF].
  eapply follows_bind; [apply startConsumer_follows|]. intros ph [t|err] ->; [|by right].
  split; [done|]. intros [st|].
  - split; [done|]. intros ?. by right.
  - split; [by left|]. intros ?. split; [by left|]. intros ?. by right.
Qed.
Lemma Subscribe_thread topic hh : rthread FFree (Subscribe topic hh).
Proof.
  eapply follows_weaken; [apply (subscribe_follows topic hh None 0)|]. by intros ph r [-> | ->].
Qed.
Lemma SubscribeWithOptions_thread topic hh w q : rthread FFree (SubscribeWithOptions topic hh w q).
Proof.
  unfold rthread, SubscribeWithOptions. destruct hh; cbn [negb]; [|done]. split; [done|]. intros [err|]; [done|]. split; [done|].
  intros [|]; [done|]. cbn [nextF]. destruct (New w q) as [cfg|err]; [|done]. split; [done|]. intros p. cbn [nextF].
  eapply follows_bind; [apply subscribe_follows|]. intros ph [err|] Hi; [|by destruct Hi as [-> | ->]].
  split; [destruct Hi as [-> | ->]; simpl; auto|]. intros ?. by destruct Hi as [-> | ->].
Qed.

Lemma receiveLoop_thread fuel t st p :
  follows RRes allowedF nextF (λ ph _, ph = FLoop t st p HNone) (FLoop t st p HNone) (receiveLoop fuel p).
Proof.
  induction fuel as [|fuel IH]; [done|]. split; [by eexists _, _, _|]. intros [| |d]; [done..|]. cbn [nextF setHand].
  eapply (follows_bind RRes _ _ (λ ph _, ph = FLoop t st p HNone)); [|by intros ph _ ->].
  destruct p as [p|].
  - split; [by eexists _, _|]. intros [err|]; [|done]. split; [left; by eexists _, _, _|]. by intros ?.
  - split; [left; by eexists _, _|]. intros [[err|]|v]; (split; [left; by eexists _, _, _|]); by intros ?.
Qed.
Lemma consumeLoop_thread fuel t st p : rthread (FLoop t st p HNone) (consumeLoop fuel t st p).
Proof.
  unfold rthread, consumeLoop. eapply follows_bind; [apply receiveLoop_thread|].
  intros ph [|] ->; [|done]. split; [right; left; by eexists _, _|]. intros ?. split; [right; by eexists _, _|]. intros ?. simpl.
  destruct p as [p|]; simpl.
  - split; [right; right; by eexists _, _|]. intros ?. split; [exists t; by right|]. by intros ?.
  - split; [exists t; by left|]. by intros ?.
Qed.
Lemma poolTask_thread p d : rthread (FTask p (HGot d)) (poolTask p d).
Proof.
  split; [right; by eexists|]. intros [[err|]|v]; (split; [right; by eexists|]); intros ?; (split; [done|]); by intros ?.
Qed.

Lemma cancelAll_thread tags st : follows RRes allowedF nextF (λ ph _, ph = FClosing st) (FClosing st) (cancelAll tags).
Proof. induction tags as [|t tags IH]; [done|]. split; [right; right; by eexists|]. intros ?. exact IH. Qed.
Lemma Close_thread : rthread FFree Close.
Proof.
  split; [done|]. intros [[tags st]|]; [|done]. cbn [nextF].
  eapply follows_bind; [apply cancelAll_thread|]. intros ph _ ->. split; [done|]. by intros ?.
Qed.

(** * Phases of the whole system *)

(** The phases of the threads a call starts. *)
Definition started (o : ROp) : RRes o → list RPhase :=
  match o return RRes o → list RPhase with
  | RGo _ t st p => λ _, [FLoop t st p HNone]
  | RSubmit p d => λ err, match err with None => [FTask p (HGot d)] | Some _ => [] end
  | _ => λ _, []
  end.
(** Those of loops and tasks; the other threads are calls of methods. *)
Definition isLoop (ph : RPhase) : bool :=
  match ph with FLoop _ _ _ _ | FLeaving _ _ _ | FLeft _ _ | FTask _ _ | FGone => true | _ => false end.
Definition ofMethod (c : RProg) : Prop := ∃ m tr, runs RRes (method m) tr c.
Definition rowned (ph : RPhase) (c : RProg) : Prop := rthread ph c ∧ (isLoop ph = true ∨ ofMethod c).

Lemma rabbit_starts env fuel o b r b' ps : exec env fuel o b = Some (r, b', ps) → Forall2 rowned (started o r) ps.
Proof.
  assert (∀ ph c, rthread ph c → isLoop ph = true → Forall2 rowned [ph] [c]) as H1 by (intros; repeat constructor; auto).
  destruct o; cbn [exec]; intros H; repeat (case_match; simplify_eq); simplify_eq; try apply Forall2_nil_2; apply H1; try done.
  - apply poolTask_thread.
  - apply consumeLoop_thread.
Qed.
Lemma loop_stays ph o r : isLoop ph = true → allowedF ph o → isLoop (nextF ph o r) = true.
Proof.
  intros Hl Ha. destruct o; cbn [allowedF nextF] in *;
    repeat match goal with H : ∃ _, _ |- _ => destruct H | H : _ ∨ _ |- _ => destruct H end; subst; try done; by repeat case_match.
Qed.
Lemma rowned_obeys ph o k : rowned ph (Call o k) → allowedF ph o ∧ ∀ r, rowned (nextF ph o r) (k r).
Proof.
  intros [[Ha Hk] Ho]. split; [done|]. intros r. split; [apply Hk|]. destruct Ho as [Hl|(m & tr & Hr)].
  - left. by apply loop_stays.
  - right. exists m, (tr ++ [existT o r]). by apply (runs_snoc RRes).
Qed.
Lemma rabbit_method_thread m : rthread FFree (method m).
Proof.
  destruct m as [c topic payload|topic hh|topic hh w q|]; [|apply Subscribe_thread|apply SubscribeWithOptions_thread|apply Close_thread].
  split; [done|]. intros [err|]; [done|]. destruct c; (split; [done|]); intros [err|]; try done.
  split; [done|]. intros [err|]; [done|]. split; [done|]. by intros [|].
Qed.
Lemma rabbit_spawned m : rowned FFree (method m).
Proof. split; [apply rabbit_method_thread|]. right. exists m, []. apply runs_nil. Qed.
Definition rmoves : RBus → list RPhase → RBus → list RPhase → Prop := movesR exec allowedF nextF (λ _ : RMethod, FFree) started.

Lemma rabbit_bus_inv (I : RBus → list RPhase → Prop) : I NewEventBus [] → (∀ b phs b' phs', I b phs → rmoves b phs b' phs' → I b' phs') →
  ∀ s, busReachable s → ∃ phs, Forall2 rowned phs (sys_threads s) ∧ I (sys_st s) phs.
Proof. apply (threads_invR exec method allowedF nextF (λ _, FFree) started rowned rowned_obeys rabbit_spawned rabbit_starts I NewEventBus). Qed.

(** * Shutdown *)

(** What the shutdown sees of a phase: whether the thread is counted by
    [activeConsumers], or a [Close] that waits, and for which channel. *)
Inductive SView := SCounted (st : nat) | SClosing (st : nat) | SOther.
Definition viewS (ph : RPhase) : SView :=
  match ph with FReg _ st | FLoop _ st _ _ | FLeaving _ st _ | FLeft _ st => SCounted st | FClosing st => SClosing st | _ => SOther end.
Definition isActive (v : SView) : bool := match v with SCounted _ => true | _ => false end.

Record shutV (b : RBus) (vs : list SView) : Prop := {
  sh_count : rb_active b = countIf isActive vs;
  sh_st : ∀ st, SCounted st ∈ vs → st = rb_stopped b;
  sh_chan : rb_stopped b ∈ rb_closedChans b ↔ rb_active b = 0%nat;
  sh_next : (rb_stopped b < rb_nextChan b)%nat ∧ ∀ c, c ∈ rb_closedChans b → (c < rb_nextChan b)%nat;
  sh_closing : ∀ st, SClosing st ∈ vs → rb_closed b = true ∧ st = rb_stopped b;
  sh_waited : rb_waited b = true → rb_closed b = true ∧ rb_active b = 0%nat;
  sh_panic : rb_panicked b = false }.
Definition shutInv (b : RBus) (phs : list RPhase) : Prop := shutV b (viewS <$> phs).

(** Calls the shutdown does not see. *)
Definition sameShut (b b' : RBus) : Prop :=
  rb_closed b' = rb_closed b ∧ rb_active b' = rb_active b ∧ rb_stopped b' = rb_stopped b ∧ rb_closedChans b' = rb_closedChans b ∧
  rb_nextChan b' = rb_nextChan b ∧ rb_panicked b' = rb_panicked b ∧ rb_waited b' = rb_waited b.
Lemma shutV_same b b' vs : sameShut b b' → shutV b vs → shutV b' vs.
Proof. intros (E1 & E2 & E3 & E4 & E5 & E6 & E7) [I1 I2 I3 I4 I5 I6 I7]. split; rewrite ?E1, ?E2, ?E3, ?E4, ?E5, ?E6, ?E7; done. Qed.
Lemma shutV_other b vs : shutV b vs → shutV b (vs ++ [SOther]).
Proof.
  intros [I1 I2 I3 I4 I5 I6 I7]. split; try done.
  - rewrite countIf_app, countIf_one. simpl. lia.
  - intros st. rewrite elem_of_app, list_elem_of_singleton. intros [?|?]; [auto|done].
  - intros st. rewrite elem_of_app, list_elem_of_singleton. intros [?|?]; [auto|done].
Qed.

(** The calls it sees. *)
Definition shutOp (o : ROp) : bool :=
  match o with RRegister _ | RGo _ _ _ _ | RExit _ | RClose | RWait _ => true | _ => false end.
Lemma unseen env fuel o b r b' ps ph : shutOp o = false → allowedF ph o → exec env fuel o b = Some (r, b', ps) →
  sameShut b b' ∧ viewS (nextF ph o r) = viewS ph ∧ (started o r = [] ∨ viewS <$> started o r = [SOther]).
Proof.
  intros Ho Ha He. destruct o; try done; cbn [exec allowedF nextF started] in *;
    repeat match goal with H : ∃ _, _ |- _ => destruct H | H : _ ∨ _ |- _ => destruct H end; subst;
    repeat (case_match; simplify_eq); simplify_eq; unfold sameShut; simpl; auto 10.
Qed.

Lemma register_shut b vs i tag st b' : shutV b vs → vs !! i = Some SOther → registerConsumer tag b = (Some st, b') →
  shutV b' (<[i := SCounted st]> vs).
Proof.
  intros [I1 I2 I3 I4 I5 I6 I7] Hi. unfold registerConsumer. destruct (rb_closed b) eqn:Ec; [done|]. intros [= <- <-].
  pose proof (countIf_insert isActive vs i SOther (SCounted (if (rb_active b =? 0)%nat then rb_nextChan b else rb_stopped b)) Hi) as Hc.
  simpl in Hc. destruct I4 as [I4 I4']. split; simpl.
  - lia.
  - intros st [[= ->]|(n & _ & Hn)]%elem_of_insert; [done|]. apply list_elem_of_lookup_2 in Hn.
    destruct (Nat.eqb_spec (rb_active b) 0) as [E|E]; [|auto]. pose proof (countIf_pos isActive vs _ Hn eq_refl). lia.
  - split; [|lia]. destruct (Nat.eqb_spec (rb_active b) 0) as [E|E]; [|intros ?%I3; lia]. intros ?%I4'. lia.
  - destruct (rb_active b =? 0)%nat; [|done]. split; [lia|]. intros c ?%I4'. lia.
  - intros st' [?|(n & _ & Hn)]%elem_of_insert; [done|]. apply list_elem_of_lookup_2, I5 in Hn as [? _]. congruence.
  - intros [? _]%I6. congruence.
  - done.
Qed.

Lemma go_shut b vs i st : shutV b vs → vs !! i = Some (SCounted st) → shutV b (<[i := SOther]> vs ++ [SCounted st]).
Proof.
  intros [I1 I2 I3 I4 I5 I6 I7] Hi. pose proof (countIf_insert isActive vs i _ SOther Hi) as Hc. simpl in Hc. split; try done.
  - rewrite countIf_app, countIf_one. simpl. lia.
  - intros st'. rewrite elem_of_app, list_elem_of_singleton. apply list_elem_of_lookup_2 in Hi.
    intros [[?|(n & _ & Hn%list_elem_of_lookup_2)]%elem_of_insert|[= ->]]; by auto.
  - intros st'. rewrite elem_of_app, list_elem_of_singleton.
    intros [[?|(n & _ & Hn%list_elem_of_lookup_2)]%elem_of_insert|?]; by auto.
Qed.

Lemma exit_shut b vs i st : shutV b vs → vs !! i = Some (SCounted st) → shutV (exitLoop st b) (<[i := SOther]> vs).
Proof.
  intros [I1 I2 I3 I4 I5 I6 I7] Hi. pose proof (countIf_insert isActive vs i _ SOther Hi) as Hc. simpl in Hc.
  pose proof (list_elem_of_lookup_2 _ _ _ Hi) as ->%I2. destruct I4 as [I4 I4'].
  assert (∀ v, v ∈ <[i:=SOther]> vs → v = SOther ∨ v ∈ vs) as Hin.
  { intros v [?|(n & _ & Hn%list_elem_of_lookup_2)]%elem_of_insert; auto. }
  unfold exitLoop. destruct (Nat.eqb_spec (pred (rb_active b)) 0) as [E|E]; [destruct (decide _) as [Hd%I3|Hd]; [lia|]|]; split; simpl.
  all: try (intros st' [?|?]%Hin; by auto).
  all: try lia; try done.
  - split; [done|]. intros _. constructor.
  - split; [done|]. intros c [->|?%I4']%elem_of_cons; lia.
  - intros [? ?]%I6. lia.
  - split; [intros ?%I3; lia|lia].
  - intros [? ?]%I6. lia.
Qed.

Lemma close_shut b vs i : shutV b vs → vs !! i = Some SOther →
  shutV (set_mu true (rb_active b) (rb_stopped b) (rb_closedChans b) (rb_nextChan b) [] b) (<[i := SClosing (rb_stopped b)]> vs).
Proof.
  intros [I1 I2 I3 I4 I5 I6 I7] Hi. pose proof (countIf_insert isActive vs i _ (SClosing (rb_stopped b)) Hi) as Hc. simpl in Hc.
  split; simpl; try done; try lia.
  - intros st [?|(n & _ & Hn%list_elem_of_lookup_2)]%elem_of_insert; by auto.
  - intros st [[= ->]|(n & _ & Hn%list_elem_of_lookup_2)]%elem_of_insert; [done|]. apply I5 in Hn as [_ ?]. done.
  - intros [_ ?]%I6. done.
Qed.

(** A thread that neither runs a consumer nor waits any more. *)
Lemma leave_shut b vs i v : shutV b vs → vs !! i = Some v → isActive v = false → shutV b (<[i := SOther]> vs).
Proof.
  intros [I1 I2 I3 I4 I5 I6 I7] Hi Hv. pose proof (countIf_insert isActive vs i _ SOther Hi) as Hc. rewrite Hv in Hc. simpl in Hc.
  split; simpl; try done; try lia; intros st [?|(n & _ & Hn%list_elem_of_lookup_2)]%elem_of_insert; by auto.
Qed.

Lemma moves_shut b phs b' phs' : shutInv b phs → rmoves b phs b' phs' → shutInv b' phs'.
Proof.
  intros Hi Hm. destruct Hm as [|i ph o r b' env fuel ps Hph Ha He]; unfold shutInv in *.
  { rewrite fmap_app. by apply shutV_other. }
  rewrite fmap_app, list_fmap_insert.
  assert ((viewS <$> phs) !! i = Some (viewS ph)) as Hv by (by rewrite list_lookup_fmap, Hph).
  destruct (shutOp o) eqn:Eo.
  - destruct o; try done; cbn [exec allowedF started fmap list_fmap] in *; rewrite ?app_nil_r.
    + injection He as <- <- <-. destruct Ha as [t [-> | ->]]; by apply exit_shut.
    + subst ph. cbn [viewS nextF] in *. injection He as He <-. destruct r as [st|].
      * eapply register_shut; [done..|]. exact He.
      * unfold registerConsumer in He. destruct (rb_closed b); [|done]. injection He as <-. by eapply leave_shut.
    + subst ph. injection He as <- <- <-. by apply go_shut.
    + subst ph. unfold beginClose in He. destruct (rb_closed b) eqn:Ec; injection He as <- <- <-; [by eapply leave_shut|]. by apply close_shut.
    + subst ph. assert (shutV b (<[i:=SOther]> (viewS <$> phs))) as H by (by eapply leave_shut).
      destruct (env (RWait stopped)) as [err|]; [by injection He as <- <- <-|]. destruct (decide _) as [Hd|]; [|done].
      injection He as <- <- <-. apply list_elem_of_lookup_2 in Hv as [Hcl ->]%(sh_closing _ _ Hi).
      destruct H as [I1 I2 I3 I4 I5 I6 I7]. split; simpl; try done. intros _. split; [done|]. by apply I3.
  - destruct (unseen env fuel o b r b' ps ph Eo Ha He) as (Hs & -> & Hst). rewrite list_insert_id by done.
    eapply shutV_same; [exact Hs|]. destruct Hst as [-> | ->]; [by rewrite app_nil_r|by apply shutV_other].
Qed.

(** ** Pools *)

(** What a phase says of pools: a task of one, or the loop that has yet to close it. *)
Inductive PView := VTask (p : nat) | VOwner (p : nat) | VNone.
Definition viewP (ph : RPhase) : PView :=
  match ph with FTask p _ => VTask p | FLoop _ _ (Some p) _ | FLeaving _ _ (Some p) => VOwner p | _ => VNone end.
Definition isTask (p : nat) (v : PView) : bool := match v with VTask q => (p =? q)%nat | _ => false end.
Record poolV (tasks : list nat) (vs : list PView) : Prop := {
  po_tasks : ∀ p, countIf (Nat.eqb p) tasks = countIf (isTask p) vs;
  po_owner : ∀ p, VTask p ∈ vs → VOwner p ∈ vs }.
Definition poolInv (b : RBus) (phs : list RPhase) : Prop := poolV (rb_tasks b) (viewP <$> phs).

Lemma countIf_cons {A} (f : A → bool) x l : countIf f (x :: l) = ((if f x then 1 else 0) + countIf f l)%nat.
Proof. change (x :: l) with ([x] ++ l). by rewrite countIf_app, countIf_one. Qed.
Lemma dropTask_count p q tasks : p ∈ tasks →
  (countIf (Nat.eqb q) (dropTask p tasks) + (if (q =? p)%nat then 1 else 0) = countIf (Nat.eqb q) tasks)%nat.
Proof.
  induction tasks as [|x tasks IH]; [by intros ?%not_elem_of_nil|]. intros Hin. simpl. destruct (Nat.eqb_spec p x) as [->|Hne].
  - rewrite countIf_cons. lia.
  - apply elem_of_cons in Hin as [?|Hin]; [done|]. specialize (IH Hin). rewrite !countIf_cons. lia.
Qed.
Lemma task_counted tasks vs p : poolV tasks vs → p ∈ tasks ↔ VTask p ∈ vs.
Proof.
  intros [I1 _]. split.
  - intros Hin. pose proof (countIf_pos (Nat.eqb p) tasks p Hin (Nat.eqb_refl p)) as H. rewrite I1 in H. unfold countIf in H.
    destruct (filter _ vs) as [|v l] eqn:E; [simpl in H; lia|]. assert (v ∈ v :: l) as Hv by (by left). rewrite <- E in Hv.
    apply list_elem_of_filter in Hv as [Ht Hv]. destruct v as [q| |]; try done. simpl in Ht. by apply Nat.eqb_eq in Ht as ->.
  - intros Hin. pose proof (countIf_pos (isTask p) vs _ Hin (Nat.eqb_refl p)) as H. rewrite <- I1 in H. unfold countIf in H.
    destruct (filter _ tasks) as [|v l] eqn:E; [simpl in H; lia|]. assert (v ∈ v :: l) as Hv by (by left). rewrite <- E in Hv.
    apply list_elem_of_filter in Hv as [Ht Hv]. by apply Nat.eqb_eq in Ht as ->.
Qed.
(** A view that is no task, and owns no pool with tasks, may change freely. *)
Lemma view_pool tasks vs i v v' : poolV tasks vs → vs !! i = Some v → (∀ p, v ≠ VTask p) → (∀ p, v' ≠ VTask p) →
  (∀ p, v = VOwner p → v' = VOwner p ∨ p ∉ tasks) → poolV tasks (<[i := v']> vs).
Proof.
  intros H Hi Hv Hv' Ho. pose proof H as [I1 I2]. split.
  - intros p. pose proof (countIf_insert (isTask p) vs i v v' Hi) as Hc. rewrite I1.
    destruct v as [q| |], v' as [q'| |]; try (by destruct (Hv q)); try (by destruct (Hv' q')); simpl in Hc; lia.
  - intros p [?|(k & Hne & Hk)]%elem_of_insert; [by destruct (Hv' p)|]. apply list_elem_of_lookup_2 in Hk.
    pose proof (I2 p Hk) as [j Hj]%list_elem_of_lookup. apply list_elem_of_lookup. destruct (decide (j = i)) as [->|Hji].
    + exists i. destruct (Ho p) as [->|Hn]; [congruence|..]; [|destruct Hn; by apply (task_counted _ _ _ H)].
      rewrite list_lookup_insert_eq; [done|]. by eapply lookup_lt_Some.
    + exists j. by rewrite list_lookup_insert_ne.
Qed.
Lemma spawn_pool tasks vs v : poolV tasks vs → (∀ p, v ≠ VTask p) → poolV tasks (vs ++ [v]).
Proof.
  intros [I1 I2] Hv. split.
  - intros p. rewrite countIf_app, countIf_one, I1. destruct v as [q| |]; [by destruct (Hv q)|simpl; lia..].
  - intros p. rewrite !elem_of_app, list_elem_of_singleton. intros [?|?]; [left; by apply I2|by destruct (Hv p)].
Qed.
(** A task is accepted from the loop that owns the pool, and done. *)
Lemma submit_pool tasks vs i p : poolV tasks vs → vs !! i = Some (VOwner p) → poolV (p :: tasks) (vs ++ [VTask p]).
Proof.
  intros [I1 I2] Hi. split.
  - intros q. rewrite countIf_cons, countIf_app, countIf_one, I1. simpl. lia.
  - intros q. rewrite !elem_of_app, !list_elem_of_singleton. intros [?|[= ->]]; left; [by apply I2|]. by eapply list_elem_of_lookup_2.
Qed.
Lemma done_pool tasks vs i p : poolV tasks vs → vs !! i = Some (VTask p) → poolV (dropTask p tasks) (<[i := VNone]> vs).
Proof.
  intros H Hi. pose proof H as [I1 I2]. split.
  - intros q. pose proof (countIf_insert (isTask q) vs i _ VNone Hi) as Hc.
    pose proof (dropTask_count p q tasks) as Hd. rewrite (task_counted _ _ _ H), I1 in Hd.
    specialize (Hd (list_elem_of_lookup_2 _ _ _ Hi)). simpl in Hc. lia.
  - intros q [?|(k & Hne & Hk)]%elem_of_insert; [done|]. apply list_elem_of_lookup_2, I2, list_elem_of_lookup in Hk as [j Hj].
    apply list_elem_of_lookup. exists j. rewrite list_lookup_insert_ne; [done|]. intros ->. congruence.
Qed.

Definition poolOp (o : ROp) : bool :=
  match o with RSubmit _ _ | RTaskDone _ | RPoolClose _ | RBrokerCancel _ | RGo _ _ _ _ | RExit _ => true | _ => false end.
Lemma unseenP env fuel o b r b' ps ph : poolOp o = false → allowedF ph o → exec env fuel o b = Some (r, b', ps) →
  rb_tasks b' = rb_tasks b ∧ viewP (nextF ph o r) = viewP ph ∧ started o r = [].
Proof.
  intros Ho Ha He. destruct o; try done; cbn [exec allowedF nextF started] in *;
    repeat match goal with H : ∃ _, _ |- _ => destruct H | H : _ ∨ _ |- _ => destruct H end; subst;
    unfold registerConsumer, beginClose in *;
    repeat (case_match; simplify_eq); simplify_eq; simpl; auto 10.
Qed.
Lemma exitLoop_tasks st b : rb_tasks (exitLoop st b) = rb_tasks b.
Proof. unfold exitLoop. by repeat case_match. Qed.
Lemma moves_pool b phs b' phs' : poolInv b phs → rmoves b phs b' phs' → poolInv b' phs'.
Proof.
  intros Hi Hm. destruct Hm as [|i ph o r b' env fuel ps Hph Ha He]; unfold poolInv in *.
  { rewrite fmap_app. by apply spawn_pool. }
  rewrite fmap_app, list_fmap_insert.
  assert ((viewP <$> phs) !! i = Some (viewP ph)) as Hv by (by rewrite list_lookup_fmap, Hph).
  destruct (poolOp o) eqn:Eo.
  - destruct o; try done; cbn [exec allowedF started fmap list_fmap] in *; rewrite ?app_nil_r.
    + (* RSubmit *) destruct Ha as (t & st & ->). destruct (env (RSubmit p d)) as [err|]; injection He as <- <- <-;
        cbn [viewP nextF setHand fmap list_fmap] in *; rewrite list_insert_id by done; [by rewrite app_nil_r|]. by eapply submit_pool.
    + (* RTaskDone *) subst ph. injection He as <- <- <-. by apply done_pool.
    + (* RBrokerCancel *) injection He as <- <- <-. destruct Ha as [->|(st & p & ->)]; cbn [viewP nextF] in *; by rewrite list_insert_id.
    + (* RPoolClose *) destruct (decide (p ∈ rb_tasks b)) as [|Hn]; [done|]. injection He as <- <- <-.
      destruct Ha as [->|[->|(t & st & ->)]]; cbn [viewP nextF] in *; [by rewrite list_insert_id..|].
      eapply view_pool; try done. intros q [= <-]. by right.
    + (* RExit *) injection He as <- <- <-. rewrite exitLoop_tasks. destruct Ha as [t [-> | ->]]; cbn [viewP nextF] in *; by rewrite list_insert_id.
    + (* RGo *) subst ph. injection He as <- <- <-. cbn [viewP nextF] in *. rewrite list_insert_id by done.
      apply spawn_pool; [done|]. by destruct processor.
  - destruct (unseenP env fuel o b r b' ps ph Eo Ha He) as (-> & -> & ->). by rewrite list_insert_id, app_nil_r.
Qed.

(** ** What is left after [Close] *)

Lemma shut_init : shutInv NewEventBus [].
Proof.
  split; simpl; try done; try (by intros ? ?%not_elem_of_nil).
  - split; [done|constructor].
  - split; [lia|]. intros c. rewrite list_elem_of_singleton. lia.
Qed.
Lemma pool_init : poolInv NewEventBus [].
Proof. split; [done|]. by intros ? ?%not_elem_of_nil. Qed.
(** No phase is that of a loop or task. *)
Lemma waited_quiet b phs ph : shutInv b phs → poolInv b phs → rb_waited b = true → ph ∈ phs → isLoop ph = true → ph = FGone.
Proof.
  intros Hs Hp Hw Hin Hl. destruct (sh_waited _ _ Hs Hw) as [_ Hz]. rewrite (sh_count _ _ Hs) in Hz.
  assert (∀ ph', ph' ∈ phs → isActive (viewS ph') = false) as Hn.
  { intros ph' Hin'. destruct (isActive (viewS ph')) eqn:E; [|done].
    pose proof (countIf_pos isActive (viewS <$> phs) (viewS ph') (list_elem_of_fmap_2 _ _ _ Hin') E). lia. }
  destruct ph as [| | | | | | | | | |t st p h|t st p|t st|p h| | |]; try done; try (by specialize (Hn _ Hin)).
  pose proof (po_owner _ _ Hp p (list_elem_of_fmap_2 viewP _ _ Hin)) as (ph' & Ev & Hin')%list_elem_of_fmap.
  specialize (Hn _ Hin'). by destruct ph' as [| | | | | | | | | |? ? [?|] ?|? ? [?|]| | | | |].
Qed.

(** C22. Once a [Close] has waited for the loops and returned nil, no consume loop
    and no task of a pool makes a call any more, that which cancels its consumer
    at the broker and that which closes its pool included, whatever subscribers
    and closers did concurrently: a call that can still be made is one of a
    [Publish], [Subscribe], [SubscribeWithOptions] or [Close] in progress.  And
    the close of [stopped] never panics. *)
Theorem rabbit_close_quiesces s : busReachable s →
  rb_panicked (sys_st s) = false ∧
  (rb_waited (sys_st s) = true → rb_closed (sys_st s) = true ∧ rb_active (sys_st s) = 0%nat ∧ rb_tasks (sys_st s) = [] ∧
    ∀ i o k, sys_threads s !! i = Some (Call o k) →
      (∃ m tr, runs RRes (method m) tr (Call o k)) ∧
      match o with RReceive | RHandler _ | RAck _ | RNack _ _ | RSubmit _ _ | RTaskDone _ | RExit _ => False | _ => True end).
Proof.
  intros Hr. destruct (rabbit_bus_inv (λ b phs, shutInv b phs ∧ poolInv b phs)) with s as (phs & Hth & Hs & Hp); [| |done|].
  { split; [apply shut_init|apply pool_init]. }
  { intros b phs b' phs' [??] ?. split; [by eapply moves_shut|by eapply moves_pool]. }
  split; [apply (sh_panic _ _ Hs)|]. intros Hw. destruct (sh_waited _ _ Hs Hw) as [Hc Hz]. split_and!; try done.
  - destruct (rb_tasks (sys_st s)) as [|p ts] eqn:Et; [done|]. pose proof (task_counted _ _ p Hp) as [Hv _]. rewrite Et in Hv.
    pose proof (Hv ltac:(by left)) as (ph & Ev & Hin)%list_elem_of_fmap. destruct ph as [| | | | | | | | | |? ? [?|] ?|? ? [?|]| |q h| | |]; try done.
    by pose proof (waited_quiet _ _ _ Hs Hp Hw Hin eq_refl).
  - intros i o k Ei. destruct (Forall2_lookup_r _ _ _ _ _ Hth Ei) as (ph & Eph & [Ha _] & Ho).
    apply list_elem_of_lookup_2 in Eph. pose proof (waited_quiet _ _ ph Hs Hp Hw Eph) as Hq.
    destruct (isLoop ph) eqn:El.
    { rewrite (Hq eq_refl) in Ha. destruct o; simpl in Ha;
        repeat match goal with H : ∃ _, _ |- _ => destruct H | H : _ ∨ _ |- _ => destruct H end; done. }
    split; [by destruct Ho|]. destruct o; try done; simpl in Ha;
      repeat match goal with H : ∃ _, _ |- _ => destruct H | H : _ ∨ _ |- _ => destruct H end; by subst.
Qed.

(** A broker that answers well; a loop's context is done at once. *)
Definition demoBroker (o : ROp) : RRes o :=
  match o return RRes o with
  | RHandler _ => HReturn None
  | RReceive => RcDone
  | RAck _ | RNack _ _ | RSubmit _ _ | RBrokerCancel _ | RPoolClose _ | RCtxErr | RQueueDeclare _ | RLockConsume | RQos _
  | RConsume _ _ _ | RWait _ | RConfirm | RPublish _ _ | RPublishDeferred _ _ => None
  | RWaitConfirm => inl true
  | RCancelCtx _ | RExit _ | RSetOwned | RUnlockConsume | RGo _ _ _ _ | RTaskDone _ => tt
  | RCheckClosed | ROwned => false
  | RNextTag | RPoolNew => 0%nat
  | RRegister _ => None
  | RClose => None
  end.
Definition demo_run : list (Label (R := RRes) (L := RMethod)) :=
  [LSpawn (MSubscribe "orders" true)] ++ replicate 10 (LRun 0 demoBroker 3) ++ [LSpawn MClose] ++ replicate 2 (LRun 2 demoBroker 3) ++
  replicate 4 (LRun 1 demoBroker 3) ++ [LRun 2 demoBroker 3].
Definition runBus (ls : list (Label (R := RRes) (L := RMethod))) := Threads.run exec method ls (mkSys NewEventBus []).
Lemma rabbit_runBus_reachable ls s : runBus ls = Some s → busReachable s.
Proof. intros H. by exists ls. Qed.
Lemma rabbit_close_quiesces_witness : ∃ s, runBus demo_run = Some s ∧ length (sys_threads s) = 3%nat ∧
  rb_waited (sys_st s) = true ∧ rb_active (sys_st s) = 0%nat.
Proof.
  assert (match runBus demo_run with
    | Some s => rb_waited (sys_st s) && (length (sys_threads s) =? 3)%nat | None => false end = true) as H by (vm_compute; reflexivity).
  destruct (runBus demo_run) as [s|] eqn:E; [|discriminate H].
  apply andb_true_iff in H as [Hw Hn%Nat.eqb_eq]. exists s. split; [reflexivity|]. split; [exact Hn|]. split; [exact Hw|].
  exact (proj1 (proj2 (proj2 (rabbit_close_quiesces s (rabbit_runBus_reachable _ _ E)) Hw))).
Defined.

(** ** Deliveries are resolved once *)

Definition receivedL (e : LEvent) : list Delivery := match e with LReceived d => [d] | _ => [] end.
(** What a handler's end, or the pool's refusal, calls for. *)
Definition dueL (e : LEvent) : list (Delivery * Resolution) :=
  match e with LHandled d h => [(d, verdict h)] | LRejected d => [(d, Nacked true)] | _ => [] end.
Definition resolvedL (e : LEvent) : list (Delivery * Resolution) := match e with LResolved d v => [(d, v)] | _ => [] end.
(** The delivery whose handler a thread is about to run, or which it is about to
    submit; and that which it is about to resolve. *)
Definition waitingOf (c : RProg) : list Delivery :=
  match c with Call (RHandler d) _ | Call (RSubmit _ d) _ => [d] | _ => [] end.
Definition pendingOf (c : RProg) : list (Delivery * Resolution) :=
  match c with Call (RAck d) _ => [(d, Acked)] | Call (RNack d q) _ => [(d, Nacked q)] | _ => [] end.

Definition waitingP (ph : RPhase) : list Delivery := match ph with FLoop _ _ _ h | FTask _ h => waitingH h | _ => [] end.
Definition pendingP (ph : RPhase) : list (Delivery * Resolution) := match ph with FLoop _ _ _ h | FTask _ h => pendingH h | _ => [] end.
Definition logV (log : list LEvent) (w : list Delivery) (p : list (Delivery * Resolution)) : Prop :=
  log ≫= receivedL ≡ₚ (log ≫= dueL).*1 ++ w ∧ log ≫= dueL ≡ₚ (log ≫= resolvedL) ++ p.
Definition logInv (b : RBus) (phs : list RPhase) : Prop := logV (rb_log b) (phs ≫= waitingP) (phs ≫= pendingP).

#[export] Instance logV_proper log : Proper ((≡ₚ) ==> (≡ₚ) ==> iff) (logV log).
Proof. intros w w' Hw p p' Hp. unfold logV. by rewrite Hw, Hp. Qed.

Lemma received_log log w p d : logV log w p → logV (LReceived d :: log) (d :: w) p.
Proof. intros [I1 I2]. split; [simpl; by rewrite I1, Permutation_middle|done]. Qed.
Lemma handled_log log w p d h : logV log (d :: w) p → logV (LHandled d h :: log) w ((d, verdict h) :: p).
Proof. intros [I1 I2]. split; simpl; [by rewrite I1, <- Permutation_middle|by rewrite I2, <- Permutation_middle]. Qed.
Lemma rejected_log log w p d : logV log (d :: w) p → logV (LRejected d :: log) w ((d, Nacked true) :: p).
Proof. intros [I1 I2]. split; simpl; [by rewrite I1, <- Permutation_middle|by rewrite I2, <- Permutation_middle]. Qed.
Lemma resolved_log log w p d v : logV log w ((d, v) :: p) → logV (LResolved d v :: log) w p.
Proof. intros [I1 I2]. split; simpl; [done|by rewrite I2, <- Permutation_middle]. Qed.

(** A phase among the others. *)
Lemma insert_split (phs : list RPhase) i ph ph' : phs !! i = Some ph → ∃ rest : list RPhase,
  (∀ A (f : RPhase → list A), phs ≫= f ≡ₚ f ph ++ (rest ≫= f) ∧ <[i := ph']> phs ≫= f ≡ₚ f ph' ++ (rest ≫= f)).
Proof.
  intros Hi. exists (take i phs ++ drop (S i) phs). intros A f.
  rewrite insert_take_drop by (by eapply lookup_lt_Some). rewrite <- (take_drop_middle phs i ph Hi) at 1.
  rewrite !bind_app, !bind_cons. split; apply Permutation_app_swap_app.
Qed.

Definition logOp (o : ROp) : bool :=
  match o with RReceive | RHandler _ | RAck _ | RNack _ _ | RSubmit _ _ => true | _ => false end.
Lemma exitLoop_log st b : rb_log (exitLoop st b) = rb_log b.
Proof. unfold exitLoop. by repeat case_match. Qed.
Lemma unseenL env fuel o b r b' ps ph : logOp o = false → allowedF ph o → exec env fuel o b = Some (r, b', ps) →
  rb_log b' = rb_log b ∧ waitingP (nextF ph o r) = waitingP ph ∧ pendingP (nextF ph o r) = pendingP ph ∧
  started o r ≫= waitingP = [] ∧ started o r ≫= pendingP = [].
Proof.
  intros Ho Ha He. destruct o; try done; cbn [exec allowedF nextF started] in *;
    repeat match goal with H : ∃ _, _ |- _ => destruct H | H : _ ∨ _ |- _ => destruct H end; subst;
    unfold registerConsumer, beginClose in *;
    repeat (case_match; simplify_eq); simplify_eq; rewrite ?exitLoop_log; simpl; auto 10.
Qed.
Lemma moves_log b phs b' phs' : logInv b phs → rmoves b phs b' phs' → logInv b' phs'.
Proof.
  intros Hi Hm. destruct Hm as [|i ph o r b' env fuel ps Hph Ha He]; unfold logInv in *.
  { rewrite !bind_app. simpl. by rewrite !app_nil_r. }
  destruct (insert_split phs i ph (nextF ph o r) Hph) as (rest & Hr). rewrite !bind_app.
  destruct (Hr _ waitingP) as [Hw1 Hw2], (Hr _ pendingP) as [Hp1 Hp2]. rewrite Hw2, Hp2. rewrite Hw1, Hp1 in Hi.
  clear Hw1 Hw2 Hp1 Hp2 Hr Hph. destruct (logOp o) eqn:Eo.
  - destruct o; try done; cbn [exec allowedF started mbind list_bind] in *; rewrite ?app_nil_r.
    + (* RHandler *) injection He as <- <- <-. destruct Ha as [(t & st & ->)|[p ->]]; by apply handled_log.
    + (* RAck *) injection He as <- <- <-. destruct Ha as [(t & st & p & ->)|[p ->]]; by apply resolved_log.
    + (* RNack *) injection He as <- <- <-. destruct Ha as [(t & st & p & ->)|[p ->]]; by apply resolved_log.
    + (* RSubmit *) destruct Ha as (t & st & ->). destruct (env (RSubmit p d)) as [err|]; injection He as <- <- <-; simpl in *.
      * rewrite !app_nil_r. by apply rejected_log.
      * rewrite !app_nil_r. by rewrite (Permutation_app_comm _ [d]).
    + (* RReceive *) destruct Ha as (t & st & p & ->). injection He as <- <- <-.
      destruct (env RReceive) as [| |d]; simpl in *; try done. by apply received_log.
  - destruct (unseenL env fuel o b r b' ps ph Eo Ha He) as (-> & -> & -> & -> & ->). by rewrite !app_nil_r.
Qed.
(** The phases say what the threads are about to do. *)
Lemma rthread_hand ph c : rthread ph c → waitingP ph = waitingOf c ∧ pendingP ph = pendingOf c.
Proof.
  destruct c as [a|o k]; unfold rthread; simpl.
  - destruct ph as [| | | | | | | | | |? ? ? []| | |? []| | |]; try done.
  - intros [Ha _]. destruct o; simpl in Ha;
      repeat match goal with H : ∃ _, _ |- _ => destruct H | H : _ ∨ _ |- _ => destruct H end; by subst.
Qed.
Lemma threads_hand phs threads : Forall2 rowned phs threads →
  phs ≫= waitingP = threads ≫= waitingOf ∧ phs ≫= pendingP = threads ≫= pendingOf.
Proof.
  induction 1 as [|ph c phs threads [Hc _] _ [IH1 IH2]]; [done|]. rewrite !bind_cons, IH1, IH2. by destruct (rthread_hand _ _ Hc) as [-> ->].
Qed.

(** C21. Every delivery received on a RabbitMQ queue, by a plain consumer or by
    one with a pool, is resolved exactly once, and as its handler's end calls
    for ([verdict]: acknowledged on success, returned to the queue when the
    handler was cut off by its context, dropped otherwise, after a panic too), or
    returned to the queue when the pool refuses it.  At any moment the deliveries
    received are those whose handler has ended or that the pool refused, and
    those that a loop or an accepted task is about to hand on; the resolutions so
    called for are those made and those that a thread makes next.  Once a [Close]
    has waited for the loops and returned nil, all are made. *)
Theorem deliveries_resolved s : busReachable s →
  let log := rb_log (sys_st s) in
  log ≫= receivedL ≡ₚ (log ≫= dueL).*1 ++ (sys_threads s ≫= waitingOf) ∧
  log ≫= dueL ≡ₚ (log ≫= resolvedL) ++ (sys_threads s ≫= pendingOf) ∧
  (rb_waited (sys_st s) = true → log ≫= dueL ≡ₚ log ≫= resolvedL ∧ log ≫= receivedL ≡ₚ (log ≫= resolvedL).*1).
Proof.
  intros Hr log. destruct (rabbit_bus_inv (λ b phs, shutInv b phs ∧ poolInv b phs ∧ logInv b phs)) with s as (phs & Hth & Hs & Hp & Hl); [| |done|].
  { split_and!; [apply shut_init|apply pool_init|done]. }
  { intros b phs b' phs' (? & ? & ?) ?. split_and!; [by eapply moves_shut|by eapply moves_pool|by eapply moves_log]. }
  unfold logInv in Hl. fold log in Hl. destruct Hl as [H1 H2]. destruct (threads_hand _ _ Hth) as [Ew Ep]. rewrite <- Ew, <- Ep. split_and!; [done..|]. intros Hw.
  assert (∀ A (f : RPhase → list A), (∀ ph, isLoop ph = false ∨ ph = FGone → f ph = []) → phs ≫= f = []) as Hq.
  { intros A f Hf. assert (∀ ph, ph ∈ phs → f ph = []) as H.
    - intros ph Hin. apply Hf. destruct (isLoop ph) eqn:E; [right|by left]. by eapply waited_quiet.
    - clear -H. induction phs as [|ph phs IH]; [done|]. simpl. rewrite H by (by left). apply IH. intros ph' ?. apply H. by right. }
  rewrite (Hq _ pendingP), app_nil_r in H2 by (by intros [] [|]).
  rewrite (Hq _ waitingP), app_nil_r in H1 by (by intros [] [|]). split; [done|]. by rewrite H1, H2.
Qed.
(** A pooled consumer: the first message is handled well by its task, the second
    is refused by the pool. *)
Definition received (d : Delivery) (o : ROp) : RRes o :=
  match o return RRes o with RReceive => RcDelivery d | o => demoBroker o end.
Definition refused (o : ROp) : RRes o :=
  match o return RRes o with RSubmit _ _ => Some ErrClosed | o => demoBroker o end.
Definition pooled_run : list (Label (R := RRes) (L := RMethod)) :=
  [LSpawn (MSubscribeWithOptions "jobs" true 2 3)] ++ replicate 14 (LRun 0 demoBroker 5) ++
  [LRun 1 (received (mkDelivery 1 "x")) 0; LRun 1 demoBroker 0; LRun 1 (received (mkDelivery 2 "y")) 0; LRun 1 refused 0; LRun 2 demoBroker 0].
Lemma deliveries_resolved_witness : ∃ s, runBus pooled_run = Some s ∧
  rb_log (sys_st s) ≫= receivedL = [mkDelivery 2 "y"; mkDelivery 1 "x"] ∧
  sys_threads s ≫= pendingOf = [(mkDelivery 2 "y", Nacked true); (mkDelivery 1 "x", Acked)] ∧
  rb_log (sys_st s) ≫= dueL ≡ₚ (rb_log (sys_st s) ≫= resolvedL) ++ (sys_threads s ≫= pendingOf).
Proof.
  assert ((λ s, (rb_log (sys_st s) ≫= receivedL, sys_threads s ≫= pendingOf)) <$> runBus pooled_run =
    Some ([mkDelivery 2 "y"; mkDelivery 1 "x"], [(mkDelivery 2 "y", Nacked true); (mkDelivery 1 "x", Acked)])) as H by (vm_compute; reflexivity).
  destruct (runBus pooled_run) as [s|] eqn:E; [|discriminate H]. injection H as H1 H2.
  exists s. split; [reflexivity|]. split; [exact H1|]. split; [exact H2|].
  exact (proj1 (proj2 (deliveries_resolved s (rabbit_runBus_reachable _ _ E)))).
Defined.

(** * Prefetch *)

(** The prefetch of the channel: the latest [Qos]; [None] when it is still the
    original one. *)
Fixpoint latestQos (trace : list REvent) : option Z :=
  match trace with
  | [] => None
  | EQos n :: _ => Some n
  | _ :: trace => latestQos trace
  end.

(** What [consumeMu] protects, as a phase shows it. *)
Inductive QView := QHolder | QQosed (n : Z) | QReady (w : option Z) | QOther.
Definition viewQ (ph : RPhase) : QView :=
  match ph with
  | FLocked _ | FConsumed _ _ | FAbort => QHolder
  | FQosed _ n => QQosed n
  | FReady _ w => QReady w
  | _ => QOther
  end.
Definition holds (v : QView) : bool := match v with QOther => false | _ => true end.

Record qosV (b : RBus) (vs : list QView) : Prop := {
  qv_lock : countIf holds vs = if rb_locked b then 1%nat else 0%nat;
  qv_owned : rb_owned b = false → latestQos (rb_trace b) = None ∨ ∃ n, QQosed n ∈ vs;
  qv_qosed : ∀ n, QQosed n ∈ vs → latestQos (rb_trace b) = Some n;
  qv_ready : ∀ w, QReady w ∈ vs → latestQos (rb_trace b) = w;
  qv_trace : ∀ later tag w earlier, rb_trace b = later ++ EConsume tag w :: earlier → latestQos earlier = w }.
Definition qosInv (b : RBus) (phs : list RPhase) : Prop := qosV b (viewQ <$> phs).

Definition sameQos (b b' : RBus) : Prop := rb_locked b' = rb_locked b ∧ rb_owned b' = rb_owned b ∧ rb_trace b' = rb_trace b.
Lemma qosV_same b b' vs : sameQos b b' → qosV b vs → qosV b' vs.
Proof. intros (E1 & E2 & E3) [I1 I2 I3 I4 I5]. split; rewrite ?E1, ?E2, ?E3; done. Qed.
Lemma qosV_other b vs : qosV b vs → qosV b (vs ++ [QOther]).
Proof.
  intros [I1 I2 I3 I4 I5]. split; try done.
  - rewrite countIf_app, countIf_one. simpl. lia.
  - intros [?|[n Hn]]%I2; [by left|]. right. exists n. rewrite elem_of_app. by left.
  - intros n. rewrite elem_of_app, list_elem_of_singleton. intros [?|?]; [auto|done].
  - intros n. rewrite elem_of_app, list_elem_of_singleton. intros [?|?]; [auto|done].
Qed.

(** The calls it sees. *)
Definition qosOp (o : ROp) : bool :=
  match o with RLockConsume | RUnlockConsume | RQos _ | ROwned | RSetOwned | RConsume _ _ _ | RBrokerCancel _ => true | _ => false end.
Lemma unseenQ env fuel o b r b' ps ph : qosOp o = false → allowedF ph o → exec env fuel o b = Some (r, b', ps) →
  sameQos b b' ∧ viewQ (nextF ph o r) = viewQ ph ∧ (started o r = [] ∨ viewQ <$> started o r = [QOther]).
Proof.
  intros Ho Ha He. destruct o; try done; cbn [exec allowedF nextF started] in *;
    repeat match goal with H : ∃ _, _ |- _ => destruct H | H : _ ∨ _ |- _ => destruct H end; subst;
    unfold registerConsumer, beginClose, exitLoop in *;
    repeat (case_match; simplify_eq); simplify_eq; unfold sameQos; simpl; auto 10.
Qed.

(** The holder of [consumeMu] sets the channel's state as it likes, as long as
    its own phase says so. *)
Lemma holder_qos b vs i v v' owned trace : qosV b vs → vs !! i = Some v → holds v = true → holds v' = true →
  (owned = false → latestQos trace = None ∨ ∃ n, v' = QQosed n) →
  (∀ n, v' = QQosed n → latestQos trace = Some n) → (∀ w, v' = QReady w → latestQos trace = w) →
  (∀ later tag w earlier, trace = later ++ EConsume tag w :: earlier → latestQos earlier = w) →
  qosV (set_channel owned (rb_locked b) trace b) (<[i := v']> vs).
Proof.
  intros [I1 I2 I3 I4 I5] Hi Hv Hv' H1 H2 H3 H4. pose proof (countIf_insert holds vs i v v' Hi) as Hc. rewrite Hv, Hv' in Hc.
  assert (countIf holds vs ≤ 1)%nat as Hle by (rewrite I1; destruct (rb_locked b); lia).
  assert (∀ x, x ∈ <[i:=v']> vs → holds x = true → x = v') as Huniq.
  { intros x [?|(n & Hne & Hn)]%elem_of_insert Hx; [done|]. destruct Hne. by eapply (countIf_unique holds). }
  split; simpl.
  - lia.
  - intros [?|[n ->]]%H1; [by left|]. right. exists n. apply list_elem_of_lookup. exists i. apply list_lookup_insert_eq. by eapply lookup_lt_Some.
  - intros n Hn. apply H2. symmetry. by apply Huniq.
  - intros w Hw. apply H3. symmetry. by apply Huniq.
  - exact H4.
Qed.

(** The only [Qos] not recorded yet is that of the holder. *)
Lemma holder_owned b vs i v : qosV b vs → vs !! i = Some v → holds v = true → rb_owned b = false →
  latestQos (rb_trace b) = None ∨ ∃ n, v = QQosed n.
Proof.
  intros [I1 I2 I3 I4 I5] Hi Hv [?|[n [j Hj]%list_elem_of_lookup]]%I2; [by left|]. right. exists n.
  assert (i = j) as <-; [|congruence]. eapply (countIf_unique holds vs); try done. rewrite I1. destruct (rb_locked b); lia.
Qed.
Lemma acquire_qos b vs i : qosV b vs → vs !! i = Some QOther → rb_locked b = false →
  qosV (set_channel (rb_owned b) true (rb_trace b) b) (<[i := QHolder]> vs).
Proof.
  intros [I1 I2 I3 I4 I5] Hi Hl. pose proof (countIf_insert holds vs i _ QHolder Hi) as Hc. simpl in Hc. rewrite Hl in I1.
  assert (∀ n, QQosed n ∉ vs) as Hno by (intros n Hin; pose proof (countIf_pos holds vs _ Hin eq_refl); lia).
  split; simpl; try done.
  - lia.
  - intros [?|[n []%Hno]]%I2. by left.
  - intros n [?|(k & _ & Hk%list_elem_of_lookup_2)]%elem_of_insert; by auto.
  - intros n [?|(k & _ & Hk%list_elem_of_lookup_2)]%elem_of_insert; by auto.
Qed.
Lemma release_qos b vs i : qosV b vs → vs !! i = Some QHolder →
  qosV (set_channel (rb_owned b) false (rb_trace b) b) (<[i := QOther]> vs).
Proof.
  intros H Hi. pose proof (countIf_insert holds vs i _ QOther Hi) as Hc. simpl in Hc.
  pose proof (holder_owned b vs i QHolder H Hi eq_refl) as Ho. destruct H as [I1 I2 I3 I4 I5]. split; simpl; try done.
  - destruct (rb_locked b); lia.
  - intros [?|[n ?]]%Ho; [by left|done].
  - intros n [?|(k & _ & Hk%list_elem_of_lookup_2)]%elem_of_insert; by auto.
  - intros n [?|(k & _ & Hk%list_elem_of_lookup_2)]%elem_of_insert; by auto.
Qed.
(** Events that are not consumers leave the order of consumers alone. *)
Lemma trace_other (e : REvent) (trace : list REvent) :
  (∀ later tag w earlier, trace = later ++ EConsume tag w :: earlier → latestQos earlier = w) →
  (∀ tag w, e = EConsume tag w → latestQos trace = w) →
  ∀ later tag w earlier, e :: trace = later ++ EConsume tag w :: earlier → latestQos earlier = w.
Proof. intros H He [|x later] tag w earlier [= -> Heq]; [subst; by eapply He|by eapply H]. Qed.
Lemma cancel_qos b vs tag : qosV b vs → qosV (record (ECancel tag) b) vs.
Proof. intros [I1 I2 I3 I4 I5]. split; simpl; try done. by apply trace_other. Qed.

Lemma keep_qos b vs i v v' : qosV b vs → vs !! i = Some v → holds v = true → holds v' = true → (∀ n, v ≠ QQosed n) →
  (∀ n, v' = QQosed n → latestQos (rb_trace b) = Some n) → (∀ w, v' = QReady w → latestQos (rb_trace b) = w) →
  qosV b (<[i := v']> vs).
Proof.
  intros H Hi Hv Hv' Hn H2 H3. apply (qosV_same (set_channel (rb_owned b) (rb_locked b) (rb_trace b) b)); [done|].
  eapply holder_qos; try done; [|apply (qv_trace _ _ H)].
  intros Ho. destruct (holder_owned b vs i v H Hi Hv Ho) as [?|[n ?]]; [by left|]. by destruct (Hn n).
Qed.

Lemma moves_qos b phs b' phs' : qosInv b phs → rmoves b phs b' phs' → qosInv b' phs'.
Proof.
  intros Hi Hm. destruct Hm as [|i ph o r b' env fuel ps Hph Ha He]; unfold qosInv in *.
  { rewrite fmap_app. by apply qosV_other. }
  rewrite fmap_app, list_fmap_insert.
  assert ((viewQ <$> phs) !! i = Some (viewQ ph)) as Hv by (by rewrite list_lookup_fmap, Hph).
  destruct (qosOp o) eqn:Eo.
  - destruct o; try done; cbn [exec allowedF started fmap list_fmap] in *; rewrite ?app_nil_r.
    + (* RBrokerCancel *) injection He as <- <- <-. apply cancel_qos.
      destruct Ha as [->|(st & p & ->)]; cbn [viewQ nextF] in *; by rewrite list_insert_id.
    + (* RLockConsume *) destruct Ha as [t ->]. destruct (env RLockConsume) as [err|].
      * injection He as <- <- <-. cbn [viewQ nextF] in *. by rewrite list_insert_id.
      * destruct (rb_locked b) eqn:El; [done|]. injection He as <- <- <-. by apply acquire_qos.
    + (* RQos *) destruct Ha as [t ->]. injection He as He1 He2 <-. rewrite <- He1 in *. clear He1.
      destruct (env (RQos prefetch)) as [err|]; subst b'; cbn [viewQ nextF] in *; [by eapply keep_qos|].
      eapply holder_qos; try done.
      * right. by eexists.
      * by intros n [= ->].
      * apply trace_other; [apply (qv_trace _ _ Hi)|done].
    + (* ROwned *) destruct Ha as [t ->]. injection He as <- <- <-. destruct (rb_owned b) eqn:Ew; cbn [viewQ nextF] in *; eapply keep_qos; try done.
      intros w [= <-]. by destruct (holder_owned _ _ _ _ Hi Hv eq_refl Ew) as [?|[n ?]].
    + (* RSetOwned *) destruct Ha as (t & n & ->). injection He as <- <- <-. cbn [viewQ nextF] in *.
      eapply holder_qos; try done; [|apply (qv_trace _ _ Hi)].
      intros w [= <-]. apply (qv_qosed _ _ Hi). by eapply list_elem_of_lookup_2.
    + (* RConsume *) subst ph. injection He as He1 He2 <-. rewrite <- He1 in *. clear He1.
      assert (latestQos (rb_trace b) = want prefetch) as Hw by (apply (qv_ready _ _ Hi); by eapply list_elem_of_lookup_2).
      destruct (env (RConsume topic tag prefetch)) as [err|]; subst b'; cbn [viewQ nextF] in *; [by eapply keep_qos|].
      eapply holder_qos; try done.
      * intros Ho. by destruct (holder_owned _ _ _ _ Hi Hv eq_refl Ho) as [?|[n ?]]; [left|].
      * apply trace_other; [apply (qv_trace _ _ Hi)|]. by intros tag' w [= <- <-].
    + (* RUnlockConsume *) injection He as <- <- <-.
      destruct Ha as [->|(t & ok & ->)]; [|destruct ok]; cbn [viewQ nextF] in *; by apply release_qos.
  - destruct (unseenQ env fuel o b r b' ps ph Eo Ha He) as (Hs & -> & Hst). rewrite list_insert_id by done.
    eapply qosV_same; [exact Hs|]. destruct Hst as [-> | ->]; [by rewrite app_nil_r|by apply qosV_other].
Qed.

(** C23. Whatever the interleaving of subscribers on the shared channel, every
    consumer is created under the prefetch it asked for: that of its own [Qos]
    for a pooled one, the channel's original one for a plain one. *)
Theorem consumers_prefetch s later tag w earlier : busReachable s → rb_trace (sys_st s) = later ++ EConsume tag w :: earlier →
  latestQos earlier = w.
Proof.
  intros Hr Heq. destruct (rabbit_bus_inv qosInv) with s as (phs & _ & Hi); [|exact moves_qos|done|by eapply (qv_trace _ _ Hi)].
  split; simpl; try done; try (by intros ? ?%not_elem_of_nil).
  - by left.
  - by intros [|].
Qed.
(** A plain consumer, and a pooled one whose subscriber runs in between. *)
Definition prefetch_run : list (Label (R := RRes) (L := RMethod)) :=
  [LSpawn (MSubscribe "orders" true); LSpawn (MSubscribeWithOptions "jobs" true 2 3)] ++ replicate 4 (LRun 0 demoBroker 3) ++
  replicate 6 (LRun 1 demoBroker 3) ++ replicate 4 (LRun 0 demoBroker 3) ++ replicate 6 (LRun 1 demoBroker 3).
Lemma consumers_prefetch_witness : ∃ s, runBus prefetch_run = Some s ∧
  rb_trace (sys_st s) = [EConsume 1 (Some 5); EQos 5; EConsume 0 None] ∧ latestQos [EQos 5; EConsume 0 None] = Some 5.
Proof.
  assert (rb_trace ∘ sys_st <$> runBus prefetch_run = Some [EConsume 1 (Some 5); EQos 5; EConsume 0 None]) as H by (vm_compute; reflexivity).
  destruct (runBus prefetch_run) as [s|] eqn:E; [|discriminate H]. injection H as H.
  exists s. split; [reflexivity|]. split; [exact H|]. exact (consumers_prefetch s [] 1 (Some 5) _ (rabbit_runBus_reachable _ _ E) H).
Defined.

(** * Consumer tags *)

Definition consumedTags (trace : list REvent) : list nat := omap (λ e, match e with EConsume t _ => Some t | _ => None end) trace.
Definition cancelledTags (trace : list REvent) : list nat := omap (λ e, match e with ECancel t => Some t | _ => None end) trace.
(** What the broker requires, a breach of which closes the shared channel: a
    tag names one consumer, and is cancelled once, after the consumer exists. *)
Fixpoint tagsOk (trace : list REvent) : Prop :=
  match trace with
  | [] => True
  | EConsume t _ :: trace => (t ∉ consumedTags trace) ∧ tagsOk trace
  | ECancel t :: trace => t ∈ consumedTags trace ∧ (t ∉ cancelledTags trace) ∧ tagsOk trace
  | EQos _ :: trace => tagsOk trace
  end.

(** The tag a thread has to create, [(t, false)], or to cancel, [(t, true)]. *)
Definition viewT (ph : RPhase) : option (nat * bool) :=
  match ph with
  | FTag t | FLocked t | FQosed t _ | FReady t _ => Some (t, false)
  | FConsumed t true | FConsumer t | FRefused t | FReg t _ | FLoop t _ _ _ => Some (t, true)
  | _ => None
  end.
Record tagV (next : nat) (trace : list REvent) (vs : list (option (nat * bool))) : Prop := {
  tv_bound : ∀ t, t ∈ consumedTags trace → (t < next)%nat;
  tv_own : ∀ i t c, vs !! i = Some (Some (t, c)) → (t < next)%nat ∧ (t ∉ cancelledTags trace) ∧ (t ∈ consumedTags trace ↔ c = true);
  tv_unique : ∀ i j t c d, vs !! i = Some (Some (t, c)) → vs !! j = Some (Some (t, d)) → i = j;
  tv_ok : tagsOk trace }.
Definition tagInv (b : RBus) (phs : list RPhase) : Prop := tagV (rb_nextTag b) (rb_trace b) (viewT <$> phs).

Lemma tagsOk_cancelled trace t : tagsOk trace → t ∈ cancelledTags trace → t ∈ consumedTags trace.
Proof.
  induction trace as [|[n|t' w|t'] trace IH]; [by intros _ ?%not_elem_of_nil|simpl..]; unfold cancelledTags, consumedTags in *; simpl.
  - done.
  - intros [_ ?] Ht. right. auto.
  - intros (? & _ & ?) [->|?]%elem_of_cons; auto.
Qed.

(** A thread that gives up its tag, or starts without one. *)
Lemma drop_tag next trace vs i : tagV next trace vs → tagV next trace (<[i := None]> vs).
Proof.
  intros [I1 I2 I3 I4]. split; try done.
  - intros k t c. rewrite list_lookup_insert_Some. intros [(_ & ? & _)|[_ ?]]; [done|by eapply I2].
  - intros k l t c d. rewrite !list_lookup_insert_Some. intros [(_ & ? & _)|[_ ?]]; [done|]. intros [(_ & ? & _)|[_ ?]]; [done|by eapply I3].
Qed.
Lemma spawn_tag next trace vs : tagV next trace vs → tagV next trace (vs ++ [None]).
Proof.
  assert (∀ i (t : nat) (c : bool), (vs ++ [None]) !! i = Some (Some (t, c)) → vs !! i = Some (Some (t, c))) as Hl.
  { intros i t c [?|[_ Hs]]%lookup_app_Some; [done|]. by apply list_lookup_singleton_Some in Hs as [_ ?]. }
  intros [I1 I2 I3 I4]. split; try done; [by intros i t c ?%Hl; eapply I2|]. intros i j t c d ?%Hl ?%Hl. by eapply I3.
Qed.
(** A tag that changes hands, when a loop is started. *)
Lemma give_tag next trace vs i t c : tagV next trace vs → vs !! i = Some (Some (t, c)) →
  tagV next trace (<[i := None]> vs ++ [Some (t, c)]).
Proof.
  intros H Hi. pose proof (drop_tag _ _ _ i H) as [J1 J2 J3 J4]. destruct H as [I1 I2 I3 I4].
  assert (∀ k u d, (<[i:=None]> vs ++ [Some (t, c)]) !! k = Some (Some (u, d)) →
    (<[i:=None]> vs !! k = Some (Some (u, d)) ∧ u ≠ t) ∨ (k = length vs ∧ u = t ∧ d = c)) as Hl.
  { intros k u d [Hk|[Hk Hs]]%lookup_app_Some.
    - left. split; [done|]. intros ->. apply list_lookup_insert_Some in Hk as [(_ & ? & _)|[Hne Hk]]; [done|]. apply Hne. by eapply I3.
    - right. apply list_lookup_singleton_Some in Hs as [Hk' [= -> ->]]. rewrite length_insert in *. split; [lia|done]. }
  split; try done.
  - intros k u d [[? _]|(_ & -> & ->)]%Hl; [by eapply J2|by eapply I2].
  - intros k l u d e [[? ?]|(-> & -> & _)]%Hl [[? ?]|(-> & ? & _)]%Hl; try done. by eapply J3.
Qed.
(** A tag is taken. *)
Lemma take_tag next trace vs i : tagV next trace vs → tagV (S next) trace (<[i := Some (next, false)]> vs).
Proof.
  intros [I1 I2 I3 I4].
  assert (∀ k t c, <[i := Some (next, false)]> vs !! k = Some (Some (t, c)) → (k = i ∧ t = next ∧ c = false) ∨ vs !! k = Some (Some (t, c))) as Hl.
  { intros k t c [(-> & [= <- <-] & _)|[_ ?]]%list_lookup_insert_Some; auto. }
  split; try done.
  - intros t ?%I1. lia.
  - intros k t c [(-> & -> & ->)|Hk]%Hl; [|by destruct (I2 _ _ _ Hk) as (? & ? & ?); split_and!; [lia|..]].
    assert (next ∉ consumedTags trace) as Hn by (intros ?%I1; lia). split_and!; [lia| |done].
    intros ?%(tagsOk_cancelled _ _ I4). done.
  - intros k l t c d [(-> & -> & _)|Hk]%Hl [(-> & ? & _)|Hk']%Hl; try done; [| |by eapply I3]; simplify_eq.
    + apply I2 in Hk' as (? & _). lia.
    + apply I2 in Hk as (? & _). lia.
Qed.
(** A consumer is created, and cancelled. *)
Lemma consume_tag next trace vs i t w : tagV next trace vs → vs !! i = Some (Some (t, false)) →
  tagV next (EConsume t w :: trace) (<[i := Some (t, true)]> vs).
Proof.
  intros [I1 I2 I3 I4] Hi. destruct (I2 _ _ _ Hi) as (Hb & Hnc & Hc).
  assert (∀ k u c, <[i := Some (t, true)]> vs !! k = Some (Some (u, c)) →
    (k = i ∧ u = t ∧ c = true) ∨ (k ≠ i ∧ u ≠ t ∧ vs !! k = Some (Some (u, c)))) as Hl.
  { intros k u c [(-> & [= <- <-] & _)|[Hne Hk]]%list_lookup_insert_Some; [by left|]. right. split_and!; [done| |done].
    intros ->. apply Hne. by eapply I3. }
  split.
  - unfold consumedTags. simpl. intros u [->|?%I1]%elem_of_cons; lia.
  - unfold consumedTags. simpl. intros k u c [(-> & -> & ->)|(_ & Hne & (? & ? & Hiff)%I2)]%Hl.
    + split_and!; [done|done|]. split; [done|]. by left.
    + split_and!; [done|done|]. rewrite elem_of_cons, <- Hiff. unfold consumedTags. naive_solver.
  - intros k l u c d [(-> & -> & _)|(? & ? & ?)]%Hl [(-> & ? & _)|(? & ? & ?)]%Hl; try done. by eapply I3.
  - simpl. split; [|done]. by intros ?%Hc.
Qed.
Lemma cancel_tag next trace vs i t : tagV next trace vs → vs !! i = Some (Some (t, true)) →
  tagV next (ECancel t :: trace) (<[i := None]> vs).
Proof.
  intros [I1 I2 I3 I4] Hi. destruct (I2 _ _ _ Hi) as (Hb & Hnc & Hc).
  assert (∀ k u c, <[i := None]> vs !! k = Some (Some (u, c)) → u ≠ t ∧ vs !! k = Some (Some (u, c))) as Hl.
  { intros k u c [(_ & ? & _)|[Hne Hk]]%list_lookup_insert_Some; [done|]. split; [|done]. intros ->. apply Hne. by eapply I3. }
  split.
  - done.
  - intros k u c [Hne (? & ? & ?)%I2]%Hl. split_and!; [done| |done]. unfold cancelledTags. simpl. by intros [?|?]%elem_of_cons.
  - intros k l u c d [_ ?]%Hl [_ ?]%Hl. by eapply I3.
  - simpl. split_and!; [by apply Hc|done|done].
Qed.

Definition tagOp (o : ROp) : bool :=
  match o with RNextTag | RLockConsume | RUnlockConsume | RQos _ | ROwned | RConsume _ _ _ | RBrokerCancel _ | RGo _ _ _ _ => true | _ => false end.
Lemma unseenT env fuel o b r b' ps ph : tagOp o = false → allowedF ph o → exec env fuel o b = Some (r, b', ps) →
  rb_nextTag b' = rb_nextTag b ∧ rb_trace b' = rb_trace b ∧ viewT (nextF ph o r) = viewT ph ∧ (started o r = [] ∨ viewT <$> started o r = [None]).
Proof.
  intros Ho Ha He. destruct o; try done; cbn [exec allowedF nextF started] in *;
    repeat match goal with H : ∃ _, _ |- _ => destruct H | H : _ ∨ _ |- _ => destruct H end; subst;
    unfold registerConsumer, beginClose, exitLoop in *;
    repeat (case_match; simplify_eq); simplify_eq; simpl; auto 10.
Qed.

Lemma tagV_qos next trace vs n : tagV next trace vs → tagV next (EQos n :: trace) vs.
Proof. by intros [I1 I2 I3 I4]; split. Qed.
Lemma moves_tag b phs b' phs' : tagInv b phs → rmoves b phs b' phs' → tagInv b' phs'.
Proof.
  intros Hi Hm. destruct Hm as [|i ph o r b' env fuel ps Hph Ha He]; unfold tagInv in *.
  { rewrite fmap_app. by apply spawn_tag. }
  rewrite fmap_app, list_fmap_insert.
  assert ((viewT <$> phs) !! i = Some (viewT ph)) as Hv by (by rewrite list_lookup_fmap, Hph).
  destruct (tagOp o) eqn:Eo.
  - destruct o; try done; cbn [exec allowedF started fmap list_fmap] in *; rewrite ?app_nil_r.
    + (* RBrokerCancel *) injection He as <- <- <-. destruct Ha as [->|(st & p & ->)]; by apply cancel_tag.
    + (* RNextTag *) subst ph. injection He as <- <- <-. by apply take_tag.
    + (* RLockConsume *) destruct Ha as [t ->]. destruct (env RLockConsume) as [err|].
      * injection He as <- <- <-. by apply drop_tag.
      * destruct (rb_locked b) eqn:El; [done|]. injection He as <- <- <-. cbn [viewT nextF] in *. by rewrite list_insert_id.
    + (* RQos *) destruct Ha as [t ->]. injection He as He1 He2 <-. rewrite <- He1 in *. clear He1.
      destruct (env (RQos prefetch)) as [err|]; subst b'; cbn [viewT nextF] in *; [by apply drop_tag|].
      rewrite list_insert_id by done. by apply tagV_qos.
    + (* ROwned *) destruct Ha as [t ->]. injection He as <- <- <-.
      destruct (rb_owned b) eqn:Ew; cbn [viewT nextF] in *; [by apply drop_tag|by rewrite list_insert_id].
    + (* RConsume *) subst ph. injection He as He1 He2 <-. rewrite <- He1 in *. clear He1.
      destruct (env (RConsume topic tag prefetch)) as [err|]; subst b'; cbn [viewT nextF] in *; [by apply drop_tag|by apply consume_tag].
    + (* RUnlockConsume *) injection He as <- <- <-.
      destruct Ha as [->|(t & ok & ->)]; [|destruct ok]; cbn [viewT nextF] in *; by rewrite list_insert_id.
    + (* RGo *) subst ph. injection He as <- <- <-. by apply give_tag.
  - destruct (unseenT env fuel o b r b' ps ph Eo Ha He) as (-> & -> & -> & Hst). rewrite list_insert_id by done.
    destruct Hst as [-> | ->]; [by rewrite app_nil_r|by apply spawn_tag].
Qed.

(** No interleaving makes the bus breach the broker's rules on tags, a breach
    of which would close the shared channel: every consumer gets a tag of its
    own, and is cancelled at most once and only after it was created. *)
Theorem consumer_tags_ok s : busReachable s → tagsOk (rb_trace (sys_st s)).
Proof.
  intros Hr. destruct (rabbit_bus_inv tagInv) with s as (phs & _ & Hi); [|exact moves_tag|done|apply (tv_ok _ _ _ Hi)].
  split; simpl; try done. by intros t ?%not_elem_of_nil.
Qed.
Lemma consumer_tags_ok_witness : ∃ s, runBus demo_run = Some s ∧ rb_trace (sys_st s) = [ECancel 0; EConsume 0 None] ∧ tagsOk (rb_trace (sys_st s)).
Proof.
  assert (rb_trace ∘ sys_st <$> runBus demo_run = Some [ECancel 0; EConsume 0 None]) as H by (vm_compute; reflexivity).
  destruct (runBus demo_run) as [s|] eqn:E; [|discriminate H]. injection H as H.
  exists s. split; [reflexivity|]. split; [exact H|]. exact (consumer_tags_ok s (rabbit_runBus_reachable _ _ E)).
Defined.

(** * Publishing *)

(** With publisher confirms, [Publish] returns nil only when the broker has
    confirmed the message. *)
Lemma publish_confirmed topic payload tr : runs RRes (Publish true topic payload) tr (Ret None) →
  existT (RPublishDeferred topic payload) None ∈ tr ∧ existT RWaitConfirm (inl true) ∈ tr.
Proof.
  intros ([err|] & tr1 & -> & H)%(runs_ret RRes); apply (runs_ret RRes) in H; simpl in H; [by destruct H|].
  destruct H as ([err|] & tr2 & -> & H); apply (runs_ret RRes) in H; simpl in H; [by destruct H|].
  destruct H as ([err|] & tr3 & -> & H); apply (runs_ret RRes) in H; simpl in H; [by destruct H|].
  destruct H as ([[|]|err] & tr4 & -> & H); apply (runs_ret RRes) in H as [-> H]; try done. split; repeat first [by left|right].
Qed.
