(* ===== verification/NatsBus.v ===== *)
(** The core NATS event bus (src/nats/nats.go; src/internal/handlerpanic,
    src/internal/busshutdown).

    The client library runs the callback of a subscription on goroutines of its
    own, at any time, also after the subscription has ended; each invocation is
    a thread.  [Subscribe] holds [subsMu] throughout, so it is one call. *)

From stdpp Require Import base list strings.
From S2P Require Import Prelude Code Threads.

(** * Calls *)

(** How [conn.Subscribe] within the critical section ended. *)
Inductive Subscribed := SubClosed | SubFailed (err : error) | SubDone.

Inductive NOp :=
  | NCtxErr
  | NPublishMsg (topic payload : string)
  | NSubscribe (topic : string)                (* the critical section of Subscribe *)
  | NEnter                                     (* that of the callback *)
  | NHandler (topic payload : string)
  | NDone                                      (* handlersWG.Done *)
  | NClose                                     (* the critical section of Close *)
  | NUnsubscribe (sub : nat)
  | NCancel (sub : nat)
  | NWait.                                     (* busshutdown.WaitGroup *)
Definition NRes (o : NOp) : Type :=
  match o with
  | NCtxErr | NPublishMsg _ _ | NUnsubscribe _ | NWait => option error
  | NSubscribe _ => Subscribed
  | NEnter => bool
  | NHandler _ _ => Handled
  | NDone | NCancel _ => unit
  | NClose => option (list nat)
  end.
Definition NProg := Code NRes (option error).

(** * The programs *)

Definition Publish (topic payload : string) : NProg :=
  err ← call NCtxErr;
  match (err : option error) with
  | Some err => mret (Some err)
  | None => call (NPublishMsg topic payload)
  end.

Definition Subscribe (topic : string) (hasHandler : bool) : NProg :=
  if negb hasHandler then mret (Some (Errorf "failed to subscribe to %s: handler must not be nil" [topic] []))
  else
    err ← call NCtxErr;
    match (err : option error) with
    | Some err => mret (Some err)
    | None =>
      r ← call (NSubscribe topic);
      mret (match (r : Subscribed) with
            | SubClosed => Some (Errorf "failed to subscribe to %s: event bus is closed" [topic] [])
            | SubFailed err => Some (Errorf "failed to subscribe to %s: %w" [topic] [err])
            | SubDone => None
            end)
    end.

(** The callback; its result is the error it logs. *)
Definition callback (topic payload : string) : NProg :=
  entered ← call NEnter;
  if negb (entered : bool) then mret None
  else
    h ← call (NHandler topic payload);
    call NDone ;;
    mret (Recover h).

Fixpoint eachSub (o : nat → NOp) (subs : list nat) : Code NRes unit :=
  match subs with [] => mret tt | s :: subs => call (o s) ;; eachSub o subs end.
Definition Close : NProg :=
  r ← call NClose;
  match (r : option (list nat)) with
  | None => mret None
  | Some subs => eachSub NUnsubscribe subs ;; eachSub NCancel subs ;; call NWait
  end.

(** * The bus and its threads *)

(** [nb_waited] records that a [Close] has waited for the handlers and returned
    nil; subscriptions are numbered. *)
Record NBus := mkNBus { nb_closed : bool; nb_subs : list nat; nb_next : nat; nb_wg : nat; nb_waited : bool }.
Definition NewEventBus : NBus := mkNBus false [] 0 0 false.

Definition exec (env : ∀ o, NRes o) (fuel : nat) (o : NOp) (b : NBus) : option (NRes o * NBus * list NProg) :=
  match o return option (NRes o * NBus * list NProg) with
  | NSubscribe topic =>
    if nb_closed b then Some (SubClosed, b, [])
    else match env (NSubscribe topic) with
    | SubFailed err => Some (SubFailed err, b, [])
    | _ => Some (SubDone, mkNBus false (nb_subs b ++ [nb_next b]) (S (nb_next b)) (nb_wg b) (nb_waited b), [])
    end
  | NEnter =>
    if nb_closed b then Some (false, b, [])
    else Some (true, mkNBus false (nb_subs b) (nb_next b) (S (nb_wg b)) (nb_waited b), [])
  | NDone => Some (tt, mkNBus (nb_closed b) (nb_subs b) (nb_next b) (pred (nb_wg b)) (nb_waited b), [])
  | NClose =>
    if nb_closed b then Some (None, b, [])
    else Some (Some (nb_subs b), mkNBus true [] (nb_next b) (nb_wg b) (nb_waited b), [])
  | NWait =>
    match env NWait with
    | Some err => Some (Some err, b, [])
    | None => if (nb_wg b =? 0)%nat then Some (None, mkNBus (nb_closed b) (nb_subs b) (nb_next b) (nb_wg b) true, []) else None
    end
  | o => Some (env o, b, [])
  end.

(** The methods of the bus, and the callbacks the client library runs. *)
Inductive NMethod :=
  | MPublish (topic payload : string)
  | MSubscribe (topic : string) (hasHandler : bool)
  | MMessage (topic payload : string)
  | MClose.
Definition method (m : NMethod) : NProg :=
  match m with
  | MPublish topic payload => Publish topic payload
  | MSubscribe topic hasHandler => Subscribe topic hasHandler
  | MMessage topic payload => callback topic payload
  | MClose => Close
  end.
Definition busReachable : Sys NRes (option error) NBus → Prop := Threads.reachable exec method NewEventBus.

(** * What a thread may still do *)

Inductive NPhase := NFree | NIn | NClosing | NEnd.
Definition allowedN (ph : NPhase) (o : NOp) : Prop :=
  match o with
  | NHandler _ _ | NDone => ph = NIn
  | NUnsubscribe _ | NCancel _ | NWait => ph = NClosing
  | _ => ph = NFree
  end.
Definition nextN (ph : NPhase) (o : NOp) : NRes o → NPhase :=
  match o return NRes o → NPhase with
  | NEnter => λ ok : bool, if ok then NIn else NEnd
  | NClose => λ r, match r with Some _ => NClosing | None => NEnd end
  | NDone | NWait => λ _, NEnd
  | _ => λ _, ph
  end.
Definition finalN (ph : NPhase) (_ : option error) : Prop := ph = NFree ∨ ph = NEnd.
Definition nthread (ph : NPhase) (c : NProg) : Prop := follows NRes allowedN nextN finalN ph c.

Lemma nats_eachSub_thread o subs : (∀ s, allowedN NClosing (o s)) → (∀ s r, nextN NClosing (o s) r = NClosing) →
  follows NRes allowedN nextN (λ ph _, ph = NClosing) NClosing (eachSub o subs).
Proof.
  intros Ha Hn. induction subs as [|s subs IH]; [done|]. split; [apply Ha|]. intros r. rewrite Hn. exact IH.
Qed.
Lemma nats_method_thread m : nthread NFree (method m).
Proof.
  destruct m as [topic payload|topic hh|topic payload|]; unfold nthread, finalN.
  - split; [done|]. intros [err|]; [by left|]. split; [done|]. by left.
  - destruct hh; [|by left]. split; [done|]. intros [err|]; [by left|]. split; [done|]. by left.
  - split; [done|]. intros [|]; [|by right]. split; [done|]. intros h. split; [done|]. by right.
  - split; [done|]. intros [subs|]; [|by right]. cbn [nextN].
    eapply follows_bind; [by apply (nats_eachSub_thread NUnsubscribe)|]. intros ph _ ->.
    eapply follows_bind; [by apply (nats_eachSub_thread NCancel)|]. intros ph _ ->. split; [done|]. by right.
Qed.

Definition viewN (ph : NPhase) : WView := match ph with NIn => WCounted | NClosing => WClosing | _ => WOther end.
Definition busInv (b : NBus) (phs : list NPhase) : Prop := wgInv (nb_closed b) (nb_waited b) (nb_wg b) (viewN <$> phs).
Definition started (o : NOp) : list NPhase := [].
Lemma nats_starts env fuel o b r b' ps : exec env fuel o b = Some (r, b', ps) → Forall2 nthread (started o) ps.
Proof. destruct o; cbn [exec]; intros H; repeat (case_match; simplify_eq); simplify_eq; constructor. Qed.

Lemma nats_moves_inv b phs b' phs' : busInv b phs → moves exec allowedN nextN NFree started b phs b' phs' → busInv b' phs'.
Proof.
  intros Hi Hm. destruct Hm as [|i ph o r b' env fuel ps Hph Ha He]; unfold busInv in *.
  { rewrite fmap_app. by apply wg_spawn. }
  rewrite fmap_app, list_fmap_insert.
  assert ((viewN <$> phs) !! i = Some (viewN ph)) as Hv by (by rewrite list_lookup_fmap, Hph).
  destruct o; cbn [exec allowedN nextN started fmap list_fmap] in *; rewrite ?app_nil_r; subst ph;
    try (injection He as <- <- <-; by rewrite list_insert_id).
  - (* NSubscribe *) rewrite list_insert_id by done. repeat (case_match; simplify_eq); simplify_eq; simpl; try done; congruence.
  - (* NEnter *) destruct (nb_closed b) eqn:Ec; injection He as <- <- <-; rewrite ?Ec in *; [by eapply wg_leave|by apply wg_enter].
  - (* NDone *) injection He as <- <- <-. by apply wg_done.
  - (* NClose *) destruct (nb_closed b) eqn:Ec; injection He as <- <- <-; rewrite ?Ec in *; [by eapply wg_leave|by eapply wg_close].
  - (* NWait *) destruct (env NWait) as [err|]; [|destruct (Nat.eqb_spec (nb_wg b) 0) as [E|]; [|done]]; injection He as <- <- <-.
    + by eapply wg_leave.
    + by eapply wg_wait.
Qed.

(** Once a [Close] of the core NATS bus has returned nil after its wait, no
    handler is running and none is started, although the client library may
    still run callbacks. *)
Theorem nats_close_quiesces s : busReachable s → nb_waited (sys_st s) = true →
  nb_closed (sys_st s) = true ∧ ∀ i topic payload k, sys_threads s !! i ≠ Some (Call (NHandler topic payload) k).
Proof.
  intros Hr Hw. destruct (threads_inv exec method allowedN nextN finalN NFree started nats_method_thread nats_starts busInv NewEventBus
    wg_init nats_moves_inv s Hr) as (phs & Hth & Hi). unfold busInv in Hi. rewrite Hw in Hi.
  destruct (wg_waited _ _ _ _ Hi eq_refl) as [Hc Hz]. split; [done|].
  intros i topic payload k Ei. destruct (Forall2_lookup_r _ _ _ _ _ Hth Ei) as (ph & Eph & Ha & _). simpl in Ha. subst ph.
  apply (wg_quiet _ _ _ i Hi). by rewrite list_lookup_fmap, Eph.
Qed.

Definition demoClient (o : NOp) : NRes o :=
  match o return NRes o with
  | NCtxErr | NPublishMsg _ _ | NUnsubscribe _ | NWait => None
  | NSubscribe _ => SubDone
  | NEnter => true
  | NHandler _ _ => HPanic "boom"
  | NDone | NCancel _ => tt
  | NClose => None
  end.
(** A message is handled while the bus closes, and one arrives after. *)
Definition demo_run : list (Label (R := NRes) (L := NMethod)) :=
  [LSpawn (MSubscribe "orders" true); LRun 0 demoClient 0; LRun 0 demoClient 0; LSpawn (MMessage "orders" "a"); LRun 1 demoClient 0;
   LSpawn MClose; LRun 2 demoClient 0; LRun 2 demoClient 0; LRun 2 demoClient 0; LRun 1 demoClient 0; LRun 1 demoClient 0;
   LRun 2 demoClient 0; LSpawn (MMessage "orders" "b"); LRun 3 demoClient 0].
Definition runBus (ls : list (Label (R := NRes) (L := NMethod))) := Threads.run exec method ls (mkSys NewEventBus []).
Lemma nats_runBus_reachable ls s : runBus ls = Some s → busReachable s.
Proof. intros H. by exists ls. Qed.
Lemma nats_close_quiesces_witness : ∃ s, runBus demo_run = Some s ∧ length (sys_threads s) = 4 ∧
  ∀ i topic payload k, sys_threads s !! i ≠ Some (Call (NHandler topic payload) k).
Proof.
  assert (match runBus demo_run with
    | Some s => nb_waited (sys_st s) && (length (sys_threads s) =? 4) | None => false end = true) as H by (vm_compute; reflexivity).
  destruct (runBus demo_run) as [s|] eqn:E; [|discriminate H].
  apply andb_true_iff in H as [Hw Hn%Nat.eqb_eq]. exists s. split; [reflexivity|]. split; [exact Hn|].
  exact (proj2 (nats_close_quiesces s (nats_runBus_reachable _ _ E) Hw)).
Defined.
