(* ===== verification/WatermillBus.v ===== *)
(** The Watermill event bus (src/watermill/watermill.go;
    src/internal/handlerpanic, src/internal/busshutdown).

    Subscribers, consume loops and closers are threads over one bus; a critical
    section of the bus is one call.  The wrapped in-memory channel, handlers,
    pools and contexts answer arbitrarily; logging and tracing are left out. *)

From stdpp Require Import base list strings.
From S2P Require Import Prelude Code Threads WorkerPool.

(** * Calls *)

Record Message := mkMessage { ms_id : nat; ms_Payload : string }.
Inductive Received := RcDone | RcClosed | RcMessage (m : Message).

Inductive WOp :=
  (* a message *)
  | WHandler (m : Message)
  | WAck (m : Message)
  | WNack (m : Message)
  | WSubmit (m : Message)                  (* processor.Submit of the message's task *)
  (* a loop *)
  | WReceive                               (* the select of consume *)
  | WCancel (sub : nat)
  | WDelete (sub : nat)                    (* its critical section *)
  | WPoolClose                             (* processor.Close(context.Background()) *)
  | WDone                                  (* wg.Done *)
  (* Publish and Subscribe *)
  | WCtxErr
  | WPubSubPublish (topic payload : string)
  | WPubSubSubscribe (topic : string)
  | WRegister                              (* the critical section of subscribe *)
  | WAdd                                   (* wg.Add *)
  | WGo (sub : nat) (pooled : bool)
  (* Close *)
  | WOnceEnter                             (* closeOnce.Do: whether this call runs the function *)
  | WSnapshot                              (* its critical section *)
  | WPubSubClose
  | WOnceExit
  | WWait.                                 (* busshutdown.WaitGroup *)

Definition WRes (o : WOp) : Type :=
  match o with
  | WHandler _ => Handled
  | WReceive => Received
  | WSubmit _ | WPoolClose | WCtxErr | WPubSubPublish _ _ | WPubSubSubscribe _ | WPubSubClose | WWait => option error
  | WAck _ | WNack _ | WCancel _ | WDelete _ | WDone | WAdd | WGo _ _ | WOnceExit => unit
  | WRegister => nat
  | WOnceEnter => bool
  | WSnapshot => list nat
  end.
Definition WProg := Code WRes (option error).

(** * The programs *)

Definition Publish (topic payload : string) : WProg :=
  err ← call WCtxErr;
  match (err : option error) with
  | Some err => mret (Some err)
  | None =>
    err ← call (WPubSubPublish topic payload);
    mret (match (err : option error) with
          | Some err => Some (Errorf "watermill publish failed: %w" [] [err])
          | None => None
          end)
  end.

(** The handler's error is logged. *)
Definition handleMessage (m : Message) : Code WRes (option error) :=
  h ← call (WHandler m);
  call (WAck m) ;;
  mret (Recover h).
(** The task given to the pool; it ends as the handler did. *)
Definition messageTask (m : Message) : Code WRes Handled :=
  h ← call (WHandler m);
  call (WAck m) ;;
  mret h.
Definition submitMessage (m : Message) : Code WRes (option error) :=
  err ← call (WSubmit m);
  match (err : option error) with
  | Some err => call (WNack m) ;; mret (Some err)
  | None => mret None
  end.

(** [false] is a loop that goes on beyond [fuel] messages. *)
Fixpoint receiveLoop (fuel : nat) (pooled : bool) : Code WRes bool :=
  match fuel with
  | O => mret false
  | S fuel =>
    r ← call WReceive;
    match (r : Received) with
    | RcDone | RcClosed => mret true
    | RcMessage m => (if pooled then submitMessage m else handleMessage m) ;; receiveLoop fuel pooled
    end
  end.
Definition consume (fuel : nat) (subID : nat) (pooled : bool) : WProg :=
  ended ← receiveLoop fuel pooled;
  if (ended : bool) then
    call (WCancel subID) ;;
    call (WDelete subID) ;;
    (if pooled then call WPoolClose ;; mret tt else mret tt) ;;
    call WDone ;;
    mret None
  else mret None.

Definition nilHandler : error := Errorf "watermill subscription failed: handler must not be nil" [] [].
Definition subscribe (topic : string) (hasHandler pooled : bool) : WProg :=
  if negb hasHandler then mret (Some nilHandler)
  else
    err ← call WCtxErr;
    match (err : option error) with
    | Some err => mret (Some err)
    | None =>
      err ← call (WPubSubSubscribe topic);
      match (err : option error) with
      | Some err => mret (Some (Errorf "watermill subscription failed: %w" [] [err]))
      | None =>
        subID ← call WRegister;
        call WAdd ;;
        call (WGo subID pooled) ;;
        mret None
      end
    end.
Definition Subscribe (topic : string) (hasHandler : bool) : WProg := subscribe topic hasHandler false.
Definition SubscribeWithOptions (topic : string) (hasHandler : bool) (Workers QueueCapacity : Z) : WProg :=
  if negb hasHandler then mret (Some nilHandler)
  else
    err ← call WCtxErr;
    match (err : option error) with
    | Some err => mret (Some err)
    | None =>
      match WorkerPool.New Workers QueueCapacity with
      | inr err => mret (Some (Errorf "watermill subscription failed: invalid worker options: %w" [] [err]))
      | inl _ =>
        err ← subscribe topic hasHandler true;
        match (err : option error) with
        | Some err => call WPoolClose ;; mret (Some err)
        | None => mret None
        end
      end
    end.

Fixpoint cancelAll (subs : list nat) : Code WRes unit :=
  match subs with [] => mret tt | s :: subs => call (WCancel s) ;; cancelAll subs end.
Definition Close : WProg :=
  first ← call WOnceEnter;
  closeErr ← (if (first : bool) then
                subs ← call WSnapshot;
                cancelAll subs ;;
                err ← call WPubSubClose;
                call WOnceExit ;;
                mret (match (err : option error) with
                      | Some err => Some (Errorf "failed to close watermill pubsub: %w" [] [err])
                      | None => None
                      end)
              else mret None);
  match (closeErr : option error) with
  | Some err => mret (Some err)
  | None => call WWait
  end.

(** * The bus and its threads *)

Inductive Once := OFresh | ORunning | ODone.
Record WBus := mkWBus { wb_nextSubID : nat; wb_subs : list nat; wb_wg : nat; wb_once : Once }.
Definition NewEventBus : WBus := mkWBus 0 [] 0 OFresh.

Definition exec (env : ∀ o, WRes o) (fuel : nat) (o : WOp) (b : WBus) : option (WRes o * WBus * list WProg) :=
  match o return option (WRes o * WBus * list WProg) with
  | WDelete sub => Some (tt, mkWBus (wb_nextSubID b) (filter (λ s, s ≠ sub) (wb_subs b)) (wb_wg b) (wb_once b), [])
  | WDone => Some (tt, mkWBus (wb_nextSubID b) (wb_subs b) (pred (wb_wg b)) (wb_once b), [])
  | WRegister => Some (wb_nextSubID b, mkWBus (S (wb_nextSubID b)) (wb_subs b ++ [wb_nextSubID b]) (wb_wg b) (wb_once b), [])
  | WAdd => Some (tt, mkWBus (wb_nextSubID b) (wb_subs b) (S (wb_wg b)) (wb_once b), [])
  | WGo sub pooled => Some (tt, b, [consume fuel sub pooled])
  | WOnceEnter =>
    match wb_once b with
    | OFresh => Some (true, mkWBus (wb_nextSubID b) (wb_subs b) (wb_wg b) ORunning, [])
    | ORunning => None
    | ODone => Some (false, b, [])
    end
  | WSnapshot => Some (wb_subs b, mkWBus (wb_nextSubID b) [] (wb_wg b) (wb_once b), [])
  | WOnceExit => Some (tt, mkWBus (wb_nextSubID b) (wb_subs b) (wb_wg b) ODone, [])
  | WWait =>
    match env WWait with
    | Some err => Some (Some err, b, [])
    | None => if (wb_wg b =? 0)%nat then Some (None, b, []) else None
    end
  | o => Some (env o, b, [])
  end.

(** The methods of the bus. *)
Inductive WMethod :=
  | MPublish (topic payload : string)
  | MSubscribe (topic : string) (hasHandler : bool)
  | MSubscribeWithOptions (topic : string) (hasHandler : bool) (Workers QueueCapacity : Z)
  | MClose.
Definition method (m : WMethod) : WProg :=
  match m with
  | MPublish topic payload => Publish topic payload
  | MSubscribe topic hasHandler => Subscribe topic hasHandler
  | MSubscribeWithOptions topic hasHandler w q => SubscribeWithOptions topic hasHandler w q
  | MClose => Close
  end.
Definition busReachable : Sys WRes (option error) WBus → Prop := Threads.reachable exec method NewEventBus.

(** * Messages *)

(** Whatever the handler does, its message is acknowledged once, after it; a
    message the pool refuses is returned without having been handled. *)
Lemma message_acked m tr r : runs WRes (handleMessage m) tr (Ret r) →
  ∃ h, tr = [existT (WHandler m) h; existT (WAck m) tt] ∧ r = Recover h.
Proof.
  intros (h & tr1 & -> & H)%(runs_ret WRes). apply (runs_ret WRes) in H as ([] & tr2 & -> & H).
  apply (runs_ret WRes) in H as [-> <-]. by exists h.
Qed.
Lemma task_acked m tr r : runs WRes (messageTask m) tr (Ret r) → tr = [existT (WHandler m) r; existT (WAck m) tt].
Proof.
  intros (h & tr1 & -> & H)%(runs_ret WRes). apply (runs_ret WRes) in H as ([] & tr2 & -> & H).
  by apply (runs_ret WRes) in H as [-> <-].
Qed.
Lemma message_submitted m tr r : runs WRes (submitMessage m) tr (Ret r) →
  (tr = [existT (WSubmit m) None] ∧ r = None) ∨ ∃ err, tr = [existT (WSubmit m) (Some err); existT (WNack m) tt] ∧ r = Some err.
Proof.
  intros ([err|] & tr1 & -> & H)%(runs_ret WRes); apply (runs_ret WRes) in H; simpl in H.
  - destruct H as ([] & tr2 & -> & H). apply (runs_ret WRes) in H as [-> <-]. right. by exists err.
  - destruct H as [-> <-]. by left.
Qed.

(** * What a thread may still do *)

Inductive WPhase :=
  | PFree
  | PAdded     (* counted, the loop is not started yet *)
  | PLoop
  | PClosing   (* inside closeOnce *)
  | PEnd.
Definition allowedW (ph : WPhase) (o : WOp) : Prop :=
  match o with
  | WHandler _ | WAck _ | WNack _ | WSubmit _ | WReceive | WDelete _ | WDone => ph = PLoop
  | WCancel _ => ph = PLoop ∨ ph = PClosing
  | WPoolClose => ph = PLoop ∨ ph = PFree
  | WGo _ _ => ph = PAdded
  | WSnapshot | WPubSubClose | WOnceExit => ph = PClosing
  | _ => ph = PFree
  end.
Definition nextW (ph : WPhase) (o : WOp) : WRes o → WPhase :=
  match o return WRes o → WPhase with
  | WAdd => λ _, PAdded
  | WGo _ _ | WDone | WWait => λ _, PEnd
  | WOnceEnter => λ first : bool, if first then PClosing else PFree
  | WOnceExit => λ _, PFree
  | _ => λ _, ph
  end.
(** A loop that ran out of fuel is still running. *)
Definition finalW (ph : WPhase) (_ : option error) : Prop := match ph with PAdded | PClosing => False | _ => True end.
Definition wthread (ph : WPhase) (c : WProg) : Prop := follows WRes allowedW nextW finalW ph c.

Lemma receiveLoop_loops fuel pooled : follows WRes allowedW nextW (λ ph _, ph = PLoop) PLoop (receiveLoop fuel pooled).
Proof.
  induction fuel as [|fuel IH]; [done|]. split; [done|]. intros [| |m]; [done..|]. cbn [nextW].
  eapply (follows_bind WRes _ _ (λ ph _, ph = PLoop)); [|by intros ph ? ->].
  destruct pooled.
  - split; [done|]. intros [err|]; [|done]. by split.
  - by do 2 (split; [done|]; intros ?).
Qed.
Lemma consume_thread_w fuel sub pooled : wthread PLoop (consume fuel sub pooled).
Proof.
  unfold wthread, consume. eapply follows_bind; [apply receiveLoop_loops|]. intros ph [|] ->; [|done].
  split; [by left|]. intros ?. split; [done|]. intros ?. destruct pooled.
  - split; [by left|]. intros ?. split; [done|]. done.
  - split; [done|]. done.
Qed.
Lemma subscribe_free topic hh pooled :
  follows WRes allowedW nextW (λ ph r, match (r : option error) with Some _ => ph = PFree | None => ph = PEnd end) PFree (subscribe topic hh pooled).
Proof.
  unfold subscribe. destruct hh; [|done]. split; [done|]. intros [err|]; [done|]. split; [done|]. intros [err|]; [done|].
  by do 3 (split; [done|]; intros ?).
Qed.
Lemma cancelAll_closing subs : follows WRes allowedW nextW (λ ph _, ph = PClosing) PClosing (cancelAll subs).
Proof. induction subs as [|s subs IH]; [done|]. split; [by right|]. intros ?. exact IH. Qed.
Lemma watermill_method_thread m : wthread PFree (method m).
Proof.
  destruct m as [topic payload|topic hh|topic hh w q|]; unfold wthread.
  - split; [done|]. intros [err|]; [done|]. by split.
  - eapply follows_weaken; [apply (subscribe_free topic hh false)|]. by intros ph [err|] ->.
  - unfold method, SubscribeWithOptions. destruct hh; [|done]. split; [done|]. intros [err|]; [done|]. cbn [nextW].
    destruct (New w q) as [p|err]; [|done]. eapply follows_bind; [apply subscribe_free|]. intros ph [err|] ->; [|done].
    split; [by right|]. by intros ?.
  - split; [done|]. intros first. cbn [nextW].
    eapply (follows_bind WRes _ _ (λ ph _, ph = PFree)); [|intros ph [err|] ->; [done|]; by split].
    destruct first; [|done]. split; [done|]. intros subs. cbn [nextW].
    eapply follows_bind; [apply cancelAll_closing|]. intros ph ? ->. by do 2 (split; [done|]; intros ?).
Qed.

(** * Shutdown *)

Definition startedW (o : WOp) : list WPhase := match o with WGo _ _ => [PLoop] | _ => [] end.
Lemma watermill_starts env fuel o b r b' ps : exec env fuel o b = Some (r, b', ps) → Forall2 wthread (startedW o) ps.
Proof.
  destruct o; cbn [exec]; intros H; repeat (case_match; simplify_eq); simplify_eq; repeat constructor. apply consume_thread_w.
Qed.

Definition countedW (ph : WPhase) : bool := match ph with PAdded | PLoop => true | _ => false end.
Definition wgExact (b : WBus) (phs : list WPhase) : Prop := wb_wg b = countIf countedW phs.
Lemma moves_wg b phs b' phs' : wgExact b phs → moves exec allowedW nextW PFree startedW b phs b' phs' → wgExact b' phs'.
Proof.
  intros Hi Hm. unfold wgExact in *. destruct Hm as [|i ph o r b' env fuel ps Hph Ha He].
  { rewrite countIf_app, countIf_one. simpl. lia. }
  pose proof (countIf_insert countedW phs i ph (nextW ph o r) Hph) as Hc. rewrite countIf_app.
  assert (Hst : countIf countedW (startedW o) = match o with WGo _ _ => 1 | _ => 0 end) by (by destruct o).
  rewrite Hst. destruct o; cbn [exec allowedW nextW] in *; repeat (case_match; simplify_eq); simplify_eq; simpl in *;
    try (destruct Ha as [-> | ->]); subst; simpl in *; lia.
Qed.

(** When a [Close] of the Watermill bus returns nil, no consume loop is running;
    but see [watermill_late_handler]. *)
Theorem watermill_close_nil s i k env fuel st ps : busReachable s → sys_threads s !! i = Some (Call WWait k) →
  exec env fuel WWait (sys_st s) = Some (None, st, ps) →
  ∀ n o k', sys_threads s !! n = Some (Call o k') →
    match o with WReceive | WHandler _ | WAck _ | WNack _ | WSubmit _ | WDelete _ | WDone => False | _ => True end.
Proof.
  intros Hr Hi He. destruct (threads_inv exec method allowedW nextW finalW PFree startedW watermill_method_thread watermill_starts
    wgExact NewEventBus eq_refl moves_wg s Hr) as (phs & Hth & Hw).
  cbn [exec] in He. destruct (env WWait); [done|]. destruct (Nat.eqb_spec (wb_wg (sys_st s)) 0) as [Hz|]; [|done].
  intros n o k' En. destruct (Forall2_lookup_r _ _ _ _ _ Hth En) as (ph & Eph%list_elem_of_lookup_2 & Ha & _).
  unfold wgExact in Hw. pose proof (countIf_pos countedW phs ph Eph) as Hp.
  destruct o; try done; simpl in Ha; subst ph; specialize (Hp eq_refl); lia.
Qed.

Definition demoBroker (o : WOp) : WRes o :=
  match o return WRes o with
  | WHandler _ => HReturn None
  | WReceive => RcMessage (mkMessage 1 "buffered")
  | WSubmit _ | WPoolClose | WCtxErr | WPubSubPublish _ _ | WPubSubSubscribe _ | WPubSubClose | WWait => None
  | WAck _ | WNack _ | WCancel _ | WDelete _ | WDone | WAdd | WGo _ _ | WOnceExit => tt
  | WRegister => 0
  | WOnceEnter => true
  | WSnapshot => []
  end.
Definition runBus (ls : list (Label (R := WRes) (L := WMethod))) := Threads.run exec method ls (mkSys NewEventBus []).
Lemma watermill_runBus_reachable ls s : runBus ls = Some s → busReachable s.
Proof. intros H. by exists ls. Qed.

(** A subscriber that has subscribed to the channel but is not counted yet while
    [Close] runs: its loop starts after [Close] has returned nil, and handles
    the messages the channel had buffered for it. *)
Definition late_run : list (Label (R := WRes) (L := WMethod)) :=
  [LSpawn (MSubscribe "orders" true); LRun 0 demoBroker 3; LRun 0 demoBroker 3; LSpawn MClose] ++ replicate 5 (LRun 1 demoBroker 3) ++
  replicate 3 (LRun 0 demoBroker 3) ++ [LRun 2 demoBroker 3].
Lemma watermill_late_handler : ∃ s m k, runBus late_run = Some s ∧ sys_threads s !! 1 = Some (Ret None) ∧
  sys_threads s !! 2 = Some (Call (WHandler m) k).
Proof.
  assert (match runBus late_run with
    | Some s => match sys_threads s !! 1, sys_threads s !! 2 with Some (Ret None), Some (Call (WHandler _) _) => true | _, _ => false end
    | None => false end = true) as H by (vm_compute; reflexivity).
  destruct (runBus late_run) as [s|] eqn:E; [|discriminate H].
  destruct (sys_threads s !! 1) as [[[err|]|o k]|] eqn:E1; try discriminate H.
  destruct (sys_threads s !! 2) as [[a|o k]|] eqn:E2; try discriminate H. destruct o as [m| | | | | | | | | | | | | | | | | | |]; try discriminate H.
  exists s, m, k. rewrite E1, E2. split; [reflexivity|]. split; reflexivity.
Qed.

(** A closer waits while a loop ends. *)
Definition endingBroker (o : WOp) : WRes o := match o return WRes o with WReceive => RcDone | o => demoBroker o end.
Definition demo_run : list (Label (R := WRes) (L := WMethod)) :=
  [LSpawn (MSubscribe "orders" true)] ++ replicate 5 (LRun 0 demoBroker 3) ++ [LSpawn MClose] ++ replicate 5 (LRun 2 demoBroker 3) ++
  replicate 4 (LRun 1 endingBroker 3).
Lemma watermill_close_nil_witness : ∃ s k, runBus demo_run = Some s ∧ sys_threads s !! 2 = Some (Call WWait k) ∧
  ∀ n o k', sys_threads s !! n = Some (Call o k') →
    match o with WReceive | WHandler _ | WAck _ | WNack _ | WSubmit _ | WDelete _ | WDone => False | _ => True end.
Proof.
  assert (match runBus demo_run with
    | Some s => match sys_threads s !! 2 with Some (Call WWait _) => wb_wg (sys_st s) =? 0 | _ => false end | None => false end = true) as H
    by (vm_compute; reflexivity).
  destruct (runBus demo_run) as [s|] eqn:E; [|discriminate H].
  destruct (sys_threads s !! 2) as [[a|o k]|] eqn:Ei; try discriminate H. destruct o; try discriminate H.
  exists s, k. split; [reflexivity|]. split; [exact Ei|].
  apply (watermill_close_nil s 2 k demoBroker 0 (sys_st s) [] (watermill_runBus_reachable _ _ E) Ei).
  simpl. rewrite H. reflexivity.
Defined.
