(* ===== verification/Receiver.v ===== *)
(** The webhook receiver of the hosted review service
    (src/services/prreview/webhook/webhook.go, receiver/receiver.go): signature
    check, event parsing, and the HTTP handler, as a program over the dedup
    store, the rate limiter and the queue, and the system of concurrent
    handlers.

    HMAC-SHA256, SHA-256 and the JSON decoder are parameters.  Byte strings are
    strings.  Every store and queue call may fail. *)

From Stdlib Require Import Ascii.
From stdpp Require Import base gmap list strings.
From S2P Require Import Prelude Hex Code RateLimit Lease.

(** * Strings *)

(** [strings.CutPrefix]: what follows the prefix, if it is one. *)
Fixpoint cutPrefix (p s : string) : option string :=
  match p, s with
  | EmptyString, _ => Some s
  | String a p, String b s => if Ascii.eqb a b then cutPrefix p s else None
  | String _ _, EmptyString => None
  end.

(** The first [n] bytes. *)
Fixpoint takeBytes (n : N) (s : string) : string :=
  match s with
  | EmptyString => EmptyString
  | String a s => if N.eqb n 0 then EmptyString else String a (takeBytes (N.pred n) s)
  end.

(** * webhook *)

Definition ErrBadSignature : string := "webhook signature mismatch".
Definition ErrIgnore : string := "delivery ignored".

Record ReviewRequest := mkReq {
  rq_InstallationID : Z; rq_Owner : string; rq_Repo : string; rq_PRNumber : Z; rq_HeadSHA : string;
  rq_BaseRef : string; rq_CloneURL : string; rq_DeliveryID : string }.

(** The decoded body of a pull_request event. *)
Record Payload := mkPayload {
  pl_Action : string; pl_InstallationID : Z; pl_RepoName : string; pl_CloneURL : string;
  pl_OwnerLogin : string; pl_Number : Z; pl_HeadSHA : string; pl_BaseRef : string }.

Definition reviewedActions (a : string) : bool :=
  String.eqb a "opened" || String.eqb a "synchronize" || String.eqb a "reopened".

(** * receiver *)

Definition maxBodyBytes : N := N.shiftl 1 20.

(** A request: what its body yields before it ends or fails, and its headers. *)
Record HttpReq := mkHttp {
  hr_Method : string; hr_Data : string; hr_ReadErr : option error;
  hr_Signature : string; hr_Delivery : string; hr_Event : string }.
Record Response := mkResp { rs_Code : Z; rs_Text : string }.

(** [io.ReadAll(io.LimitReader(r.Body, n))]. *)
Definition readLimited (n : N) (r : HttpReq) : string * option error :=
  if N.leb n (N.of_nat (String.length (hr_Data r))) then (takeBytes n (hr_Data r), None)
  else (hr_Data r, hr_ReadErr r).

Inductive ROp :=
| RSeen (key : string)
| RAllow (installationID : Z)
| REnqueue (req : ReviewRequest)
| RForget (key : string).
Definition RRes (o : ROp) : Type :=
  match o with
  | RSeen _ => bool + error
  | RAllow _ => bool
  | REnqueue _ | RForget _ => option error
  end.

Section handler.
Context (hmac : string → string → string) (sha256 : string → string).
Context (unmarshal : string → Payload + error).

Definition VerifySignature (secret body signatureHeader : string) : option error :=
  match cutPrefix "sha256=" signatureHeader with
  | None => Some (Const ErrBadSignature)
  | Some rest =>
    match hexDecode rest with
    | None => Some (Const ErrBadSignature)
    | Some got => if String.eqb (hmac secret body) got then None else Some (Const ErrBadSignature)
    end
  end.

Definition ParsePullRequestEvent (eventType deliveryID body : string) : ReviewRequest + error :=
  if negb (String.eqb eventType "pull_request")
  then inr (Errorf "%w: event %q" [eventType] [Const ErrIgnore])
  else match unmarshal body with
  | inr err => inr (Errorf "parsing pull_request payload: %w" [] [err])
  | inl payload =>
    if negb (reviewedActions (pl_Action payload))
    then inr (Errorf "%w: action %q" [pl_Action payload] [Const ErrIgnore])
    else
      let req := mkReq (pl_InstallationID payload) (pl_OwnerLogin payload) (pl_RepoName payload)
                   (pl_Number payload) (pl_HeadSHA payload) (pl_BaseRef payload) (pl_CloneURL payload) deliveryID in
      if (rq_InstallationID req =? 0)%Z
      then inr (Prelude.New "pull_request payload missing installation id")
      else if String.eqb (rq_Owner req) "" || String.eqb (rq_Repo req) "" || String.eqb (rq_CloneURL req) ""
      then inr (Prelude.New "pull_request payload missing repository identity")
      else if (rq_PRNumber req =? 0)%Z || String.eqb (rq_HeadSHA req) "" || String.eqb (rq_BaseRef req) ""
      then inr (Prelude.New "pull_request payload missing PR identity")
      else inl req
  end.

Definition bodyDedupKey (body : string) : string := hexEncode (sha256 body).

Context (secret : string).

(** The handler after the body is read and verified. *)
Definition serveVerified (r : HttpReq) (body : string) : Code RRes Response :=
  if String.eqb (hr_Delivery r) "" then mret (mkResp 400 "missing delivery id") else
  match ParsePullRequestEvent (hr_Event r) (hr_Delivery r) body with
  | inr err => if error_is ErrIgnore err then mret (mkResp 200 "")
               else mret (mkResp 400 "unparseable delivery")
  | inl req =>
    let dedupKey := bodyDedupKey body in
    seen ← call (RSeen dedupKey);
    match (seen : bool + error) with
    | inr _ => mret (mkResp 500 "dedup unavailable")
    | inl true => mret (mkResp 200 "")
    | inl false =>
      allow ← call (RAllow (rq_InstallationID req));
      if negb (allow : bool) then mret (mkResp 200 "") else
      err ← call (REnqueue req);
      match (err : option error) with
      | Some _ => _ ← call (RForget dedupKey); mret (mkResp 500 "enqueue failed")
      | None => mret (mkResp 202 "")
      end
    end
  end.

Definition ServeHTTP (r : HttpReq) : Code RRes Response :=
  if negb (String.eqb (hr_Method r) "POST") then mret (mkResp 405 "method not allowed") else
  let '(body, err) := readLimited (maxBodyBytes + 1) r in
  match err with
  | Some _ => mret (mkResp 400 "unreadable body")
  | None =>
    if N.ltb maxBodyBytes (N.of_nat (String.length body)) then mret (mkResp 400 "unreadable body") else
    match VerifySignature secret body (hr_Signature r) with
    | Some _ => mret (mkResp 401 "bad signature")
    | None => serveVerified r body
    end
  end.

(** * The system of handlers *)

(** The observable operations, newest first in a trace: which handler, and for
    the dedup store and the limiter the clock they read. *)
Inductive REvent :=
| EvSeen (i : nat) (t : Z) (key : string) (r : bool + error)
| EvAllow (i : nat) (t : Z) (id : Z) (r : bool)
| EvEnqueue (i : nat) (req : ReviewRequest) (r : option error)
| EvForget (i : nat) (key : string) (r : option error).

Record RSys := mkRSys {
  rs_mem : Memory; rs_limiter : Limiter; rs_queue : list ReviewRequest; rs_clock : Z;
  rs_handlers : list (HttpReq * Code RRes Response); rs_trace : list REvent }.

Context (DedupTTL : Z).

(** One operation of handler [i]; [fail] is the error of a failing call. *)
Definition execR (i : nat) (fail : option error) (o : ROp) (s : RSys) : RRes o * RSys :=
  match o with
  | RSeen key =>
    match fail with
    | Some e => (inr e, mkRSys (rs_mem s) (rs_limiter s) (rs_queue s) (rs_clock s) (rs_handlers s)
                          (EvSeen i (rs_clock s) key (inr e) :: rs_trace s))
    | None => let r := Memory_Seen key DedupTTL (rs_clock s) (rs_mem s) in
              (inl r.1, mkRSys r.2 (rs_limiter s) (rs_queue s) (rs_clock s) (rs_handlers s)
                          (EvSeen i (rs_clock s) key (inl r.1) :: rs_trace s))
    end
  | RAllow id =>
    let r := Allow id (rs_clock s) (rs_limiter s) in
    (r.1, mkRSys (rs_mem s) r.2 (rs_queue s) (rs_clock s) (rs_handlers s)
            (EvAllow i (rs_clock s) id r.1 :: rs_trace s))
  | REnqueue req =>
    (fail, mkRSys (rs_mem s) (rs_limiter s)
             (match fail with Some _ => rs_queue s | None => rs_queue s ++ [req] end)
             (rs_clock s) (rs_handlers s) (EvEnqueue i req fail :: rs_trace s))
  | RForget key =>
    (fail, mkRSys (match fail with Some _ => rs_mem s | None => Memory_Forget key (rs_mem s) end)
             (rs_limiter s) (rs_queue s) (rs_clock s) (rs_handlers s) (EvForget i key fail :: rs_trace s))
  end.

Definition setHandlers (hs : list (HttpReq * Code RRes Response)) (s : RSys) : RSys :=
  mkRSys (rs_mem s) (rs_limiter s) (rs_queue s) (rs_clock s) hs (rs_trace s).

(** What may happen next: a request arrives, time passes, a handler makes its
    next call. *)
Inductive RLabel := LArrive (r : HttpReq) | LTime (d : N) | LStep (i : nat) (fail : option error).

Definition rstep (l : RLabel) (s : RSys) : option RSys :=
  match l with
  | LArrive r => Some (setHandlers (rs_handlers s ++ [(r, ServeHTTP r)]) s)
  | LTime d => Some (mkRSys (rs_mem s) (rs_limiter s) (rs_queue s) (rs_clock s + Z.of_N d)%Z
                       (rs_handlers s) (rs_trace s))
  | LStep i fail =>
    match rs_handlers s !! i with
    | Some (r, Call o k) =>
      let x := execR i fail o s in
      Some (setHandlers (<[i := (r, k x.1)]> (rs_handlers s)) x.2)
    | _ => None
    end
  end.

Fixpoint rrun (ls : list RLabel) (s : RSys) : option RSys :=
  match ls with
  | [] => Some s
  | l :: ls => match rstep l s with Some s => rrun ls s | None => None end
  end.

Definition rinit (l : Limiter) (now : Z) : RSys := mkRSys NewMemory l [] now [] [].

(** * What reaches the queue *)

(** A delivery that may become review request [q]. *)
Definition authentic (r : HttpReq) (q : ReviewRequest) : Prop :=
  hr_Method r = "POST" ∧ (N.of_nat (String.length (hr_Data r)) ≤ maxBodyBytes)%N ∧
  (∃ hex, hr_Signature r = "sha256=" +:+ hex ∧ hexDecode hex = Some (hmac secret (hr_Data r))) ∧
  hr_Delivery r ≠ "" ∧ rq_DeliveryID q = hr_Delivery r ∧ hr_Event r = "pull_request" ∧
  (∃ p, unmarshal (hr_Data r) = inl p ∧ reviewedActions (pl_Action p) = true ∧
     rq_InstallationID q = pl_InstallationID p ∧ rq_Owner q = pl_OwnerLogin p ∧ rq_Repo q = pl_RepoName p ∧
     rq_PRNumber q = pl_Number p ∧ rq_HeadSHA q = pl_HeadSHA p ∧ rq_BaseRef q = pl_BaseRef p ∧
     rq_CloneURL q = pl_CloneURL p) ∧
  rq_InstallationID q ≠ 0%Z ∧ rq_PRNumber q ≠ 0%Z ∧
  Forall (λ f, f ≠ "") [rq_Owner q; rq_Repo q; rq_CloneURL q; rq_HeadSHA q; rq_BaseRef q].

Lemma cutPrefix_Some p t rest : cutPrefix p t = Some rest → t = p +:+ rest.
Proof.
  revert t. induction p as [|a p IH]; intros [|b t]; simpl; intros H; try by simplify_eq.
  destruct (Ascii.eqb_spec a b) as [->|]; [|done]. change (String b t = String b (p +:+ rest)). f_equal. auto.
Qed.

Lemma VerifySignature_None body sig : VerifySignature secret body sig = None →
  ∃ hex, sig = "sha256=" +:+ hex ∧ hexDecode hex = Some (hmac secret body).
Proof.
  unfold VerifySignature. intros H. destruct (cutPrefix _ _) as [rest|] eqn:E; [|done].
  apply cutPrefix_Some in E. exists rest. split; [done|].
  destruct (hexDecode rest) as [got|]; [|done]. destruct (String.eqb_spec (hmac secret body) got); by subst.
Qed.

Lemma readLimited_short r body : readLimited (maxBodyBytes + 1) r = (body, None) →
  (maxBodyBytes <? N.of_nat (String.length body))%N = false →
  body = hr_Data r ∧ (N.of_nat (String.length body) ≤ maxBodyBytes)%N.
Proof.
  assert (∀ n t, (n ≤ N.of_nat (String.length t))%N → N.of_nat (String.length (takeBytes n t)) = n) as Htake.
  { intros n t. revert n. induction t as [|a t IH]; intros n Hn; simpl in *; [lia|].
    destruct (N.eqb_spec n 0) as [->|]; [done|]. simpl. specialize (IH (N.pred n)). lia. }
  unfold readLimited. intros H Hlen. apply N.ltb_ge in Hlen.
  destruct (N.leb_spec (maxBodyBytes + 1) (N.of_nat (String.length (hr_Data r)))) as [Hle|_].
  - injection H as <-. rewrite Htake in Hlen by done. lia.
  - by simplify_eq.
Qed.

Lemma ParsePullRequestEvent_inl ev del body q : ParsePullRequestEvent ev del body = inl q →
  ev = "pull_request" ∧ rq_DeliveryID q = del ∧
  (∃ p, unmarshal body = inl p ∧ reviewedActions (pl_Action p) = true ∧
     rq_InstallationID q = pl_InstallationID p ∧ rq_Owner q = pl_OwnerLogin p ∧ rq_Repo q = pl_RepoName p ∧
     rq_PRNumber q = pl_Number p ∧ rq_HeadSHA q = pl_HeadSHA p ∧ rq_BaseRef q = pl_BaseRef p ∧
     rq_CloneURL q = pl_CloneURL p) ∧
  rq_InstallationID q ≠ 0%Z ∧ rq_PRNumber q ≠ 0%Z ∧
  Forall (λ f, f ≠ "") [rq_Owner q; rq_Repo q; rq_CloneURL q; rq_HeadSHA q; rq_BaseRef q].
Proof.
  unfold ParsePullRequestEvent. destruct (String.eqb_spec ev "pull_request") as [->|]; simpl; [|done].
  destruct (unmarshal body) as [p|] eqn:E; [|done]. destruct (reviewedActions _) eqn:Ea; simpl; [|done].
  destruct (Z.eqb_spec (pl_InstallationID p) 0); [done|].
  destruct (String.eqb_spec (pl_OwnerLogin p) ""), (String.eqb_spec (pl_RepoName p) ""),
    (String.eqb_spec (pl_CloneURL p) ""), (Z.eqb_spec (pl_Number p) 0), (String.eqb_spec (pl_HeadSHA p) ""),
    (String.eqb_spec (pl_BaseRef p) ""); simpl; try done.
  intros [= <-]. simpl. split_and!; try done; [by exists p|by repeat constructor].
Qed.

(** ** The handler's protocol *)

Inductive HPhase := HStart | HFresh | HAllowed | HFailed | HQueued | HEnd.

Definition hAllowed (r : HttpReq) (ph : HPhase) (o : ROp) : Prop :=
  match ph, o with
  | HStart, RSeen d => d = bodyDedupKey (hr_Data r) ∧ ∃ q, authentic r q
  | HFresh, RAllow id => ∃ q, authentic r q ∧ id = rq_InstallationID q
  | HAllowed, REnqueue q => authentic r q
  | HFailed, RForget d => d = bodyDedupKey (hr_Data r)
  | _, _ => False
  end.
Definition hNext (ph : HPhase) (o : ROp) : RRes o → HPhase :=
  match o with
  | RSeen _ => λ r, match r with inl false => HFresh | _ => HEnd end
  | RAllow _ => λ r, if r then HAllowed else HEnd
  | REnqueue _ => λ r, match r with None => HQueued | Some _ => HFailed end
  | RForget _ => λ _, HEnd
  end.
Definition hFinal (ph : HPhase) (resp : Response) : Prop :=
  match ph with
  | HQueued => rs_Code resp = 202%Z
  | HStart | HEnd => rs_Code resp ≠ 202%Z
  | _ => False
  end.

Lemma ServeHTTP_follows r : follows RRes (hAllowed r) hNext hFinal HStart (ServeHTTP r).
Proof.
  unfold ServeHTTP. destruct (String.eqb_spec (hr_Method r) "POST") as [Hm|]; simpl; [|done].
  destruct (readLimited _ r) as [body [e|]] eqn:Er; simpl; [done|].
  destruct (N.ltb _ _) eqn:El; simpl; [done|]. destruct (readLimited_short _ _ Er El) as [-> Hlen].
  destruct (VerifySignature _ _ _) eqn:Ev; simpl; [done|]. apply VerifySignature_None in Ev.
  unfold serveVerified. destruct (String.eqb_spec (hr_Delivery r) ""); simpl; [done|].
  destruct (ParsePullRequestEvent _ _ _) as [q|err] eqn:Ep; [|by destruct (error_is _ _)].
  assert (authentic r q) as Hq.
  { apply ParsePullRequestEvent_inl in Ep as (? & ? & ? & ? & ? & ?). by split_and!. }
  split; [split; [done|by exists q]|]. intros [[]|e]; simpl; [done| |done].
  split; [by exists q|]. intros []; simpl; [|done].
  split; [done|]. intros [e|]; simpl; [|done]. by split; [|intros _].
Qed.

(** ** Invariants of the system *)

(** What a handler's phase says about the trace. *)
Definition evidence (i : nat) (r : HttpReq) (ph : HPhase) (tr : list REvent) : Prop :=
  match ph with
  | HFresh => ∃ t, EvSeen i t (bodyDedupKey (hr_Data r)) (inl false) ∈ tr
  | HAllowed | HFailed => ∃ t t' q, EvSeen i t (bodyDedupKey (hr_Data r)) (inl false) ∈ tr ∧
      authentic r q ∧ EvAllow i t' (rq_InstallationID q) true ∈ tr
  | HQueued => ∃ q, EvEnqueue i q None ∈ tr
  | _ => True
  end.

(** The enqueueing of [q] by handler [i] is justified. *)
Definition justified (hs : list (HttpReq * Code RRes Response)) (tr : list REvent) (i : nat)
    (q : ReviewRequest) : Prop :=
  ∃ r c t t', hs !! i = Some (r, c) ∧ authentic r q ∧
    EvSeen i t (bodyDedupKey (hr_Data r)) (inl false) ∈ tr ∧ EvAllow i t' (rq_InstallationID q) true ∈ tr.

(** The requests enqueued according to the trace, oldest first. *)
Definition enqueued (tr : list REvent) : list ReviewRequest :=
  reverse (omap (λ e, match e with EvEnqueue _ q None => Some q | _ => None end) tr).

(** What the trace says is recorded for a key: the expiry. *)
Fixpoint recorded (d : string) (tr : list REvent) : option Z :=
  match tr with
  | [] => None
  | EvSeen _ t d' (inl false) :: tr => if decide (d = d') then Some (t + DedupTTL)%Z else recorded d tr
  | EvForget _ d' None :: tr => if decide (d = d') then None else recorded d tr
  | _ :: tr => recorded d tr
  end.

Definition evTime (e : REvent) : option Z :=
  match e with EvSeen _ t _ _ | EvAllow _ t _ _ => Some t | _ => None end.
Definition before (T : Z) (tr : list REvent) : Prop :=
  Forall (λ e, match evTime e with Some t => (t ≤ T)%Z | None => True end) tr.

(** The dedup store's answers and the order of clock readings. *)
Fixpoint answers_ok (tr : list REvent) : Prop :=
  match tr with
  | [] => True
  | EvSeen _ t d (inl b) :: tr =>
    b = match recorded d tr with Some e => (t <? e)%Z | None => false end ∧ before t tr ∧ answers_ok tr
  | _ :: tr => answers_ok tr
  end.

Record rinv (s : RSys) : Prop := {
  ri_handlers i r c : rs_handlers s !! i = Some (r, c) →
    ∃ ph, follows RRes (hAllowed r) hNext hFinal ph c ∧ evidence i r ph (rs_trace s);
  ri_events i q res : EvEnqueue i q res ∈ rs_trace s → justified (rs_handlers s) (rs_trace s) i q;
  ri_queue : rs_queue s = enqueued (rs_trace s);
  ri_dedup d : m_dedup (rs_mem s) !! d = recorded d (rs_trace s);
  ri_before : before (rs_clock s) (rs_trace s);
  ri_answers : answers_ok (rs_trace s) }.

Lemma evidence_mono i r ph tr tr' : tr ⊆ tr' → evidence i r ph tr → evidence i r ph tr'.
Proof. intros H. destruct ph; simpl; naive_solver. Qed.

Lemma justified_mono hs hs' tr tr' i q :
  (∀ r c, hs !! i = Some (r, c) → ∃ c', hs' !! i = Some (r, c')) → tr ⊆ tr' →
  justified hs tr i q → justified hs' tr' i q.
Proof.
  intros Hh Ht (r & c & t & t' & Hi & Ha & H1 & H2). destruct (Hh _ _ Hi) as [c' Hc'].
  exists r, c', t, t'. auto.
Qed.

Lemma rinv_init l now : rinv (rinit l now).
Proof. split; simpl; try done; [by intros ? ? ? ?%elem_of_nil|by constructor]. Qed.

Lemma before_mono T T' tr : (T ≤ T')%Z → before T tr → before T' tr.
Proof. intros H Hb. eapply Forall_impl; [exact Hb|]. intros e. simpl. destruct (evTime e); [lia|done]. Qed.

(** What one operation does to the parts of the invariant that do not mention
    handlers. *)
Lemma execR_inv i fail o s : rinv s →
  let x := execR i fail o s in
  rs_handlers x.2 = rs_handlers s ∧ rs_clock x.2 = rs_clock s ∧
  rs_queue x.2 = enqueued (rs_trace x.2) ∧ (∀ d, m_dedup (rs_mem x.2) !! d = recorded d (rs_trace x.2)) ∧
  before (rs_clock s) (rs_trace x.2) ∧ answers_ok (rs_trace x.2) ∧ rs_trace s ⊆ rs_trace x.2.
Proof.
  intros [_ _ Hq Hd Hb Ha].
  assert (∀ e, match evTime e with Some t => t = rs_clock s | None => True end →
    before (rs_clock s) (e :: rs_trace s)) as Hb'.
  { intros e He. constructor; [|done]. destruct (evTime e); lia. }
  assert (∀ e, rs_trace s ⊆ e :: rs_trace s) as Hsub by set_solver.
  destruct o as [d|id|q|d]; simpl.
  - destruct fail as [e|]; simpl; [split_and!; try done; by apply Hb'|].
    unfold Memory_Seen. rewrite Hd.
    destruct (recorded d (rs_trace s)) as [e|] eqn:E; [destruct (Z.ltb_spec (rs_clock s) e) as [Hlt|Hge]|]; simpl.
    all: rewrite ?E; split_and!; try done; try (by apply Hb').
    all: try (symmetry; by (apply Z.ltb_lt || apply Z.ltb_ge)).
    all: intros d'; case_decide; [subst; by rewrite lookup_insert_eq|by rewrite lookup_insert_ne].
  - split_and!; try done. by apply Hb'.
  - destruct fail as [e|]; simpl; split_and!; try done; try (by apply Hb').
    unfold enqueued in *. simpl. by rewrite reverse_cons, Hq.
  - destruct fail as [e|]; simpl; split_and!; try done; try (by apply Hb').
    intros d'. case_decide; [subst; by rewrite lookup_delete_eq|by rewrite lookup_delete_ne].
Qed.

(** The acting handler's next phase is backed by the trace, and an enqueueing
    is justified when it happens. *)
Lemma execR_evidence i fail o s r ph : hAllowed r ph o → evidence i r ph (rs_trace s) →
  evidence i r (hNext ph o (execR i fail o s).1) (rs_trace (execR i fail o s).2).
Proof.
  intros Ho He. destruct ph; try done; destruct o as [d|id|q|d]; simpl in *; try done.
  - destruct Ho as [-> _]. destruct fail as [e|]; simpl; [done|].
    destruct (Memory_Seen _ _ _ _).1; simpl; [done|]. eexists. by apply elem_of_cons; left.
  - destruct Ho as (q & Hq & ->), He as [t Ht]. destruct (Allow _ _ _).1 eqn:E; simpl; [|done].
    exists t, (rs_clock s), q. set_solver.
  - destruct fail as [e|]; simpl.
    + destruct He as (t & t' & q' & ? & ? & ?). exists t, t', q'. set_solver.
    + exists q. set_solver.
Qed.

Lemma execR_enqueue i fail o s r c ph j q res : rinv s → rs_handlers s !! i = Some (r, c) →
  hAllowed r ph o → evidence i r ph (rs_trace s) →
  EvEnqueue j q res ∈ rs_trace (execR i fail o s).2 →
  justified (rs_handlers s) (rs_trace (execR i fail o s).2) j q.
Proof.
  intros Hs Hi Ho He Hin. destruct (execR_inv i fail o s Hs) as (_ & _ & _ & _ & _ & _ & Hsub).
  assert (EvEnqueue j q res ∈ rs_trace s ∨ (o = REnqueue q ∧ j = i)) as [Hold|[-> ->]].
  { destruct o; simpl in Hin; try destruct fail; simpl in Hin; apply elem_of_cons in Hin as [Hin|Hin];
      simplify_eq; auto. }
  - eapply justified_mono; [|done|by eapply ri_events]. eauto.
  - destruct ph; try done. simpl in He. destruct He as (t & t' & q' & H1 & H2 & H3).
    assert (rq_InstallationID q' = rq_InstallationID q) as Hid.
    { destruct H2 as (_ & _ & _ & _ & _ & _ & (p & Hp & _ & Hip & _) & _).
      destruct Ho as (_ & _ & _ & _ & _ & _ & (p' & Hp' & _ & Hip' & _) & _). congruence. }
    exists r, c, t, t'. rewrite <-Hid. split_and!; auto.
Qed.

Lemma rstep_inv l s s' : rinv s → rstep l s = Some s' → rinv s'.
Proof.
  intros Hs Hstep. destruct l as [r|d|i fail]; simpl in Hstep.
  - injection Hstep as <-. destruct Hs as [Hh He Hq Hd Hb Ha]. split; simpl; try done.
    + intros i r' c. rewrite lookup_app_Some. intros [?|[Hlen Hi]]; [eauto|].
      apply list_lookup_singleton_Some in Hi as [_ [= <- <-]]. exists HStart. split; [apply ServeHTTP_follows|done].
    + intros i q res Hin. eapply justified_mono; [|done|by eapply He]. intros ? ? Hi. eexists.
      by apply lookup_app_l_Some.
  - injection Hstep as <-. destruct Hs as [Hh He Hq Hd Hb Ha]. split; simpl; try done.
    eapply before_mono; [|done]. lia.
  - destruct (rs_handlers s !! i) as [[r [a|o k]]|] eqn:Hi; simplify_eq.
    destruct (ri_handlers s Hs _ _ _ Hi) as (ph & [Ho Hk] & Hev).
    pose proof (execR_evidence i fail o s r ph Ho Hev) as Hev'.
    pose proof (λ j q res, execR_enqueue i fail o s r _ ph j q res Hs Hi Ho Hev) as Hen.
    destruct (execR_inv i fail o s Hs) as (Hh & Hc & Hq & Hd & Hb & Ha & Hsub).
    assert (∀ j r' c, rs_handlers s !! j = Some (r', c) →
      ∃ c', <[i:=(r, k (execR i fail o s).1)]> (rs_handlers s) !! j = Some (r', c')) as Hup.
    { intros j r' c Hj. destruct (decide (j = i)) as [->|Hne].
      - rewrite Hi in Hj. simplify_eq. eexists. apply list_lookup_insert_eq. by eapply lookup_lt_Some.
      - eexists. by rewrite list_lookup_insert_ne. }
    split; simpl; rewrite ?Hc; try done.
    + intros j r' c Hj. apply list_lookup_insert_Some in Hj as [(<- & [= <- <-] & _)|[Hne Hj]]; [by eauto|].
      destruct (ri_handlers s Hs _ _ _ Hj) as (ph' & ? & ?). exists ph'. split; [done|]. by eapply evidence_mono.
    + intros j q res Hin. eapply justified_mono; [|reflexivity|exact (Hen _ _ _ Hin)]. intros. by eapply Hup.
Qed.

Lemma rrun_inv ls s s' : rinv s → rrun ls s = Some s' → rinv s'.
Proof.
  revert s. induction ls as [|l ls IH]; intros s Hs; simpl; [by intros [= <-]|].
  destruct (rstep l s) as [s1|] eqn:E; [|done]. apply IH. by eapply rstep_inv.
Qed.

End handler.

Section dedup.
Context (DedupTTL : Z).

Lemma answers_tail e tr : answers_ok DedupTTL (e :: tr) → answers_ok DedupTTL tr.
Proof. destruct e as [j t d [b|er]|j t id b|j q r|j d r]; simpl; [by intros (_ & _ & ?)|done..]. Qed.
Lemma answers_split l1 e l2 : answers_ok DedupTTL (l1 ++ e :: l2) → answers_ok DedupTTL (e :: l2).
Proof. induction l1 as [|e' l1 IH]; [done|]. intros H. by apply IH, (answers_tail e'). Qed.

(** Unless forgotten, a record stays at least as long as its delivery's. *)
Lemma recorded_later d l t i tr : answers_ok DedupTTL (l ++ EvSeen i t d (inl false) :: tr) →
  (∀ j, EvForget j d None ∉ l) →
  ∃ e, recorded DedupTTL d (l ++ EvSeen i t d (inl false) :: tr) = Some e ∧ (t + DedupTTL ≤ e)%Z.
Proof.
  induction l as [|e l IH]; intros Ha Hf.
  { simpl. exists (t + DedupTTL)%Z. rewrite decide_True by done. split; [done|lia]. }
  pose proof (answers_tail _ _ Ha) as Ha'.
  destruct (IH Ha') as (e1 & H1 & H2); [intros j; specialize (Hf j); set_solver|].
  destruct e as [j t' d' [[]|er]|j t' id b|j q r|j d' [er|]]; simpl; try by exists e1.
  - case_decide; [subst|by exists e1]. eexists. split; [done|].
    simpl in Ha. destruct Ha as (_ & Hb & _). apply Forall_app in Hb as [_ Hb]. inversion Hb; subst. simpl in *. lia.
  - case_decide; [subst|by exists e1]. specialize (Hf j). set_solver.
Qed.
End dedup.

Definition exPayload : Payload := mkPayload "opened" 7 "repo" "https://x/r.git" "acme" 3 "abc" "main".
(** Two deliveries of the same signed body under different delivery ids, the
    second served after the first was enqueued, and a third whose signature is
    not the body's. *)
Definition exHttp (sig delivery : string) : HttpReq := mkHttp "POST" "body" None sig delivery "pull_request".
Definition exRun : option RSys :=
  rrun (λ s b, s +:+ b) (λ b, b) (λ _, inl exPayload) "k" 100
    [LArrive (exHttp ("sha256=" +:+ hexEncode "kbody") "d1"); LStep 0 None; LStep 0 None; LStep 0 None;
     LTime 99; LArrive (exHttp ("sha256=" +:+ hexEncode "kbody") "d2"); LStep 1 None;
     LArrive (exHttp "sha256=00" "d3")] (rinit (RateLimit.New 5 60) 0).
Example exRun_ok : (λ s, (length (rs_queue s), rs_trace s, (λ h, match h.2 with Ret r => rs_Code r | _ => 0%Z end) <$> rs_handlers s)) <$> exRun =
  Some (1, [EvSeen 1 99 (hexEncode "body") (inl true);
            EvEnqueue 0 (mkReq 7 "acme" "repo" 3 "abc" "main" "https://x/r.git" "d1") None;
            EvAllow 0 0 7 true; EvSeen 0 0 (hexEncode "body") (inl false)], [202%Z; 200%Z; 401%Z]).
Proof. vm_compute. reflexivity. Qed.

(** C16. Whatever deliveries arrive and however their handlers interleave and
    calls fail, every review request in the queue comes from a POST within the
    size limit whose signature header is the HMAC of its body, with a delivery
    id and a complete tenant, repository and pull-request identity decoded from
    that body; its handler found the body's key unrecorded and was granted
    quota for that installation before enqueueing.  A handler that answers 202
    has enqueued its request. *)
Theorem queue_authentic hmac sha256 unmarshal secret ttl l now ls s :
  rrun hmac sha256 unmarshal secret ttl ls (rinit l now) = Some s →
  (∀ q, q ∈ rs_queue s → ∃ i r c t t', rs_handlers s !! i = Some (r, c) ∧
     authentic hmac unmarshal secret r q ∧
     EvSeen i t (bodyDedupKey sha256 (hr_Data r)) (inl false) ∈ rs_trace s ∧
     EvAllow i t' (rq_InstallationID q) true ∈ rs_trace s) ∧
  (∀ i r resp, rs_handlers s !! i = Some (r, Ret resp) →
     (rs_Code resp = 202%Z → ∃ q, q ∈ rs_queue s ∧ authentic hmac unmarshal secret r q)).
Proof.
  intros Hrun. apply rrun_inv in Hrun; [|apply rinv_init]. split.
  - intros q. rewrite (ri_queue _ _ _ _ _ _ Hrun). unfold enqueued. rewrite elem_of_reverse.
    intros (e & He & Hq)%list_elem_of_omap. destruct e as [| |i q' [|]|]; simplify_eq.
    destruct (ri_events _ _ _ _ _ _ Hrun _ _ _ He) as (r & c & t & t' & H). by exists i, r, c, t, t'.
  - intros i r resp Hi Hcode. destruct (ri_handlers _ _ _ _ _ _ Hrun _ _ _ Hi) as (ph & Hf & He).
    destruct ph; simpl in Hf; try done. destruct He as [q Hq]. exists q. split.
    + rewrite (ri_queue _ _ _ _ _ _ Hrun). unfold enqueued. rewrite elem_of_reverse, list_elem_of_omap. by eexists.
    + destruct (ri_events _ _ _ _ _ _ Hrun _ _ _ Hq) as (r' & c & t & t' & Hi' & Ha & _). by simplify_eq.
Qed.

(** A signed body cannot be replayed: once a delivery of a body was taken
    as new, every later delivery of the same body whose check runs within the
    dedup lifetime is told it is a duplicate, under any delivery id and any
    interleaving of handlers, unless a handler whose enqueueing failed has
    removed the record in between. *)
Theorem replay_suppressed hmac sha256 unmarshal secret ttl l now ls s l1 i2 t2 d b l2 i1 t1 l3 :
  rrun hmac sha256 unmarshal secret ttl ls (rinit l now) = Some s →
  rs_trace s = l1 ++ EvSeen i2 t2 d (inl b) :: l2 ++ EvSeen i1 t1 d (inl false) :: l3 →
  (t2 < t1 + ttl)%Z →
  (∀ j, EvForget j d None ∉ l2) →
  b = true.
Proof.
  intros Hrun Htr Ht Hf. apply rrun_inv in Hrun; [|apply rinv_init].
  pose proof (ri_answers _ _ _ _ _ _ Hrun) as Ha. rewrite Htr in Ha. apply answers_split in Ha.
  destruct Ha as (Hb & _ & Ha).
  edestruct recorded_later as (e & He & Hle); [exact Ha|exact Hf|]. rewrite Hb, He. apply Z.ltb_lt. lia.
Qed.

Lemma queue_authentic_witness :
  ∃ q i r c t t', rs_queue (default (rinit (RateLimit.New 5 60) 0) exRun) = [q] ∧
    rs_handlers (default (rinit (RateLimit.New 5 60) 0) exRun) !! i = Some (r, c) ∧
    authentic (λ s b, s +:+ b) (λ _, inl exPayload) "k" r q ∧
    EvSeen i t (bodyDedupKey (λ b, b) (hr_Data r)) (inl false)
      ∈ rs_trace (default (rinit (RateLimit.New 5 60) 0) exRun) ∧
    EvAllow i t' (rq_InstallationID q) true ∈ rs_trace (default (rinit (RateLimit.New 5 60) 0) exRun).
Proof.
  destruct exRun as [s|] eqn:E; [|by vm_compute in E].
  assert (rs_queue s = [mkReq 7 "acme" "repo" 3 "abc" "main" "https://x/r.git" "d1"]) as Hq.
  { vm_compute in E. by injection E as <-. }
  unfold exRun in E. destruct (queue_authentic _ _ _ _ _ _ _ _ _ E) as [H _].
  destruct (H (mkReq 7 "acme" "repo" 3 "abc" "main" "https://x/r.git" "d1")) as (i & r & c & t & t' & H').
  { rewrite Hq. by apply list_elem_of_singleton. }
  simpl. by exists (mkReq 7 "acme" "repo" 3 "abc" "main" "https://x/r.git" "d1"), i, r, c, t, t'.
Defined.

Lemma replay_suppressed_witness :
  ∃ b, rs_trace <$> exRun = Some ([] ++ EvSeen 1 99 (hexEncode "body") (inl b) ::
    [EvEnqueue 0 (mkReq 7 "acme" "repo" 3 "abc" "main" "https://x/r.git" "d1") None; EvAllow 0 0 7 true]
    ++ EvSeen 0 0 (hexEncode "body") (inl false) :: []) ∧ b = true.
Proof.
  exists true. split; [vm_compute; reflexivity|]. destruct exRun as [s|] eqn:E; [|by vm_compute in E].
  apply (replay_suppressed (λ s b, s +:+ b) (λ b, b) (λ _, inl exPayload) "k" 100 (RateLimit.New 5 60) 0
    [LArrive (exHttp ("sha256=" +:+ hexEncode "kbody") "d1"); LStep 0 None; LStep 0 None; LStep 0 None;
     LTime 99; LArrive (exHttp ("sha256=" +:+ hexEncode "kbody") "d2"); LStep 1 None;
     LArrive (exHttp "sha256=00" "d3")] s [] 1 99 (hexEncode "body") true
    [EvEnqueue 0 (mkReq 7 "acme" "repo" 3 "abc" "main" "https://x/r.git" "d1") None; EvAllow 0 0 7 true] 0 0 []).
  - exact E.
  - vm_compute in E. by injection E as <-.
  - lia.
  - intros j H. repeat (apply elem_of_cons in H as [H|H]; [done|]). by apply elem_of_nil in H.
Defined.
