(* ===== verification/PRComment.v ===== *)
(** The text of the hosted review's pull-request comment
    (src/services/prreview/worker/worker.go: [ComposeComment] and the functions
    that neutralise untrusted text).  Strings are bytes; [\S] of Go's regexp
    syntax is any byte but tab, newline, form feed, carriage return and space
    (every byte of a multi-byte rune is such a byte). *)

From Stdlib Require Import Ascii.
From stdpp Require Import base sets list strings.
From S2P Require Import Prelude Provenance.

Definition bytes : Type := list ascii.
Definition toBytes : string → bytes := String.list_ascii_of_string.
Definition ofBytes : bytes → string := String.string_of_list_ascii.

(** U+200B in UTF-8. *)
Definition zwsp : bytes := [ascii_of_N 226; ascii_of_N 128; ascii_of_N 139].

(** [strings.ReplaceAll(s, c, r)] for a one-byte [c]. *)
Definition ReplaceAll1 (c : ascii) (r : bytes) (l : bytes) : bytes :=
  l ≫= λ a, if Ascii.eqb a c then r else [a].

Definition shortSHA (sha : string) : string :=
  if decide (10 < String.length sha) then String.substring 0 10 sha else sha.

Definition escapeUntrusted (s : string) : string :=
  ofBytes (ReplaceAll1 "`" ("`"%char :: zwsp) (toBytes s)).

Definition isSpace (a : ascii) : bool :=
  byte_is 9 a || byte_is 10 a || byte_is 12 a || byte_is 13 a || byte_is 32 a.

(** The longest prefix of non-space bytes, and what follows it. *)
Fixpoint spanNonSpace (l : bytes) : bytes * bytes :=
  match l with
  | [] => ([], [])
  | a :: t => if isSpace a then ([], l) else let p := spanNonSpace t in (a :: p.1, p.2)
  end.

(** Strip a literal prefix. *)
Fixpoint stripPrefix (p l : bytes) : option bytes :=
  match p, l with
  | [], _ => Some l
  | a :: p, b :: l => if Ascii.eqb a b then stripPrefix p l else None
  | _ :: _, [] => None
  end.

(** A literal followed by [\S+], anchored at the front: the match, the rest. *)
Definition matchThenNonSpace (p l : bytes) : option (bytes * bytes) :=
  match stripPrefix p l with
  | Some t => let s := spanNonSpace t in
              match s.1 with [] => None | _ => Some (p ++ s.1, s.2) end
  | None => None
  end.
(** [rawLinkPattern], [https?://\S+], anchored at the front. *)
Definition matchLink (l : bytes) : option (bytes * bytes) :=
  match matchThenNonSpace (toBytes "https://") l with
  | Some r => Some r
  | None => matchThenNonSpace (toBytes "http://") l
  end.

(** [ReplaceAllStringFunc] with the back-quoting callback; the fuel bounds the
    number of scan positions. *)
Fixpoint quoteLinks (fuel : nat) (l : bytes) : bytes :=
  match fuel with
  | 0 => l
  | S fuel =>
    match matchLink l with
    | Some (u, rest) => "`"%char :: u ++ "`"%char :: quoteLinks fuel rest
    | None => match l with [] => [] | a :: t => a :: quoteLinks fuel t end
    end
  end.

Definition sanitizeCommentary (s : string) : string :=
  let s := ReplaceAll1 "@" ("@"%char :: zwsp) (toBytes s) in
  ofBytes (quoteLinks (length s) s).

Definition nl : string := String (ascii_of_N 10) EmptyString.

Definition resultRow (r : VerificationResult) : string :=
  "| " +:+ vr_Name r +:+ " | " +:+ vr_Category r +:+ " | " +:+ vr_Status r +:+ " |" +:+ nl.
Definition isFail (r : VerificationResult) : bool := String.eqb (vr_Status r) StatusFail.
Definition failureDetails (r : VerificationResult) : string :=
  let detail := if String.eqb (vr_Message r) "" then vr_Reason r else vr_Message r in
  "<details><summary>" +:+ escapeUntrusted (vr_Name r) +:+ "</summary>" +:+ nl +:+ nl +:+ "```" +:+ nl
  +:+ escapeUntrusted detail +:+ nl +:+ "```" +:+ nl +:+ "</details>" +:+ nl +:+ nl.

Definition concatS : list string → string := foldr String.append "".

Definition ComposeComment (sha : string) (results : list VerificationResult) (commentary : string) : string :=
  "## Modulex PR review — `" +:+ shortSHA sha +:+ "`" +:+ nl +:+ nl
  +:+ "| Check | Category | Status |" +:+ nl +:+ "|---|---|---|" +:+ nl
  +:+ concatS (resultRow <$> results)
  +:+ nl
  +:+ (if existsb isFail results
       then "**Some checks failed.** Details:" +:+ nl +:+ nl
            +:+ concatS (failureDetails <$> List.filter isFail results)
       else "")
  +:+ (if String.eqb commentary "" then ""
       else "### AI commentary" +:+ nl +:+ nl +:+ sanitizeCommentary commentary +:+ nl +:+ nl)
  +:+ "<sub>modulex hosted PR review (ADR-0035); this comment is updated in place on new pushes.</sub>" +:+ nl.

(** * Neutralised text *)

(** Every occurrence of [c] is directly followed by a zero-width space. *)
Fixpoint guarded (c : ascii) (l : bytes) : Prop :=
  match l with
  | [] => True
  | a :: t => (a = c → zwsp `prefix_of` t) ∧ guarded c t
  end.

Lemma guarded_app c l k : guarded c l → guarded c k → guarded c (l ++ k).
Proof.
  intros Hl Hk. induction l as [|a l IH]; simpl; [done|]. destruct Hl as [Ha Hl]. split; [|auto].
  intros ->. by apply prefix_app_r, Ha.
Qed.

Lemma guarded_ReplaceAll c l : c ∉ zwsp → guarded c (ReplaceAll1 c (c :: zwsp) l).
Proof.
  intros Hc. induction l as [|a l IH]; [done|]. unfold ReplaceAll1. simpl.
  destruct (Ascii.eqb_spec a c) as [->|Hne].
  - change (guarded c ((c :: zwsp) ++ ReplaceAll1 c (c :: zwsp) l)). apply guarded_app; [|done].
    unfold zwsp in *. simpl. set_solver.
  - change (guarded c ([a] ++ ReplaceAll1 c (c :: zwsp) l)). apply guarded_app; [|done]. simpl. done.
Qed.

Lemma spanNonSpace_spec l :
  l = (spanNonSpace l).1 ++ (spanNonSpace l).2 ∧ Forall (λ a, isSpace a = false) (spanNonSpace l).1 ∧
  match (spanNonSpace l).2 with a :: _ => isSpace a = true | [] => True end.
Proof.
  induction l as [|a l (IH1 & IH2 & IH3)]; simpl; [done|]. destruct (isSpace a) eqn:E; simpl; [done|].
  split_and!; [by f_equal|by constructor|done].
Qed.

Lemma stripPrefix_Some p l t : stripPrefix p l = Some t → l = p ++ t.
Proof.
  revert l. induction p as [|a p IH]; intros [|b l]; simpl; intros H; try by simplify_eq.
  destruct (Ascii.eqb_spec a b) as [->|]; [|done]. f_equal. auto.
Qed.

Lemma matchThenNonSpace_Some p l u rest :
  Forall (λ a, isSpace a = false) p → 0 < length p → matchThenNonSpace p l = Some (u, rest) →
  l = u ++ rest ∧ 0 < length u ∧ match rest with a :: _ => isSpace a = true | [] => True end.
Proof.
  intros Hp Hlen H. unfold matchThenNonSpace in H. destruct (stripPrefix p l) as [t|] eqn:E; [|done].
  apply stripPrefix_Some in E. destruct (spanNonSpace_spec t) as (H1 & H2 & H3).
  destruct (spanNonSpace t).1 as [|b v] eqn:Ev; [done|]. simplify_eq.
  split_and!; [by rewrite <-app_assoc, <-H1|rewrite length_app; lia|done].
Qed.

Lemma matchLink_Some l u rest : matchLink l = Some (u, rest) →
  l = u ++ rest ∧ 0 < length u ∧ match rest with a :: _ => isSpace a = true | [] => True end.
Proof.
  unfold matchLink. destruct (matchThenNonSpace (toBytes "https://") l) eqn:E.
  - intros [= ->]. eapply matchThenNonSpace_Some, E; [by repeat constructor|simpl; lia].
  - apply matchThenNonSpace_Some; [by repeat constructor|simpl; lia].
Qed.

(** A guard never straddles the end of a run of non-space bytes. *)
Lemma guarded_split c u rest : guarded c (u ++ rest) →
  match rest with a :: _ => isSpace a = true | [] => True end → guarded c u ∧ guarded c rest.
Proof.
  intros H Hr. induction u as [|a u IH]; simpl in *; [done|]. destruct H as [Ha Hu].
  destruct (IH Hu) as [IHu IHr]. split_and!; [|done|done].
  intros Hc. specialize (Ha Hc). destruct Ha as [k Hk]. unfold zwsp in *.
  destruct u as [|x [|y [|z u]]]; simpl in Hk; [..|simplify_eq; by exists u].
  all: destruct rest as [|r rest]; simplify_eq; vm_compute in Hr; done.
Qed.

Lemma quoteLinks_zwsp fuel l : 3 ≤ fuel → zwsp `prefix_of` l → zwsp `prefix_of` quoteLinks fuel l.
Proof. intros Hf [k ->]. destruct fuel as [|[|[|f]]]; try lia. simpl. by eexists. Qed.

Lemma quoteLinks_guarded c fuel l : c ≠ "`"%char → length l ≤ fuel → guarded c l → guarded c (quoteLinks fuel l).
Proof.
  intros Hc. revert l. induction fuel as [|fuel IH]; intros l Hf H; [done|]. simpl.
  destruct (matchLink l) as [[u rest]|] eqn:E.
  - apply matchLink_Some in E as (-> & Hlen & Hr). rewrite length_app in Hf.
    destruct (guarded_split _ _ _ H Hr) as [Hu Hrest]. split; [by intros <-|].
    apply guarded_app; [done|]. simpl. split; [by intros <-|]. apply IH; [lia|done].
  - destruct l as [|a t]; [done|]. destruct H as [Ha Ht]. simpl in *. split; [|apply IH; [lia|done]].
    intros Hac. specialize (Ha Hac). apply quoteLinks_zwsp; [|done].
    apply prefix_length in Ha. simpl in Ha. lia.
Qed.

(** Text a pull-request author can influence is neutralised before it is
    posted under the bot's identity: in every escaped check message each back
    quote, and in every sanitised commentary each at-sign, is directly followed
    by a zero-width space, so no code fence can be closed and no account can be
    mentioned. *)
Theorem comment_neutralised : ∀ s,
  guarded "`" (toBytes (escapeUntrusted s)) ∧ guarded "@" (toBytes (sanitizeCommentary s)).
Proof.
  intros s. unfold escapeUntrusted, sanitizeCommentary, toBytes, ofBytes.
  rewrite !String.list_ascii_of_string_of_list_ascii. split.
  - apply guarded_ReplaceAll. vm_compute. intros H. repeat (apply elem_of_cons in H as [?|H]; [done|]).
    by apply elem_of_nil in H.
  - apply quoteLinks_guarded; [done|done|]. apply guarded_ReplaceAll. vm_compute. intros H.
    repeat (apply elem_of_cons in H as [?|H]; [done|]). by apply elem_of_nil in H.
Qed.

(** The link defence is weaker than the mention defence: the commentary's own
    back quotes are kept, so one inside a URL ends the code span early and
    leaves the second URL outside of any span. *)
Lemma link_quoting_escaped :
  sanitizeCommentary "see http://a`http://b" = "see `http://a`http://b`".
Proof. reflexivity. Qed.

Example ComposeComment_ex :
  ComposeComment "abc" [] "" =
  "## Modulex PR review — `abc`" +:+ nl +:+ nl +:+ "| Check | Category | Status |" +:+ nl +:+ "|---|---|---|"
  +:+ nl +:+ nl +:+ "<sub>modulex hosted PR review (ADR-0035); this comment is updated in place on new pushes.</sub>"
  +:+ nl.
Proof. reflexivity. Qed.
