(* ===== verification/PRWorker.v ===== *)
(** The hosted review worker (src/services/prreview/worker/worker.go): [Handle]
    and everything it calls, as a program of atomic operations, and the system
    of many workers over one job store.

    An operation is a call on one of the worker's interfaces: a transaction or
    read of the job store, or a remote call whose answer is not determined by
    the model (token minting, GitHub, checkout, engine, AI, ledger, queue).
    Logging is left out.  A transaction reads the clock inside its callback,
    as the code does. *)

From stdpp Require Import base gmap list strings pretty.
From S2P Require Import Prelude Provenance PRComment Code Lease Receiver.

(** * Operations *)

Record AIConfig := mkAIConfig { ac_Provider : string; ac_APIKey : string; ac_Model : string; ac_BaseURL : string }.
Definition Enabled (c : AIConfig) : bool :=
  negb (String.eqb (ac_APIKey c) "") || negb (String.eqb (ac_BaseURL c) "").

(** The callbacks [Handle] passes to [JobStore.Mutate]. *)
Inductive Mutation :=
| MAcquire (headSHA owner : string)
| MReanchor (owner head : string)
| MPersistComment (commentID : Z)
| MComplete (reviewedSHA : string) (tokensUsed : Z) (owner : string)
| MRelease (owner : string).

(** What a callback assigns to a captured variable. *)
Definition mutRes (m : Mutation) : Type :=
  match m with
  | MAcquire _ _ => AcquireAction
  | MComplete _ _ _ => CompleteOutcome
  | _ => unit
  end.

Definition applyMutation (leaseTTL now : Z) (m : Mutation) : Job → Job * mutRes m :=
  match m with
  | MAcquire headSHA owner => λ j, AcquireDecision j now headSHA leaseTTL owner
  | MReanchor owner head => λ j, (if String.eqb (j_LeaseOwner j) owner then set_target head j else j, tt)
  | MPersistComment commentID => λ j, (if (j_CommentID j =? 0)%Z then set_comment commentID j else j, tt)
  | MComplete reviewedSHA tokensUsed owner => λ j, CompleteDecision j reviewedSHA tokensUsed owner
  | MRelease owner => λ j, (ReleaseDecision j owner, tt)
  end.

Inductive Op :=
| OMutate (key : JobKey) (m : Mutation)
| OGet (key : JobKey)
| OInstallationToken (installationID : Z) (owner repo : string)
| OPRHead (token owner repo : string) (prNumber : Z)
| OFetch (cloneURL token baseRef headSHA : string)
| OCleanup (dir : string)
| OReview (dir baseRef head : string)
| OAIConfig (installationID : Z)
| ODiff (dir baseRef head : string)
| OComment (cfg : AIConfig) (results : list VerificationResult) (diff : string)
| OUpdateComment (token owner repo : string) (commentID : Z) (body : string)
| OCreateComment (token owner repo : string) (prNumber : Z) (body : string)
| OLedgerAdd (installationID reviews tokens : Z)
| OEnqueue (req : ReviewRequest).

Definition Res (o : Op) : Type :=
  match o with
  | OMutate _ m => Job * mutRes m + error
  | OGet _ => Job + error
  | OInstallationToken _ _ _ | OPRHead _ _ _ _ | OFetch _ _ _ _ => string + error
  | OCleanup _ => unit
  | OReview _ _ _ => list VerificationResult + error
  | OAIConfig _ => AIConfig + error
  | ODiff _ _ _ => string * option error
  | OComment _ _ _ => string * Z * option error
  | OCreateComment _ _ _ _ _ => Z + error
  | OUpdateComment _ _ _ _ _ | OLedgerAdd _ _ _ | OEnqueue _ => option error
  end.

(** [engine.BaseRefName] (engine/engine.go). *)
Definition BaseRefName : string := "prreview-base".

Definition keyOf (req : ReviewRequest) : JobKey :=
  mkJobKey (rq_InstallationID req) (rq_Owner req) (rq_Repo req) (rq_PRNumber req).
Definition JobKey_String (k : JobKey) : string :=
  pretty (k_InstallationID k) +:+ "/" +:+ k_Owner k +:+ "/" +:+ k_Repo k +:+ "/" +:+ pretty (k_PRNumber k).

(** [fmt.Errorf] with one wrapped error. *)
Definition wrapErr (fmt : string) (args : list string) (e : error) : error := Errorf fmt args [e].

(** * The worker *)

Section worker.
(** [w.PRs] is optional. *)
Context (hasPRs : bool).
Context (key : JobKey) (req : ReviewRequest) (owner : string).

Definition releaseLease : Code Res unit := _ ← call (OMutate key (MRelease owner)); mret tt.

Definition reanchorTarget (token reviewedSHA : string) : Code Res (string * option error) :=
  if negb hasPRs then mret (reviewedSHA, None) else
  r ← call (OPRHead token (rq_Owner req) (rq_Repo req) (rq_PRNumber req));
  match (r : string + error) with
  | inr _ => mret (reviewedSHA, None)
  | inl head =>
    if String.eqb head reviewedSHA then mret (reviewedSHA, None) else
    r ← call (OMutate key (MReanchor owner head));
    match (r : Job * unit + error) with
    | inr err => mret (head, Some (wrapErr "re-anchoring target for %s: %w" [JobKey_String key] err))
    | inl _ => mret (head, None)
    end
  end.

Definition aiCommentary (dir : string) (results : list VerificationResult) : Code Res (string * Z) :=
  r ← call (OAIConfig (rq_InstallationID req));
  match (r : AIConfig + error) with
  | inr _ => mret ("", 0%Z)
  | inl cfg =>
    if negb (Enabled cfg) then mret ("", 0%Z) else
    d ← call (ODiff dir BaseRefName "HEAD");
    c ← call (OComment cfg results (fst (d : string * option error)));
    let '(commentary, tokensUsed, err) := (c : string * Z * option error) in
    match err with
    | Some _ => mret ("", tokensUsed)
    | None => mret (commentary, tokensUsed)
    end
  end.

Definition postComment (token reviewedSHA : string) (results : list VerificationResult) (commentary : string)
    : Code Res (option error) :=
  r ← call (OGet key);
  match (r : Job + error) with
  | inr err => mret (Some (wrapErr "re-reading job before post: %w" [] err))
  | inl current =>
    if negb (String.eqb (j_TargetSHA current) reviewedSHA) || negb (String.eqb (j_LeaseOwner current) owner)
    then mret None else
    let body := ComposeComment reviewedSHA results commentary in
    if negb (j_CommentID current =? 0)%Z then
      r ← call (OUpdateComment token (rq_Owner req) (rq_Repo req) (j_CommentID current) body);
      match (r : option error) with
      | Some err => mret (Some (wrapErr "updating comment: %w" [] err))
      | None => mret None
      end
    else
      r ← call (OCreateComment token (rq_Owner req) (rq_Repo req) (rq_PRNumber req) body);
      match (r : Z + error) with
      | inr err => mret (Some (wrapErr "creating comment: %w" [] err))
      | inl commentID =>
        r ← call (OMutate key (MPersistComment commentID));
        match (r : Job * unit + error) with
        | inr err => mret (Some (wrapErr "persisting comment id for %s: %w" [JobKey_String key] err))
        | inl _ => mret None
        end
      end
  end.

Definition followUp (sha : string) : ReviewRequest :=
  mkReq (rq_InstallationID req) (rq_Owner req) (rq_Repo req) (rq_PRNumber req) sha (rq_BaseRef req)
    (rq_CloneURL req) (rq_DeliveryID req +:+ "+followup").

Definition complete (reviewedSHA : string) (tokensUsed : Z) : Code Res (option error) :=
  r ← call (OMutate key (MComplete reviewedSHA tokensUsed owner));
  match (r : Job * CompleteOutcome + error) with
  | inr err => mret (Some (wrapErr "completing job %s: %w" [JobKey_String key] err))
  | inl (_, outcome) =>
    (if co_Post outcome
     then _ ← call (OLedgerAdd (rq_InstallationID req) 1 tokensUsed); mret tt
     else mret tt) ;;
    if co_FollowUp outcome then
      r ← call (OEnqueue (followUp (co_FollowUpSHA outcome)));
      match (r : option error) with
      | Some err => mret (Some (wrapErr "enqueueing follow-up for %s: %w" [JobKey_String key] err))
      | None => mret None
      end
    else mret None
  end.

(** The deferred [cleanup()] runs when [reviewOnce] returns, on every path
    after a successful fetch. *)
Definition deferCleanup (dir : string) (body : Code Res (option error)) : Code Res (option error) :=
  r ← body; _ ← call (OCleanup dir); mret r.

Definition reviewOnce (reviewedSHA : string) : Code Res (option error) :=
  t ← call (OInstallationToken (rq_InstallationID req) (rq_Owner req) (rq_Repo req));
  match (t : string + error) with
  | inr err => mret (Some (wrapErr "minting installation token: %w" [] err))
  | inl token =>
    a ← reanchorTarget token reviewedSHA;
    match a with
    | (_, Some err) => mret (Some err)
    | (reviewedSHA, None) =>
      f ← call (OFetch (rq_CloneURL req) token (rq_BaseRef req) reviewedSHA);
      match (f : string + error) with
      | inr err => mret (Some (wrapErr "fetching checkout: %w" [] err))
      | inl dir =>
        deferCleanup dir (
          v ← call (OReview dir BaseRefName "HEAD");
          match (v : list VerificationResult + error) with
          | inr err => mret (Some (wrapErr "running engine: %w" [] err))
          | inl results =>
            c ← aiCommentary dir results;
            p ← postComment token reviewedSHA results (fst c);
            match p with
            | Some err => mret (Some err)
            | None => complete reviewedSHA (snd c)
            end
          end)
      end
    end
  end.
End worker.

Definition Handle (hasPRs : bool) (owner : string) (req : ReviewRequest) : Code Res (option error) :=
  let key := keyOf req in
  r ← call (OMutate key (MAcquire (rq_HeadSHA req) owner));
  match (r : Job * AcquireAction + error) with
  | inr err => mret (Some (wrapErr "acquiring lease for %s: %w" [JobKey_String key] err))
  | inl (_, ActionSkip) => mret None
  | inl (job, ActionRun) =>
    e ← reviewOnce hasPRs key req owner (j_TargetSHA job);
    match e with
    | Some err => releaseLease key owner ;; mret (Some err)
    | None => mret None
    end
  end.

(** * Many workers over one store *)

(** What is observed of an operation, newest first in a trace. *)
Inductive Event :=
| EvRead (owner : string) (key : JobKey) (j : Job)
| EvPost (owner body : string)
| EvComplete (owner : string) (key : JobKey) (tokens : Z) (outcome : CompleteOutcome)
| EvLedger (owner : string) (installationID reviews tokens : Z)
| EvUnreleased (owner : string) (key : JobKey).

Definition events (owner : string) (o : Op) : Res o → list Event :=
  match o with
  | OMutate key m =>
    match m return (Job * mutRes m + error → list Event) with
    | MComplete _ tok _ => λ r, match r with inl x => [EvComplete owner key tok x.2] | inr _ => [] end
    | MRelease _ => λ r, match r with inl _ => [] | inr _ => [EvUnreleased owner key] end
    | _ => λ _, []
    end
  | OGet key => λ r, match r with inl j => [EvRead owner key j] | inr _ => [] end
  | OUpdateComment _ _ _ _ body | OCreateComment _ _ _ _ body => λ _, [EvPost owner body]
  | OLedgerAdd id n tok => λ _, [EvLedger owner id n tok]
  | _ => λ _, []
  end.

Record Thread := mkThread { th_owner : string; th_req : ReviewRequest; th_code : Code Res (option error) }.
Definition th_key (t : Thread) : JobKey := keyOf (th_req t).

Section system.
Context {St : Type} `{JobStore St} (hasPRs : bool) (LeaseTTL : Z).

Record Sys := mkSys {
  sy_store : St; sy_clock : Z; sy_queue : list ReviewRequest; sy_threads : list Thread;
  sy_owners : list string; sy_trace : list Event }.

(** One operation; [env] answers the calls that leave the model. *)
Definition exec (env : ∀ o, Res o) (o : Op) (s : Sys) : Res o * St * list ReviewRequest :=
  match o return Res o * St * list ReviewRequest with
  | OMutate key m =>
    let x := Mutate key (applyMutation LeaseTTL (sy_clock s) m) (sy_store s) in (x.1, x.2, sy_queue s)
  | OGet key => let x := Get key (sy_store s) in (x.1, x.2, sy_queue s)
  | OEnqueue req =>
    let r := env (OEnqueue req) in
    (r, sy_store s, match (r : option error) with Some _ => sy_queue s | None => sy_queue s ++ [req] end)
  | o => (env o, sy_store s, sy_queue s)
  end.

(** What may happen next: a delivery starts a worker, the queue starts one for
    an enqueued follow-up, or again for one that failed; time passes; a worker
    makes its next call.  Fencing tokens are non-empty and never reused. *)
Inductive Label :=
| LSpawn (req : ReviewRequest) (owner : string)
| LDeliver (n : nat) (owner : string)
| LRetry (i : nat) (owner : string)
| LTick (d : N)
| LRun (i : nat) (env : ∀ o, Res o).

Definition fresh (owner : string) (s : Sys) : bool :=
  negb (String.eqb owner "") && negb (existsb (String.eqb owner) (sy_owners s)).

Definition newThread (req : ReviewRequest) (owner : string) : Thread :=
  mkThread owner req (Handle hasPRs owner req).

Definition step (l : Label) (s : Sys) : option Sys :=
  match l with
  | LSpawn req owner =>
    if fresh owner s
    then Some (mkSys (sy_store s) (sy_clock s) (sy_queue s) (sy_threads s ++ [newThread req owner])
                 (owner :: sy_owners s) (sy_trace s))
    else None
  | LDeliver n owner =>
    match sy_queue s !! n with
    | Some req =>
      if fresh owner s
      then Some (mkSys (sy_store s) (sy_clock s) (delete n (sy_queue s)) (sy_threads s ++ [newThread req owner])
                   (owner :: sy_owners s) (sy_trace s))
      else None
    | None => None
    end
  | LRetry i owner =>
    match sy_threads s !! i with
    | Some (mkThread _ req (Ret (Some _))) =>
      if fresh owner s
      then Some (mkSys (sy_store s) (sy_clock s) (sy_queue s) (<[i := newThread req owner]> (sy_threads s))
                   (owner :: sy_owners s) (sy_trace s))
      else None
    | _ => None
    end
  | LTick d => Some (mkSys (sy_store s) (sy_clock s + Z.of_N d)%Z (sy_queue s) (sy_threads s)
                       (sy_owners s) (sy_trace s))
  | LRun i env =>
    match sy_threads s !! i with
    | Some (mkThread owner req (Call o k)) =>
      let x := exec env o s in
      Some (mkSys x.1.2 (sy_clock s) x.2 (<[i := mkThread owner req (k x.1.1)]> (sy_threads s))
              (sy_owners s) (events owner o x.1.1 ++ sy_trace s))
    | _ => None
    end
  end.

Fixpoint run (ls : list Label) (s : Sys) : option Sys :=
  match ls with
  | [] => Some s
  | l :: ls => match step l s with Some s => run ls s | None => None end
  end.

Definition init (st : St) (now : Z) : Sys := mkSys st now [] [] [] [].

(** Reached from a store with no documents. *)
Definition reachable (s : Sys) : Prop :=
  ∃ st now ls, (∀ k, js_read st k = zeroJob) ∧ run ls (init st now) = Some s.
End system.

#[local] Arguments reanchorTarget : simpl never.
#[local] Arguments aiCommentary : simpl never.
#[local] Arguments postComment : simpl never.
#[local] Arguments complete : simpl never.
#[local] Arguments deferCleanup : simpl never.
#[local] Arguments reviewOnce : simpl never.

(** * The protocol of [Handle] *)

Inductive Phase :=
| PStart
| PLive (last : option Job)
| PMeter (tokens : Z) (outcome : CompleteOutcome)
| PPending (sha : string)
| PEnqFailed
| PDone
| PFailed.

Definition afterOutcome (o : CompleteOutcome) : Phase :=
  if co_FollowUp o then PPending (co_FollowUpSHA o) else PDone.

Section protocol.
Context (owner : string) (req : ReviewRequest).

(** A comment body composed for the target of document [j] while [owner] held
    its lease. *)
Definition bodyFor (j : Job) (body : string) : Prop :=
  ∃ results commentary, body = ComposeComment (j_TargetSHA j) results commentary ∧ j_LeaseOwner j = owner.

Definition wAllowed (ph : Phase) (o : Op) : Prop :=
  match ph, o with
  | PStart, OMutate k (MAcquire head ow) => k = keyOf req ∧ ow = owner ∧ head = rq_HeadSHA req
  | PLive _, OMutate k (MReanchor ow _) | PLive _, OMutate k (MComplete _ _ ow)
  | (PLive _ | PEnqFailed), OMutate k (MRelease ow) => k = keyOf req ∧ ow = owner
  | PLive _, (OMutate k (MPersistComment _) | OGet k) => k = keyOf req
  | PLive l, (OUpdateComment _ _ _ _ body | OCreateComment _ _ _ _ body) =>
    ∃ j, l = Some j ∧ bodyFor j body
  | PLive _, (OInstallationToken _ _ _ | OPRHead _ _ _ _ | OFetch _ _ _ _ | OReview _ _ _ | OAIConfig _
      | ODiff _ _ _ | OComment _ _ _) => True
  | PMeter t _, OLedgerAdd id n tok => id = rq_InstallationID req ∧ n = 1%Z ∧ tok = t
  | PPending sha, OEnqueue q => q = followUp req sha
  | (PLive _ | PEnqFailed | PDone), OCleanup _ => True
  | _, _ => False
  end.

Definition wNext (ph : Phase) (o : Op) : Res o → Phase :=
  match o with
  | OMutate _ m =>
    match m return (Job * mutRes m + error → Phase) with
    | MAcquire _ _ => λ r, match r with
        | inl (_, ActionRun) => PLive None | inl (_, ActionSkip) => PDone | inr _ => PFailed end
    | MComplete _ tok _ => λ r, match r with
        | inl (_, out) => if co_Post out then PMeter tok out else afterOutcome out
        | inr _ => ph end
    | MRelease _ => λ _, PFailed
    | _ => λ _, ph
    end
  | OGet _ => λ r, match r with inl j => PLive (Some j) | inr _ => ph end
  | OLedgerAdd _ _ _ => λ _, match ph with PMeter _ out => afterOutcome out | _ => ph end
  | OEnqueue _ => λ r, match r with None => PDone | Some _ => PEnqFailed end
  | _ => λ _, ph
  end.

Definition wFinal (ph : Phase) (r : option error) : Prop :=
  match ph with
  | PDone => r = None
  | PFailed => is_Some r
  | _ => False
  end.

Definition live (ph : Phase) : Prop := ∃ l, ph = PLive l.
(** After [reviewOnce]: finished, or failed with the release still to come. *)
Definition afterReview (ph : Phase) (r : option error) : Prop :=
  match r with None => ph = PDone | Some _ => live ph ∨ ph = PEnqFailed end.

Local Notation "'wfollows'" := (follows Res wAllowed wNext).

Lemma live_intro l : live (PLive l). Proof. by exists l. Qed.
Ltac fin := solve [done | apply live_intro | left; apply live_intro | subst; done | repeat split].

Lemma reanchorTarget_follows hasPRs token sha l :
  wfollows (λ ph _, live ph) (PLive l) (reanchorTarget hasPRs (keyOf req) req owner token sha).
Proof.
  unfold reanchorTarget. destruct hasPRs; simpl; [|fin]. split; [fin|]. intros [head|e]; simpl; [|fin].
  destruct (String.eqb head sha); simpl; [fin|]. split; [fin|]. intros [[]|e]; fin.
Qed.

Lemma aiCommentary_follows dir results l :
  wfollows (λ ph _, live ph) (PLive l) (aiCommentary req dir results).
Proof.
  unfold aiCommentary. simpl. split; [fin|]. intros [cfg|e]; simpl; [|fin].
  destruct (Enabled cfg); simpl; [|fin]. split; [fin|]. intros d. split; [fin|].
  intros [[c t] [e|]]; fin.
Qed.

Lemma postComment_follows token sha results c l :
  wfollows (λ ph _, live ph) (PLive l) (postComment (keyOf req) req owner token sha results c).
Proof.
  unfold postComment. simpl. split; [fin|]. intros [j|e]; simpl; [|fin].
  destruct (String.eqb_spec (j_TargetSHA j) sha) as [<-|]; simpl; [|fin].
  destruct (String.eqb_spec (j_LeaseOwner j) owner) as [Ho|]; simpl; [|fin].
  assert (bodyFor j (ComposeComment (j_TargetSHA j) results c)) as Hbody by (by exists results, c).
  destruct (j_CommentID j =? 0)%Z; simpl; (split; [by exists j|]).
  - intros [id|e]; simpl; [|fin]. split; [fin|]. intros [[]|e]; fin.
  - intros [e|]; fin.
Qed.

Lemma complete_follows sha tok l :
  wfollows afterReview (PLive l) (complete (keyOf req) req owner sha tok).
Proof.
  assert (∀ out : CompleteOutcome, wfollows afterReview (afterOutcome out)
    (if co_FollowUp out then
       r ← call (OEnqueue (followUp req (co_FollowUpSHA out)));
       match (r : option error) with
       | Some err => mret (Some (wrapErr "enqueueing follow-up for %s: %w" [JobKey_String (keyOf req)] err))
       | None => mret None
       end
     else mret None)) as Hfu.
  { intros out. unfold afterOutcome. destruct (co_FollowUp out); simpl; [|fin].
    split; [fin|]. intros [e|]; simpl; [by right|fin]. }
  unfold complete. simpl. split; [fin|]. intros [[j out]|e]; simpl; [|fin].
  destruct (co_Post out); simpl; [|apply Hfu]. split; [fin|]. intros r; apply Hfu.
Qed.

Lemma deferCleanup_follows dir l body :
  wfollows afterReview (PLive l) body → wfollows afterReview (PLive l) (deferCleanup dir body).
Proof.
  intros Hb. unfold deferCleanup. refine (follows_bind Res wAllowed wNext _ _ _ _ _ Hb _).
  intros ph [e|] Hph; simpl in *; [|by subst]. destruct Hph as [[l1 ->]| ->]; simpl.
  - split; [done|]. intros _. by left; exists l1.
  - split; [done|]. intros _. by right.
Qed.

Lemma reviewOnce_follows hasPRs sha l :
  wfollows afterReview (PLive l) (reviewOnce hasPRs (keyOf req) req owner sha).
Proof.
  unfold reviewOnce. simpl. split; [done|]. intros [token|e]; simpl; [|fin].
  refine (follows_bind Res wAllowed wNext _ _ _ _ _ (reanchorTarget_follows _ _ _ _) _). intros ph [sha' [e|]] [l' ->]; [fin|].
  simpl. split; [done|]. intros [dir|e]; [|fin]. apply deferCleanup_follows.
  simpl. split; [done|]. intros [results|e]; [|fin].
  refine (follows_bind Res wAllowed wNext _ _ _ _ _ (aiCommentary_follows _ _ _) _). intros ph c [l1 ->].
  refine (follows_bind Res wAllowed wNext _ _ _ _ _ (postComment_follows _ _ _ _ _) _). intros ph [e|] [l2 ->]; [fin|].
  apply complete_follows.
Qed.

Lemma Handle_follows hasPRs : wfollows wFinal PStart (Handle hasPRs owner req).
Proof.
  unfold Handle. simpl. split; [fin|]. intros [[j []]|e]; simpl; [|done|done].
  refine (follows_bind Res wAllowed wNext _ _ _ _ _ (reviewOnce_follows _ _ _) _). intros ph [e|] Hph; simpl in *; [|fin].
  destruct Hph as [[l1 ->]| ->]; simpl; by repeat split.
Qed.
End protocol.

(** * What one operation does *)

Section effect.
Context (LeaseTTL : Z) (owner : string) (req : ReviewRequest) (now : Z) (j : Job).

(** The effect of an operation the protocol allows, on the worker's phase, the
    document of its pull request ([j] before it), the trace and the queue. *)
Inductive effect : Phase → Phase → Job → list Event → list ReviewRequest → Prop :=
| E_run j' : AcquireDecision j now (rq_HeadSHA req) LeaseTTL owner = (j', ActionRun) →
    effect PStart (PLive None) j' [] []
| E_skip j' : AcquireDecision j now (rq_HeadSHA req) LeaseTTL owner = (j', ActionSkip) →
    effect PStart PDone j' [] []
| E_acquire_failed : effect PStart PFailed j [] []
| E_reanchor l head :
    effect (PLive l) (PLive l) (if String.eqb (j_LeaseOwner j) owner then set_target head j else j) [] []
| E_persist l id : effect (PLive l) (PLive l) (if (j_CommentID j =? 0)%Z then set_comment id j else j) [] []
| E_complete l sha tok j' out : CompleteDecision j sha tok owner = (j', out) →
    effect (PLive l) (if co_Post out then PMeter tok out else afterOutcome out) j'
      [EvComplete owner (keyOf req) tok out] []
| E_release ph : live ph ∨ ph = PEnqFailed → effect ph PFailed (ReleaseDecision j owner) [] []
| E_release_failed ph : live ph ∨ ph = PEnqFailed → effect ph PFailed j [EvUnreleased owner (keyOf req)] []
| E_read l : effect (PLive l) (PLive (Some j)) j [EvRead owner (keyOf req) j] []
| E_post j0 body : bodyFor owner j0 body → effect (PLive (Some j0)) (PLive (Some j0)) j [EvPost owner body] []
| E_ledger tok out : effect (PMeter tok out) (afterOutcome out) j
    [EvLedger owner (rq_InstallationID req) 1 tok] []
| E_enqueue sha : effect (PPending sha) PDone j [] [followUp req sha]
| E_enqueue_failed sha : effect (PPending sha) PEnqFailed j [] []
| E_internal ph : effect ph ph j [] [].
End effect.

Section exec.
Context {St : Type} `{JobStore St} (LeaseTTL : Z).

Lemma exec_mutate env key m (s : Sys) :
  let x := exec LeaseTTL env (OMutate key m) s in
  let y := applyMutation LeaseTTL (sy_clock s) m (js_read (sy_store s) key) in
  x.2 = sy_queue s ∧
  ((∃ e, x.1.1 = inr e ∧ ∀ k, js_read x.1.2 k = js_read (sy_store s) k) ∨
   (x.1.1 = inl y ∧ ∀ k, js_read x.1.2 k = if decide (k = key) then y.1 else js_read (sy_store s) k)).
Proof.
  intros x y. unfold x, exec. simpl. split; [done|].
  destruct (Mutate key _ _) as [[r|e] st'] eqn:E; simpl.
  - right. destruct (Mutate_ok _ _ _ _ _ E) as (-> & Hk & Hne). split; [done|].
    intros k. case_decide; [by subst|auto].
  - left. exists e. split; [done|]. exact (Mutate_err _ _ _ _ _ E).
Qed.

(** Every operation allowed by the protocol has one of the effects. *)
Lemma exec_effect env owner req ph o (s : Sys) : wAllowed owner req ph o →
  let x := exec LeaseTTL env o s in
  ∃ j' qs, effect LeaseTTL owner req (sy_clock s) (js_read (sy_store s) (keyOf req))
      ph (wNext ph o x.1.1) j' (events owner o x.1.1) qs ∧
    x.2 = sy_queue s ++ qs ∧
    ∀ k, js_read x.1.2 k = if decide (k = keyOf req) then j' else js_read (sy_store s) k.
Proof.
  intros Ho x. set (j := js_read (sy_store s) (keyOf req)).
  assert (∀ st : St, (∀ k, js_read st k = js_read (sy_store s) k) →
    ∀ k, js_read st k = if decide (k = keyOf req) then j else js_read (sy_store s) k) as Hsame.
  { intros st Hst k. rewrite Hst. case_decide; [by subst|done]. }
  destruct o as [key m|key|inst ow repo|tok ow repo n|url tok base head|dir|dir base head|id|dir base head|cfg rs d
    |tok ow repo cid body|tok ow repo n body|id n tok|q]; cycle 1.
  1: { assert (key = keyOf req ∧ live ph) as [-> [l ->]] by (destruct ph; simpl in Ho; try done; split; [done|by eexists]).
       unfold x, exec. simpl. destruct (Get (keyOf req) (sy_store s)) as [[j1|e] st'] eqn:E; simpl.
       all: exists j, []; rewrite app_nil_r; split_and!; try done; try (apply Hsame, (Get_same _ _ _ _ E)).
       - rewrite (Get_ok _ _ _ _ E). apply E_read.
       - apply E_internal. }
  1-7,8: (exists j, []; rewrite app_nil_r; split_and!; [apply E_internal|done|by apply Hsame]).
  1-2: (exists j, []; rewrite app_nil_r; split_and!; [|done|by apply Hsame];
    destruct ph as [|l| | | | |]; simpl in Ho; try done; destruct Ho as (j0 & -> & Hb); by apply E_post).
  - exists j, []. rewrite app_nil_r. split_and!; [|done|by apply Hsame].
    destruct ph; simpl in Ho; try done. destruct Ho as (-> & -> & ->). apply E_ledger.
  - destruct ph as [| | |sha| | |]; simpl in Ho; try done. subst q. unfold x, exec. cbn [fst snd].
    destruct (env (OEnqueue (followUp req sha))) as [e|] eqn:E; simpl.
    + exists j, []. rewrite app_nil_r. split_and!; [apply E_enqueue_failed|done|by apply Hsame].
    + exists j, [followUp req sha]. split_and!; [apply E_enqueue|done|by apply Hsame].
  - pose proof (exec_mutate env key m s) as [Hq Hx]. fold x in Hq, Hx.
    destruct m as [head ow|ow head|id|sha tok ow|ow].
    all: assert (key = keyOf req) as -> by (destruct ph; simpl in Ho; try done; destruct_and?; done).
    all: destruct Hx as [(e & Hr & Hst)|[Hr Hst]]; rewrite Hr; eexists _, []; rewrite app_nil_r;
      (split_and!; [|done|first [exact Hst | by apply Hsame]]).
    all: destruct ph; simpl in Ho; try done; destruct_and?; subst; simpl.
    all: try (by constructor).
    all: try (constructor; (by left; eexists) || (by right)).
    + destruct (AcquireDecision _ _ _ _ _) as [j' []] eqn:E; simpl; [by apply E_run|by apply E_skip].
    + destruct (CompleteDecision _ _ _ _) as [j' out] eqn:E; simpl. by eapply E_complete.
Qed.
End exec.

(** * Invariants of the system *)

(** Some thread, with its phase, satisfies [P]. *)
Definition has (P : Thread → Phase → Prop) (ths : list Thread) (phs : list Phase) : Prop :=
  ∃ i t ph, ths !! i = Some t ∧ phs !! i = Some ph ∧ P t ph.

Lemma has_new P i t ph ths phs : is_Some (ths !! i) → is_Some (phs !! i) → P t ph →
  has P (<[i := t]> ths) (<[i := ph]> phs).
Proof.
  intros H1 H2 HP. exists i, t, ph. split_and!; [..|done]; apply list_lookup_insert_eq.
  all: by eapply lookup_lt_is_Some_1.
Qed.

Lemma has_upd (P : Thread → Phase → Prop) i t ph t' ph' ths phs :
  ths !! i = Some t → phs !! i = Some ph → (P t ph → P t' ph') →
  has P ths phs → has P (<[i := t']> ths) (<[i := ph']> phs).
Proof.
  intros Ht Hp Himp (k & u & q & Hu & Hq & HP). destruct (decide (k = i)) as [->|Hne].
  - simplify_eq. apply has_new; eauto.
  - exists k, u, q. by rewrite !list_lookup_insert_ne.
Qed.

Lemma has_app P ths phs ths' phs' : has P ths phs → has P (ths ++ ths') (phs ++ phs').
Proof.
  intros (i & t & ph & Ht & Hp & HP). exists i, t, ph. split_and!; [by apply lookup_app_l_Some..|done].
Qed.

Lemma has_last (P : Thread → Phase → Prop) ths phs t ph : length ths = length phs → P t ph →
  has P (ths ++ [t]) (phs ++ [ph]).
Proof.
  intros Hlen HP. exists (length ths), t, ph. split_and!; [by apply list_lookup_middle| |done].
  by apply list_lookup_middle.
Qed.

(** A worker of [k] that is going to see to its target, or a failed one whose
    task the queue runs again. *)
Definition unsettled (k : JobKey) (t : Thread) (ph : Phase) : Prop :=
  th_key t = k ∧ (ph = PStart ∨ (∃ sha, ph = PPending sha) ∨ ph = PEnqFailed ∨ ph = PFailed).
(** The worker holding token [o] on [k], under way. *)
Definition holder (k : JobKey) (o : string) (t : Thread) (ph : Phase) : Prop :=
  th_key t = k ∧ th_owner t = o ∧ live ph.

(** Completed reviews of [k] that count, by the trace: their tokens. *)
Definition postsFor (k : JobKey) (tr : list Event) : list Z :=
  omap (λ e, match e with
             | EvComplete _ k' tok out => if decide (k = k') then (if co_Post out then Some tok else None) else None
             | _ => None end) tr.
(** Reviews an attempt completed, and ledger entries it made. *)
Definition postsBy (o : string) (tr : list Event) : list (Z * Z * Z) :=
  omap (λ e, match e with
             | EvComplete o' k tok out =>
               if decide (o = o') then (if co_Post out then Some (k_InstallationID k, 1%Z, tok) else None) else None
             | _ => None end) tr.
Definition addsBy (o : string) (tr : list Event) : list (Z * Z * Z) :=
  omap (λ e, match e with
             | EvLedger o' id n tok => if decide (o = o') then Some (id, n, tok) else None
             | _ => None end) tr.
Definition pend (t : Thread) (ph : Phase) : list (Z * Z * Z) :=
  match ph with PMeter tok _ => [(rq_InstallationID (th_req t), 1%Z, tok)] | _ => [] end.

Lemma postsFor_app k a b : postsFor k (a ++ b) = postsFor k a ++ postsFor k b.
Proof. apply omap_app. Qed.
Lemma postsBy_app o a b : postsBy o (a ++ b) = postsBy o a ++ postsBy o b.
Proof. apply omap_app. Qed.
Lemma addsBy_app o a b : addsBy o (a ++ b) = addsBy o a ++ addsBy o b.
Proof. apply omap_app. Qed.
Lemma postsFor_none k evs : (∀ o k' tok out, EvComplete o k' tok out ∈ evs → k' ≠ k) → postsFor k evs = [].
Proof.
  intros Hev. induction evs as [|e evs IH]; [done|].
  change (postsFor k (e :: evs)) with (postsFor k ([e] ++ evs)). rewrite postsFor_app, IH.
  - destruct e as [| |o k' tok out| |]; try done. unfold postsFor. simpl. rewrite decide_False; [done|].
    intros <-. apply (Hev o k tok out); [|done]. apply elem_of_cons; by left.
  - intros o k' tok out Hin. eapply Hev. apply elem_of_cons; by right.
Qed.

Fixpoint posts_justified (tr : list Event) : Prop :=
  match tr with
  | [] => True
  | EvPost o body :: tr => (∃ k j, EvRead o k j ∈ tr ∧ bodyFor o j body) ∧ posts_justified tr
  | _ :: tr => posts_justified tr
  end.

Definition sumZ : list Z → Z := foldr Z.add 0%Z.

(** Document [j] of [k] against the rest of the system. *)
Record doc_inv {St} (s : @Sys St) (phs : list Phase) (k : JobKey) (j : Job) : Prop := {
  di_status : j_Status j = StatusRunning ↔ j_LeaseOwner j ≠ "";
  di_owner : j_LeaseOwner j = "" ∨ j_LeaseOwner j ∈ sy_owners s;
  di_lease : j_LeaseOwner j ≠ "" →
    has (holder k (j_LeaseOwner j)) (sy_threads s) phs ∨ EvUnreleased (j_LeaseOwner j) k ∈ sy_trace s;
  di_target : j_TargetSHA j = j_LastReviewedSHA j ∨ j_LeaseOwner j ≠ "" ∨
    (∃ q, q ∈ sy_queue s ∧ keyOf q = k) ∨ has (unsettled k) (sy_threads s) phs;
  di_count : j_ReviewCount j = wrap_i64 (Z.of_nat (length (postsFor k (sy_trace s))));
  di_tokens : j_TokensUsed j = wrap_i64 (sumZ (postsFor k (sy_trace s))) }.

Record sinv {St} `{JobStore St} (s : @Sys St) (phs : list Phase) : Prop := {
  si_threads : Forall2 (λ t ph, follows Res (wAllowed (th_owner t) (th_req t)) wNext wFinal ph (th_code t))
    (sy_threads s) phs;
  si_owners : NoDup (th_owner <$> sy_threads s) ∧
    Forall (λ t, th_owner t ≠ "" ∧ th_owner t ∈ sy_owners s) (sy_threads s);
  si_docs k : doc_inv s phs k (js_read (sy_store s) k);
  si_reads i t j : sy_threads s !! i = Some t → phs !! i = Some (PLive (Some j)) →
    EvRead (th_owner t) (th_key t) j ∈ sy_trace s;
  si_posts : posts_justified (sy_trace s);
  si_pend i t ph : sy_threads s !! i = Some t → phs !! i = Some ph →
    postsBy (th_owner t) (sy_trace s) = pend t ph ++ addsBy (th_owner t) (sy_trace s);
  si_gone o : o ∉ (th_owner <$> sy_threads s) → postsBy o (sy_trace s) = addsBy o (sy_trace s) }.

Lemma wrap_i64_add a b : wrap_i64 (wrap_i64 a + b) = wrap_i64 (a + b).
Proof.
  unfold wrap_i64. f_equal. replace ((a + 2 ^ 63) mod 2 ^ 64 - 2 ^ 63 + b + 2 ^ 63)%Z
    with ((a + 2 ^ 63) mod 2 ^ 64 + b)%Z by lia.
  rewrite Z.add_mod_idemp_l by lia. f_equal. lia.
Qed.

Lemma run_not_idle : StatusIdle ≠ StatusRunning. Proof. done. Qed.

(** The document of another pull request is untouched by worker [i]. *)
Lemma doc_inv_other {St} (s s' : @Sys St) phs i t t' ph ph' k j evs :
  doc_inv s phs k j → sy_threads s !! i = Some t → phs !! i = Some ph →
  th_key t ≠ k → th_key t' ≠ k →
  sy_threads s' = <[i := t']> (sy_threads s) → sy_owners s' = sy_owners s →
  (∀ q, q ∈ sy_queue s → q ∈ sy_queue s') → sy_trace s' = evs ++ sy_trace s →
  (∀ o k' tok out, EvComplete o k' tok out ∈ evs → k' ≠ k) →
  doc_inv s' (<[i := ph']> phs) k j.
Proof.
  intros [D1 D2 D3 D4 D5 D6] Ht Hp Hk Hk' Eth Eow Eq Etr Hev.
  assert (postsFor k (sy_trace s') = postsFor k (sy_trace s)) as Hposts.
  { by rewrite Etr, postsFor_app, postsFor_none. }
  split; rewrite ?Hposts, ?Eow, ?Eth; try done.
  - intros Hne. destruct (D3 Hne) as [Hh|Hu]; [left|right].
    + eapply has_upd; [done|done| |done]. by intros [? _].
    + rewrite Etr. set_solver.
  - destruct D4 as [?|[?|[(q & ? & ?)|Hu]]]; [by left|by right; left|right; right; left; eauto|].
    right; right; right. eapply has_upd; [done|done| |done]. by intros [? _].
Qed.

(** How a worker's step may change its own document. *)
Record doc_change (k : JobKey) (owners : list string) (t t' : Thread) (ph ph' : Phase) (j j' : Job)
    (evs : list Event) (qs : list ReviewRequest) : Prop := {
  dc_status : j_Status j' = StatusRunning ↔ j_LeaseOwner j' ≠ "";
  dc_owner : j_LeaseOwner j' = "" ∨ j_LeaseOwner j' ∈ owners;
  dc_lease : j_LeaseOwner j' ≠ "" →
    holder k (j_LeaseOwner j') t' ph' ∨
    (j_LeaseOwner j' = j_LeaseOwner j ∧
     (holder k (j_LeaseOwner j) t ph →
        holder k (j_LeaseOwner j) t' ph' ∨ EvUnreleased (j_LeaseOwner j) k ∈ evs));
  dc_target : j_TargetSHA j' = j_LastReviewedSHA j' ∨ j_LeaseOwner j' ≠ "" ∨
    (∃ q, q ∈ qs ∧ keyOf q = k) ∨ unsettled k t' ph' ∨
    (j_TargetSHA j' = j_TargetSHA j ∧ j_LastReviewedSHA j' = j_LastReviewedSHA j ∧
     j_LeaseOwner j' = j_LeaseOwner j ∧ (unsettled k t ph → unsettled k t' ph'));
  dc_posts :
    (postsFor k evs = [] ∧ j_ReviewCount j' = j_ReviewCount j ∧ j_TokensUsed j' = j_TokensUsed j) ∨
    (∃ tok, postsFor k evs = [tok] ∧ j_ReviewCount j' = wrap_i64 (j_ReviewCount j + 1) ∧
       j_TokensUsed j' = wrap_i64 (j_TokensUsed j + tok)) }.

Lemma doc_inv_change {St} (s s' : @Sys St) phs i t t' ph ph' k j j' evs qs :
  doc_inv s phs k j → sy_threads s !! i = Some t → phs !! i = Some ph →
  sy_threads s' = <[i := t']> (sy_threads s) → sy_owners s' = sy_owners s →
  sy_queue s' = sy_queue s ++ qs → sy_trace s' = evs ++ sy_trace s →
  doc_change k (sy_owners s) t t' ph ph' j j' evs qs →
  doc_inv s' (<[i := ph']> phs) k j'.
Proof.
  intros [D1 D2 D3 D4 D5 D6] Ht Hp Eth Eow Eq Etr [C1 C2 C3 C4 C5].
  assert (∀ P : Thread → Phase → Prop, P t' ph' → has P (<[i:=t']> (sy_threads s)) (<[i:=ph']> phs)) as Hnew
    by (intros; apply has_new; eauto).
  split; rewrite ?Eow, ?Eth, ?Eq, ?Etr; try done.
  - intros Hne. destruct (C3 Hne) as [?|[Heq Himp]]; [left; by apply Hnew|].
    rewrite Heq in *. destruct (D3 Hne) as [(a & u & q & Hu & Hq & Hh)|Hu]; [|right; apply elem_of_app; by right].
    destruct (decide (a = i)) as [->|Hai].
    + simplify_eq. destruct (Himp Hh) as [?|?]; [left; by apply Hnew|right; apply elem_of_app; by left].
    + left. exists a, u, q. by rewrite !list_lookup_insert_ne.
  - destruct C4 as [?|[?|[(q & Hq & Hk)|[?|(E1 & E2 & E3 & Himp)]]]]; [by left|by right; left| | |].
    + right; right; left. exists q. split; [apply elem_of_app; by right|done].
    + right; right; right. by apply Hnew.
    + rewrite E1, E2, E3. destruct D4 as [?|[?|[(q & Hq & Hk)|Hu]]]; [by left|by right; left| |].
      * right; right; left. exists q. split; [apply elem_of_app; by left|done].
      * right; right; right. by eapply has_upd.
  - rewrite postsFor_app, length_app. destruct C5 as [(-> & -> & _)|(tok & -> & -> & _)]; [done|].
    rewrite D5, wrap_i64_add. f_equal. simpl. lia.
  - rewrite postsFor_app. destruct C5 as [(-> & _ & ->)|(tok & -> & _ & ->)]; [done|].
    rewrite D6, wrap_i64_add. f_equal. simpl. lia.
Qed.

Lemma acquire_skip_running job now head ttl owner :
  (AcquireDecision job now head ttl owner).2 = ActionSkip → j_Status job = StatusRunning.
Proof.
  unfold AcquireDecision. destruct (_ || _); simpl; (destruct (String.eqb_spec (j_Status job) StatusRunning); simpl; [|done]).
  all: done.
Qed.

Lemma acquire_frame job now head ttl owner :
  let j := (AcquireDecision job now head ttl owner).1 in
  j_LastReviewedSHA j = j_LastReviewedSHA job ∧ j_ReviewCount j = j_ReviewCount job ∧
  j_TokensUsed j = j_TokensUsed job ∧ j_CommentID j = j_CommentID job.
Proof. intros j. unfold j, AcquireDecision. destruct (_ || _), (_ && _); done. Qed.

(** The same worker before and after one of its operations. *)
Definition same_worker (t t' : Thread) : Prop := th_owner t' = th_owner t ∧ th_req t' = th_req t.

Definition pending (ph : Phase) : Prop :=
  ph = PStart ∨ (∃ sha, ph = PPending sha) ∨ ph = PEnqFailed ∨ ph = PFailed.

Lemma unsettled_same t t' ph : same_worker t t' → unsettled (th_key t) t' ph ↔ pending ph.
Proof. intros [_ Hr]. unfold unsettled, th_key. rewrite Hr. unfold pending. tauto. Qed.

Lemma holder_same t t' ph o : same_worker t t' → holder (th_key t) o t' ph ↔ th_owner t = o ∧ live ph.
Proof. intros [Ho Hr]. unfold holder, th_key. rewrite Hr, Ho. tauto. Qed.

(** The lease, the target and the counters stay. *)
Lemma doc_change_same owners t t' ph ph' j j' evs qs :
  same_worker t t' →
  (j_Status j = StatusRunning ↔ j_LeaseOwner j ≠ "") → (j_LeaseOwner j = "" ∨ j_LeaseOwner j ∈ owners) →
  (j_Status j', j_LeaseOwner j', j_TargetSHA j', j_LastReviewedSHA j', j_ReviewCount j', j_TokensUsed j') =
  (j_Status j, j_LeaseOwner j, j_TargetSHA j, j_LastReviewedSHA j, j_ReviewCount j, j_TokensUsed j) →
  postsFor (th_key t) evs = [] →
  (j_LeaseOwner j = th_owner t → live ph → live ph' ∨ EvUnreleased (th_owner t) (th_key t) ∈ evs) →
  ((∃ q, q ∈ qs ∧ keyOf q = th_key t) ∨ (pending ph → pending ph')) →
  doc_change (th_key t) owners t t' ph ph' j j' evs qs.
Proof.
  intros Ht D1 D2 [= E1 E2 E3 E4 E5 E6] Hev Hl Hq.
  split; rewrite ?E1, ?E2, ?E3, ?E4, ?E5, ?E6; try done.
  - intros _. right. split; [done|]. rewrite (holder_same t t) by done. rewrite holder_same by done.
    intros [Ho Hlive]. rewrite <-Ho in *. destruct (Hl eq_refl Hlive); auto.
  - destruct Hq as [Hq|Hq]; [by right; right; left|]. do 4 right. split_and!; try done.
    rewrite (unsettled_same t t) by done. by rewrite unsettled_same.
  - by left.
Qed.

Lemma acquire_change owners t t' ttl now j j' a ph' :
  same_worker t t' → th_owner t ≠ "" → th_owner t ∈ owners →
  (j_Status j = StatusRunning ↔ j_LeaseOwner j ≠ "") → (j_LeaseOwner j = "" ∨ j_LeaseOwner j ∈ owners) →
  AcquireDecision j now (rq_HeadSHA (th_req t)) ttl (th_owner t) = (j', a) →
  (a = ActionRun → live ph') →
  doc_change (th_key t) owners t t' PStart ph' j j' [] [].
Proof.
  intros Ht Hne Hin D1 D2 E Hl.
  pose proof (acquire_owner j now (rq_HeadSHA (th_req t)) ttl (th_owner t)) as Ha.
  pose proof (acquire_frame j now (rq_HeadSHA (th_req t)) ttl (th_owner t)) as Hf.
  pose proof (acquire_skip_running j now (rq_HeadSHA (th_req t)) ttl (th_owner t)) as Hsk.
  rewrite E in Ha, Hf, Hsk. simpl in *. destruct Hf as (_ & Hc & Htk & _), a; simpl in *.
  - destruct Ha as (Ha & Hs & _). split; rewrite ?Ha, ?Hs; [done|by right| |by right; left|by left].
    intros _. left. rewrite holder_same by done. split; [done|]. by apply Hl.
  - destruct Ha as (Ha & Hs & _). pose proof (proj1 D1 (Hsk eq_refl)) as Hown.
    split; rewrite ?Ha, ?Hs; [done|done| |by right; left|by left].
    intros _. right. split; [done|]. rewrite (holder_same t t) by done. by intros [_ [l ?]].
Qed.

Lemma complete_change owners t t' l sha tok j j' out :
  same_worker t t' →
  (j_Status j = StatusRunning ↔ j_LeaseOwner j ≠ "") → (j_LeaseOwner j = "" ∨ j_LeaseOwner j ∈ owners) →
  CompleteDecision j sha tok (th_owner t) = (j', out) →
  doc_change (th_key t) owners t t' (PLive l) (if co_Post out then PMeter tok out else afterOutcome out) j j'
    [EvComplete (th_owner t) (th_key t) tok out] [].
Proof.
  intros Ht D1 D2 E.
  assert (postsFor (th_key t) [EvComplete (th_owner t) (th_key t) tok out] = if co_Post out then [tok] else []) as Hev.
  { unfold postsFor. simpl. rewrite decide_True by done. by destruct (co_Post out). }
  unfold CompleteDecision in E. destruct (String.eqb_spec (j_LeaseOwner j) (th_owner t)) as [Ho|Ho]; simpl in E.
  - destruct (String.eqb_spec (j_TargetSHA j) sha) as [Htg|Htg]; injection E as <- <-; simpl in *.
    + split; simpl; try done; [by left|by left|]. right. by exists tok.
    + split; simpl; try done; [by left| |by left]. right; right; right; left.
      rewrite unsettled_same by done. right; left. by eexists.
  - injection E as <- <-. apply doc_change_same; try done. right. by intros [?|[[? ?]|[?|?]]].
Qed.

Lemma release_change owners t t' ph j :
  same_worker t t' →
  (j_Status j = StatusRunning ↔ j_LeaseOwner j ≠ "") → (j_LeaseOwner j = "" ∨ j_LeaseOwner j ∈ owners) →
  doc_change (th_key t) owners t t' ph PFailed j (ReleaseDecision j (th_owner t)) [] [].
Proof.
  intros Ht D1 D2. assert (pending PFailed) as Hp by (by do 3 right).
  unfold ReleaseDecision. destruct (String.eqb_spec (j_LeaseOwner j) (th_owner t)) as [Ho|Ho]; simpl.
  - split; simpl; try done; [by left| |by left]. right; right; right; left. by rewrite unsettled_same.
  - apply doc_change_same; try done. by right.
Qed.

Lemma effect_change {St} (s : @Sys St) phs ttl t t' ph ph' j j' evs qs :
  doc_inv s phs (th_key t) j → same_worker t t' → th_owner t ≠ "" → th_owner t ∈ sy_owners s →
  effect ttl (th_owner t) (th_req t) (sy_clock s) j ph ph' j' evs qs →
  doc_change (th_key t) (sy_owners s) t t' ph ph' j j' evs qs.
Proof.
  intros [D1 D2 _ _ _ _] Ht Hne Hin Heff.
  destruct Heff as [j' E|j' E| |l head|l id|l sha tok j' out E|ph Hph|ph Hph|l|j0 body Hb|tok out|sha|sha|ph].
  - eapply acquire_change; try done. by eexists.
  - by eapply acquire_change.
  - apply doc_change_same; try done; [by intros _ [? ?]|]. right. intros _. by do 3 right.
  - destruct (String.eqb_spec (j_LeaseOwner j) (th_owner t)) as [Ho|Ho].
    + split; simpl; try done; [| |by left].
      * intros _. right. split; [done|]. rewrite Ho, (holder_same t t') by done. intros _. left. split; [done|by eexists].
      * right; left. by rewrite Ho.
    + apply doc_change_same; try done; first [by left|by right|left; by eexists].
  - destruct (j_CommentID j =? 0)%Z; apply doc_change_same; try done; first [by left|by right|left; by eexists].
  - by eapply complete_change.
  - by apply release_change.
  - apply doc_change_same; try done.
    + intros _ _. right. by apply list_elem_of_singleton.
    + right. intros _. by do 3 right.
  - apply doc_change_same; try done; [intros; left; by eexists|]. right. by intros [?|[[? ?]|[?|?]]].
  - apply doc_change_same; try done; first [by left|by right|left; by eexists].
  - apply doc_change_same; try done; [by intros _ [? ?]|]. right. by intros [?|[[? ?]|[?|?]]].
  - apply doc_change_same; try done; [by intros _ [? ?]|]. left. exists (followUp (th_req t) sha).
    by split; [apply list_elem_of_singleton|].
  - apply doc_change_same; try done; [by intros _ [? ?]|]. right. intros _. by right; right; left.
  - apply doc_change_same; try done; first [by left|by right|left; by eexists].
Qed.

(** * Preservation *)

Lemma NoDup_insert_new {A} (l : list A) i x : NoDup l → x ∉ l → NoDup (<[i := x]> l).
Proof.
  rewrite !NoDup_alt. intros Hl Hx a b y Ha Hb.
  apply list_lookup_insert_Some in Ha as [(<- & <- & _)|[Hai Ha]], Hb as [(<- & Hy & _)|[Hbi Hb]]; subst; try done.
  - destruct Hx. by apply list_elem_of_lookup; exists b.
  - destruct Hx. by apply list_elem_of_lookup; exists a.
  - by eapply Hl.
Qed.

Lemma delete_elem_of {A} (l : list A) n x y : l !! n = Some x → y ∈ l → y = x ∨ y ∈ delete n l.
Proof.
  intros Hn Hy. rewrite <-(take_drop_middle l n x Hn) in Hy. rewrite delete_take_drop.
  rewrite elem_of_app, elem_of_cons in Hy. rewrite elem_of_app. tauto.
Qed.

(** What the events of a step mean for the books of its worker, and of the
    others. *)
Lemma effect_books ttl owner req now j ph ph' j' evs qs t t' :
  effect ttl owner req now j ph ph' j' evs qs → th_req t = req → th_req t' = req →
  postsBy owner evs ++ pend t ph = pend t' ph' ++ addsBy owner evs ∧
  ∀ o, o ≠ owner → postsBy o evs = [] ∧ addsBy o evs = [].
Proof.
  intros Heff <- Ht'.
  assert (∀ out, pend t' (afterOutcome out) = []) as Hafter.
  { intros out. unfold afterOutcome. by destruct (co_FollowUp out). }
  unfold postsBy, addsBy. destruct Heff as [| | | | |l sha tok j' out E|ph Hph|ph Hph| | |tok out| | |ph]; simpl.
  all: try (split; [done|intros o Ho; rewrite ?decide_False by done; done]).
  - rewrite decide_True by done. split; [|intros o Ho; by rewrite decide_False].
    destruct (co_Post out); simpl; [by rewrite Ht'|by rewrite Hafter].
  - split; [|done]. by destruct Hph as [[l ->]| ->].
  - split; [|done]. by destruct Hph as [[l ->]| ->].
  - rewrite decide_True, Hafter by done. split; [done|]. intros o Ho. by rewrite decide_False.
  - split; [by destruct ph; simpl; rewrite ?Ht'|done].
Qed.

Lemma effect_posts ttl owner req now j ph ph' j' evs qs tr :
  effect ttl owner req now j ph ph' j' evs qs →
  (∀ j0, ph = PLive (Some j0) → EvRead owner (keyOf req) j0 ∈ tr) → posts_justified tr →
  posts_justified (evs ++ tr) ∧ ∀ j0, ph' = PLive (Some j0) → EvRead owner (keyOf req) j0 ∈ evs ++ tr.
Proof.
  intros Heff Hr Hp.
  assert (∀ out j0, afterOutcome out ≠ PLive (Some j0)) as Hafter.
  { intros out j0. unfold afterOutcome. by destruct (co_FollowUp out). }
  destruct Heff as [| | |l head|l id|l sha tok j' out E|ph Hph|ph Hph|l|j0 body Hb|tok out| | |ph]; simpl.
  all: try (split; [done|]; intros j1 Hj1; try done; try (by apply elem_of_cons; right; apply Hr); by apply Hr).
  - split; [done|]. intros j1 Hj1. destruct (co_Post out); [done|by apply Hafter in Hj1].
  - split; [done|]. intros j1 [= ->]. apply elem_of_cons. by left.
  - split; [split; [|done]|].
    + exists (keyOf req), j0. split; [by apply Hr|done].
    + intros j1 Hj1. apply elem_of_cons. right. by apply Hr.
  - split; [done|]. intros j1 Hj1. by apply Hafter in Hj1.
Qed.

Lemma effect_complete_key ttl owner req now j ph ph' j' evs qs o k tok out :
  effect ttl owner req now j ph ph' j' evs qs → EvComplete o k tok out ∈ evs → k = keyOf req.
Proof.
  intros Heff Hin. destruct Heff; try (by apply elem_of_nil in Hin);
    apply list_elem_of_singleton in Hin; by simplify_eq.
Qed.

(** What a worker without the lease can do to a document under review. *)
Lemma effect_other_lease ttl owner req now j ph ph' j' evs qs :
  effect ttl owner req now j ph ph' j' evs qs →
  owner ≠ j_LeaseOwner j → j_Status j = StatusRunning → (now < j_LeaseExpiry j)%Z →
  j_Status j' = StatusRunning ∧ j_LeaseOwner j' = j_LeaseOwner j ∧ j_LeaseExpiry j' = j_LeaseExpiry j ∧
  j_LastReviewedSHA j' = j_LastReviewedSHA j ∧ j_ReviewCount j' = j_ReviewCount j ∧
  j_TokensUsed j' = j_TokensUsed j.
Proof.
  intros Heff Hne Hrun Hexp.
  assert (∀ head, AcquireDecision j now head ttl owner = (if negb (String.eqb head (j_LastReviewedSHA j)) ||
    String.eqb (j_TargetSHA j) "" then set_target head j else j, ActionSkip)) as Hacq.
  { intros head. unfold AcquireDecision. apply Z.ltb_lt in Hexp. destruct (_ || _); simpl; by rewrite Hrun, Hexp. }
  destruct Heff as [j' E|j' E| |l head|l id|l sha tok j' out E|ph Hph|ph Hph|l|j0 body Hb|tok out|sha|sha|ph]; try done.
  - by rewrite Hacq in E.
  - rewrite Hacq in E. injection E as <-. by destruct (_ || _).
  - by destruct (String.eqb (j_LeaseOwner j) owner).
  - by destruct (j_CommentID j =? 0)%Z.
  - rewrite complete_fenced in E by done. by injection E as <- _.
  - by rewrite release_fenced.
Qed.

Section preservation.
Context {St : Type} `{JobStore St} (hasPRs : bool) (LeaseTTL : Z).

Lemma fresh_spec owner (s : @Sys St) : fresh owner s = true → owner ≠ "" ∧ owner ∉ sy_owners s.
Proof.
  unfold fresh. intros [H1 H2]%andb_true_iff. apply negb_true_iff in H1, H2. split.
  - by apply String.eqb_neq.
  - intros Hin. assert (existsb (String.eqb owner) (sy_owners s) = true) as E; [|congruence].
    apply existsb_exists. exists owner. split; [by apply list_elem_of_In|by apply String.eqb_refl].
Qed.

Lemma sinv_owner (s : @Sys St) phs i t : sinv s phs → sy_threads s !! i = Some t →
  th_owner t ≠ "" ∧ th_owner t ∈ sy_owners s.
Proof. intros Hs Hi. destruct (si_owners _ _ Hs) as [_ Hf]. by eapply Forall_lookup_1 in Hf. Qed.

Lemma sinv_owner_inj (s : @Sys St) phs i k t u : sinv s phs →
  sy_threads s !! i = Some t → sy_threads s !! k = Some u → th_owner t = th_owner u → i = k.
Proof.
  intros Hs Hi Hk Ho. destruct (si_owners _ _ Hs) as [Hnd _]. eapply NoDup_lookup; [done|..].
  - by rewrite list_lookup_fmap, Hi.
  - by rewrite list_lookup_fmap, Hk, Ho.
Qed.

Lemma sinv_fresh_owner (s : @Sys St) phs owner : sinv s phs → owner ∉ sy_owners s →
  owner ∉ (th_owner <$> sy_threads s).
Proof.
  intros Hs Ho (t & -> & Hin)%list_elem_of_fmap. apply Ho. apply list_elem_of_lookup in Hin as [i Hi].
  by eapply sinv_owner.
Qed.

(** The documents when a worker is added or restarted. *)
Lemma doc_inv_spawn (s s' : @Sys St) phs phs' k j req owner :
  doc_inv s phs k j → sy_trace s' = sy_trace s → sy_owners s' = owner :: sy_owners s →
  (∀ q, q ∈ sy_queue s → q ∈ sy_queue s' ∨ keyOf q = keyOf req) →
  has (unsettled (keyOf req)) (sy_threads s') phs' →
  (∀ o, has (holder k o) (sy_threads s) phs → has (holder k o) (sy_threads s') phs') →
  (has (unsettled k) (sy_threads s) phs → has (unsettled k) (sy_threads s') phs') →
  doc_inv s' phs' k j.
Proof.
  intros [D1 D2 D3 D4 D5 D6] Etr Eow Hq Hnew Hh Hu. split; rewrite ?Etr, ?Eow; try done.
  - destruct D2; [by left|right]. apply elem_of_cons; by right.
  - intros Hne. destruct (D3 Hne); auto.
  - destruct D4 as [?|[?|[(q & Hin & Hk)|?]]]; [by left|by right; left| |by right; right; right; auto].
    destruct (Hq q Hin) as [?|Heq]; [right; right; left; by exists q|].
    right; right; right. rewrite <-Hk, Heq. done.
Qed.

Lemma newThread_follows req owner :
  follows Res (wAllowed (th_owner (newThread hasPRs req owner)) (th_req (newThread hasPRs req owner))) wNext wFinal
    PStart (th_code (newThread hasPRs req owner)).
Proof. apply Handle_follows. Qed.

Lemma sinv_append (s s' : @Sys St) phs req owner :
  sinv s phs → fresh owner s = true →
  sy_store s' = sy_store s → sy_trace s' = sy_trace s → sy_owners s' = owner :: sy_owners s →
  sy_threads s' = sy_threads s ++ [newThread hasPRs req owner] →
  (∀ q, q ∈ sy_queue s → q ∈ sy_queue s' ∨ keyOf q = keyOf req) →
  sinv s' (phs ++ [PStart]).
Proof.
  intros Hs [Hne Hfr]%fresh_spec Est Etr Eow Eth Hq.
  pose proof (sinv_fresh_owner _ _ _ Hs Hfr) as Hnew. destruct Hs as [I1 [I2a I2b] I3 I4 I5 I6 I7].
  pose proof (Forall2_length _ _ _ I1) as Hlen.
  assert (∀ i t ph, (sy_threads s ++ [newThread hasPRs req owner]) !! i = Some t → (phs ++ [PStart]) !! i = Some ph →
    (sy_threads s !! i = Some t ∧ phs !! i = Some ph) ∨ (t = newThread hasPRs req owner ∧ ph = PStart)) as Hlk.
  { intros i t ph [?|[Hi Ht]]%lookup_app_Some [?|[Hi' Hp]]%lookup_app_Some; try (by left).
    - apply lookup_lt_Some in H0. lia.
    - apply lookup_lt_Some in H0. lia.
    - apply list_lookup_singleton_Some in Ht as [_ <-], Hp as [_ <-]. by right. }
  split; rewrite ?Est, ?Etr, ?Eow, ?Eth; try done.
  - apply Forall2_app; [done|]. constructor; [|done]. apply newThread_follows.
  - split.
    + rewrite fmap_app. apply NoDup_app. split_and!; [done| |apply NoDup_singleton].
      intros o Ho ->%list_elem_of_singleton. done.
    + apply Forall_app. split; [|apply Forall_singleton; split; [done|apply elem_of_cons; by left]].
      eapply Forall_impl; [done|]. intros t [? ?]. split; [done|]. apply elem_of_cons; by right.
  - intros k. eapply doc_inv_spawn; try done; rewrite ?Eth.
    + apply has_last; [done|]. split; [done|by left].
    + intros o. apply has_app.
    + apply has_app.
  - intros i t j Ht Hp. destruct (Hlk _ _ _ Ht Hp) as [[? ?]|[_ ?]]; [by eapply I4|done].
  - intros i t ph Ht Hp. destruct (Hlk _ _ _ Ht Hp) as [[? ?]|[-> ->]]; [by eapply I6|]. simpl. by apply I7.
  - intros o Ho. apply I7. intros Hin. apply Ho. rewrite fmap_app. apply elem_of_app. by left.
Qed.

Lemma sinv_retry (s : @Sys St) phs i t e owner : sinv s phs → fresh owner s = true →
  sy_threads s !! i = Some t → th_code t = Ret (Some e) →
  sinv (mkSys (sy_store s) (sy_clock s) (sy_queue s) (<[i := newThread hasPRs (th_req t) owner]> (sy_threads s))
          (owner :: sy_owners s) (sy_trace s)) (<[i := PStart]> phs).
Proof.
  intros Hs [Hne Hfr]%fresh_spec Hi Hc.
  pose proof (sinv_fresh_owner _ _ _ Hs Hfr) as Hnew.
  pose proof (λ k u, sinv_owner_inj s phs i k t u Hs Hi) as Hinj.
  destruct Hs as [I1 [I2a I2b] I3 I4 I5 I6 I7].
  destruct (Forall2_lookup_l _ _ _ _ _ I1 Hi) as (ph & Hph & Hf). rewrite Hc in Hf. simpl in Hf.
  assert (ph = PFailed) as -> by (destruct ph; simpl in Hf; done).
  split; simpl; try done.
  - apply Forall2_insert; [done|]. apply newThread_follows.
  - split; [rewrite list_fmap_insert; by apply NoDup_insert_new|].
    apply Forall_insert; [|split; [done|apply elem_of_cons; by left]].
    eapply Forall_impl; [done|]. intros u [? ?]. split; [done|]. apply elem_of_cons; by right.
  - intros k. eapply (doc_inv_spawn s) with (req := th_req t); try done; simpl.
    + auto.
    + apply has_new; [by eexists..|]. split; [done|by left].
    + intros o. eapply has_upd; [done|done|]. by intros (_ & _ & l & ?).
    + eapply has_upd; [done|done|]. intros [Hk _]. split; [done|by left].
  - intros k u j Hu Hp. apply list_lookup_insert_Some in Hp as [(_ & ? & _)|[Hik Hp]]; [done|].
    rewrite list_lookup_insert_ne in Hu by done. by eapply I4.
  - intros k u ph Hu Hp. apply list_lookup_insert_Some in Hu as [(<- & <- & _)|[Hik Hu]].
    + rewrite list_lookup_insert_eq in Hp by (by eapply lookup_lt_Some). simplify_eq. simpl. by apply I7.
    + rewrite list_lookup_insert_ne in Hp by done. by eapply I6.
  - intros o Ho. destruct (decide (o = th_owner t)) as [->|Hot]; [by apply (I6 _ _ _ Hi Hph)|].
    apply I7. intros (u & -> & Hin)%list_elem_of_fmap. apply Ho. apply list_elem_of_fmap.
    apply list_elem_of_lookup in Hin as [k Hk]. exists u. split; [done|]. apply list_elem_of_lookup. exists k.
    rewrite list_lookup_insert_ne; [done|]. intros ->. simplify_eq.
Qed.

Lemma sinv_run (s : @Sys St) phs i owner req o k env : sinv s phs →
  sy_threads s !! i = Some (mkThread owner req (Call o k)) →
  let x := exec LeaseTTL env o s in
  ∃ phs', sinv (mkSys x.1.2 (sy_clock s) x.2 (<[i := mkThread owner req (k x.1.1)]> (sy_threads s))
          (sy_owners s) (events owner o x.1.1 ++ sy_trace s)) phs'.
Proof.
  intros Hs Hi x. destruct (sinv_owner _ _ _ _ Hs Hi) as [Hne Hin]. simpl in Hne, Hin.
  pose proof (λ k u, sinv_owner_inj s phs i k _ u Hs Hi) as Hinj. simpl in Hinj.
  destruct Hs as [I1 [I2a I2b] I3 I4 I5 I6 I7].
  destruct (Forall2_lookup_l _ _ _ _ _ I1 Hi) as (ph & Hph & [Ho Hk]). simpl in Ho, Hk.
  destruct (exec_effect LeaseTTL env owner req ph o s Ho) as (j' & qs & Heff & Hqs & Hst). fold x in Heff, Hqs, Hst.
  set (ph' := wNext ph o x.1.1) in *. set (evs := events owner o x.1.1) in *.
  set (t' := mkThread owner req (k x.1.1)).
  destruct (effect_books _ _ _ _ _ _ _ _ _ _ (mkThread owner req (Call o k)) t' Heff eq_refl eq_refl) as [Hbook Hothers].
  destruct (effect_posts _ _ _ _ _ _ _ _ _ _ (sy_trace s) Heff) as [Hposts Hread]; [|done|].
  { intros j0 ->. by apply (I4 _ _ _ Hi Hph). }
  assert (th_owner <$> <[i := t']> (sy_threads s) = th_owner <$> sy_threads s) as Eowners.
  { rewrite list_fmap_insert. apply list_insert_id. by rewrite list_lookup_fmap, Hi. }
  exists (<[i := ph']> phs). split; simpl; try done.
  - apply Forall2_insert; [done|]. simpl. apply Hk.
  - rewrite Eowners. split; [done|]. by apply Forall_insert.
  - intros k0. rewrite Hst. case_decide as Hk0.
    + subst k0. eapply (doc_inv_change s); [apply I3|done|done|done|done|done|done|].
      by eapply (effect_change s _ _ (mkThread owner req (Call o k))); [apply I3|..].
    + eapply (doc_inv_other s); [apply I3|done|done| | |done|done| |done|].
      * simpl. unfold th_key. simpl. congruence.
      * simpl. unfold th_key. simpl. congruence.
      * simpl. rewrite Hqs. intros q Hq. apply elem_of_app. by left.
      * intros o' k' tok out Hev. by rewrite (effect_complete_key _ _ _ _ _ _ _ _ _ _ _ _ _ _ Heff Hev).
  - intros i' u j Hu Hp. apply list_lookup_insert_Some in Hu as [(<- & <- & _)|[Hik Hu]].
    + rewrite list_lookup_insert_eq in Hp by (by eapply lookup_lt_Some). apply Hread. by simplify_eq.
    + rewrite list_lookup_insert_ne in Hp by done. apply elem_of_app. right. by eapply I4.
  - intros i' u ph1 Hu Hp. rewrite postsBy_app, addsBy_app.
    apply list_lookup_insert_Some in Hu as [(<- & <- & _)|[Hik Hu]].
    + rewrite list_lookup_insert_eq in Hp by (by eapply lookup_lt_Some). simplify_eq. simpl.
      pose proof (I6 _ _ _ Hi Hph) as E6. cbn [th_owner] in E6. by rewrite E6, !app_assoc, Hbook.
    + rewrite list_lookup_insert_ne in Hp by done.
      destruct (Hothers (th_owner u)) as [-> ->]; [|by apply (I6 _ _ _ Hu Hp)].
      intros Heq. destruct Hik. by eapply Hinj.
  - intros o0. rewrite Eowners. intros Ho0. rewrite postsBy_app, addsBy_app.
    destruct (Hothers o0) as [-> ->]; [|by apply I7].
    intros ->. apply Ho0. apply list_elem_of_fmap. exists (mkThread owner req (Call o k)).
    split; [done|]. apply list_elem_of_lookup. by exists i.
Qed.

Lemma step_inv l (s s' : @Sys St) phs : sinv s phs → step hasPRs LeaseTTL l s = Some s' → ∃ phs', sinv s' phs'.
Proof.
  intros Hs Hstep. destruct l as [req owner|n owner|i owner|d|i env]; simpl in Hstep.
  - destruct (fresh owner s) eqn:Hf; [|done]. injection Hstep as <-.
    eexists. eapply sinv_append; try done. simpl. auto.
  - destruct (sy_queue s !! n) as [req|] eqn:Hn; [|done]. destruct (fresh owner s) eqn:Hf; [|done]. injection Hstep as <-.
    eexists. eapply sinv_append; try done. simpl. intros q Hq.
    destruct (delete_elem_of _ _ _ _ Hn Hq) as [->|?]; [by right|by left].
  - destruct (sy_threads s !! i) as [[ow req [[e|]|o k]]|] eqn:Hi; try done.
    destruct (fresh owner s) eqn:Hf; [|done]. injection Hstep as <-.
    eexists. by apply (sinv_retry s phs i (mkThread ow req (Ret (Some e))) e).
  - injection Hstep as <-. exists phs. destruct Hs as [I1 I2 I3 I4 I5 I6 I7]. split; try done.
    intros k. by destruct (I3 k).
  - destruct (sy_threads s !! i) as [[ow req [r|o k]]|] eqn:Hi; try done. injection Hstep as <-.
    by eapply sinv_run.
Qed.

Lemma sys_reachable_inv (s : @Sys St) : reachable hasPRs LeaseTTL s → ∃ phs, sinv s phs.
Proof.
  intros (st & now & ls & Hz & Hrun).
  assert (∃ phs, sinv (init st now) phs) as Hinit.
  { exists []. split; simpl; try done; [by repeat constructor|]. intros k. rewrite Hz. split; simpl; try done.
    - by left.
    - by left. }
  revert Hinit Hrun. generalize (init st now). induction ls as [|l ls IH]; intros s0 [phs Hs0]; simpl.
  - intros [= <-]. by exists phs.
  - destruct (step hasPRs LeaseTTL l s0) as [s1|] eqn:E; [|done]. intros Hrun.
    eapply IH; [|done]. by eapply step_inv.
Qed.
End preservation.

(** * Properties *)

Section facts.
Context {St : Type} `{JobStore St} (hasPRs : bool) (LeaseTTL : Z).

(** A worker whose program has ended is in a final phase. *)
Lemma ended_phase (s : @Sys St) phs i t ph r : sinv s phs → sy_threads s !! i = Some t → phs !! i = Some ph →
  th_code t = Ret r → wFinal ph r.
Proof.
  intros Hs Ht Hp Hc. pose proof (Forall2_lookup_lr _ _ _ _ _ _ (si_threads _ _ Hs) Ht Hp) as Hf.
  simpl in Hf. by rewrite Hc in Hf.
Qed.

Lemma ended_unleased (s : @Sys St) phs i t r k : sinv s phs → sy_threads s !! i = Some t → th_code t = Ret r →
  j_LeaseOwner (js_read (sy_store s) k) = th_owner t → EvUnreleased (th_owner t) k ∈ sy_trace s.
Proof.
  intros Hs Ht Hc Ho. destruct (sinv_owner _ _ _ _ Hs Ht) as [Hne _].
  destruct (di_lease _ _ _ _ (si_docs _ _ Hs k)) as [(a & u & ph & Hu & Hp & _ & Hou & l & ->)|Hun]; [congruence| |congruence].
  assert (i = a) as <- by (eapply (sinv_owner_inj s); [done|done|done|congruence]). simplify_eq.
  by pose proof (ended_phase _ _ _ _ _ _ Hs Ht Hp Hc).
Qed.

Lemma posts_justified_split l1 o body l2 : posts_justified (l1 ++ EvPost o body :: l2) →
  ∃ k j, EvRead o k j ∈ l2 ∧ bodyFor o j body.
Proof.
  induction l1 as [|e l1 IH]; [by intros [? _]|]. simpl app. intros Hp. apply IH.
  by destruct e; [|destruct Hp as [_ Hp]|..].
Qed.
End facts.

(** ** Concrete runs *)

Definition exReq (head delivery : string) : ReviewRequest := mkReq 7 "acme" "r" 3 head "main" "u" delivery.
Definition exKey : JobKey := keyOf (exReq "" "").

(** Every call outside of the store succeeds; no AI is configured. *)
Definition okEnv (o : Op) : Res o :=
  match o return Res o with
  | OMutate _ _ => inr unavailable
  | OGet _ => inr unavailable
  | OInstallationToken _ _ _ => inl "token"
  | OPRHead _ _ _ _ => inr unavailable
  | OFetch _ _ _ _ => inl "dir"
  | OCleanup _ => tt
  | OReview _ _ _ => inl []
  | OAIConfig _ => inl (mkAIConfig "" "" "" "")
  | ODiff _ _ _ => ("", None)
  | OComment _ _ _ => ("", 0%Z, None)
  | OCreateComment _ _ _ _ _ => inl 11%Z
  | OUpdateComment _ _ _ _ _ | OLedgerAdd _ _ _ | OEnqueue _ => None
  end.
(** The same with token minting failing. *)
Definition noTokenEnv (o : Op) : Res o :=
  match o return Res o with
  | OInstallationToken a b c => inr unavailable
  | o => okEnv o
  end.

Definition runs (n i : nat) : list Label := replicate n (LRun i okEnv).

(** A push arrives while the first is under review; its follow-up is delivered
    and reviewed. *)
Definition exTwoPushes : list Label :=
  [LSpawn (exReq "a" "d1") "o1"] ++ runs 3 0 ++ [LSpawn (exReq "b" "d2") "o2"] ++ runs 1 1 ++ runs 7 0
  ++ [LDeliver 0 "o3"] ++ runs 12 2.
Definition exEnd : option (@Sys Memory) := run true 60 exTwoPushes (init NewMemory 0).
Example exTwoPushes_ok : (λ s, (js_read (sy_store s) exKey, sy_queue s,
    (λ t, match th_code t with Ret None => true | _ => false end) <$> sy_threads s, addsBy "o3" (sy_trace s))) <$> exEnd =
  Some (mkJob StatusIdle "b" zeroTime "" "b" 11 1 0, [], [true; true; true], [(7%Z, 1%Z, 0%Z)]).
Proof. vm_compute. reflexivity. Qed.

(** The release after a failure fails as well; the queue's retry finds the
    lease still running and gives up with success. *)
Definition exLostPush : list Label :=
  [LSpawn (exReq "a" "d1") "o1"; LRun 0 okEnv; LRun 0 noTokenEnv; LRun 0 okEnv; LRetry 0 "o2"; LRun 0 okEnv].
Definition exLost : option (@Sys Flaky) :=
  run true 60 exLostPush (init (mkFlaky NewMemory [false; true; false]) 0).

(** A worker is overtaken between reading the document and posting. *)
Definition exOvertaken : list Label :=
  [LSpawn (exReq "a" "d1") "o1"] ++ runs 7 0 ++ [LTick 60; LSpawn (exReq "a" "d2") "o2"] ++ runs 1 1.
Definition exBeforePost : option (@Sys Memory) := run true 60 exOvertaken (init NewMemory 0).

Section theorems.
Context {St : Type} `{JobStore St} (hasPRs : bool) (LeaseTTL : Z).


(** C15. A live lease is exclusive: while a pull request is under review and the
    lease has not expired, nothing any other worker, delivery, retry or the
    clock does changes who holds the lease, its expiry, the reviewed commit or
    the usage counters. *)
Theorem lease_exclusive (s s' : @Sys St) l k :
  reachable hasPRs LeaseTTL s → step hasPRs LeaseTTL l s = Some s' →
  let j := js_read (sy_store s) k in
  let j' := js_read (sy_store s') k in
  j_Status j = StatusRunning → (sy_clock s < j_LeaseExpiry j)%Z →
  (∀ i env t, l = LRun i env → sy_threads s !! i = Some t → th_owner t ≠ j_LeaseOwner j) →
  j_Status j' = StatusRunning ∧ j_LeaseOwner j' = j_LeaseOwner j ∧ j_LeaseExpiry j' = j_LeaseExpiry j ∧
  j_LastReviewedSHA j' = j_LastReviewedSHA j ∧ j_ReviewCount j' = j_ReviewCount j ∧
  j_TokensUsed j' = j_TokensUsed j.
Proof.
  intros [phs Hs]%sys_reachable_inv Hstep j j' Hrun Hexp Hother.
  assert (sy_store s' = sy_store s → j_Status j' = StatusRunning ∧ j_LeaseOwner j' = j_LeaseOwner j ∧
    j_LeaseExpiry j' = j_LeaseExpiry j ∧ j_LastReviewedSHA j' = j_LastReviewedSHA j ∧
    j_ReviewCount j' = j_ReviewCount j ∧ j_TokensUsed j' = j_TokensUsed j) as Hsame.
  { intros E. unfold j'. by rewrite E. }
  destruct l as [req owner|n owner|i owner|d|i env]; simpl in Hstep; [| | | |].
  1-4: apply Hsame; repeat case_match; by simplify_eq.
  destruct (sy_threads s !! i) as [[owner req [r|o kk]]|] eqn:Hi; try done. injection Hstep as <-.
  specialize (Hother i env _ eq_refl Hi). simpl in Hother.
  destruct (Forall2_lookup_l _ _ _ _ _ (si_threads _ _ Hs) Hi) as (ph & Hph & [Ho _]). simpl in Ho.
  destruct (exec_effect LeaseTTL env owner req ph o s Ho) as (j1 & qs & Heff & _ & Hst).
  unfold j'. simpl. rewrite Hst. case_decide as Hk; [|done]. subst k. fold j in Heff.
  by apply (effect_other_lease _ _ _ _ _ _ _ _ _ _ Heff).
Qed.

(** A worker that has returned holds no lease, whatever failed on the way,
    unless its release transaction itself failed. *)
Theorem lease_released (s : @Sys St) i t r k :
  reachable hasPRs LeaseTTL s → sy_threads s !! i = Some t → th_code t = Ret r →
  j_LeaseOwner (js_read (sy_store s) k) = th_owner t → EvUnreleased (th_owner t) k ∈ sy_trace s.
Proof. intros [phs Hs]%sys_reachable_inv. by apply (ended_unleased s phs). Qed.

(** Every comment posted or updated is the rendering of a review of the
    commit that was the pull request's target, made under the worker's own
    lease, according to the document the worker had read before posting. *)
Theorem comment_justified (s : @Sys St) l1 o body l2 :
  reachable hasPRs LeaseTTL s → sy_trace s = l1 ++ EvPost o body :: l2 →
  ∃ k j results commentary, EvRead o k j ∈ l2 ∧ j_LeaseOwner j = o ∧
    body = ComposeComment (j_TargetSHA j) results commentary.
Proof.
  intros [phs Hs]%sys_reachable_inv E. pose proof (si_posts _ _ Hs) as Hp. rewrite E in Hp.
  destruct (posts_justified_split _ _ _ _ Hp) as (k & j & Hin & results & c & -> & Ho). by exists k, j, results, c.
Qed.

(** Usage is metered exactly: each document counts the completed reviews of
    its pull request and the sum of their tokens, modulo 64 bits, and a worker
    that has returned made one ledger entry, with the tokens of its review, for
    each review it completed and none otherwise. *)
Theorem usage_metered (s : @Sys St) :
  reachable hasPRs LeaseTTL s →
  (∀ k, j_ReviewCount (js_read (sy_store s) k) = wrap_i64 (Z.of_nat (length (postsFor k (sy_trace s)))) ∧
        j_TokensUsed (js_read (sy_store s) k) = wrap_i64 (sumZ (postsFor k (sy_trace s)))) ∧
  (∀ i t r, sy_threads s !! i = Some t → th_code t = Ret r →
     addsBy (th_owner t) (sy_trace s) = postsBy (th_owner t) (sy_trace s)).
Proof.
  intros [phs Hs]%sys_reachable_inv. split.
  - intros k. destruct (si_docs _ _ Hs k). done.
  - intros i t r Ht Hc. destruct (Forall2_lookup_l _ _ _ _ _ (si_threads _ _ Hs) Ht) as (ph & Hp & _).
    pose proof (ended_phase _ _ _ _ _ _ Hs Ht Hp Hc) as Hf. rewrite (si_pend _ _ Hs _ _ _ Ht Hp).
    by destruct ph.
Qed.
End theorems.

(** ** Concrete executions *)

Definition returnedNil (t : Thread) : bool := match th_code t with Ret None => true | _ => false end.
Definition unreleased (e : Event) : bool := match e with EvUnreleased _ _ => true | _ => false end.

Lemma all_returnedNil ths : forallb returnedNil ths = true →
  ∀ i t, ths !! i = Some t → th_code t = Ret None.
Proof.
  intros Hall i t Hi. rewrite forallb_forall in Hall.
  assert (returnedNil t = true) as Ht by (by apply Hall, list_elem_of_In, (list_elem_of_lookup_2 _ i)).
  unfold returnedNil in Ht. by destruct (th_code t) as [[|]|].
Qed.

Lemma no_unreleased tr : existsb unreleased tr = false → ∀ o k, EvUnreleased o k ∉ tr.
Proof.
  intros Hno o k Hin. assert (existsb unreleased tr = true); [|congruence].
  apply existsb_exists. exists (EvUnreleased o k). split; [by apply list_elem_of_In|done].
Qed.

Lemma exEnd_run : ∃ s, exEnd = Some s ∧ reachable true 60 s ∧ forallb returnedNil (sy_threads s) = true ∧
  sy_queue s = [] ∧ existsb unreleased (sy_trace s) = false ∧ j_TargetSHA (js_read (sy_store s) exKey) = "b" ∧
  (∃ body, sy_trace s !! 2 = Some (EvPost "o3" body)) ∧ th_owner <$> sy_threads s !! 2 = Some "o3".
Proof.
  assert (∃ body, (λ s, (forallb returnedNil (sy_threads s), sy_queue s, existsb unreleased (sy_trace s),
    j_TargetSHA (js_read (sy_store s) exKey), sy_trace s !! 2, th_owner <$> sy_threads s !! 2)) <$> exEnd =
    Some (true, [], false, "b", Some (EvPost "o3" body), Some "o3")) as [body Hobs] by (vm_compute; by eexists).
  destruct exEnd as [s|] eqn:E; [|done]. injection Hobs as H1 H2 H3 H4 H5 H6. exists s. split; [done|]. split.
  { exists NewMemory, 0%Z, exTwoPushes. split; [done|exact E]. }
  split_and!; [exact H1|exact H2|exact H3|exact H4|by exists body|exact H6].
Qed.


(** A second delivery while the first is under review. *)
Definition exSharedPush : list Label :=
  [LSpawn (exReq "a" "d1") "o1"] ++ runs 3 0 ++ [LSpawn (exReq "b" "d2") "o2"].
Definition exShared : option (@Sys Memory) := run true 60 exSharedPush (init NewMemory 0).
(** A failed review whose release failed, before the retry. *)
Definition exFailed : option (@Sys Flaky) :=
  run true 60 (take 4 exLostPush) (init (mkFlaky NewMemory [false; true; false]) 0).

Lemma lease_exclusive_witness : ∃ s s' : @Sys Memory,
  step true 60 (LRun 1 okEnv) s = Some s' ∧ j_LeaseOwner (js_read (sy_store s') exKey) = "o1" ∧
  j_TargetSHA (js_read (sy_store s') exKey) = "b".
Proof.
  assert ((λ s, (js_read (sy_store s) exKey, sy_clock s, th_owner <$> sy_threads s !! 1,
     (λ s', j_TargetSHA (js_read (sy_store s') exKey)) <$> step true 60 (LRun 1 okEnv) s)) <$> exShared =
     Some (mkJob StatusRunning "a" 60 "o1" "" 0 0 0, 0%Z, Some "o2", Some "b")) as Hobs by (vm_compute; reflexivity).
  apply fmap_Some in Hobs as (s & E & Hobs). cbn beta in Hobs. symmetry in Hobs.
  apply pair_equal_spec in Hobs as [Hobs H4]. apply pair_equal_spec in Hobs as [Hobs H3].
  apply pair_equal_spec in Hobs as [H1 H2].
  apply fmap_Some in H4 as (s' & E' & H4). exists s, s'. split; [exact E'|].
  destruct (lease_exclusive true 60 s s' (LRun 1 okEnv) exKey) as (_ & Ho & _).
  - exists NewMemory, 0%Z, exSharedPush. split; [reflexivity|exact E].
  - exact E'.
  - rewrite H1. reflexivity.
  - rewrite H1, H2. reflexivity.
  - clear E E'. intros i env t Hl Ht. assert (i = 1) as -> by congruence. rewrite Ht in H3. rewrite H1.
    injection H3 as ->. discriminate.
  - rewrite Ho, H1. split; [reflexivity|]. symmetry. exact H4.
Defined.

Lemma lease_released_witness : ∃ (s : @Sys Flaky) t,
  sy_threads s !! 0 = Some t ∧ th_owner t = "o1" ∧ j_LeaseOwner (js_read (sy_store s) exKey) = "o1" ∧
  EvUnreleased (th_owner t) exKey ∈ sy_trace s.
Proof.
  assert (∃ e, (λ s, (js_read (sy_store s) exKey,
     (λ t, (th_owner t, match th_code t with Ret r => r | _ => None end)) <$> sy_threads s !! 0)) <$> exFailed =
    Some (mkJob StatusRunning "a" 60 "o1" "" 0 0 0, Some ("o1", Some e))) as [e Hobs] by (vm_compute; by eexists).
  apply fmap_Some in Hobs as (s & E & Hobs). cbn beta in Hobs. symmetry in Hobs.
  apply pair_equal_spec in Hobs as [H1 H2].
  apply fmap_Some in H2 as (t & Ht & [= H2 H3]). symmetry in H2, H3.
  destruct (th_code t) as [r|] eqn:Hc; [|discriminate H3].
  exists s, t. split_and!; [exact Ht|exact H2|rewrite H1; reflexivity|].
  apply (lease_released true 60 s 0 t r exKey); [|exact Ht|exact Hc|rewrite H1, H2; reflexivity].
  exists (mkFlaky NewMemory [false; true; false]), 0%Z, (take 4 exLostPush). split; [done|exact E].
Defined.

Lemma comment_justified_witness : ∃ (s : @Sys Memory) l1 body l2 k j results commentary,
  exEnd = Some s ∧ sy_trace s = l1 ++ EvPost "o3" body :: l2 ∧ EvRead "o3" k j ∈ l2 ∧ j_LeaseOwner j = "o3" ∧
  body = ComposeComment (j_TargetSHA j) results commentary.
Proof.
  destruct exEnd_run as (s & E & Hr & _ & _ & _ & _ & [body Hb] & _).
  apply list_elem_of_lookup_2, list_elem_of_split in Hb as (l1 & l2 & Hl).
  destruct (comment_justified true 60 s l1 "o3" body l2 Hr Hl) as (k & j & results & c & H1 & H2 & H3).
  exists s, l1, body, l2, k, j, results, c. split_and!; [exact E|exact Hl|exact H1|exact H2|exact H3].
Defined.

Lemma usage_metered_witness : ∃ s : @Sys Memory, exEnd = Some s ∧
  addsBy "o3" (sy_trace s) = postsBy "o3" (sy_trace s).
Proof.
  destruct exEnd_run as (s & E & Hr & Hend & _ & _ & _ & _ & Ho). exists s. split; [exact E|clear E].
  destruct (usage_metered true 60 s Hr) as [_ Hm]. destruct (sy_threads s !! 2) as [t|] eqn:Ht; [|done].
  injection Ho as <-. apply (Hm 2 t None Ht). by apply (all_returnedNil _ Hend 2).
Defined.

(** Retries are not as durable as they are meant to be: a worker whose
    review failed and whose release failed too returns an error, the queue runs
    the task again within the lease time, and the second run is told that a
    review is under way and reports success; no worker is left, nothing is
    queued, and the pushed commit is never reviewed. *)
Theorem failed_release_loses_push : ∃ s : @Sys Flaky,
  reachable true 60 s ∧ (∀ i t, sy_threads s !! i = Some t → th_code t = Ret None) ∧ sy_queue s = [] ∧
  j_TargetSHA (js_read (sy_store s) exKey) = "a" ∧ j_LastReviewedSHA (js_read (sy_store s) exKey) = "".
Proof.
  assert ((λ s, (forallb returnedNil (sy_threads s), sy_queue s, j_TargetSHA (js_read (sy_store s) exKey),
    j_LastReviewedSHA (js_read (sy_store s) exKey))) <$> exLost = Some (true, [], "a", "")) as Hobs
    by (vm_compute; reflexivity).
  destruct exLost as [s|] eqn:E; [|done]. injection Hobs as H1 H2 H3 H4. exists s.
  split_and!; [|exact (all_returnedNil _ H1)|exact H2|exact H3|exact H4].
  exists (mkFlaky NewMemory [false; true; false]), 0%Z, exLostPush. split; [done|exact E].
Qed.

(** The check before posting is not atomic with posting: a worker may post
    on a lease that has been taken over in between. *)
Theorem post_after_takeover : ∃ s s' : @Sys Memory,
  reachable true 60 s ∧ step true 60 (LRun 0 okEnv) s = Some s' ∧
  (∃ body, sy_trace s' = EvPost "o1" body :: sy_trace s) ∧
  j_LeaseOwner (js_read (sy_store s) exKey) = "o2".
Proof.
  assert (∃ body tr, (λ s, (j_LeaseOwner (js_read (sy_store s) exKey), sy_trace s,
    sy_trace <$> step true 60 (LRun 0 okEnv) s)) <$> exBeforePost =
    Some ("o2", tr, Some (EvPost "o1" body :: tr))) as (body & tr & Hobs) by (vm_compute; by do 2 eexists).
  apply fmap_Some in Hobs as (s & E & Hobs). cbn beta in Hobs. symmetry in Hobs.
  apply pair_equal_spec in Hobs as [Hobs H3]. apply pair_equal_spec in Hobs as [H1 H2].
  apply fmap_Some in H3 as (s' & E' & H3). exists s, s'. split_and!; [|exact E'| |exact H1].
  - exists NewMemory, 0%Z, exOvertaken. split; [done|exact E].
  - exists body. rewrite H2. symmetry. exact H3.
Qed.
