(* ===== verification/FileSystem.v ===== *)
(** A file system with directories, files and symbolic links, and the calls of
    package os and path/filepath that src/patchapply, src/semindex and
    src/tools/agentcli make.

    A state maps the absolute location of every entry below the root to a file
    with its content and permissions, a directory, or a link.  Every call first
    consults a list of faults, so a caller's handling of failing calls can be
    examined; a system call that fails that way does nothing.  [os.MkdirAll] is
    a program of such calls, so it can fail half way.  The owner, the times
    and the link count of files are left out, and so is any other process. *)

From Stdlib Require Import Ascii.
From stdpp Require Import base gmap list strings.
From S2P Require Import Prelude Paths.

Inductive Node :=
| NFile (content : string) (mode : Z)
| NDir
| NLink (target : string).
#[export] Instance Node_eq_dec : EqDecision Node.
Proof. solve_decision. Defined.

(** The absolute location of an entry: its names from the root. *)
Abbreviation Loc := (list string).
Abbreviation FS := (gmap Loc Node).

Definition node (fs : FS) (p : Loc) : option Node := match p with [] => Some NDir | _ => fs !! p end.

Definition ENOENT : error := Const "no such file or directory".
Definition ENOTDIR : error := Const "not a directory".
Definition EISDIR : error := Const "is a directory".
Definition EEXIST : error := Const "file exists".
Definition ENOTEMPTY : error := Const "directory not empty".
Definition ELOOP : error := Const "too many links".
Definition ENAMETOOLONG : error := Const "file name too long".
Definition EBUSY : error := Const "device or resource busy".

(** [os.IsNotExist], which does not look into wrapped errors. *)
Definition IsNotExist (e : error) : bool :=
  match e with Const s => String.eqb s "no such file or directory" | _ => false end.

(** The longest name of an entry. *)
Definition NAME_MAX : nat := 255.

(** Follow the elements [rest] from directory [cur], links included, at most
    [links] of them. *)
Fixpoint walk (links : nat) (fs : FS) : Loc → list string → Loc + error :=
  fix go (cur : Loc) (rest : list string) : Loc + error :=
    match rest with
    | [] => inl cur
    | c :: rest =>
      if String.eqb c "." then go cur rest
      else if String.eqb c ".." then go (removelast cur) rest
      else if decide (NAME_MAX < String.length c) then inr ENAMETOOLONG
      else match fs !! (cur ++ [c]) with
      | None => inr ENOENT
      | Some NDir => go (cur ++ [c]) rest
      | Some (NFile _ _) => match rest with [] => inl (cur ++ [c]) | _ => inr ENOTDIR end
      | Some (NLink t) =>
        match links with
        | 0 => inr ELOOP
        | S links => walk links fs (if IsAbs t then [] else cur) (elems t ++ rest)
        end
      end
    end.

(** How many links the kernel follows, and how many [filepath.EvalSymlinks]. *)
Definition kernelLinks : nat := 40.
Definition evalLinks : nat := 255.

(** The location of a path whose last element is not followed. *)
Definition locate (fs : FS) (path : string) : Loc + error :=
  match last (elems path) with
  | None => inl []
  | Some c =>
    match walk kernelLinks fs [] (removelast (elems path)) with
    | inr e => inr e
    | inl d =>
      match node fs d with
      | Some NDir => if decide (NAME_MAX < String.length c) then inr ENAMETOOLONG else inl (d ++ [c])
      | _ => inr ENOTDIR
      end
    end
  end.

(** Whether a location has entries below it, and their names. *)
Definition isChild (p q : Loc) : Prop := q ≠ [] ∧ removelast q = p.
#[export] Instance isChild_dec p q : Decision (isChild p q).
Proof. unfold isChild. apply _. Defined.
Definition children (fs : FS) (p : Loc) : list Loc := filter (isChild p) (map_to_list fs).*1.

(** * Calls *)

Definition statF (path : string) (fs : FS) : Node + error :=
  match walk kernelLinks fs [] (elems path) with
  | inr e => inr e
  | inl q => match node fs q with Some n => inl n | None => inr ENOENT end
  end.
Definition evalF (path : string) (fs : FS) : string + error :=
  match walk evalLinks fs [] (elems path) with inr e => inr e | inl q => inl (abs q) end.
Definition readFileF (path : string) (fs : FS) : string + error :=
  match statF path fs with
  | inl (NFile content _) => inl content
  | inl _ => inr EISDIR
  | inr e => inr e
  end.
Definition readDirF (path : string) (fs : FS) : list Loc + error :=
  match walk kernelLinks fs [] (elems path) with
  | inr e => inr e
  | inl q => match node fs q with Some NDir => inl (children fs q) | _ => inr ENOTDIR end
  end.

Definition removeF (path : string) (fs : FS) : (unit + error) * FS :=
  match locate fs path with
  | inr e => (inr e, fs)
  | inl [] => (inr EBUSY, fs)
  | inl q =>
    match fs !! q with
    | None => (inr ENOENT, fs)
    | Some NDir => if decide (children fs q = []) then (inl tt, delete q fs) else (inr ENOTEMPTY, fs)
    | Some _ => (inl tt, delete q fs)
    end
  end.

Definition mkdirF (path : string) (fs : FS) : (unit + error) * FS :=
  match locate fs path with
  | inr e => (inr e, fs)
  | inl q => match node fs q with Some _ => (inr EEXIST, fs) | None => (inl tt, <[q := NDir]> fs) end
  end.

(** [os.Lstat] does not follow the last element. *)
Definition lstatF (path : string) (fs : FS) : Node + error :=
  match locate fs path with
  | inr e => inr e
  | inl q => match node fs q with Some n => inl n | None => inr ENOENT end
  end.

(** [os.MkdirAll] when no call fails for an outside reason, from the shortest
    prefix on: every prefix must become a directory; what was made before a
    failure stays. *)
Fixpoint mkdirAllF (done todo : list string) (fs : FS) : (unit + error) * FS :=
  match todo with
  | [] => (inl tt, fs)
  | c :: todo =>
    match statF (abs (done ++ [c])) fs with
    | inl NDir => mkdirAllF (done ++ [c]) todo fs
    | inl _ => (inr ENOTDIR, fs)
    | inr _ =>
      match mkdirF (abs (done ++ [c])) fs with
      | (inr e, fs) => (inr e, fs)
      | (inl _, fs) => mkdirAllF (done ++ [c]) todo fs
      end
    end
  end.

(** [os.Rename] of a file. *)
Definition renameF (old new : string) (fs : FS) : (unit + error) * FS :=
  match locate fs old with
  | inr e => (inr e, fs)
  | inl p =>
    match locate fs new with
    | inr e => (inr e, fs)
    | inl q =>
      match fs !! p, node fs q with
      | None, _ => (inr ENOENT, fs)
      | Some _, Some NDir => (inr EEXIST, fs)
      | Some n, _ => (inl tt, <[q := n]> (delete p fs))
      end
    end
  end.

(** Update the file a path leads to. *)
Definition updateF (path : string) (f : string → Z → Node) (fs : FS) : (unit + error) * FS :=
  match walk kernelLinks fs [] (elems path) with
  | inr e => (inr e, fs)
  | inl q =>
    match fs !! q with
    | Some (NFile content mode) => (inl tt, <[q := f content mode]> fs)
    | _ => (inr EISDIR, fs)
    end
  end.

(** * Calls with faults *)

Record World := mkWorld { w_fs : FS; w_faults : list (option error) }.
Definition IO (A : Type) : Type := World → A * World.
#[export] Instance IO_ret : MRet IO := λ A a w, (a, w).
#[export] Instance IO_bind : MBind IO := λ A B f m w, let x := m w in f x.1 x.2.

Definition sys {A} (f : FS → (A + error) * FS) : IO (A + error) := λ w,
  match w_faults w with
  | Some e :: faults => (inr e, mkWorld (w_fs w) faults)
  | faults => let x := f (w_fs w) in (x.1, mkWorld x.2 (tail faults))
  end.
(** A call that only reads. *)
Definition query {A} (f : FS → A + error) : IO (A + error) := sys (λ fs, (f fs, fs)).

Definition EvalSymlinks (path : string) : IO (string + error) := query (evalF path).
Definition Stat (path : string) : IO (Node + error) := query (statF path).
Definition ReadFile (path : string) : IO (string + error) := query (readFileF path).
Definition ReadDir (path : string) : IO (list Loc + error) := query (readDirF path).
Definition Remove (path : string) : IO (unit + error) := sys (removeF path).
Definition Lstat (path : string) : IO (Node + error) := query (lstatF path).
Definition Mkdir (path : string) : IO (unit + error) := sys (mkdirF path).
(** [os.MkdirAll] call by call, on the names of the path from the last one. *)
Fixpoint mkdirAll (up : list string) : IO (unit + error) :=
  let path := abs (reverse up) in
  dir ← Stat path;
  match dir with
  | inl NDir => mret (inl tt)
  | inl _ => mret (inr ENOTDIR)
  | inr _ =>
    parent ← match up with _ :: (_ :: _) as parents => mkdirAll parents | _ => mret (inl tt) end;
    match parent with
    | inr err => mret (inr err)
    | inl _ =>
      made ← Mkdir path;
      match made with
      | inl _ => mret (inl tt)
      | inr err =>
        dir ← Lstat path;
        match dir with inl NDir => mret (inl tt) | _ => mret (inr err) end
      end
    end
  end.
Definition MkdirAll (path : string) : IO (unit + error) := mkdirAll (reverse (elems path)).
Definition Rename (old new : string) : IO (unit + error) := sys (renameF old new).
Definition Chmod (path : string) (mode : Z) : IO (unit + error) :=
  sys (updateF path (λ content _, NFile content mode)).
(** [Write] and [Close] of an [os.File] with the given name. *)
Definition Write (path : string) (content : string) : IO (unit + error) :=
  sys (updateF path (λ _ mode, NFile content mode)).
Definition Close (path : string) : IO (unit + error) := query (λ _, inl tt).

Section temp.
(** The name [os.CreateTemp] tries last in a directory; the call fails when
    even that one is taken. *)
Context (tmpName : FS → Loc → string).

Definition createTempF (dir : string) (fs : FS) : (string + error) * FS :=
  match walk kernelLinks fs [] (elems dir) with
  | inr e => (inr e, fs)
  | inl d =>
    match node fs d with
    | Some NDir =>
      match fs !! (d ++ [tmpName fs d]) with
      | Some _ => (inr EEXIST, fs)
      | None => (inl (Join dir (tmpName fs d)), <[d ++ [tmpName fs d] := NFile "" 384]> fs)
      end
    | _ => (inr ENOTDIR, fs)
    end
  end.
Definition CreateTemp (dir : string) : IO (string + error) := sys (createTempF dir).
End temp.

(** * Well-formed states *)

Definition okName (c : string) : Prop := normal c ∧ String.length c ≤ NAME_MAX.

(** Every entry has a directory above it and proper names. *)
Record wf (fs : FS) : Prop := {
  wf_parent p n : fs !! p = Some n → p ≠ [] ∧ node fs (removelast p) = Some NDir;
  wf_names p n : fs !! p = Some n → Forall okName p }.

Lemma ok_normal cs : Forall okName cs → Forall normal cs.
Proof. intros H. eapply Forall_impl; [exact H|]. by intros c []. Qed.

Lemma node_app fs p c : node fs (p ++ [c]) = fs !! (p ++ [c]).
Proof. by destruct p. Qed.
Lemma node_ne fs p : p ≠ [] → node fs p = fs !! p.
Proof. by destruct p. Qed.

Lemma wf_root fs : wf fs → fs !! [] = None.
Proof. intros H. destruct (fs !! []) as [n|] eqn:E; [|done]. by destruct (wf_parent fs H [] n E). Qed.

(** Everything above an entry is a directory. *)
Lemma wf_above fs p q n : wf fs → fs !! (p ++ q) = Some n → q ≠ [] → node fs p = Some NDir.
Proof.
  intros Hwf. revert n. induction q as [|c q IH] using rev_ind; intros n Hn Hq; [done|].
  rewrite app_assoc in Hn. destruct (wf_parent fs Hwf _ _ Hn) as [_ Hp]. rewrite removelast_last in Hp.
  destruct (decide (q = [])) as [->|Hne]; [by rewrite app_nil_r in Hp|].
  rewrite node_ne in Hp by (by destruct p, q). by eapply IH.
Qed.

Lemma wf_node_above fs p q n : wf fs → node fs (p ++ q) = Some n → q ≠ [] → node fs p = Some NDir.
Proof. intros Hwf Hn Hq. rewrite node_ne in Hn by (by destruct p, q). by eapply wf_above. Qed.

(** Nothing is below a missing entry. *)
Lemma wf_below fs p q : wf fs → p ≠ [] → fs !! p = None → fs !! (p ++ q) = None.
Proof.
  intros Hwf Hp Hn. destruct (decide (q = [])) as [->|Hq]; [by rewrite app_nil_r|].
  destruct (fs !! (p ++ q)) as [n|] eqn:E; [|done]. apply wf_above in E; [|done..].
  rewrite node_ne in E by done. congruence.
Qed.

Lemma wf_node_names fs p n : wf fs → node fs p = Some n → Forall okName p.
Proof. intros Hwf. destruct p; [by constructor|]. apply (wf_names fs Hwf). Qed.

(** * Walks without links *)

Lemma walk_cons l fs cur c rest : okName c →
  walk l fs cur (c :: rest) =
  match fs !! (cur ++ [c]) with
  | None => inr ENOENT
  | Some NDir => walk l fs (cur ++ [c]) rest
  | Some (NFile _ _) => match rest with [] => inl (cur ++ [c]) | _ => inr ENOTDIR end
  | Some (NLink t) =>
    match l with
    | 0 => inr ELOOP
    | S l => walk l fs (if IsAbs t then [] else cur) (elems t ++ rest)
    end
  end.
Proof.
  intros [(H1 & H2 & H3 & _) Hlen]. apply String.eqb_neq in H2, H3.
  destruct l; simpl; rewrite H2, H3; (destruct (decide _); [lia|done]).
Qed.

Lemma walk_nil l fs cur : walk l fs cur [] = inl cur.
Proof. by destruct l. Qed.

Lemma walk_dir l fs cur p rest : wf fs → node fs (cur ++ p) = Some NDir →
  walk l fs cur (p ++ rest) = walk l fs (cur ++ p) rest.
Proof.
  intros Hwf. revert cur. induction p as [|c p IH]; intros cur Hn; [by rewrite app_nil_r|].
  assert (Forall okName (cur ++ c :: p)) as Hok by (by eapply wf_node_names).
  apply Forall_app in Hok as [_ Hok]. inversion Hok as [|? ? Hc _]; subst.
  replace (cur ++ c :: p) with ((cur ++ [c]) ++ p) in * by (by rewrite <-app_assoc).
  assert (node fs (cur ++ [c]) = Some NDir) as Hd.
  { destruct (decide (p = [])) as [->|Hp]; [by rewrite app_nil_r in Hn|]. by eapply wf_node_above. }
  rewrite node_app in Hd. simpl. rewrite walk_cons, Hd by done. by apply IH.
Qed.

Lemma walk_root l fs p : wf fs → node fs p = Some NDir → walk l fs [] p = inl p.
Proof.
  intros Hwf Hn. rewrite <-(app_nil_r p) at 1. rewrite (walk_dir l fs [] p []) by done. apply walk_nil.
Qed.

(** The three cases of a path below a directory [d]. *)
Lemma walk_child l fs d c : wf fs → node fs d = Some NDir → okName c →
  (∀ t, fs !! (d ++ [c]) ≠ Some (NLink t)) →
  walk l fs [] (d ++ [c]) = match fs !! (d ++ [c]) with Some _ => inl (d ++ [c]) | None => inr ENOENT end.
Proof.
  intros Hwf Hd Hc Hl. rewrite (walk_dir l fs [] d [c]) by done. simpl. rewrite walk_cons by done.
  destruct (fs !! (d ++ [c])) as [[| |t]|] eqn:E; [done|by rewrite walk_nil|by destruct (Hl t)|done].
Qed.

Lemma walk_missing l fs d c rest : wf fs → node fs d = Some NDir → okName c → fs !! (d ++ [c]) = None →
  walk l fs [] (d ++ c :: rest) = inr ENOENT.
Proof.
  intros Hwf Hd Hc Hn. rewrite (walk_dir l fs [] d (c :: rest)) by done. simpl. by rewrite walk_cons, Hn.
Qed.

(** * Calls on such paths *)

Lemma elems_ok p : Forall okName p → elems (abs p) = p.
Proof. intros H. by apply elems_abs, ok_normal. Qed.

Lemma locate_child fs d c : wf fs → node fs d = Some NDir → okName c → locate fs (abs (d ++ [c])) = inl (d ++ [c]).
Proof.
  intros Hwf Hd Hc. unfold locate. rewrite elems_ok.
  2:{ apply Forall_app. split; [by eapply wf_node_names|by apply Forall_singleton]. }
  rewrite last_snoc, removelast_last, walk_root, Hd by done. destruct Hc as [_ Hlen].
  destruct (decide _); [lia|done].
Qed.

Lemma locate_missing fs d c rest x : wf fs → node fs d = Some NDir → okName c → Forall okName (rest ++ [x]) →
  fs !! (d ++ [c]) = None → locate fs (abs (d ++ c :: rest ++ [x])) = inr ENOENT.
Proof.
  intros Hwf Hd Hc Hr Hn. unfold locate. rewrite elems_ok.
  2:{ apply Forall_app. split; [by eapply wf_node_names|]. by constructor. }
  replace (d ++ c :: rest ++ [x]) with ((d ++ c :: rest) ++ [x]) by (by rewrite <-app_assoc).
  by rewrite last_snoc, removelast_last, walk_missing.
Qed.

Lemma statF_dir fs d : wf fs → node fs d = Some NDir → statF (abs d) fs = inl NDir.
Proof.
  intros Hwf Hd. unfold statF. rewrite elems_ok by (by eapply wf_node_names). by rewrite walk_root, Hd.
Qed.

Lemma statF_child fs d c : wf fs → node fs d = Some NDir → okName c →
  (∀ t, fs !! (d ++ [c]) ≠ Some (NLink t)) →
  statF (abs (d ++ [c])) fs = match fs !! (d ++ [c]) with Some n => inl n | None => inr ENOENT end.
Proof.
  intros Hwf Hd Hc Hl. unfold statF. rewrite elems_ok.
  2:{ apply Forall_app. split; [by eapply wf_node_names|by apply Forall_singleton]. }
  rewrite walk_child by done. destruct (fs !! (d ++ [c])) as [n|] eqn:E; [|done]. by rewrite node_app, E.
Qed.

Lemma statF_missing fs d c rest : wf fs → node fs d = Some NDir → okName c → Forall okName rest →
  fs !! (d ++ [c]) = None → statF (abs (d ++ c :: rest)) fs = inr ENOENT.
Proof.
  intros Hwf Hd Hc Hr Hn. unfold statF. rewrite elems_ok.
  2:{ apply Forall_app. split; [by eapply wf_node_names|]. by constructor. }
  by rewrite walk_missing.
Qed.

Lemma evalF_dir fs d : wf fs → node fs d = Some NDir → evalF (abs d) fs = inl (abs d).
Proof. intros Hwf Hd. unfold evalF. rewrite elems_ok by (by eapply wf_node_names). by rewrite walk_root. Qed.

Lemma evalF_child fs d c : wf fs → node fs d = Some NDir → okName c →
  (∀ t, fs !! (d ++ [c]) ≠ Some (NLink t)) →
  evalF (abs (d ++ [c])) fs = match fs !! (d ++ [c]) with Some n => inl (abs (d ++ [c])) | None => inr ENOENT end.
Proof.
  intros Hwf Hd Hc Hl. unfold evalF. rewrite elems_ok.
  2:{ apply Forall_app. split; [by eapply wf_node_names|by apply Forall_singleton]. }
  rewrite walk_child by done. by destruct (fs !! (d ++ [c])).
Qed.

Lemma evalF_missing fs d c rest : wf fs → node fs d = Some NDir → okName c → Forall okName rest →
  fs !! (d ++ [c]) = None → evalF (abs (d ++ c :: rest)) fs = inr ENOENT.
Proof.
  intros Hwf Hd Hc Hr Hn. unfold evalF. rewrite elems_ok.
  2:{ apply Forall_app. split; [by eapply wf_node_names|]. by constructor. }
  by rewrite walk_missing.
Qed.

Lemma elem_of_children fs p q : q ∈ children fs p ↔ is_Some (fs !! q) ∧ q ≠ [] ∧ removelast q = p.
Proof.
  unfold children. rewrite list_elem_of_filter, list_elem_of_fmap. unfold isChild. split.
  - intros [[Hq Hp] ([q' n] & -> & Hin)]. apply elem_of_map_to_list in Hin. simpl in *. eauto.
  - intros ([n Hn] & Hq & Hp). split; [done|]. exists (q, n). split; [done|]. by apply elem_of_map_to_list.
Qed.

Lemma children_nil fs p : (∀ c, fs !! (p ++ [c]) = None) → children fs p = [].
Proof.
  intros H. destruct (children fs p) as [|q l] eqn:E; [done|].
  assert (q ∈ children fs p) as Hq by (rewrite E; apply elem_of_cons; by left).
  apply elem_of_children in Hq as ([n Hn] & Hne & <-).
  destruct q as [|x q _] using rev_ind; [done|]. rewrite removelast_last in H. by rewrite H in Hn.
Qed.

Lemma readDirF_dir fs d : wf fs → node fs d = Some NDir → readDirF (abs d) fs = inl (children fs d).
Proof.
  intros Hwf Hd. unfold readDirF. rewrite elems_ok by (by eapply wf_node_names). by rewrite walk_root, Hd.
Qed.

Lemma readDirF_missing fs d c rest : wf fs → node fs d = Some NDir → okName c → Forall okName rest →
  fs !! (d ++ [c]) = None → readDirF (abs (d ++ c :: rest)) fs = inr ENOENT.
Proof.
  intros Hwf Hd Hc Hr Hn. unfold readDirF. rewrite elems_ok.
  2:{ apply Forall_app. split; [by eapply wf_node_names|]. by constructor. }
  by rewrite walk_missing.
Qed.

(** * Updates *)

Lemma node_insert fs p q n : p ≠ [] → node (<[p := n]> fs) q = if decide (q = p) then Some n else node fs q.
Proof.
  intros Hp. destruct (decide (q = p)) as [->|Hne]; [rewrite node_ne by done; apply lookup_insert_eq|].
  destruct q as [|x q]; [done|]. apply lookup_insert_ne. congruence.
Qed.
Lemma node_delete fs p q : p ≠ [] → node (delete p fs) q = if decide (q = p) then None else node fs q.
Proof.
  intros Hp. destruct (decide (q = p)) as [->|Hne]; [rewrite node_ne by done; apply lookup_delete_eq|].
  destruct q as [|x q]; [done|]. apply lookup_delete_ne. congruence.
Qed.

Lemma snoc_ne {A} (d : list A) c : d ++ [c] ≠ [].
Proof. by destruct d. Qed.

(** Insert an entry into a directory; a directory is not replaced. *)
Lemma wf_insert fs d c n : wf fs → node fs d = Some NDir → okName c →
  fs !! (d ++ [c]) ≠ Some NDir ∨ n = NDir → wf (<[d ++ [c] := n]> fs).
Proof.
  intros Hwf Hd Hc Hnd. split.
  - intros p m Hp. apply lookup_insert_Some in Hp as [[<- <-]|[Hne Hp]].
    + split; [apply snoc_ne|]. rewrite removelast_last, node_insert by apply snoc_ne.
      rewrite decide_False; [done|]. intros E. apply (f_equal length) in E. rewrite length_app in E. simpl in E. lia.
    + destruct (wf_parent fs Hwf p m Hp) as [Hpn Hpar]. split; [done|]. rewrite node_insert by apply snoc_ne.
      case_decide as E; [|done]. rewrite E, node_app in Hpar. destruct Hnd as [Hnd| ->]; [congruence|done].
  - intros p m Hp. apply lookup_insert_Some in Hp as [[<- <-]|[Hne Hp]]; [|by eapply wf_names].
    apply Forall_app. split; [by eapply wf_node_names|by apply Forall_singleton].
Qed.

Lemma wf_delete fs p : wf fs → (∀ c, fs !! (p ++ [c]) = None) → wf (delete p fs).
Proof.
  intros Hwf Hch. split.
  - intros q m Hq. apply lookup_delete_Some in Hq as [Hne Hq]. destruct (wf_parent fs Hwf q m Hq) as [Hqn Hpar].
    split; [done|]. destruct (decide (p = [])) as [->|Hp].
    { by rewrite delete_id by (by apply wf_root). }
    rewrite node_delete by done. case_decide as E; [|done]. exfalso.
    destruct q as [|x q _] using rev_ind; [done|]. rewrite removelast_last in E. subst. by rewrite Hch in Hq.
  - intros q m Hq. apply lookup_delete_Some in Hq as [Hne Hq]. by eapply wf_names.
Qed.

Lemma prefix_eq {A} (a b : list A) : a `prefix_of` b → b `prefix_of` a → a = b.
Proof.
  intros [k ->] [m E]. destruct k as [|x k]; [by rewrite app_nil_r|].
  apply (f_equal length) in E. rewrite !length_app in E. simpl in E. lia.
Qed.

(** A chain of new directories: [p] and everything from [p] to [p ++ s]. *)
Fixpoint mkchain (p : Loc) (s : list string) (fs : FS) : FS :=
  match s with
  | [] => <[p := NDir]> fs
  | c :: s => mkchain (p ++ [c]) s (<[p := NDir]> fs)
  end.

Definition onChain (p : Loc) (s : list string) (q : Loc) : Prop := p `prefix_of` q ∧ q `prefix_of` p ++ s.
#[export] Instance onChain_dec p s q : Decision (onChain p s q).
Proof. unfold onChain. apply _. Defined.

Lemma onChain_cons p c s q : onChain p (c :: s) q ↔ q = p ∨ onChain (p ++ [c]) s q.
Proof.
  unfold onChain. rewrite <-app_assoc. simpl. split.
  - intros [[k ->] Hpre]. destruct k as [|x k]; [left; by rewrite app_nil_r|right].
    apply prefix_app_inv in Hpre as Hpre'. destruct Hpre' as [m Hm]. injection Hm as -> ->.
    split; [by exists k; rewrite <-app_assoc|done].
  - intros [->|[Hp Hq]]; [split; [done|by apply prefix_app_r]|]. split; [|done].
    destruct Hp as [k ->]. exists (c :: k). by rewrite <-app_assoc.
Qed.

Lemma lookup_mkchain p s fs q : mkchain p s fs !! q = if decide (onChain p s q) then Some NDir else fs !! q.
Proof.
  revert p fs. induction s as [|c s IH]; intros p fs; simpl.
  - assert (onChain p [] q ↔ p = q) as E.
    { unfold onChain. rewrite app_nil_r. split; [intros [? ?]; by apply prefix_eq|by intros ->]. }
    destruct (decide (onChain p [] q)) as [H|H]; [apply E in H as ->; apply lookup_insert_eq|].
    apply lookup_insert_ne. intros Hpq. by apply H, E.
  - rewrite IH. pose proof (onChain_cons p c s q) as E.
    destruct (decide (onChain (p ++ [c]) s q)) as [H|H], (decide (onChain p (c :: s) q)) as [H'|H'];
      [done|by destruct H'; apply E; right| |].
    + apply E in H' as [->|?]; [|done]. apply lookup_insert_eq.
    + apply lookup_insert_ne. intros ->. apply H', E. by left.
Qed.

Lemma mkchain_spec d c s fs : wf fs → node fs d = Some NDir → okName c → Forall okName s → fs !! (d ++ [c]) = None →
  wf (mkchain (d ++ [c]) s fs) ∧ node (mkchain (d ++ [c]) s fs) (d ++ c :: s) = Some NDir.
Proof.
  intros Hwf Hd Hc Hs Hn. split.
  - revert d c fs Hwf Hd Hc Hn. induction Hs as [|x s Hx _ IH]; intros d c fs Hwf Hd Hc Hn; simpl.
    + apply wf_insert; auto.
    + apply IH; [by apply wf_insert; auto| |done|].
      * rewrite node_insert by apply snoc_ne. by rewrite decide_True.
      * rewrite lookup_insert_ne; [apply wf_below; [done|apply snoc_ne|done]|].
        intros E. apply (f_equal length) in E. rewrite (length_app (d ++ [c])) in E. simpl in E. lia.
  - rewrite node_ne by (by destruct d). rewrite lookup_mkchain, decide_True; [done|].
    unfold onChain. rewrite <-app_assoc. simpl. split; [|done]. exists s. by rewrite <-app_assoc.
Qed.

(** * Files *)

Lemma removeF_file fs d c : wf fs → node fs d = Some NDir → okName c →
  fs !! (d ++ [c]) ≠ Some NDir → fs !! (d ++ [c]) ≠ None → removeF (abs (d ++ [c])) fs = (inl tt, delete (d ++ [c]) fs).
Proof.
  intros Hwf Hd Hc H1 H2. unfold removeF. rewrite locate_child by done.
  destruct (d ++ [c]) as [|x p] eqn:E; [by destruct d|]. rewrite <-E in *.
  by destruct (fs !! (d ++ [c])) as [[]|].
Qed.

Lemma removeF_empty fs d c : wf fs → node fs d = Some NDir → okName c →
  fs !! (d ++ [c]) = Some NDir → (∀ x, fs !! (d ++ [c] ++ [x]) = None) →
  removeF (abs (d ++ [c])) fs = (inl tt, delete (d ++ [c]) fs).
Proof.
  intros Hwf Hd Hc H1 H2. unfold removeF. rewrite locate_child by done.
  assert (children fs (d ++ [c]) = []) as Hch by (apply children_nil; intros x; by rewrite <-app_assoc).
  destruct (d ++ [c]) as [|x p] eqn:E; [by destruct d|]. by rewrite H1, decide_True.
Qed.

Lemma removeF_missing_child fs d c : wf fs → node fs d = Some NDir → okName c → fs !! (d ++ [c]) = None →
  removeF (abs (d ++ [c])) fs = (inr ENOENT, fs).
Proof.
  intros Hwf Hd Hc Hn. unfold removeF. rewrite locate_child by done.
  destruct (d ++ [c]) as [|x p] eqn:E; [by destruct d|]. by rewrite Hn.
Qed.

Lemma removeF_missing fs d c rest x : wf fs → node fs d = Some NDir → okName c → Forall okName (rest ++ [x]) →
  fs !! (d ++ [c]) = None → removeF (abs (d ++ c :: rest ++ [x])) fs = (inr ENOENT, fs).
Proof. intros. unfold removeF. by rewrite locate_missing. Qed.

Lemma renameF_file fs d x c n : wf fs → node fs d = Some NDir → okName x → okName c →
  fs !! (d ++ [x]) = Some n → fs !! (d ++ [c]) ≠ Some NDir →
  renameF (abs (d ++ [x])) (abs (d ++ [c])) fs = (inl tt, <[d ++ [c] := n]> (delete (d ++ [x]) fs)).
Proof.
  intros Hwf Hd Hx Hc Hn Hnd. unfold renameF. rewrite !locate_child, node_app, Hn by done.
  by destruct (fs !! (d ++ [c])) as [[]|].
Qed.

Lemma updateF_file fs d c f content mode : wf fs → node fs d = Some NDir → okName c →
  fs !! (d ++ [c]) = Some (NFile content mode) →
  updateF (abs (d ++ [c])) f fs = (inl tt, <[d ++ [c] := f content mode]> fs).
Proof.
  intros Hwf Hd Hc Hn. unfold updateF. rewrite elems_ok.
  2:{ apply Forall_app. split; [by eapply wf_node_names|by apply Forall_singleton]. }
  rewrite walk_child by (done || by rewrite Hn). by rewrite !Hn.
Qed.

Lemma readFileF_file fs d c content mode : wf fs → node fs d = Some NDir → okName c →
  fs !! (d ++ [c]) = Some (NFile content mode) → readFileF (abs (d ++ [c])) fs = inl content.
Proof. intros Hwf Hd Hc Hn. unfold readFileF. by rewrite statF_child, Hn by (done || by rewrite Hn). Qed.

Lemma createTempF_dir tmpName fs d : wf fs → node fs d = Some NDir → fs !! (d ++ [tmpName fs d]) = None →
  createTempF tmpName (abs d) fs =
  (inl (Join (abs d) (tmpName fs d)), <[d ++ [tmpName fs d] := NFile "" 384]> fs).
Proof.
  intros Hwf Hd Hn. unfold createTempF. rewrite elems_ok by (by eapply wf_node_names). by rewrite walk_root, Hd, Hn.
Qed.

(** * Programs with at most one fault

    A program is specified by what holds when no call of it failed for an
    outside reason, and by what holds when one did.  After that one failure no
    further call fails that way, so what the program does about it can be
    described exactly. *)

Definition quiet (faults : list (option error)) : Prop := Forall (λ f, f = None) faults.
Definition faulty (faults : list (option error)) : Prop :=
  ∃ n e, faults = replicate n None ++ [Some e] ∧ IsNotExist e = false.
Definition oneFault (faults : list (option error)) : Prop := quiet faults ∨ faulty faults.

Definition spec {A : Type} (fs : FS) (m : IO A) (good bad : A → FS → Prop) : Prop := ∀ faults,
  oneFault faults →
  let x := m (mkWorld fs faults) in
  (good x.1 (w_fs x.2) ∧ oneFault (w_faults x.2) ∧ (quiet faults → quiet (w_faults x.2))) ∨
  (bad x.1 (w_fs x.2) ∧ quiet (w_faults x.2) ∧ faulty faults).
Definition qspec {A : Type} (fs : FS) (m : IO A) (post : A → FS → Prop) : Prop := ∀ faults,
  quiet faults → let x := m (mkWorld fs faults) in post x.1 (w_fs x.2) ∧ quiet (w_faults x.2).

Lemma quiet_not_faulty faults : quiet faults → ¬ faulty faults.
Proof. intros Hq (n & e & -> & _). apply Forall_app in Hq as [_ Hq]. by inversion Hq. Qed.

Lemma spec_quiet {A : Type} (fs : FS) (m : IO A) good bad : spec fs m good bad → qspec fs m good.
Proof.
  intros H faults Hq. destruct (H faults) as [(Hg & _ & Hq')|(_ & _ & Hf)]; [by left|by auto|].
  by destruct (quiet_not_faulty faults).
Qed.

Lemma spec_weaken {A : Type} (fs : FS) (m : IO A) (good bad good' bad' : A → FS → Prop) : spec fs m good bad →
  (∀ a fs', good a fs' → good' a fs') → (∀ a fs', bad a fs' → bad' a fs') → spec fs m good' bad'.
Proof. intros H Hg Hb faults Ho. destruct (H faults Ho) as [(? & ? & ?)|(? & ? & ?)]; [left|right]; auto. Qed.

Lemma qspec_weaken {A : Type} (fs : FS) (m : IO A) (post post' : A → FS → Prop) :
  qspec fs m post → (∀ a fs', post a fs' → post' a fs') → qspec fs m post'.
Proof. intros H Hp faults Hq. destruct (H faults Hq). auto. Qed.

Lemma spec_ret {A : Type} (fs : FS) (a : A) (good bad : A → FS → Prop) : good a fs → spec fs (mret a) good bad.
Proof. intros H faults Ho. left. by split_and!. Qed.
Lemma qspec_ret {A : Type} (fs : FS) (a : A) (post : A → FS → Prop) : post a fs → qspec fs (mret a) post.
Proof. intros H faults Ho. by split. Qed.

(** A program may also recover from the failed call. *)
Lemma spec_bind_rec {A B : Type} (fs : FS) (m : IO A) (k : A → IO B) (good1 bad1 : A → FS → Prop) (good bad : B → FS → Prop) :
  spec fs m good1 bad1 →
  (∀ a fs', good1 a fs' → spec fs' (k a) good bad) →
  (∀ a fs', bad1 a fs' → qspec fs' (k a) (λ r fs'', good r fs'' ∨ bad r fs'')) →
  spec fs (m ≫= k) good bad.
Proof.
  intros Hm Hg Hb faults Ho. unfold mbind, IO_bind.
  destruct (Hm faults Ho) as [(H1 & H2 & H3)|(H1 & H2 & H3)]; destruct (m (mkWorld fs faults)) as [a [fs' fl]]; simpl in *.
  - destruct (Hg a fs' H1 fl H2) as [(H4 & H5 & H6)|(H4 & H5 & H6)]; [left; auto|right].
    split_and!; [done|done|]. destruct Ho as [Hq|?]; [|done]. by destruct (quiet_not_faulty fl (H3 Hq)).
  - destruct (Hb a fs' H1 fl H2) as [[H4|H4] H5]; [left; split_and!; [done|by left|done]|right; auto].
Qed.
Lemma spec_bind {A B : Type} (fs : FS) (m : IO A) (k : A → IO B) (good1 bad1 : A → FS → Prop) (good bad : B → FS → Prop) :
  spec fs m good1 bad1 →
  (∀ a fs', good1 a fs' → spec fs' (k a) good bad) →
  (∀ a fs', bad1 a fs' → qspec fs' (k a) bad) →
  spec fs (m ≫= k) good bad.
Proof.
  intros Hm Hg Hb. eapply spec_bind_rec; [exact Hm|done|]. intros a fs' H faults Hq. destruct (Hb a fs' H faults Hq). auto.
Qed.
Lemma qspec_bind {A B : Type} (fs : FS) (m : IO A) (k : A → IO B) (post1 : A → FS → Prop) (post : B → FS → Prop) :
  qspec fs m post1 → (∀ a fs', post1 a fs' → qspec fs' (k a) post) → qspec fs (m ≫= k) post.
Proof.
  intros Hm Hk faults Ho. unfold mbind, IO_bind. destruct (Hm faults Ho) as [H1 H2].
  destruct (m (mkWorld fs faults)) as [a [fs' fl]]; simpl in *. by apply Hk.
Qed.

Lemma spec_sys {A : Type} (fs : FS) (f : FS → (A + error) * FS) :
  spec fs (sys f) (λ r fs', r = (f fs).1 ∧ fs' = (f fs).2)
    (λ r fs', fs' = fs ∧ ∃ e, r = inr e ∧ IsNotExist e = false).
Proof.
  intros faults Ho. unfold sys. simpl. destruct faults as [|[e|] faults].
  - left. split_and!; [done|done|left; apply Forall_nil_2|done].
  - right. destruct Ho as [Hq|(n & e' & E & He)]; [by inversion Hq|].
    destruct n as [|n]; simplify_eq/=. split_and!; [done|by exists e'|apply Forall_nil_2|by exists 0, e'].
  - left. simpl. split_and!; [done|done| |by intros Hq; inversion Hq].
    destruct Ho as [Hq|(n & e' & E & He)]; [left; by inversion Hq|right].
    destruct n as [|n]; simplify_eq/=. by exists n, e'.
Qed.
Lemma qspec_sys {A : Type} (fs : FS) (f : FS → (A + error) * FS) :
  qspec fs (sys f) (λ r fs', r = (f fs).1 ∧ fs' = (f fs).2).
Proof. eapply spec_quiet, spec_sys. Qed.

(** ** [os.MkdirAll] *)

Lemma lstatF_dir fs d : wf fs → node fs d = Some NDir → lstatF (abs d) fs = inl NDir.
Proof.
  intros Hwf Hd. unfold lstatF. destruct d as [|c d _] using rev_ind; [done|].
  rewrite node_app in Hd. pose proof (wf_names fs Hwf _ _ Hd) as Hok. apply Forall_app in Hok as [_ Hc]. inversion Hc; subst.
  destruct (wf_parent fs Hwf _ _ Hd) as [_ Hp]. rewrite removelast_last in Hp. by rewrite locate_child, node_app, Hd.
Qed.
Lemma mkdirF_exists fs d : wf fs → node fs d = Some NDir → mkdirF (abs d) fs = (inr EEXIST, fs).
Proof.
  intros Hwf Hd. pose proof (lstatF_dir fs d Hwf Hd) as H. unfold lstatF in H. unfold mkdirF.
  destruct (locate fs (abs d)) as [q|]; [|done]. by destruct (node fs q).
Qed.

(** A directory that exists is found even if a call fails on the way. *)
Lemma mkdirAll_dir fs p : wf fs → node fs p = Some NDir →
  spec fs (mkdirAll (reverse p)) (λ res fs', res = inl tt ∧ fs' = fs) (λ _ _, False).
Proof.
  intros Hwf. induction p as [|c p IH] using rev_ind; intros Hp.
  - cbn [mkdirAll reverse rev_append]. eapply spec_bind_rec; [apply spec_sys| |].
    + intros a fs' [-> ->]. cbn [fst snd]. rewrite (statF_dir fs []) by done. by apply spec_ret.
    + intros a fs' [-> (e & -> & _)]. eapply qspec_bind; [by apply qspec_ret with (post := λ r fs', r = inl tt ∧ fs' = fs)|].
      intros a fs' [-> ->]. eapply qspec_bind; [apply qspec_sys|]. intros a fs' [-> ->].
      change (abs (reverse [])) with (abs []). rewrite mkdirF_exists by done. cbn [fst snd]. eapply qspec_bind; [apply qspec_sys|]. intros a fs' [-> ->].
      cbn [fst snd]. rewrite lstatF_dir by done. apply qspec_ret. by left.
  - assert (node fs p = Some NDir) as Hp' by (by eapply (wf_node_above fs p [c])).
    assert (reverse (p ++ [c]) = c :: reverse p) as Er by (by rewrite reverse_app). rewrite Er. cbn [mkdirAll].
    rewrite <-Er, reverse_involutive. eapply spec_bind_rec; [apply spec_sys| |].
    + intros a fs' [-> ->]. cbn [fst snd]. rewrite statF_dir by done. by apply spec_ret.
    + intros a fs' [-> (e & -> & _)]. eapply qspec_bind with (post1 := λ r fs', r = inl tt ∧ fs' = fs).
      { destruct (reverse p) as [|y l] eqn:El; [by apply qspec_ret|]. eapply qspec_weaken; [eapply spec_quiet, IH; done|]. done. }
      intros a fs' [-> ->]. eapply qspec_bind; [apply qspec_sys|]. intros a fs' [-> ->]. rewrite mkdirF_exists by done. cbn [fst snd].
      eapply qspec_bind; [apply qspec_sys|]. intros a fs' [-> ->]. cbn [fst snd]. rewrite lstatF_dir by done. apply qspec_ret. by left.
Qed.

(** What a call that fails leaves of a chain of new directories: the first of
    them, but not the last. *)
Definition partChain (p : Loc) (x : string) (s : list string) (fs fs' : FS) : Prop :=
  fs' = fs ∨ ∃ s1 y s2, s = s1 ++ y :: s2 ∧ fs' = mkchain (p ++ [x]) s1 fs.

Lemma partChain_snoc p x s y fs fs' : partChain p x s fs fs' → partChain p x (s ++ [y]) fs fs'.
Proof.
  intros [->|(s1 & z & s2 & -> & ->)]; [by left|]. right. exists s1, z, (s2 ++ [y]). by rewrite <-app_assoc.
Qed.

Lemma mkchain_snoc p s y fs : mkchain p (s ++ [y]) fs = <[p ++ s ++ [y] := NDir]> (mkchain p s fs).
Proof.
  revert p fs. induction s as [|c s IH]; intros p fs; [done|]. simpl. rewrite IH. by rewrite <-app_assoc.
Qed.

(** [slow] is what is left of [mkdirAll] once the path was not found. *)
Lemma mkdirAll_slow (parent : IO (unit + error)) fs fs1 q c good1 bad1 : wf fs1 → node fs1 q = Some NDir → okName c → fs1 !! (q ++ [c]) = None →
  spec fs parent (λ res fs', res = inl tt ∧ fs' = fs1 ∧ good1 fs') (λ res fs', (∃ e, res = inr e) ∧ bad1 fs') →
  spec fs (r ← parent;
    match r with
    | inr err => mret (inr err)
    | inl _ =>
      made ← Mkdir (abs (q ++ [c]));
      match made with
      | inl _ => mret (inl tt)
      | inr err =>
        dir ← Lstat (abs (q ++ [c]));
        match dir with inl NDir => mret (inl tt) | _ => mret (inr err) end
      end
    end)
    (λ res fs', res = inl tt ∧ fs' = <[q ++ [c] := NDir]> fs1) (λ res fs', (∃ e, res = inr e) ∧ (bad1 fs' ∨ fs' = fs1)).
Proof.
  intros Hwf Hq Hc Hn Hparent. eapply spec_bind; [exact Hparent| |].
  - intros a fs' (-> & -> & _). eapply spec_bind; [apply spec_sys| |].
    + intros a fs' [-> ->]. unfold mkdirF. rewrite locate_child, node_app, Hn by done. cbn [fst snd]. by apply spec_ret.
    + intros a fs' [-> (e & -> & _)]. eapply qspec_bind; [apply qspec_sys|]. intros a fs' [-> ->]. cbn [fst snd].
      unfold lstatF. rewrite locate_child, node_app, Hn by done. apply qspec_ret. eauto.
  - intros a fs' [[e ->] Hb]. apply qspec_ret. eauto.
Qed.

Lemma mkdirAll_missing fs p x s : wf fs → node fs p = Some NDir → okName x → Forall okName s → fs !! (p ++ [x]) = None →
  spec fs (mkdirAll (reverse (p ++ x :: s))) (λ res fs', res = inl tt ∧ fs' = mkchain (p ++ [x]) s fs)
    (λ res fs', (∃ e, res = inr e) ∧ partChain p x s fs fs').
Proof.
  intros Hwf Hp Hx Hs Hn. induction s as [|y s IH] using rev_ind.
  - assert (reverse (p ++ [x]) = x :: reverse p) as Er by (by rewrite reverse_app). rewrite Er. cbn [mkdirAll].
    rewrite <-Er, reverse_involutive.
    assert (spec fs (match reverse p with [] => mret (inl tt) | _ :: _ => mkdirAll (reverse p) end)
      (λ res fs', res = inl tt ∧ fs' = fs ∧ True) (λ res fs', (∃ e : error, res = inr e) ∧ False)) as Hpar.
    { destruct (reverse p) as [|z l] eqn:El; [by apply spec_ret|]. rewrite <-El. eapply spec_weaken; [by apply mkdirAll_dir|naive_solver|done]. }
    pose proof (mkdirAll_slow _ fs fs p x (λ _, True) (λ _, False) Hwf Hp Hx Hn Hpar) as Hslow.
    eapply spec_bind_rec; [apply spec_sys| |].
    + intros a fs' [-> ->]. cbn [fst snd]. rewrite (statF_missing fs p x []) by done. eapply spec_weaken; [exact Hslow|naive_solver|].
      intros a fs' [He [[]| ->]]. split; [done|by left].
    + intros a fs' [-> (e & -> & _)]. eapply qspec_weaken; [eapply spec_quiet, Hslow|]. intros a fs' [-> ->]. by left.
  - apply Forall_app in Hs as [Hs Hy]. inversion Hy as [|? ? Hy' _]; subst. specialize (IH Hs).
    destruct (mkchain_spec p x s fs Hwf Hp Hx Hs Hn) as [Hwf1 Hnode].
    replace (p ++ x :: s ++ [y]) with ((p ++ x :: s) ++ [y]) by (by rewrite <-app_assoc).
    assert (reverse ((p ++ x :: s) ++ [y]) = y :: reverse (p ++ x :: s)) as Er by (by rewrite reverse_app). rewrite Er. cbn [mkdirAll].
    rewrite <-Er, reverse_involutive.
    assert (mkchain (p ++ [x]) s fs !! ((p ++ x :: s) ++ [y]) = None) as Hny.
    { rewrite lookup_mkchain, decide_False.
      - replace ((p ++ x :: s) ++ [y]) with ((p ++ [x]) ++ s ++ [y]) by (by rewrite <-!app_assoc). apply wf_below; [done|apply snoc_ne|done].
      - intros [_ [k Hk]]. apply (f_equal length) in Hk. rewrite !length_app in Hk. simpl in Hk. rewrite ?length_app in Hk. simpl in Hk. lia. }
    assert (spec fs (match reverse (p ++ x :: s) with [] => mret (inl tt) | _ :: _ => mkdirAll (reverse (p ++ x :: s)) end)
      (λ res fs', res = inl tt ∧ fs' = mkchain (p ++ [x]) s fs ∧ True) (λ res fs', (∃ e : error, res = inr e) ∧ partChain p x s fs fs')) as Hpar.
    { destruct (reverse (p ++ x :: s)) as [|z l] eqn:El.
      - apply (f_equal length) in El. rewrite length_reverse, length_app in El. simpl in El. lia.
      - eapply spec_weaken; [exact IH|naive_solver|done]. }
    pose proof (mkdirAll_slow _ fs _ _ y (λ _, True) _ Hwf1 Hnode Hy' Hny Hpar) as Hslow.
    assert (<[(p ++ x :: s) ++ [y] := NDir]> (mkchain (p ++ [x]) s fs) = mkchain (p ++ [x]) (s ++ [y]) fs) as Ech.
    { rewrite mkchain_snoc. by rewrite <-!app_assoc. }
    rewrite Ech in Hslow. eapply spec_bind_rec; [apply spec_sys| |].
    + intros a fs' [-> ->]. cbn [fst snd]. assert (statF (abs ((p ++ x :: s) ++ [y])) fs = inr ENOENT) as ->.
      { rewrite <-(app_assoc p). apply (statF_missing fs p x (s ++ [y])); try done. by apply Forall_app. }
      eapply spec_weaken; [exact Hslow|done|]. intros a fs' [He [Hpc| ->]]; (split; [done|]); [by apply partChain_snoc|].
      right. by exists s, y, [].
    + intros a fs' [-> (e & -> & _)]. eapply qspec_weaken; [eapply spec_quiet, Hslow|]. intros a fs' Hg. by left.
Qed.

(** Programs that change nothing. *)
Definition readOnly {A : Type} (m : IO A) : Prop := ∀ w, w_fs (m w).2 = w_fs w.
Lemma readOnly_ret {A : Type} (a : A) : readOnly (mret a).
Proof. done. Qed.
Lemma readOnly_bind {A B : Type} (m : IO A) (k : A → IO B) : readOnly m → (∀ a, readOnly (k a)) → readOnly (m ≫= k).
Proof. intros Hm Hk w. unfold mbind, IO_bind. by rewrite Hk, Hm. Qed.
Lemma readOnly_query {A : Type} (f : FS → A + error) : readOnly (query f).
Proof. intros [fs faults]. unfold query, sys. simpl. by destruct faults as [|[e|] faults]. Qed.
Create HintDb readonly discriminated.
#[export] Hint Resolve readOnly_ret readOnly_query : readonly.

(** * Paths below a directory, free of links and files on the way *)

Definition pathOK (fs : FS) (b : Loc) (r : list string) : Prop :=
  (∀ q, q `prefix_of` r → q ≠ r → q ≠ [] → fs !! (b ++ q) = None ∨ fs !! (b ++ q) = Some NDir) ∧
  (∀ t, fs !! (b ++ r) ≠ Some (NLink t)).

Lemma pathOK_snoc fs b d c : pathOK fs b (d ++ [c]) → d ≠ [] → pathOK fs b d.
Proof.
  intros [H1 H2] Hd. assert (∀ q, q `prefix_of` d → q ≠ d ++ [c]) as Hne.
  { intros q [k ->] E. apply (f_equal length) in E. rewrite !length_app in E. simpl in E. lia. }
  split.
  - intros q Hq Hqd Hqn. apply H1; [by apply prefix_app_r|by apply Hne|done].
  - intros t Ht. destruct (H1 d) as [?|?]; [by apply prefix_app_r|by apply Hne|done|congruence|congruence].
Qed.

(** The directory a path is in exists, or there is a first missing one. *)
Lemma first_missing fs b d c : wf fs → node fs b = Some NDir → pathOK fs b (d ++ [c]) →
  node fs (b ++ d) = Some NDir ∨
  ∃ d1 x s, d = d1 ++ x :: s ∧ node fs (b ++ d1) = Some NDir ∧ fs !! ((b ++ d1) ++ [x]) = None.
Proof.
  intros Hwf Hb. revert c. induction d as [|x d IH] using rev_ind; intros c Hp; [left; by rewrite app_nil_r|].
  destruct (IH x) as [Hd|(d1 & y & s & -> & Hd & Hn)].
  - by eapply pathOK_snoc, snoc_ne.
  - destruct Hp as [Hp _]. destruct (Hp (d ++ [x])) as [Hn|Hn].
    + by apply prefix_app_r.
    + intros E. apply (f_equal length) in E. rewrite !length_app in E. simpl in E. lia.
    + apply snoc_ne.
    + right. exists d, x, []. rewrite app_assoc in Hn. done.
    + left. by rewrite node_ne by (rewrite app_assoc; apply snoc_ne).
  - right. exists d1, y, (s ++ [x]). by rewrite <-app_assoc.
Qed.

Section below.
Context (fs : FS) (b d : Loc) (c : string).
Context (Hwf : wf fs) (Hb : node fs b = Some NDir) (Hok : Forall okName (d ++ [c])) (Hp : pathOK fs b (d ++ [c])).

Lemma below_cases :
  (node fs (b ++ d) = Some NDir ∧ okName c) ∨
  ∃ d1 x s, node fs (b ++ d1) = Some NDir ∧ okName x ∧ Forall okName (s ++ [c]) ∧
    fs !! ((b ++ d1) ++ [x]) = None ∧ fs !! (b ++ d ++ [c]) = None ∧
    b ++ d ++ [c] = (b ++ d1) ++ x :: s ++ [c] ∧ d = d1 ++ x :: s.
Proof.
  destruct (first_missing fs b d c Hwf Hb Hp) as [Hd|(d1 & x & s & -> & Hd & Hn)].
  - left. split; [done|]. apply Forall_app in Hok as [_ H]. by inversion H.
  - right. exists d1, x, s. rewrite <-!app_assoc in Hok. apply Forall_app in Hok as [_ H].
    inversion H as [|? ? Hx Hs]; subst. split_and!; try done; [|by rewrite <-!app_assoc].
    pose proof (wf_below fs _ (s ++ [c]) Hwf (snoc_ne (b ++ d1) x) Hn) as Hm.
    by rewrite <-!app_assoc in *.
Qed.

Lemma stat_below : statF (abs (b ++ d ++ [c])) fs =
  match fs !! (b ++ d ++ [c]) with Some n => inl n | None => inr ENOENT end.
Proof.
  destruct below_cases as [[Hd Hc]|(d1 & x & s & Hd & Hx & Hs & Hn & Hm & E & _)].
  - destruct Hp as [_ Hl]. rewrite app_assoc in *. by apply statF_child.
  - rewrite Hm, E. by apply statF_missing.
Qed.

Lemma eval_below : evalF (abs (b ++ d ++ [c])) fs =
  match fs !! (b ++ d ++ [c]) with Some n => inl (abs (b ++ d ++ [c])) | None => inr ENOENT end.
Proof.
  destruct below_cases as [[Hd Hc]|(d1 & x & s & Hd & Hx & Hs & Hn & Hm & E & _)].
  - destruct Hp as [_ Hl]. rewrite app_assoc in *. by apply evalF_child.
  - rewrite Hm, E. by apply evalF_missing.
Qed.

Lemma remove_below_missing : fs !! (b ++ d ++ [c]) = None → removeF (abs (b ++ d ++ [c])) fs = (inr ENOENT, fs).
Proof.
  intros Hm. destruct below_cases as [[Hd Hc]|(d1 & x & s & Hd & Hx & Hs & Hn & _ & E & _)].
  - rewrite app_assoc in *. by apply removeF_missing_child.
  - rewrite E. by apply removeF_missing.
Qed.

Lemma remove_below_file content mode : fs !! (b ++ d ++ [c]) = Some (NFile content mode) →
  removeF (abs (b ++ d ++ [c])) fs = (inl tt, delete (b ++ d ++ [c]) fs).
Proof.
  intros Hm. destruct below_cases as [[Hd Hc]|(d1 & x & s & Hd & Hx & Hs & Hn & Hm' & _)]; [|congruence].
  rewrite app_assoc in *. apply removeF_file; congruence || done.
Qed.

Lemma read_below : readFileF (abs (b ++ d ++ [c])) fs =
  match fs !! (b ++ d ++ [c]) with Some (NFile content _) => inl content | Some _ => inr EISDIR | None => inr ENOENT end.
Proof. unfold readFileF. rewrite stat_below. by destruct (fs !! (b ++ d ++ [c])) as [[]|]. Qed.

Lemma parent_dir : fs !! (b ++ d ++ [c]) ≠ None → node fs (b ++ d) = Some NDir.
Proof.
  intros Hn. destruct (fs !! (b ++ d ++ [c])) as [n|] eqn:E; [|done]. rewrite app_assoc in E.
  by destruct (wf_parent fs Hwf _ _ E) as [_ H]; rewrite removelast_last in H.
Qed.
End below.

(** * Writing files *)

(** [os.WriteFile]: the place where a path is, or would be created. *)
Fixpoint walkCreate (links : nat) (fs : FS) : Loc → list string → Loc + error :=
  fix go (cur : Loc) (rest : list string) : Loc + error :=
    match rest with
    | [] => inl cur
    | c :: rest =>
      if String.eqb c "." then go cur rest
      else if String.eqb c ".." then go (removelast cur) rest
      else if decide (NAME_MAX < String.length c) then inr ENAMETOOLONG
      else match fs !! (cur ++ [c]) with
      | None => match rest with [] => inl (cur ++ [c]) | _ => inr ENOENT end
      | Some NDir => go (cur ++ [c]) rest
      | Some (NFile _ _) => match rest with [] => inl (cur ++ [c]) | _ => inr ENOTDIR end
      | Some (NLink t) =>
        match links with
        | 0 => inr ELOOP
        | S links => walkCreate links fs (if IsAbs t then [] else cur) (elems t ++ rest)
        end
      end
    end.
Definition writeFileF (path content : string) (mode : Z) (fs : FS) : (unit + error) * FS :=
  match walkCreate kernelLinks fs [] (elems path) with
  | inr e => (inr e, fs)
  | inl q =>
    match node fs q with
    | Some (NFile _ m) => (inl tt, <[q := NFile content m]> fs)
    | None => (inl tt, <[q := NFile content mode]> fs)
    | Some _ => (inr EISDIR, fs)
    end
  end.

(** What is written is read back from the same path. *)
Lemma walk_written fs q content mode : (fs !! q = None ∨ ∃ c m, fs !! q = Some (NFile c m)) → ∀ links rest cur,
  walkCreate links fs cur rest = inl q → walk links (<[q := NFile content mode]> fs) cur rest = inl q.
Proof.
  intros Hq. induction links as [|links IHl]; induction rest as [|c rest IHr]; intros cur; simpl; try done.
  all: destruct (String.eqb c "."); [apply IHr|]; destruct (String.eqb c ".."); [apply IHr|]; destruct (decide (NAME_MAX < _)); [done|].
  all: destruct (decide (cur ++ [c] = q)) as [<-|Hne].
  all: try (rewrite lookup_insert; rewrite decide_True by done; destruct Hq as [->|(c' & m' & ->)]; by destruct rest).
  all: rewrite lookup_insert_ne by done; destruct (fs !! (cur ++ [c])) as [[content' mode'| |t]|]; try done; try (by destruct rest; intros; simplify_eq).
  all: try apply IHr. apply IHl.
Qed.
Lemma write_read fs path content mode fs' : wf fs → writeFileF path content mode fs = (inl tt, fs') → readFileF path fs' = inl content.
Proof.
  intros Hwf. unfold writeFileF, readFileF, statF. destruct (walkCreate kernelLinks fs [] (elems path)) as [q|] eqn:E; [|done].
  assert (node fs q = fs !! q ∨ q = []) as [Hn| ->] by (destruct q; auto); [|done]. rewrite Hn. intros H.
  assert (∃ m, fs' = <[q := NFile content m]> fs ∧ (fs !! q = None ∨ ∃ c m, fs !! q = Some (NFile c m))) as (m & -> & Hq).
  { destruct (fs !! q) as [[c m| |t]|]; simplify_eq; eauto 6. }
  rewrite (walk_written fs q content m Hq _ _ _ E). destruct q as [|x q]; [|simpl; by rewrite lookup_insert, decide_True].
  destruct Hq as [H0|(c & m' & H0)]; [|by rewrite wf_root in H0]. simpl in Hn. congruence.
Qed.
