(* ===== verification/SemIndex.v ===== *)
(** Diagnosis of semantic indexes (src/semindex): whether an index declares the
    active worktree as its root.

    The file system is that of [FileSystem], links included; [en_cwd] is the
    working directory.  A caller's [RootReader] is an arbitrary function, and
    [git] a parameter. *)

From Stdlib Require Import Ascii.
From stdpp Require Import base gmap list strings.
From S2P Require Import Prelude Paths Regex GoStrings FileSystem.

(** * The surroundings *)

(** [en_wdErr] is why [os.Getwd] fails, if it does. *)
Record Env := mkEnv { en_fs : FS; en_cwd : string; en_wdErr : option error }.
(** A path as the operating system takes it. *)
Definition osPath (env : Env) (p : string) : string := if IsAbs p then p else en_cwd env +:+ "/" +:+ p.
(** [filepath.Abs]. *)
Definition Abs (env : Env) (p : string) : string + error :=
  if IsAbs p then inl (Clean p)
  else match en_wdErr env with Some err => inr err | None => inl (Join (en_cwd env) p) end.

(** * Statuses and severities *)

Inductive Status := StatusOK | StatusMismatch | StatusMissing | StatusUnverifiable.
#[export] Instance Status_eq_dec : EqDecision Status.
Proof. solve_decision. Defined.
Record IndexRoot := mkIndexRoot { ir_Name : string; ir_Dir : string; ir_Root : string; ir_Determined : bool }.
Record Diagnosis := mkDiagnosis { dg_Name : string; dg_Status : Status; dg_WorktreeRoot : string; dg_IndexRoot : string; dg_Remediation : string }.

Inductive Severity := SeverityOK | SeverityWarn | SeverityBlock.
Record Policy := mkPolicy { po_TreatMismatchAsFailure : bool; po_TreatMissingAsFailure : bool; po_TreatUnverifiableAsFailure : bool }.
Definition EvaluateSeverity (d : Diagnosis) (policy : Policy) : Severity :=
  match dg_Status d with
  | StatusOK => SeverityOK
  | StatusMismatch => if po_TreatMismatchAsFailure policy then SeverityBlock else SeverityWarn
  | StatusMissing => if po_TreatMissingAsFailure policy then SeverityBlock else SeverityWarn
  | StatusUnverifiable => if po_TreatUnverifiableAsFailure policy then SeverityBlock else SeverityWarn
  end.

(** * Reading a root *)

(** The root, whether there is one, and the error. *)
Definition RootReader := string → string * bool * option error.
Definition ReadIndexRoot (name dir : string) (reader : option RootReader) : IndexRoot :=
  let out := mkIndexRoot name dir "" false in
  match reader with
  | None => out
  | Some reader =>
    match reader dir with
    | (root, true, None) => if String.eqb (TrimSpace root) "" then out else mkIndexRoot name dir root true
    | _ => out
    end
  end.

Definition normalizeRoot (env : Env) (p : string) : string :=
  match Abs env p with
  | inr _ => Clean p
  | inl a =>
    match evalF a (en_fs env) with
    | inl resolved => Clean resolved
    | inr _ => Clean a
    end
  end.

Definition Diagnose (env : Env) (worktreeRoot indexDir name : string) (reader : option RootReader) : Diagnosis :=
  match statF (osPath env indexDir) (en_fs env) with
  | inl NDir =>
    let ir := ReadIndexRoot name indexDir reader in
    if negb (ir_Determined ir) then
      mkDiagnosis name StatusUnverifiable worktreeRoot ""
        ("index directory exists at " +:+ indexDir +:+ " but its root could not be determined (no root marker found); treat its results with caution until this is resolved.")
    else if String.eqb (normalizeRoot env worktreeRoot) (normalizeRoot env (ir_Root ir)) then
      mkDiagnosis name StatusOK worktreeRoot (ir_Root ir) "index root matches the active worktree; no remediation needed."
    else
      mkDiagnosis name StatusMismatch worktreeRoot (ir_Root ir)
        ("this index was built against " +:+ ir_Root ir +:+ " but the active worktree is " +:+ worktreeRoot +:+
         "; re-run the index tool's sync/init command in this worktree, or point the tool at the correct root.")
  | _ => mkDiagnosis name StatusMissing worktreeRoot ""
           ("no index found at " +:+ indexDir +:+ "; initialize it if this tool's features are needed here.")
  end.

(** ** Marker files *)

Definition MarkerFileName : string := ".modulex-index-root".
(** [bufio.Scanner]: a line of 64 KiB does not fit. *)
Definition MaxScanTokenSize : Z := 65536.
Definition ErrTooLong : error := Const "bufio.Scanner: token too long".
Fixpoint firstLine (lines : list string) : option string + error :=
  match lines with
  | [] => inl None
  | line :: lines =>
    if (MaxScanTokenSize <=? Z.of_nat (String.length line))%Z then inr ErrTooLong
    else if String.eqb (TrimSpace line) "" then firstLine lines
    else inl (Some (TrimSpace line))
  end.
Definition MarkerFileReader (env : Env) (markerName : string) : RootReader := λ indexDir,
  match readFileF (osPath env (Join indexDir markerName)) (en_fs env) with
  | inr err => if IsNotExist err then ("", false, None) else ("", false, Some (Errorf "semindex: reading marker file %s: %w" [markerName] [err]))
  | inl data =>
    match firstLine (Lines data) with
    | inl (Some line) => (line, true, None)
    | inl None => ("", false, None)
    | inr err => ("", false, Some (Errorf "semindex: reading marker file %s: %w" [markerName] [err]))
    end
  end.
Definition DefaultMarkerReader (env : Env) : RootReader := MarkerFileReader env MarkerFileName.

Definition withFS (env : Env) (fs : FS) : Env := mkEnv fs (en_cwd env) (en_wdErr env).
Definition WriteMarkerFile (env : Env) (indexDir markerName root : string) : option error * Env :=
  match mkdirAllF [] (elems (osPath env indexDir)) (en_fs env) with
  | (inr err, fs) => (Some (Errorf "semindex: creating index directory %s: %w" [indexDir] [err]), withFS env fs)
  | (inl _, fs) =>
    match writeFileF (osPath env (Join indexDir markerName)) (root +:+ nlString) 420 fs with
    | (inr err, fs) => (Some (Errorf "semindex: writing marker file %s: %w" [markerName] [err]), withFS env fs)
    | (inl _, fs) => (None, withFS env fs)
    end
  end.

(** ** The worktree *)

Section git.
(** [exec.LookPath("git")], and the output of [git -C dir rev-parse
    --show-toplevel] with its error. *)
Variable gitPath : string + error.
Variable showToplevel : string → string → string * option error.

Definition ResolveWorktreeRoot (dir fallbackRoot : string) : string + error :=
  let '(out, err) := match gitPath with inl git => showToplevel git dir | inr err => ("", Some err) end in
  let root := TrimSpace out in
  match err, String.eqb root "" with
  | None, false => inl root
  | err, _ =>
    if negb (String.eqb (TrimSpace fallbackRoot) "") then inl fallbackRoot
    else
      match err with
      | Some err => inr (Errorf "semindex: resolving worktree root for %s: %w" [dir] [err])
      | None => inr (New "semindex: git rev-parse returned an empty root and no fallback root was given")
      end
  end.

(** The root resolved is never blank. *)
Lemma worktree_root_nonblank dir fallbackRoot root : ResolveWorktreeRoot dir fallbackRoot = inl root → TrimSpace root ≠ "".
Proof.
  unfold ResolveWorktreeRoot. destruct (match gitPath with inl git => showToplevel git dir | inr err => ("", Some err) end) as [out err].
  destruct err as [err|], (String.eqb_spec (TrimSpace out) "") as [He|He]; try destruct (String.eqb_spec (TrimSpace fallbackRoot) "") as [Hf|Hf]; simpl; intros; simplify_eq; try done; by rewrite TrimSpace_idemp.
Qed.
End git.

(** * Theorems *)

(** The name of a normalised path to something that exists is the place it leads
    to. *)
Lemma Clean_abs q : Forall normal q → Clean (abs q) = abs q.
Proof.
  intros Hq. destruct q as [|c q]; [done|]. rewrite (Clean_abs_segs _ (c :: q)) by (done || by rewrite splitSlash_abs). by rewrite cleanSegs_normal.
Qed.
Lemma normalizeRoot_resolved env p q : Forall normal p → Forall normal q → walk evalLinks (en_fs env) [] p = inl q →
  normalizeRoot env (abs p) = abs q.
Proof.
  intros Hp Hq Hw. unfold normalizeRoot, Abs. change (IsAbs (abs p)) with true. cbv iota. rewrite Clean_abs by done.
  unfold evalF. rewrite elems_abs, Hw by done. by apply Clean_abs.
Qed.

(** A walk ends at an entry. *)
Lemma walk_node fs links : wf fs → ∀ rest cur q, node fs cur = Some NDir → walk links fs cur rest = inl q → is_Some (node fs q).
Proof.
  intros Hwf. induction links as [|links IHl]; induction rest as [|c rest IHr]; intros cur q Hc Hw; simpl in Hw; try (simplify_eq; by eexists).
  all: destruct (String.eqb c "."); [by eapply IHr|]; destruct (String.eqb c ".."); [eapply IHr; [|done]; destruct cur as [|x cur _] using rev_ind; [done|]|].
  all: try (rewrite node_app in Hc; apply (wf_parent _ Hwf) in Hc as [_ Hc]; exact Hc).
  all: destruct (decide _); [done|]; destruct (fs !! (cur ++ [c])) as [[content mode| |t]|] eqn:E; try done.
  all: try (destruct rest; [injection Hw as <-; rewrite node_app, E; by eexists|done]).
  all: try (eapply IHr; [|done]; by rewrite node_app, E).
  eapply IHl; [|exact Hw]. by destruct (IsAbs t).
Qed.
Lemma walk_normal fs links p q : wf fs → walk links fs [] p = inl q → Forall normal q.
Proof. intros Hwf Hw. destruct (walk_node fs links Hwf p [] q eq_refl Hw) as [n Hn]. apply ok_normal. by eapply wf_node_names. Qed.

(** An index is trusted (its severity is OK, under any policy) exactly when it is
    a directory, its reader found a root that is not blank, and the two roots
    normalise to the same path; for roots that exist, that is when they lead to
    the same directory, whatever links are on the way. *)
Theorem index_trusted_exact env worktreeRoot indexDir name reader policy :
  let root := (ReadIndexRoot name indexDir reader) in
  (EvaluateSeverity (Diagnose env worktreeRoot indexDir name reader) policy = SeverityOK ↔
    statF (osPath env indexDir) (en_fs env) = inl NDir ∧
    (∃ f r, reader = Some f ∧ f indexDir = (r, true, None) ∧ TrimSpace r ≠ "" ∧ normalizeRoot env worktreeRoot = normalizeRoot env r)) ∧
  (∀ p q p' q', wf (en_fs env) → Forall normal p → Forall normal p' → worktreeRoot = abs p → ir_Root root = abs p' →
    walk evalLinks (en_fs env) [] p = inl q → walk evalLinks (en_fs env) [] p' = inl q' →
    dg_Status (Diagnose env worktreeRoot indexDir name reader) = StatusOK ↔
      statF (osPath env indexDir) (en_fs env) = inl NDir ∧ ir_Determined root = true ∧ q = q').
Proof.
  intros root. subst root. split.
  - unfold Diagnose, ReadIndexRoot. destruct (statF (osPath env indexDir) (en_fs env)) as [[c m| |t]|err]; try (split; [by cbn; case_match|by intros [? _]]).
    destruct reader as [f|]; [|split; [by cbn; case_match|by intros (_ & ? & ? & ? & _)]].
    destruct (f indexDir) as [[r ok] err] eqn:Ef. destruct ok, err as [err|];
      try (split; [by cbn; case_match|intros (_ & f' & r' & [= <-] & E & _); rewrite Ef in E; by simplify_eq]).
    destruct (String.eqb_spec (TrimSpace r) "") as [Et|Et]; [split; [by cbn; case_match|intros (_ & f' & r' & [= <-] & E & ? & _); rewrite Ef in E; by simplify_eq]|].
    simpl. destruct (String.eqb_spec (normalizeRoot env worktreeRoot) (normalizeRoot env r)) as [En|En]; simpl.
    + split; [|done]. intros _. split; [done|]. by exists f, r.
    + split; [by cbn; case_match|]. intros (_ & f' & r' & [= <-] & E & _ & ?). rewrite Ef in E. by simplify_eq.
  - intros p q p' q' Hwf Hp Hp' -> Hr Hw Hw'. unfold Diagnose. rewrite Hr.
    rewrite (normalizeRoot_resolved env p q Hp (walk_normal _ _ _ _ Hwf Hw) Hw), (normalizeRoot_resolved env p' q' Hp' (walk_normal _ _ _ _ Hwf Hw') Hw').
    destruct (statF (osPath env indexDir) (en_fs env)) as [[c m| |t]|err]; try (split; [done|by intros [? _]]).
    destruct (ir_Determined _); cbn [negb]; [|split; [done|by intros (_ & ? & _)]].
    destruct (String.eqb_spec (abs q) (abs q')) as [E|E]; cbn [dg_Status].
    + split; [|done]. intros _. split; [done|]. split; [done|]. apply abs_inj in E; [done|by eapply walk_normal..].
    + split; [done|]. intros (_ & _ & ->). done.
Qed.

(** Making directories keeps the file system well-formed. *)
Lemma mkdirF_wf fs done c r fs' : wf fs → Forall normal (done ++ [c]) → mkdirF (abs (done ++ [c])) fs = (r, fs') → wf fs'.
Proof.
  intros Hwf Hn. unfold mkdirF, locate. rewrite elems_abs by done. rewrite last_snoc, removelast_last.
  destruct (walk kernelLinks fs [] done) as [d|]; [|by intros [= _ <-]]. destruct (node fs d) as [[| |]|] eqn:Ed; try (by intros [= _ <-]).
  destruct (decide _) as [|Hl]; [by intros [= _ <-]|]. destruct (node fs (d ++ [c])) eqn:Ec; intros [= _ <-]; [done|].
  rewrite node_app in Ec. apply Forall_app in Hn as [_ Hc]. rewrite Forall_singleton in Hc. apply wf_insert; [done|done|unfold okName; split; [exact Hc|lia]|by right].
Qed.
Lemma mkdirAllF_wf todo : ∀ done fs r fs', wf fs → Forall normal (done ++ todo) → mkdirAllF done todo fs = (r, fs') → wf fs'.
Proof.
  induction todo as [|c todo IH]; intros done fs r fs' Hwf Hn; simpl; [by intros [= _ <-]|].
  assert (Forall normal (done ++ [c])) as Hc by (rewrite cons_middle, app_assoc in Hn; by apply Forall_app in Hn as [? _]).
  rewrite cons_middle, app_assoc in Hn. destruct (statF _ fs) as [[| |]|err]; try (by intros [= _ <-]); [by apply IH|].
  destruct (mkdirF _ fs) as [[[]|err'] fs1] eqn:E; (apply mkdirF_wf in E; [|done|done]); [by apply IH|by intros [= _ <-]].
Qed.

(** Writing a marker and reading it gives the root that was written, when it is
    one line without surrounding blanks. *)
Theorem marker_roundtrip env env' indexDir markerName root : wf (en_fs env) → Forall normal (elems (osPath env indexDir)) →
  WriteMarkerFile env indexDir markerName root = (None, env') →
  (newline ∉ String.list_ascii_of_string root) → TrimSpace root = root → root ≠ "" → (Z.of_nat (String.length root) < MaxScanTokenSize)%Z →
  MarkerFileReader env' markerName indexDir = (root, true, None).
Proof.
  intros Hwf Hd Hw Hnl Ht Hne Hlen. unfold WriteMarkerFile in Hw. destruct (mkdirAllF _ _ _) as [[[]|err] fs] eqn:Em; [|done].
  apply mkdirAllF_wf in Em; [|done|done]. destruct (writeFileF _ _ _ fs) as [[[]|err] fs2] eqn:E; [|done]. injection Hw as <-.
  apply write_read in E; [|done]. unfold MarkerFileReader. simpl. change (osPath (withFS env fs2)) with (osPath env). rewrite E.
  unfold Lines, nlString. rewrite SplitByte_part by done. simpl. apply Z.leb_gt in Hlen. rewrite Hlen, Ht. apply String.eqb_neq in Hne. by rewrite Hne.
Qed.

(** A worktree, and a link to it. *)
Definition demoEnv : Env := mkEnv (list_to_map [(["work"], NDir); (["work"; "app"], NDir); (["work"; "current"], NLink "app")]) "/work/app" None.
Lemma demoEnv_wf : wf (en_fs demoEnv).
Proof.
  assert (map_Forall (λ p n, p ≠ [] ∧ node (en_fs demoEnv) (removelast p) = Some NDir ∧ Forall okName p) (en_fs demoEnv)) as H.
  { unfold demoEnv. simpl. repeat (apply map_Forall_insert_2; [split; [done|split; [vm_compute; reflexivity|]]|]); [..|apply map_Forall_empty].
    all: repeat constructor; try done; try lia; vm_compute; lia. }
  split; intros p n Hp; destruct (H p n Hp) as (? & ? & ?); done.
Qed.
Lemma marker_roundtrip_witness : ∃ env', WriteMarkerFile demoEnv ".codegraph" MarkerFileName "/work/app" = (None, env') ∧
  DefaultMarkerReader env' ".codegraph" = ("/work/app", true, None) ∧
  dg_Status (Diagnose env' "/work/current" ".codegraph" "codegraph" (Some (DefaultMarkerReader env'))) = StatusOK.
Proof.
  assert (fst (WriteMarkerFile demoEnv ".codegraph" MarkerFileName "/work/app") = None) as E1 by (vm_compute; reflexivity).
  pose proof (surjective_pairing (WriteMarkerFile demoEnv ".codegraph" MarkerFileName "/work/app")) as E. rewrite E1 in E.
  exists (snd (WriteMarkerFile demoEnv ".codegraph" MarkerFileName "/work/app")). split; [exact E|]. split.
  - apply (marker_roundtrip demoEnv _ ".codegraph" MarkerFileName "/work/app" demoEnv_wf); [|exact E|..|done|reflexivity].
    + vm_compute. repeat constructor; done.
    + apply (bool_decide_unpack _). vm_compute. exact I.
    + vm_compute. reflexivity.
  - vm_compute. reflexivity.
Defined.
Lemma index_trusted_exact_witness :
  let reader : RootReader := λ _, ("/work/app", true, None) in
  EvaluateSeverity (Diagnose demoEnv "/work/current" "/work" "codegraph" (Some reader)) (mkPolicy false false false) = SeverityOK ∧
  (["work"; "app"] = ["work"; "app"] ↔ dg_Status (Diagnose demoEnv "/work/current" "/work" "codegraph" (Some reader)) = StatusOK).
Proof.
  intros reader. destruct (index_trusted_exact demoEnv "/work/current" "/work" "codegraph" (Some reader) (mkPolicy false false false)) as [H1 H2].
  split.
  - apply H1. split; [vm_compute; reflexivity|]. exists reader, "/work/app". split; [done|]. split; [done|]. split; [done|]. vm_compute. reflexivity.
  - rewrite (H2 ["work"; "current"] ["work"; "app"] ["work"; "app"] ["work"; "app"] demoEnv_wf); [|..].
    + split; [|done]. intros _. split; [vm_compute; reflexivity|]. done.
    + by repeat constructor.
    + by repeat constructor.
    + reflexivity.
    + reflexivity.
    + vm_compute. reflexivity.
    + vm_compute. reflexivity.
Defined.
