(* ===== verification/PatchApply.v ===== *)
(** Atomic application of a batch of file changes
    (src/patchapply/patchapply.go, path.go): validation, approval, capture of
    the prior state, application with rollback, and the exported [Rollback] and
    [Verify].

    The file system is that of [FileSystem]; approval is [Approval]'s broker.
    SHA-256 and the name [os.CreateTemp] picks are parameters; secrets in
    previews are redacted by [Envelope.redact].  Directories are given by absolute paths. *)

From stdpp Require Import base gmap list strings pretty.
From S2P Require Import Prelude Hex Provenance Approval Envelope Paths FileSystem.

Definition ErrApprovalRequired : string := "patchapply: approval required".
Definition ErrPriorContentMismatch : string := "patchapply: prior content mismatch".
Definition ErrJournalNotRestorable : string :=
  "patchapply: journal entry claims the path existed but has no original content to restore (was this Journal serialized and reloaded? see the package doc comment)".
Definition ErrEmptyPath : string := "patchapply: path must not be empty".
Definition ErrAbsolutePath : string := "patchapply: path must be relative to targetDir, not absolute".
Definition ErrPathTraversal : string := "patchapply: path escapes targetDir".

(** [nil] and empty byte slices are distinguished: [None] is [nil]. *)
Record FileChange := mkChange {
  fc_Path : string; fc_NewContent : string; fc_Delete : bool; fc_ExpectedPriorContent : option string }.

Definition EntryOutcome := string.
Definition OutcomeWritten : EntryOutcome := "written".
Definition OutcomeDeleted : EntryOutcome := "deleted".
Definition OutcomeNoop : EntryOutcome := "noop".

Record JournalEntry := mkEntry {
  je_Path : string; je_ExistedBefore : bool; je_OriginalContent : option string;
  je_Outcome : EntryOutcome; je_OriginalMode : Z; je_CreatedDir : string }.
Record Journal := mkJournal { jn_TargetDir : string; jn_Entries : list JournalEntry }.

Definition set_outcome (o : EntryOutcome) (e : JournalEntry) : JournalEntry :=
  mkEntry (je_Path e) (je_ExistedBefore e) (je_OriginalContent e) o (je_OriginalMode e) (je_CreatedDir e).
Definition set_createdDir (d : string) (e : JournalEntry) : JournalEntry :=
  mkEntry (je_Path e) (je_ExistedBefore e) (je_OriginalContent e) (je_Outcome e) (je_OriginalMode e) d.

(** [ApplyOptions] and [RollbackOptions]: the broker is part of the state. *)
Record Options := mkOptions { op_Broker : option Broker; op_Action : string; op_Token : string }.

(** 0o644. *)
Definition defaultNewFileMode : Z := 420.

Definition showBool (b : bool) : string := if b then "true" else "false".

(** [Journal.String]. *)
Definition Journal_String (j : Journal) : string :=
  "Journal{target_dir=" +:+ jn_TargetDir j +:+ " entries=["
  +:+ String.concat ", " ((λ e, je_Path e +:+ "(existed_before=" +:+ showBool (je_ExistedBefore e)
        +:+ ",outcome=" +:+ je_Outcome e +:+ ")") <$> jn_Entries j) +:+ "]}".

(** * Paths *)

(** The loops over a path's ancestors take one unit of fuel per element. *)
Definition pathFuel (path : string) : nat := S (S (length (elems path))).
Definition outOfFuel : error := New "out of fuel".

Fixpoint verifyFrom (fuel : nat) (realTargetDir dir : string) : IO (option error) :=
  match fuel with
  | 0 => mret (Some outOfFuel)
  | S fuel =>
    r ← EvalSymlinks dir;
    match r with
    | inl resolved =>
      if isWithin realTargetDir resolved then mret None
      else mret (Some (Errorf "%w: resolves outside targetDir via a symlink" [] [Const ErrPathTraversal]))
    | inr err =>
      if negb (IsNotExist err) then mret (Some (Errorf "patchapply: resolving %q: %w" [dir] [err]))
      else
        let parent := Dir dir in
        if String.eqb parent dir then mret None else verifyFrom fuel realTargetDir parent
    end
  end.
Definition verifyNoSymlinkEscape (realTargetDir full : string) : IO (option error) :=
  verifyFrom (pathFuel full) realTargetDir full.

Definition resolvedPath (realTargetDir rel : string) : IO (string + error) :=
  if String.eqb rel "" then mret (inr (Const ErrEmptyPath)) else
  if IsAbs rel then mret (inr (Errorf "%w: %q" [rel] [Const ErrAbsolutePath])) else
  let cleaned := Clean rel in
  if String.eqb cleaned ".." || HasPrefix cleaned "../"
  then mret (inr (Errorf "%w: %q" [rel] [Const ErrPathTraversal])) else
  if String.eqb cleaned "."
  then mret (inr (Errorf "%w: %q refers to the target directory itself" [rel] [Const ErrPathTraversal])) else
  let full := Join realTargetDir cleaned in
  if negb (isWithin realTargetDir full) then mret (inr (Errorf "%w: %q" [rel] [Const ErrPathTraversal])) else
  err ← verifyNoSymlinkEscape realTargetDir full;
  match err with
  | Some err => mret (inr err)
  | None => mret (inl full)
  end.

Definition resolveTargetDir (targetDir : string) : IO (string * Node + error) :=
  r ← EvalSymlinks targetDir;
  match r with
  | inr err => mret (inr (Errorf "patchapply: resolving targetDir %q: %w" [targetDir] [err]))
  | inl realTargetDir =>
    r ← Stat realTargetDir;
    match r with
    | inr err => mret (inr (Errorf "patchapply: statting targetDir %q: %w" [targetDir] [err]))
    | inl info => mret (inl (realTargetDir, info))
    end
  end.

Fixpoint validateFrom (realTargetDir : string) (i : nat) (seen : gmap string nat) (changes : list FileChange)
    : IO (list string + error) :=
  match changes with
  | [] => mret (inl [])
  | c :: changes =>
    r ← resolvedPath realTargetDir (fc_Path c);
    match r with
    | inr err => mret (inr (Errorf "patchapply: change %d (%q): %w" [pretty i; fc_Path c] [err]))
    | inl full =>
      match seen !! full with
      | Some prev => mret (inr (Errorf "patchapply: change %d and change %d both target %q"
                                  [pretty prev; pretty i; fc_Path c] []))
      | None =>
        rest ← validateFrom realTargetDir (S i) (<[full := i]> seen) changes;
        match rest with inl fulls => mret (inl (full :: fulls)) | inr err => mret (inr err) end
      end
    end
  end.
Definition validateChangePaths (realTargetDir : string) (changes : list FileChange) : IO (list string + error) :=
  validateFrom realTargetDir 0 ∅ changes.

(** * Reading and writing files *)

Definition readCurrent (path : string) : IO (option string * bool * Z + error) :=
  info ← Stat path;
  match info with
  | inr statErr => if IsNotExist statErr then mret (inl (None, false, 0%Z)) else mret (inr statErr)
  | inl n =>
    b ← ReadFile path;
    match b with
    | inr err => mret (inr err)
    | inl content => mret (inl (Some content, true, match n with NFile _ mode => mode | _ => 0%Z end))
    end
  end.

(** The topmost missing ancestor. *)
Fixpoint topMissing (fuel : nat) (top : string) : IO (string + error) :=
  match fuel with
  | 0 => mret (inr outOfFuel)
  | S fuel =>
    let parent := Dir top in
    if String.eqb parent top then mret (inl top) else
    r ← Stat parent;
    match r with
    | inl _ => mret (inl top)
    | inr statErr => if negb (IsNotExist statErr) then mret (inr statErr) else topMissing fuel parent
    end
  end.

Definition ensureDir (dir : string) : IO (string + error) :=
  r ← Stat dir;
  match r with
  | inl info =>
    match info with
    | NDir => mret (inl "")
    | _ => mret (inr (Errorf "patchapply: %q exists and is not a directory" [dir] []))
    end
  | inr err =>
    if negb (IsNotExist err) then mret (inr err) else
    r ← topMissing (pathFuel dir) dir;
    match r with
    | inr err => mret (inr err)
    | inl top =>
      r ← MkdirAll dir;
      match r with inr err => mret (inr err) | inl _ => mret (inl top) end
    end
  end.

Definition applyDelete (path : string) (existed : bool) : IO (EntryOutcome + error) :=
  if negb existed then mret (inl OutcomeNoop) else
  r ← Remove path;
  match r with inr err => mret (inr err) | inl _ => mret (inl OutcomeDeleted) end.

(** Remove the temporary file, whatever happens, and report [err]. *)
Definition abandon (tmpName : string) (err : error) : IO (option error) :=
  _ ← Remove tmpName; mret (Some err).

(** How the names of temporary files begin. *)
Definition tmpPrefix : string := ".patchapply-tmp-".

Section patch.
Context (tmpName : FS → Loc → string) (sha256 : string → string).

Definition writeViaRename (dir path content : string) (mode : Z) : IO (option error) :=
  r ← CreateTemp tmpName dir;
  match r with
  | inr err => mret (Some err)
  | inl tmp =>
    writeErr ← Write tmp content;
    closeErr ← Close tmp;
    match writeErr, closeErr with
    | inr writeErr, _ => abandon tmp writeErr
    | _, inr closeErr => abandon tmp closeErr
    | _, _ =>
      r ← Chmod tmp mode;
      match r with
      | inr err => abandon tmp err
      | inl _ =>
        r ← Rename tmp path;
        match r with inr err => abandon tmp err | inl _ => mret None end
      end
    end
  end.

(** The created directory is reported on failure, too. *)
Definition applyWrite (path content : string) (mode : Z) : IO (string * option error) :=
  let dir := Dir path in
  r ← ensureDir dir;
  match r with
  | inr err => mret ("", Some err)
  | inl createdDir =>
    err ← writeViaRename dir path content mode;
    mret (createdDir, err)
  end.

(** * Rollback of entries *)

Fixpoint removeUp (fuel : nat) (createdDir resolvedCreated dir : string) : IO (option error) :=
  match fuel with
  | 0 => mret (Some outOfFuel)
  | S fuel =>
    if negb (isWithin resolvedCreated dir) then mret None else
    let next := if String.eqb dir resolvedCreated then mret None
                else removeUp fuel createdDir resolvedCreated (Dir dir) in
    entries ← ReadDir dir;
    match entries with
    | inr err => if IsNotExist err then next
                 else mret (Some (Errorf "patchapply: reading created dir %q: %w" [dir] [err]))
    | inl (_ :: _) => mret None
    | inl [] =>
      r ← Remove dir;
      match r with
      | inr err => if negb (IsNotExist err)
                   then mret (Some (Errorf "patchapply: removing created dir %q: %w" [dir] [err]))
                   else next
      | inl _ => next
      end
    end
  end.

Definition removeCreatedDir (realTargetDir fileDir createdDir : string) : IO (option error) :=
  r ← EvalSymlinks createdDir;
  match r with
  | inr err => if IsNotExist err then mret None
               else mret (Some (Errorf "patchapply: resolving created dir %q: %w" [createdDir] [err]))
  | inl resolvedCreated =>
    if negb (isWithin realTargetDir resolvedCreated)
    then mret (Some (Errorf "%w: created_dir %q resolves outside targetDir, refusing to remove it"
                       [createdDir] [Const ErrPathTraversal]))
    else removeUp (pathFuel fileDir) createdDir resolvedCreated fileDir
  end.

Definition restoreEntry (realTargetDir full : string) (e : JournalEntry) : IO (option error) :=
  if negb (je_ExistedBefore e) then
    r ← Remove full;
    match r with
    | inr err => if negb (IsNotExist err) then mret (Some err)
                 else if negb (String.eqb (je_CreatedDir e) "")
                 then removeCreatedDir realTargetDir (Dir full) (je_CreatedDir e) else mret None
    | inl _ => if negb (String.eqb (je_CreatedDir e) "")
               then removeCreatedDir realTargetDir (Dir full) (je_CreatedDir e) else mret None
    end
  else match je_OriginalContent e with
  | None => mret (Some (Errorf "%w: %q" [je_Path e] [Const ErrJournalNotRestorable]))
  | Some content =>
    let mode := if (je_OriginalMode e =? 0)%Z then defaultNewFileMode else je_OriginalMode e in
    let dir := Dir full in
    r ← ensureDir dir;
    match r with
    | inr err => mret (Some err)
    | inl _ => writeViaRename dir full content mode
    end
  end.

Definition rollbackEntry (realTargetDir : string) (e : JournalEntry) : IO (option error) :=
  r ← resolvedPath realTargetDir (je_Path e);
  match r with
  | inr err => mret (Some (Errorf "patchapply: rolling back %q: %w" [je_Path e] [err]))
  | inl full =>
    r ← restoreEntry realTargetDir full e;
    match r with
    | Some err => mret (Some (Errorf "patchapply: rolling back %q: %w" [je_Path e] [err]))
    | None => mret None
    end
  end.
(** Every entry, the last one first; no error stops it. *)
Fixpoint rollbackAll (realTargetDir : string) (reversed : list JournalEntry) : IO (list (option error)) :=
  match reversed with
  | [] => mret []
  | e :: reversed =>
    err ← rollbackEntry realTargetDir e;
    errs ← rollbackAll realTargetDir reversed;
    mret (err :: errs)
  end.
Definition rollbackEntries (realTargetDir : string) (entries : list JournalEntry) : IO (option error) :=
  errs ← rollbackAll realTargetDir (reverse entries);
  mret (errors_Join errs).

(** * Approval *)

Definition batchResource (paths : list string) : string :=
  hexEncode (sha256 (String.concat (String (Ascii.ascii_of_N 0) "") (sort_Strings paths))).
Definition BatchScope (action : string) (paths : list string) : Scope := mkScope action (batchResource paths).

Definition checkBrokerScope (now : Z) (broker : Broker) (token : string) (scope : Scope) : Status * Broker :=
  if negb (String.eqb token "") then CheckToken token scope now broker else Check scope now broker.

(** The error if any, and the broker after the check. *)
Definition checkApproval (now : Z) (changes : list FileChange) (opts : Options) : option error * option Broker :=
  let hasDelete := existsb fc_Delete changes in
  let paths := fc_Path <$> changes in
  match op_Broker opts with
  | None =>
    if hasDelete
    then (Some (Errorf "patchapply: %w: batch contains a Delete change but no approval.Broker was configured"
                  [] [Const ErrApprovalRequired]), None)
    else (None, None)
  | Some broker =>
    let scope := BatchScope (op_Action opts) paths in
    let r := checkBrokerScope now broker (op_Token opts) scope in
    if String.eqb r.1 StatusPass then (None, Some r.2)
    else (Some (Errorf "patchapply: %w: scope=%s status=%s" [Scope_String scope; r.1] [Const ErrApprovalRequired]),
          Some r.2)
  end.

Definition checkRollbackApproval (now : Z) (entries : list JournalEntry) (opts : Options)
    : option error * option Broker :=
  let deletePaths := je_Path <$> filter (λ e, je_ExistedBefore e = false) entries in
  match deletePaths with
  | [] => (None, op_Broker opts)
  | _ =>
    match op_Broker opts with
    | None => (Some (Errorf "patchapply: %w: rollback must delete %d path(s) but no approval.Broker was configured"
                       [pretty (length deletePaths)] [Const ErrApprovalRequired]), None)
    | Some broker =>
      let scope := BatchScope (op_Action opts) deletePaths in
      let r := checkBrokerScope now broker (op_Token opts) scope in
      if String.eqb r.1 StatusPass then (None, Some r.2)
      else (Some (Errorf "patchapply: %w: scope=%s status=%s" [Scope_String scope; r.1] [Const ErrApprovalRequired]),
            Some r.2)
    end
  end.

(** * Previews (secrets.go) *)

Definition maxPreviewBytes : nat := 200.
Definition previewContent (content : option string) : string :=
  match content with
  | None => "<absent>"
  | Some EmptyString => "<empty>"
  | Some s =>
    let s := redact s in
    if decide (maxPreviewBytes < String.length s)
    then String.substring 0 maxPreviewBytes s +:+ "...(truncated)" else s
  end.

(** [bytes.Equal]: a nil slice equals an empty one. *)
Definition bytesEqual (a b : option string) : bool := String.eqb (default "" a) (default "" b).

(** * Apply *)

Fixpoint captureFrom (i : nat) (todo : list (FileChange * string)) : IO (list JournalEntry + error) :=
  match todo with
  | [] => mret (inl [])
  | (c, full) :: todo =>
    r ← readCurrent full;
    match r with
    | inr err => mret (inr (Errorf "patchapply: change %d (%q): reading current content: %w"
                              [pretty i; fc_Path c] [err]))
    | inl (current, existed, mode) =>
      if match fc_ExpectedPriorContent c with Some _ => negb (bytesEqual current (fc_ExpectedPriorContent c)) | None => false end
      then mret (inr (Errorf "patchapply: change %d (%q): %w: expected %s, found %s"
             [pretty i; fc_Path c; previewContent (fc_ExpectedPriorContent c); previewContent current]
             [Const ErrPriorContentMismatch]))
      else
        rest ← captureFrom (S i) todo;
        match rest with
        | inl es => mret (inl (mkEntry (fc_Path c) existed current "" mode "" :: es))
        | inr err => mret (inr err)
        end
    end
  end.
Definition captureCurrentState (changes : list FileChange) (fullPaths : list string)
    : IO (list JournalEntry + error) := captureFrom 0 (zip changes fullPaths).

Definition combineApplyRollbackErr (applyErr : error) (rollbackErr : option error) : error :=
  match rollbackErr with
  | Some e => Errorf "%w (rollback of already-applied changes also encountered errors: %v)" [] [applyErr]
  | None => applyErr
  end.

(** One change: its entry completed, or the entries to roll back and the
    error. *)
Definition applyOne (i : nat) (c : FileChange) (full : string) (entry : JournalEntry) (applied : list JournalEntry)
    : IO (JournalEntry + list JournalEntry * error) :=
  if fc_Delete c then
    r ← applyDelete full (je_ExistedBefore entry);
    match r with
    | inr err => mret (inr (applied, Errorf "patchapply: change %d (%q): deleting: %w" [pretty i; fc_Path c] [err]))
    | inl outcome => mret (inl (set_outcome outcome entry))
    end
  else
    let mode := if negb (je_ExistedBefore entry) || (je_OriginalMode entry =? 0)%Z
                then defaultNewFileMode else je_OriginalMode entry in
    r ← applyWrite full (fc_NewContent c) mode;
    match r with
    | (createdDir, Some err) =>
      mret (inr (applied ++ [set_createdDir createdDir entry],
                 Errorf "patchapply: change %d (%q): writing: %w" [pretty i; fc_Path c] [err]))
    | (createdDir, None) => mret (inl (set_createdDir createdDir (set_outcome OutcomeWritten entry)))
    end.

Fixpoint applyFrom (realTargetDir : string) (i : nat) (todo : list (FileChange * string * JournalEntry))
    (applied : list JournalEntry) : IO (list JournalEntry + error) :=
  match todo with
  | [] => mret (inl applied)
  | (c, full, entry) :: todo =>
    r ← applyOne i c full entry applied;
    match r with
    | inr (toRollBack, err) =>
      rollbackErr ← rollbackEntries realTargetDir toRollBack;
      mret (inr (combineApplyRollbackErr err rollbackErr))
    | inl entry => applyFrom realTargetDir (S i) todo (applied ++ [entry])
    end
  end.
Definition applyAll (realTargetDir : string) (changes : list FileChange) (fullPaths : list string)
    (entries : list JournalEntry) : IO (list JournalEntry + error) :=
  applyFrom realTargetDir 0 (zip (zip changes fullPaths) entries) [].

(** The result and the broker afterwards. *)
Definition Apply (now : Z) (targetDir : string) (changes : list FileChange) (opts : Options)
    : IO ((Journal + error) * option Broker) :=
  r ← resolveTargetDir targetDir;
  match r with
  | inr err => mret (inr err, op_Broker opts)
  | inl (realTargetDir, info) =>
    if negb (bool_decide (info = NDir))
    then mret (inr (Errorf "patchapply: targetDir %q is not a directory" [targetDir] []), op_Broker opts) else
    r ← validateChangePaths realTargetDir changes;
    match r with
    | inr err => mret (inr err, op_Broker opts)
    | inl fullPaths =>
      let a := checkApproval now changes opts in
      match a.1 with
      | Some err => mret (inr err, a.2)
      | None =>
        r ← captureCurrentState changes fullPaths;
        match r with
        | inr err => mret (inr err, a.2)
        | inl entries =>
          r ← applyAll realTargetDir changes fullPaths entries;
          match r with
          | inr err => mret (inr err, a.2)
          | inl applied => mret (inl (mkJournal realTargetDir applied), a.2)
          end
        end
      end
    end
  end.

(** * Rollback and Verify *)

Fixpoint validateEntries (realTargetDir : string) (entries : list JournalEntry) : IO (option error) :=
  match entries with
  | [] => mret None
  | e :: entries =>
    r ← resolvedPath realTargetDir (je_Path e);
    match r with
    | inr err => mret (Some (Errorf "patchapply: rolling back %q: %w" [je_Path e] [err]))
    | inl _ => validateEntries realTargetDir entries
    end
  end.

Definition wrongDir (j : Journal) (realTargetDir : string) : bool :=
  negb (String.eqb (jn_TargetDir j) "") && negb (String.eqb (jn_TargetDir j) realTargetDir).

Definition Rollback (now : Z) (targetDir : string) (j : Journal) (opts : Options)
    : IO (option error * option Broker) :=
  r ← EvalSymlinks targetDir;
  match r with
  | inr err => mret (Some (Errorf "patchapply: resolving targetDir %q: %w" [targetDir] [err]), op_Broker opts)
  | inl realTargetDir =>
    if wrongDir j realTargetDir
    then mret (Some (Errorf "patchapply: journal was produced for targetDir %q, not %q"
                       [jn_TargetDir j; realTargetDir] []), op_Broker opts) else
    err ← validateEntries realTargetDir (jn_Entries j);
    match err with
    | Some err => mret (Some err, op_Broker opts)
    | None =>
      let a := checkRollbackApproval now (jn_Entries j) opts in
      match a.1 with
      | Some err => mret (Some err, a.2)
      | None => err ← rollbackEntries realTargetDir (jn_Entries j); mret (err, a.2)
      end
    end
  end.

Definition verifyEntry (realTargetDir : string) (e : JournalEntry) : IO (list (option error)) :=
  r ← resolvedPath realTargetDir (je_Path e);
  match r with
  | inr err => mret [Some (Errorf "patchapply: verifying %q: %w" [je_Path e] [err])]
  | inl full =>
    r ← readCurrent full;
    match r with
    | inr err => mret [Some (Errorf "patchapply: verifying %q: reading: %w" [je_Path e] [err])]
    | inl (current, existed, mode) =>
      if negb (Bool.eqb existed (je_ExistedBefore e))
      then mret [Some (Errorf "patchapply: verifying %q: expected existed=%t, found existed=%t"
                         [je_Path e; showBool (je_ExistedBefore e); showBool existed] [])]
      else mret
        [if bytesEqual current (je_OriginalContent e) then None
         else Some (Errorf "patchapply: verifying %q: content mismatch: expected %s, found %s"
                      [je_Path e; previewContent (je_OriginalContent e); previewContent current] []);
         if existed && negb (je_OriginalMode e =? 0)%Z && negb (mode =? je_OriginalMode e)%Z
         then Some (Errorf "patchapply: verifying %q: mode mismatch: expected %#o, found %#o"
                      [je_Path e; pretty (je_OriginalMode e); pretty mode] []) else None]
    end
  end.
Fixpoint verifyEntries (realTargetDir : string) (entries : list JournalEntry) : IO (list (option error)) :=
  match entries with
  | [] => mret []
  | e :: entries =>
    errs ← verifyEntry realTargetDir e;
    rest ← verifyEntries realTargetDir entries;
    mret (errs ++ rest)
  end.
Definition Verify (targetDir : string) (j : Journal) : IO (option error) :=
  r ← EvalSymlinks targetDir;
  match r with
  | inr err => mret (Some (Errorf "patchapply: resolving targetDir %q: %w" [targetDir] [err]))
  | inl realTargetDir =>
    if wrongDir j realTargetDir
    then mret (Some (Errorf "patchapply: journal was produced for targetDir %q, not %q"
                       [jn_TargetDir j; realTargetDir] [])) else
    errs ← verifyEntries realTargetDir (jn_Entries j);
    mret (errors_Join errs)
  end.
End patch.
