(* ===== verification/PatchSafety.v ===== *)
(** Correctness of [PatchApply]: a batch is applied entirely or not at all, a
    rollback restores exactly what was there, deletions need approval, and
    drift is caught before anything is written. *)

From stdpp Require Import base gmap list strings pretty.
From S2P Require Import Prelude Hex Provenance Approval Paths FileSystem PatchApply.

(** * The lexical part of [resolvedPath] *)

(** [rel] is a relative path that cleans to the names [r]. *)
Definition lexical (rel : string) (r : list string) : Prop :=
  IsAbs rel = false ∧ Clean rel = joinSlash r ∧ r ≠ [] ∧ Forall normal r.

Lemma joinSlash_inj_l r s : Forall normal r → r ≠ [] → joinSlash r = s → splitSlash s = r.
Proof. intros H Hne <-. by apply splitSlash_join, normal_noslash. Qed.

Lemma lexical_elems rel r : lexical rel r → elems (Clean rel) = r.
Proof.
  intros (_ & E & Hne & H). unfold elems. rewrite E, splitSlash_join by (done || by apply normal_noslash).
  clear E Hne. induction H as [|c r (Hc & _) _ IH]; [done|]. by rewrite filter_cons_True, IH.
Qed.

Lemma lexical_tests rel r : lexical rel r →
  String.eqb rel "" = false ∧ String.eqb (Clean rel) ".." = false ∧ HasPrefix (Clean rel) "../" = false ∧
  String.eqb (Clean rel) "." = false.
Proof.
  intros (Ha & E & Hne & H).
  assert (∀ x, x = "." ∨ x = ".." → joinSlash r ≠ x) as Hx.
  { intros x Hx Ej. apply joinSlash_inj_l in Ej; [|done..].
    destruct Hx as [-> | ->]; simpl in Ej; subst r; inversion H as [|? ? (_ & H1 & H2 & _)]; done. }
  split_and!.
  - apply String.eqb_neq. intros ->. apply (Hx "."); [by left|]. by rewrite <-E.
  - rewrite E. apply String.eqb_neq, Hx. by right.
  - rewrite E. destruct (HasPrefix (joinSlash r) "../") eqn:Hp; [|done]. apply prefix_str in Hp as [t Ht].
    apply joinSlash_inj_l in Ht; [|done..]. change ("../" +:+ t) with (".." +:+ String (Ascii.Ascii true true true true false true false false) t) in Ht.
    rewrite splitSlash_app in Ht by done. subst r. by inversion H as [|? ? (_ & _ & H2 & _)].
  - rewrite E. apply String.eqb_neq, Hx. by left.
Qed.

Section base.
Context (b : Loc) (Hbok : Forall okName b) (Hbne : b ≠ []).

Lemma resolvedPath_lexical rel r : lexical rel r →
  resolvedPath (abs b) rel =
  (err ← verifyNoSymlinkEscape (abs b) (abs (b ++ r));
   match err with Some err => mret (inr err) | None => mret (inl (abs (b ++ r))) end).
Proof.
  intros Hl. destruct (lexical_tests rel r Hl) as (H1 & H2 & H3 & H4). destruct Hl as (Ha & E & Hne & H).
  unfold resolvedPath. rewrite H1, Ha, H2, H3, H4. simpl. rewrite E, Join_abs by (done || by apply ok_normal).
  assert (isWithin (abs b) (abs (b ++ r)) = true) as ->; [|done].
  apply isWithin_abs; [by apply ok_normal|done| |by apply prefix_app_r].
  apply Forall_app. split; [by apply ok_normal|done].
Qed.

Local Ltac refused := left; split; [by eexists|]; intros r Hl;
  destruct (lexical_tests _ r Hl) as (? & ? & ? & ?); destruct Hl as (? & _); congruence.
Lemma resolvedPath_cases rel :
  (∃ e, resolvedPath (abs b) rel = mret (inr e)) ∧ (∀ r, ¬ lexical rel r) ∨ ∃ r, lexical rel r.
Proof.
  unfold resolvedPath.
  destruct (String.eqb rel "") eqn:H0; [refused|]. destruct (IsAbs rel) eqn:Ha; [refused|].
  destruct (String.eqb (Clean rel) "..") eqn:H1; [refused|].
  destruct (HasPrefix (Clean rel) "../") eqn:H2; [refused|]. simpl.
  destruct (Clean_relative rel Ha H1 H2) as [E|(r & Hr & Hn & E)]; [|right; by exists r].
  apply String.eqb_eq in E. rewrite E. refused.
Qed.

(** ** The ancestor loops *)

Lemma isWithin_below r : Forall okName r → isWithin (abs b) (abs (b ++ r)) = true.
Proof.
  intros Hr. apply isWithin_abs; [by apply ok_normal|done| |by apply prefix_app_r].
  apply Forall_app. split; by apply ok_normal.
Qed.

Lemma Dir_below d c : Forall okName (d ++ [c]) → Dir (abs (b ++ d ++ [c])) = abs (b ++ d).
Proof.
  intros Hok. apply Forall_app in Hok as [Hd Hc]. inversion Hc as [|? ? [Hc' _]]; subst.
  rewrite app_assoc. apply Dir_abs; [|done]. apply Forall_app. split; by apply ok_normal.
Qed.

Lemma abs_snoc_ne d c : Forall okName (d ++ [c]) → abs (b ++ d) ≠ abs (b ++ d ++ [c]).
Proof.
  intros Hok E. assert (Forall okName d) as Hd by (by apply Forall_app in Hok as [? _]).
  apply abs_inj in E; [|apply Forall_app; split; by apply ok_normal..].
  apply (f_equal length) in E. rewrite !length_app in E. simpl in E. lia.
Qed.

Lemma verify_below fs r fuel : wf fs → node fs b = Some NDir → Forall okName r → pathOK fs b r → length r < fuel →
  spec fs (verifyFrom fuel (abs b) (abs (b ++ r))) (λ res fs', res = None ∧ fs' = fs)
    (λ res fs', is_Some res ∧ fs' = fs).
Proof.
  intros Hwf Hb. revert fuel. induction r as [|c d IH] using rev_ind; intros fuel Hok Hp Hf; (destruct fuel as [|fuel]; [lia|]).
  all: simpl; eapply spec_bind; [apply spec_sys| |].
  - intros a fs' [-> ->]. simpl. rewrite app_nil_r, evalF_dir by done.
    pose proof (isWithin_below [] (Forall_nil_2 _)) as Hw. rewrite app_nil_r in Hw. rewrite Hw. by apply spec_ret.
  - intros a fs' [-> (e & -> & He)]. rewrite He. simpl. apply qspec_ret. by split.
  - intros a fs' [-> ->]. simpl. rewrite (eval_below fs b d c) by done.
    destruct (fs !! (b ++ d ++ [c])) as [n|] eqn:E.
    + rewrite isWithin_below by done. by apply spec_ret.
    + simpl. rewrite Dir_below by done. rewrite (proj2 (String.eqb_neq _ _)) by (by apply abs_snoc_ne).
      rewrite length_app in Hf. simpl in Hf. destruct (decide (d = [])) as [->|Hd].
      * apply IH; [done|split|simpl; lia].
        -- intros q [k Hk] Hq Hqn. destruct q; [done|]. done.
        -- intros t Ht. rewrite app_nil_r in Ht. rewrite node_ne in Hb by done. congruence.
      * apply IH; [by apply Forall_app in Hok as [? _]|by eapply pathOK_snoc|lia].
  - intros a fs' [-> (e & -> & He)]. rewrite He. simpl. apply qspec_ret. by split.
Qed.

Lemma pathFuel_below r : Forall okName r → length r < pathFuel (abs (b ++ r)).
Proof.
  intros H. unfold pathFuel. rewrite elems_ok by (by apply Forall_app). rewrite length_app. lia.
Qed.

Lemma resolved_below fs rel r : wf fs → node fs b = Some NDir → lexical rel r → Forall okName r → pathOK fs b r →
  spec fs (resolvedPath (abs b) rel) (λ res fs', res = inl (abs (b ++ r)) ∧ fs' = fs)
    (λ res fs', (∃ e, res = inr e) ∧ fs' = fs).
Proof.
  intros Hwf Hb Hl Hok Hp. rewrite (resolvedPath_lexical rel r Hl).
  eapply spec_bind; [apply verify_below; try done; by apply pathFuel_below| |].
  - intros a fs' [-> ->]. by apply spec_ret.
  - intros a fs' [[e ->] ->]. apply qspec_ret. split; [by eexists|done].
Qed.

(** * Reading and creating directories *)

Lemma readCurrent_below fs d c : wf fs → node fs b = Some NDir → Forall okName (d ++ [c]) → pathOK fs b (d ++ [c]) →
  spec fs (readCurrent (abs (b ++ d ++ [c])))
    (λ res fs', res = match fs !! (b ++ d ++ [c]) with
       | None => inl (None, false, 0%Z)
       | Some (NFile x m) => inl (Some x, true, m)
       | Some _ => inr EISDIR end ∧ fs' = fs)
    (λ res fs', (∃ e, res = inr e) ∧ fs' = fs).
Proof.
  intros Hwf Hb Hok Hp. unfold readCurrent. eapply spec_bind; [apply spec_sys| |].
  - intros a fs' [-> ->]. simpl. rewrite stat_below by done. destruct (fs !! (b ++ d ++ [c])) as [n|] eqn:E.
    + eapply spec_bind; [apply spec_sys| |].
      * intros a fs' [-> ->]. simpl. rewrite read_below, E by done. by destruct n; apply spec_ret.
      * intros a fs' [-> (e & -> & He)]. apply qspec_ret. split; [by eexists|done].
    + by apply spec_ret.
  - intros a fs' [-> (e & -> & He)]. rewrite He. apply qspec_ret. split; [by eexists|done].
Qed.

(** The directories a write needs: all there, or made from the first missing
    one on.  [top] is what [ensureDir] reports. *)
Definition newDirs (fs : FS) (d : list string) (top : string) (fs' : FS) : Prop :=
  (node fs (b ++ d) = Some NDir ∧ top = "" ∧ fs' = fs) ∨
  (∃ d1 x s, d = d1 ++ x :: s ∧ node fs (b ++ d1) = Some NDir ∧ fs !! ((b ++ d1) ++ [x]) = None ∧
     top = abs ((b ++ d1) ++ [x]) ∧ fs' = mkchain ((b ++ d1) ++ [x]) s fs).

(** What is left when making them failed: nothing new, or the first ones but not
    all of them. *)
Definition leftDirs (fs : FS) (d : list string) (fs' : FS) : Prop :=
  fs' = fs ∨
  ∃ d1 x s1 y s2, d = d1 ++ x :: s1 ++ y :: s2 ∧ node fs (b ++ d1) = Some NDir ∧ fs !! ((b ++ d1) ++ [x]) = None ∧
    fs' = mkchain ((b ++ d1) ++ [x]) s1 fs.

Lemma newDirs_wf fs d top fs' : wf fs → Forall okName d → newDirs fs d top fs' →
  wf fs' ∧ node fs' (b ++ d) = Some NDir.
Proof.
  intros Hwf Hok [(Hd & -> & ->)|(d1 & x & s & -> & Hd & Hn & -> & ->)]; [done|].
  apply Forall_app in Hok as [_ Hok]. inversion Hok as [|? ? Hx Hs]; subst.
  rewrite (app_assoc b d1 (x :: s)). by apply mkchain_spec.
Qed.

Lemma topMissing_spec fs p x s fuel : wf fs → node fs p = Some NDir → okName x → Forall okName s →
  fs !! (p ++ [x]) = None → length s < fuel →
  spec fs (topMissing fuel (abs (p ++ x :: s))) (λ res fs', res = inl (abs (p ++ [x])) ∧ fs' = fs)
    (λ res fs', (∃ e, res = inr e) ∧ fs' = fs).
Proof.
  intros Hwf Hp Hx. assert (Forall okName p) as Hpok by (by eapply wf_node_names). revert fuel.
  induction s as [|y s IH] using rev_ind; intros fuel Hs Hn Hf; (destruct fuel as [|fuel]; [lia|]); cbn [topMissing].
  - assert (Dir (abs (p ++ [x])) = abs p) as -> by (apply Dir_abs; [by apply ok_normal|by destruct Hx]).
    rewrite (proj2 (String.eqb_neq _ _)).
    2:{ intros E. apply abs_inj in E; [|by apply ok_normal|apply Forall_app; split; [by apply ok_normal|apply Forall_singleton; by destruct Hx]].
        apply (f_equal length) in E. rewrite length_app in E. simpl in E. lia. }
    eapply spec_bind; [apply spec_sys| |].
    + intros a fs' [-> ->]. simpl. rewrite statF_dir by done. by apply spec_ret.
    + intros a fs' [-> (e & -> & He)]. rewrite He. apply qspec_ret. split; [by eexists|done].
  - apply Forall_app in Hs as [Hs Hy]. inversion Hy as [|? ? [Hy' _] _]; subst.
    assert (Forall normal (p ++ x :: s)) as Hnorm.
    { apply Forall_app. split; [by apply ok_normal|]. constructor; [by destruct Hx|by apply ok_normal]. }
    replace (p ++ x :: s ++ [y]) with ((p ++ x :: s) ++ [y]) by (by rewrite <-app_assoc).
    rewrite Dir_abs by done. rewrite (proj2 (String.eqb_neq _ _)).
    2:{ intros E. apply abs_inj in E; [|done|apply Forall_app; split; [done|by apply Forall_singleton]].
        apply (f_equal length) in E. rewrite (length_app (p ++ x :: s)) in E. simpl in E. lia. }
    rewrite length_app in Hf. simpl in Hf. eapply spec_bind; [apply spec_sys| |].
    + intros a fs' [-> ->]. simpl. rewrite statF_missing by done. apply IH; [done|done|lia].
    + intros a fs' [-> (e & -> & He)]. rewrite He. apply qspec_ret. split; [by eexists|done].
Qed.

Lemma ensureDir_spec fs d c : wf fs → node fs b = Some NDir → Forall okName (d ++ [c]) → pathOK fs b (d ++ [c]) →
  spec fs (ensureDir (abs (b ++ d))) (λ res fs', ∃ top, res = inl top ∧ newDirs fs d top fs')
    (λ res fs', (∃ e, res = inr e) ∧ leftDirs fs d fs').
Proof.
  intros Hwf Hb Hok Hp. unfold ensureDir. eapply spec_bind; [apply spec_sys| |].
  2:{ intros a fs' [-> (e & -> & He)]. rewrite He. apply qspec_ret. split; [by eexists|by left]. }
  intros a fs' [-> ->]. simpl. assert (Forall okName d) as Hd by (by apply Forall_app in Hok as [? _]).
  destruct (below_cases fs b d c Hwf Hb Hok Hp) as [[Hdir _]|(d1 & x & s & Hd1 & Hx & Hs & Hn & Hm & E & ->)].
  - rewrite statF_dir by done. apply spec_ret. exists "". split; [done|by left].
  - apply Forall_app in Hd as [_ Hd]. inversion Hd as [|? ? _ Hs']; subst.
    rewrite (app_assoc b d1 (x :: s)), statF_missing by done. simpl.
    assert (length s < pathFuel (abs ((b ++ d1) ++ x :: s))) as Hf.
    { unfold pathFuel. rewrite elems_ok, length_app by (apply Forall_app; split; [by eapply wf_node_names|by constructor]).
      simpl. lia. }
    refine (spec_bind _ _ _ _ _ _ _ (topMissing_spec fs (b ++ d1) x s _ Hwf Hd1 Hx Hs' Hn Hf) _ _).
    + intros a fs' [-> ->]. simpl. unfold MkdirAll. rewrite elems_ok by (apply Forall_app; split; [by eapply wf_node_names|by constructor]).
      eapply spec_bind; [by apply mkdirAll_missing| |].
      * intros a fs' [-> ->]. apply spec_ret. exists (abs ((b ++ d1) ++ [x])). split; [done|right]. by exists d1, x, s.
      * intros a fs' [[e ->] Hpart]. apply qspec_ret. split; [by eexists|].
        destruct Hpart as [->|(s1 & y & s2 & -> & ->)]; [by left|]. right. by exists d1, x, s1, y, s2.
    + intros a fs' [[e ->] ->]. apply qspec_ret. split; [by eexists|by left].
Qed.

(** * Writing through a temporary file *)

Section temp.
Context (tmpName : FS → Loc → string).
(** The name of a temporary file is a proper name with the prefix asked for. *)
Context (Htmp : ∀ fs d, okName (tmpName fs d) ∧ HasPrefix (tmpName fs d) tmpPrefix = true).

(** No temporary file is left over in a directory. *)
Definition noTemp (fs : FS) (p : Loc) : Prop := ∀ x, HasPrefix x tmpPrefix = true → fs !! (p ++ [x]) = None.

Lemma noTemp_delete fs p q : noTemp fs p → noTemp (delete q fs) p.
Proof. intros H x Hx. rewrite lookup_delete. case_decide; [done|by apply H]. Qed.
Lemma noTemp_withFile fs p q c n : noTemp fs p → HasPrefix c tmpPrefix = false → noTemp (<[q ++ [c] := n]> fs) p.
Proof.
  intros H Hc x Hx. rewrite lookup_insert_ne; [by apply H|]. intros E. apply app_inj_tail in E as [_ ->]. congruence.
Qed.

Lemma abandon_spec fs p x err mode content : wf fs → node fs p = Some NDir → okName x → fs !! (p ++ [x]) = None →
  qspec (<[p ++ [x] := NFile content mode]> fs) (abandon (abs (p ++ [x])) err)
    (λ res fs', is_Some res ∧ fs' = fs).
Proof.
  intros Hwf Hp Hx Hn. unfold abandon. eapply qspec_bind; [apply qspec_sys|]. intros a fs' [_ ->].
  apply qspec_ret. split; [by eexists|]. rewrite removeF_file; [|by apply wf_insert; auto; left; rewrite Hn| |done| |].
  - simpl. by apply delete_insert_id.
  - rewrite node_insert by apply snoc_ne. rewrite decide_False; [done|].
    intros E. apply (f_equal length) in E. rewrite length_app in E. simpl in E. lia.
  - by rewrite lookup_insert_eq.
  - by rewrite lookup_insert_eq.
Qed.

(** A file among the entries of a directory. *)
Definition withFile (fs : FS) (q : Loc) (content : string) (mode : Z) : FS := <[q := NFile content mode]> fs.

Lemma wf_withFile fs p x content mode : wf fs → node fs p = Some NDir → okName x → fs !! (p ++ [x]) ≠ Some NDir →
  wf (withFile fs (p ++ [x]) content mode) ∧ node (withFile fs (p ++ [x]) content mode) p = Some NDir.
Proof.
  intros Hwf Hp Hx Hn. unfold withFile. split; [apply wf_insert; auto|].
  rewrite node_insert by apply snoc_ne. rewrite decide_False; [done|].
  intros E. apply (f_equal length) in E. rewrite length_app in E. simpl in E. lia.
Qed.

Lemma update_spec fs p x content mode f : wf fs → node fs p = Some NDir → okName x → fs !! (p ++ [x]) ≠ Some NDir →
  spec (withFile fs (p ++ [x]) content mode) (sys (updateF (abs (p ++ [x])) f))
    (λ res fs', res = inl tt ∧ fs' = <[p ++ [x] := f content mode]> fs)
    (λ res fs', (∃ e, res = inr e) ∧ fs' = withFile fs (p ++ [x]) content mode).
Proof.
  intros Hwf Hp Hx Hn. destruct (wf_withFile fs p x content mode Hwf Hp Hx Hn) as [Hwf' Hp'].
  eapply spec_weaken; [apply spec_sys| |].
  - intros a fs' [-> ->]. rewrite (updateF_file _ p x f content mode Hwf' Hp' Hx) by apply lookup_insert_eq.
    split; [done|]. unfold withFile. simpl. by rewrite insert_insert_eq.
  - intros a fs' [-> (e & -> & _)]. split; [by eexists|done].
Qed.

Lemma close_spec fs path : spec fs (Close path) (λ res fs', res = inl tt ∧ fs' = fs)
  (λ res fs', (∃ e, res = inr e) ∧ fs' = fs).
Proof.
  eapply spec_weaken; [apply spec_sys| |]; [by intros a fs' [-> ->]|].
  intros a fs' [-> (e & -> & _)]. split; [by eexists|done].
Qed.

Lemma writeViaRename_spec fs p c content mode : wf fs → node fs p = Some NDir → noTemp fs p → p ≠ [] → okName c →
  fs !! (p ++ [c]) ≠ Some NDir →
  spec fs (writeViaRename tmpName (abs p) (abs (p ++ [c])) content mode)
    (λ res fs', res = None ∧ fs' = withFile fs (p ++ [c]) content mode)
    (λ res fs', is_Some res ∧ fs' = fs).
Proof.
  intros Hwf Hp Hfree Hpne Hc Hnd. destruct (Htmp fs p) as [Hx Hn%Hfree]. unfold writeViaRename.
  assert (fs !! (p ++ [tmpName fs p]) ≠ Some NDir) as Hnt by (by rewrite Hn).
  assert (Join (abs p) (tmpName fs p) = abs (p ++ [tmpName fs p])) as Hjoin.
  { apply (Join_abs p [tmpName fs p]); [by apply ok_normal; eapply wf_node_names|done| |done].
    apply Forall_singleton. by destruct Hx. }
  eapply spec_bind; [apply spec_sys| |].
  2:{ intros a fs' [-> (e & -> & _)]. apply qspec_ret. split; [by eexists|done]. }
  intros a fs' [-> ->]. rewrite createTempF_dir by done. cbn [fst snd]. rewrite Hjoin.
  set (x := tmpName fs p) in *.
  assert (∀ m content' err, qspec (withFile fs (p ++ [x]) content' m) (abandon (abs (p ++ [x])) err)
    (λ res fs', is_Some res ∧ fs' = fs)) as Hab by (intros; by apply abandon_spec).
  change (<[p ++ [x] := NFile "" 384]> fs) with (withFile fs (p ++ [x]) "" 384).
  eapply spec_bind; [by apply update_spec| |].
  2:{ intros a fs' [[e ->] ->]. eapply qspec_bind; [eapply spec_quiet, close_spec|].
      intros a fs' [-> ->]. apply Hab. }
  intros a fs' [-> ->]. change (<[p ++ [x] := NFile content 384]> fs) with (withFile fs (p ++ [x]) content 384).
  eapply spec_bind; [apply close_spec| |].
  2:{ intros a fs' [[e ->] ->]. apply Hab. }
  intros a fs' [-> ->]. eapply spec_bind; [by apply update_spec| |].
  2:{ intros a fs' [[e ->] ->]. apply Hab. }
  intros a fs' [-> ->]. change (<[p ++ [x] := NFile content mode]> fs) with (withFile fs (p ++ [x]) content mode).
  eapply spec_bind; [apply spec_sys| |].
  2:{ intros a fs' [-> (e & -> & _)]. apply Hab. }
  intros a fs' [-> ->]. destruct (wf_withFile fs p x content mode Hwf Hp Hx Hnt) as [Hwf' Hp'].
  rewrite (renameF_file _ p x c (NFile content mode)); [|done|done|done|done|apply lookup_insert_eq|].
  - apply spec_ret. split; [done|]. unfold withFile. simpl. by rewrite delete_insert_id.
  - unfold withFile. destruct (decide (p ++ [x] = p ++ [c])) as [E|E];
      [rewrite E; by rewrite lookup_insert_eq|by rewrite lookup_insert_ne].
Qed.

(** * Undoing *)

(** Removing the last of a chain of new directories. *)
Lemma delete_mkchain t s y fs : fs !! (t ++ s ++ [y]) = None →
  delete (t ++ s ++ [y]) (mkchain t (s ++ [y]) fs) = mkchain t s fs.
Proof.
  intros Hn. apply map_eq. intros q. destruct (decide (q = t ++ s ++ [y])) as [->|Hne].
  - rewrite lookup_delete_eq, lookup_mkchain, decide_False; [done|].
    intros [_ [k Hk]]. apply (f_equal length) in Hk. rewrite !length_app in Hk. simpl in Hk. lia.
  - rewrite lookup_delete_ne by done. rewrite !lookup_mkchain. unfold onChain.
    apply decide_ext. split; intros [Ht [k Hk]]; (split; [done|]).
    + destruct k as [|z k _] using rev_ind; [rewrite app_nil_r in Hk; by destruct Hne|].
      rewrite !app_assoc in Hk. apply app_inj_tail in Hk as [Hk _]. by exists k.
    + exists (k ++ [y]). by rewrite (app_assoc t s [y]), Hk, <-app_assoc.
Qed.

Lemma chain_empty fs p x s z : wf fs → fs !! (p ++ [x]) = None →
  mkchain (p ++ [x]) s fs !! (((p ++ [x]) ++ s) ++ [z]) = None.
Proof.
  intros Hwf Hn. rewrite lookup_mkchain, decide_False.
  - rewrite <-(app_assoc (p ++ [x])). apply wf_below; [done|apply snoc_ne|done].
  - intros [_ [k Hk]]. apply (f_equal length) in Hk. rewrite !length_app in Hk. simpl in Hk. lia.
Qed.

(** Reading and removing the last directory of the chain. *)
Lemma remove_last_dir fs p x s : wf fs → node fs p = Some NDir → okName x → Forall okName s → fs !! (p ++ [x]) = None →
  let q := (p ++ [x]) ++ s in
  readDirF (abs q) (mkchain (p ++ [x]) s fs) = inl [] ∧
  removeF (abs q) (mkchain (p ++ [x]) s fs) = (inl tt, delete q (mkchain (p ++ [x]) s fs)).
Proof.
  intros Hwf Hp Hx Hs Hn q. destruct (mkchain_spec p x s fs Hwf Hp Hx Hs Hn) as [Hwf' Hq].
  replace (p ++ x :: s) with q in Hq by (by unfold q; rewrite <-app_assoc).
  assert (∀ z, mkchain (p ++ [x]) s fs !! (q ++ [z]) = None) as Hch by (intros z; by apply chain_empty).
  split; [rewrite readDirF_dir by done; by rewrite children_nil|].
  assert (∃ d c, q = d ++ [c]) as (d & c & Eq).
  { unfold q. destruct s as [|y s _] using rev_ind; [by exists p, x; rewrite app_nil_r|].
    exists ((p ++ [x]) ++ s), y. by rewrite app_assoc. }
  rewrite Eq in *. destruct (wf_parent _ Hwf' (d ++ [c]) NDir) as [_ Hd]; [by rewrite <-node_app|].
  rewrite removelast_last in Hd. rewrite node_app in Hq. apply removeF_empty; try done.
  - apply (wf_names _ Hwf') in Hq. apply Forall_app in Hq as [_ Hc]. by inversion Hc.
  - intros z. rewrite app_assoc. apply Hch.
Qed.

Lemma removeUp_chain fs p x s cd fuel : wf fs → node fs p = Some NDir → okName x → Forall okName s →
  fs !! (p ++ [x]) = None → length s < fuel →
  qspec (mkchain (p ++ [x]) s fs) (removeUp fuel cd (abs (p ++ [x])) (abs ((p ++ [x]) ++ s)))
    (λ res fs', res = None ∧ fs' = fs).
Proof.
  intros Hwf Hp Hx. assert (Forall okName (p ++ [x])) as Hpx.
  { apply Forall_app. split; [by eapply wf_node_names|by apply Forall_singleton]. }
  assert (∀ s, Forall okName s → isWithin (abs (p ++ [x])) (abs ((p ++ [x]) ++ s)) = true) as Hin.
  { intros s1 Hs1. apply isWithin_abs; [by apply ok_normal|apply snoc_ne| |by apply prefix_app_r].
    apply Forall_app. split; by apply ok_normal. }
  revert fuel. induction s as [|y s IH] using rev_ind; intros fuel Hs Hn Hf; (destruct fuel as [|fuel]; [lia|]); cbn [removeUp].
  all: rewrite Hin by done; cbn [negb].
  all: edestruct (remove_last_dir fs p x) as [Hrd Hrm]; [done|done|done|exact Hs|done|].
  all: eapply qspec_bind; [apply qspec_sys|]; intros a fs' [-> ->]; cbn [fst snd]; rewrite Hrd.
  all: eapply qspec_bind; [apply qspec_sys|]; intros a fs' [-> ->]; rewrite Hrm; cbn [fst snd].
  - rewrite app_nil_r, String.eqb_refl. apply qspec_ret. split; [done|]. simpl. by apply delete_insert_id.
  - rewrite (proj2 (String.eqb_neq _ _)).
    2:{ intros E. apply abs_inj in E; [|apply Forall_app; split; by apply ok_normal|by apply ok_normal].
        apply (f_equal length) in E. rewrite !length_app in E. simpl in E. lia. }
    rewrite length_app in Hf. simpl in Hf. apply Forall_app in Hs as [Hs Hy]. inversion Hy as [|? ? [Hy' _] _]; subst.
    replace ((p ++ [x]) ++ s ++ [y]) with (((p ++ [x]) ++ s) ++ [y]) by (by rewrite <-app_assoc).
    rewrite Dir_abs; [|apply Forall_app; split; by apply ok_normal|done].
    rewrite <-(app_assoc (p ++ [x])), delete_mkchain by (apply wf_below; [done|apply snoc_ne|done]).
    apply IH; [done|done|lia].
Qed.

Lemma removeCreatedDir_spec fs d top fs' : wf fs → node fs b = Some NDir → Forall okName d →
  newDirs fs d top fs' → top ≠ "" →
  qspec fs' (removeCreatedDir (abs b) (abs (b ++ d)) top) (λ res fs'', res = None ∧ fs'' = fs).
Proof.
  intros Hwf Hb Hok [(_ & -> & _)|(d1 & x & s & -> & Hd & Hn & -> & ->)] Htop; [done|].
  apply Forall_app in Hok as [Hd1 Hok]. inversion Hok as [|? ? Hx Hs]; subst.
  destruct (mkchain_spec (b ++ d1) x s fs Hwf Hd Hx Hs Hn) as [Hwf' Hnode].
  unfold removeCreatedDir. eapply qspec_bind; [apply qspec_sys|]. intros a fs' [-> ->]. cbn [fst snd].
  rewrite evalF_dir; [|done|].
  2:{ rewrite node_app, lookup_mkchain, decide_True; [done|]. split; [done|by apply prefix_app_r]. }
  rewrite <-(app_assoc b). rewrite isWithin_below by (apply Forall_app; split; [done|by apply Forall_singleton]).
  cbn [negb]. rewrite (app_assoc b d1 [x]).
  replace (b ++ d1 ++ x :: s) with (((b ++ d1) ++ [x]) ++ s) by (by rewrite <-!app_assoc).
  apply removeUp_chain; try done. unfold pathFuel. rewrite elems_ok; [rewrite !length_app; lia|].
  apply Forall_app. split; [|done]. apply Forall_app. split; [by apply Forall_app|by apply Forall_singleton].
Qed.
(** The same path, with another state of its last entry. *)
Lemma pathOK_leaf fs d c n : pathOK fs b (d ++ [c]) → (∀ t, n ≠ Some (NLink t)) →
  pathOK (match n with Some n => <[b ++ d ++ [c] := n]> fs | None => delete (b ++ d ++ [c]) fs end) b (d ++ [c]).
Proof.
  intros [Hp _] Hn. assert (∀ q, q ≠ d ++ [c] → b ++ d ++ [c] ≠ b ++ q) as Hne by (intros q Hq E; by simplify_list_eq).
  split.
  - intros q Hq Hqr Hqn. destruct n as [n|];
      [rewrite lookup_insert_ne by (by apply Hne)|rewrite lookup_delete_ne by (by apply Hne)]; by apply Hp.
  - intros t. destruct n as [n|]; [rewrite lookup_insert_eq|rewrite lookup_delete_eq; done]. intros [= ->]. by apply (Hn t).
Qed.

Lemma newDirs_leaf fs d c top fs' : newDirs fs d top fs' → fs' !! (b ++ d ++ [c]) = fs !! (b ++ d ++ [c]).
Proof.
  intros [(_ & _ & ->)|(d1 & x & s & -> & Hd & Hn & _ & ->)]; [done|].
  rewrite lookup_mkchain, decide_False; [done|]. intros [_ [k Hk]]. apply (f_equal length) in Hk.
  rewrite !length_app in Hk. simpl in Hk. lia.
Qed.

Lemma newDirs_path fs d c top fs' : pathOK fs b (d ++ [c]) → newDirs fs d top fs' →
  pathOK fs' b (d ++ [c]) ∧ fs' !! (b ++ d ++ [c]) = fs !! (b ++ d ++ [c]).
Proof.
  intros Hp Hnew. pose proof (newDirs_leaf fs d c top fs' Hnew) as E. revert Hp Hnew.
  intros Hp [(_ & _ & ->)|(d1 & x & s & -> & Hd & Hn & _ & ->)]; [done|].
  split; [|done]. destruct Hp as [Hp Hl]. split; [|by rewrite E].
  intros q Hq Hqr Hqn. rewrite lookup_mkchain. case_decide; [by right|by apply Hp].
Qed.

(** The entry of a file that did not exist: whatever of it has been done is
    undone. *)
Lemma undo_absent fs fs0 fs1 d c e : wf fs → node fs b = Some NDir → Forall okName (d ++ [c]) →
  pathOK fs b (d ++ [c]) → fs !! (b ++ d ++ [c]) = None →
  lexical (je_Path e) (d ++ [c]) → je_ExistedBefore e = false →
  (newDirs fs d (je_CreatedDir e) fs0 ∨ je_CreatedDir e = "" ∧ fs0 = fs) →
  (fs1 = fs0 ∨ newDirs fs d (je_CreatedDir e) fs0 ∧ ∃ content mode, fs1 = withFile fs0 (b ++ d ++ [c]) content mode) →
  qspec fs1 (rollbackEntry tmpName (abs b) e) (λ res fs', res = None ∧ fs' = fs).
Proof.
  intros Hwf Hb Hok Hp Hn Hlex Hex Hnew Hfs1. assert (Forall okName d) as Hd by (by apply Forall_app in Hok as [? _]).
  assert (okName c) as Hc by (apply Forall_app in Hok as [_ Hc]; by inversion Hc).
  assert (wf fs0 ∧ node fs0 b = Some NDir ∧ pathOK fs0 b (d ++ [c]) ∧ fs0 !! (b ++ d ++ [c]) = None) as (Hwf0 & Hb0 & Hp0 & Hn0).
  { destruct Hnew as [Hnew|[_ ->]]; [|done]. destruct (newDirs_wf fs d _ fs0 Hwf Hd Hnew) as [Hwf0 Hd0].
    destruct (newDirs_path fs d c _ fs0 Hp Hnew) as [Hp0 E]. rewrite E. split_and!; try done.
    destruct (decide (d = [])) as [->|Hdn]; [by rewrite app_nil_r in Hd0|]. by eapply wf_node_above. }
  assert (wf fs1 ∧ node fs1 b = Some NDir ∧ pathOK fs1 b (d ++ [c])) as (Hwf1 & Hb1 & Hp1).
  { destruct Hfs1 as [->|[Hnd (content & mode & ->)]]; [done|].
    destruct (newDirs_wf fs d _ fs0 Hwf Hd Hnd) as [_ Hd0].
    destruct (wf_withFile fs0 (b ++ d) c content mode Hwf0 Hd0 Hc) as [Hwf1 Hd1].
    { rewrite <-(app_assoc b d [c]), Hn0. done. }
    rewrite <-(app_assoc b d [c]) in *. split_and!; [done| |].
    - destruct (decide (d = [])) as [->|Hdn]; [by rewrite app_nil_r in Hd1|]. by eapply wf_node_above.
    - by apply (pathOK_leaf fs0 d c (Some (NFile content mode))). }
  unfold rollbackEntry. eapply qspec_bind; [eapply spec_quiet, (resolved_below fs1 _ (d ++ [c])); done|].
  intros a fs' [-> ->]. eapply qspec_bind with (post1 := λ res fs', res = None ∧ fs' = fs).
  2:{ intros a fs' [-> ->]. by apply qspec_ret. }
  unfold restoreEntry. rewrite Hex. cbn [negb]. rewrite Dir_below by done.
  assert (qspec fs0 (if negb (String.eqb (je_CreatedDir e) "") then removeCreatedDir (abs b) (abs (b ++ d)) (je_CreatedDir e)
    else mret None) (λ res fs', res = None ∧ fs' = fs)) as Hrest.
  { destruct (String.eqb_spec (je_CreatedDir e) "") as [E|E]; simpl.
    - apply qspec_ret. split; [done|]. destruct Hnew as [[(_ & _ & ->)|(d1 & x & s & _ & _ & _ & E' & _)]|[_ ->]]; try done.
      rewrite E in E'. done.
    - destruct Hnew as [Hnew|[? _]]; [|done]. by apply removeCreatedDir_spec. }
  eapply qspec_bind; [apply qspec_sys|]. intros a fs' [-> ->].
  destruct Hfs1 as [->|[Hnd (content & mode & ->)]].
  - rewrite remove_below_missing by done. simpl. apply Hrest.
  - rewrite (remove_below_file _ b d c Hwf1 Hb1 Hok Hp1 content mode) by apply lookup_insert_eq. cbn [fst snd].
    unfold withFile. rewrite delete_insert_id by done. apply Hrest.
Qed.

(** The entry of a file that existed: its content and permissions are put
    back. *)
Lemma undo_existed fs fs1 d c e content mode : wf fs1 → node fs1 b = Some NDir → Forall okName (d ++ [c]) →
  pathOK fs1 b (d ++ [c]) → node fs1 (b ++ d) = Some NDir → noTemp fs1 (b ++ d) → fs1 !! (b ++ d ++ [c]) ≠ Some NDir →
  withFile fs1 (b ++ d ++ [c]) content mode = fs → mode ≠ 0%Z →
  lexical (je_Path e) (d ++ [c]) → je_ExistedBefore e = true → je_OriginalContent e = Some content →
  je_OriginalMode e = mode →
  qspec fs1 (rollbackEntry tmpName (abs b) e) (λ res fs', res = None ∧ fs' = fs).
Proof.
  intros Hwf Hb Hok Hp Hd Hfree Hnd Hfs Hm Hlex Hex Hcont Hmode.
  assert (okName c) as Hc by (apply Forall_app in Hok as [_ Hc]; by inversion Hc).
  unfold rollbackEntry. eapply qspec_bind; [eapply spec_quiet, (resolved_below fs1 _ (d ++ [c])); done|].
  intros a fs' [-> ->]. eapply qspec_bind with (post1 := λ res fs', res = None ∧ fs' = fs).
  2:{ intros a fs' [-> ->]. by apply qspec_ret. }
  unfold restoreEntry. rewrite Hex, Hcont, Hmode. cbn [negb]. apply Z.eqb_neq in Hm. rewrite Hm, Dir_below by done.
  eapply qspec_bind; [eapply spec_quiet, (ensureDir_spec fs1 d c); done|].
  intros a fs' (top & -> & Hnew). destruct Hnew as [(_ & -> & ->)|(d1 & x & s & -> & _ & Hn & _)].
  - rewrite (app_assoc b d [c]) in *. eapply qspec_weaken; [eapply spec_quiet, writeViaRename_spec; try done; by destruct b|].
    intros a fs' [-> ->]. done.
  - exfalso. destruct (decide (s = [])) as [->|Hs].
    + rewrite (app_assoc b d1 [x]), node_app in Hd. congruence.
    + rewrite node_ne in Hd by (by destruct b). 
      assert (fs1 !! (((b ++ d1) ++ [x]) ++ s) = None) as Hbelow by (apply wf_below; [done|apply snoc_ne|done]).
      rewrite <-!app_assoc in Hbelow. simpl in Hbelow. congruence.
Qed.

(** * One change *)

(** The names below the target directory a change is about. *)
Definition rel (c : FileChange) : list string := elems (Clean (fc_Path c)).

(** What the journal must say of a path. *)
Definition recorded (n : option Node) (e : JournalEntry) : Prop :=
  match n with
  | None => je_ExistedBefore e = false ∧ je_OriginalContent e = None
  | Some (NFile content mode) =>
      je_ExistedBefore e = true ∧ je_OriginalContent e = Some content ∧ je_OriginalMode e = mode ∧ mode ≠ 0%Z
  | Some _ => False
  end.

Record ready (fs : FS) (c : FileChange) (e : JournalEntry) : Prop := {
  rd_lex : lexical (fc_Path c) (rel c); rd_ok : Forall okName (rel c); rd_path : pathOK fs b (rel c);
  rd_tidy : Forall (λ x, HasPrefix x tmpPrefix = false) (rel c); rd_free : noTemp fs (b ++ removelast (rel c));
  rd_name : je_Path e = fc_Path c; rd_dir : je_CreatedDir e = ""; rd_rec : recorded (fs !! (b ++ rel c)) e }.

Definition newMode (n : option Node) : Z := match n with Some (NFile _ mode) => mode | _ => defaultNewFileMode end.

(** The effect of a change. *)
Definition changed (fs : FS) (c : FileChange) (fs' : FS) : Prop :=
  if fc_Delete c then fs' = delete (b ++ rel c) fs
  else ∃ top fs1, newDirs fs (removelast (rel c)) top fs1 ∧
    fs' = withFile fs1 (b ++ rel c) (fc_NewContent c) (newMode (fs !! (b ++ rel c))).

Lemma rel_snoc c : lexical (fc_Path c) (rel c) → ∃ d x, rel c = d ++ [x] ∧ removelast (rel c) = d.
Proof.
  intros (_ & _ & Hne & _). destruct (rel c) as [|x d _] using rev_ind; [done|].
  exists d, x. by rewrite removelast_last.
Qed.

(** The directories that lead to a location. *)
Definition above (r : list string) (q : Loc) : Prop := b `prefix_of` q ∧ q ≠ b ∧ q `prefix_of` b ++ r ∧ q ≠ b ++ r.
#[export] Instance above_dec r q : Decision (above r q).
Proof. unfold above. apply _. Defined.
Lemma newDirs_lookup fs d top fs1 q : wf fs → Forall okName d → newDirs fs d top fs1 →
  fs1 !! q = if decide (b `prefix_of` q ∧ q ≠ b ∧ q `prefix_of` b ++ d) then Some NDir else fs !! q.
Proof.
  intros Hwf Hok Hnew.
  assert (∀ d1 s, node fs (b ++ d1) = Some NDir → q `prefix_of` b ++ d1 → b `prefix_of` q → q ≠ b →
    d = d1 ++ s → fs !! q = Some NDir) as Hdir.
  { intros d1 s Hn [k Hk] [k' ->] Hne _. rewrite Hk in Hn.
    assert (b ++ k' ≠ []) as Hne' by (by destruct b). rewrite <-node_ne by done.
    destruct (decide (k = [])) as [->|Hkn]; [by rewrite app_nil_r in Hn|by eapply wf_node_above]. }
  destruct Hnew as [(Hn & _ & ->)|(d1 & x & s & -> & Hn & Hx & _ & ->)].
  - case_decide as H; [|done]. destruct H as (H1 & H2 & H3). eapply (Hdir d []); try done. by rewrite app_nil_r.
  - rewrite lookup_mkchain. assert ((b ++ d1 ++ x :: s) = ((b ++ d1) ++ [x]) ++ s) as El by (by rewrite <-!app_assoc).
    case_decide as H1; case_decide as H2; try done.
    + destruct H2. destruct H1 as [[k ->] H1]. rewrite El. split_and!; [|intros E|done].
      * exists (d1 ++ [x] ++ k). by rewrite <-!app_assoc.
      * apply (f_equal length) in E. rewrite !length_app in E. simpl in E. lia.
    + destruct H2 as (H2 & H3 & H4). rewrite El in H4. apply (Hdir d1 (x :: s)); try done.
      destruct (prefix_weak_total q ((b ++ d1) ++ [x]) _ H4 ltac:(by apply prefix_app_r)) as [[k Hk]|Hge].
      * destruct k as [|y k _] using rev_ind; [exfalso; apply H1; rewrite app_nil_r in Hk; subst q; split; [done|by apply prefix_app_r]|].
        rewrite app_assoc in Hk. apply app_inj_tail in Hk as [-> _]. by apply prefix_app_r.
      * by destruct H1.
Qed.

Lemma applyWrite_spec fs d x content mode : wf fs → node fs b = Some NDir → Forall okName (d ++ [x]) →
  pathOK fs b (d ++ [x]) → noTemp fs (b ++ d) → fs !! (b ++ d ++ [x]) ≠ Some NDir →
  spec fs (applyWrite tmpName (abs (b ++ d ++ [x])) content mode)
    (λ res fs', ∃ top fs1, res = (top, None) ∧ newDirs fs d top fs1 ∧ fs' = withFile fs1 (b ++ d ++ [x]) content mode)
    (λ res fs', ∃ top err, res = (top, Some err) ∧ (newDirs fs d top fs' ∨ top = "" ∧ leftDirs fs d fs')).
Proof.
  intros Hwf Hb Hok Hp Hfree Hnd. unfold applyWrite. rewrite Dir_below by done.
  assert (Forall okName d ∧ okName x) as [Hd Hx].
  { apply Forall_app in Hok as [? H]. by inversion H. }
  refine (spec_bind _ _ _ _ _ _ _ (ensureDir_spec fs d x Hwf Hb Hok Hp) _ _).
  2:{ intros a fs' [[e ->] Hl]. apply qspec_ret. exists "", e. auto. }
  intros a fs1 (top & -> & Hnew). destruct (newDirs_wf fs d top fs1 Hwf Hd Hnew) as [Hwf1 Hd1].
  assert (noTemp fs1 (b ++ d)) as Hfree1.
  { intros y Hy. rewrite <-app_assoc, (newDirs_leaf fs d y top fs1 Hnew), app_assoc. by apply Hfree. }
  pose proof (newDirs_leaf fs d x top fs1 Hnew) as E. rewrite (app_assoc b d [x]) in *.
  eapply spec_bind; [apply writeViaRename_spec; try done; [by destruct b|by rewrite E]| |].
  - intros a fs' [-> ->]. apply spec_ret. by exists top, fs1.
  - intros a fs' [[err ->] ->]. apply qspec_ret. exists top, err. auto.
Qed.

(** The two ways an entry is undone, from what it records. *)
Lemma undo_delete fs c e : wf fs → node fs b = Some NDir → ready fs c e →
  qspec (delete (b ++ rel c) fs) (rollbackEntry tmpName (abs b) e) (λ res fs', res = None ∧ fs' = fs).
Proof.
  intros Hwf Hb [Hlex Hok Hp Htidy Hfree Hname Hdir Hrec]. destruct (rel_snoc c Hlex) as (d & x & E & Er). rewrite Er in Hfree.
  rewrite <-Hname in Hlex. rewrite E in *. destruct (fs !! (b ++ d ++ [x])) as [[content mode| |]|] eqn:Hn; simpl in Hrec; try done.
  - destruct Hrec as (H1 & H2 & H3 & H4).
    assert (node fs (b ++ d) = Some NDir) as Hd by (eapply parent_dir; [done..|]; by rewrite Hn).
    assert (wf (delete (b ++ d ++ [x]) fs)) as Hwf'.
    { apply wf_delete; [done|]. intros y. destruct (fs !! ((b ++ d ++ [x]) ++ [y])) as [n|] eqn:Hy; [|done].
      apply wf_above in Hy; [|done..]. rewrite node_ne, Hn in Hy; [done|by destruct b]. }
    assert (∀ q, q ≠ d ++ [x] → node (delete (b ++ d ++ [x]) fs) (b ++ q) = node fs (b ++ q)) as Hq.
    { intros q Hq. rewrite !node_ne by (by destruct b). apply lookup_delete_ne. intros Eq. by simplify_list_eq. }
    eapply (undo_existed fs _ d x e content mode); try done.
    + pose proof (Hq [] ltac:(intros Eq; by destruct d)) as Hbb. rewrite app_nil_r in Hbb. congruence.
    + by apply (pathOK_leaf fs d x None).
    + rewrite Hq; [done|]. intros Eq. apply (f_equal length) in Eq. rewrite length_app in Eq. simpl in Eq. lia.
    + by apply noTemp_delete.
    + by rewrite lookup_delete_eq.
    + unfold withFile. by rewrite insert_delete_eq, insert_id.
  - destruct Hrec as [Hrec _]. rewrite delete_id by done. eapply (undo_absent fs fs fs d x e); try done; [by right|by left].
Qed.

Lemma undo_write fs fs1 fs2 c e top : wf fs → node fs b = Some NDir → ready fs c e →
  newDirs fs (removelast (rel c)) top fs1 ∨ top = "" ∧ fs1 = fs →
  fs2 = fs1 ∨ newDirs fs (removelast (rel c)) top fs1 ∧ (∃ content mode, fs2 = withFile fs1 (b ++ rel c) content mode) →
  ∀ o, qspec fs2 (rollbackEntry tmpName (abs b) (set_createdDir top (set_outcome o e))) (λ res fs', res = None ∧ fs' = fs).
Proof.
  intros Hwf Hb [Hlex Hok Hp Htidy Hfree Hname Hdir Hrec] Hnew H2 o. destruct (rel_snoc c Hlex) as (d & x & E & Er). rewrite Er in *.
  rewrite <-Hname in Hlex. rewrite E in *. destruct (fs !! (b ++ d ++ [x])) as [[content mode| |]|] eqn:Hn; simpl in Hrec; try done.
  - destruct Hrec as (H1 & H3 & H4 & H5).
    assert (node fs (b ++ d) = Some NDir) as Hd by (eapply parent_dir; [done..|]; by rewrite Hn).
    assert (okName x) as Hx by (apply Forall_app in Hok as [_ H]; by inversion H).
    assert (fs1 = fs) as ->.
    { destruct Hnew as [[(_ & _ & ->)|(d1 & y & s & -> & _ & Hny & _)]|[_ ->]]; try done. exfalso.
      pose proof (wf_below fs _ s Hwf (snoc_ne _ _) Hny) as Hbelow.
      rewrite node_ne in Hd by (by destruct b). rewrite <-!app_assoc in *. simpl in *. congruence. }
    assert (wf fs2 ∧ node fs2 (b ++ d) = Some NDir ∧ pathOK fs2 b (d ++ [x]) ∧ noTemp fs2 (b ++ d) ∧ fs2 !! (b ++ d ++ [x]) ≠ Some NDir ∧
      withFile fs2 (b ++ d ++ [x]) content mode = fs) as (Hwf2 & Hd2 & Hp2 & Hf2 & Hn2 & Ew).
    { destruct H2 as [->|[_ (content' & mode' & ->)]].
      - split_and!; try done; [by rewrite Hn|by apply insert_id].
      - destruct (wf_withFile fs (b ++ d) x content' mode' Hwf Hd Hx) as [Hw1 Hw2]; [rewrite <-app_assoc; congruence|].
        rewrite <-(app_assoc b d [x]) in *. split_and!; try done.
        + by apply (pathOK_leaf fs d x (Some (NFile content' mode'))).
        + unfold withFile. rewrite (app_assoc b d [x]). apply noTemp_withFile; [done|]. apply Forall_app in Htidy as [_ Ht]. by inversion Ht.
        + unfold withFile. by rewrite lookup_insert_eq.
        + unfold withFile. by rewrite insert_insert_eq, insert_id. }
    eapply (undo_existed fs fs2 d x _ content mode); try done.
    destruct (decide (d = [])) as [->|Hdn]; [by rewrite app_nil_r in Hd2|by eapply wf_node_above].
  - destruct Hrec as [Hrec _]. by eapply (undo_absent fs fs1 fs2 d x).
Qed.
Lemma changed_inv fs c e fs' : wf fs → node fs b = Some NDir → ready fs c e → changed fs c fs' →
  wf fs' ∧ node fs' b = Some NDir.
Proof.
  intros Hwf Hb [Hlex Hok Hp _ _ _ _ Hrec] Hch. destruct (rel_snoc c Hlex) as (d & x & E & Er).
  unfold changed in Hch. rewrite Er, E in *.
  assert (Forall okName d ∧ okName x) as [Hd Hx]. { apply Forall_app in Hok as [? H]. by inversion H. }
  assert (fs !! (b ++ d ++ [x]) ≠ Some NDir) as Hnd. { intros En. by rewrite En in Hrec. }
  destruct (fc_Delete c).
  - subst fs'. split.
    + apply wf_delete; [done|]. intros y. destruct (fs !! ((b ++ d ++ [x]) ++ [y])) as [n|] eqn:Hy; [|done].
      apply wf_above in Hy; [|done..]. rewrite node_ne in Hy; [done|by destruct b].
    + rewrite node_ne in * by done. rewrite lookup_delete_ne; [done|]. intros Eb. apply (f_equal length) in Eb.
      rewrite !length_app in Eb. simpl in Eb. lia.
  - destruct Hch as (top & fs1 & Hnew & ->). destruct (newDirs_wf fs d top fs1 Hwf Hd Hnew) as [Hwf1 Hd1].
    destruct (newDirs_path fs d x top fs1 Hp Hnew) as [_ En]. rewrite (app_assoc b d [x]) in *.
    edestruct (wf_withFile fs1 (b ++ d) x) as [Hw1 Hw2]; [done|done|done|by rewrite En|]. split; [exact Hw1|].
    destruct (decide (d = [])) as [->|Hdn]; [by rewrite app_nil_r in *|by eapply wf_node_above].
Qed.

(** * Directories left behind

    An [os.MkdirAll] that fails half way leaves directories that nothing in the
    journal tells of.  Undoing the changes before it then starts from a state
    with these directories, and keeps them and the ones above them. *)

Section leftover.
Context (cs : list FileChange) (Hnest : ∀ c1 c2, c1 ∈ cs → c2 ∈ cs → rel c1 `prefix_of` rel c2 → rel c1 = rel c2).
Context (Htidy : Forall (λ c, Forall (λ x, HasPrefix x tmpPrefix = false) (rel c)) cs).

(** [q] is a directory on the way to a file that the batch writes. *)
Definition onTheWay (q : Loc) : Prop := Exists (λ c, fc_Delete c = false ∧ above (rel c) q) cs.
(** [F] is [fs] with new directories on the way to files of the batch. *)
Definition leftover (fs F : FS) : Prop := ∀ q,
  F !! q = fs !! q ∨ (fs !! q = None ∧ F !! q = Some NDir ∧ onTheWay q).

Lemma leftover_refl fs : leftover fs fs.
Proof. intros q. by left. Qed.
Lemma leftover_trans fs1 fs2 fs3 : leftover fs1 fs2 → leftover fs2 fs3 → leftover fs1 fs3.
Proof.
  intros H1 H2 q. destruct (H1 q) as [E1|(E1 & E2 & Hq)], (H2 q) as [E3|(E3 & E4 & Hq')]; rewrite ?E3, ?E4, ?E1, ?E2; auto.
  right. by rewrite <-E1.
Qed.

Lemma below_prefix r1 r2 : b ++ r1 `prefix_of` b ++ r2 → r1 `prefix_of` r2.
Proof. intros [k Hk]. exists k. rewrite <-app_assoc in Hk. by simplify_list_eq. Qed.

(** The files of the batch are not among them. *)
Lemma leaf_not_left c : c ∈ cs → ¬ onTheWay (b ++ rel c).
Proof.
  intros Hc H. apply Exists_exists in H as (c' & Hc' & _ & _ & _ & Hp & Hne). apply Hne. f_equal. apply Hnest; [done..|]. by apply below_prefix.
Qed.
Lemma leftover_leaf fs F c : c ∈ cs → leftover fs F → F !! (b ++ rel c) = fs !! (b ++ rel c).
Proof. intros Hc H. destruct (H (b ++ rel c)) as [?|(_ & _ & Hw)]; [done|]. by destruct (leaf_not_left c). Qed.

Lemma leftover_dir fs F p : leftover fs F → node fs p = Some NDir → node F p = Some NDir.
Proof. intros H. destruct p as [|x p]; [done|]. simpl. intros E. destruct (H (x :: p)) as [->|(E' & _)]; [done|congruence]. Qed.
Lemma leftover_path fs F c : c ∈ cs → leftover fs F → pathOK fs b (rel c) → pathOK F b (rel c).
Proof.
  intros Hc H [Hp Hl]. split; [|by rewrite (leftover_leaf fs F c)].
  intros q Hq Hne Hq0. destruct (H (b ++ q)) as [->|(_ & -> & _)]; [by apply Hp|by right].
Qed.
Lemma leftover_noTemp fs F d : leftover fs F → noTemp fs (b ++ d) → noTemp F (b ++ d).
Proof.
  intros H Hn x Hx. destruct (H ((b ++ d) ++ [x])) as [->|(_ & _ & Hw)]; [by apply Hn|]. exfalso.
  apply Exists_exists in Hw as (c & Hc & _ & _ & _ & Hp & _). rewrite <-app_assoc in Hp. apply below_prefix in Hp as [k Hk].
  rewrite Forall_forall in Htidy. specialize (Htidy c Hc). rewrite Hk in Htidy. apply Forall_app in Htidy as [Ht _].
  apply Forall_app in Ht as [_ Ht]. inversion Ht. congruence.
Qed.
Lemma leftover_withFile fs F q content mode : leftover fs F → leftover (withFile fs q content mode) (withFile F q content mode).
Proof.
  intros H q'. unfold withFile. destruct (decide (q = q')) as [->|Hne]; [left; by rewrite !lookup_insert_eq|].
  rewrite !lookup_insert_ne by done. apply H.
Qed.
Lemma leftover_delete fs F q : leftover fs F → leftover (delete q fs) (delete q F).
Proof.
  intros H q'. destruct (decide (q = q')) as [->|Hne]; [left; by rewrite !lookup_delete_eq|].
  rewrite !lookup_delete_ne by done. apply H.
Qed.

Lemma chain_left fs c d1 x s1 s2 : c ∈ cs → fc_Delete c = false → wf fs → removelast (rel c) = d1 ++ x :: s1 ++ s2 → rel c ≠ [] →
  fs !! ((b ++ d1) ++ [x]) = None → leftover fs (mkchain ((b ++ d1) ++ [x]) s1 fs).
Proof.
  intros Hc Hd Hwf E Hne Hn q. rewrite lookup_mkchain. case_decide as H; [|by left]. destruct H as [[k ->] H]. right. split_and!; [|done|].
  - apply wf_below; [done|apply snoc_ne|done].
  - apply Exists_exists. exists c. split; [done|]. split; [done|].
    destruct (rel c) as [|z r _] using rev_ind; [done|]. rewrite removelast_last in E. subst r.
    apply prefix_app_inv in H. split_and!.
    + exists (d1 ++ [x] ++ k). by rewrite <-!app_assoc.
    + intros Eq. apply (f_equal length) in Eq. rewrite !length_app in Eq. simpl in Eq. lia.
    + destruct H as [m ->]. exists (m ++ s2 ++ [z]). rewrite <-!app_assoc. simpl. by rewrite <-!app_assoc.
    + intros Eq. destruct H as [m ->]. apply (f_equal length) in Eq. rewrite !length_app in Eq. simpl in Eq. rewrite !length_app in Eq. simpl in Eq. lia.
Qed.
Lemma leftDirs_left fs c fs' : c ∈ cs → fc_Delete c = false → wf fs → rel c ≠ [] → Forall okName (rel c) → leftDirs fs (removelast (rel c)) fs' →
  leftover fs fs' ∧ wf fs'.
Proof.
  intros Hc Hd Hwf Hne Hok [->|(d1 & x & s1 & y & s2 & E & Hn & Hx & ->)]; [split; [apply leftover_refl|done]|].
  split; [by eapply (chain_left fs c d1 x s1 (y :: s2))|].
  assert (Forall okName (d1 ++ x :: s1 ++ y :: s2)) as Hok'.
  { rewrite <-E. destruct (rel c) as [|z r _] using rev_ind; [done|]. rewrite removelast_last. by apply Forall_app in Hok as [? _]. }
  apply Forall_app in Hok' as [_ Hok']. inversion Hok' as [|? ? Hox Hos]; subst. apply Forall_app in Hos as [Hos _].
  by apply mkchain_spec.
Qed.
Lemma newDirs_left fs c top fs' : c ∈ cs → fc_Delete c = false → wf fs → rel c ≠ [] → newDirs fs (removelast (rel c)) top fs' → leftover fs fs'.
Proof.
  intros Hc Hd Hwf Hne [(_ & _ & ->)|(d1 & x & s & E & _ & Hx & _ & ->)]; [apply leftover_refl|].
  eapply (chain_left fs c d1 x s []); try done. by rewrite app_nil_r.
Qed.

Lemma remove_dir_left fs F q : wf F → leftover fs F → q ≠ [] → fs !! q = None → F !! q = Some NDir →
  (∃ ch chs, readDirF (abs q) F = inl (ch :: chs)) ∨
  (readDirF (abs q) F = inl [] ∧ removeF (abs q) F = (inl tt, delete q F) ∧ wf (delete q F) ∧ leftover fs (delete q F)).
Proof.
  intros Hwf Hl Hq Hfs HF. rewrite readDirF_dir by (done || by rewrite node_ne).
  destruct (children F q) as [|ch chs] eqn:Ech; [right|left; by eexists _, _].
  assert (∀ z, F !! (q ++ [z]) = None) as Hemp.
  { intros z. destruct (F !! (q ++ [z])) as [n|] eqn:En; [|done]. assert ((q ++ [z]) ∈ children F q) as Hin.
    { apply elem_of_children. split_and!; [by eexists|apply snoc_ne|by rewrite removelast_last]. }
    rewrite Ech in Hin. by apply elem_of_nil in Hin. }
  split_and!; [done| |by apply wf_delete|].
  - destruct q as [|c d _] using rev_ind; [done|]. destruct (wf_parent F Hwf _ _ HF) as [_ Hd]. rewrite removelast_last in Hd.
    apply removeF_empty; [done|done| |done|intros z; rewrite app_assoc; apply Hemp].
    pose proof (wf_names F Hwf _ _ HF) as Hok. apply Forall_app in Hok as [_ Hok]. by inversion Hok.
  - intros q'. destruct (decide (q = q')) as [<-|Hne]; [left; by rewrite lookup_delete_eq, Hfs|]. rewrite lookup_delete_ne by done. apply Hl.
Qed.

(** Removing directories from the last of a chain upwards stops at the first that
    holds something. *)
Lemma removeUp_left fs p x s cd fuel : Forall okName (p ++ [x]) → Forall okName s → length s < fuel → ∀ F,
  wf F → leftover fs F → (∀ s', s' `prefix_of` s → fs !! ((p ++ [x]) ++ s') = None ∧ F !! ((p ++ [x]) ++ s') = Some NDir) →
  qspec F (removeUp fuel cd (abs (p ++ [x])) (abs ((p ++ [x]) ++ s))) (λ res F', res = None ∧ wf F' ∧ leftover fs F').
Proof.
  intros Hpx. revert fuel. induction s as [|y s IH] using rev_ind; intros fuel Hs Hf F Hwf Hl Hch; (destruct fuel as [|fuel]; [lia|]); cbn [removeUp].
  - destruct (Hch []) as [Hfs HF]; [done|]. rewrite app_nil_r in *.
    assert (isWithin (abs (p ++ [x])) (abs (p ++ [x])) = true) as ->
      by (apply isWithin_abs; [by apply ok_normal|apply snoc_ne|by apply ok_normal|done]). cbn [negb].
    eapply qspec_bind; [apply qspec_sys|]. intros a fs' [-> ->]. cbn [fst snd].
    destruct (remove_dir_left fs F (p ++ [x])) as [(ch & chs & ->)|(-> & Hrm & Hwf' & Hl')]; [done|done|apply snoc_ne|done|done|by apply qspec_ret|].
    eapply qspec_bind; [apply qspec_sys|]. intros a fs' [-> ->]. rewrite Hrm, String.eqb_refl. by apply qspec_ret.
  - destruct (Hch (s ++ [y])) as [Hfs HF]; [done|]. rewrite length_app in Hf. simpl in Hf.
    apply Forall_app in Hs as [Hs Hy]. inversion Hy as [|? ? [Hy' _] _]; subst.
    assert (Forall normal ((p ++ [x]) ++ s ++ [y])) as Hnorm.
    { apply Forall_app. split; [by apply ok_normal|]. apply Forall_app. split; [by apply ok_normal|by apply Forall_singleton]. }
    assert (isWithin (abs (p ++ [x])) (abs ((p ++ [x]) ++ s ++ [y])) = true) as ->
      by (apply isWithin_abs; [by apply ok_normal|apply snoc_ne|done|by apply prefix_app_r]). cbn [negb].
    eapply qspec_bind; [apply qspec_sys|]. intros a fs' [-> ->]. cbn [fst snd].
    destruct (remove_dir_left fs F ((p ++ [x]) ++ s ++ [y])) as [(ch & chs & ->)|(-> & Hrm & Hwf' & Hl')];
      [done|done|by destruct p|done|done|by apply qspec_ret|].
    eapply qspec_bind; [apply qspec_sys|]. intros a fs' [-> ->]. rewrite Hrm. cbn [fst snd]. rewrite (proj2 (String.eqb_neq _ _)).
    2:{ intros E. apply abs_inj in E; [|done|by apply ok_normal]. apply (f_equal length) in E. rewrite !length_app in E. simpl in E. lia. }
    rewrite (app_assoc (p ++ [x]) s [y]) in *. rewrite Dir_abs; [|by apply Forall_app in Hnorm as [? _]|done].
    apply IH; [done|lia|done|done|]. intros s' Hs'. destruct (Hch s') as [H1 H2]; [by apply prefix_app_r|]. split; [done|].
    rewrite lookup_delete_ne; [done|]. intros E. destruct Hs' as [k ->]. apply (f_equal length) in E. rewrite !length_app in E. simpl in E. lia.
Qed.

Lemma removeCreatedDir_left fs c top fs1 F : wf fs → node fs b = Some NDir → c ∈ cs → fc_Delete c = false → rel c ≠ [] → Forall okName (rel c) →
  newDirs fs (removelast (rel c)) top fs1 → top ≠ "" → wf F → leftover fs1 F →
  qspec F (removeCreatedDir (abs b) (abs (b ++ removelast (rel c))) top) (λ res F', res = None ∧ wf F' ∧ leftover fs F').
Proof.
  intros Hwf Hb Hc Hd Hne Hokc Hnew Htop HwfF HlF. pose proof (newDirs_left fs c top fs1 Hc Hd Hwf Hne Hnew) as Hl1.
  assert (Forall okName (removelast (rel c))) as Hok.
  { destruct (rel c) as [|z r _] using rev_ind; [done|]. rewrite removelast_last. by apply Forall_app in Hokc as [? _]. }
  pose proof (leftover_trans _ _ _ Hl1 HlF) as Hl. destruct Hnew as [(_ & -> & _)|(d1 & x & s & E & Hn & Hx & -> & ->)]; [done|].
  rewrite E in *. apply Forall_app in Hok as [Hd1 Hok]. inversion Hok as [|? ? Hox Hos]; subst.
  assert (∀ s', s' `prefix_of` s → fs !! (((b ++ d1) ++ [x]) ++ s') = None ∧ F !! (((b ++ d1) ++ [x]) ++ s') = Some NDir) as Hch.
  { intros s' Hs'. assert (mkchain ((b ++ d1) ++ [x]) s fs !! (((b ++ d1) ++ [x]) ++ s') = Some NDir) as Hc1.
    { rewrite lookup_mkchain, decide_True; [done|]. split; [by apply prefix_app_r|by apply prefix_app]. }
    split; [apply wf_below; [done|apply snoc_ne|done]|]. destruct (HlF (((b ++ d1) ++ [x]) ++ s')) as [->|(H0 & _)]; [done|congruence]. }
  assert (Forall okName ((b ++ d1) ++ [x])) as Hokx by (apply Forall_app; split; [by apply Forall_app|by apply Forall_singleton]).
  unfold removeCreatedDir. eapply qspec_bind; [apply qspec_sys|]. intros a fs' [-> ->]. cbn [fst snd].
  destruct (Hch []) as [_ HF]; [apply prefix_nil|]. rewrite app_nil_r in HF.
  rewrite evalF_dir; [|done|by rewrite node_app].
  rewrite <-(app_assoc b). rewrite isWithin_below by (apply Forall_app; split; [done|by apply Forall_singleton]).
  cbn [negb]. rewrite (app_assoc b d1 [x]).
  replace (b ++ d1 ++ x :: s) with (((b ++ d1) ++ [x]) ++ s) by (by rewrite <-!app_assoc).
  apply removeUp_left; try done. unfold pathFuel. rewrite elems_ok; [rewrite !length_app; lia|]. by apply Forall_app.
Qed.

(** The entry [e] undoes a change that led from [fs] to [fs'], with directories
    left behind too. *)
Definition tolerant1 (e : JournalEntry) (fs' fs : FS) : Prop := ∀ F, wf F → leftover fs' F →
  qspec F (rollbackEntry tmpName (abs b) e) (λ res F', res = None ∧ wf F' ∧ leftover fs F').

(** [restoreEntry] for a path that resolves. *)
Lemma rollback_resolved (F : FS) (e : JournalEntry) (c : FileChange) (post : FS → Prop) : wf F → node F b = Some NDir → lexical (je_Path e) (rel c) → Forall okName (rel c) → pathOK F b (rel c) →
  qspec F (restoreEntry tmpName (abs b) (abs (b ++ rel c)) e) (λ res F', res = None ∧ post F') →
  qspec F (rollbackEntry tmpName (abs b) e) (λ res F', res = None ∧ post F').
Proof.
  intros Hwf Hb Hlex Hok Hp H. unfold rollbackEntry. eapply qspec_bind; [by eapply spec_quiet, resolved_below|].
  intros a fs' [-> ->]. eapply qspec_bind; [exact H|]. intros a fs' [-> HF]. by apply qspec_ret.
Qed.

(** A file that was not there, written or not. *)
Lemma undo_absent_left fs fs1 fs2 c e top o : wf fs → node fs b = Some NDir → c ∈ cs → fc_Delete c = false → ready fs c e →
  fs !! (b ++ rel c) = None → newDirs fs (removelast (rel c)) top fs1 →
  fs2 = fs1 ∨ (∃ content mode, fs2 = withFile fs1 (b ++ rel c) content mode) →
  tolerant1 (set_createdDir top (set_outcome o e)) fs2 fs.
Proof.
  intros Hwf Hb Hc Hd [Hlex Hok Hp _ _ Hname Hdir Hrec] Hn Hnew H2 F HwfF HlF.
  destruct (rel_snoc c Hlex) as (d & x & E & Er). assert (rel c ≠ []) as Hne by (rewrite E; apply snoc_ne).
  rewrite Hn in Hrec. destruct Hrec as [Hex _].
  assert (fs1 !! (b ++ rel c) = None) as Hn1 by (rewrite <-Hn, E; rewrite Er in Hnew; by eapply newDirs_leaf).
  pose proof (newDirs_left fs c top fs1 Hc Hd Hwf Hne Hnew) as Hl1.
  assert (leftover fs1 (delete (b ++ rel c) F)) as Hl2.
  { intros q. destruct (decide (b ++ rel c = q)) as [<-|Hq]; [left; by rewrite lookup_delete_eq|]. rewrite lookup_delete_ne by done.
    destruct H2 as [->|(content & mode & ->)]; [apply HlF|]. pose proof (HlF q) as H. unfold withFile in H. by rewrite lookup_insert_ne in H. }
  pose proof (leftover_dir _ _ b (leftover_trans _ _ _ Hl1 Hl2) Hb) as HbD.
  assert (node F b = Some NDir) as HbF.
  { rewrite node_ne in HbD |- * by done. rewrite lookup_delete_ne in HbD; [done|]. intros Eb. apply (f_equal length) in Eb. rewrite E, !length_app in Eb. simpl in Eb. lia. }
  assert (F !! (b ++ rel c) ≠ Some NDir ∧ ∀ t, F !! (b ++ rel c) ≠ Some (NLink t)) as [HnF HlinkF].
  { rewrite (leftover_leaf fs2 F c) by done. destruct H2 as [->|(content & mode & ->)]; [by rewrite Hn1|]. unfold withFile. by rewrite lookup_insert_eq. }
  assert (pathOK F b (rel c)) as HpF.
  { split; [|done]. intros q Hq Hqne Hq0. pose proof (leftover_trans _ _ _ Hl1 Hl2 (b ++ q)) as HF.
    rewrite lookup_delete_ne in HF by (intros Eq; simplify_list_eq; done). destruct HF as [->|(_ & -> & _)]; [by apply Hp|by right]. }
  assert (∀ z, F !! ((b ++ rel c) ++ [z]) = None) as Hbelow.
  { intros z. destruct (F !! ((b ++ rel c) ++ [z])) as [n|] eqn:En; [|done]. apply wf_above in En; [|done..]. rewrite node_ne in En; [done|]. by destruct b. }
  assert (wf (delete (b ++ rel c) F)) as HwfD by (by apply wf_delete).
  apply (rollback_resolved F _ c (λ F', wf F' ∧ leftover fs F') HwfF HbF); [by rewrite <-Hname in Hlex|done|done|].
  unfold restoreEntry. cbn [set_createdDir set_outcome je_ExistedBefore je_CreatedDir]. rewrite Hex. cbn [negb].
  assert (Dir (abs (b ++ rel c)) = abs (b ++ removelast (rel c))) as ->.
  { rewrite Er. rewrite E in Hok |- *. by apply Dir_below. }
  assert (∀ F', wf F' → leftover fs1 F' → qspec F' (if negb (String.eqb top "") then removeCreatedDir (abs b) (abs (b ++ removelast (rel c))) top else mret None)
    (λ res F', res = None ∧ wf F' ∧ leftover fs F')) as Hrest.
  { intros F' HwfF' HlF'. destruct (String.eqb_spec top "") as [Et|Et]; simpl.
    - apply qspec_ret. split_and!; [done|done|]. by eapply leftover_trans.
    - by eapply removeCreatedDir_left. }
  eapply qspec_bind; [apply qspec_sys|]. intros a fs' [-> ->]. destruct (F !! (b ++ rel c)) as [n|] eqn:EF.
  - destruct n as [content mode| |t]; [|done|by destruct (HlinkF t)]. rewrite E in HwfD, Hl2, EF |- *.
    rewrite (remove_below_file F b d x HwfF HbF ltac:(by rewrite <-E) ltac:(by rewrite <-E) content mode EF). cbn [fst snd].
    rewrite <-E in *. by apply Hrest.
  - rewrite delete_id in HwfD, Hl2 by done. rewrite E in EF |- *.
    rewrite (remove_below_missing F b d x HwfF HbF ltac:(by rewrite <-E) ltac:(by rewrite <-E) EF). cbn [fst snd]. rewrite <-E. by apply Hrest.
Qed.

(** A file that was there, now with another content or gone. *)
Lemma undo_existed_left fs fs1 F c e content mode : wf fs → node fs b = Some NDir → c ∈ cs → ready fs c e → fs !! (b ++ rel c) = Some (NFile content mode) →
  fs1 = delete (b ++ rel c) fs ∨ fs1 = fs ∨ (∃ content' mode', fs1 = withFile fs (b ++ rel c) content' mode') →
  ∀ e', je_Path e' = je_Path e → je_ExistedBefore e' = je_ExistedBefore e → je_OriginalContent e' = je_OriginalContent e → je_OriginalMode e' = je_OriginalMode e →
  wf F → leftover fs1 F → qspec F (rollbackEntry tmpName (abs b) e') (λ res F', res = None ∧ wf F' ∧ leftover fs F').
Proof.
  intros Hwf Hb Hc [Hlex Hok Hp Ht Hfree Hname Hdir Hrec] Hn H1 e' E1 E2 E3 E4 HwfF HlF.
  destruct (rel_snoc c Hlex) as (d & x & E & Er). rewrite Hn in Hrec. destruct Hrec as (Hex & Hcont & Hmode & Hm0). rewrite Er in Hfree.
  assert (∀ q, q ≠ b ++ rel c → fs1 !! q = fs !! q) as Hq.
  { intros q Hq. destruct H1 as [->|[->|(? & ? & ->)]]; [by rewrite lookup_delete_ne|done|]. unfold withFile. by rewrite lookup_insert_ne. }
  assert (node fs (b ++ d) = Some NDir) as Hd.
  { eapply (parent_dir fs b d x Hwf); try (by rewrite <-E); by rewrite <-E, Hn. }
  assert (∀ q, q ≠ b ++ rel c → node fs q = Some NDir → node F q = Some NDir) as HdF.
  { intros q Hne Hnode. destruct q as [|y q]; [done|]. simpl in *. destruct (HlF (y :: q)) as [->|(_ & -> & _)]; [by rewrite Hq|done]. }
  assert (∀ r, length r < length (rel c) → b ++ r ≠ b ++ rel c) as Hlen by (intros r Hr Eq; simplify_list_eq; lia).
  assert (length d < length (rel c)) as Hdl by (rewrite E, length_app; simpl; lia).
  assert (node F b = Some NDir) as HbF.
  { pose proof (Hlen [] ltac:(simpl; lia)) as Hbn1. rewrite app_nil_r in Hbn1. by apply HdF. }
  assert (F !! (b ++ rel c) ≠ Some NDir ∧ ∀ t, F !! (b ++ rel c) ≠ Some (NLink t)) as [HnF HlinkF].
  { rewrite (leftover_leaf fs1 F c) by done. destruct H1 as [->|[->|(? & ? & ->)]]; [by rewrite lookup_delete_eq|by rewrite Hn|].
    unfold withFile. by rewrite lookup_insert_eq. }
  assert (leftover fs (withFile F (b ++ rel c) content mode)) as Hleft.
  { intros q. unfold withFile. destruct (decide (b ++ rel c = q)) as [<-|Hne]; [left; by rewrite lookup_insert_eq|].
    rewrite lookup_insert_ne by done. rewrite <-Hq by done. apply HlF. }
  assert (okName x) as Hx by (rewrite E in Hok; apply Forall_app in Hok as [_ H]; by inversion H).
  eapply qspec_weaken; [eapply (undo_existed (withFile F (b ++ rel c) content mode) F d x e' content mode); try done|].
  - by rewrite <-E.
  - rewrite <-E. split; [|done]. intros q Hpre Hqne Hq0. destruct (HlF (b ++ q)) as [->|(_ & -> & _)]; [|by right].
    rewrite Hq by (intros Eq; simplify_list_eq; done). by apply Hp.
  - apply HdF; [by apply Hlen|done].
  - eapply leftover_noTemp; [exact HlF|]. intros y Hy. rewrite Hq; [by apply Hfree|]. rewrite <-app_assoc. intros Eq. simplify_list_eq.
    rewrite E in Ht. apply Forall_app in Ht as [_ Ht]. rewrite E in Eq. apply app_inj_tail in Eq as [_ ->]. inversion Ht. congruence.
  - by rewrite <-E.
  - by rewrite <-E.
  - rewrite <-E. by rewrite E1, Hname.
  - congruence.
  - congruence.
  - congruence.
  - intros res F' [-> ->]. split_and!; [done| |exact Hleft]. rewrite E. rewrite (app_assoc b d [x]).
    apply wf_withFile; [done|apply HdF; [by apply Hlen|done]|done|]. by rewrite <-app_assoc, <-E.
Qed.
End leftover.

(** What a change's entry looks like in the journal. *)
Definition journaled (e e' : JournalEntry) : Prop :=
  je_Path e' = je_Path e ∧ je_ExistedBefore e' = je_ExistedBefore e ∧
  je_OriginalContent e' = je_OriginalContent e ∧ je_OriginalMode e' = je_OriginalMode e.

(** Rolling the entries back leads from [fs] to [fs0]. *)
Definition undoes (entries : list JournalEntry) (fs fs0 : FS) : Prop :=
  qspec fs (rollbackEntries tmpName (abs b) entries) (λ res fs', res = None ∧ fs' = fs0).

Lemma undoes_nil fs : undoes [] fs fs.
Proof. intros faults Hq. by repeat split. Qed.

Lemma undoes_snoc entries e fs' fs fs0 : undoes entries fs fs0 →
  qspec fs' (rollbackEntry tmpName (abs b) e) (λ res fs'', res = None ∧ fs'' = fs) →
  undoes (entries ++ [e]) fs' fs0.
Proof.
  unfold undoes, rollbackEntries. intros Hu He faults Hq. rewrite reverse_app. cbn [reverse rev_append app rollbackAll].
  change (reverse [e] ++ reverse entries) with (e :: reverse entries). cbn [rollbackAll].
  unfold mbind, IO_bind in *. destruct (He faults Hq) as [[E1 E2] Hq']. 
  destruct (rollbackEntry tmpName (abs b) e (mkWorld fs' faults)) as [r [fs1 fl]]. simpl in *. subst r fs1.
  destruct (Hu fl Hq') as [[E3 E4] Hq'']. simpl in *.
  destruct (rollbackAll tmpName (abs b) (reverse entries) (mkWorld fs fl)) as [rs [fs2 fl2]]. simpl in *. by subst.
Qed.

(** With directories left behind, too. *)
Definition tolerant (cs : list FileChange) (entries : list JournalEntry) (fs fs0 : FS) : Prop := ∀ F, wf F → leftover cs fs F →
  qspec F (rollbackEntries tmpName (abs b) entries) (λ res F', res = None ∧ wf F' ∧ leftover cs fs0 F').

Lemma tolerant_nil cs fs : tolerant cs [] fs fs.
Proof. intros F Hwf Hl faults Hq. split; [|exact Hq]. split; [done|]. by split. Qed.

Lemma rollback_snoc entries e : rollbackEntries tmpName (abs b) (entries ++ [e]) =
  (err ← rollbackEntry tmpName (abs b) e; errs ← rollbackAll tmpName (abs b) (reverse entries); mret (errors_Join (err :: errs))).
Proof. unfold rollbackEntries. rewrite reverse_app. done. Qed.

Lemma tolerant_snoc cs entries e fs' fs fs0 : tolerant cs entries fs fs0 → tolerant1 cs e fs' fs → tolerant cs (entries ++ [e]) fs' fs0.
Proof.
  intros Hu He F Hwf Hl. rewrite rollback_snoc. eapply qspec_bind; [by apply He|]. intros a F' (-> & Hwf' & Hl') faults Hq.
  destruct (Hu F' Hwf' Hl' faults Hq) as [(E & H1 & H2) H3]. unfold rollbackEntries, mbind, IO_bind in *.
  destruct (rollbackAll tmpName (abs b) (reverse entries) (mkWorld F' faults)) as [errs w]. simpl in *. done.
Qed.

(** A change that needs at most one new directory. *)
Definition shallow (fs : FS) (c : FileChange) : Prop := ∀ d x y, rel c = d ++ [x; y] → node fs (b ++ d) = Some NDir.

Lemma shallow_leftDirs fs c fs' : wf fs → rel c ≠ [] → shallow fs c → leftDirs fs (removelast (rel c)) fs' → fs' = fs.
Proof.
  intros Hwf Hne Hsh [->|(d1 & x & s1 & y & s2 & E & _ & Hx & _)]; [done|]. exfalso.
  destruct (rel c) as [|z r _] eqn:Er using rev_ind; [done|]. rewrite removelast_last in E. subst r.
  assert (∃ m w, x :: s1 ++ y :: s2 = x :: m ++ [w]) as (m & w & Em).
  { destruct s2 as [|w s2 _] using rev_ind; [by exists s1, y|]. exists (s1 ++ y :: s2), w. by rewrite <-app_assoc. }
  specialize (Hsh (d1 ++ x :: m) w z). rewrite node_ne in Hsh by (by destruct b).
  replace (b ++ d1 ++ x :: m) with (((b ++ d1) ++ [x]) ++ m) in Hsh by (by rewrite <-!app_assoc).
  rewrite wf_below in Hsh; [|done|apply snoc_ne|done]. discriminate Hsh. rewrite Er, Em. by rewrite <-!app_assoc; simpl; rewrite <-app_assoc.
Qed.

Section one.
Context (cs : list FileChange) (Hnest : ∀ c1 c2, c1 ∈ cs → c2 ∈ cs → rel c1 `prefix_of` rel c2 → rel c1 = rel c2).
Context (Htidyc : Forall (λ c, Forall (λ x, HasPrefix x tmpPrefix = false) (rel c)) cs).

Lemma undo_delete_left fs c e o : wf fs → node fs b = Some NDir → c ∈ cs → ready fs c e →
  tolerant1 cs (set_outcome o e) (delete (b ++ rel c) fs) fs.
Proof.
  intros Hwf Hb Hc Hr F HwfF HlF. pose proof Hr as [Hlex Hok Hp _ _ Hname Hdir Hrec].
  destruct (fs !! (b ++ rel c)) as [[content mode| |]|] eqn:Hn; simpl in Hrec; try done.
  - eapply (undo_existed_left cs Hnest Htidyc fs); try done. by left.
  - rewrite delete_id in HlF by done. destruct (rel_snoc c Hlex) as (d & x & E & Er). destruct Hrec as [Hex _].
    eapply qspec_weaken; [eapply (undo_absent F F F d x); try done|].
    + by eapply leftover_dir.
    + by rewrite <-E.
    + rewrite <-E. by eapply leftover_path.
    + rewrite <-E. by rewrite (leftover_leaf cs Hnest fs F c).
    + rewrite <-E. simpl. by rewrite Hname.
    + by right.
    + by left.
    + intros res F' [-> ->]. done.
Qed.
Lemma undo_write_left fs fs1 fs2 c e top o : wf fs → node fs b = Some NDir → c ∈ cs → fc_Delete c = false → ready fs c e →
  newDirs fs (removelast (rel c)) top fs1 → (∃ content mode, fs2 = withFile fs1 (b ++ rel c) content mode) →
  tolerant1 cs (set_createdDir top (set_outcome o e)) fs2 fs.
Proof.
  intros Hwf Hb Hc Hd Hr Hnew H2. pose proof Hr as [Hlex Hok Hp _ _ Hname Hdir Hrec].
  destruct (fs !! (b ++ rel c)) as [[content mode| |]|] eqn:Hn; simpl in Hrec; try done.
  - intros F HwfF HlF. destruct (rel_snoc c Hlex) as (d & x & E & Er).
    assert (node fs (b ++ removelast (rel c)) = Some NDir) as Hpar.
    { rewrite Er. eapply (parent_dir fs b d x Hwf); rewrite <-E; try done. by rewrite Hn. }
    assert (fs1 = fs) as ->.
    { destruct Hnew as [(_ & _ & ->)|(d1 & y & s & Ed & _ & Hny & _)]; [done|]. exfalso. rewrite Ed in Hpar.
      rewrite node_ne in Hpar by (by destruct b). pose proof (wf_below fs _ s Hwf (snoc_ne _ _) Hny) as Hbelow.
      rewrite <-!app_assoc in *. simpl in *. congruence. }
    eapply (undo_existed_left cs Hnest Htidyc fs); try done. right. by right.
  - eapply (undo_absent_left cs Hnest fs fs1 fs2 c e top o); try done. by right.
Qed.

Lemma applyOne_spec fs i c e applied : wf fs → node fs b = Some NDir → c ∈ cs → ready fs c e →
  spec fs (applyOne tmpName i c (abs (b ++ rel c)) e applied)
    (λ res fs', ∃ e', res = inl e' ∧ journaled e e' ∧ changed fs c fs' ∧
       qspec fs' (rollbackEntry tmpName (abs b) e') (λ res fs'', res = None ∧ fs'' = fs) ∧ tolerant1 cs e' fs' fs)
    (λ res fs', ∃ back err, res = inr (back, err) ∧ ((back = applied ∧ fs' = fs) ∨
       (∃ e', back = applied ++ [e'] ∧ qspec fs' (rollbackEntry tmpName (abs b) e') (λ res fs'', res = None ∧ fs'' = fs)) ∨
       (∃ e', back = applied ++ [e'] ∧ qspec fs' (rollbackEntry tmpName (abs b) e') (λ res fs'', res = None ∧ fs'' = fs') ∧
          wf fs' ∧ leftover cs fs fs' ∧ (shallow fs c → fs' = fs)))).
Proof.
  intros Hwf Hb Hc Hr. pose proof Hr as [Hlex Hok Hp Htidy Hfree Hname Hdir Hrec].
  destruct (rel_snoc c Hlex) as (d & x & E & Er). unfold applyOne, changed. rewrite Er in Hfree |- *. destruct (fc_Delete c) eqn:Hdel.
  - assert (∀ o, qspec (delete (b ++ rel c) fs) (rollbackEntry tmpName (abs b) (set_outcome o e))
        (λ res fs'', res = None ∧ fs'' = fs)) as Hundo.
    { intros o. apply (undo_delete fs c (set_outcome o e) Hwf Hb). by destruct Hr; constructor. }
    rewrite E in *. unfold applyDelete. destruct (fs !! (b ++ d ++ [x])) as [[content mode| |]|] eqn:Hn; simpl in Hrec; try done.
    + destruct Hrec as (Hex & _). rewrite Hex. cbn [negb].
      eapply spec_bind with (good1 := λ res fs', res = inl OutcomeDeleted ∧ fs' = delete (b ++ d ++ [x]) fs)
        (bad1 := λ res fs', (∃ err, res = inr err) ∧ fs' = fs).
      * eapply spec_bind; [apply spec_sys| |].
        -- intros a fs' [-> ->]. rewrite (remove_below_file fs b d x Hwf Hb Hok Hp content mode) by done. by apply spec_ret.
        -- intros a fs' [-> (err & -> & _)]. apply qspec_ret. eauto.
      * intros a fs' [-> ->]. apply spec_ret. eexists. rewrite <-E in *. split_and!; try done. by apply undo_delete_left.
      * intros a fs' [[err ->] ->]. apply qspec_ret. eexists _, _. split; [done|by left].
    + destruct Hrec as [-> _]. cbn [negb]. apply spec_ret. eexists. rewrite <-E in *. split_and!; [done|done|by rewrite delete_id|..].
      * specialize (Hundo OutcomeNoop). by rewrite delete_id in Hundo.
      * pose proof (undo_delete_left fs c e OutcomeNoop Hwf Hb Hc Hr) as Ht. by rewrite delete_id in Ht.
  - assert (newMode (fs !! (b ++ rel c)) =
      if negb (je_ExistedBefore e) || (je_OriginalMode e =? 0)%Z then defaultNewFileMode else je_OriginalMode e) as <-.
    { destruct (fs !! (b ++ rel c)) as [[content mode| |]|] eqn:Hn; simpl in Hrec; try done.
      - destruct Hrec as (-> & _ & -> & Hm). apply Z.eqb_neq in Hm. by rewrite Hm.
      - by destruct Hrec as [-> _]. }
    assert (fs !! (b ++ rel c) ≠ Some NDir) as Hnd. { intros En. by rewrite En in Hrec. }
    assert (rel c ≠ []) as Hrne by (rewrite E; apply snoc_ne).
    rewrite E at 1 2. eapply spec_bind; [apply applyWrite_spec; by rewrite <-?E| |].
    + intros a fs' (top & fs1 & -> & Hnew & ->). rewrite <-E. apply spec_ret. eexists. split_and!; [done|done|by exists top, fs1| |].
      * eapply undo_write; [done|done|done|rewrite Er; by left|]. right. rewrite Er. split; [done|by eexists _, _].
      * apply (undo_write_left fs fs1 _ c e top); try done; [by rewrite Er|by eexists _, _].
    + intros a fs' (top & err & -> & Hnew). apply qspec_ret. eexists _, _. split; [done|]. right.
      replace e with (set_outcome (je_Outcome e) e) by (by destruct e). rewrite <-Er in Hnew. destruct Hnew as [Hnew|[-> Hl]].
      * left. eexists. split; [done|]. eapply undo_write; [done|done|done|by left|by left].
      * right. destruct (leftDirs_left cs fs c fs' Hc Hdel Hwf Hrne Hok Hl) as [Hleft Hwf']. eexists. split_and!; [done| |done|done|].
        -- destruct Hl as [->|Hl]; [eapply undo_write; [done|done|done|right; done|by left]|].
           destruct Hl as (d1 & y & s1 & z & s2 & Ed & Hd1 & Hy & ->).
           assert (fs !! (b ++ rel c) = None) as Hn.
           { rewrite E. rewrite Er in Ed. rewrite Ed. pose proof (wf_below fs _ (s1 ++ z :: s2 ++ [x]) Hwf (snoc_ne _ _) Hy) as Hm.
             rewrite <-!app_assoc in Hm. simpl in Hm. rewrite <-!app_assoc. simpl. by rewrite <-!app_assoc. }
           rewrite Hn in Hrec. destruct Hrec as [Hex _]. set (F := mkchain _ _ _) in *.
           eapply (undo_absent F F F d x); try done; rewrite <-?E; try done.
           ++ by eapply leftover_dir.
           ++ by eapply leftover_path.
           ++ by rewrite (leftover_leaf cs Hnest fs F c).
           ++ simpl. by rewrite Hname.
           ++ by right.
           ++ by left.
        -- intros Hsh. by eapply shallow_leftDirs.
Qed.
End one.

(** Changes one after another. *)
Inductive changes_run : FS → list FileChange → FS → Prop :=
| run_nil fs : changes_run fs [] fs
| run_cons fs c fs1 cs fs2 : changed fs c fs1 → changes_run fs1 cs fs2 → changes_run fs (c :: cs) fs2.

(** No change's path is that of another or above it. *)
Definition apart (c1 c2 : FileChange) : Prop := ¬ rel c1 `prefix_of` rel c2 ∧ ¬ rel c2 `prefix_of` rel c1.

Lemma changed_lookup fs c e fs' q : wf fs → ready fs c e → changed fs c fs' →
  fs' !! q = if decide (q = b ++ rel c)
    then if fc_Delete c then None else Some (NFile (fc_NewContent c) (newMode (fs !! q)))
    else if decide (fc_Delete c = false ∧ above (rel c) q) then Some NDir else fs !! q.
Proof.
  intros Hwf [Hlex Hok _ _ _ _ _ _]. destruct (rel_snoc c Hlex) as (d & x & E & Er). unfold changed. rewrite Er.
  destruct (fc_Delete c).
  - intros ->. case_decide as H; [subst q; apply lookup_delete_eq|]. rewrite lookup_delete_ne by done.
    by rewrite decide_False by (by intros [? _]).
  - intros (top & fs1 & Hnew & ->). unfold withFile. case_decide as H; [subst q; apply lookup_insert_eq|].
    rewrite lookup_insert_ne by done. rewrite E in Hok. apply Forall_app in Hok as [Hd _].
    rewrite (newDirs_lookup fs d top fs1 q) by done. apply decide_ext. unfold above. rewrite E in H |- *. split.
    + intros (H1 & H2 & H3). split_and!; try done. rewrite (app_assoc b d [x]). by apply prefix_app_r.
    + intros (_ & H1 & H2 & [k Hk] & H3). split_and!; try done. destruct k as [|y k _] using rev_ind; [by rewrite app_nil_r in Hk|].
      rewrite !app_assoc in Hk. apply app_inj_tail in Hk as [-> _]. by apply prefix_app_r.
Qed.


Lemma ready_apart fs c1 e1 fs' c2 e2 : wf fs → ready fs c1 e1 → changed fs c1 fs' → apart c1 c2 → ready fs c2 e2 →
  ready fs' c2 e2.
Proof.
  intros Hwf H1 Hch [Hap1 Hap2] [Hlex Hok [Hp Hl] Htidy Hfree Hname Hdir Hrec].
  assert (fs' !! (b ++ rel c2) = fs !! (b ++ rel c2)) as Esame.
  { erewrite changed_lookup by done. rewrite decide_False by (intros E; simplify_list_eq; rewrite E in Hap1; by destruct Hap1).
    rewrite decide_False; [done|]. intros (_ & _ & _ & H & _). by apply Hap2, below_prefix. }
  split; try done; [| |by rewrite Esame].
  - split; [|by rewrite Esame]. intros q Hq Hqn Hq0. erewrite changed_lookup by done. case_decide as E; [simplify_list_eq|].
    case_decide; [by right|by apply Hp].
  - assert (∀ x q, rel c1 = q ++ [x] ∨ (q ++ [x]) `prefix_of` rel c1 → HasPrefix x tmpPrefix = false) as Hx.
    { intros x q Hq. pose proof (rd_tidy _ _ _ H1) as Ht. rewrite Forall_forall in Ht. apply Ht.
      destruct Hq as [-> |[k ->]]; set_solver. }
    intros x Hpre. erewrite changed_lookup by done. rewrite <-app_assoc. rewrite decide_False.
    + rewrite decide_False; [rewrite app_assoc; by apply Hfree|]. intros (_ & _ & _ & H & _).
      apply below_prefix in H. erewrite Hx in Hpre by (by right). done.
    + intros E. simplify_list_eq. erewrite Hx in Hpre by (left; symmetry; exact E). done.
Qed.

(** ** All changes *)

Definition todo (l : list (FileChange * JournalEntry)) : list (FileChange * string * JournalEntry) :=
  (λ x, (x.1, abs (b ++ rel x.1), x.2)) <$> l.
Definition allReady (fs : FS) (l : list (FileChange * JournalEntry)) : Prop :=
  Forall (λ x, ready fs x.1 x.2) l ∧ ForallOrdPairs apart l.*1.

Lemma allReady_cons fs c e l fs' : wf fs → allReady fs ((c, e) :: l) → changed fs c fs' →
  ready fs c e ∧ allReady fs' l.
Proof.
  intros Hwf [Hr Hap] Hch. inversion Hr as [|? ? Hc Hl]; subst. inversion Hap as [|? ? Hac Hal]; subst. simpl in *.
  split; [done|]. split; [|done]. rewrite Forall_fmap in Hac. apply Forall_forall. intros x Hx.
  rewrite Forall_forall in Hac, Hl. by eapply ready_apart; [..|apply Hac|apply Hl].
Qed.

(** A directory stays one. *)
Lemma shallow_changed fs c1 e1 c fs' : wf fs → ready fs c1 e1 → changed fs c1 fs' → shallow fs c → shallow fs' c.
Proof.
  intros Hwf Hr Hch Hsh d x y E. specialize (Hsh d x y E). rewrite node_ne in Hsh |- * by (by destruct b).
  erewrite changed_lookup by done. case_decide as Eq.
  - pose proof (rd_rec _ _ _ Hr) as Hrec. by rewrite <-Eq, Hsh in Hrec.
  - by case_decide.
Qed.

Section from.
Context (cs : list FileChange) (Hnest : ∀ c1 c2, c1 ∈ cs → c2 ∈ cs → rel c1 `prefix_of` rel c2 → rel c1 = rel c2).
Context (Htidyc : Forall (λ c, Forall (λ x, HasPrefix x tmpPrefix = false) (rel c)) cs).

Lemma applyFrom_spec fs0 l : ∀ i fs applied, wf fs → node fs b = Some NDir → allReady fs l → l.*1 ⊆ cs →
  undoes applied fs fs0 → tolerant cs applied fs fs0 →
  spec fs (applyFrom tmpName (abs b) i (todo l) applied)
    (λ res fs', ∃ es, res = inl (applied ++ es) ∧ Forall2 journaled l.*2 es ∧ changes_run fs l.*1 fs' ∧
       undoes (applied ++ es) fs' fs0 ∧ wf fs' ∧ node fs' b = Some NDir)
    (λ res fs', (∃ err, res = inr err) ∧ leftover cs fs0 fs' ∧ (Forall (shallow fs) l.*1 → fs' = fs0)).
Proof.
  induction l as [|[c e] l IH]; intros i fs applied Hwf Hb Hall Hin Hun Htol; cbn [todo fmap list_fmap applyFrom fst snd].
  - apply spec_ret. exists []. rewrite app_nil_r. split_and!; try done. apply run_nil.
  - pose proof Hall as [Hr _]. inversion Hr as [|? ? Hc _]; subst. simpl in Hc.
    assert (c ∈ cs) as Hccs by (apply Hin; left).
    refine (spec_bind _ _ _ _ _ _ _ (applyOne_spec cs Hnest Htidyc fs i c e applied Hwf Hb Hccs Hc) _ _).
    + intros a fs' (e' & -> & Hj & Hch & Hq & Ht1). destruct (changed_inv fs c e fs' Hwf Hb Hc Hch) as [Hwf' Hb'].
      destruct (allReady_cons fs c e l fs' Hwf Hall Hch) as [_ Hall'].
      eapply spec_weaken; [apply (IH (S i) fs' (applied ++ [e'])); try done;
        [intros x Hx; apply Hin; by right|by eapply undoes_snoc|by eapply tolerant_snoc]| |].
      * intros a fs'' (es & -> & H1 & H2 & H3 & H4 & H5). exists (e' :: es). rewrite <-app_assoc in *.
        split_and!; try done; [by constructor|by eapply run_cons].
      * intros a fs'' (H1 & H2 & H3). split_and!; [done|done|]. intros Hsh. apply H3. inversion Hsh as [|? ? _ Hshl]; subst.
        eapply Forall_impl; [exact Hshl|]. intros c' Hc'. apply (shallow_changed fs c e c' fs'); done.
    + intros a fs' (back & err & -> & Hback). destruct Hback as [[-> ->]|[(e' & -> & Hq)|(e' & -> & Hq & Hwf' & Hl & Hsh)]].
      * eapply qspec_bind; [exact Hun|]. intros a fs'' [-> ->]. apply qspec_ret. split_and!; [by eexists|apply leftover_refl|done].
      * eapply qspec_bind; [by eapply undoes_snoc|]. intros a fs'' [-> ->]. apply qspec_ret. split_and!; [by eexists|apply leftover_refl|done].
      * eapply qspec_bind with (post1 := λ res fs'', res = None ∧ leftover cs fs0 fs'' ∧ (shallow fs c → fs'' = fs0)).
        -- rewrite rollback_snoc. eapply qspec_bind; [exact Hq|]. intros a F' [-> ->] faults Hqf. 
           destruct (Htol fs' Hwf' Hl faults Hqf) as [(E & H1 & H2) H3]. unfold rollbackEntries, mbind, IO_bind in *.
           assert (shallow fs c → w_fs (rollbackAll tmpName (abs b) (reverse applied) (mkWorld fs' faults)).2 = fs0) as Hex.
           { intros Hs. rewrite (Hsh Hs). destruct (Hun faults Hqf) as [[_ Hu] _]. exact Hu. }
           destruct (rollbackAll tmpName (abs b) (reverse applied) (mkWorld fs' faults)) as [errs w]. simpl in *. done.
        -- intros a fs'' (-> & Hl' & Hex). apply qspec_ret. split_and!; [by eexists|done|]. intros Hsh'. apply Hex. by inversion Hsh'.
Qed.
End from.

(** ** What the changes amount to *)

(** The entry at [q] after the changes: what a change writes or deletes there,
    a directory on the way to a file written, or what was there. *)
Definition specNode (fs : FS) (cs : list FileChange) (q : Loc) : option Node :=
  match find (λ c, bool_decide (q = b ++ rel c)) cs with
  | Some c => if fc_Delete c then None else Some (NFile (fc_NewContent c) (newMode (fs !! q)))
  | None => if decide (Exists (λ c, fc_Delete c = false ∧ above (rel c) q) cs) then Some NDir else fs !! q
  end.

Lemma find_none cs q : Forall (λ c, q ≠ b ++ rel c) cs → find (λ c, bool_decide (q = b ++ rel c)) cs = None.
Proof. induction 1 as [|c cs H _ IH]; [done|]. simpl. by rewrite bool_decide_false. Qed.

Lemma changes_run_spec l : ∀ fs fs', wf fs → node fs b = Some NDir → allReady fs l → changes_run fs l.*1 fs' →
  ∀ q, fs' !! q = specNode fs l.*1 q.
Proof.
  induction l as [|[c e] l IH]; intros fs fs' Hwf Hb Hall Hrun q; inversion Hrun as [|? ? fs1 ? ? Hch Hrun']; subst; [done|].
  destruct (allReady_cons fs c e l fs1 Hwf Hall Hch) as [Hc Hall'].
  destruct (changed_inv fs c e fs1 Hwf Hb Hc Hch) as [Hwf' Hb'].
  rewrite (IH fs1 fs') by done. destruct Hall as [_ Hap]. inversion Hap as [|? ? Hac _]; subst. simpl in Hac.
  unfold specNode. cbn [fmap list_fmap find fst]. rewrite (changed_lookup fs c e fs1 q) by done.
  destruct (decide (q = b ++ rel c)) as [->|Hne]; [rewrite bool_decide_true by done|rewrite bool_decide_false by done].
  - rewrite find_none, decide_False; [done| |].
    + intros H. apply Exists_exists in H as (c' & Hin & _ & _ & _ & H & _). rewrite Forall_forall in Hac.
      destruct (Hac c' Hin) as [H1 _]. by apply H1, below_prefix.
    + eapply Forall_impl; [exact Hac|]. intros c' [H _] E. simplify_list_eq. by rewrite E in H.
  - destruct (find _ l.*1) as [c'|] eqn:Hf.
    + apply find_some in Hf as [Hin ->%bool_decide_eq_true_1]. apply list_elem_of_In in Hin. rewrite Forall_forall in Hac.
      rewrite decide_False; [done|]. intros (_ & _ & _ & H & _). destruct (Hac c' Hin) as [_ H2]. by apply H2, below_prefix.
    + destruct (decide (Exists _ l.*1)) as [H|H]; [by rewrite decide_True by (by apply Exists_cons_tl)|].
      apply decide_ext. rewrite Exists_cons. naive_solver.
Qed.
(** * Validation and capture *)

Section plain.
Context (fs : FS) (Hwf : wf fs) (Hb : node fs b = Some NDir).
(** The target directory holds no links, no files without any permission bit
    and no leftover temporary files. *)
Record plain : Prop := {
  pl_links : ∀ r t, fs !! (b ++ r) ≠ Some (NLink t);
  pl_modes : ∀ r content, fs !! (b ++ r) ≠ Some (NFile content 0);
  pl_temps : ∀ d, noTemp fs (b ++ d) }.
Context (Hplain : plain).

(** A path is as [pathOK] has it, or a file is in its way. *)
Lemma path_cases r : pathOK fs b r ∨
  ∃ d1 x s content mode, r = d1 ++ x :: s ∧ s ≠ [] ∧ fs !! ((b ++ d1) ++ [x]) = Some (NFile content mode).
Proof.
  induction r as [|c d IH] using rev_ind.
  - left. split; [|intros t; apply (pl_links Hplain [])]. intros q [k Hk] _ Hq. by destruct q.
  - destruct IH as [Hp|(d1 & x & s & content & mode & -> & Hs & Hn)].
    + destruct (decide (d = [])) as [->|Hd].
      { left. split; [|intros t; apply (pl_links Hplain)]. intros q [k Hk] Hq Hq0. exfalso.
        destruct q as [|y [|z q]]; simplify_list_eq; done. }
      destruct (fs !! (b ++ d)) as [[content mode| |t]|] eqn:E.
      1:{ right. destruct d as [|x d _] using rev_ind; [done|]. exists d, x, [c], content, mode.
          rewrite <-!app_assoc in *. done. }
      2:{ by destruct (pl_links Hplain d t). }
      all: left; split; [|intros t; apply (pl_links Hplain)]; intros q [k Hk] Hq Hq0; destruct Hp as [Hp _];
        (destruct k as [|y k _] using rev_ind; [by rewrite app_nil_r in Hk|]);
        rewrite app_assoc in Hk; apply app_inj_tail in Hk as [-> _];
        (destruct (decide (k = [])) as [->|Hk]; [rewrite app_nil_r in E; auto|]);
        (apply Hp; [by apply prefix_app_r| |done]); intros Eq; apply (f_equal length) in Eq; rewrite length_app in Eq; destruct k; [done|simpl in Eq; lia].
    + right. exists d1, x, (s ++ [c]), content, mode. rewrite <-app_assoc. split_and!; [done|by destruct s|done].
Qed.

Lemma eval_blocked d1 x s content mode : Forall okName (d1 ++ x :: s) → s ≠ [] →
  fs !! ((b ++ d1) ++ [x]) = Some (NFile content mode) → evalF (abs (b ++ d1 ++ x :: s)) fs = inr ENOTDIR.
Proof.
  intros Hok Hs Hn. destruct (wf_parent fs Hwf _ _ Hn) as [_ Hd]. rewrite removelast_last in Hd.
  unfold evalF. rewrite elems_ok by (by apply Forall_app). rewrite (app_assoc b d1).
  rewrite (walk_dir _ fs [] (b ++ d1)) by done. rewrite app_nil_l, walk_cons, Hn.
  - by destruct s.
  - apply Forall_app in Hok as [_ Hok]. by inversion Hok.
Qed.

(** A change that may be applied. *)
Record valid (c : FileChange) : Prop := {
  v_lex : lexical (fc_Path c) (rel c); v_ok : Forall okName (rel c); v_path : pathOK fs b (rel c) }.

Lemma resolved_cases c : Forall (λ x, String.length x ≤ NAME_MAX) (rel c) →
  spec fs (resolvedPath (abs b) (fc_Path c))
    (λ res fs', fs' = fs ∧ ((∃ e, res = inr e) ∧ ¬ valid c ∨ res = inl (abs (b ++ rel c)) ∧ valid c))
    (λ res fs', fs' = fs ∧ ∃ e, res = inr e).
Proof.
  intros Hlen. destruct (resolvedPath_cases (fc_Path c)) as [[[e ->] Hno]|[r Hlex]].
  { apply spec_ret. split; [done|left]. split; [eauto|]. intros [Hl _ _]. by apply (Hno (rel c)). }
  assert (rel c = r) as Er by (by apply lexical_elems). subst r.
  assert (Forall okName (rel c)) as Hok.
  { destruct Hlex as (_ & _ & _ & Hn). apply Forall_forall. intros x Hx. rewrite Forall_forall in Hn, Hlen. split; auto. }
  destruct (path_cases (rel c)) as [Hp|(d1 & x & s & content & mode & E & Hs & Hn)].
  - eapply spec_weaken; [by apply resolved_below| |naive_solver]. intros a fs' [-> ->]. split; [done|]. right. by split_and!.
  - rewrite (resolvedPath_lexical (fc_Path c) (rel c) Hlex). unfold verifyNoSymlinkEscape, pathFuel. cbn [verifyFrom].
    eapply spec_bind with (good1 := λ res fs', is_Some res ∧ fs' = fs) (bad1 := λ res fs', is_Some res ∧ fs' = fs).
    + eapply spec_bind; [apply spec_sys| |].
      * intros a fs' [-> ->]. cbn [fst snd]. rewrite E in Hok |- *. erewrite eval_blocked by done. simpl. apply spec_ret. eauto.
      * intros a fs' [-> (e & -> & He)]. rewrite He. apply qspec_ret. eauto.
    + intros a fs' [[e ->] ->]. apply spec_ret. split; [done|left]. split; [eauto|]. intros [_ _ [Hp _]].
      destruct (Hp (d1 ++ [x])) as [H|H]; [rewrite E| |apply snoc_ne|rewrite app_assoc in H; congruence..].
      * exists s. by rewrite <-app_assoc.
      * rewrite E. intros Eq. apply (f_equal length) in Eq. rewrite !length_app in Eq. destruct s; [done|]. simpl in Eq. lia.
    + intros a fs' [[e ->] ->]. apply qspec_ret. eauto.
Qed.

Lemma validateFrom_spec cs : ∀ i seen, Forall (λ c, Forall (λ x, String.length x ≤ NAME_MAX) (rel c)) cs →
  spec fs (validateFrom (abs b) i seen cs)
    (λ res fs', fs' = fs ∧ let ok := Forall valid cs ∧ NoDup (rel <$> cs) ∧ Forall (λ c, seen !! abs (b ++ rel c) = None) cs in
       ((∃ e, res = inr e) ∧ ¬ ok ∨ res = inl ((λ c, abs (b ++ rel c)) <$> cs) ∧ ok))
    (λ res fs', fs' = fs ∧ ∃ e, res = inr e).
Proof.
  induction cs as [|c cs IH]; intros i seen Hlen; cbn [validateFrom fmap list_fmap].
  { apply spec_ret. split; [done|right]. by repeat constructor. }
  inversion Hlen as [|? ? Hc Hcs]; subst.
  refine (spec_bind _ _ _ _ _ _ _ (resolved_cases c Hc) _ _).
  2:{ intros a fs' [-> [e ->]]. apply qspec_ret. eauto. }
  intros a fs' [-> [[[e ->] Hnv]|[-> Hvc]]].
  { apply spec_ret. split; [done|left]. split; [eauto|]. intros (Hv & _). by inversion Hv. }
  destruct (seen !! abs (b ++ rel c)) as [prev|] eqn:Hseen.
  { apply spec_ret. split; [done|left]. split; [eauto|]. intros (_ & _ & Hs). inversion Hs; congruence. }
  refine (spec_bind _ _ _ _ _ _ _ (IH (S i) _ Hcs) _ _).
  2:{ intros a fs' [-> [e ->]]. apply qspec_ret. eauto. }
  pose proof (v_ok c Hvc) as Hok.
  assert (∀ c', valid c' → abs (b ++ rel c) = abs (b ++ rel c') → rel c = rel c') as Hinj.
  { intros c' [_ Hok' _] E. apply abs_inj in E; [by simplify_list_eq|..]; apply Forall_app; split; by apply ok_normal. }
  intros a fs' [-> [[[e ->] Hno]|(-> & Hv & Hnd & Hs)]]; apply spec_ret; (split; [done|]).
  - left. split; [eauto|]. intros (Hv & Hnd & Hs). apply Hno. inversion Hv; inversion Hnd as [|? ? Hni ?]; inversion Hs; subst.
    split_and!; try done. apply Forall_forall. intros c' Hin. apply lookup_insert_None. rewrite Forall_forall in *.
    split; [auto|]. intros E. apply Hni. rewrite (Hinj c'); [by apply list_elem_of_fmap_2|auto|done].
  - right. rewrite Forall_forall in Hs, Hv. split_and!; [done| | |].
    + constructor; [done|by apply Forall_forall].
    + constructor; [|done]. intros (c' & Ec & Hin)%list_elem_of_fmap. specialize (Hs c' Hin).
      by rewrite <-Ec, lookup_insert_eq in Hs.
    + constructor; [done|]. apply Forall_forall. intros c' Hin. specialize (Hs c' Hin).
      by apply lookup_insert_None in Hs as [? _].
Qed.

(** The entry is not a directory and holds what the change expects. *)
Definition expected (c : FileChange) : Prop :=
  match fs !! (b ++ rel c) with
  | Some (NFile content _) => default content (fc_ExpectedPriorContent c) = content
  | None => default "" (fc_ExpectedPriorContent c) = ""
  | Some _ => False
  end.

#[local] Instance expected_dec c : Decision (expected c).
Proof. unfold expected. repeat case_match; apply _. Defined.

Lemma captureFrom_spec cs : ∀ i, Forall valid cs → Forall (λ c, Forall (λ x, HasPrefix x tmpPrefix = false) (rel c)) cs →
  spec fs (captureFrom i (zip cs ((λ c, abs (b ++ rel c)) <$> cs)))
    (λ res fs', fs' = fs ∧ ((∃ e, res = inr e) ∧ ¬ Forall expected cs ∨
       ∃ es, res = inl es ∧ Forall2 (ready fs) cs es ∧ Forall expected cs))
    (λ res fs', fs' = fs ∧ ∃ e, res = inr e).
Proof.
  induction cs as [|c cs IH]; intros i Hv Ht; cbn [captureFrom fmap list_fmap zip zip_with].
  { apply spec_ret. split; [done|right]. by exists []. }
  inversion Hv as [|? ? Hc Hcs]; subst. inversion Ht as [|? ? Htc Htcs]; subst. destruct Hc as [Hlex Hok Hp].
  destruct (rel_snoc c Hlex) as (d & x & E & Er). pose proof Hok as Hok'. pose proof Hp as Hp'. rewrite E in Hok', Hp'.
  rewrite E at 1. refine (spec_bind _ _ _ _ _ _ _ (readCurrent_below fs d x Hwf Hb Hok' Hp') _ _).
  2:{ intros a fs' [[e ->] ->]. apply qspec_ret. eauto. }
  intros a fs' [-> ->]. rewrite <-E.
  assert (∀ e, spec fs (mret (inr e)) (λ (res : list JournalEntry + error) fs', fs' = fs ∧ ((∃ e, res = inr e) ∧ ¬ Forall expected (c :: cs) ∨
       ∃ es, res = inl es ∧ Forall2 (ready fs) (c :: cs) es ∧ Forall expected (c :: cs))) (λ res fs', fs' = fs ∧ ∃ e, res = inr e) ∨ expected c) as Hfail.
  { intros e. destruct (decide (expected c)) as [?|Hne]; [by right|]. left. apply spec_ret. split; [done|left].
    split; [eauto|]. intros H. by inversion H. }
  set (got := match fs !! (b ++ rel c) with None => _ | Some _ => _ end).
  assert (match got with
    | inl (current, existed, mode) => expected c ↔
        match fc_ExpectedPriorContent c with Some _ => negb (bytesEqual current (fc_ExpectedPriorContent c)) | None => false end = false
    | inr _ => ¬ expected c end) as Hgot.
  { unfold got, expected, bytesEqual. destruct (fs !! (b ++ rel c)) as [[content m| |]|]; try tauto;
      (destruct (fc_ExpectedPriorContent c); cbn [from_option id]; [|done]); rewrite negb_false_iff, String.eqb_eq; done. }
  destruct got as [[[current existed] mode]|e] eqn:Hcur; [|destruct (Hfail e) as [H|H]; [|done]].
  2:{ destruct (Hfail (Errorf "patchapply: change %d (%q): reading current content: %w" [pretty i; fc_Path c] [e])); done. }
  destruct (match fc_ExpectedPriorContent c with Some _ => _ | None => _ end).
  { match goal with |- spec _ (mret (inr ?e)) _ _ => destruct (Hfail e) as [H|H]; [done|] end. by apply Hgot in H. }
  refine (spec_bind _ _ _ _ _ _ _ (IH (S i) Hcs Htcs) _ _).
  2:{ intros a fs' [-> [e ->]]. apply qspec_ret. eauto. }
  intros a fs' [-> [[[e ->] Hno]|(es & -> & Hes & Hexp)]]; apply spec_ret; (split; [done|]).
  { left. split; [eauto|]. intros H. by inversion H. }
  right. eexists. split_and!; [done| |constructor; [by apply Hgot|done]].
  constructor; [|done]. split; simpl; try done; [apply (pl_temps Hplain)|]. subst got.
  destruct (fs !! (b ++ rel c)) as [[content m| |]|] eqn:Hn; simplify_eq/=; [|done].
  split_and!; try done. intros ->. by destruct (pl_modes Hplain (rel c) content).
Qed.
End plain.
(** * Apply *)

Section batch.
Context (sha256 : string → string) (changes : list FileChange).
(** The names in the paths have proper lengths and are not those of temporary
    files, and no path leads through another one. *)
Record wellNamed : Prop := {
  wn_len : Forall (λ c, Forall (λ x, String.length x ≤ NAME_MAX) (rel c)) changes;
  wn_tidy : Forall (λ c, Forall (λ x, HasPrefix x tmpPrefix = false) (rel c)) changes;
  wn_nest : ∀ c1 c2, c1 ∈ changes → c2 ∈ changes → rel c1 `prefix_of` rel c2 → rel c1 = rel c2 }.
Context (Hnames : wellNamed).

Lemma all_apart : NoDup (rel <$> changes) → ForallOrdPairs apart changes.
Proof.
  destruct Hnames as [_ _ Hnest]. induction changes as [|c cs IH]; intros Hnd; [constructor|].
  inversion Hnd as [|? ? Hni Hnd']; subst. constructor; [|apply IH; set_solver].
  apply Forall_forall. intros c' Hin. assert (rel c ≠ rel c') as Hne.
  { intros E. apply Hni. rewrite E. by apply list_elem_of_fmap_2. }
  split; intros Hp; apply Hne; [apply Hnest; set_solver|symmetry; apply Hnest; set_solver].
Qed.

(** The batch is approved, well-formed and finds what it expects. *)
Definition admissible (fs : FS) (now : Z) (opts : Options) : Prop :=
  (checkApproval sha256 now changes opts).1 = None ∧ Forall (valid fs) changes ∧ NoDup (rel <$> changes) ∧
  Forall (expected fs) changes.

(** A journal from which the batch can be undone. *)
Definition restorable (fs fs' : FS) (es : list JournalEntry) : Prop :=
  undoes es fs' fs ∧ Forall2 (λ c e, je_Path e = fc_Path c ∧ recorded (fs !! (b ++ rel c)) e) changes es.

Lemma zip_todo es : length es = length changes →
  zip (zip changes ((λ c, abs (b ++ rel c)) <$> changes)) es = todo (zip changes es).
Proof.
  clear Hnames. revert es. induction changes as [|c cs IH]; intros [|e es] Hl; simplify_eq/=; [done|].
  unfold todo. simpl. f_equal. by apply IH.
Qed.

Lemma applyAll_spec fs es : wf fs → node fs b = Some NDir → NoDup (rel <$> changes) → Forall2 (ready fs) changes es →
  spec fs (applyAll tmpName (abs b) changes ((λ c, abs (b ++ rel c)) <$> changes) es)
    (λ res fs', ∃ es, res = inl es ∧ restorable fs fs' es ∧ wf fs' ∧ node fs' b = Some NDir ∧
       ∀ q, fs' !! q = specNode fs changes q)
    (λ res fs', (∃ err, res = inr err) ∧ leftover changes fs fs' ∧ (Forall (shallow fs) changes → fs' = fs)).
Proof.
  intros Hwf Hb Hnd Hr. pose proof (Forall2_length _ _ _ Hr) as Hl. unfold applyAll. rewrite zip_todo by done.
  assert ((zip changes es).*1 = changes ∧ (zip changes es).*2 = es) as [E1 E2].
  { split; [apply fst_zip|apply snd_zip]; lia. }
  assert (allReady fs (zip changes es)) as Hall.
  { split; [|rewrite E1; by apply all_apart]. clear -Hr. induction Hr; constructor; done. }
  eapply spec_weaken; [apply (applyFrom_spec changes (wn_nest Hnames) (wn_tidy Hnames) fs); [done|done|done|by rewrite E1|apply undoes_nil|apply tolerant_nil]| |by rewrite E1].
  rewrite E2. intros a fs' (es' & -> & Hj & Hrun & Hu & Hwf' & Hb'). exists es'. split_and!; try done.
  - split; [done|]. clear -Hr Hj. revert es' Hj. induction Hr as [|c e cs es Hc _ IH]; intros es' Hj;
      inversion Hj as [|? e' ? es'' (H1 & H2 & H3 & H4)]; subst; constructor; [|by apply IH].
    destruct Hc as [_ _ _ _ _ Hname _ Hrec]. split; [congruence|]. destruct (fs !! (b ++ rel c)) as [[]|]; simpl in *; try done.
    + destruct Hrec as (? & ? & ? & ?). split_and!; congruence.
    + destruct Hrec as (? & ?). split; congruence.
  - intros q. rewrite (changes_run_spec _ fs fs' Hwf Hb Hall Hrun). by rewrite E1.
Qed.

Lemma Apply_spec fs dir now opts : wf fs → evalF dir fs = inl (abs b) → node fs b = Some NDir → plain fs →
  spec fs (Apply tmpName sha256 now dir changes opts)
    (λ res fs', ((∃ e, res.1 = inr e) ∧ fs' = fs ∧ ¬ admissible fs now opts) ∨
       (∃ es, res.1 = inl (mkJournal (abs b) es) ∧ admissible fs now opts ∧ restorable fs fs' es ∧
          wf fs' ∧ node fs' b = Some NDir ∧ ∀ q, fs' !! q = specNode fs changes q))
    (λ res fs', (∃ e, res.1 = inr e) ∧ leftover changes fs fs' ∧ (Forall (shallow fs) changes → fs' = fs)).
Proof.
  intros Hwf Hdir Hb Hplain. unfold Apply, resolveTargetDir. pose proof Hnames as [Hlen Htidy _].
  pose proof (leftover_refl changes fs) as Hrefl.
  eapply spec_bind with (good1 := λ res fs', res = inl (abs b, NDir) ∧ fs' = fs) (bad1 := λ res fs', (∃ e, res = inr e) ∧ fs' = fs).
  { eapply spec_bind; [apply spec_sys| |].
    - intros a fs' [-> ->]. simpl. rewrite Hdir. eapply spec_bind; [apply spec_sys| |].
      + intros a fs' [-> ->]. simpl. rewrite statF_dir by done. by apply spec_ret.
      + intros a fs' [-> (e & -> & _)]. apply qspec_ret. eauto.
    - intros a fs' [-> (e & -> & _)]. apply qspec_ret. eauto. }
  2:{ intros a fs' [[e ->] ->]. apply qspec_ret. eauto. }
  intros a fs' [-> ->]. rewrite bool_decide_true by done. cbn [negb]. unfold admissible.
  refine (spec_bind _ _ _ _ _ _ _ (validateFrom_spec fs Hwf Hb Hplain changes 0 ∅ Hlen) _ _).
  2:{ intros a fs' [-> [e ->]]. apply qspec_ret. eauto. }
  intros a fs' [-> [[[e ->] Hno]|(-> & Hv & Hnd & _)]].
  { apply spec_ret. left. split_and!; [eauto|done|]. intros (_ & Hv & Hnd & _). apply Hno. split_and!; [done|done|].
    apply Forall_forall. intros c _. apply lookup_empty. }
  destruct (checkApproval sha256 now changes opts) as [[err|] br]; cbn [fst snd].
  { apply spec_ret. left. split_and!; [eauto|done|]. by intros (? & _). }
  refine (spec_bind _ _ _ _ _ _ _ (captureFrom_spec fs Hwf Hb Hplain changes 0 Hv Htidy) _ _).
  2:{ intros a fs' [-> [e ->]]. apply qspec_ret. eauto. }
  intros a fs' [-> [[[e ->] Hno]|(es & -> & Hr & Hexp)]].
  { apply spec_ret. left. split_and!; [eauto|done|]. by intros (_ & _ & _ & ?). }
  refine (spec_bind _ _ _ _ _ _ _ (applyAll_spec fs es Hwf Hb Hnd Hr) _ _).
  - intros a fs' (es' & -> & Hres & Hwf' & Hb' & Hspec). apply spec_ret. right. exists es'. by split_and!.
  - intros a fs' [[e ->] Hl]. apply qspec_ret. eauto.
Qed.
(** * Rollback and Verify *)

Lemma specNode_path fs fs' : plain fs → Forall (valid fs) changes → NoDup (rel <$> changes) →
  (∀ q, fs' !! q = specNode fs changes q) → Forall (valid fs') changes.
Proof.
  intros Hplain Hv Hnd Hspec. destruct Hnames as [_ _ Hnest]. apply Forall_forall. intros c Hin.
  rewrite Forall_forall in Hv. destruct (Hv c Hin) as [Hlex Hok [Hp _]]. split; [done..|]. split.
  - intros q Hq Hne Hq0. rewrite Hspec. unfold specNode. destruct (find _ changes) as [c'|] eqn:Hf.
    + apply find_some in Hf as [Hin' E%bool_decide_eq_true_1]. apply list_elem_of_In in Hin'. simplify_list_eq.
      destruct Hne. by apply Hnest.
    + case_decide; [by right|by apply Hp].
  - intros t. rewrite Hspec. unfold specNode. repeat case_match; try done. apply (pl_links fs Hplain).
Qed.

Lemma validateEntries_spec fs cs es : wf fs → node fs b = Some NDir → Forall (valid fs) cs →
  Forall2 (λ c e, je_Path e = fc_Path c) cs es →
  qspec fs (validateEntries (abs b) es) (λ res fs', res = None ∧ fs' = fs).
Proof.
  intros Hwf Hb Hv Hes. induction Hes as [|c e cs es E _ IH]; [by apply qspec_ret|]. inversion Hv as [|? ? [Hlex Hok Hp] Hcs]; subst.
  cbn [validateEntries]. rewrite E. eapply qspec_bind; [by eapply spec_quiet, resolved_below|].
  intros a fs' [-> ->]. by apply IH.
Qed.

Lemma right_dir es : wrongDir (mkJournal (abs b) es) (abs b) = false.
Proof. unfold wrongDir. cbn [jn_TargetDir]. by rewrite String.eqb_refl, andb_false_r. Qed.

Lemma verifyEntry_spec fs c e : wf fs → node fs b = Some NDir → valid fs c → je_Path e = fc_Path c →
  recorded (fs !! (b ++ rel c)) e →
  qspec fs (verifyEntry (abs b) e) (λ res fs', Forall (λ x, x = None) res ∧ fs' = fs).
Proof.
  intros Hwf Hb [Hlex Hok Hp] E Hrec. unfold verifyEntry. rewrite E.
  eapply qspec_bind; [by eapply spec_quiet, resolved_below|]. intros a fs' [-> ->].
  destruct (rel_snoc c Hlex) as (d & x & Er & _). rewrite Er in *.
  eapply qspec_bind; [by eapply spec_quiet, readCurrent_below|]. intros a fs' [-> ->].
  destruct (fs !! (b ++ d ++ [x])) as [[content mode| |]|]; simpl in Hrec; try done.
  - destruct Hrec as (-> & -> & -> & Hm). unfold bytesEqual. simpl. rewrite String.eqb_refl, Z.eqb_refl, andb_false_r.
    by apply qspec_ret; repeat constructor.
  - destruct Hrec as (-> & ->). apply qspec_ret. by repeat constructor.
Qed.

Lemma Rollback_spec fs fs' es now opts : wf fs' → node fs' b = Some NDir → Forall (valid fs') changes →
  restorable fs fs' es → (checkRollbackApproval sha256 now es opts).1 = None →
  qspec fs' (Rollback tmpName sha256 now (abs b) (mkJournal (abs b) es) opts) (λ res fs'', res.1 = None ∧ fs'' = fs).
Proof.
  intros Hwf Hb Hv [Hu Hes] Happ. unfold Rollback. eapply qspec_bind; [apply qspec_sys|]. intros a fs'' [-> ->].
  cbn [fst snd]. rewrite evalF_dir, right_dir by done.
  eapply qspec_bind; [by eapply validateEntries_spec; [..|eapply Forall2_impl; [exact Hes|]; by intros ?? []]|].
  intros a fs'' [-> ->]. cbn [jn_Entries]. rewrite Happ.
  eapply qspec_bind; [exact Hu|]. intros a fs'' [-> ->]. by apply qspec_ret.
Qed.

Lemma Verify_spec fs es : wf fs → node fs b = Some NDir → Forall (valid fs) changes →
  Forall2 (λ c e, je_Path e = fc_Path c ∧ recorded (fs !! (b ++ rel c)) e) changes es →
  qspec fs (Verify (abs b) (mkJournal (abs b) es)) (λ res fs', res = None ∧ fs' = fs).
Proof.
  intros Hwf Hb Hv Hes. unfold Verify. eapply qspec_bind; [apply qspec_sys|]. intros a fs'' [-> ->].
  cbn [fst snd]. rewrite evalF_dir, right_dir by done. simpl.
  eapply qspec_bind with (post1 := λ res fs', Forall (λ x, x = None) res ∧ fs' = fs).
  2:{ intros a fs' [Ha ->]. apply qspec_ret. split; [|done]. by apply errors_Join_None. }
  clear Hnames. induction Hes as [|c e cs es [E Hrec] _ IH]; [by apply qspec_ret|].
  inversion Hv as [|? ? Hc Hcs]; subst. cbn [verifyEntries].
  eapply qspec_bind; [by apply (verifyEntry_spec fs c)|]. intros a fs' [Ha ->]. eapply qspec_bind; [by apply IH|].
  intros a' fs' [Ha' ->]. apply qspec_ret. split; [|done]. by apply Forall_app.
Qed.
End batch.
End temp.
End base.

(** * Theorems *)

(** What is assumed of a target directory, of a batch and of the names of
    temporary files. *)
Record setting (tmpName : FS → Loc → string) (fs : FS) (b : Loc) (changes : list FileChange) : Prop := {
  st_wf : wf fs; st_root : b ≠ []; st_dir : node fs b = Some NDir; st_plain : plain b fs;
  st_names : wellNamed changes;
  st_tmp : ∀ fs d, okName (tmpName fs d) ∧ HasPrefix (tmpName fs d) tmpPrefix = true }.

(** C17. A batch is applied entirely or not at all, in a target directory without
    links, leftover temporary files and files without permission bits, for
    changes whose paths have names of proper length that are not those of
    temporary files and do not lead through one another.  If [Apply] reports an
    error, even because one system call failed, no file has changed: the file
    system is what it was, up to new directories on the way to files of the batch
    (which an [os.MkdirAll] that failed half way leaves behind), and exactly what
    it was when no change needs more than one new directory or no call failed.
    If it succeeds, the batch was approved, valid and found what it expected, and
    every location holds exactly what the changes say, with the directories that
    lead to new files, permissions kept and nothing else touched.  Without a
    failing call an admissible batch is applied. *)
Theorem apply_all_or_nothing tmpName sha256 fs b dir changes now opts faults :
  setting tmpName fs b changes → evalF dir fs = inl (abs b) → oneFault faults →
  let x := Apply tmpName sha256 now dir changes opts (mkWorld fs faults) in
  match x.1.1 with
  | inr _ => leftover b changes fs (w_fs x.2) ∧ (Forall (shallow b fs) changes ∨ quiet faults → w_fs x.2 = fs)
  | inl _ => admissible b sha256 changes fs now opts ∧ ∀ q, w_fs x.2 !! q = specNode b fs changes q
  end ∧ (quiet faults → admissible b sha256 changes fs now opts → ∃ j, x.1.1 = inl j).
Proof.
  intros [Hwf Hroot Hb Hplain Hnames Htmp] Hdir Hone x. assert (Forall okName b) as Hok by (by eapply wf_node_names).
  destruct (Apply_spec b Hok Hroot tmpName Htmp sha256 changes Hnames fs dir now opts Hwf Hdir Hb Hplain faults Hone)
    as [([([e He] & Hfs & Hno)|(es & He & Had & _ & _ & _ & Hsp)] & _)|(([e He] & Hl & Hsh) & _ & Hf)];
    subst x; rewrite He; (split; [try done|]).
  - rewrite Hfs. split; [apply leftover_refl|done].
  - by intros _ ?.
  - eauto.
  - split; [done|]. intros [?|Hq]; [auto|]. by destruct (quiet_not_faulty faults Hq).
  - intros Hq. by destruct (quiet_not_faulty faults Hq).
Qed.

(** C18. After an [Apply] that succeeded, in a target directory and for a batch as in
    [setting] (no links, no leftover temporary files, no file without permission
    bits, proper paths that do not lead through one another), an approved rollback
    during which no call fails restores exactly what was there before, permissions,
    created directories and deleted files included, and [Verify] then finds
    nothing amiss. *)
Theorem rollback_restores tmpName sha256 fs b dir changes now opts faults now' opts' faults' :
  setting tmpName fs b changes → evalF dir fs = inl (abs b) → oneFault faults → quiet faults' →
  let x := Apply tmpName sha256 now dir changes opts (mkWorld fs faults) in
  match x.1.1 with
  | inr _ => True
  | inl j =>
    (checkRollbackApproval sha256 now' (jn_Entries j) opts').1 = None →
    let y := Rollback tmpName sha256 now' (jn_TargetDir j) j opts' (mkWorld (w_fs x.2) faults') in
    y.1.1 = None ∧ w_fs y.2 = fs ∧ (Verify (jn_TargetDir j) j y.2).1 = None
  end.
Proof.
  intros [Hwf Hroot Hb Hplain Hnames Htmp] Hdir Hone Hq x. assert (Forall okName b) as Hok by (by eapply wf_node_names).
  destruct (Apply_spec b Hok Hroot tmpName Htmp sha256 changes Hnames fs dir now opts Hwf Hdir Hb Hplain faults Hone)
    as [([([e He] & _)|(es & He & (_ & Hv & Hnd & _) & Hres & Hwf' & Hb' & Hsp)] & _)|(([e He] & _) & _ & _)];
    subst x; rewrite He; try done.
  intros Happ y. cbn [jn_Entries jn_TargetDir] in *.
  assert (Forall (valid b (w_fs (Apply tmpName sha256 now dir changes opts (mkWorld fs faults)).2)) changes) as Hv'
    by (by eapply specNode_path).
  destruct (Rollback_spec b Hok Hroot tmpName sha256 changes fs _ es now' opts' Hwf' Hb' Hv' Hres Happ faults' Hq) as [[H1 H2] Hq'].
  fold y in H1, H2, Hq'. split_and!; [done|done|]. destruct Hres as [_ Hes].
  destruct (Verify_spec b Hok Hroot changes fs es Hwf Hb Hv Hes (w_faults y.2) Hq') as [[H3 _] _].
  rewrite <-H2 in H3. by destruct (y.2).
Qed.

(** * Nothing is written before the batch is approved *)

Local Ltac read_only := repeat first
  [ apply readOnly_bind; [|intros] | case_match | progress unfold EvalSymlinks, Stat | solve [auto with readonly] ].

Lemma readOnly_verifyFrom fuel b dir : readOnly (verifyFrom fuel b dir).
Proof. revert dir. induction fuel as [|fuel IH]; intros dir; cbn [verifyFrom]; read_only. Qed.
#[local] Hint Resolve readOnly_verifyFrom : readonly.
Lemma readOnly_resolvedPath b p : readOnly (resolvedPath b p).
Proof. unfold resolvedPath, verifyNoSymlinkEscape. read_only. Qed.
#[local] Hint Resolve readOnly_resolvedPath : readonly.
Lemma readOnly_resolveTargetDir dir : readOnly (resolveTargetDir dir).
Proof. unfold resolveTargetDir, EvalSymlinks, Stat. read_only. Qed.
Lemma readOnly_validateFrom b i seen changes : readOnly (validateFrom b i seen changes).
Proof. revert i seen. induction changes as [|c cs IH]; intros i seen; cbn [validateFrom]; read_only. Qed.

(** The batch lacks the approval it needs. *)
Definition unapproved (sha256 : string → string) (now : Z) (changes : list FileChange) (opts : Options) : Prop :=
  match op_Broker opts with
  | None => existsb fc_Delete changes = true
  | Some broker =>
      (checkBrokerScope now broker (op_Token opts) (BatchScope sha256 (op_Action opts) (fc_Path <$> changes))).1 ≠ StatusPass
  end.

(** C19. Without approval a batch that deletes a file changes nothing and is
    refused, whatever links the file system has and whichever calls fail; so is
    any batch when a broker is configured that does not approve it. *)
Theorem unapproved_changes_nothing tmpName sha256 now dir changes opts w :
  unapproved sha256 now changes opts →
  let x := Apply tmpName sha256 now dir changes opts w in
  w_fs x.2 = w_fs w ∧ ∃ e, x.1.1 = inr e.
Proof.
  unfold unapproved. intros Hun. assert (∃ e, (checkApproval sha256 now changes opts).1 = Some e) as [e He].
  { unfold checkApproval. destruct (op_Broker opts) as [broker|]; [|rewrite Hun; by eexists].
    apply String.eqb_neq in Hun. rewrite Hun. by eexists. }
  clear Hun. unfold Apply, mbind, IO_bind. pose proof (readOnly_resolveTargetDir dir w) as H1.
  destruct (resolveTargetDir dir w) as [[[b info]|err] w1]; [|by eauto]. simpl in H1 |- *.
  case_match; [by eauto|]. pose proof (readOnly_validateFrom b 0 ∅ changes w1) as H2. fold (validateChangePaths b changes) in H2.
  destruct (validateChangePaths b changes w1) as [[fulls|err] w2]; simpl in H2 |- *; rewrite <-H1, <-H2; [|by eauto].
  rewrite He. by eauto.
Qed.

(** * Examples *)

Definition demo_tmp (fs : FS) (d : Loc) : string := ".patchapply-tmp-1".
Definition demo_hash (s : string) : string := "h".
Definition demo_fs : FS := list_to_map
  [(["w"], NDir); (["w"; "a.txt"], NFile "old" 384); (["w"; "gone"], NFile "bye" 420); (["etc"], NDir)].
Definition demo_changes : list FileChange :=
  [mkChange "x/y/n.txt" "hello" false None; mkChange "./a.txt" "new" false (Some "old"); mkChange "gone" "" true None].
Definition demo_opts (token : string) (n : nat) : Options :=
  mkOptions (Some {[ token := mkGrant token token (mkScope "patch" "68") "ann" 0 100 false ]}) "patch" token.

(** The conditions on a file system, entry by entry. *)
Definition okNameb (c : string) : bool :=
  negb (String.eqb c "") && negb (String.eqb c ".") && negb (String.eqb c "..") &&
  bool_decide (splitSlash c = [c]) && bool_decide (String.length c ≤ NAME_MAX).
Definition entryOK (fs : FS) (p : Loc) (n : Node) : bool :=
  bool_decide (p ≠ []) && bool_decide (node fs (removelast p) = Some NDir) && forallb okNameb p &&
  match n with NLink _ => false | NFile _ mode => negb (mode =? 0)%Z | NDir => true end &&
  negb (HasPrefix (List.last p "") tmpPrefix).

Lemma okNameb_spec c : okNameb c = true → okName c.
Proof.
  unfold okNameb. rewrite !andb_true_iff, !negb_true_iff, !bool_decide_eq_true, !String.eqb_neq.
  intros ((((? & ?) & ?) & ?) & ?). by split_and!.
Qed.

Lemma entryOK_spec fs b : map_Forall (λ p n, entryOK fs p n = true) fs → wf fs ∧ plain b fs.
Proof.
  intros H. assert (∀ p n, fs !! p = Some n → p ≠ [] ∧ node fs (removelast p) = Some NDir ∧ Forall okName p ∧
    (∀ t, n ≠ NLink t) ∧ (∀ content, n ≠ NFile content 0) ∧ HasPrefix (List.last p "") tmpPrefix = false) as Hall.
  { intros p n Hp. specialize (H p n Hp). unfold entryOK in H.
    rewrite !andb_true_iff, !bool_decide_eq_true, negb_true_iff, forallb_forall in H.
    destruct H as ((((H1 & H2) & H3) & H4) & H5). split_and!; try done.
    - apply Forall_forall. intros c Hc. by apply okNameb_spec, H3, list_elem_of_In.
    - by intros t ->.
    - by intros content ->. }
  split; split.
  - intros p n Hp. destruct (Hall p n Hp) as (? & ? & _). done.
  - intros p n Hp. by destruct (Hall p n Hp) as (_ & _ & ? & _).
  - intros r t Hp. destruct (Hall _ _ Hp) as (_ & _ & _ & Hn & _). by apply (Hn t).
  - intros r content Hp. destruct (Hall _ _ Hp) as (_ & _ & _ & _ & Hn & _). by apply (Hn content).
  - intros d x Hx. destruct (fs !! _) as [n|] eqn:Hp; [|done]. destruct (Hall _ _ Hp) as (_ & _ & _ & _ & _ & Hn).
    rewrite last_last in Hn. congruence.
Qed.

Local Ltac by_evaluation := match goal with |- ?P => apply (bool_decide_unpack P); vm_compute; exact I end.

Lemma demo_setting : setting demo_tmp demo_fs ["w"] demo_changes.
Proof.
  destruct (entryOK_spec demo_fs ["w"]) as [Hwf Hplain]; [by_evaluation|].
  split; try done.
  - split; [by_evaluation..|].
    assert (∀ c1 c2, c1 ∈ demo_changes → c2 ∈ demo_changes → bool_decide (rel c1 `prefix_of` rel c2 → rel c1 = rel c2) = true) as H.
    { intros c1 c2 H1 H2. unfold demo_changes in *. rewrite !elem_of_cons in H1, H2.
      destruct H1 as [->|[->|[->|[]%not_elem_of_nil]]], H2 as [->|[->|[->|[]%not_elem_of_nil]]]; vm_compute; reflexivity. }
    intros c1 c2 H1 H2. apply (bool_decide_eq_true_1 _ (H c1 c2 H1 H2)).
  - intros fs d. split; [apply okNameb_spec; vm_compute; reflexivity|vm_compute; reflexivity].
Qed.

(** An applied batch: its outcomes, and the file system afterwards. *)
Definition demo_run : (Journal + error) * option Broker * World :=
  Apply demo_tmp demo_hash 5 "/etc/../w" demo_changes (demo_opts "t" 0) (mkWorld demo_fs []).
Example demo_applied :
  match demo_run.1.1 with
  | inl j => je_Outcome <$> jn_Entries j = ["written"; "written"; "deleted"] ∧ jn_TargetDir j = "/w"
  | inr _ => False
  end ∧ w_fs demo_run.2 !! ["w"; "x"; "y"; "n.txt"] = Some (NFile "hello" 420) ∧
  w_fs demo_run.2 !! ["w"; "a.txt"] = Some (NFile "new" 384) ∧ w_fs demo_run.2 !! ["w"; "gone"] = None.
Proof. vm_compute. repeat split. Qed.

(** Whether [Apply] succeeded, and with a journal that may be rolled back. *)
Definition succeeded (x : (Journal + error) * option Broker * World) : bool :=
  match x.1.1 with inl _ => true | inr _ => false end.
Definition revocable (now : Z) (opts : Options) (x : (Journal + error) * option Broker * World) : bool :=
  match x.1.1 with
  | inl j => match (checkRollbackApproval demo_hash now (jn_Entries j) opts).1 with None => true | Some _ => false end
  | inr _ => false
  end.

Lemma apply_all_or_nothing_witness :
  let x := Apply demo_tmp demo_hash 5 "/w" demo_changes (demo_opts "t" 0) (mkWorld demo_fs [None; None; Some EBUSY]) in
  leftover ["w"] demo_changes demo_fs (w_fs x.2) ∧
  let y := Apply demo_tmp demo_hash 5 "/w" demo_changes (demo_opts "t" 0) (mkWorld demo_fs []) in
  ∀ q, w_fs y.2 !! q = specNode ["w"] demo_fs demo_changes q.
Proof.
  assert (evalF "/w" demo_fs = inl (abs ["w"])) as Hdir by (vm_compute; reflexivity). split.
  - assert (oneFault [None; None; Some EBUSY]) as Hone by (right; exists 2, EBUSY; split; reflexivity).
    pose proof (apply_all_or_nothing demo_tmp demo_hash demo_fs ["w"] "/w" demo_changes 5 (demo_opts "t" 0) _
      demo_setting Hdir Hone) as [H _].
    destruct (Apply demo_tmp demo_hash 5 "/w" demo_changes (demo_opts "t" 0) _) as [[[j|e] br] w] eqn:E; [|exact (proj1 H)].
    apply (f_equal succeeded) in E. vm_compute in E. discriminate E.
  - assert (oneFault []) as Hone by (left; constructor).
    pose proof (apply_all_or_nothing demo_tmp demo_hash demo_fs ["w"] "/w" demo_changes 5 (demo_opts "t" 0) []
      demo_setting Hdir Hone) as [H _].
    destruct (Apply demo_tmp demo_hash 5 "/w" demo_changes (demo_opts "t" 0) _) as [[[j|e] br] w] eqn:E; [exact (proj2 H)|].
    apply (f_equal succeeded) in E. vm_compute in E. discriminate E.
Defined.

Lemma rollback_restores_witness :
  let x := Apply demo_tmp demo_hash 5 "/w" demo_changes (demo_opts "t" 0) (mkWorld demo_fs []) in
  match x.1.1 with
  | inr _ => False
  | inl j => w_fs (Rollback demo_tmp demo_hash 6 (jn_TargetDir j) j (demo_opts "u" 0) (mkWorld (w_fs x.2) [])).2 = demo_fs
  end.
Proof.
  assert (evalF "/w" demo_fs = inl (abs ["w"])) as Hdir by (vm_compute; reflexivity).
  assert (oneFault []) as Hone by (left; constructor). assert (quiet []) as Hq by constructor.
  pose proof (rollback_restores demo_tmp demo_hash demo_fs ["w"] "/w" demo_changes 5 (demo_opts "t" 0) [] 6
    (demo_opts "u" 0) [] demo_setting Hdir Hone Hq) as H.
  destruct (Apply demo_tmp demo_hash 5 "/w" demo_changes (demo_opts "t" 0) _) as [[[j|e] br] w] eqn:E.
  - apply (f_equal (revocable 6 (demo_opts "u" 0))) in E. unfold revocable at 2 in E. simpl in H, E |- *.
    destruct (checkRollbackApproval demo_hash 6 (jn_Entries j) (demo_opts "u" 0)) as [[e|] br'];
      [vm_compute in E; discriminate E|]. exact (proj1 (proj2 (H eq_refl))).
  - apply (f_equal succeeded) in E. vm_compute in E. discriminate E.
Defined.

Lemma unapproved_changes_nothing_witness :
  let x := Apply demo_tmp demo_hash 5 "/w" demo_changes (mkOptions None "" "") (mkWorld demo_fs []) in
  w_fs x.2 = demo_fs ∧ ∃ e, x.1.1 = inr e.
Proof.
  apply (unapproved_changes_nothing demo_tmp demo_hash 5 "/w" demo_changes (mkOptions None "" "") (mkWorld demo_fs [])).
  reflexivity.
Defined.

(** * Where the guarantees end *)

Definition write_only : Options := mkOptions None "" "".

(** The paths of a batch are all checked before anything is written.  A link
    that dangles at that time can lead out of the target directory once an
    earlier change of the batch has created the directory it goes through, and
    the later change is written outside. *)
Definition escape_fs : FS := list_to_map [(["w"], NDir); (["w"; "l"], NLink "x/../../out"); (["out"], NDir)].
Definition escape_changes : list FileChange := [mkChange "x/g" "1" false None; mkChange "l/f" "2" false None].
Theorem apply_escapes_target :
  let x := Apply demo_tmp demo_hash 0 "/w" escape_changes write_only (mkWorld escape_fs []) in
  (∃ j, x.1.1 = inl j) ∧ escape_fs !! ["out"; "f"] = None ∧ w_fs x.2 !! ["out"; "f"] = Some (NFile "2" 420).
Proof. vm_compute. split; [by eexists|done]. Qed.

(** When [os.MkdirAll] fails after having created some of the directories, the
    ones it has created stay, although the batch is reported as failed. *)
Fixpoint longName (n : nat) : string := match n with 0 => "" | S n => "a" +:+ longName n end.
Definition bare_fs : FS := list_to_map [(["w"], NDir)].
Theorem failed_apply_leaves_directories :
  (let c := mkChange ("x/" +:+ longName 256 +:+ "/f") "1" false None in
   let x := Apply demo_tmp demo_hash 0 "/w" [c] write_only (mkWorld bare_fs []) in
   (∃ e, x.1.1 = inr e) ∧ bare_fs !! ["w"; "x"] = None ∧ w_fs x.2 !! ["w"; "x"] = Some NDir) ∧
  (let x := Apply demo_tmp demo_hash 0 "/w" [mkChange "x/y/f" "1" false None] write_only (mkWorld bare_fs (replicate 14 None ++ [Some EBUSY])) in
   (∃ e, x.1.1 = inr e) ∧ bare_fs !! ["w"; "x"] = None ∧ w_fs x.2 !! ["w"; "x"] = Some NDir).
Proof. vm_compute. split; (split; [by eexists|done]). Qed.

(** A link to a file is replaced by a file; rolling back does not bring the
    link back, and [Verify] does not notice. *)
Definition link_fs : FS := list_to_map [(["w"], NDir); (["w"; "a"], NLink "b"); (["w"; "b"], NFile "old" 420)].
Theorem rollback_loses_link :
  let x := Apply demo_tmp demo_hash 0 "/w" [mkChange "a" "new" false None] write_only (mkWorld link_fs []) in
  match x.1.1 with
  | inr _ => False
  | inl j =>
    let y := Rollback demo_tmp demo_hash 0 "/w" j write_only x.2 in
    y.1.1 = None ∧ (Verify "/w" j y.2).1 = None ∧ w_fs y.2 !! ["w"; "a"] = Some (NFile "old" 420)
  end.
Proof. vm_compute. done. Qed.
