(* ===== verification/AgentCli.v ===== *)
(** The command line of agents: src/tools/agentcli/agentcli.go, the review and
    handoff it shares with other front ends (src/agentreview/agentreview.go),
    and the envelope of a CI run (src/tools/provenanceci/provenanceci.go).

    These compose discovery, the contract, the planner and runner, the
    classification of commands, approvals, reviews and envelopes.  [discoverRepo]
    is a variable of the package, here a parameter; git, the YAML and JSON
    codecs, the clock and the processes that are run are the parameters of the
    components. *)

From stdpp Require Import base gmap list strings pretty sorting.
From S2P Require Import Prelude Quote Paths Regex GoStrings Provenance FileSystem Approval Envelope Classify VerifyPlan DiffScan Contract ProtectedPaths AgentDocs Discovery.

(** * Reviews and handoffs *)

(** [agentreview.flattenErrors]. *)
Definition flattenErrors (err : error) : list string :=
  match err with
  | Joined es => errorText <$> es
  | Errorf _ _ (e1 :: e2 :: ws) => errorText <$> e1 :: e2 :: ws
  | err => [errorText err]
  end.

Section agent.
Context (isPrint : N → bool) (git : Git) (yamlUnmarshal : string → Contract + error).
(** [exec.LookPath("git")], and the output of [git -C root rev-parse args]. *)
Context (gitFound : option error) (revParse : string → list string → string + error).

Definition gitRevParse (root : string) (args : list string) : string + error :=
  match gitFound with
  | Some err => inr err
  | None => match revParse root args with inr err => inr err | inl out => inl (TrimSpace out) end
  end.

(** [agentreview.Review]; [None] is a panic of the secret scan. *)
Definition agentReview (env : nat → VerifyPlan.Env) (repo : Repository) (baseRef headRef : string) (allowNetwork : bool)
    (protectedPaths : list string) : option (list VerificationResult) :=
  ProtectedPaths.Review isPrint git env (re_Root repo) baseRef headRef (re_Tools repo) allowNetwork protectedPaths.

Definition assemble (repo : Repository) (branch commit agentName tool : string) (verification : list VerificationResult) (now : Z) : Envelope :=
  mkEnvelope Envelope.SchemaVersion (mkRepoState (re_Root repo) branch commit (re_Dirty repo)) (mkAgentInfo agentName "" tool "" "")
    [] [] verification [] None now.
(** [agentreview.Envelope]. *)
Definition handoffEnvelope (repo : Repository) (agentName tool : string) (verification : list VerificationResult) (now : Z) : Envelope + error :=
  match gitRevParse (re_Root repo) ["HEAD"] with
  | inr err => inr (Errorf "resolving commit: %w" [] [err])
  | inl commit =>
    match gitRevParse (re_Root repo) ["--abbrev-ref"; "HEAD"] with
    | inr err => inr (Errorf "resolving branch: %w" [] [err])
    | inl branch =>
      let branch := if String.eqb branch "HEAD" then "" else branch in
      let env := Redact (assemble repo branch commit agentName tool verification now) in
      match Envelope.Validate env with
      | Some err => inr (Errorf "assembled handoff failed validation: %s" [JoinWith "; " (flattenErrors err)] [])
      | None => inl env
      end
    end
  end.

(** ** The commands *)

Context (discoverRepo : string → Repository + error).

Definition loadProtectedPaths (root baseRef : string) : list string + error := LoadProtectedPathsAtRef git yamlUnmarshal root baseRef.
Definition discovering {A} (root : string) (k : Repository → A + error) : A + error :=
  match discoverRepo root with
  | inr err => inr (Errorf "discovering %q: %w" [root] [err])
  | inl repo => k repo
  end.
Definition reviewRepo (env : nat → VerifyPlan.Env) (root baseRef headRef : string) (allowNetwork : bool)
    : (Repository * option (list VerificationResult)) + error :=
  discovering root (λ repo,
    match loadProtectedPaths root baseRef with
    | inr err => inr err
    | inl protectedPaths => inl (repo, agentReview env repo baseRef headRef allowNetwork protectedPaths)
    end).
Definition cliReview (env : nat → VerifyPlan.Env) (root baseRef headRef : string) (allowNetwork : bool) : option (list VerificationResult) + error :=
  match reviewRepo env root baseRef headRef allowNetwork with inl r => inl r.2 | inr err => inr err end.
(** The outer [None] is the panic. *)
Definition Handoff (env : nat → VerifyPlan.Env) (root agentName baseRef headRef : string) (allowNetwork : bool) (now : Z) : option (Envelope + error) :=
  match reviewRepo env root baseRef headRef allowNetwork with
  | inr err => Some (inr err)
  | inl (repo, None) => None
  | inl (repo, Some results) => Some (handoffEnvelope repo agentName "modulex-cli" results now)
  end.

(** ** Contracts *)

(** [os.ReadFile], as [contract.Load] uses it. *)
Context (readFile : string → option string + error).

Definition LoadContract (root : string) : Contract + error :=
  match Contract.Load yamlUnmarshal readFile root with
  | (_, _, Some err) => inr err
  | (Some c, true, None) =>
    match Contract.Validate c with
    | Some err => inr (Errorf "%s failed validation: %w" [Join root FileName] [err])
    | None => inl c
    end
  | _ => inr (Errorf "reading %s: %w" [Join root FileName] [ErrNotExist])
  end.

Record DoctorReport := mkDoctorReport {
  dr_Root : string; dr_IsGitRepo : bool; dr_Dirty : bool; dr_Tools : list ToolStatus; dr_ContractPresent : bool;
  dr_ContractError : string; dr_Projects : nat; dr_Commands : nat; dr_ProtectedPaths : nat }.
Definition Doctor (root : string) : DoctorReport + error :=
  discovering root (λ repo,
    let rep := mkDoctorReport (re_Root repo) (re_IsGitRepo repo) (re_Dirty repo) (re_Tools repo) in
    match Contract.Load yamlUnmarshal readFile root with
    | (_, false, Some err) => inr err
    | (_, false, None) => inl (rep false "" 0 0 0)
    | (_, true, Some err) => inl (rep true ("parse: " +:+ errorText err) 0 0 0)
    | (None, true, None) => inl (rep true "" 0 0 0)
    | (Some c, true, None) =>
      inl (rep true (match Contract.Validate c with Some err => "validation: " +:+ errorText err | None => "" end)
             (length (ct_Projects c)) (length (ct_Commands c)) (length (ct_ProtectedPaths c)))
    end).
End agent.

(** * Approvals *)

Section approve.
Context (hashToken : string → string) (marshal : list storedGrant → string + error) (unmarshal : string → list storedGrant + error).

(** [approval.DefaultStorePath]. *)
Definition DefaultStorePath (root : string) : string := Join (Join root ".modulex") "approvals.json".
Definition Approve (root action resource approvedBy : string) (ttl now : Z) (rnd : string + error) (readErr : option error) (io : SaveIO)
    (fs : gmap string string) : (Grant + error) * gmap string string :=
  let path := DefaultStorePath root in
  match Approval.Load hashToken unmarshal path readErr fs with
  | inr err => (inr (Errorf "loading approvals: %w" [] [err]), fs)
  | inl b =>
    match Grant_ hashToken rnd (mkScope action resource) approvedBy ttl now b with
    | (inr err, _) => (inr err, fs)
    | (inl grant, b) =>
      match Save marshal path b io fs with
      | (Some err, fs) => (inr (Errorf "saving approvals: %w" [] [err]), fs)
      | (None, fs) => (inl grant, fs)
      end
    end
  end.
End approve.

(** * Generated documents *)

Section documents.
(** [sort.Slice] in the documents. *)
Context (sortSlice : ∀ A, (A → A → bool) → list A → list A).

(** The files written, with their targets. *)
Definition OutputFiles : list (string * AgentDocs.Target) := [("AGENTS.md", TargetAGENTS); ("CLAUDE.md", TargetCLAUDE)].
Fixpoint generateAll (c : Contract) (files : list (string * AgentDocs.Target)) : list (string * string) + error :=
  match files with
  | [] => inl []
  | (name, target) :: files =>
    match Generate sortSlice c target with
    | inr err => inr (Errorf "generating %s: %w" [name] [err])
    | inl body => match generateAll c files with inr err => inr err | inl out => inl ((name, body) :: out) end
    end
  end.
Definition GeneratedFiles (c : Contract) : list (string * string) + error := generateAll c OutputFiles.

Fixpoint writeAll (root : string) (files : list (string * string)) (fs : FS) : (list string * option error) * FS :=
  match files with
  | [] => (([], None), fs)
  | (name, body) :: files =>
    match writeFileF (Join root name) body 420 fs with
    | (inr err, fs) => (([], Some (Errorf "writing %s: %w" [Join root name] [err])), fs)
    | (inl _, fs) => let r := writeAll root files fs in ((name :: r.1.1, r.1.2), r.2)
    end
  end.
(** The names written, and the error. *)
Definition WriteGeneratedFiles (root : string) (c : Contract) (fs : FS) : (list string * option error) * FS :=
  match GeneratedFiles c with
  | inr err => (([], Some err), fs)
  | inl files => writeAll root files fs
  end.
Fixpoint checkAll (root : string) (want : list (string * string)) (fs : FS) : list string + error :=
  match want with
  | [] => inl []
  | (name, body) :: want =>
    match readFileF (Join root name) fs with
    | inr err =>
      if FileSystem.IsNotExist err then match checkAll root want fs with inl l => inl (name :: l) | inr err => inr err end
      else inr (Errorf "reading %s: %w" [name] [err])
    | inl got =>
      match checkAll root want fs with
      | inl l => inl (if negb (String.eqb got body) then name :: l else l)
      | inr err => inr err
      end
    end
  end.
Definition CheckGeneratedFiles (root : string) (c : Contract) (fs : FS) : list string + error :=
  match GeneratedFiles c with
  | inr err => inr err
  | inl want => checkAll root want fs
  end.
End documents.

(** * Verification *)

Section verify.
Context (isPrint : N → bool) (git : Git) (discoverRepo : string → Repository + error) (sortSlice : list CheckSpec → list CheckSpec).

(** The checks to consider: the focused ones, and the full gates of other names. *)
Definition specsFor (plan : Plan) (full : bool) : list CheckSpec :=
  if full then pl_FocusedChecks plan ++ filter (λ s, cs_Name s ∉ cs_Name <$> pl_FocusedChecks plan) (pl_FullGates plan)
  else pl_FocusedChecks plan.
Definition needsApproval (class : CommandClass) : bool :=
  String.eqb class ClassMutating || String.eqb class ClassDestructive || String.eqb class ClassApprovalRequired.

(** What becomes of each check: a result at once, or a check to run.  Looking for
    a grant drops those that have expired from the broker in memory; [now] is the
    time at which it looks. *)
Fixpoint triage (now : nat → Z) (root : string) (specs : list CheckSpec) (b : Broker) : list (VerificationResult + CheckSpec) :=
  match specs with
  | [] => []
  | s :: specs =>
    let '(class, reason) := ClassifyCommand (cs_Command s) in
    if needsApproval class then
      let '(status, b) := DryRunCheck (mkScope (cs_Name s) "") (now (length specs)) b in
      inl (mkVResult (cs_Name s) (cs_Category s) StatusApprovalRequired 0 ""
             (if String.eqb status StatusPass then reason +:+ "; an approval grant exists for this check" else reason)) ::
      triage now root specs b
    else inr (if String.eqb (cs_Dir s) "" then withDir root s else s) :: triage now root specs b
  end.
Definition runnable (slots : list (VerificationResult + CheckSpec)) : list CheckSpec :=
  omap (λ x, match x with inr s => Some s | inl _ => None end) slots.
(** The results of the checks run, in their places. *)
Fixpoint fill (slots : list (VerificationResult + CheckSpec)) (ran : list (VerificationResult * list Process)) : list (VerificationResult * list Process) :=
  match slots, ran with
  | inl r :: slots, _ => (r, []) :: fill slots ran
  | inr _ :: slots, r :: ran => r :: fill slots ran
  | _, _ => []
  end.
(** Each result with what was spawned for it.  [loaded] is what the approvals
    file holds. *)
Definition Verify (env : nat → VerifyPlan.Env) (now : nat → Z) (loaded : Broker + error) (root baseRef headRef : string) (allowNetwork full : bool)
    : list (VerificationResult * list Process) + error :=
  match discoverRepo root with
  | inr err => inr (Errorf "discovering %q: %w" [root] [err])
  | inl repo =>
    match ChangedFiles git (re_Root repo) baseRef headRef with
    | inr err => inr (Errorf "listing changed files %s...%s: %w" [baseRef; headRef] [err])
    | inl changed =>
      let specs := specsFor (PlanFor isPrint sortSlice changed) full in
      let broker := match loaded with inl b => b | inr _ => NewBroker end in
      let slots := triage now (re_Root repo) specs broker in
      inl (fill slots (Run env (runnable slots) (re_Tools repo) allowNetwork))
    end
  end.
End verify.

(** * The envelope of a CI run *)

Record JobResult := mkJobResult { jr_Name : string; jr_Result : string }.
Record Config := mkConfig { cg_RepoPath : string; cg_Commit : string; cg_Branch : string; cg_Dirty : bool; cg_Jobs : list JobResult; cg_CreatedAt : Z }.
Definition jobVerification (j : JobResult) (status : Status) (reason : string) : VerificationResult :=
  mkVResult (jr_Name j) VerificationFull status 0 "" reason.
Section jobs.
(** [unicode.IsPrint], and [sort.Slice] by name, which is not stable. *)
Context (isPrint : N → bool) (sortJobs : list JobResult → list JobResult).
Definition jobResultToVerification (j : JobResult) : VerificationResult :=
  if String.eqb (jr_Result j) "success" then jobVerification j StatusPass ""
  else if String.eqb (jr_Result j) "failure" then jobVerification j StatusFail ""
  else if String.eqb (jr_Result j) "cancelled" then jobVerification j StatusFail "GitHub Actions job was cancelled before completing"
  else if String.eqb (jr_Result j) "skipped" then
    jobVerification j StatusSkipped ("GitHub Actions job was skipped (its " +:+ dq +:+ "if" +:+ dq +:+ " condition was not met)")
  else jobVerification j StatusFail
    ("unrecognized GitHub Actions job result " +:+ Quote isPrint (jr_Result j) +:+ "; treating as failed rather than silently passing").
Definition verificationResults (jobs : list JobResult) : list VerificationResult := jobResultToVerification <$> sortJobs jobs.
Definition BuildEnvelope (cfg : Config) (now : Z) : Envelope + error :=
  let createdAt := if (cg_CreatedAt cfg =? zeroTime)%Z then now else cg_CreatedAt cfg in
  let env := Redact (mkEnvelope Envelope.SchemaVersion (mkRepoState (cg_RepoPath cfg) (cg_Branch cfg) (cg_Commit cfg) (cg_Dirty cfg))
    (mkAgentInfo "ci" "" "github-actions" "" "") [] [] (verificationResults (cg_Jobs cfg)) [] None createdAt) in
  match Envelope.Validate env with
  | Some err => inr (Errorf "provenanceci: built an invalid envelope: %w" [] [err])
  | None => inl env
  end.
End jobs.

(** * Theorems *)

(** ** What verification runs *)

Lemma classify_classes cmd : (ClassifyCommand cmd).1 ∈ [ClassSafe; ClassMutating; ClassNetworked; ClassDestructive; ClassApprovalRequired].
Proof.
  assert (Forall (λ r, ru_Class r ∈ [ClassSafe; ClassMutating; ClassNetworked; ClassDestructive; ClassApprovalRequired]) ClassificationRules) as Hall
    by (apply (bool_decide_unpack _); vm_compute; exact I).
  unfold ClassifyCommand. destruct (MatchString _ _); [simpl; set_solver|]. destruct (find _ _) as [rule|] eqn:E; [|simpl; set_solver].
  apply find_some in E as [E _]. rewrite Forall_forall in Hall. apply Hall. by apply list_elem_of_In.
Qed.
Lemma runnable_class cmd : needsApproval (ClassifyCommand cmd).1 = false → (ClassifyCommand cmd).1 ∈ [ClassSafe; ClassNetworked].
Proof.
  unfold needsApproval. pose proof (classify_classes cmd) as H. revert H. generalize (ClassifyCommand cmd).1. intros c.
  rewrite !elem_of_cons, !orb_false_iff, !String.eqb_neq. tauto.
Qed.

(** What a place of the results holds. *)
Definition slotOk (s : CheckSpec) (root : string) (x : VerificationResult + CheckSpec) : Prop :=
  match x with
  | inl r => needsApproval (ClassifyCommand (cs_Command s)).1 = true ∧ vr_Name r = cs_Name s ∧ vr_Category r = cs_Category s ∧ vr_Status r = StatusApprovalRequired
  | inr s' => needsApproval (ClassifyCommand (cs_Command s)).1 = false ∧ s' = if String.eqb (cs_Dir s) "" then withDir root s else s
  end.
Lemma triage_ok now root specs b : Forall2 (λ s x, slotOk s root x) specs (triage now root specs b).
Proof.
  revert b. induction specs as [|s specs IH]; intros b; [constructor|]. cbn [triage]. destruct (ClassifyCommand (cs_Command s)) as [class reason] eqn:E.
  destruct (needsApproval class) eqn:En.
  - destruct (DryRunCheck _ _ _) as [status b']. constructor; [|apply IH]. simpl. rewrite E. done.
  - constructor; [|apply IH]. simpl. rewrite E. done.
Qed.

Definition placed (x : VerificationResult + CheckSpec) (run : CheckSpec → VerificationResult * list Process → Prop) (r : VerificationResult * list Process) : Prop :=
  match x with inl v => r = (v, []) | inr s => run s r end.
Lemma fill_ok (run : CheckSpec → VerificationResult * list Process → Prop) slots ran : Forall2 run (runnable slots) ran →
  Forall2 (λ x r, placed x run r) slots (fill slots ran).
Proof.
  revert ran. induction slots as [|[v|s] slots IH]; intros ran H; simpl in *; [constructor|constructor; [done|by apply IH]|].
  inversion H; subst. constructor; [done|by apply IH].
Qed.
Lemma run_all env checks tools allowNetwork :
  Forall2 (λ c r, ∃ n, honest (env n) tools allowNetwork c r ∧ outcome (env n) tools allowNetwork c r.1 r.2) checks (Run env checks tools allowNetwork).
Proof.
  apply Forall2_same_length_lookup_2; [unfold Run; by rewrite length_imap|]. intros i c r Hc Hr. unfold Run in Hr. rewrite list_lookup_imap, Hc in Hr.
  injection Hr as <-. eexists. split; [apply runOne_honest|apply runOne_outcome].
Qed.

Lemma Forall2_compose {A B C} (R : A → B → Prop) (S : B → C → Prop) (T : A → C → Prop) l k m :
  Forall2 R l k → Forall2 S k m → (∀ x y z, R x y → S y z → T x z) → Forall2 T l m.
Proof. intros H1. revert m. induction H1; intros m H2 HT; inversion H2; subst; constructor; eauto. Qed.

Lemma blocked_class cmd : needsApproval (ClassifyCommand cmd).1 = true → (ClassifyCommand cmd).1 ∈ [ClassMutating; ClassDestructive; ClassApprovalRequired].
Proof. unfold needsApproval. rewrite !orb_true_iff, !String.eqb_eq, !elem_of_cons. tauto. Qed.

(** C31. [Verify] gives one result for every check planned, in order.  For a check
    whose command is classified as mutating, destructive or needing approval no
    process is spawned, whatever grants exist, and it is reported as needing
    approval.  For any other, whose command is safe or networked, the processes
    are as [outcome] says: if its tool is there, it needs no network that it may
    not use, and its make target, if it is one, is not undefined, its command is
    run exactly once in its directory, or in the root if it names none, and the
    check passes exactly if the command succeeds; otherwise the command is not
    run.  Before that [make -n] may be run there on the target of the command,
    and nothing else is. *)
Theorem verify_runs_only_safe isPrint git discoverRepo sortSlice env now loaded root baseRef headRef allowNetwork full repo changed results :
  discoverRepo root = inl repo → ChangedFiles git (re_Root repo) baseRef headRef = inl changed →
  Verify isPrint git discoverRepo sortSlice env now loaded root baseRef headRef allowNetwork full = inl results →
  Forall2 (λ s r,
    vr_Name r.1 = cs_Name s ∧ vr_Category r.1 = cs_Category s ∧
    let class := (ClassifyCommand (cs_Command s)).1 in
    (class ∈ [ClassMutating; ClassDestructive; ClassApprovalRequired] ∧ vr_Status r.1 = StatusApprovalRequired ∧ r.2 = [] ∨
     class ∈ [ClassSafe; ClassNetworked] ∧ ∃ n,
       outcome (env n) (re_Tools repo) allowNetwork
         (mkCheck (cs_Name s) (cs_Command s) (cs_Category s) (cs_Reason s) (cs_RequiredTool s) (cs_Networked s)
            (if String.eqb (cs_Dir s) "" then re_Root repo else cs_Dir s)) r.1 r.2))
    (specsFor (PlanFor isPrint sortSlice changed) full) results.
Proof.
  intros Hr Hch H. unfold Verify in H. rewrite Hr, Hch in H. injection H as <-.
  set (specs := specsFor _ _). set (b := match loaded with inl b => b | inr _ => NewBroker end).
  pose proof (triage_ok now (re_Root repo) specs b) as Ht.
  pose proof (fill_ok _ (triage now (re_Root repo) specs b) _ (run_all env _ (re_Tools repo) allowNetwork)) as Hf.
  eapply Forall2_compose; [exact Ht|exact Hf|]. intros s x [v ps] H1 H2. destruct x as [v'|s']; simpl in H1, H2.
  - destruct H1 as (Hn & Hname & Hcat & Hst). injection H2 as -> ->. simpl. split; [done|]. split; [done|]. left.
    split; [by apply blocked_class|done].
  - destruct H1 as [Hn ->]. destruct H2 as (n & [[O1 O2] _ _ _ _ _ _] & Ho). simpl in *. rewrite O1, O2.
    split; [by destruct (String.eqb _ _)|]. split; [by destruct (String.eqb _ _)|]. right. split; [by apply runnable_class|]. exists n.
    revert Ho. destruct (String.eqb (cs_Dir s) ""); [done|]. by destruct s.
Qed.

(** A discovered repository, and a change of one file. *)
Definition demoRepo : Repository := mkRepository "/repo" true false [] [] [] [] [] [] [mkTool "go" true "/usr/bin/go"].
Definition demoGit : Git := answers [(["-C"; "/repo"; "diff"; "--name-only"; "--no-color"; "main...HEAD"], "httpx/a.go" +:+ nlString)].
Lemma verify_runs_only_safe_witness : ∃ results,
  Verify (λ _, true) demoGit (λ _, inl demoRepo) (merge_sort checkLe) demo_env (λ _, 0%Z) (inl NewBroker)
    "/repo" "main" "HEAD" false false = inl results ∧
  (snd <$> results) = [[Shell "/repo" "go test ./httpx/..."]; [Shell "/repo" "go vet ./httpx/..."]] ∧
  ∀ r, r ∈ results → ∃ n c, cs_Dir c = "/repo" ∧ outcome (demo_env n) (re_Tools demoRepo) false c r.1 r.2.
Proof.
  destruct (Verify (λ _, true) demoGit (λ _, inl demoRepo) (merge_sort checkLe) demo_env (λ _, 0%Z) (inl NewBroker)
    "/repo" "main" "HEAD" false false) as [results|err] eqn:E; [|exfalso; vm_compute in E; discriminate E].
  pose proof (verify_runs_only_safe (λ _, true) demoGit (λ _, inl demoRepo) (merge_sort checkLe) demo_env (λ _, 0%Z) (inl NewBroker)
      "/repo" "main" "HEAD" false false demoRepo ["httpx/a.go"] results eq_refl ltac:(vm_compute; reflexivity) E) as H.
  exists results. split; [reflexivity|]. vm_compute in E. injection E as <-. split; [reflexivity|].
  intros r [i Hi]%list_elem_of_lookup. destruct (Forall2_lookup_r _ _ _ _ _ H Hi) as (s & Hs & _ & _ & [(_ & Hst & _)|(_ & n & Ho)]).
  - exfalso. destruct i as [|[|i]]; simpl in Hi; [injection Hi as <-; discriminate Hst|injection Hi as <-; discriminate Hst|discriminate Hi].
  - exists n. eexists. split; [|exact Ho]. simpl. vm_compute in Hs. destruct i as [|[|i]]; [injection Hs as <-; reflexivity|injection Hs as <-; reflexivity|discriminate Hs].
Defined.

(** ** Documents *)

Lemma walk_other fs q' content mode : (fs !! q' = None ∨ ∃ c m, fs !! q' = Some (NFile c m)) → ∀ links rest cur q, q ≠ q' →
  walk links fs cur rest = inl q → walk links (<[q' := NFile content mode]> fs) cur rest = inl q.
Proof.
  intros Hq. induction links as [|links IHl]; induction rest as [|c rest IHr]; intros cur q Hne; simpl; try done.
  all: destruct (String.eqb c "."); [by apply IHr|]; destruct (String.eqb c ".."); [by apply IHr|]; destruct (decide (NAME_MAX < _)); [done|].
  all: destruct (decide (cur ++ [c] = q')) as [<-|Hd].
  all: try (destruct Hq as [->|(c' & m' & ->)]; [done|]; destruct rest; [intros [= <-]; by destruct Hne|done]).
  all: rewrite lookup_insert_ne by done; destruct (fs !! (cur ++ [c])) as [[content' mode'| |t]|]; try done; try (by apply IHr). by apply IHl.
Qed.
Lemma walkCreate_other fs q' content mode : (fs !! q' = None ∨ ∃ c m, fs !! q' = Some (NFile c m)) → ∀ links rest cur q, q ≠ q' →
  walkCreate links fs cur rest = inl q → walkCreate links (<[q' := NFile content mode]> fs) cur rest = inl q.
Proof.
  intros Hq. induction links as [|links IHl]; induction rest as [|c rest IHr]; intros cur q Hne; simpl; try done.
  all: destruct (String.eqb c "."); [by apply IHr|]; destruct (String.eqb c ".."); [by apply IHr|]; destruct (decide (NAME_MAX < _)); [done|].
  all: destruct (decide (cur ++ [c] = q')) as [<-|Hd].
  all: try (destruct Hq as [->|(c' & m' & ->)]; (destruct rest; [intros [= <-]; by destruct Hne|done])).
  all: rewrite lookup_insert_ne by done; destruct (fs !! (cur ++ [c])) as [[content' mode'| |t]|]; try done; try (by apply IHr). by apply IHl.
Qed.
(** The place of a write is in a directory. *)
Definition nameable (c : string) : Prop := c ≠ "" ∧ noslash c.
Lemma elems_nameable path : Forall nameable (elems path).
Proof.
  apply Forall_forall. intros c [Hc Hin]%list_elem_of_filter. split; [done|].
  pose proof (splitSlash_noslash path) as H. rewrite Forall_forall in H. by apply H.
Qed.
Definition inDirectory (fs : FS) (q : Loc) : Prop := q = [] ∨ ∃ d c, q = d ++ [c] ∧ node fs d = Some NDir ∧ okName c.
Lemma existing_place fs q n : wf fs → node fs q = Some n → inDirectory fs q.
Proof.
  intros Hwf Hq. destruct q as [|c d _] using rev_ind; [by left|]. right. exists d, c. split; [done|].
  pose proof (wf_node_names _ _ _ Hwf Hq) as [_ Hc]%Forall_app. rewrite Forall_singleton in Hc. split; [|done]. by eapply wf_node_above.
Qed.
Lemma node_removelast fs cur : wf fs → node fs cur = Some NDir → node fs (removelast cur) = Some NDir.
Proof. intros Hwf Hc. destruct cur as [|x cur _] using rev_ind; [done|]. rewrite node_app in Hc. by apply (wf_parent _ Hwf) in Hc as [_ Hc]. Qed.
Lemma walkCreate_place fs : wf fs → ∀ links rest cur q, Forall nameable rest → node fs cur = Some NDir →
  walkCreate links fs cur rest = inl q → inDirectory fs q.
Proof.
  intros Hwf. induction links as [|links IHl]; induction rest as [|c rest IHr]; intros cur q Hn Hcur; simpl;
    try (intros [= <-]; by eapply existing_place).
  all: apply Forall_cons in Hn as [[Hc Hns] Hn].
  all: destruct (String.eqb_spec c "."); [by apply IHr|]; destruct (String.eqb_spec c ".."); [apply IHr; [done|]; by apply node_removelast|].
  all: destruct (decide (NAME_MAX < _)) as [|Hl]; [done|].
  all: assert (inDirectory fs (cur ++ [c])) as Hd by (right; exists cur, c; split; [done|]; split; [done|]; split; [done|lia]).
  all: destruct (fs !! (cur ++ [c])) as [[content' mode'| |t]|] eqn:E; try done; try (destruct rest; [by intros [= <-]|done]).
  all: try (apply IHr; [done|by rewrite node_app]).
  apply IHl; [apply Forall_app; split; [apply elems_nameable|done]|by destruct (IsAbs t)].
Qed.
Lemma write_wf fs path q content mode : wf fs → walkCreate kernelLinks fs [] (elems path) = inl q →
  (fs !! q = None ∨ ∃ c m, fs !! q = Some (NFile c m)) → q ≠ [] → wf (<[q := NFile content mode]> fs).
Proof.
  intros Hwf Hw Hq Hne. apply walkCreate_place in Hw as [->|(d & c & -> & Hd & Hc)]; [done| |done|apply elems_nameable|done].
  apply wf_insert; [done..|]. left. destruct Hq as [->|(? & ? & ->)]; done.
Qed.
(** A write at a place, in one form. *)
Lemma writeFileF_at fs path content mode q fs' : wf fs → walkCreate kernelLinks fs [] (elems path) = inl q → writeFileF path content mode fs = (inl tt, fs') →
  (fs !! q = None ∨ ∃ c m, fs !! q = Some (NFile c m)) ∧ ∃ m, fs' = <[q := NFile content m]> fs ∧ q ≠ [].
Proof.
  intros Hwf Hq. unfold writeFileF. rewrite Hq. destruct q as [|x q]; [done|]. simpl.
  destruct (fs !! (x :: q)) as [[c m| |t]|]; intros; simplify_eq; (split; [by eauto|by eexists]).
Qed.
Lemma readFileF_other fs path content mode q q' body : (fs !! q' = None ∨ ∃ c m, fs !! q' = Some (NFile c m)) → q ≠ q' →
  walk kernelLinks fs [] (elems path) = inl q → readFileF path fs = inl body → readFileF path (<[q' := NFile content mode]> fs) = inl body.
Proof.
  intros Hq' Hne Hw. unfold readFileF, statF. rewrite Hw, (walk_other fs q' content mode Hq' _ _ _ _ Hne Hw).
  destruct q as [|x q]; [done|]. simpl. by rewrite lookup_insert_ne by done.
Qed.

(** What a successful generation leaves: the two documents at their places, and
    nothing else changed. *)
Lemma generated_written sortSlice root c fs fs' names q1 q2 :
  wf fs →
  walkCreate kernelLinks fs [] (elems (Join root "AGENTS.md")) = inl q1 →
  walkCreate kernelLinks fs [] (elems (Join root "CLAUDE.md")) = inl q2 → q1 ≠ q2 →
  WriteGeneratedFiles sortSlice root c fs = ((names, None), fs') →
  names = ["AGENTS.md"; "CLAUDE.md"] ∧ CheckGeneratedFiles sortSlice root c fs' = inl [] ∧
  ∃ b1 m1 b2 m2, let fs1 := <[q1 := NFile b1 m1]> fs in
    fs' = <[q2 := NFile b2 m2]> fs1 ∧ (fs !! q1 = None ∨ ∃ c m, fs !! q1 = Some (NFile c m)) ∧ (fs1 !! q2 = None ∨ ∃ c m, fs1 !! q2 = Some (NFile c m)).
Proof.
  intros Hwf H1 H2 Hne. unfold WriteGeneratedFiles, CheckGeneratedFiles. destruct (GeneratedFiles sortSlice c) as [files|] eqn:Eg; [|done].
  assert (∃ b1 b2, files = [("AGENTS.md", b1); ("CLAUDE.md", b2)]) as (b1 & b2 & ->).
  { unfold GeneratedFiles, OutputFiles in Eg. cbn [generateAll] in Eg. destruct (Generate _ _ TargetAGENTS) as [b1|]; [|done].
    destruct (Generate _ _ TargetCLAUDE) as [b2|]; [|done]. injection Eg as <-. eauto. }
  clear Eg. cbn [writeAll checkAll]. set (p1 := Join root "AGENTS.md") in *. set (p2 := Join root "CLAUDE.md") in *.
  destruct (writeFileF p1 b1 420 fs) as [[[]|err] fs1] eqn:E1; [|done]. destruct (writeFileF p2 b2 420 fs1) as [[[]|err] fs2] eqn:E2; [|done].
  intros [= <- <-]. split; [done|].
  pose proof (write_read _ _ _ _ _ Hwf E1) as R1. destruct (writeFileF_at _ _ _ _ _ _ Hwf H1 E1) as (Hq1 & m1 & -> & Hn1).
  assert (wf (<[q1 := NFile b1 m1]> fs)) as Hwf1 by (by apply (write_wf fs p1)).
  pose proof (walkCreate_other fs q1 b1 m1 Hq1 _ _ _ _ (not_eq_sym Hne) H2) as H2'.
  pose proof (write_read _ _ _ _ _ Hwf1 E2) as R2. destruct (writeFileF_at _ _ _ _ _ _ Hwf1 H2' E2) as (Hq2 & m2 & -> & _).
  assert (readFileF p1 (<[q2:=NFile b2 m2]> (<[q1:=NFile b1 m1]> fs)) = inl b1) as R1'.
  { apply (readFileF_other _ p1 b2 m2 q1 q2); [done|done|by apply walk_written|done]. }
  rewrite R1', R2, !String.eqb_refl. split; [done|]. exists b1, m1, b2, m2. done.
Qed.

(** A file at another place is read as before. *)
Lemma generated_elsewhere sortSlice root c fs fs' names q1 q2 path q body :
  wf fs →
  walkCreate kernelLinks fs [] (elems (Join root "AGENTS.md")) = inl q1 →
  walkCreate kernelLinks fs [] (elems (Join root "CLAUDE.md")) = inl q2 → q1 ≠ q2 →
  WriteGeneratedFiles sortSlice root c fs = ((names, None), fs') →
  walk kernelLinks fs [] (elems path) = inl q → q ≠ q1 → q ≠ q2 → readFileF path fs = inl body → readFileF path fs' = inl body.
Proof.
  intros Hwf H1 H2 Hne Hw Hq Hn1 Hn2 Hr. destruct (generated_written _ _ _ _ _ _ _ _ Hwf H1 H2 Hne Hw) as (_ & _ & b1 & m1 & b2 & m2 & -> & Hq1 & Hq2).
  apply (readFileF_other _ path b2 m2 q q2); [done|done|by apply walk_other|]. by apply (readFileF_other _ path b1 m1 q q1).
Qed.

(** After the documents have been generated none has drifted, provided they are
    different files. *)
Theorem generated_no_drift sortSlice root c fs fs' names q1 q2 :
  wf fs →
  walkCreate kernelLinks fs [] (elems (Join root "AGENTS.md")) = inl q1 →
  walkCreate kernelLinks fs [] (elems (Join root "CLAUDE.md")) = inl q2 → q1 ≠ q2 →
  WriteGeneratedFiles sortSlice root c fs = ((names, None), fs') →
  names = ["AGENTS.md"; "CLAUDE.md"] ∧ CheckGeneratedFiles sortSlice root c fs' = inl [].
Proof. intros Hwf H1 H2 Hne Hw. by destruct (generated_written _ _ _ _ _ _ _ _ Hwf H1 H2 Hne Hw) as (? & ? & _). Qed.

(** A repository whose CLAUDE.md is its own file, and one where it is a link to
    AGENTS.md: there the second document overwrites the first, which has then
    always drifted. *)
Definition docsFS (claude : option Node) : FS :=
  (match claude with Some n => <[["repo"; "CLAUDE.md"] := n]> | None => id end) {[ ["repo"] := NDir ]}.
Lemma docsFS_wf : wf (docsFS None).
Proof.
  split; simpl; intros p n [<- <-]%lookup_singleton_Some; [done|]. apply Forall_singleton. split; [|vm_compute; lia]. by repeat split.
Qed.
Lemma generated_no_drift_witness : ∃ names fs', WriteGeneratedFiles mergeSort "/repo" demo_contract (docsFS None) = ((names, None), fs') ∧
  CheckGeneratedFiles mergeSort "/repo" demo_contract fs' = inl [].
Proof.
  assert (snd (fst (WriteGeneratedFiles mergeSort "/repo" demo_contract (docsFS None))) = None) as E1 by (vm_compute; reflexivity).
  destruct (WriteGeneratedFiles mergeSort "/repo" demo_contract (docsFS None)) as [[names err] fs'] eqn:E. simpl in E1. subst err.
  exists names, fs'. split; [reflexivity|].
  apply (generated_no_drift mergeSort "/repo" demo_contract (docsFS None) fs' names ["repo"; "AGENTS.md"] ["repo"; "CLAUDE.md"] docsFS_wf);
    [vm_compute; reflexivity|vm_compute; reflexivity|discriminate|exact E].
Defined.
Theorem linked_document_drifts :
  let r := WriteGeneratedFiles mergeSort "/repo" demo_contract (docsFS (Some (NLink "AGENTS.md"))) in
  r.1 = (["AGENTS.md"; "CLAUDE.md"], None) ∧ CheckGeneratedFiles mergeSort "/repo" demo_contract r.2 = inl ["AGENTS.md"].
Proof. vm_compute. done. Qed.

(** ** Approvals *)

Section approvals.
Context (hashToken : string → string) (marshal : list storedGrant → string + error) (unmarshal : string → list storedGrant + error).

Lemma Load_keyed path err fs b : Approval.Load hashToken unmarshal path err fs = inl b → keyed_by_token b ∧ hashed hashToken b.
Proof.
  unfold Approval.Load. destruct err; [done|]. destruct (fs !! path) as [data|]; [|intros [= <-]; split; by intros k g Hg; unfold NewBroker in Hg; rewrite lookup_empty in Hg].
  destruct (unmarshal data) as [grants|]; [|done]. intros [= <-].
  assert (∀ b0, keyed_by_token b0 ∧ hashed hashToken b0 → let b := foldl (λ b sg, <[sg_Token sg := fromStored hashToken sg]> b) b0 grants in
    keyed_by_token b ∧ hashed hashToken b) as H; [|apply H; split; by intros k g Hg; unfold NewBroker in Hg; rewrite lookup_empty in Hg].
  induction grants as [|sg grants IH]; intros b0 [Hk Hh]; [done|]. apply IH. split; intros k g [[<- <-]|[_ ?]]%lookup_insert_Some; [done|by apply Hk|done|by apply (Hh k)].
Qed.

(** An approval that was made is there for whoever loads the file until it
    expires, for its exact scope; one that failed leaves the file as it was. *)
Theorem approve_visible root action resource approvedBy ttl now rnd readErr io fs :
  (∀ gs data, marshal gs = inl data → unmarshal data = inl gs) →
  match Approve hashToken marshal unmarshal root action resource approvedBy ttl now rnd readErr io fs with
  | (inl g, fs') => g_Scope g = mkScope action resource ∧ g_ApprovedBy g = approvedBy ∧ approvedBy ≠ "" ∧
      ∃ b, Approval.Load hashToken unmarshal (DefaultStorePath root) None fs' = inl b ∧ b !! g_Token g = Some g ∧
        ∀ t, (t < now + ttl)%Z → (now + ttl ≠ zeroTime)%Z → (DryRunCheck (mkScope action resource) t b).1 = StatusPass
  | (inr _, fs') => fs' !! DefaultStorePath root = fs !! DefaultStorePath root
  end.
Proof.
  intros Hcodec. unfold Approve. destruct (Approval.Load _ _ _ readErr fs) as [b|err] eqn:El; [|done]. apply Load_keyed in El as [Hk Hh].
  unfold Grant_. simpl. destruct (String.eqb action ""); [done|]. destruct (String.eqb_spec approvedBy "") as [|Hby]; [done|].
  destruct (ttl <=? 0)%Z; [done|]. destruct rnd as [token|]; [|done].
  set (g := mkGrant token (hashToken token) (mkScope action resource) approvedBy now (now + ttl) false).
  set (b' := <[token := g]> (pruneLocked now b)).
  assert (keyed_by_token b' ∧ hashed hashToken b') as [Hk' Hh'].
  { split; intros k g' [[<- <-]|[_ [? _]%prune_lookup]]%lookup_insert_Some; [done|by apply Hk|done|by apply (Hh k)]. }
  unfold Save. pose proof (string_app_ne (DefaultStorePath root) ".tmp" ltac:(done)) as Hne. destruct (marshal _) as [data|err] eqn:Em; [|done].
  destruct (io_mkdir io); [done|]. destruct (io_write io); [destruct (io_partial io); [by rewrite lookup_insert_ne|done]|].
  destruct (io_rename io); [by rewrite lookup_insert_ne|]. split; [done|]. split; [done|]. split; [done|]. exists b'.
  unfold Approval.Load. rewrite lookup_insert, decide_True by done. rewrite (Hcodec _ _ Em). split; [f_equal; by apply load_stored|].
  assert (b' !! token = Some g) as Hg by (unfold b'; rewrite lookup_insert; by rewrite decide_True). split; [exact Hg|].
  intros t Ht Hz. unfold DryRunCheck. pose proof (findMatch_spec "" (mkScope action resource) t b' Hk') as [_ Hm].
  destruct (findMatch "" (mkScope action resource) t b') as [[g'|] b2]; [done|]. simpl in Hm.
  destruct (Hm token g Hg); [|done|done]. split; [done|]. unfold expired, g. simpl. apply Z.eqb_neq in Hz. rewrite Hz.
  apply negb_false_iff. by apply Z.ltb_lt.
Qed.
End approvals.
Definition oneGrant : Grant := mkGrant "t1" "t1" (mkScope "release" "") "ann" 5 105 false.
(** A codec that knows one list. *)
#[export] Instance storedGrant_eq_dec : EqDecision storedGrant.
Proof. solve_decision. Defined.
Definition oneMarshal (gs : list storedGrant) : string + error := if decide (gs = [toStored oneGrant]) then inl "grants" else inr (New "unknown").
Definition oneUnmarshal (_ : string) : list storedGrant + error := inl [toStored oneGrant].
Lemma approve_visible_witness :
  let r := Approve id oneMarshal oneUnmarshal "/repo" "release" "" "ann" 100 5 (inl "t1") None (mkSaveIO None None None None) ∅ in
  r.1 = inl oneGrant ∧ ∃ b, Approval.Load id oneUnmarshal (DefaultStorePath "/repo") None r.2 = inl b ∧
    (DryRunCheck (mkScope "release" "") 50 b).1 = StatusPass.
Proof.
  intros r. assert (r.1 = inl oneGrant) as E by (vm_compute; reflexivity). split; [exact E|].
  pose proof (approve_visible id oneMarshal oneUnmarshal "/repo" "release" "" "ann" 100 5 (inl "t1") None (mkSaveIO None None None None) ∅) as H.
  fold r in H. destruct r as [r1 fs']. simpl in E. subst r1. destruct H as (_ & _ & _ & b & H1 & _ & H2).
  - intros gs data. unfold oneMarshal. case_decide as Hg; [|discriminate]. intros _. rewrite Hg. reflexivity.
  - exists b. split; [exact H1|]. apply H2; [reflexivity|discriminate].
Defined.

(** ** Envelopes *)

Lemma validated_commit e : Envelope.Validate e = None → rs_Commit (en_Repository e) ≠ "".
Proof.
  unfold Envelope.Validate. rewrite errors_Join_None, Forall_fmap, !Forall_app. intros (_ & _ & H & _).
  destruct (String.eqb_spec (rs_Commit (en_Repository e)) ""); [|done]. by inversion H.
Qed.

(** A handoff holds the redacted results of the review, names its commit, never
    records a detached HEAD as a branch, and has passed validation. *)
Theorem handoff_exact isPrint git yaml gitFound revParse discoverRepo env root agentName baseRef headRef allowNetwork now e :
  Handoff isPrint git yaml gitFound revParse discoverRepo env root agentName baseRef headRef allowNetwork now = Some (inl e) →
  ∃ repo results, discoverRepo root = inl repo ∧ reviewRepo isPrint git yaml discoverRepo env root baseRef headRef allowNetwork = inl (repo, Some results) ∧
    en_Verification e = redactVerification <$> results ∧ rs_Path (en_Repository e) = re_Root repo ∧
    rs_Commit (en_Repository e) ≠ "" ∧ rs_Branch (en_Repository e) ≠ "HEAD" ∧ Envelope.Validate e = None.
Proof.
  unfold Handoff. destruct (reviewRepo _ _ _ _ _ _ _ _ _) as [[repo [results|]]|err] eqn:Er; [|done|done]. unfold handoffEnvelope.
  destruct (gitRevParse _ _ _ ["HEAD"]) as [commit|]; [|done]. destruct (gitRevParse _ _ _ _) as [branch|]; [|done].
  destruct (Envelope.Validate _) as [err|] eqn:Ev; [done|]. intros [= <-]. exists repo, results. split; [|split; [done|]].
  { unfold reviewRepo, discovering in Er. destruct (discoverRepo root); [|done]. destruct (loadProtectedPaths _ _ _); [|done]. by simplify_eq. }
  split; [done|]. split; [done|]. apply validated_commit in Ev as Hc. split; [done|]. split; [|done].
  simpl. by destruct (String.eqb_spec branch "HEAD").
Qed.

Lemma BuildEnvelope_valid isPrint sortJobs cfg now e : BuildEnvelope isPrint sortJobs cfg now = inl e → Envelope.Validate e = None.
Proof. unfold BuildEnvelope. destruct (Envelope.Validate _) as [err|] eqn:E; [done|]. by intros [= <-]. Qed.

(** A job is recorded as passed exactly when GitHub reported success, and every
    job is recorded. *)
Theorem ci_pass_exact isPrint sortJobs cfg now e : (∀ l, sortJobs l ≡ₚ l) → BuildEnvelope isPrint sortJobs cfg now = inl e →
  length (en_Verification e) = length (cg_Jobs cfg) ∧
  ∀ name, (∃ v, v ∈ en_Verification e ∧ vr_Name v = name ∧ vr_Status v = StatusPass) ↔ mkJobResult name "success" ∈ cg_Jobs cfg.
Proof.
  intros Hs. unfold BuildEnvelope. destruct (Envelope.Validate _) as [err|]; [done|]. intros [= <-]. simpl. unfold verificationResults. split.
  - by rewrite !length_fmap, Hs.
  - intros name. split.
    + intros (v & (v' & -> & ([n r] & -> & Hj)%list_elem_of_fmap)%list_elem_of_fmap & <- & Hp). rewrite Hs in Hj. revert Hp.
      unfold jobResultToVerification. simpl. destruct (String.eqb_spec r "success") as [->|]; [done|]. by repeat case_match.
    + intros Hj. exists (redactVerification (jobResultToVerification isPrint (mkJobResult name "success"))). split; [|done].
      apply list_elem_of_fmap. eexists. split; [done|]. apply list_elem_of_fmap. eexists. split; [done|]. by rewrite Hs.
Qed.
Lemma ci_pass_exact_witness : ∃ e, BuildEnvelope (λ _, true) id (mkConfig "/repo" "abc" "main" false [mkJobResult "test" "success"; mkJobResult "lint" "neutral"] 7) 9 = inl e ∧
  ¬ (∃ v, v ∈ en_Verification e ∧ vr_Name v = "lint" ∧ vr_Status v = StatusPass).
Proof.
  destruct (BuildEnvelope (λ _, true) id (mkConfig "/repo" "abc" "main" false [mkJobResult "test" "success"; mkJobResult "lint" "neutral"] 7) 9) as [e|err] eqn:E;
    [|exfalso; vm_compute in E; discriminate E].
  exists e. split; [reflexivity|]. intros H. apply (ci_pass_exact _ _ _ _ _ (λ l, Permutation_refl _) E) in H.
  repeat (apply elem_of_cons in H as [H|H]; [discriminate H|]). by apply not_elem_of_nil in H.
Defined.
