(* ===== verification/ReviewEngine.v ===== *)
(** The engine of the hosted review (src/services/prreview/engine/engine.go): the
    checks it runs on a tenant's checkout, and the fetch of that checkout.

    Git's answers are arbitrary; its exit is an error with the combined output.
    Base64 is a parameter. *)

From Stdlib Require Import Ascii.
From stdpp Require Import base list strings.
From S2P Require Import Prelude Paths GoStrings Provenance VerifyPlan Glob DiffScan Contract ProtectedPaths Code.

(** * The checks *)

(** [Modulex.Review]: the two checks run on goroutines of their own, each with a
    place for its result.  [None] is a panic of the secret scan. *)
Definition engineReview (isPrint : N → bool) (git : Git) (yaml : string → Contract + error) (dir baseRef headRef : string) :
    option (list VerificationResult) + error :=
  match LoadProtectedPathsAtRef git yaml dir baseRef with
  | inr err => inr err
  | inl protectedPaths =>
    match ScanSecrets git dir baseRef headRef with
    | None => inl None
    | Some secrets => inl (Some [secrets; CheckProtectedPaths isPrint git dir baseRef headRef protectedPaths])
    end
  end.

Lemma scan_category git dir baseRef headRef v : ScanSecrets git dir baseRef headRef = Some v → vr_Category v = VerificationSecretScan.
Proof.
  unfold ScanSecrets. destruct (gitDiff git dir baseRef headRef) as [diff|err]; [|by intros [= <-]].
  destruct (addedLines diff) as [added|]; [|done]. cbv zeta. by destruct (omap findingOf added); intros [= <-].
Qed.

Lemma protected_category isPrint git dir baseRef headRef protectedPaths :
  vr_Category (CheckProtectedPaths isPrint git dir baseRef headRef protectedPaths) = VerificationProtectedPaths.
Proof.
  unfold CheckProtectedPaths. destruct (bool_decide (protectedPaths = [])); [done|]. destruct (partitionGlobs protectedPaths) as [valid invalid].
  cbv zeta. destruct (ChangedFiles git dir baseRef headRef) as [changed|err]; [|done]. by destruct (bool_decide (_ = [])).
Qed.

(** The hosted review is the review of the command line without the commands the
    repository declares: same contract, same two checks, last in the same order. *)
Theorem hosted_review_equiv isPrint git yaml env dir baseRef headRef tools allowNetwork protectedPaths :
  LoadProtectedPathsAtRef git yaml dir baseRef = inl protectedPaths →
  Review isPrint git env dir baseRef headRef tools allowNetwork protectedPaths =
    match engineReview isPrint git yaml dir baseRef headRef with
    | inl (Some results) => Some ((Run env (withDir dir <$> Checks) tools allowNetwork).*1 ++ results)
    | _ => None
    end ∧
  (∀ results, engineReview isPrint git yaml dir baseRef headRef = inl (Some results) →
    vr_Category <$> results = [VerificationSecretScan; VerificationProtectedPaths]).
Proof.
  intros Hp. unfold Review, engineReview. rewrite Hp. destruct (ScanSecrets git dir baseRef headRef) as [secrets|] eqn:Es; [|done].
  split; [done|]. intros results [= <-]. apply scan_category in Es. cbn [fmap list_fmap]. by rewrite Es, protected_category.
Qed.

(** * Tokens *)

(** [strings.ReplaceAll(s, old, new)] of a non-empty [old]; [skip] is how much of
    a match is still to be passed. *)
Fixpoint replaceFrom (old new : string) (skip : nat) (s : string) : string :=
  match s with
  | EmptyString => EmptyString
  | String a s' =>
    match skip with
    | S skip => replaceFrom old new skip s'
    | O => if HasPrefix s old then new +:+ replaceFrom old new (pred (String.length old)) s' else String a (replaceFrom old new 0 s')
    end
  end.
Definition redactToken (s token : string) : string :=
  if String.eqb token "" then s else replaceFrom token "***" 0 s.
Definition isHexRune (a : ascii) : bool := byte_in 48 57 a || byte_in 97 102 a.
Definition isCommitSHA (ref : string) : bool :=
  (String.length ref =? 40) && forallb isHexRune (String.list_ascii_of_string ref).

(** ** Nothing of the token is left *)

Fixpoint noStar (s : string) : Prop := match s with EmptyString => True | String a s => a ≠ "*"%char ∧ noStar s end.
Lemma prefix_cons a b p s : String.prefix (String a p) (String b s) = true ↔ a = b ∧ String.prefix p s = true.
Proof. simpl. destruct (ascii_dec a b) as [->|]; [tauto|]. split; [done|by intros [? _]]. Qed.

(** A prefix without a star of the text redacted was one of the text. *)
Lemma redacted_prefix token w : ∀ skip s, noStar w → skip = 0 → String.prefix w (replaceFrom token "***" skip s) = true → String.prefix w s = true.
Proof.
  induction w as [|b w IH]; intros skip s Hw -> Hp; [by destruct s|]. destruct Hw as [Hb Hw]. destruct s as [|a s]; [done|]. cbn [replaceFrom] in Hp.
  destruct (HasPrefix (String a s) token); [change ("***" +:+ ?x) with (String "*" ("**" +:+ x)) in Hp; by apply prefix_cons in Hp as [? _]|].
  apply prefix_cons in Hp as [-> Hp]. apply prefix_cons. split; [done|]. by eapply IH.
Qed.
Lemma redacted_clean token s : token ≠ "" → noStar token → ∀ skip, Contains (replaceFrom token "***" skip s) token = false.
Proof.
  intros Hne Hs. assert (∀ x, HasPrefix (String "*" x) token = false) as Hstar.
  { intros x. destruct token as [|b t]; [done|]. destruct Hs as [Hb _]. unfold HasPrefix. simpl. destruct (ascii_dec b "*"); [done|done]. }
  induction s as [|a s IH]; intros skip; [by destruct token|]. cbn [replaceFrom]. destruct skip as [|skip]; [|apply IH].
  destruct (HasPrefix (String a s) token) eqn:E.
  - generalize (replaceFrom token "***" (pred (String.length token)) s) (IH (pred (String.length token))). intros x Hx.
    change ("***" +:+ x) with (String "*" (String "*" (String "*" x))). cbn [Contains]. by rewrite !Hstar, Hx.
  - cbn [Contains]. rewrite IH, orb_false_r. destruct (HasPrefix (String a (replaceFrom token "***" 0 s)) token) eqn:E2; [|done].
    exfalso. assert (HasPrefix (String a s) token = true) as E3; [|congruence].
    apply (redacted_prefix token token 0 (String a s) Hs eq_refl). cbn [replaceFrom]. by rewrite E.
Qed.

(** ** What is shown instead *)

(** A text with every occurrence of the token, from the left, replaced by stars. *)
Definition redacted (token out shown : string) : Prop :=
  ∃ pieces, pieces ≠ [] ∧ Forall (λ p, Contains p token = false) pieces ∧ out = JoinWith token pieces ∧ shown = JoinWith "***" pieces.

Lemma replace_skip old new s : ∀ n t, String.length t = n → replaceFrom old new n (t +:+ s) = replaceFrom old new 0 s.
Proof.
  intros n t. revert n. induction t as [|a t IH]; intros n <-; [done|]. change (String a t +:+ s) with (String a (t +:+ s)). simpl. by apply IH.
Qed.
Lemma replace_redacted token : token ≠ "" → ∀ n s, String.length s ≤ n → redacted token s (replaceFrom token "***" 0 s).
Proof.
  intros Hne. induction n as [|n IH]; intros [|a s] Hl; simpl in Hl; try lia; try (exists [""]; repeat constructor; [done|by destruct token]).
  cbn [replaceFrom]. destruct (HasPrefix (String a s) token) eqn:E.
  - apply prefix_str in E as [t E]. destruct token as [|b token']; [done|]. injection E as <- E. subst s.
    rewrite (replace_skip (String a token') "***" t) by done.
    assert (String.length t ≤ n) as Ht by (rewrite length_str_app in Hl; lia).
    destruct (IH t Ht) as (pieces & Hp & Hf & E1 & E2). exists ("" :: pieces). split; [done|]. split; [by constructor|].
    rewrite E2 at 1. rewrite E1 at 1. unfold JoinWith. by destruct pieces.
  - destruct (IH s ltac:(lia)) as (pieces & Hp & Hf & E1 & E2). destruct pieces as [|p ps]; [done|]. exists (String a p :: ps).
    apply Forall_cons in Hf as [Hp1 Hf]. split; [done|]. split; [constructor; [|done]|].
    + cbn [Contains]. rewrite Hp1, orb_false_r. destruct (HasPrefix (String a p) token) eqn:E3; [|done].
      apply prefix_str in E3 as [t E3]. assert (∃ u, String a s = token +:+ u) as [u Eu].
      { rewrite E1. unfold JoinWith. destruct ps as [|q ps]; [by exists t|]. exists (t +:+ (token +:+ String.concat token (q :: ps))).
        by rewrite <- str_app_assoc, <- E3. }
      rewrite Eu in E. unfold HasPrefix in E. by rewrite prefix_app_str in E.
    + unfold JoinWith in *. rewrite E2, E1. by destruct ps.
Qed.

(** * The fetch *)

Definition BaseRefName : string := "prreview-base".
(** A git command has its arguments and its environment. *)
Inductive EOp :=
  | EMkdirTemp
  | EGit (args env : list string)                (* the combined output, and the error *)
  | ERemoveAll (dir : string).
Definition ERes (o : EOp) : Type := match o with EMkdirTemp => string + error | EGit _ _ => string * option error | ERemoveAll _ => unit end.

Section fetch.
Context (base64 : string → string) (environ : list string).
Context (cloneURL token baseRef headSHA : string).

Definition basicAuth (user token : string) : string := base64 (user +:+ ":" +:+ token).
Definition authEnv : list string :=
  ["GIT_CONFIG_COUNT=1"; "GIT_CONFIG_KEY_0=http." +:+ cloneURL +:+ ".extraheader";
   "GIT_CONFIG_VALUE_0=" +:+ "Authorization: Basic " +:+ basicAuth "x-access-token" token].
Definition runGit (dir : string) (args : list string) : Code ERes (option error) :=
  r ← call (EGit (["-C"; dir] ++ args) (environ ++ authEnv));
  let '(out, err) := (r : string * option error) in
  mret (match err with
        | Some err => Some (Errorf "git %s: %w: %s" [JoinWith " " args; redactToken out token] [err])
        | None => None
        end).
Definition baseFetch : list string :=
  if isCommitSHA baseRef then ["fetch"; "--quiet"; "--filter=blob:none"; "origin"; baseRef]
  else ["fetch"; "--quiet"; "--filter=blob:none"; "origin"; "+refs/heads/" +:+ baseRef +:+ ":refs/heads/" +:+ BaseRefName].
Definition fetchSteps : list (list string) :=
  [["init"; "--quiet"]; ["remote"; "add"; "origin"; cloneURL]; ["fetch"; "--quiet"; "--filter=blob:none"; "origin"; headSHA]; baseFetch] ++
  (if isCommitSHA baseRef then [["branch"; "--quiet"; BaseRefName; baseRef]] else []) ++
  [["checkout"; "--quiet"; headSHA]].
Definition warmUpArgs : list string := ["diff"; "--unified=0"; "--no-color"; BaseRefName +:+ "...HEAD"].
Fixpoint runSteps (dir : string) (steps : list (list string)) : Code ERes (option error) :=
  match steps with
  | [] => mret None
  | step :: steps =>
    err ← runGit dir step;
    match (err : option error) with Some err => mret (Some err) | None => runSteps dir steps end
  end.
(** The directory, for which the caller then runs the cleanup. *)
Definition Fetch : Code ERes (string + error) :=
  d ← call EMkdirTemp;
  match (d : string + error) with
  | inr err => mret (inr err)
  | inl dir =>
    err ← runSteps dir fetchSteps;
    match (err : option error) with
    | Some err => call (ERemoveAll dir) ;; mret (inr err)
    | None =>
      err ← runGit dir warmUpArgs;
      match (err : option error) with
      | Some err => call (ERemoveAll dir) ;; mret (inr (Errorf "warming blobs for diff-time checks: %w" [] [err]))
      | None => mret (inl dir)
      end
    end
  end.
(** [GitFetcher.Diff], as one git command. *)
Definition Diff (dir baseRef headRef : string) : Code ERes (string + error) :=
  r ← call (EGit ["-C"; dir; "diff"; baseRef +:+ "..." +:+ headRef] environ);
  mret (match (r : string * option error) with
        | (_, Some err) => inr (Errorf "git diff: %w" [] [err])
        | (out, None) => inl out
        end).
End fetch.

(** * What the fetch does *)

Section fetch_runs.
Context (base64 : string → string) (environ : list string) (cloneURL token baseRef headSHA : string).
Abbreviation env := (environ ++ authEnv base64 cloneURL token).

(** A base given as a commit: forty lower-case hexadecimal digits. *)
Definition commitSHA (ref : string) : Prop :=
  String.length ref = 40 ∧ ∀ a, a ∈ String.list_ascii_of_string ref → a ∈ String.list_ascii_of_string "0123456789abcdef".
(** The commands of a fetch, in order: the head and the base are fetched without
    blobs, the base under a name of its own, the head is checked out, and the diff
    of the two checks brings the blobs.  The token is no argument of theirs. *)
Inductive planned : list (list string) → Prop :=
  | plan_commit : commitSHA baseRef → planned [
      ["init"; "--quiet"]; ["remote"; "add"; "origin"; cloneURL];
      ["fetch"; "--quiet"; "--filter=blob:none"; "origin"; headSHA]; ["fetch"; "--quiet"; "--filter=blob:none"; "origin"; baseRef];
      ["branch"; "--quiet"; "prreview-base"; baseRef]; ["checkout"; "--quiet"; headSHA];
      ["diff"; "--unified=0"; "--no-color"; "prreview-base...HEAD"]]
  | plan_branch : ¬ commitSHA baseRef → planned [
      ["init"; "--quiet"]; ["remote"; "add"; "origin"; cloneURL];
      ["fetch"; "--quiet"; "--filter=blob:none"; "origin"; headSHA];
      ["fetch"; "--quiet"; "--filter=blob:none"; "origin"; "+refs/heads/" +:+ baseRef +:+ ":refs/heads/prreview-base"];
      ["checkout"; "--quiet"; headSHA];
      ["diff"; "--unified=0"; "--no-color"; "prreview-base...HEAD"]].

Lemma hexRune_exact a : isHexRune a = true ↔ a ∈ String.list_ascii_of_string "0123456789abcdef".
Proof.
  assert (∀ a, isHexRune a = bool_decide (a ∈ String.list_ascii_of_string "0123456789abcdef")) as H.
  { intros [[] [] [] [] [] [] [] []]; vm_compute; reflexivity. }
  by rewrite H, bool_decide_eq_true.
Qed.
Lemma isCommitSHA_exact ref : isCommitSHA ref = true ↔ commitSHA ref.
Proof.
  unfold isCommitSHA, commitSHA. rewrite andb_true_iff, Nat.eqb_eq, forallb_forall. setoid_rewrite hexRune_exact.
  by setoid_rewrite <- list_elem_of_In.
Qed.
Lemma fetchSteps_planned : planned (fetchSteps cloneURL baseRef headSHA ++ [warmUpArgs]).
Proof.
  unfold fetchSteps, baseFetch. pose proof (isCommitSHA_exact baseRef) as H.
  destruct (isCommitSHA baseRef); simpl; [apply plan_commit; by apply H|apply plan_branch; by intros ?%H].
Qed.

(** A git command in a directory, with its answer. *)
Definition ran (dir : string) (step : list string) (out : string) (err : option error) : sigT ERes :=
  existT (EGit (["-C"; dir] ++ step) env) (out, err).
Definition gitFailure (step : list string) (out : string) (err : error) : error :=
  Errorf "git %s: %w: %s" [JoinWith " " step; redactToken out token] [err].

(** The steps all succeed, or end at the first that fails. *)
Lemma runSteps_exact {A} dir (k : option error → Code ERes A) a : ∀ steps tr,
  runs ERes (runSteps base64 environ cloneURL token dir steps ≫= k) tr (Ret a) →
  (∃ outs tr', length outs = length steps ∧ tr = zip_with (λ step out, ran dir step out None) steps outs ++ tr' ∧ runs ERes (k None) tr' (Ret a)) ∨
  (∃ before step after outs out err tr', steps = before ++ step :: after ∧ length outs = length before ∧
     tr = zip_with (λ step out, ran dir step out None) before outs ++ ran dir step out (Some err) :: tr' ∧
     runs ERes (k (Some (gitFailure step out err))) tr' (Ret a)).
Proof.
  induction steps as [|step steps IH]; intros tr H; [left; by exists [], tr|].
  apply runs_ret in H as ([out [err|]] & tr' & -> & H).
  - right. by exists [], step, steps, [], out, err, tr'.
  - apply IH in H as [(outs & tr2 & Hl & -> & H)|(before & step' & after & outs & out' & err & tr2 & -> & Hl & -> & H)].
    + left. exists (out :: outs), tr2. simpl. by rewrite Hl.
    + right. exists (step :: before), step', after, (out :: outs), out', err, tr2. simpl. by rewrite Hl.
Qed.

(** C32. A fetch ends in one of three ways: no directory is made; every command of
    the plan ([planned]) succeeds, in order, and the directory is handed over; or
    the commands stop at the first that fails, the directory is removed, and
    nothing else follows.  The failure shows the command, and git's output with
    every occurrence of the token replaced by stars: none is left, for a token
    without a star. *)
Theorem fetch_exact tr r :
  runs ERes (Fetch base64 environ cloneURL token baseRef headSHA) tr (Ret r) → token ≠ "" → noStar token →
  (∃ err, tr = [existT EMkdirTemp (inr err)] ∧ r = inr err) ∨
  ∃ (dir : string) plan, planned plan ∧
   ((∃ outs, length outs = length plan ∧ r = inl dir ∧
      tr = existT EMkdirTemp (inl dir) :: zip_with (λ step out, ran dir step out None) plan outs) ∨
    (∃ before step after outs out err shown, plan = before ++ step :: after ∧ length outs = length before ∧
      tr = existT EMkdirTemp (inl dir) :: zip_with (λ step out, ran dir step out None) before outs ++
           [ran dir step out (Some err); existT (ERemoveAll dir) ()] ∧
      (let failure := Errorf "git %s: %w: %s" [JoinWith " " step; shown] [err] in
       r = inr (match after with [] => Errorf "warming blobs for diff-time checks: %w" [] [failure] | _ => failure end)) ∧
      redacted token out shown ∧ Contains shown token = false)).
Proof.
  intros H Ht Hs. assert (∀ out, redacted token out (redactToken out token) ∧ Contains (redactToken out token) token = false) as Hclean.
  { intros out. unfold redactToken. rewrite (proj2 (String.eqb_neq _ _) Ht). split; [by eapply replace_redacted|by apply redacted_clean]. }
  apply runs_ret in H as ([dir|err] & tr' & -> & H); [|apply runs_ret in H as [-> <-]; left; by exists err].
  right. exists dir, (fetchSteps cloneURL baseRef headSHA ++ [warmUpArgs]). split; [apply fetchSteps_planned|].
  apply runSteps_exact in H as [(outs & tr2 & Hl & -> & H)|(before & step & after & outs & out & err & tr2 & Hp & Hl & -> & H)].
  - apply runs_ret in H as ([out [err|]] & tr3 & -> & H).
    + right. apply runs_ret in H as ([] & tr4 & -> & H). apply runs_ret in H as [-> <-].
      exists (fetchSteps cloneURL baseRef headSHA), warmUpArgs, [], outs, out, err, (redactToken out token). by split_and!; try apply Hclean.
    + left. apply runs_ret in H as [-> <-]. exists (outs ++ [out]). rewrite !length_app, Hl, zip_with_app by done. done.
  - right. apply runs_ret in H as ([] & tr4 & -> & H). apply runs_ret in H as [-> <-].
    exists before, step, (after ++ [warmUpArgs]), outs, out, err, (redactToken out token).
    rewrite Hp, <- !app_assoc. split_and!; try apply Hclean; by destruct after.
Qed.

End fetch_runs.

(** The last command of the plan is the one whose diff the two checks read, for
    the refs the worker gives them. *)
Lemma warm_up_same git dir : dir ≠ "" → gitDiff git dir BaseRefName "HEAD" = gitOutput git dir warmUpArgs ∧
  gitOutput git dir warmUpArgs = match git (["-C"; dir] ++ warmUpArgs) with
    | inl out => inl out
    | inr (err, stderr) => if String.eqb (TrimSpace stderr) "" then inr err else inr (Errorf "%w: %s" [TrimSpace stderr] [err])
    end.
Proof.
  intros Hd. split; [done|]. unfold gitOutput. rewrite (proj2 (String.eqb_neq _ _) Hd). cbn [negb].
  destruct (git _) as [|[err stderr]]; [done|]. by destruct (String.eqb (TrimSpace stderr) "").
Qed.

(** A fetch that fails at its first command, whose output shows the token. *)
Definition demo_fetch : list (sigT ERes) :=
  [existT EMkdirTemp (inl "/tmp/d");
   ran (λ s, s) [] "https://host/r.git" "tok" "/tmp/d" ["init"; "--quiet"] "bad tok" (Some (New "exit status 128"));
   existT (ERemoveAll "/tmp/d") ()].
Lemma fetch_exact_witness :
  runs ERes (Fetch (λ s, s) [] "https://host/r.git" "tok" "main" "abc") demo_fetch
    (Ret (inr (Errorf "git %s: %w: %s" ["init --quiet"; "bad ***"] [New "exit status 128"]))) ∧
  ∃ step shown err, Errorf "git %s: %w: %s" ["init --quiet"; "bad ***"] [New "exit status 128"] =
    Errorf "git %s: %w: %s" [JoinWith " " step; shown] [err] ∧ redacted "tok" "bad tok" shown ∧ Contains shown "tok" = false.
Proof.
  assert (runs ERes (Fetch (λ s, s) [] "https://host/r.git" "tok" "main" "abc") demo_fetch
    (Ret (inr (Errorf "git %s: %w: %s" ["init --quiet"; "bad ***"] [New "exit status 128"])))) as Hr.
  { repeat (simpl; constructor). }
  split; [exact Hr|].
  assert ("tok" ≠ "" ∧ noStar "tok") as [Ht Hn]; [repeat split; discriminate|].
  destruct (fetch_exact _ _ _ _ _ _ _ _ Hr Ht Hn)
    as [(err & H & _)|(dir & plan & Hplan & [(outs & _ & H & _)|(before & step & after & outs & out & err & shown & Hp & Hl & Htr & H & Hred & Hs)])];
    [apply (f_equal length) in H; discriminate H|discriminate H|].
  assert (out = "bad tok" ∧ before = []) as [-> ->].
  { apply (f_equal length) in Htr as Hlen. cbn in Hlen. rewrite length_app, length_zip_with in Hlen. cbn in Hlen.
    destruct before as [|x before]; [|destruct outs; cbn in Hl, Hlen; lia]. split; [|done].
    apply (f_equal (fmap (λ e : sigT ERes, match e with existT (EGit _ _) r => r.1 | _ => "" end))) in Htr. cbn in Htr. by injection Htr. }
  exists step, shown, err. split; [|split; [exact Hred|exact Hs]]. destruct after; [destruct Hplan; discriminate Hp|]. injection H as -> -> ->. reflexivity.
Defined.

Definition demo_engine_git : Git := λ args,
  if decide (args = ["show"; "main:modulex.agent.yaml"]) then inr (New "exit status 128", "fatal: path 'modulex.agent.yaml' does not exist in 'main'")
  else inl "".
Lemma hosted_review_equiv_witness :
  ∃ results, engineReview (λ _, true) demo_engine_git (λ _, inr (New "not read")) "" "main" "HEAD" = inl (Some results) ∧
    vr_Category <$> results = [VerificationSecretScan; VerificationProtectedPaths].
Proof.
  destruct (hosted_review_equiv (λ _, true) demo_engine_git (λ _, inr (New "not read")) (λ _, mkEnv (λ _, false) false (λ _ _, ("", None)) None (λ _ _, ("", None)) 0) "" "main" "HEAD" [] false [])
    as [_ H]; [vm_compute; reflexivity|].
  eexists. split; [vm_compute; reflexivity|]. apply H. vm_compute. reflexivity.
Defined.
