(* ===== verification/Render.v ===== *)
(** Reports as text: the summary of a contract (src/contract/render.go) and that
    of verification results (src/verify/render.go).

    The upper-case forms of runes outside ASCII are a parameter. *)

From Stdlib Require Import Ascii.
From stdpp Require Import base list strings pretty sorting.
From S2P Require Import Prelude Provenance Regex Paths GoStrings Approval Envelope Contract DiffScan.

Section render.
Context (toUpper : string → string).

(** [fmt.Fprintf] with a newline at the end, and the pieces written one after
    another. *)
Definition line (s : string) : string := s +:+ nlString.
Definition writes (l : list string) : string := JoinWith "" l.
Definition each {A} (f : A → string) (l : list A) : string := writes (f <$> l).
(** A suffix for a value that is not empty. *)
Definition suffixed (before value after : string) : string := if String.eqb value "" then "" else before +:+ value +:+ after.
(** A section that is left out when there is nothing in it. *)
Definition section (empty : bool) (body : list string) : string := if empty then "" else writes body.
Definition noItems {A} (l : list A) : bool := match l with [] => true | _ => false end.

(** * The contract *)

Definition renderNameList (label : string) (names : list string) : string :=
  section (noItems names) [label +:+ ": " +:+ JoinWith ", " names; nlString; nlString].
Definition renderPathList (title : string) (paths : list string) : string :=
  section (noItems paths) [line title; each (λ p, line ("  - " +:+ p)) paths; nlString].
Definition renderProject (p : Project) : string :=
  line ("  - " +:+ pj_Name p +:+ " (" +:+ pj_Path p +:+ ")" +:+ suffixed " [module: " (pj_ModulePath p) "]")
  +:+ suffixed "      " (pj_Description p) nlString
  +:+ each (λ root, line ("      composition root: " +:+ root)) (pj_CompositionRoots p).
Definition renderProjects (projects : list Project) : string :=
  section (noItems projects) [line "Projects:"; each renderProject projects; nlString].
Definition renderInstructions (ins : InstructionPrecedence) : string :=
  section (noItems (ip_Files ins))
    [line "Instruction files (precedence order):";
     each (λ f, line ("  " +:+ showZ (if_Priority f) +:+ ". " +:+ if_Path f +:+ suffixed " — " (if_Notes f) "")) (ip_Files ins);
     suffixed "  precedence rule: " (ip_Rule ins) nlString; nlString].
Definition renderBoundaries (boundaries : list Boundary) : string :=
  section (noItems boundaries)
    [line "Boundaries:"; each (λ b, line ("  - " +:+ bd_Name b +:+ suffixed ": " (bd_Rule b) "")) boundaries; nlString].
Definition renderCommands (commands : list CommandDecl) : string :=
  section (noItems commands)
    [line "Commands:";
     each (λ c, line ("  [" +:+ toUpper (cd_Class c) +:+ "] " +:+ cd_Name c +:+ " (" +:+ cd_Command c +:+ ")" +:+ suffixed " — " (cd_Reason c) "")) commands;
     nlString].
Definition renderVerification (v : VerificationDecl) : string :=
  section (noItems (vd_Focused v) && noItems (vd_Full v))
    [line "Verification:";
     each (λ k, line ("  focused: " +:+ ck_Name k +:+ " (" +:+ ck_Command k +:+ ")")) (vd_Focused v);
     each (λ k, line ("  full: " +:+ ck_Name k +:+ " (" +:+ ck_Command k +:+ ")")) (vd_Full v); nlString].
Definition renderServices (services : list OptionalService) : string :=
  section (noItems services)
    [line "Optional services:"; each (λ s, line ("  - " +:+ os_Name s +:+ suffixed ": " (os_Description s) "")) services; nlString].

Definition protectedTitle : string := "Protected paths (require explicit human approval to modify):".
Definition contractSections (c : Contract) : list string :=
  [line ("Modulex Agent Contract (schema " +:+ ct_SchemaVersion c +:+ ")") +:+ nlString;
   renderProjects (ct_Projects c); renderInstructions (ct_Instructions c); renderBoundaries (ct_Boundaries c);
   renderCommands (ct_Commands c); renderVerification (ct_Verification c);
   renderPathList protectedTitle (ct_ProtectedPaths c);
   renderPathList "Generated paths (do not hand-edit):" (ct_GeneratedPaths c);
   renderNameList "Required tools" (ct_RequiredTools c); renderServices (ct_OptionalServices c);
   renderNameList "Required credentials (names only, no values)" (ct_RequiredCredentials c);
   suffixed "Handoff format: " (ct_HandoffFormat c) nlString].
Definition RenderContract (c : Contract) : string := writes (contractSections c).

(** * Durations

    [time.Duration.String]: the fraction without its trailing zeros, then the
    units that are not zero. *)

Fixpoint fmtFrac (prec : nat) (v : Z) (print : bool) (after : string) : string * Z :=
  match prec with
  | O => ((if print then "." +:+ after else after), v)
  | S prec =>
    let digit := (v mod 10)%Z in
    let print := print || negb (Z.eqb digit 0) in
    fmtFrac prec (v / 10) print (if print then showZ digit +:+ after else after)
  end.
Definition Duration_String (d : Z) : string :=
  let u := Z.abs d in
  let text :=
    if Z.eqb u 0 then "0s"
    else if (u <? 1000)%Z then showZ u +:+ "ns"
    else if (u <? 1000000)%Z then let '(frac, u) := fmtFrac 3 u false "µs" in showZ u +:+ frac
    else if (u <? 1000000000)%Z then let '(frac, u) := fmtFrac 6 u false "ms" in showZ u +:+ frac
    else
      let '(frac, u) := fmtFrac 9 u false "s" in
      let seconds := showZ (u mod 60) +:+ frac in
      let u := (u / 60)%Z in
      if Z.eqb u 0 then seconds
      else
        let minutes := showZ (u mod 60) +:+ "m" +:+ seconds in
        let u := (u / 60)%Z in
        if Z.eqb u 0 then minutes else showZ u +:+ "h" +:+ minutes in
  if (d <? 0)%Z then "-" +:+ text else text.

(** * Verification results *)

(** [strings.TrimRight(s, "\n")]. *)
Fixpoint dropNewlines (l : list ascii) : list ascii := match l with a :: l' => if Ascii.eqb a newline then dropNewlines l' else l | [] => [] end.
Definition TrimRightNewlines (s : string) : string :=
  String.string_of_list_ascii (reverse (dropNewlines (reverse (String.list_ascii_of_string s)))).
(** [strings.ReplaceAll(s, "\n", "\n    ")]. *)
Fixpoint indentLines (s : string) : string :=
  match s with
  | EmptyString => EmptyString
  | String a s => if Ascii.eqb a newline then nlString +:+ "    " +:+ indentLines s else String a (indentLines s)
  end.
Definition renderMessage (message : string) : string :=
  if String.eqb message "" then "" else line ("    " +:+ indentLines (TrimRightNewlines message)).
Definition renderResult (r : VerificationResult) : string :=
  line ("[" +:+ toUpper (vr_Status r) +:+ "] " +:+ vr_Name r +:+ " (" +:+ Duration_String (vr_Duration r) +:+ ")" +:+ suffixed " — " (vr_Reason r) "")
  +:+ renderMessage (vr_Message r).

(** The map of the results by category, and the categories in the order they are
    first seen. *)
Fixpoint addCategory (categories : list string) (results : list VerificationResult) : list string :=
  match results with
  | [] => categories
  | r :: results => addCategory (if bool_decide (vr_Category r ∈ categories) then categories else categories ++ [vr_Category r]) results
  end.
Definition byCategory (results : list VerificationResult) (cat : string) : list VerificationResult :=
  filter (λ r, vr_Category r = cat) results.
Definition RenderText (results : list VerificationResult) : string :=
  if noItems results then line "no verification results"
  else each (λ cat, line ("=== " +:+ cat +:+ " ===") +:+ each renderResult (byCategory results cat) +:+ nlString)
         (sort_Strings (addCategory [] results)).
End render.

Example Duration_String_ex :
  Duration_String <$> [0; 1; 1100; 2200000; 3300000000; 65001000000; 365000000000; 3661000000000; -1500000000; 1000000000]%Z =
  ["0s"; "1ns"; "1.1µs"; "2.2ms"; "3.3s"; "1m5.001s"; "6m5s"; "1h1m1s"; "-1.5s"; "1s"].
Proof. vm_compute. reflexivity. Qed.

(** * What the texts show *)

(** ** Lines *)

Lemma Lines_nl a b : Lines (a +:+ nlString +:+ b) = Lines a ++ Lines b.
Proof.
  induction a as [|x a IH]; [done|]. change (String x a +:+ nlString +:+ b) with (String x (a +:+ nlString +:+ b)).
  unfold Lines in *. cbn [SplitByte]. destruct (Ascii.eqb x newline); [by rewrite IH|]. rewrite IH.
  destruct (SplitByte newline a) eqn:E; [by apply SplitByte_ne in E|done].
Qed.
Lemma str_app_nil s : s +:+ "" = s.
Proof. induction s as [|a s IH]; [done|]. change (String a s +:+ "") with (String a (s +:+ "")). by rewrite IH. Qed.
Lemma writes_cons s l : writes (s :: l) = s +:+ writes l.
Proof. unfold writes, JoinWith. destruct l as [|t l]; simpl; [by rewrite str_app_nil|done]. Qed.
Lemma writes_app l k : writes (l ++ k) = writes l +:+ writes k.
Proof. induction l as [|s l IH]; [done|]. simpl app. by rewrite !writes_cons, IH, str_app_assoc. Qed.

(** An item of a section with a title stands on a line of its own. *)
Lemma titled_line {A} title (f : A → string) (l : list A) x rest : x ∈ l → newline ∉ String.list_ascii_of_string (f x) →
  ∃ a b, writes (line title :: each (λ y, line (f y)) l :: rest) = a +:+ nlString +:+ f x +:+ nlString +:+ b.
Proof.
  intros Hx _. apply list_elem_of_split in Hx as (l1 & l2 & ->).
  assert (∀ pre l1, ∃ a, pre +:+ nlString +:+ each (λ y, line (f y)) l1 = a +:+ nlString) as Hends.
  { intros pre. induction l0 as [|y l0 IH] using rev_ind; [exists pre; by rewrite str_app_nil|].
    unfold each. rewrite fmap_app, writes_app. simpl. unfold writes at 2, line at 2. simpl.
    exists (pre +:+ nlString +:+ each (λ y, line (f y)) l0 +:+ f y). by rewrite !str_app_assoc. }
  destruct (Hends title l1) as [a Ha]. exists a, (each (λ y, line (f y)) l2 +:+ writes rest).
  rewrite !writes_cons. unfold each at 1. rewrite fmap_app, fmap_cons, writes_app, writes_cons. fold (each (λ y, line (f y)) l1) (each (λ y, line (f y)) l2).
  unfold line at 1 3. rewrite !str_app_assoc. rewrite <- (str_app_assoc nlString), <- (str_app_assoc title), Ha. by rewrite !str_app_assoc.
Qed.
Lemma section_line (s : string) sections a b x : s ∈ sections → s = a +:+ nlString +:+ x +:+ nlString +:+ b →
  newline ∉ String.list_ascii_of_string x → x ∈ Lines (writes sections).
Proof.
  intros (l1 & l2 & ->)%list_elem_of_split -> Hx. rewrite writes_app, writes_cons.
  replace (writes l1 +:+ (a +:+ nlString +:+ x +:+ nlString +:+ b) +:+ writes l2)
    with ((writes l1 +:+ a) +:+ nlString +:+ x +:+ nlString +:+ (b +:+ writes l2)) by (by rewrite !str_app_assoc).
  rewrite !Lines_nl. unfold Lines at 2. rewrite SplitByte_last by done. apply elem_of_app. right. left.
Qed.

(** The summary of a contract shows every protected path and every command, with
    its class, on a line of its own. *)
Lemma contract_text_lists toUpper c :
  (∀ p, p ∈ ct_ProtectedPaths c → newline ∉ String.list_ascii_of_string ("  - " +:+ p) → ("  - " +:+ p) ∈ Lines (RenderContract toUpper c)) ∧
  (∀ d, d ∈ ct_Commands c → let shown := "  [" +:+ toUpper (cd_Class d) +:+ "] " +:+ cd_Name d +:+ " (" +:+ cd_Command d +:+ ")" +:+ suffixed " — " (cd_Reason d) "" in
    newline ∉ String.list_ascii_of_string shown → shown ∈ Lines (RenderContract toUpper c)).
Proof.
  split.
  - intros p Hp Hn. destruct (titled_line protectedTitle (λ p, "  - " +:+ p) _ p [nlString] Hp Hn) as (a & b & E).
    eapply section_line; [|exact E|exact Hn]. unfold contractSections, renderPathList, section. destruct (ct_ProtectedPaths c); [by apply not_elem_of_nil in Hp|].
    do 6 right. left.
  - intros d Hd shown Hn. destruct (titled_line "Commands:"
      (λ c, "  [" +:+ toUpper (cd_Class c) +:+ "] " +:+ cd_Name c +:+ " (" +:+ cd_Command c +:+ ")" +:+ suffixed " — " (cd_Reason c) "") _ d [nlString] Hd Hn) as (a & b & E).
    eapply section_line; [|exact E|exact Hn]. unfold contractSections, renderCommands, section. destruct (ct_Commands c); [by apply not_elem_of_nil in Hd|].
    do 4 right. left.
Qed.

(** ** Results *)

Lemma addCategory_spec results : ∀ cats, NoDup cats →
  NoDup (addCategory cats results) ∧ ∀ cat, cat ∈ addCategory cats results ↔ cat ∈ cats ∨ cat ∈ vr_Category <$> results.
Proof.
  induction results as [|r results IH]; intros cats Hnd; simpl.
  { split; [done|]. intros cat. rewrite elem_of_nil. tauto. }
  destruct (bool_decide (vr_Category r ∈ cats)) eqn:E.
  - apply bool_decide_eq_true_1 in E. destruct (IH cats Hnd) as [H1 H2]. split; [done|]. intros cat. rewrite H2, elem_of_cons.
    split; [intuition|]. intros [H| [-> |H]]; auto.
  - apply bool_decide_eq_false_1 in E. destruct (IH (cats ++ [vr_Category r])) as [H1 H2].
    { apply NoDup_app. split; [done|]. split; [|apply NoDup_singleton]. intros x Hx Hx2. apply list_elem_of_singleton in Hx2 as ->. done. }
    split; [done|]. intros cat. rewrite H2, elem_of_app, list_elem_of_singleton, elem_of_cons. tauto.
Qed.

Lemma Permutation_refl_eq {A} (l k : list A) : l = k → l ≡ₚ k.
Proof. by intros ->. Qed.

(** The results are split among their categories. *)
Lemma grouped_perm cats : NoDup cats → ∀ results, (∀ r, r ∈ results → vr_Category r ∈ cats) → mjoin (byCategory results <$> cats) ≡ₚ results.
Proof.
  induction 1 as [|cat cats Hc Hnd IH]; intros results Hin.
  { destruct results as [|r results]; [done|]. specialize (Hin r ltac:(left)). by apply not_elem_of_nil in Hin. }
  transitivity (byCategory results cat ++ filter (λ r, vr_Category r ≠ cat) results); [|apply filter_app_complement].
  change (mjoin (byCategory results <$> cat :: cats)) with (byCategory results cat ++ mjoin (byCategory results <$> cats)). f_equiv.
  rewrite <- (IH (filter (λ r, vr_Category r ≠ cat) results)).
  - apply Permutation_refl_eq. f_equal. apply list_fmap_ext. intros i x Hx. apply list_elem_of_lookup_2 in Hx. unfold byCategory.
    assert (x ≠ cat) by (by intros ->). rewrite list_filter_filter. apply list_filter_iff. intros r. intuition congruence.
  - intros r [Hr1 Hr2]%list_elem_of_filter. apply Hin in Hr2 as [H|H]%elem_of_cons; done.
Qed.

Lemma Lines_indent s : Lines ("    " +:+ s) = match Lines s with [] => [] | l :: ls => ("    " +:+ l) :: ls end.
Proof.
  unfold Lines. change ("    " +:+ s) with (String " " (String " " (String " " (String " " s)))). cbn [SplitByte].
  change (Ascii.eqb " " newline) with false. destruct (SplitByte newline s) eqn:E; [by apply SplitByte_ne in E|done].
Qed.

(** Each line of a message is indented, so that none can be read as a header or a
    verdict. *)
Lemma indentLines_lines s : Lines (indentLines s) = match Lines s with [] => [] | l :: ls => l :: ((λ l, "    " +:+ l) <$> ls) end.
Proof.
  induction s as [|a s IH]; [done|]. cbn [indentLines]. unfold Lines at 2. cbn [SplitByte]. fold (Lines s).
  destruct (Ascii.eqb a newline) eqn:E.
  - change (nlString +:+ "    " +:+ indentLines s) with ("" +:+ nlString +:+ ("    " +:+ indentLines s)). rewrite Lines_nl.
    change (Lines "") with [""]. simpl app. f_equal. rewrite Lines_indent, IH.
    destruct (Lines s) eqn:E2; done.
  - unfold Lines in IH |- *. cbn [SplitByte]. rewrite E, IH. destruct (SplitByte newline s); done.
Qed.
Lemma message_indented m : ∃ ls, Lines (renderMessage m) = ls ++ [""] ∧ Forall (λ l, HasPrefix l "    " = true) ls.
Proof.
  unfold renderMessage. destruct (String.eqb m ""); [by exists []|]. unfold line.
  replace (("    " +:+ indentLines (TrimRightNewlines m)) +:+ nlString) with (("    " +:+ indentLines (TrimRightNewlines m)) +:+ nlString +:+ "")
    by (by rewrite str_app_nil).
  rewrite Lines_nl. eexists. split; [done|]. rewrite Lines_indent, indentLines_lines.
  destruct (Lines (TrimRightNewlines m)) as [|l ls]; [done|]. constructor; [apply prefix_app_str|]. apply Forall_fmap, Forall_true. intros x. apply (prefix_app_str "    ").
Qed.

(** The text of results shows each of them once, in the order of the categories'
    names and, within one, in the order given; so it only depends on the order
    within each category.  The lines of a message are indented. *)
Theorem results_text_exact toUpper results :
  results ≠ [] →
  (∃ cats, NoDup cats ∧ Sorted String.le cats ∧ (∀ cat, cat ∈ cats ↔ ∃ r, r ∈ results ∧ vr_Category r = cat) ∧
     mjoin (byCategory results <$> cats) ≡ₚ results ∧
     RenderText toUpper results =
       each (λ cat, line ("=== " +:+ cat +:+ " ===") +:+ each (renderResult toUpper) (byCategory results cat) +:+ nlString) cats) ∧
  (∀ other, (∀ cat, byCategory other cat = byCategory results cat) → RenderText toUpper other = RenderText toUpper results) ∧
  (∀ r, r ∈ results → ∃ ls, Lines (renderMessage (vr_Message r)) = ls ++ [""] ∧ Forall (λ l, HasPrefix l "    " = true) ls).
Proof.
  intros Hne. assert (∀ results, ∀ cat, cat ∈ addCategory [] results ↔ ∃ r, r ∈ results ∧ vr_Category r = cat) as Hcat.
  { intros rs cat. rewrite (proj2 (addCategory_spec rs [] (NoDup_nil_2))). rewrite elem_of_nil, list_elem_of_fmap. split.
    - intros [[]|(r & -> & Hr)]. eauto.
    - intros (r & Hr & <-). right. eauto. }
  assert (∀ results, NoDup (addCategory [] results)) as Hnd by (intros rs; apply addCategory_spec, NoDup_nil_2).
  split; [|split; [|intros r _; apply message_indented]].
  - exists (sort_Strings (addCategory [] results)). split; [by rewrite sort_Strings_perm|]. split; [apply sort_Strings_sorted|].
    split; [intros cat; by rewrite elem_of_sort_Strings|]. split.
    + apply grouped_perm; [by rewrite sort_Strings_perm|]. intros r Hr. rewrite elem_of_sort_Strings, Hcat. eauto.
    + unfold RenderText. by destruct results.
  - intros other Heq. assert (∀ r, r ∈ other ↔ r ∈ results) as Hmem.
    { intros r. assert (∀ l, r ∈ l ↔ r ∈ byCategory l (vr_Category r)) as H by (intros l; unfold byCategory; rewrite list_elem_of_filter; tauto).
      rewrite (H other), (H results). by rewrite Heq. }
    unfold RenderText. destruct results as [|r0 results]; [done|]. destruct other as [|o other].
    { specialize (Hmem r0). assert (r0 ∈ r0 :: results) as H by left. apply Hmem in H. by apply not_elem_of_nil in H. }
    cbn [noItems]. rewrite (sort_Strings_Proper (addCategory [] (o :: other)) (addCategory [] (r0 :: results))).
    + unfold each. f_equal. apply list_fmap_ext. intros i cat _. simpl. by rewrite Heq.
    + apply NoDup_Permutation; [done..|]. intros cat. rewrite !Hcat. by setoid_rewrite Hmem.
Qed.

Definition demo_results : list VerificationResult :=
  [mkVResult "b" "test" "fail" 2200000 ("two" +:+ nlString +:+ "[PASS] lines" +:+ nlString) ""; mkVResult "a" "lint" "pass" 0 "" "quick"].
Lemma results_text_exact_witness :
  RenderText (λ s, s) demo_results = JoinWith nlString
    ["=== lint ==="; "[pass] a (0s) — quick"; ""; "=== test ==="; "[fail] b (2.2ms)"; "    two"; "    [PASS] lines"; ""; ""] ∧
  RenderText (λ s, s) (reverse demo_results) = RenderText (λ s, s) demo_results.
Proof.
  split; [vm_compute; reflexivity|]. apply (results_text_exact (λ s, s) demo_results); [discriminate|].
  intros cat. assert (reverse demo_results = [default (mkVResult "" "" "" 0 "" "") (demo_results !! 1); default (mkVResult "" "" "" 0 "" "") (demo_results !! 0)]) as ->; [reflexivity|].
  unfold byCategory, demo_results. cbn [lookup list_lookup default]. rewrite !filter_cons, !filter_nil. cbn [vr_Category].
  assert ("test" ≠ "lint") as Hne by discriminate. unfold id. cbn [vr_Category].
  repeat case_decide; try reflexivity; exfalso; apply Hne; congruence.
Defined.
