(* ===== verification/Scaffold.v ===== *)
(** The module generator (src/tools/scaffold/scaffold.go): names, the import path
    of the new module, and the files written.

    Executing a template and formatting Go source are parameters, as are the tables
    of letters and digits outside ASCII and the lower-case form of a word with
    other than ASCII letters. *)

From Stdlib Require Import Ascii.
From stdpp Require Import base gmap list strings.
From S2P Require Import Prelude Quote Paths Regex GoStrings Hex FileSystem SemIndex.

(** * Names *)

Definition lowerByte (a : ascii) : ascii := if byte_in 65 90 a then ascii_of_N (N_of_ascii a + 32) else a.
Definition upperByte (a : ascii) : ascii := if byte_in 97 122 a then ascii_of_N (N_of_ascii a - 32) else a.
Definition isASCII (s : string) : bool := forallb (byte_in 0 127) (String.list_ascii_of_string s).
Fixpoint mapBytes (f : ascii → ascii) (s : string) : string := match s with EmptyString => EmptyString | String a s => String (f a) (mapBytes f s) end.
(** The encoding of U+FFFD. *)
Definition replacement : string := String (ascii_of_N 239) (String (ascii_of_N 191) (String (ascii_of_N 189) EmptyString)).

Section names.
Context (isPrint : N → bool) (wordRune : Z → bool) (unicodeLower unicodeUpper : string → string).

(** [unicode.IsLetter(r) || unicode.IsDigit(r)]. *)
Definition isWordRune (c : Z) : bool :=
  if (c <? 128)%Z then ((48 <=? c) && (c <=? 57) || (65 <=? c) && (c <=? 90) || (97 <=? c) && (c <=? 122))%Z else wordRune c.
(** [WriteRune] of the rune decoded. *)
Definition runeBytes (x : Sym) : string := if Z.eqb x.1 65533 then replacement else x.2.
Fixpoint splitWordsFrom (t : list Sym) (current : string) : list string :=
  match t with
  | [] => if String.eqb current "" then [] else [current]
  | x :: t =>
    if isWordRune x.1 then splitWordsFrom t (current +:+ runeBytes x)
    else if String.eqb current "" then splitWordsFrom t "" else current :: splitWordsFrom t ""
  end.
Definition splitWords (s : string) : list string := splitWordsFrom (decode s) "".

Definition ToLower (s : string) : string := if isASCII s then mapBytes lowerByte s else unicodeLower s.
Definition ToUpper (s : string) : string := if isASCII s then mapBytes upperByte s else unicodeUpper s.
(** [strings.ToUpper(w[:1]) + w[1:]]: a byte that is not ASCII is no rune of its
    own and is replaced.  A word is not empty. *)
Definition capitalize (w : string) : string :=
  match w with
  | EmptyString => EmptyString
  | String a w => (if byte_in 0 127 a then String (upperByte a) EmptyString else replacement) +:+ w
  end.
(** [if unicode.IsDigit(rune(s[0])) { s = m + s }]: no rune between 128 and 255 is a
    digit. *)
Definition notDigitFirst (m s : string) : string :=
  match s with String a _ => if byte_in 48 57 a then m +:+ s else s | EmptyString => s end.

Record derivedNames := mkNames { dn_kebab : string; dn_pkg : string; dn_typeName : string }.
Definition deriveNames (raw : string) : derivedNames + error :=
  let raw := TrimSpace raw in
  if String.eqb raw "" then inr (New "name must not be empty")
  else match splitWords raw with
  | [] => inr (Errorf "name %q contains no letters or digits" [Quote isPrint raw] [])
  | words =>
    let lowerWords := ToLower <$> words in
    inl (mkNames (JoinWith "-" lowerWords) (notDigitFirst "m" (JoinWith "" lowerWords))
           (notDigitFirst "M" (JoinWith "" (capitalize <$> lowerWords))))
  end.

(** * The import path *)

Fixpoint moduleLine (lines : list string) : string + error :=
  match lines with
  | [] => inr (New "no module directive found")
  | line :: lines =>
    let line := TrimSpace line in
    if HasPrefix line "module " then inl (TrimSpace (TrimPrefix line "module")) else moduleLine lines
  end.
Definition parseModuleDirective (data : string) : string + error := moduleLine (Lines data).

(** [filepath.Rel] of two absolute paths. *)
Fixpoint dropCommon (a b : list string) : list string * list string :=
  match a, b with
  | x :: a', y :: b' => if String.eqb x y then dropCommon a' b' else (a, b)
  | _, _ => (a, b)
  end.
Definition Rel (base target : string) : string :=
  match dropCommon (elems (Clean base)) (elems (Clean target)) with
  | ([], []) => "."
  | (b, t) => joinSlash (replicate (length b) ".." ++ t)
  end.

(** The two loops climb from a clean absolute path, which has at most as many
    ancestors as bytes. *)
Fixpoint existingAncestor (fuel : nat) (fs : FS) (absTarget searchDir : string) : string + error :=
  match statF searchDir fs with
  | inl _ => inl searchDir
  | inr _ =>
    let parent := Dir searchDir in
    match fuel with
    | S fuel =>
      if String.eqb parent searchDir then inr (Errorf "no existing ancestor directory found for %s" [absTarget] [])
      else existingAncestor fuel fs absTarget parent
    | O => inr (Errorf "no existing ancestor directory found for %s" [absTarget] [])
    end
  end.
Fixpoint findModule (fuel : nat) (fs : FS) (absTarget goModDir : string) : string + error :=
  let modPath := Join goModDir "go.mod" in
  match readFileF modPath fs with
  | inl data =>
    match parseModuleDirective data with
    | inr err => inr (Errorf "parse %s: %w" [modPath] [err])
    | inl modName => let rel := Rel goModDir absTarget in inl (if String.eqb rel "." then modName else modName +:+ "/" +:+ rel)
    end
  | inr err =>
    if negb (IsNotExist err) then inr (Errorf "read %s: %w" [modPath] [err])
    else
      let parent := Dir goModDir in
      match fuel with
      | S fuel => if String.eqb parent goModDir then inr (Errorf "no go.mod found above %s" [absTarget] []) else findModule fuel fs absTarget parent
      | O => inr (Errorf "no go.mod found above %s" [absTarget] [])
      end
  end.
Definition detectModuleImport (env : Env) (targetDir : string) : string + error :=
  match Abs env targetDir with
  | inr err => inr err
  | inl absTarget =>
    match existingAncestor (String.length absTarget) (en_fs env) absTarget absTarget with
    | inr err => inr err
    | inl searchDir => findModule (String.length searchDir) (en_fs env) absTarget searchDir
    end
  end.

(** * Generation *)

Record Data := mkData {
  da_ModuleName : string; da_PkgName : string; da_TypeName : string; da_IDPrefix : string; da_RootImport : string;
  da_DomainImport : string; da_PortsImport : string; da_ServiceImport : string; da_AdaptersImport : string }.
Record Config := mkConfig { cf_Name : string; cf_OutDir : string; cf_ModuleImport : string; cf_Force : bool }.
Record Result := mkResult { rs_TargetDir : string; rs_Files : list string }.
(** [tmpl.ExecuteTemplate] and [format.Source]. *)
Context (ExecuteTemplate : string → Data → string + error) (formatSource : string → string + error).

(** The path of a file is a template with one field, or none. *)
Inductive RelPath := Fixed (p : string) | WithPkg (before after : string).
Definition fileSpecs : list (string * RelPath) :=
  [("domain.go.tmpl", WithPkg "domain/" ".go"); ("ports_repo.go.tmpl", Fixed "ports/repo.go"); ("ports_service.go.tmpl", Fixed "ports/service.go");
   ("service.go.tmpl", Fixed "service/service.go"); ("service_test.go.tmpl", Fixed "service/service_test.go");
   ("adapters_inmemory_repo.go.tmpl", Fixed "adapters/inmemory_repo.go"); ("module.go.tmpl", Fixed "module.go");
   ("module_test.go.tmpl", Fixed "module_test.go"); ("README.md.tmpl", Fixed "README.md")].
Definition renderPath (p : RelPath) (data : Data) : string :=
  match p with Fixed p => p | WithPkg before after => before +:+ da_PkgName data +:+ after end.
Definition renderTemplate (name : string) (data : Data) : string + error :=
  match ExecuteTemplate name data with
  | inr err => inr err
  | inl text =>
    if negb (HasSuffix name ".go.tmpl") then inl text
    else match formatSource text with
    | inl formatted => inl formatted
    | inr err => inr (Errorf ("gofmt generated source: %w" +:+ nlString +:+ "--- rendered source ---" +:+ nlString +:+ "%s") [text] [err])
    end
  end.
Definition checkTargetDir (env : Env) (targetDir : string) (force : bool) : option error :=
  match statF (osPath env targetDir) (en_fs env) with
  | inr err => if IsNotExist err then None else Some (Errorf "scaffold: stat %s: %w" [targetDir] [err])
  | inl NDir =>
    if force then None
    else match readDirF (osPath env targetDir) (en_fs env) with
    | inr err => Some (Errorf "scaffold: read %s: %w" [targetDir] [err])
    | inl [] => None
    | inl _ => Some (Errorf "scaffold: %s already exists and is not empty; pass -force to overwrite" [targetDir] [])
    end
  | inl _ => Some (Errorf "scaffold: %s already exists and is not a directory" [targetDir] [])
  end.
(** The loop over the files: those written before a failure stay. *)
Fixpoint writeFiles (targetDir : string) (data : Data) (specs : list (string * RelPath)) (env : Env) : (list string + error) * Env :=
  match specs with
  | [] => (inl [], env)
  | (tmplName, relPath) :: specs =>
    let outPath := Join targetDir (renderPath relPath data) in
    match renderTemplate tmplName data with
    | inr err => (inr (Errorf "scaffold: render %s: %w" [tmplName] [err]), env)
    | inl content =>
      match mkdirAllF [] (elems (osPath env (Dir outPath))) (en_fs env) with
      | (inr err, fs) => (inr (Errorf "scaffold: create directory for %s: %w" [outPath] [err]), withFS env fs)
      | (inl _, fs) =>
        match writeFileF (osPath env outPath) content 420 fs with
        | (inr err, fs) => (inr (Errorf "scaffold: write %s: %w" [outPath] [err]), withFS env fs)
        | (inl _, fs) =>
          match writeFiles targetDir data specs (withFS env fs) with
          | (inl files, env) => (inl (outPath :: files), env)
          | (inr err, env) => (inr err, env)
          end
        end
      end
    end
  end.
Definition dashesToUnderscores (s : string) : string := mapBytes (λ a, if Ascii.eqb a "-" then "_"%char else a) s.
Definition dataOf (names : derivedNames) (rootImport : string) : Data :=
  mkData (dn_kebab names) (dn_pkg names) (dn_typeName names) (ToUpper (dashesToUnderscores (dn_kebab names))) rootImport
    (rootImport +:+ "/domain") (rootImport +:+ "/ports") (rootImport +:+ "/service") (rootImport +:+ "/adapters").
Definition Generate (cfg : Config) (env : Env) : (Result + error) * Env :=
  match deriveNames (cf_Name cfg) with
  | inr err => (inr (Errorf "scaffold: %w" [] [err]), env)
  | inl names =>
    if String.eqb (TrimSpace (cf_OutDir cfg)) "" then (inr (New "scaffold: OutDir must not be empty"), env)
    else
      let targetDir := Join (cf_OutDir cfg) (dn_kebab names) in
      match checkTargetDir env targetDir (cf_Force cfg) with
      | Some err => (inr err, env)
      | None =>
        match (if String.eqb (cf_ModuleImport cfg) "" then detectModuleImport env targetDir else inl (cf_ModuleImport cfg)) with
        | inr err => (inr (Errorf "scaffold: detect module import path for %s: %w (pass -module to override auto-detection)" [targetDir] [err]), env)
        | inl rootImport =>
          match writeFiles targetDir (dataOf names rootImport) fileSpecs env with
          | (inl files, env) => (inl (mkResult targetDir files), env)
          | (inr err, env) => (inr err, env)
          end
        end
      end
  end.
End names.

(** A letter table with the Latin letters of ISO 8859-1. *)
Definition latin1 (c : Z) : bool := ((192 <=? c) && (c <=? 255) && negb (Z.eqb c 215) && negb (Z.eqb c 247))%Z.
Definition demoNames (raw : string) := deriveNames (λ _, true) latin1 (λ s, s) raw.
Example deriveNames_ex :
  demoNames " Billing Thing" = inl (mkNames "billing-thing" "billingthing" "BillingThing") ∧
  demoNames "2fa_login" = inl (mkNames "2fa-login" "m2falogin" "M2faLogin") ∧
  demoNames "--" = inr (Errorf "name %q contains no letters or digits" [dq +:+ "--" +:+ dq] []).
Proof. vm_compute. repeat split. Qed.

(** * Names of ASCII letters and digits *)

Definition all (f : ascii → bool) (s : string) : Prop := Forall (λ a, f a = true) (String.list_ascii_of_string s).
Definition lowerOrDigit (a : ascii) : bool := byte_in 97 122 a || byte_in 48 57 a.
Definition alnum (a : ascii) : bool := byte_in 65 90 a || lowerOrDigit a.
(** A character of the kind asked for first, then letters and digits. *)
Definition identifier (first : ascii → bool) (rest : ascii → bool) (s : string) : Prop :=
  match s with EmptyString => False | String a s => first a = true ∧ all rest s end.
(** The keywords of Go, and its identifiers among the words of ASCII letters and
    digits. *)
Definition goKeywords : list string :=
  ["break"; "case"; "chan"; "const"; "continue"; "default"; "defer"; "else"; "fallthrough"; "for"; "func"; "go"; "goto"; "if"; "import";
   "interface"; "map"; "package"; "range"; "return"; "select"; "struct"; "switch"; "type"; "var"].
Definition goIdentifier (s : string) : Prop := identifier (λ a, byte_in 65 90 a || byte_in 97 122 a) alnum s ∧ s ∉ goKeywords.

(** The words of a text: its longest runs of letters and digits, in order. *)
Inductive wordsOf : string → list string → Prop :=
| words_none : wordsOf "" []
| words_separator a s ws : alnum a = false → wordsOf s ws → wordsOf (String a s) ws
| words_word w s ws : w ≠ "" → all alnum w → match s with String a _ => alnum a = false | EmptyString => True end →
    wordsOf s ws → wordsOf (w +:+ s) (w :: ws).
(** In small letters; with a capital first; [m] put before a digit. *)
Definition small (w : string) : string := mapBytes lowerByte w.
Definition titled (w : string) : string := match w with EmptyString => "" | String a w => String (upperByte (lowerByte a)) (small w) end.
Definition ledBy (m s t : string) : Prop :=
  match s with String a _ => t = if byte_in 48 57 a then m +:+ s else s | EmptyString => False end.

Lemma list_of_app a b : String.list_ascii_of_string (a +:+ b) = String.list_ascii_of_string a ++ String.list_ascii_of_string b.
Proof. induction a as [|x a IH]; [done|]. change (String x a +:+ b) with (String x (a +:+ b)). simpl. by rewrite IH. Qed.
Lemma all_app f a b : all f (a +:+ b) ↔ all f a ∧ all f b.
Proof. unfold all. by rewrite list_of_app, Forall_app. Qed.
Lemma all_impl (f g : ascii → bool) s : (∀ a, f a = true → g a = true) → all f s → all g s.
Proof. intros H Hs. eapply Forall_impl; [exact Hs|]. auto. Qed.
Lemma all_map (f g : ascii → bool) h s : (∀ a, f a = true → g (h a) = true) → all f s → all g (mapBytes h s).
Proof. intros H. unfold all. induction s as [|a s IH]; [done|]. simpl. intros [Ha Hs]%Forall_cons. constructor; auto. Qed.
Lemma all_concat f l : Forall (all f) l → all f (JoinWith "" l).
Proof.
  unfold JoinWith. induction 1 as [|s l Hs Hl IH]; [constructor|]. destruct l; [done|]. change (all f (s +:+ "" +:+ String.concat "" (s0 :: l))).
  rewrite all_app. done.
Qed.

(** Facts about single bytes. *)
Lemma byte_facts : ∀ a : ascii,
  (alnum a = true → lowerOrDigit (lowerByte a) = true ∧ byte_in 0 127 a = true) ∧
  (lowerOrDigit a = true → byte_in 0 127 a = true ∧ alnum a = true ∧ (byte_in 48 57 a = false → byte_in 97 122 a = true ∧ byte_in 65 90 (upperByte a) = true) ∧
     (byte_in 48 57 a = true → upperByte a = a)) ∧
  (byte_in 0 127 a = true → isWordRune (λ _, false) (byteZ a) = alnum a ∧ (byteZ a <? 128)%Z = true ∧ Z.eqb (byteZ a) 65533 = false).
Proof. intros [[] [] [] [] [] [] [] []]; vm_compute; repeat split; intros; try done. Qed.

Lemma decode_all_ascii s : all (byte_in 0 127) s → decode s = (λ a, (byteZ a, String a "")) <$> String.list_ascii_of_string s.
Proof.
  unfold decode, all. induction s as [|a s IH]; [done|]. simpl. intros [Ha Hs]%Forall_cons.
  unfold decodeRune. rewrite (proj1 (proj2 (proj2 (proj2 (byte_facts a)) Ha))). simpl. by rewrite IH.
Qed.

Section ascii_names.
Context (isPrint : N → bool) (wordRune : Z → bool) (unicodeLower : string → string).

Lemma splitWordsFrom_words s : all (byte_in 0 127) s → ∀ current, all alnum current →
  wordsOf (current +:+ s) (splitWordsFrom wordRune ((λ a, (byteZ a, String a "")) <$> String.list_ascii_of_string s) current).
Proof.
  induction s as [|a s IH]; intros Hs current Hc.
  - rewrite str_app_nil_r. simpl. destruct (String.eqb_spec current "") as [->|Hne]; [constructor|].
    rewrite <- (str_app_nil_r current) at 1. by repeat constructor.
  - apply Forall_cons in Hs as [Ha Hs]. destruct (proj2 (proj2 (byte_facts a)) Ha) as (Hw & Hlt & Hbad). simpl.
    assert (isWordRune wordRune (byteZ a) = alnum a) as -> by (rewrite <- Hw; unfold isWordRune; by rewrite Hlt).
    unfold runeBytes. simpl. rewrite Hbad. destruct (alnum a) eqn:Ea.
    + replace (current +:+ String a s) with ((current +:+ String a "") +:+ s) by (by rewrite str_app_assoc).
      apply IH; [done|]. apply all_app. split; [done|by repeat constructor].
    + assert (wordsOf (String a s) (splitWordsFrom wordRune ((λ a, (byteZ a, String a "")) <$> String.list_ascii_of_string s) "")) as H1.
      { apply words_separator; [done|]. apply (IH Hs ""). constructor. }
      destruct (String.eqb_spec current "") as [->|Hne]; [exact H1|]. by constructor.
Qed.
Lemma wordsOf_words s ws : wordsOf s ws → Forall (λ w, w ≠ "" ∧ all alnum w) ws ∧ (ws = [] → all (λ a, negb (alnum a)) s).
Proof.
  induction 1 as [|a s ws Ha _ [IH1 IH2]|w s ws Hne Hw _ _ [IH1 _]].
  - by repeat constructor.
  - split; [done|]. intros E. constructor; [by rewrite Ha|by apply IH2].
  - split; [by constructor|done].
Qed.

Lemma lower_small w : all alnum w → ToLower unicodeLower w = small w.
Proof.
  intros Hw. unfold ToLower. assert (isASCII w = true) as ->; [|done].
  apply forallb_forall. intros a Ha. unfold all in Hw. rewrite List.Forall_forall in Hw. apply (proj1 (byte_facts a)), Hw, Ha.
Qed.
Lemma small_word w : w ≠ "" ∧ all alnum w → small w ≠ "" ∧ all lowerOrDigit (small w).
Proof.
  intros [Hne Hw]. split; [by destruct w|]. eapply all_map; [|exact Hw]. intros a Ha. by apply (proj1 (byte_facts a)).
Qed.
Lemma capitalize_small w : all alnum w → capitalize (small w) = titled w.
Proof.
  destruct w as [|a w]; [done|]. intros [Ha _]%Forall_cons. destruct (proj1 (byte_facts a) Ha) as [Hl _].
  simpl. by rewrite (proj1 (proj1 (proj2 (byte_facts _)) Hl)).
Qed.
Lemma notDigitFirst_led m s : s ≠ "" → ledBy m s (notDigitFirst m s).
Proof. by destruct s. Qed.
Lemma concat_ne x l : x ≠ "" → JoinWith "" (x :: l) ≠ "".
Proof. intros Hx. unfold JoinWith. destruct x; [done|]. by destruct l. Qed.
Lemma package_identifier s : s ≠ "" → all lowerOrDigit s → identifier (byte_in 97 122) lowerOrDigit (notDigitFirst "m" s).
Proof.
  intros Hne Hs. destruct s as [|a s]; [done|]. simpl. pose proof Hs as [Ha Hs']%Forall_cons. destruct (byte_in 48 57 a) eqn:E; [split; [done|exact Hs]|].
  split; [|done]. by apply (proj1 (proj2 (byte_facts a)) Ha).
Qed.
Lemma capitalized w : all lowerOrDigit w → all alnum (capitalize w) ∧
  match w with EmptyString => True | String a _ => ∃ w', capitalize w = String (upperByte a) w' end.
Proof.
  destruct w as [|a w]; [by repeat constructor|]. intros [Ha Hw]%Forall_cons. simpl. destruct (proj1 (proj2 (byte_facts a)) Ha) as (-> & Hal & H1 & H2).
  split; [|by exists w]. constructor; [|by eapply all_impl; [|exact Hw]; intros b Hb; apply (proj1 (proj2 (byte_facts b)) Hb)].
  destruct (byte_in 48 57 a) eqn:E; [by rewrite H2|]. unfold alnum. by rewrite (proj2 (H1 eq_refl)).
Qed.
Lemma type_identifier words : words ≠ [] → Forall (λ w, w ≠ "" ∧ all lowerOrDigit w) words →
  identifier (byte_in 65 90) alnum (notDigitFirst "M" (JoinWith "" (capitalize <$> words))).
Proof.
  intros Hne Hw. assert (all alnum (JoinWith "" (capitalize <$> words))) as Hall.
  { apply all_concat, Forall_fmap. eapply Forall_impl; [exact Hw|]. intros w [_ H]. by apply capitalized. }
  destruct words as [|w words]; [done|]. apply Forall_cons in Hw as [[Hw1 Hw2] _]. destruct w as [|a w]; [done|].
  destruct (proj2 (capitalized _ Hw2)) as [w' E]. apply Forall_cons in Hw2 as [Ha _].
  assert (∃ rest, JoinWith "" (capitalize <$> String a w :: words) = String (upperByte a) rest) as [rest Er].
  { rewrite fmap_cons, E. unfold JoinWith. cbn [String.concat]. by destruct (capitalize <$> words); eexists. }
  rewrite Er in *. simpl. pose proof Hall as [_ Hr]%Forall_cons. destruct (proj1 (proj2 (byte_facts a)) Ha) as (_ & _ & H1 & H2).
  destruct (byte_in 48 57 (upperByte a)) eqn:Ed; [split; [done|exact Hall]|]. split; [|done].
  destruct (byte_in 48 57 a) eqn:Ed2; [rewrite H2 in Ed; congruence|]. by apply H1.
Qed.

Lemma capital_identifier s : identifier (byte_in 65 90) alnum s → goIdentifier s.
Proof.
  destruct s as [|a s]; [done|]. intros [Ha Hs]. split; [split; [by rewrite Ha|done]|]. unfold goKeywords. intros Hk.
  repeat (apply elem_of_cons in Hk as [Hk|Hk]; [injection Hk as -> ->; vm_compute in Ha; discriminate|]). by apply elem_of_nil in Hk.
Qed.
Lemma small_identifier s : identifier (byte_in 97 122) lowerOrDigit s → s ∉ goKeywords → goIdentifier s.
Proof.
  destruct s as [|a s]; [done|]. intros [Ha Hs] Hk. split; [|done]. split; [by rewrite Ha, orb_true_r|].
  eapply all_impl; [|exact Hs]. intros b Hb. unfold alnum. by rewrite Hb, orb_true_r.
Qed.

(** C40. From a name that is ASCII (leading and trailing space aside) the generator
    takes the words, its longest runs of letters and digits.  The module's name is
    the words in small letters with dashes between them; the package's is the
    words run together, after an [m] if they begin with a digit: an identifier of
    Go unless it is one of the keywords, which are not refused; the type's is the
    words with capitals run together, after an [M] if they begin with a digit, and
    is an exported identifier of Go.  It fails exactly when there are no words. *)
Theorem names_wellformed raw : all (byte_in 0 127) (TrimSpace raw) →
  ∃ words, wordsOf (TrimSpace raw) words ∧
  match deriveNames isPrint wordRune unicodeLower raw with
  | inl n => words ≠ [] ∧ dn_kebab n = JoinWith "-" (small <$> words) ∧
      ledBy "m" (JoinWith "" (small <$> words)) (dn_pkg n) ∧ ledBy "M" (JoinWith "" (titled <$> words)) (dn_typeName n) ∧
      identifier (byte_in 97 122) lowerOrDigit (dn_pkg n) ∧ (dn_pkg n ∉ goKeywords → goIdentifier (dn_pkg n)) ∧
      identifier (byte_in 65 90) alnum (dn_typeName n) ∧ goIdentifier (dn_typeName n)
  | inr _ => words = []
  end.
Proof.
  intros Hraw. unfold deriveNames. destruct (String.eqb_spec (TrimSpace raw) "") as [->|Hne]; [exists []; split; [constructor|done]|].
  pose proof (splitWordsFrom_words (TrimSpace raw) Hraw "" ltac:(constructor)) as Hws. change ("" +:+ TrimSpace raw) with (TrimSpace raw) in Hws.
  unfold splitWords. rewrite decode_all_ascii by done. set (ws := splitWordsFrom _ _ "") in *. exists ws. split; [done|].
  apply wordsOf_words in Hws as [Hws _]. clearbody ws. destruct ws as [|w words]; [done|]. set (ws := w :: words) in *.
  assert (ToLower unicodeLower <$> ws = small <$> ws) as ->.
  { apply list_fmap_ext. intros i x Hx. rewrite Forall_lookup in Hws. by apply lower_small, (Hws i x). }
  assert (capitalize <$> (small <$> ws) = titled <$> ws) as E.
  { rewrite <- list_fmap_compose. apply list_fmap_ext. intros i x Hx. rewrite Forall_lookup in Hws. by apply capitalize_small, (Hws i x). }
  assert (Forall (λ w, w ≠ "" ∧ all lowerOrDigit w) (small <$> ws)) as Hlw by (apply Forall_fmap; eapply Forall_impl; [exact Hws|]; intros; by apply small_word).
  assert (JoinWith "" (small <$> ws) ≠ "" ∧ JoinWith "" (titled <$> ws) ≠ "") as [Hn1 Hn2].
  { apply Forall_cons in Hws as [[Hw _] _]. split; apply concat_ne; by destruct w. }
  assert (identifier (byte_in 97 122) lowerOrDigit (notDigitFirst "m" (JoinWith "" (small <$> ws)))) as Hp.
  { apply package_identifier; [done|]. apply all_concat. eapply Forall_impl; [exact Hlw|]. by intros x [_ Hx]. }
  assert (identifier (byte_in 65 90) alnum (notDigitFirst "M" (JoinWith "" (titled <$> ws)))) as Ht by (rewrite <- E; by apply type_identifier).
  cbn [dn_kebab dn_pkg dn_typeName]. rewrite E.
  split_and!; [done|done|by apply notDigitFirst_led..|exact Hp|by apply small_identifier|exact Ht|by apply capital_identifier].
Qed.
End ascii_names.

Lemma names_wellformed_witness : demoNames "Billing Thing" = inl (mkNames "billing-thing" "billingthing" "BillingThing") ∧
  (∃ words, wordsOf "Billing Thing" words ∧ "billing-thing" = JoinWith "-" (small <$> words)) ∧
  identifier (byte_in 97 122) lowerOrDigit "billingthing" ∧ goIdentifier "BillingThing".
Proof.
  split; [vm_compute; reflexivity|].
  assert (all (byte_in 0 127) (TrimSpace "Billing Thing")) as Ha; [vm_compute; repeat constructor|].
  destruct (names_wellformed (λ _, true) latin1 (λ s, s) "Billing Thing" Ha) as (words & Hw & _ & Hk & _ & _ & Hp & _ & _ & Ht).
  split; [exists words; split; [exact Hw|exact Hk]|]. split; [exact Hp|exact Ht].
Defined.

(** Other names break: the first byte of a letter outside ASCII is replaced, so
    that the type name is no text any more; and a keyword of Go is taken as the
    name of the package. *)
Lemma odd_names : let e_acute := String (ascii_of_N 195) (String (ascii_of_N 169) EmptyString) in
  (∃ n, demoNames (e_acute +:+ "t") = inl n ∧ dn_pkg n = e_acute +:+ "t" ∧ dn_typeName n = replacement +:+ String (ascii_of_N 169) "t") ∧
  (∃ n, demoNames "type" = inl n ∧ dn_pkg n = "type").
Proof. split; eexists; (split; [vm_compute; reflexivity|]); by vm_compute. Qed.

(** * The import path of the new module *)

Lemma dropCommon_prefix a r : dropCommon a (a ++ r) = ([], r).
Proof. induction a as [|x a IH]; [by destruct r|]. simpl. by rewrite String.eqb_refl. Qed.
Lemma Rel_below d r : Forall normal (d ++ r) → Rel (abs d) (abs (d ++ r)) = if decide (r = []) then "." else joinSlash r.
Proof.
  intros Hn. pose proof Hn as [Hd _]%Forall_app. unfold Rel. rewrite !Clean_abs, !elems_abs, dropCommon_prefix by done. by destruct r.
Qed.
Lemma climb d c : Forall normal (d ++ [c]) → Dir (abs (d ++ [c])) = abs d ∧ abs d ≠ abs (d ++ [c]).
Proof.
  intros H. pose proof H as [Hd Hc]%Forall_app. rewrite Forall_singleton in Hc. split; [exact (Dir_abs d c Hd Hc)|]. intros E. apply abs_inj in E; [|done..].
  apply (f_equal length) in E. rewrite length_app in E. simpl in E. lia.
Qed.

Section detect.
Context (fs : FS) (cs : list string) (Hcs : Forall normal cs).

Lemma existingAncestor_spec fuel : ∀ d r dir, cs = d ++ r → existingAncestor fuel fs (abs cs) (abs d) = inl dir →
  ∃ d1 r1, dir = abs d1 ∧ d = d1 ++ r1 ∧ ∀ x y, r1 = x ++ y → x ≠ [] → ∃ err, statF (abs (d1 ++ x)) fs = inr err.
Proof.
  induction fuel as [|fuel IH]; intros d r dir E H; cbn [existingAncestor] in H; destruct (statF (abs d) fs) as [n|err] eqn:Es; try done.
  1,2: injection H as <-; exists d, []; split; [done|]; split; [by rewrite app_nil_r|]; intros x y Hxy Hx;
    symmetry in Hxy; by apply app_eq_nil in Hxy as [-> _].
  destruct d as [|c d _] using rev_ind; [done|]. assert (Forall normal (d ++ [c])) as Hn by (rewrite E in Hcs; by apply Forall_app in Hcs as [? _]).
  destruct (climb d c Hn) as [Hdir Hne]. cbv zeta in H. rewrite Hdir, (proj2 (String.eqb_neq _ _) Hne) in H.
  apply (IH d ([c] ++ r)) in H as (d1 & r1 & -> & -> & Hmiss); [|by rewrite app_assoc]. exists d1, (r1 ++ [c]). split; [done|]. split; [by rewrite app_assoc|].
  intros x y Hxy Hx. destruct y as [|z y _] using rev_ind.
  - rewrite app_nil_r in Hxy. subst x. rewrite app_assoc, Es. by eexists.
  - rewrite app_assoc in Hxy. apply app_inj_tail in Hxy as [-> ->]. by eapply Hmiss.
Qed.

(** The directory of the module found, and what is between it and the target. *)
Lemma findModule_spec fuel : ∀ d r imp, cs = d ++ r → findModule fuel fs (abs cs) (abs d) = inl imp →
  ∃ d1 r1 data m, d = d1 ++ r1 ∧ readFileF (Join (abs d1) "go.mod") fs = inl data ∧ parseModuleDirective data = inl m ∧
    imp = (if decide (r1 ++ r = []) then m else m +:+ "/" +:+ joinSlash (r1 ++ r)) ∧
    ∀ x y, r1 = x ++ y → x ≠ [] → ∃ err, readFileF (Join (abs (d1 ++ x)) "go.mod") fs = inr err ∧ IsNotExist err = true.
Proof.
  assert (∀ d r data imp, cs = d ++ r → readFileF (Join (abs d) "go.mod") fs = inl data →
    match parseModuleDirective data with
    | inr err => inr (Errorf "parse %s: %w" [Join (abs d) "go.mod"] [err])
    | inl modName => let rel := Rel (abs d) (abs cs) in inl (if String.eqb rel "." then modName else modName +:+ "/" +:+ rel)
    end = inl imp →
    ∃ d1 r1 data m, d = d1 ++ r1 ∧ readFileF (Join (abs d1) "go.mod") fs = inl data ∧ parseModuleDirective data = inl m ∧
      imp = (if decide (r1 ++ r = []) then m else m +:+ "/" +:+ joinSlash (r1 ++ r)) ∧
      ∀ x y, r1 = x ++ y → x ≠ [] → ∃ err, readFileF (Join (abs (d1 ++ x)) "go.mod") fs = inr err ∧ IsNotExist err = true) as Hfound.
  { intros d r data imp E Hr H. destruct (parseModuleDirective data) as [m|] eqn:Em; [|done]. injection H as <-.
    exists d, [], data, m. split; [by rewrite app_nil_r|]. split; [done|]. split; [done|]. split.
    - rewrite E in Hcs |- *. rewrite Rel_below by done. simpl. destruct (decide (r = [])) as [->|Hne]; [done|].
      destruct (String.eqb_spec (joinSlash r) ".") as [Ej|]; [|done]. exfalso. apply Forall_app in Hcs as [_ Hr'].
      assert (splitSlash (joinSlash r) = r) as Hs by (apply splitSlash_join; [done|by apply normal_noslash]). rewrite Ej in Hs. vm_compute in Hs. subst r.
      apply Forall_singleton in Hr' as (_ & ? & _). done.
    - intros x y Hxy Hx. symmetry in Hxy. by apply app_eq_nil in Hxy as [-> _]. }
  induction fuel as [|fuel IH]; intros d r imp E H; cbn [findModule] in H; destruct (readFileF (Join (abs d) "go.mod") fs) as [data|err] eqn:Er;
    try (by eapply Hfound); destruct (negb (IsNotExist err)) eqn:En; try done.
  destruct d as [|c d _] using rev_ind; [done|]. assert (Forall normal (d ++ [c])) as Hn by (rewrite E in Hcs; by apply Forall_app in Hcs as [? _]).
  destruct (climb d c Hn) as [Hdir Hne]. cbv zeta in H. rewrite Hdir, (proj2 (String.eqb_neq _ _) Hne) in H.
  apply (IH d ([c] ++ r)) in H as (d1 & r1 & data & m & -> & Hr & Hp & -> & Hmiss); [|by rewrite app_assoc].
  exists d1, (r1 ++ [c]), data, m. rewrite <- !app_assoc. split; [done|]. split; [done|]. split; [done|]. split; [done|].
  intros x y Hxy Hx. destruct y as [|z y _] using rev_ind.
  - rewrite app_nil_r in Hxy. subst x. rewrite app_assoc. exists err. split; [done|]. by destruct (IsNotExist err).
  - rewrite app_assoc in Hxy. apply app_inj_tail in Hxy as [-> ->]. by eapply Hmiss.
Qed.
End detect.

(** The import path found is that of the nearest directory at or above the target
    with a go.mod: its module path and the names between. *)
Theorem import_exact env cs imp : Forall normal cs → detectModuleImport env (abs cs) = inl imp →
  ∃ d r data m, cs = d ++ r ∧ readFileF (Join (abs d) "go.mod") (en_fs env) = inl data ∧ parseModuleDirective data = inl m ∧
    imp = (if decide (r = []) then m else m +:+ "/" +:+ joinSlash r) ∧
    ∀ x y, r = x ++ y → x ≠ [] → (∃ err, statF (abs (d ++ x)) (en_fs env) = inr err) ∨
      ∃ err, readFileF (Join (abs (d ++ x)) "go.mod") (en_fs env) = inr err ∧ IsNotExist err = true.
Proof.
  intros Hcs. unfold detectModuleImport, Abs. change (IsAbs (abs cs)) with true. cbv iota. rewrite Clean_abs by done.
  destruct (existingAncestor _ _ _ _) as [dir|] eqn:E1; [|done].
  apply (existingAncestor_spec (en_fs env) cs Hcs _ cs [] dir) in E1 as (d1 & r1 & -> & -> & Hmiss); [|by rewrite app_nil_r].
  intros (d2 & r2 & data & m & -> & Hr & Hp & -> & Hno)%(findModule_spec (en_fs env) (d1 ++ r1) Hcs _ d1 r1 imp eq_refl).
  exists d2, (r2 ++ r1), data, m. split; [by rewrite app_assoc|]. split; [done|]. split; [done|]. split; [done|].
  intros x y Hxy Hx. apply app_eq_inv in Hxy as [(k & -> & ->)|(k & -> & ->)].
  - right. by apply (Hno x k).
  - destruct (decide (k = [])) as [->|Hk]; [right; rewrite app_nil_r in *; apply (Hno r2 []); [by rewrite app_nil_r|done]|].
    left. rewrite app_assoc. by apply (Hmiss k y).
Qed.

Definition demo_fs : FS := list_to_map [(["repo"], NDir); (["repo"; "go.mod"], NFile ("module example.com/m" +:+ nlString) 420)].
Definition demo_scaffold_env : Env := mkEnv demo_fs "/repo" None.
Lemma import_exact_witness : detectModuleImport demo_scaffold_env (abs ["repo"; "features"; "billing"]) = inl "example.com/m/features/billing" ∧
  ∃ d r, ["repo"; "features"; "billing"] = d ++ r ∧ is_Some (match readFileF (Join (abs d) "go.mod") demo_fs with inl t => Some t | inr _ => None end).
Proof.
  assert (detectModuleImport demo_scaffold_env (abs ["repo"; "features"; "billing"]) = inl "example.com/m/features/billing") as H; [vm_compute; reflexivity|].
  split; [exact H|]. destruct (import_exact demo_scaffold_env ["repo"; "features"; "billing"] "example.com/m/features/billing") as (d & r & data & m & E & Hr & _); [|exact H|].
  - repeat constructor; try discriminate.
  - exists d, r. split; [exact E|]. change (en_fs demo_scaffold_env) with demo_fs in Hr. rewrite Hr. exists data. reflexivity.
Defined.

(** A comment after the module path, as a deprecation is written, becomes part of
    the import path; and a directive with a tab is not seen. *)
Lemma module_directive_gaps :
  parseModuleDirective "module example.com/m // Deprecated: use v2" = inl "example.com/m // Deprecated: use v2" ∧
  parseModuleDirective ("module" +:+ String (ascii_of_N 9) "example.com/m") = inr (New "no module directive found").
Proof. by vm_compute. Qed.

(** * What is written *)

Section written.
Context (isPrint : N → bool) (wordRune : Z → bool) (unicodeLower unicodeUpper : string → string).
Context (execute : string → Data → string + error) (format : string → string + error).

(** Something is at the target that may not be written over. *)
Definition occupied (env : Env) (target : string) (force : bool) : Prop :=
  match statF (osPath env target) (en_fs env) with
  | inl NDir => force = false ∧ readDirF (osPath env target) (en_fs env) ≠ inl []
  | inl _ => True
  | inr err => IsNotExist err = false
  end.
Lemma checkTargetDir_spec env target force : checkTargetDir env target force = None ↔ ¬ occupied env target force.
Proof.
  unfold checkTargetDir, occupied. destruct (statF _ _) as [[c m| |t]|err]; [by split|..|by split|by destruct (IsNotExist err); split].
  destruct force; [split; [by intros _ [? _]|done]|]. destruct (readDirF _ _) as [[|e es]|err]; split; try done; try (by intros _ [_ H]); intros H; by destruct H.
Qed.

Lemma writeFiles_spec target data specs : ∀ env files env', writeFiles execute format target data specs env = (inl files, env') →
  files = (λ spec, Join target (renderPath spec.2 data)) <$> specs ∧ Forall (λ spec, ∃ text, renderTemplate execute format spec.1 data = inl text) specs.
Proof.
  induction specs as [|[name path] specs IH]; intros env files env' H; [by injection H as <- _|]. cbn [writeFiles] in H. cbv zeta in H.
  destruct (renderTemplate execute format name data) as [text|] eqn:Er; [|done]. destruct (mkdirAllF _ _ _) as [[|] fs]; [|done].
  destruct (writeFileF _ _ _ fs) as [[|] fs']; [|done]. destruct (writeFiles _ _ _ _ _ _) as [[fl|] env2] eqn:Ew; [|done]. injection H as <- _.
  apply IH in Ew as [-> Hall]. split; [done|]. constructor; [by exists text|done].
Qed.

(** A target that is occupied is left as it is, with an error; a generation that
    succeeds wrote the nine files below a target that was not, every one of them
    from its template. *)
Theorem generate_exact cfg env names :
  deriveNames isPrint wordRune unicodeLower (cf_Name cfg) = inl names →
  let target := Join (cf_OutDir cfg) (dn_kebab names) in
  let run := Generate isPrint wordRune unicodeLower unicodeUpper execute format cfg env in
  (occupied env target (cf_Force cfg) → ∃ err, run = (inr err, env)) ∧
  (∀ res env', run = (inl res, env') → ¬ occupied env target (cf_Force cfg) ∧ rs_TargetDir res = target ∧
     ∃ import, let data := dataOf unicodeUpper names import in
       rs_Files res = (λ spec, Join target (renderPath spec.2 data)) <$> fileSpecs ∧
       Forall (λ spec, ∃ text, renderTemplate execute format spec.1 data = inl text) fileSpecs ∧
       (if String.eqb (cf_ModuleImport cfg) "" then detectModuleImport env target = inl import else import = cf_ModuleImport cfg)).
Proof.
  intros Hn target run. subst run. unfold Generate. rewrite Hn. destruct (String.eqb (TrimSpace (cf_OutDir cfg)) ""); [by split; [eauto|]|]. cbv zeta. fold target.
  destruct (checkTargetDir env target (cf_Force cfg)) as [err|] eqn:Ec.
  - split; [eauto|done].
  - apply checkTargetDir_spec in Ec. split; [done|]. intros res env' H. split; [done|].
    destruct (if String.eqb (cf_ModuleImport cfg) "" then _ else _) as [import|] eqn:Ei; [|done].
    destruct (writeFiles _ _ _ _ _ _) as [[files|] env2] eqn:Ew; [|done]. injection H as <- _. split; [done|].
    apply writeFiles_spec in Ew as [-> Hall]. exists import. split; [done|]. split; [done|]. destruct (String.eqb (cf_ModuleImport cfg) ""); [done|congruence].
Qed.
End written.

Lemma generate_exact_witness :
  ∃ res env', Generate (λ _, true) latin1 id id (λ name _, inl name) inl (mkConfig "Billing" "/repo" "" false) demo_scaffold_env = (inl res, env') ∧
    rs_TargetDir res = "/repo/billing" ∧ head (rs_Files res) = Some "/repo/billing/domain/billing.go" ∧
    readFileF "/repo/billing/README.md" (en_fs env') = inl "README.md.tmpl".
Proof.
  destruct (Generate (λ _, true) latin1 id id (λ name _, inl name) inl (mkConfig "Billing" "/repo" "" false) demo_scaffold_env) as [[res|err] env'] eqn:E;
    [|apply (f_equal fst) in E; vm_compute in E; discriminate E].
  exists res, env'. split; [reflexivity|].
  destruct (generate_exact (λ _, true) latin1 id id (λ name _, inl name) inl (mkConfig "Billing" "/repo" "" false) demo_scaffold_env
    (mkNames "billing" "billing" "Billing")) as [_ H]; [vm_compute; reflexivity|].
  destruct (H res env' E) as (_ & Ht & import & Hf & _). split; [rewrite Ht; vm_compute; reflexivity|]. split; [rewrite Hf; vm_compute; reflexivity|].
  apply (f_equal snd) in E. cbn [snd] in E. rewrite <- E. vm_compute. reflexivity.
Defined.
