(* ===== verification/Commands.v ===== *)
(** The command binaries: `modulex` (src/tools/agentcli/cmd/modulex/main.go),
    `provenanceci` and `scaffold`.

    A command is a function of its arguments and of the world it runs in to what
    it prints, how it exits, and the world it leaves.  Flags are parsed by
    [GoFlag.Parse].  The working directory is the root of the modelled file
    system.  JSON encoders, the analyzer driver and the formatting of times are
    parameters, as are those of the components. *)

From Stdlib Require Import Ascii.
From stdpp Require Import base gmap list strings pretty sorting.
From S2P Require Import Prelude Quote Paths Regex GoStrings GoFlag Provenance FileSystem Approval Envelope Classify VerifyPlan DiffScan Contract ProtectedPaths AgentDocs Discovery AgentCli SemIndex Scaffold.

(** * Output and exit *)

(** What is written to standard error: lines, the failure of a flag set (with its
    usage), and the defaults of a flag set. *)
Inductive ErrOut := ErrLine (s : string) | FlagUsage (cmd : string) (e : FlagError) | PrintDefaults (cmd : string).
(** A panic ends a Go program with status 2. *)
Inductive Exit := Returned | Exited (code : Z) | Panicked.
Definition exitCode (e : Exit) : Z := match e with Returned => 0 | Exited code => code | Panicked => 2 end.
Record Run := mkRun { stdout : list string; stderr : list ErrOut; exit : Exit }.

(** The file system, and the approvals files by their paths. *)
Record World := mkWorld { w_fs : FS; w_store : gmap string string }.
Definition Command := World → Run * World.

Definition die (code : Z) (lines : list ErrOut) : Run := mkRun [] lines (Exited code).
Definition dieErr (prefix : string) (err : error) : Run := die 1 [ErrLine (prefix +:+ ": " +:+ errorText err)].
Definition readOnlyCmd (r : World → Run) : Command := λ w, (r w, w).

(** * modulex *)

Definition usage : list ErrOut := ErrLine <$>
  ["Usage: modulex <command> [flags]"; nlString +:+ "Commands:";
   "  agent generate    render AGENTS.md/CLAUDE.md from modulex.agent.yaml";
   "  agent approve     grant an approval a separately-running MCP server can see";
   "  agent review      run the review checks over a diff and print the results as JSON";
   "  agent handoff     run the review and print a validated provenance handoff envelope as JSON";
   "  agent verify      plan and run the verification checks a diff recommends";
   "  new module        scaffold a feature module (domain/ports/service/adapters/module.go)";
   "  check boundary    run the modboundary analyzer against Go packages";
   "  doctor            diagnose a repository: discovery, tools, contract state"].

(** The checks that failed, by name. *)
Definition failedNames (results : list VerificationResult) : list string :=
  vr_Name <$> filter (λ r, vr_Status r = StatusFail) results.
(** [exitOnFailedChecks], after [out] has been printed. *)
Definition exitOnFailedChecks (out : list string) (prefix : string) (results : list VerificationResult) : Run :=
  let failed := failedNames results in
  if (0 <? length failed)%nat
  then mkRun out [ErrLine (prefix +:+ ": " +:+ pretty (length failed) +:+ " check(s) failed: " +:+ JoinWith ", " failed)] (Exited 1)
  else mkRun out [] Returned.

(** The flag sets. *)
Definition newFlags : FlagSet := {[ "name" := FString ""; "out" := FString ""; "module" := FString ""; "force" := FBool false ]}.
Definition reviewFlags : FlagSet :=
  {[ "root" := FString "."; "base" := FString ""; "head" := FString "HEAD"; "allow-network" := FBool false ]}.
Definition handoffFlags : FlagSet :=
  {[ "root" := FString "."; "agent" := FString "modulex"; "base" := FString ""; "head" := FString "HEAD"; "allow-network" := FBool false ]}.
Definition generateFlags : FlagSet := {[ "root" := FString "."; "check" := FBool false ]}.
Definition verifyFlags : FlagSet :=
  {[ "root" := FString "."; "base" := FString ""; "head" := FString "HEAD"; "allow-network" := FBool false; "full" := FBool false ]}.
Definition doctorFlags : FlagSet := {[ "root" := FString "."; "json" := FBool false ]}.
Definition approveFlags : FlagSet :=
  {[ "root" := FString "."; "action" := FString ""; "resource" := FString ""; "approved-by" := FString ""; "ttl" := FDuration 600000000000 ]}.

(** [os.ReadFile] as [contract.Load] uses it. *)
Definition readFileOf (fs : FS) (path : string) : option string + error :=
  match readFileF path fs with
  | inl data => inl (Some data)
  | inr err => if FileSystem.IsNotExist err then inl None else inr err
  end.

(** [%-14s]. *)
Definition padRight (n : nat) (s : string) : string := s +:+ String.string_of_list_ascii (replicate (n - length (decode s)) " "%char).
Definition showBool (b : bool) : string := if b then "true" else "false".

(** [Grant.String]. *)
Definition Grant_String (formatTime : Z → string) (g : Grant) : string :=
  "Grant{token_hash=" +:+ g_TokenHash g +:+ " scope=" +:+ Scope_String (g_Scope g) +:+ " approved_by=" +:+ g_ApprovedBy g +:+
  " approved_at=" +:+ formatTime (g_ApprovedAt g) +:+ " expires_at=" +:+ formatTime (g_ExpiresAt g) +:+
  " status=" +:+ (if g_Used g then "used" else "active") +:+ "}".

Section commands.
Context (isPrint : N → bool) (fraction : Z → Z → Z → Z) (git : Git) (yamlUnmarshal : string → Contract + error).
Context (gitFound : option error) (revParse : string → list string → string + error) (discoverRepo : string → Repository + error).
(** The processes that checks run, and the clock. *)
Context (env : nat → VerifyPlan.Env) (now : nat → Z).
(** [json.Encoder.Encode] with two spaces of indentation, [time.Format] with RFC 3339. *)
Context (encodeResults : list VerificationResult → string + error) (encodeEnvelope : Envelope → string + error).
Context (encodeReport : DoctorReport → string + error) (formatTime : Z → string).
(** [sort.Slice]. *)
Context (sortSlice : ∀ A, (A → A → bool) → list A → list A) (sortChecks : list CheckSpec → list CheckSpec).
(** What an approval needs: the digest of tokens, the codec of the store, the
    random token, and the outcome of each file operation. *)
Context (hashToken : string → string) (marshal : list storedGrant → string + error) (unmarshal : string → list storedGrant + error).
Context (rnd : string + error) (readErr : option error) (io : SaveIO).
(** What the scaffold needs: Unicode classes and case, and the template engine. *)
Context (wordRune : Z → bool) (unicodeLower unicodeUpper : string → string).
Context (execute : string → Data → string + error) (format : string → string + error).
(** [singlechecker.Main] with the given arguments. *)
Context (singlechecker : list string → Run).

(** [fs.Parse] with [flag.ExitOnError]. *)
Definition parsing (cmd : string) (formal : FlagSet) (args : list string) (k : FlagSet → Command) : Command := λ w,
  match Parse fraction formal args with
  | inr e => (mkRun [] [FlagUsage cmd e] (Exited (flagExit e)), w)
  | inl (fs, _) => k fs w
  end.
(** [printJSON]: what is written, or the error. *)
Definition printJSON (prefix : string) (doc : string + error) (k : list string → Run) : Run :=
  match doc with inr err => dieErr prefix err | inl text => k [text] end.
Definition needsBase (cmd : string) (fs : FlagSet) (k : Command) : Command := λ w,
  if String.eqb (getString fs "base") "" then (die 2 [ErrLine (cmd +:+ ": -base is required"); PrintDefaults cmd], w) else k w.

Definition runReview (args : list string) : Command :=
  let cmd := "modulex agent review" in
  parsing cmd reviewFlags args (λ fs, needsBase cmd fs (readOnlyCmd (λ _,
    match cliReview isPrint git yamlUnmarshal discoverRepo env (getString fs "root") (getString fs "base") (getString fs "head") (getBool fs "allow-network") with
    | inr err => dieErr cmd err
    | inl None => mkRun [] [] Panicked
    | inl (Some results) => printJSON cmd (encodeResults results) (λ out, exitOnFailedChecks out cmd results)
    end))).

Definition runHandoff (args : list string) : Command :=
  let cmd := "modulex agent handoff" in
  parsing cmd handoffFlags args (λ fs, needsBase cmd fs (readOnlyCmd (λ _,
    match Handoff isPrint git yamlUnmarshal gitFound revParse discoverRepo env (getString fs "root") (getString fs "agent")
            (getString fs "base") (getString fs "head") (getBool fs "allow-network") (now 0) with
    | None => mkRun [] [] Panicked
    | Some (inr err) => dieErr cmd err
    | Some (inl e) => printJSON cmd (encodeEnvelope e) (λ out, exitOnFailedChecks out cmd (en_Verification e))
    end))).

(** A check that was really run. *)
Definition executed (results : list VerificationResult) : list VerificationResult :=
  filter (λ r, vr_Status r = StatusPass ∨ vr_Status r = StatusFail) results.
Definition notExecuted : string :=
  "modulex agent verify: no check was actually executed (empty plan, or every check unavailable/skipped/approval-required); refusing to report success " +:+
  String (ascii_of_N 226) (String (ascii_of_N 128) (String (ascii_of_N 148) " consider -full, and check tool availability")).
(** The approvals file of the repository, as verification loads it. *)
Definition loadApprovals (w : World) (root : string) : Broker + error :=
  match discoverRepo root with
  | inl repo => Approval.Load hashToken unmarshal (DefaultStorePath (re_Root repo)) readErr (w_store w)
  | inr err => inr err
  end.
Definition runVerify (args : list string) : Command :=
  let cmd := "modulex agent verify" in
  parsing cmd verifyFlags args (λ fs, needsBase cmd fs (readOnlyCmd (λ w,
    match Verify isPrint git discoverRepo sortChecks env now (loadApprovals w (getString fs "root")) (getString fs "root")
            (getString fs "base") (getString fs "head") (getBool fs "allow-network") (getBool fs "full") with
    | inr err => dieErr cmd err
    | inl ran =>
      let results := ran.*1 in
      printJSON cmd (encodeResults results) (λ out,
        if (length (executed results) =? 0)%nat then mkRun out [ErrLine notExecuted] (Exited 1) else exitOnFailedChecks out cmd results)
    end))).

Definition runGenerate (args : list string) : Command :=
  let cmd := "modulex agent generate" in
  parsing cmd generateFlags args (λ fs w,
    let root := getString fs "root" in
    match LoadContract yamlUnmarshal (readFileOf (w_fs w)) root with
    | inr err => (dieErr cmd err, w)
    | inl c =>
      if getBool fs "check" then
        match CheckGeneratedFiles sortSlice root c (w_fs w) with
        | inr err => (dieErr cmd err, w)
        | inl [] => (mkRun ["ok: generated files match the contract"] [] Returned, w)
        | inl drifted =>
          (die 1 [ErrLine (cmd +:+ ": " +:+ pretty (length drifted) +:+ " file(s) drifted from the contract: " +:+ JoinWith ", " drifted +:+
             nlString +:+ "run `modulex agent generate` to regenerate")], w)
        end
      else
        match WriteGeneratedFiles sortSlice root c (w_fs w) with
        | ((_, Some err), fs') => (dieErr cmd err, mkWorld fs' (w_store w))
        | ((written, None), fs') => (mkRun ((λ name, "wrote " +:+ name) <$> written) [] Returned, mkWorld fs' (w_store w))
        end
    end).

Definition contractLine (rep : DoctorReport) : string :=
  let dash := String (ascii_of_N 226) (String (ascii_of_N 128) (String (ascii_of_N 148) EmptyString)) in
  if negb (dr_ContractPresent rep) then "contract:        absent (no modulex.agent.yaml " +:+ dash +:+ " normal for repositories without one)"
  else if negb (String.eqb (dr_ContractError rep) "") then "contract:        BROKEN " +:+ dash +:+ " " +:+ dr_ContractError rep
  else "contract:        valid (" +:+ pretty (dr_Projects rep) +:+ " project(s), " +:+ pretty (dr_Commands rep) +:+ " command(s), " +:+
       pretty (dr_ProtectedPaths rep) +:+ " protected path(s))".
Definition reportLines (rep : DoctorReport) : list string :=
  ["root:            " +:+ dr_Root rep;
   "git repository:  " +:+ showBool (dr_IsGitRepo rep) +:+ " (dirty: " +:+ showBool (dr_Dirty rep) +:+ ")"; "tools:"] ++
  ((λ t, "  " +:+ padRight 14 (to_Name t) +:+ " " +:+ (if to_Present t then to_Path t else "missing")) <$> dr_Tools rep) ++
  [contractLine rep].
Definition runDoctor (args : list string) : Command :=
  let cmd := "modulex doctor" in
  parsing cmd doctorFlags args (λ fs, readOnlyCmd (λ w,
    match Doctor yamlUnmarshal discoverRepo (readFileOf (w_fs w)) (getString fs "root") with
    | inr err => dieErr cmd err
    | inl rep =>
      let ending out := mkRun out [] (if String.eqb (dr_ContractError rep) "" then Returned else Exited 1) in
      if getBool fs "json" then printJSON cmd (encodeReport rep) ending else ending (reportLines rep)
    end)).

Definition runApprove (args : list string) : Command :=
  let cmd := "modulex agent approve" in
  parsing cmd approveFlags args (λ fs w,
    if String.eqb (getString fs "action") "" || String.eqb (getString fs "approved-by") ""
    then (die 2 [ErrLine (cmd +:+ ": -action and -approved-by are required"); PrintDefaults cmd], w)
    else
      match Approve hashToken marshal unmarshal (getString fs "root") (getString fs "action") (getString fs "resource")
              (getString fs "approved-by") (getDuration fs "ttl") (now 0) rnd readErr io (w_store w) with
      | (inr err, store) => (dieErr cmd err, mkWorld (w_fs w) store)
      | (inl grant, store) =>
        (mkRun ["granted: " +:+ Grant_String formatTime grant;
                "token (sensitive " +:+ String (ascii_of_N 226) (String (ascii_of_N 128) (String (ascii_of_N 148)
                  (" do not share or log this): " +:+ g_Token grant)))] [] Returned,
         mkWorld (w_fs w) store)
      end).

(** [scaffold.Generate], run in the root of the file system. *)
Definition scaffolding (fs : FlagSet) (failed : error → Run) : Command := λ w,
  match Scaffold.Generate isPrint wordRune unicodeLower unicodeUpper execute format
          (Scaffold.mkConfig (getString fs "name") (getString fs "out") (getString fs "module") (getBool fs "force"))
          (SemIndex.mkEnv (w_fs w) "/" None) with
  | (inr err, e) => (failed err, mkWorld (en_fs e) (w_store w))
  | (inl res, e) =>
    (mkRun (("generated " +:+ rs_TargetDir res +:+ ":") :: ((λ f, "  " +:+ f) <$> rs_Files res)) [] Returned, mkWorld (en_fs e) (w_store w))
  end.
Definition runNew (args : list string) : Command :=
  let cmd := "modulex new module" in
  let usage := readOnlyCmd (λ _, die 2 [ErrLine "Usage: modulex new module -name <feature> -out <parent-dir> [-module <import-path>] [-force]"]) in
  match args with
  | [] => usage
  | what :: args =>
    if negb (String.eqb what "module") then usage
    else parsing cmd newFlags args (λ fs,
      if String.eqb (getString fs "name") "" || String.eqb (getString fs "out") ""
      then readOnlyCmd (λ _, die 2 [ErrLine (cmd +:+ ": -name and -out are required"); PrintDefaults cmd])
      else scaffolding fs (dieErr cmd))
  end.

Definition runCheck (args : list string) : Command :=
  let usage := readOnlyCmd (λ _, die 2 [ErrLine "Usage: modulex check boundary [analyzer flags] [packages...]";
    ErrLine (nlString +:+ "Analyzer flags include -root, -allow, and -dbschema; run with -help for the full set.")]) in
  match args with
  | [] => usage
  | what :: args => if negb (String.eqb what "boundary") then usage else readOnlyCmd (λ _, singlechecker ("modulex check boundary" :: args))
  end.

Definition runAgent (args : list string) : Command :=
  match args with
  | [] => readOnlyCmd (λ _, die 2 usage)
  | sub :: args =>
    if String.eqb sub "generate" then runGenerate args
    else if String.eqb sub "approve" then runApprove args
    else if String.eqb sub "review" then runReview args
    else if String.eqb sub "handoff" then runHandoff args
    else if String.eqb sub "verify" then runVerify args
    else readOnlyCmd (λ _, die 2 (ErrLine ("modulex agent: unknown subcommand " +:+ Quote isPrint sub +:+ nlString) :: usage))
  end.

(** [main], of the arguments after the name of the program. *)
Definition modulex_main (args : list string) : Command :=
  match args with
  | [] => readOnlyCmd (λ _, die 2 usage)
  | cmd :: args =>
    if String.eqb cmd "agent" then runAgent args
    else if String.eqb cmd "new" then runNew args
    else if String.eqb cmd "check" then runCheck args
    else if String.eqb cmd "doctor" then runDoctor args
    else readOnlyCmd (λ _, die 2 (ErrLine ("modulex: unknown command " +:+ Quote isPrint cmd +:+ nlString) :: usage))
  end.

(** * scaffold *)

(** [main] of the scaffold command, whose flags are those of `modulex new module`. *)
Definition scaffold_main (program : string) (args : list string) : Command :=
  parsing program newFlags args (λ fs,
    if String.eqb (getString fs "name") "" || String.eqb (getString fs "out") ""
    then readOnlyCmd (λ _, die 2 [ErrLine ("Usage: " +:+ program +:+ " -name <feature-name> -out <parent-dir> [-module <import-path>] [-force]" +:+ nlString); PrintDefaults program])
    else scaffolding fs (λ err, die 1 [ErrLine (errorText err)])).
End commands.

(** * provenanceci *)

Definition ciFlags : FlagSet :=
  {[ "commit" := FString ""; "branch" := FString ""; "repo" := FString "."; "out" := FString "provenance.json"; "job" := FJobs [] ]}.

Section provenanceci.
Context (isPrint : N → bool) (fraction : Z → Z → Z → Z) (sortJobs : list JobResult → list JobResult) (marshalEnvelope : Envelope → string + error) (now : Z).
(** [exec.LookPath("git")], and the output of [git -C repo status --porcelain]. *)
Context (gitFound : option error) (gitStatus : string → string + error).

Definition isDirty (repoPath : string) : bool :=
  match gitFound with
  | Some _ => false
  | None => match gitStatus repoPath with inr _ => false | inl out => (0 <? String.length (TrimSpace out))%nat end
  end.
Definition ciUsage (program : string) : list ErrOut :=
  [ErrLine ("Usage: " +:+ program +:+ " -commit <sha> -job name=result [-job name=result ...] [-branch <name>] [-repo <path>] [-out <path>]" +:+ nlString);
   PrintDefaults program].
Definition provenanceci_main (program : string) (args : list string) : Command := parsing fraction program ciFlags args (λ fs w,
  let jobs := getJobs fs "job" in
  if String.eqb (getString fs "commit") "" then (die 2 (ErrLine "error: -commit is required" :: ciUsage program), w)
  else if (length jobs =? 0)%nat then (die 2 (ErrLine "error: at least one -job is required" :: ciUsage program), w)
  else
    match BuildEnvelope isPrint sortJobs (AgentCli.mkConfig (getString fs "repo") (getString fs "commit") (getString fs "branch")
            (isDirty (getString fs "repo")) ((λ j, mkJobResult j.1 j.2) <$> jobs) zeroTime) now with
    | inr err => (die 1 [ErrLine (errorText err)], w)
    | inl e =>
      match marshalEnvelope e with
      | inr err => (die 1 [ErrLine (errorText (Errorf "provenanceci: marshal envelope: %w" [] [err]))], w)
      | inl b =>
        match writeFileF (getString fs "out") b 420 (w_fs w) with
        | (inr err, fs') => (die 1 [ErrLine (errorText (Errorf "provenanceci: write %s: %w" [getString fs "out"] [err]))], mkWorld fs' (w_store w))
        | (inl _, fs') =>
          (mkRun ["wrote " +:+ getString fs "out" +:+ " (" +:+ pretty (length jobs) +:+ " job result(s))"] [] Returned, mkWorld fs' (w_store w))
        end
      end
    end).
End provenanceci.

(** * What the exit codes mean *)

Lemma failedNames_nil results : failedNames results = [] ↔ Forall (λ v, vr_Status v ≠ StatusFail) results.
Proof.
  unfold failedNames. induction results as [|v results IH]; [done|]. rewrite Forall_cons, <- IH, filter_cons.
  case_decide; simpl; naive_solver.
Qed.
Lemma exitOnFailedChecks_code out prefix results :
  exitCode (exit (exitOnFailedChecks out prefix results)) = 0%Z ↔ Forall (λ v, vr_Status v ≠ StatusFail) results.
Proof.
  rewrite <- failedNames_nil. unfold exitOnFailedChecks. destruct (failedNames results); simpl; [done|]. split; done.
Qed.
Lemma exitOnFailedChecks_out out prefix results : stdout (exitOnFailedChecks out prefix results) = out.
Proof. unfold exitOnFailedChecks. by case_match. Qed.
Lemma parsing_zero fraction cmd formal args k w : exitCode (exit (parsing fraction cmd formal args k w).1) = 0%Z ↔
  Parse fraction formal args = inr ErrHelp ∨ ∃ fs rest, Parse fraction formal args = inl (fs, rest) ∧ exitCode (exit (k fs w).1) = 0%Z.
Proof.
  unfold parsing. destruct (Parse fraction formal args) as [[fs rest]|[|msg]] eqn:E; simpl.
  - split; [eauto|]. intros [?|(fs' & rest' & [= <- <-] & H)]; [done|exact H].
  - split; [by left|done].
  - split; [done|]. by intros [?|(? & ? & ? & _)].
Qed.
Lemma parsing_printed fraction cmd formal args k w : stdout (parsing fraction cmd formal args k w).1 ≠ [] →
  ∃ fs rest, Parse fraction formal args = inl (fs, rest) ∧ parsing fraction cmd formal args k w = k fs w.
Proof. unfold parsing. destruct (Parse fraction formal args) as [[fs rest]|e]; [eauto|done]. Qed.

Section gates.
Context (isPrint : N → bool) (fraction : Z → Z → Z → Z) (git : Git) (yaml : string → Contract + error) (discoverRepo : string → Repository + error).
Context (env : nat → VerifyPlan.Env) (encodeResults : list VerificationResult → string + error).
Let review := runReview isPrint fraction git yaml discoverRepo env encodeResults.

(** The review of a command line was run and printed. *)
Definition reviewed (args : list string) (fs : FlagSet) (results : list VerificationResult) (text : string) : Prop :=
  (∃ rest, Parse fraction reviewFlags args = inl (fs, rest)) ∧ getString fs "base" ≠ "" ∧
  cliReview isPrint git yaml discoverRepo env (getString fs "root") (getString fs "base") (getString fs "head") (getBool fs "allow-network") = inl (Some results) ∧
  encodeResults results = inl text.

(** Without help being asked for, the exit code of a review is 0 exactly when the
    review ran, its results were printed, and none of them is a failure. *)
Lemma review_exit args w : exitCode (exit (review args w).1) = 0%Z ↔
  Parse fraction reviewFlags args = inr ErrHelp ∨
  ∃ fs results text, reviewed args fs results text ∧ stdout (review args w).1 = [text] ∧ Forall (λ v, vr_Status v ≠ StatusFail) results.
Proof.
  unfold review, runReview. rewrite parsing_zero. unfold parsing, reviewed.
  destruct (Parse fraction reviewFlags args) as [[fs rest]|[]]; [|split; [by left|by left]|].
  2:{ split; (intros [|(? & ? & ?)]; [done|]); [by destruct_and?|]. destruct H as (? & ((? & ?) & _) & _). done. }
  unfold needsBase, readOnlyCmd. split.
  - intros [?|(fs' & rest' & [= <- <-] & H)]; [done|right]. revert H. destruct (String.eqb_spec (getString fs "base") "") as [|Hb]; [done|].
    simpl. destruct (cliReview _ _ _ _ _ _ _ _ _) as [[results|]|err] eqn:Er; [|done|done]. unfold printJSON.
    destruct (encodeResults results) as [text|err] eqn:Ee; [|done]. rewrite exitOnFailedChecks_code. intros Hf.
    exists fs, results, text. rewrite exitOnFailedChecks_out. split_and!; eauto.
  - intros [?|(fs' & results & text & ((rest' & [= <- <-]) & Hb & Hr & He) & _ & Hf)]; [done|right]. exists fs, rest. split; [done|].
    apply String.eqb_neq in Hb. rewrite Hb. simpl. rewrite Hr. unfold printJSON. rewrite He. by apply exitOnFailedChecks_code.
Qed.

(** A review that ran, taken apart. *)
Lemma cliReview_inv root base head allow results : cliReview isPrint git yaml discoverRepo env root base head allow = inl (Some results) →
  ∃ repo ps, discoverRepo root = inl repo ∧ LoadProtectedPathsAtRef git yaml root base = inl ps ∧
    Review isPrint git env (re_Root repo) base head (re_Tools repo) allow ps = Some results.
Proof.
  unfold cliReview, reviewRepo, discovering, loadProtectedPaths. destruct (discoverRepo root) as [repo|]; [|done].
  destruct (LoadProtectedPathsAtRef git yaml root base) as [ps|]; [|done]. intros [= H]. exists repo, ps. done.
Qed.
(** The two checks that every review has. *)
Lemma Review_has dir base head tools allow ps results : Review isPrint git env dir base head tools allow ps = Some results →
  ∃ sec, ScanSecrets git dir base head = Some sec ∧ sec ∈ results ∧ CheckProtectedPaths isPrint git dir base head ps ∈ results.
Proof.
  unfold Review. destruct (ScanSecrets git dir base head) as [sec|]; [|done]. intros [= <-]. exists sec. split; [done|]. split; set_solver.
Qed.

(** What git says of a change: the files, and a well-formed diff. *)
Record describes (dir base head : string) (changed : list string) (ds : list DiffItem) : Prop := {
  ds_files : ChangedFiles git dir base head = inl changed;
  ds_diff : gitDiff git dir base head = inl (JoinWith nlString (diffLines ds));
  ds_wf : Forall wfItem ds;
  ds_some : ds ≠ [];
  ds_lines : Forall (λ l, newline ∉ String.list_ascii_of_string l) (diffLines ds);
  ds_bound : (Z.of_nat (length (diffLines ds)) ≤ maxInt)%Z }.


(** What [modulex agent verify] reports is 0 only if a check was run and passed. *)
Theorem green_verify_ran sortChecks now hashToken unmarshal readErr args w fs rest :
  let r := runVerify isPrint fraction git discoverRepo env now encodeResults sortChecks hashToken unmarshal readErr args w in
  Parse fraction verifyFlags args = inl (fs, rest) → exitCode (exit r.1) = 0%Z →
  ∃ ran text, Verify isPrint git discoverRepo sortChecks env now (loadApprovals discoverRepo hashToken unmarshal readErr w (getString fs "root"))
      (getString fs "root") (getString fs "base") (getString fs "head") (getBool fs "allow-network") (getBool fs "full") = inl ran ∧
    encodeResults ran.*1 = inl text ∧ stdout r.1 = [text] ∧ r.2 = w ∧
    (∃ v, v ∈ ran.*1 ∧ vr_Status v = StatusPass) ∧ Forall (λ v, vr_Status v ≠ StatusFail) ran.*1.
Proof.
  intros r Hp. subst r. unfold runVerify, parsing. rewrite Hp. unfold needsBase, readOnlyCmd. case_match; [done|]. simpl.
  destruct (Verify _ _ _ _ _ _ _ _ _ _ _ _) as [ran|err]; [|done]. unfold printJSON. destruct (encodeResults ran.*1) as [text|err] eqn:Ee; [|done].
  destruct (executed ran.*1) as [|v l] eqn:Ex; [done|]. simpl. rewrite exitOnFailedChecks_code, exitOnFailedChecks_out. intros Hall.
  exists ran, text. split_and!; [done..| |done]. assert (v ∈ executed ran.*1) as [[Hv|Hv] Hin]%list_elem_of_filter by (rewrite Ex; left); [eauto|].
  rewrite Forall_forall in Hall. by destruct (Hall v Hin).
Qed.

(** A handoff is gated as the review is: given the same flags, and an envelope that
    could be assembled and printed, both exit with 0 or neither does. *)
Theorem handoff_gate gitFound revParse encodeEnvelope now args args' w fs fs' rest rest' results text e doc :
  Parse fraction reviewFlags args = inl (fs, rest) → Parse fraction handoffFlags args' = inl (fs', rest') →
  getString fs "root" = getString fs' "root" → getString fs "base" = getString fs' "base" → getString fs "head" = getString fs' "head" →
  getBool fs "allow-network" = getBool fs' "allow-network" →
  reviewed args fs results text → 
  Handoff isPrint git yaml gitFound revParse discoverRepo env (getString fs' "root") (getString fs' "agent") (getString fs' "base")
    (getString fs' "head") (getBool fs' "allow-network") (now 0) = Some (inl e) → encodeEnvelope e = inl doc →
  let handoff := runHandoff isPrint fraction git yaml gitFound revParse discoverRepo env now encodeEnvelope args' w in
  stdout handoff.1 = [doc] ∧ (exitCode (exit handoff.1) = 0%Z ↔ exitCode (exit (review args w).1) = 0%Z).
Proof.
  intros Hp Hp' E1 E2 E3 E4 Hrev Hh He handoff. pose proof Hrev as (_ & Hb & Hr & _).
  assert (∃ repo, reviewRepo isPrint git yaml discoverRepo env (getString fs' "root") (getString fs' "base") (getString fs' "head")
    (getBool fs' "allow-network") = inl (repo, Some results)) as [repo Hrepo].
  { rewrite E1, E2, E3, E4 in Hr. unfold cliReview in Hr. destruct (reviewRepo _ _ _ _ _ _ _ _ _) as [[repo o]|]; [|done].
    injection Hr as Hr. simpl in Hr. subst o. eauto. }
  pose proof (handoff_exact _ _ _ _ _ _ _ _ _ _ _ _ _ _ Hh) as (repo' & results' & _ & Hrepo' & Hv & _).
  rewrite Hrepo in Hrepo'. injection Hrepo' as <- <-. subst handoff.
  unfold runHandoff, parsing. rewrite Hp'. unfold needsBase, readOnlyCmd. rewrite E2 in Hb. apply String.eqb_neq in Hb. rewrite Hb. simpl.
  rewrite Hh. unfold printJSON. rewrite He, exitOnFailedChecks_out, exitOnFailedChecks_code, Hv, Forall_fmap, review_exit. split; [done|]. split.
  - intros Hall. right. exists fs, results, text. split; [done|]. split; [|exact Hall].
    destruct Hrev as (_ & Hb' & Hr' & Henc). unfold review, runReview, parsing. rewrite Hp. unfold needsBase, readOnlyCmd.
    apply String.eqb_neq in Hb'. rewrite Hb'. simpl. rewrite Hr'. unfold printJSON. by rewrite Henc, exitOnFailedChecks_out.
  - intros [?|(fs2 & results2 & text2 & ((? & Hp2) & _ & Hr2 & _) & _ & Hall)]; [congruence|].
    rewrite Hp in Hp2. injection Hp2 as <- _. rewrite (proj1 (proj2 (proj2 Hrev))) in Hr2. by injection Hr2 as <-.
Qed.
End gates.

(** ** Generating and checking *)

Section documents.
Context (fraction : Z → Z → Z → Z) (yaml : string → Contract + error) (sortSlice : ∀ A, (A → A → bool) → list A → list A).
Let generate := runGenerate fraction yaml sortSlice.

Lemma LoadContract_same f g root c : f (Join root FileName) = g (Join root FileName) → LoadContract yaml f root = inl c → LoadContract yaml g root = inl c.
Proof. intros E. unfold LoadContract, Contract.Load. by rewrite E. Qed.
Lemma LoadContract_data f root c : LoadContract yaml f root = inl c → ∃ data, f (Join root FileName) = inl (Some data).
Proof. unfold LoadContract, Contract.Load. destruct (f _) as [[data|]|]; [eauto|done|done]. Qed.

(** C39. `modulex agent generate` leaves a repository that `modulex agent generate
    -check` accepts: it exits with 0, says so, and changes nothing; provided that
    the paths of the two documents and of the contract resolve to three different
    files (if one document is a link to the other, [linked_document_drifts]). *)
Theorem generate_then_check args args' w w' r fs fs' rest rest' q0 q1 q2 :
  Parse fraction generateFlags args = inl (fs, rest) → getBool fs "check" = false →
  Parse fraction generateFlags args' = inl (fs', rest') → getBool fs' "check" = true → getString fs' "root" = getString fs "root" →
  let root := getString fs "root" in
  wf (w_fs w) → walk kernelLinks (w_fs w) [] (elems (Join root FileName)) = inl q0 →
  walkCreate kernelLinks (w_fs w) [] (elems (Join root "AGENTS.md")) = inl q1 →
  walkCreate kernelLinks (w_fs w) [] (elems (Join root "CLAUDE.md")) = inl q2 → NoDup [q0; q1; q2] →
  generate args w = (r, w') → exitCode (exit r) = 0%Z →
  stdout r = ["wrote AGENTS.md"; "wrote CLAUDE.md"] ∧
  generate args' w' = (mkRun ["ok: generated files match the contract"] [] Returned, w').
Proof.
  intros Hp Hc Hp' Hc' Er root Hwf H0 H1 H2 Hnd. unfold generate, runGenerate, parsing. rewrite Hp, Hp', Hc, Hc', Er. fold root.
  destruct (LoadContract yaml (readFileOf (w_fs w)) root) as [c|err] eqn:El; [|by intros [= <- <-]].
  destruct (WriteGeneratedFiles sortSlice root c (w_fs w)) as [[names [err|]] fs2] eqn:Ew; [by intros [= <- <-]|]. intros [= <- <-] _.
  apply NoDup_cons in Hnd as [Hn0 [Hn1 _]%NoDup_cons]. rewrite !elem_of_cons in Hn0. rewrite list_elem_of_singleton in Hn1.
  destruct (generated_written _ _ _ _ _ _ _ _ Hwf H1 H2 Hn1 Ew) as (-> & Hck & _). split; [done|]. simpl.
  assert (LoadContract yaml (readFileOf fs2) root = inl c) as ->; [|by rewrite Hck].
  destruct (LoadContract_data _ _ _ El) as [data Hd]. eapply LoadContract_same; [|exact El]. rewrite Hd. unfold readFileOf in *.
  destruct (readFileF (Join root FileName) (w_fs w)) as [d|err] eqn:Ed; [|by destruct (FileSystem.IsNotExist err)]. injection Hd as ->.
  rewrite (generated_elsewhere _ _ _ _ _ _ _ _ (Join root FileName) q0 data Hwf H1 H2 Hn1 Ew H0); [done|by intros ->; apply Hn0; left|by intros ->; apply Hn0; right; left|done].
Qed.
End documents.

(** ** What commands leave alone *)

Section effects.
Context (isPrint : N → bool) (fraction : Z → Z → Z → Z) (git : Git) (yaml : string → Contract + error).
Context (gitFound : option error) (revParse : string → list string → string + error) (discoverRepo : string → Repository + error).
Context (env : nat → VerifyPlan.Env) (now : nat → Z).
Context (encodeResults : list VerificationResult → string + error) (encodeEnvelope : Envelope → string + error).
Context (encodeReport : DoctorReport → string + error) (formatTime : Z → string).
Context (sortSlice : ∀ A, (A → A → bool) → list A → list A) (sortChecks : list CheckSpec → list CheckSpec).
Context (hashToken : string → string) (marshal : list storedGrant → string + error) (unmarshal : string → list storedGrant + error).
Context (rnd : string + error) (readErr : option error) (io : SaveIO).
Context (wordRune : Z → bool) (unicodeLower unicodeUpper : string → string).
Context (execute : string → Data → string + error) (format : string → string + error) (singlechecker : list string → Run).
Let main := modulex_main isPrint fraction git yaml gitFound revParse discoverRepo env now encodeResults encodeEnvelope encodeReport formatTime
  sortSlice sortChecks hashToken marshal unmarshal rnd readErr io wordRune unicodeLower unicodeUpper execute format singlechecker.

Lemma readOnly_same r w : (readOnlyCmd r w).2 = w.
Proof. done. Qed.
Lemma parsing_same cmd formal args k w : (∀ fs, (k fs w).2 = w) → (parsing fraction cmd formal args k w).2 = w.
Proof. intros H. unfold parsing. destruct (Parse fraction formal args) as [[fs rest]|e]; [apply H|done]. Qed.
Lemma needsBase_same cmd fs k w : (k w).2 = w → (needsBase cmd fs k w).2 = w.
Proof. unfold needsBase. by case_match. Qed.
Hint Resolve readOnly_same parsing_same needsBase_same : core.

(** The command lines that may change something. *)
Definition writes (args : list string) : bool :=
  match args with
  | cmd :: sub :: _ =>
    String.eqb cmd "agent" && (String.eqb sub "generate" || String.eqb sub "approve") || String.eqb cmd "new" && String.eqb sub "module"
  | _ => false
  end.
Lemma agent_same sub args w : let run := main ("agent" :: sub :: args) w in
  writes ["agent"; sub] = false ∨ exitCode (exit run.1) = 2%Z → run.2 = w.
Proof.
  unfold main, modulex_main, runAgent, writes. simpl. destruct (String.eqb sub "generate").
  { intros [H|H]; [done|]. revert H. unfold runGenerate, parsing. destruct (Parse _ _ _) as [[fs rest]|e]; [|done].
    destruct (LoadContract _ _ _) as [c|]; [|done]. case_match; [by repeat case_match|].
    by destruct (WriteGeneratedFiles _ _ _ _) as [[? [|]] ?]. }
  destruct (String.eqb sub "approve").
  { intros [H|H]; [done|]. revert H. unfold runApprove, parsing. destruct (Parse _ _ _) as [[fs rest]|e]; [|done].
    case_match; [done|]. by destruct (Approve _ _ _ _ _ _ _ _ _ _ _ _ _) as [[|] ?]. }
  intros _. unfold runReview, runHandoff, runVerify. repeat (case_match; [by auto|]). done.
Qed.

(** The commands that only look (review, handoff, verify, doctor, check), and
    every command line that is refused as a usage error, leave the files and the
    approvals as they are. *)
Theorem looking_changes_nothing args w : writes args = false ∨ exitCode (exit (main args w).1) = 2%Z → (main args w).2 = w.
Proof.
  destruct args as [|cmd args]; [done|]. destruct (decide (cmd = "agent")) as [->|Hna].
  { destruct args as [|sub args]; [done|]. apply agent_same. }
  unfold main, modulex_main. rewrite (proj2 (String.eqb_neq _ _) Hna). destruct (String.eqb_spec cmd "new") as [->|Hnn].
  - unfold runNew. destruct args as [|sub args]; [done|]. unfold writes. simpl. destruct (String.eqb sub "module"); [|done].
    intros [H|H]; [done|]. revert H. simpl. unfold parsing. destruct (Parse _ _ _) as [[fs rest]|e]; [|done]. case_match; [done|].
    unfold scaffolding. by destruct (Scaffold.Generate _ _ _ _ _ _ _ _) as [[|] ?].
  - intros _. destruct (String.eqb cmd "check"); [unfold runCheck; destruct args; [done|by case_match]|].
    destruct (String.eqb cmd "doctor"); [|done]. unfold runDoctor. auto.
Qed.
End effects.

(** ** The envelope of a CI run *)

(** A job as it is given on the command line. *)
Definition jobArg (j : string * string) : string := asArg ("job", j.1 +:+ "=" +:+ j.2).
Definition jobOk (j : string * string) : Prop := j.1 ≠ "" ∧ j.2 ≠ "" ∧ "="%char ∉ String.list_ascii_of_string j.1.

Section ci.
Context (isPrint : N → bool) (fraction : Z → Z → Z → Z) (sortJobs : list JobResult → list JobResult) (marshalEnvelope : Envelope → string + error) (now : Z).
Context (gitFound : option error) (gitStatus : string → string + error) (program : string).

Lemma jobs_applied jobs : Forall jobOk jobs → ∀ formal prev, formal !! "job" = Some (FJobs prev) →
  foldl (applied fraction) formal ((λ j, ("job", j.1 +:+ "=" +:+ j.2)) <$> jobs) =
  match jobs with [] => formal | _ => <["job" := FJobs (prev ++ jobs)]> formal end.
Proof.
  induction 1 as [|[n r] jobs (Hn & Hr & He) _ IH]; intros formal prev Hd; [done|]. simpl in *. unfold applied at 2. simpl. rewrite Hd. simpl.
  unfold jobFlags_Set. rewrite (proj2 (cutEquals_name n r He)). apply String.eqb_neq in Hn, Hr. rewrite Hn, Hr. simpl.
  rewrite (IH _ (prev ++ [(n, r)])) by apply lookup_insert_eq. destruct jobs as [|j jobs]; [done|]. by rewrite insert_insert_eq, <- (assoc_L (++)).
Qed.
Lemma ci_parsed commit jobs : Forall jobOk jobs → jobs ≠ [] →
  Parse fraction ciFlags (asArg ("commit", commit) :: (jobArg <$> jobs)) =
  inl (<["job" := FJobs jobs]> (<["commit" := FString commit]> ciFlags), []).
Proof.
  intros Hj Hne. pose proof (Parse_args fraction (("commit", commit) :: ((λ j, ("job", j.1 +:+ "=" +:+ j.2)) <$> jobs)) ciFlags []) as H.
  rewrite app_nil_r, fmap_cons, <- list_fmap_compose in H. change (asArg ∘ (λ j : string * string, ("job", j.1 +:+ "=" +:+ j.2))) with jobArg in H.
  rewrite H; [|apply Forall_cons; split|done].
  - f_equal. f_equal. cbn [foldl]. change (applied fraction ciFlags ("commit", commit)) with (<["commit" := FString commit]> ciFlags).
    rewrite (jobs_applied jobs Hj _ []) by done. by destruct jobs.
  - split; [split; [done|]; vm_compute; intros Hin; by repeat (apply elem_of_cons in Hin as [?|Hin]; [done|]); apply elem_of_nil in Hin|].
    exists (FString ""), (FString commit). done.
  - apply Forall_fmap. apply (Forall_impl _ _ _ Hj). intros [n r] (Hn & Hr & He). split.
    { split; [done|]. vm_compute. intros Hin. by repeat (apply elem_of_cons in Hin as [?|Hin]; [done|]); apply elem_of_nil in Hin. }
    exists (FJobs []), (FJobs [(n, r)]). split; [done|]. cbn [SetFlag fst snd]. unfold jobFlags_Set. simpl in *. rewrite (proj2 (cutEquals_name n r He)).
    apply String.eqb_neq in Hn, Hr. by rewrite Hn, Hr.
Qed.

(** When provenanceci succeeds the file it wrote holds an envelope of the given
    commit with one result for each job of the command line, and a job is
    recorded as passed exactly when it was given as a success. *)
Theorem ci_recorded commit jobs w w' r :
  (∀ l, sortJobs l ≡ₚ l) → wf (w_fs w) → Forall jobOk jobs → jobs ≠ [] →
  provenanceci_main isPrint fraction sortJobs marshalEnvelope now gitFound gitStatus program (asArg ("commit", commit) :: (jobArg <$> jobs)) w = (r, w') →
  exitCode (exit r) = 0%Z →
  ∃ e text, marshalEnvelope e = inl text ∧ readFileF "provenance.json" (w_fs w') = inl text ∧ Envelope.Validate e = None ∧
    length (en_Verification e) = length jobs ∧
    ∀ name, (∃ v, v ∈ en_Verification e ∧ vr_Name v = name ∧ vr_Status v = StatusPass) ↔ (name, "success") ∈ jobs.
Proof.
  intros Hs Hwf Hj Hne. unfold provenanceci_main, parsing. rewrite ci_parsed by done. cbv zeta.
  assert (getJobs (<["job" := FJobs jobs]> (<["commit" := FString commit]> ciFlags)) "job" = jobs) as -> by (unfold getJobs; by rewrite lookup_insert_eq).
  set (fs := <["job" := FJobs jobs]> (<["commit" := FString commit]> ciFlags)).
  assert (getString fs "out" = "provenance.json") as -> by (unfold getString, fs; by rewrite !lookup_insert_ne).
  destruct (String.eqb (getString fs "commit") ""); [by intros [= <- <-]|]. destruct (length jobs =? 0)%nat; [by intros [= <- <-]|].
  destruct (BuildEnvelope _ _ _ _) as [e|err] eqn:Eb; [|by intros [= <- <-]]. destruct (marshalEnvelope e) as [text|err] eqn:Em; [|by intros [= <- <-]].
  destruct (writeFileF "provenance.json" text 420 (w_fs w)) as [[[]|err] fs2] eqn:Ew; [|by intros [= <- <-]]. intros [= <- <-] _.
  exists e, text. split; [done|]. split; [by eapply write_read|]. split; [by eapply BuildEnvelope_valid|].
  pose proof (ci_pass_exact _ _ _ _ _ Hs Eb) as [Hlen Hpass]. cbn [cg_Jobs] in *. rewrite length_fmap in Hlen. split; [done|].
  intros name. rewrite Hpass, list_elem_of_fmap. split; [|intros Hin; by exists (name, "success")]. intros ([n s] & [= -> ->] & Hin). done.
Qed.
End ci.

(** * Runs *)

(** A repository at /repo with one changed file, a contract at its base, and a
    diff that adds one line. *)
Definition demo_added : list DiffItem := [NewFile "x.go"; Hunk 0 1 "" [] ["package x"]; Other ""].
Definition cmd_answers (diff : list (list string * string)) : Git :=
  answers ((["-C"; "/repo"; "show"; "main:modulex.agent.yaml"], "protected_paths: [docs/**]") :: diff).
Definition demo_described : list (list string * string) :=
  [(["-C"; "/repo"; "diff"; "--name-only"; "--no-color"; "main...HEAD"], "x.go" +:+ nlString);
   (["-C"; "/repo"; "diff"; "--unified=0"; "--no-color"; "main...HEAD"], JoinWith nlString (diffLines demo_added))].
Definition demo_run (diff : list (list string * string)) (args : list string) : Run :=
  (runReview allPrint (λ _ _ _, 0%Z) (cmd_answers diff) demo_yaml (λ _, inl demoRepo) demo_env (λ _, inl "results") args (mkWorld ∅ ∅)).1.

Lemma demo_describes : describes (cmd_answers demo_described) "/repo" "main" "HEAD" ["x.go"] demo_added.
Proof.
  split; [vm_compute; reflexivity|vm_compute; reflexivity| |discriminate| |vm_compute; discriminate].
  - repeat constructor; done.
  - repeat constructor; vm_compute; intros H; inversion_clear H; repeat match goal with H : _ ∈ _ |- _ => inversion_clear H end.
Qed.
Definition demo_flags : FlagSet := <["root" := FString "/repo"]> (<["base" := FString "main"]> reviewFlags).
Lemma demo_parsed : Parse (λ _ _ _, 0%Z) reviewFlags ["-base=main"; "-root"; "/repo"] = inl (demo_flags, []).
Proof. reflexivity. Qed.

(** A change git cannot describe, a head that does not resolve or histories
    without a common ancestor as in a shallow clone, is green: the secret scan and
    the protected paths are unavailable, which is not a failure. *)
Theorem undescribed_review_green :
  demo_run [] ["-base=main"; "-root=/repo"; "-head=typo"] = mkRun ["results"] [] Returned ∧
  ∃ results, cliReview allPrint (cmd_answers []) demo_yaml (λ _, inl demoRepo) demo_env "/repo" "main" "typo" false = inl (Some results) ∧
    (vr_Status <$> filter (λ v, vr_Name v ∈ ["check-secrets"; "check-protected-paths"]) results) = [StatusUnavailable; StatusUnavailable].
Proof. split; [vm_compute; reflexivity|]. eexists. split; vm_compute; reflexivity. Qed.

Definition contractFS : FS := <[["repo"; FileName] := NFile "protected_paths: [docs/**]" 420]> (docsFS None).
Lemma contractFS_wf : wf contractFS.
Proof. apply (wf_insert (docsFS None) ["repo"] FileName); [exact docsFS_wf|by vm_compute|split; [by repeat split|vm_compute; lia]|left; by vm_compute]. Qed.
Definition generateArgs (check : string) : list string := ["-root"; "/repo"; check].
Definition generated_flags (check : bool) : FlagSet := <["check" := FBool check]> (<["root" := FString "/repo"]> generateFlags).
Lemma generateArgs_parsed : Parse (λ _ _ _, 0%Z) generateFlags (generateArgs "-check=false") = inl (generated_flags false, []) ∧
  Parse (λ _ _ _, 0%Z) generateFlags (generateArgs "-check") = inl (generated_flags true, []).
Proof. split; reflexivity. Qed.
Lemma generate_then_check_witness : ∃ r w', runGenerate (λ _ _ _, 0%Z) demo_yaml mergeSort (generateArgs "-check=false") (mkWorld contractFS ∅) = (r, w') ∧
  runGenerate (λ _ _ _, 0%Z) demo_yaml mergeSort (generateArgs "-check") w' = (mkRun ["ok: generated files match the contract"] [] Returned, w').
Proof.
  destruct (runGenerate (λ _ _ _, 0%Z) demo_yaml mergeSort (generateArgs "-check=false") (mkWorld contractFS ∅)) as [r w'] eqn:E.
  exists r, w'. split; [reflexivity|].
  assert (exitCode (exit (runGenerate (λ _ _ _, 0%Z) demo_yaml mergeSort (generateArgs "-check=false") (mkWorld contractFS ∅)).1) = 0%Z) as Ex
    by (vm_compute; reflexivity). rewrite E in Ex.
  apply (generate_then_check (λ _ _ _, 0%Z) demo_yaml mergeSort (generateArgs "-check=false") (generateArgs "-check") (mkWorld contractFS ∅) w' r
    (generated_flags false) (generated_flags true) [] [] ["repo"; FileName] ["repo"; "AGENTS.md"] ["repo"; "CLAUDE.md"]
    (proj1 generateArgs_parsed) eq_refl (proj2 generateArgs_parsed) eq_refl eq_refl contractFS_wf);
    [vm_compute; reflexivity..| |exact E|exact Ex].
  apply (bool_decide_unpack _). vm_compute. exact I.
Defined.

(** The other runs: a usage error, a verification in which nothing ran, an
    envelope of two jobs. *)
Example usage_ex : let r := (runReview allPrint (λ _ _ _, 0%Z) (cmd_answers []) demo_yaml (λ _, inl demoRepo) demo_env (λ _, inl "results")) in
  exit (r [] (mkWorld ∅ ∅)).1 = Exited 2 ∧ exit (r ["-help"] (mkWorld ∅ ∅)).1 = Exited 0 ∧ exit (r ["-base"] (mkWorld ∅ ∅)).1 = Exited 2 ∧
  exit (r ["-base=main"; "-root=/other"] (mkWorld ∅ ∅)).1 = Exited 1.
Proof. vm_compute. repeat split. Qed.
Lemma ci_recorded_witness : ∃ r w' e, provenanceci_main allPrint (λ _ _ _, 0%Z) id (λ _, inl "envelope") 9 None (λ _, inl "") "provenanceci"
    ["-commit=abc"; "-job=test=success"; "-job=lint=failure"] (mkWorld ∅ ∅) = (r, w') ∧
  stdout r = ["wrote provenance.json (2 job result(s))"] ∧ length (en_Verification e) = 2 ∧
  ∃ v, v ∈ en_Verification e ∧ vr_Name v = "test" ∧ vr_Status v = StatusPass.
Proof.
  destruct (provenanceci_main allPrint (λ _ _ _, 0%Z) id (λ _, inl "envelope") 9 None (λ _, inl "") "provenanceci"
    ["-commit=abc"; "-job=test=success"; "-job=lint=failure"] (mkWorld ∅ ∅)) as [r w'] eqn:E.
  assert ((provenanceci_main allPrint (λ _ _ _, 0%Z) id (λ _, inl "envelope") 9 None (λ _, inl "") "provenanceci"
    ["-commit=abc"; "-job=test=success"; "-job=lint=failure"] (mkWorld ∅ ∅)).1 = mkRun ["wrote provenance.json (2 job result(s))"] [] Returned) as Er
    by (vm_compute; reflexivity). rewrite E in Er. simpl in Er.
  destruct (ci_recorded allPrint (λ _ _ _, 0%Z) id (λ _, inl "envelope") 9 None (λ _, inl "") "provenanceci" "abc" [("test", "success"); ("lint", "failure")]
    (mkWorld ∅ ∅) w' r (λ l, Permutation_refl _)) as (e & text & _ & _ & _ & Hl & Hp).
  - split; simpl; intros p n H; apply lookup_empty_Some in H; destruct H.
  - repeat constructor; try discriminate; apply (bool_decide_unpack _); vm_compute; exact I.
  - discriminate.
  - exact E.
  - rewrite Er. reflexivity.
  - exists r, w', e. split; [reflexivity|]. split; [rewrite Er; reflexivity|]. split; [exact Hl|]. apply Hp. left.
Defined.
