(* ===== verification/Firestore.v ===== *)
(** The Firestore store of the review service (src/services/prreview/store/firestore.go).

    A transaction's function may run several times: an attempt whose reads were
    overtaken is thrown away with its writes, and the function starts again; the
    variables of Go it has assigned stay.  The last attempt reads and writes the
    database at one point of time.  The resolution at which timestamps are kept is
    a parameter. *)

From Stdlib Require Import Ascii.
From stdpp Require Import base gmap list strings pretty.
From S2P Require Import Prelude Regex Paths GoStrings Lease.

(** * Documents *)

(** The path of a document: collections and names alternate. *)
Abbreviation DocRef := (list string).
Definition jobRef (key : JobKey) : DocRef :=
  ["installations"; pretty (k_InstallationID key); "repos"; k_Owner key +:+ "__" +:+ k_Repo key; "prs"; pretty (k_PRNumber key)].

(** [JobKey.String]. *)
Definition keyString (key : JobKey) : string :=
  pretty (k_InstallationID key) +:+ "/" +:+ k_Owner key +:+ "/" +:+ k_Repo key +:+ "/" +:+ pretty (k_PRNumber key).

Record jobDoc := mkJobDoc {
  jd_status : string; jd_target_sha : string; jd_lease_expiry : Z; jd_lease_owner : string;
  jd_last_reviewed_sha : string; jd_comment_id : Z; jd_review_count : Z; jd_tokens_used : Z }.
Definition toDoc (j : Job) : jobDoc :=
  mkJobDoc (j_Status j) (j_TargetSHA j) (j_LeaseExpiry j) (j_LeaseOwner j) (j_LastReviewedSHA j) (j_CommentID j) (j_ReviewCount j) (j_TokensUsed j).
Definition fromDoc (d : jobDoc) : Job :=
  mkJob (jd_status d) (jd_target_sha d) (jd_lease_expiry d) (jd_lease_owner d) (jd_last_reviewed_sha d) (jd_comment_id d) (jd_review_count d) (jd_tokens_used d).

Record DB := mkDB { db_jobs : gmap DocRef jobDoc; db_dedup : gmap string Z; db_usage : gmap Z Usage }.

(** * Transactions *)

(** What a document read in a transaction answers: the document, [codes.NotFound],
    or another error, one of decoding it included. *)
Inductive Read (D : Type) := Found (d : D) | NotFound | Failed (err : error).
Arguments Found {D} d.
Arguments NotFound {D}.
Arguments Failed {D} err.

Section transaction.
Context {V D W : Type}.
(** One attempt: from the variables of the caller and what is read, the
    variables after it, and the write, if any, or the error. *)
Context (attempt : V → Read D → V * (option W + error)).

(** [RunTransaction]: the reads of the attempts that were overtaken, then the read
    of the last one.  An error of the function is returned at once. *)
Fixpoint RunTransaction (vars : V) (overtaken : list (Read D)) (last : Read D) : V * (option W + error) :=
  match overtaken with
  | [] => attempt vars last
  | r :: overtaken =>
    match attempt vars r with
    | (vars, inr err) => (vars, inr err)
    | (vars, inl _) => RunTransaction vars overtaken last
    end
  end.
End transaction.

Section store.
(** The time as a document keeps it. *)
Context (keep : Z → Z).
Definition kept (d : jobDoc) : jobDoc :=
  mkJobDoc (jd_status d) (jd_target_sha d) (keep (jd_lease_expiry d)) (jd_lease_owner d) (jd_last_reviewed_sha d) (jd_comment_id d) (jd_review_count d)
    (jd_tokens_used d).

Definition readOf {D} (o : option D) : Read D := match o with Some d => Found d | None => NotFound end.
(** [fault]: the error of the read or of the commit of the last attempt. *)
Record Weather (D : Type) := mkWeather { we_overtaken : list (Read D); we_readFault : option error; we_commitFault : option error }.

Definition mutateAttempt (mutate : Job → Job) (vars : Job) (r : Read jobDoc) : Job * (option jobDoc + error) :=
  match r with
  | Failed err => (vars, inr err)
  | Found d => let out := mutate (fromDoc d) in (out, inl (Some (toDoc out)))
  | NotFound => let out := mutate zeroJob in (out, inl (Some (toDoc out)))
  end.
Definition Firestore_Mutate (w : Weather jobDoc) (key : JobKey) (mutate : Job → Job) (db : DB) : (Job + error) * DB :=
  let ref := jobRef key in
  let last := match we_readFault _ w with Some err => Failed err | None => readOf (db_jobs db !! ref) end in
  match RunTransaction (mutateAttempt mutate) zeroJob (we_overtaken _ w) last with
  | (_, inr err) => (inr (Errorf "firestore mutate %s: %w" [keyString key] [err]), db)
  | (out, inl write) =>
    match we_commitFault _ w with
    | Some err => (inr (Errorf "firestore mutate %s: %w" [keyString key] [err]), db)
    | None => (inl out, match write with Some d => mkDB (<[ref := kept d]> (db_jobs db)) (db_dedup db) (db_usage db) | None => db end)
    end
  end.
Definition Firestore_Get (fault : option error) (key : JobKey) (db : DB) : Job + error :=
  match fault with
  | Some err => inr (Errorf "firestore get %s: %w" [keyString key] [err])
  | None => match db_jobs db !! jobRef key with Some d => inl (fromDoc d) | None => inl zeroJob end
  end.

(** The variable [seen] of the caller. *)
Definition seenAttempt (now ttl : Z) (vars : bool) (r : Read Z) : bool * (option Z + error) :=
  match r with
  | Found expireAt => if (now <? expireAt)%Z then (true, inl None) else (vars, inl (Some (now + ttl)%Z))
  | NotFound => (vars, inl (Some (now + ttl)%Z))
  | Failed err => (vars, inr err)
  end.
Definition Firestore_Seen (w : Weather Z) (deliveryID : string) (ttl now : Z) (db : DB) : (bool + error) * DB :=
  let last := match we_readFault _ w with Some err => Failed err | None => readOf (db_dedup db !! deliveryID) end in
  match RunTransaction (seenAttempt now ttl) false (we_overtaken _ w) last with
  | (_, inr err) => (inr (Errorf "firestore dedup %s: %w" [deliveryID] [err]), db)
  | (seen, inl write) =>
    match we_commitFault _ w with
    | Some err => (inr (Errorf "firestore dedup %s: %w" [deliveryID] [err]), db)
    | None => (inl seen, match write with Some e => mkDB (db_jobs db) (<[deliveryID := keep e]> (db_dedup db)) (db_usage db) | None => db end)
    end
  end.
Definition Firestore_Forget (fault : option error) (deliveryID : string) (db : DB) : option error * DB :=
  match fault with
  | Some err => (Some (Errorf "firestore dedup forget %s: %w" [deliveryID] [err]), db)
  | None => (None, mkDB (db_jobs db) (delete deliveryID (db_dedup db)) (db_usage db))
  end.

(** [firestore.Increment] adds within the range of a signed integer of 64 bits:
    the result saturates. *)
Definition saturate (x : Z) : Z := Z.max (- 2 ^ 63) (Z.min (2 ^ 63 - 1) x).
Definition Firestore_Total (fault : option error) (id : Z) (db : DB) : Usage + error :=
  match fault with
  | Some err => inr (Errorf "firestore ledger %d: %w" [pretty id] [err])
  | None => inl (default (mkUsage 0 0) (db_usage db !! id))
  end.
Definition Firestore_Add (fault : option error) (id reviews tokens : Z) (db : DB) : option error * DB :=
  match fault with
  | Some err => (Some (Errorf "firestore ledger %d: %w" [pretty id] [err]), db)
  | None => let u := default (mkUsage 0 0) (db_usage db !! id) in
            (None, mkDB (db_jobs db) (db_dedup db) (<[id := mkUsage (saturate (u_Reviews u + reviews)) (saturate (u_Tokens u + tokens))]> (db_usage db)))
  end.

(** * Keys *)

Definition noUnderscore (s : string) : Prop := "_"%char ∉ String.list_ascii_of_string s.

Lemma str_cancel (a b c : string) : a +:+ b = a +:+ c → b = c.
Proof. induction a as [|x a IH]; [done|]. intros [= H]. auto. Qed.
(** Two keys share a document only when they are the same, if owners hold no
    underscore. *)
Lemma jobRef_inj k1 k2 : noUnderscore (k_Owner k1) → noUnderscore (k_Owner k2) → jobRef k1 = jobRef k2 → k1 = k2.
Proof.
  destruct k1 as [i1 o1 r1 p1], k2 as [i2 o2 r2 p2]. unfold jobRef. simpl. intros H1 H2 E. injection E as Ei Eo Ep.
  apply (inj pretty) in Ei as ->. apply (inj pretty) in Ep as ->.
  assert (o1 = o2) as ->.
  { apply (f_equal (SplitByte "_")) in Eo. change ("__" +:+ r1) with (String "_" ("_" +:+ r1)) in Eo. change ("__" +:+ r2) with (String "_" ("_" +:+ r2)) in Eo.
    rewrite !SplitByte_part in Eo by done. by injection Eo. }
  apply str_cancel in Eo. by apply (str_cancel "__") in Eo as ->.
Qed.
(** Otherwise they may be different pull requests. *)
Lemma documents_collide : jobRef (mkJobKey 1 "x" "y__z" 7) = jobRef (mkJobKey 1 "x__y" "z" 7).
Proof. done. Qed.

(** * What the store promises *)

(** The job a key stands for. *)
Definition jobOf (db : DB) (key : JobKey) : Job := match db_jobs db !! jobRef key with Some d => fromDoc d | None => zeroJob end.
(** A job as it is read back. *)
Definition keptJob (j : Job) : Job := fromDoc (kept (toDoc j)).

Lemma RunTransaction_mutate mutate last overtaken : ∀ vars,
  (∃ v err, RunTransaction (mutateAttempt mutate) vars overtaken last = (v, inr err)) ∨
  ∃ v, RunTransaction (mutateAttempt mutate) vars overtaken last = mutateAttempt mutate v last.
Proof.
  induction overtaken as [|r overtaken IH]; intros vars; [right; by exists vars|]. simpl. destruct r as [d| |err]; simpl; [apply IH..|]. left. eauto.
Qed.

(** [Mutate] is atomic however often its function ran: it fails and changes
    nothing, or it returns the mutation of the job as it was when the transaction
    committed, and that is what is read afterwards; no other document changes. *)
Theorem firestore_mutate_atomic w key mutate db r db' : Firestore_Mutate w key mutate db = (r, db') →
  (∃ err, r = inr err ∧ db' = db) ∨
  (r = inl (mutate (jobOf db key)) ∧ jobOf db' key = keptJob (mutate (jobOf db key)) ∧
   db_dedup db' = db_dedup db ∧ db_usage db' = db_usage db ∧
   ∀ key', jobRef key' ≠ jobRef key → jobOf db' key' = jobOf db key').
Proof.
  unfold Firestore_Mutate. destruct (RunTransaction_mutate mutate (match we_readFault _ w with Some err => Failed err | None => readOf (db_jobs db !! jobRef key) end)
    (we_overtaken _ w) zeroJob) as [(v & err & ->)|[v ->]]; [intros [= <- <-]; left; eauto|].
  destruct (we_readFault _ w) as [err|]; simpl; [intros [= <- <-]; left; eauto|].
  assert (mutateAttempt mutate v (readOf (db_jobs db !! jobRef key)) = (mutate (jobOf db key), inl (Some (toDoc (mutate (jobOf db key)))))) as ->.
  { unfold jobOf. by destruct (db_jobs db !! jobRef key). }
  destruct (we_commitFault _ w) as [err|]; intros [= <- <-]; [left; eauto|]. right. split; [done|]. unfold jobOf. simpl.
  split; [by rewrite lookup_insert_eq|]. split; [done|]. split; [done|]. intros key' Hne. by rewrite lookup_insert_ne.
Qed.

(** Whether an attempt found a record that has not expired. *)
Definition foundFresh (now : Z) (r : Read Z) : bool := match r with Found e => (now <? e)%Z | _ => false end.
Lemma RunTransaction_seen now ttl last : ∀ overtaken vars, Forall (λ r, ∀ err, r ≠ Failed err) overtaken →
  RunTransaction (seenAttempt now ttl) vars overtaken last = seenAttempt now ttl (vars || existsb (foundFresh now) overtaken) last.
Proof.
  induction overtaken as [|r overtaken IH]; intros vars Hf; [by rewrite orb_false_r|]. apply Forall_cons in Hf as [Hr Hf]. simpl.
  destruct r as [e| |err]; simpl; [|by rewrite IH|by destruct (Hr err)].
  destruct (now <? e)%Z; rewrite IH by done; simpl; [|done]. by rewrite orb_true_r.
Qed.

(** [Seen] when no attempt was overtaken: it answers whether the delivery was
    recorded and not expired, and records it otherwise. *)
Lemma seen_exact id ttl now db : Firestore_Seen (mkWeather _ [] None None) id ttl now db =
  match db_dedup db !! id with
  | Some e => if (now <? e)%Z then (inl true, db) else (inl false, mkDB (db_jobs db) (<[id := keep (now + ttl)%Z]> (db_dedup db)) (db_usage db))
  | None => (inl false, mkDB (db_jobs db) (<[id := keep (now + ttl)%Z]> (db_dedup db)) (db_usage db))
  end.
Proof. unfold Firestore_Seen. simpl. destruct (db_dedup db !! id) as [e|]; simpl; [|done]. by destruct (now <? e)%Z. Qed.

(** An attempt that was overtaken after it had found a record leaves the answer
    true, although the last attempt finds none and records the delivery as new. *)
Lemma seen_overtaken id ttl now e : (now < e)%Z →
  Firestore_Seen (mkWeather _ [Found e] None None) id ttl now (mkDB ∅ ∅ ∅) = (inl true, mkDB ∅ {[id := keep (now + ttl)%Z]} ∅).
Proof. intros H. unfold Firestore_Seen. simpl. by rewrite (proj2 (Z.ltb_lt _ _) H). Qed.
End store.

Definition demo_acquire (j : Job) : Job := (AcquireDecision j 100 "abc" 10 "me").1.
Lemma firestore_mutate_atomic_witness : ∃ db',
  Firestore_Mutate id (mkWeather _ [Found (toDoc (set_target "stale" zeroJob))] None None) (mkJobKey 1 "o" "r" 2) demo_acquire (mkDB ∅ ∅ ∅) =
    (inl (demo_acquire zeroJob), db') ∧ jobOf db' (mkJobKey 1 "o" "r" 2) = demo_acquire zeroJob.
Proof.
  destruct (Firestore_Mutate id (mkWeather _ [Found (toDoc (set_target "stale" zeroJob))] None None) (mkJobKey 1 "o" "r" 2) demo_acquire (mkDB ∅ ∅ ∅)) as [r db'] eqn:E.
  exists db'. destruct (firestore_mutate_atomic _ _ _ _ _ _ _ E) as [(err & -> & _)|(-> & Hj & _)].
  - apply (f_equal fst) in E. vm_compute in E. discriminate E.
  - split; [reflexivity|]. rewrite Hj. reflexivity.
Defined.
