(* ===== verification/Postgres.v ===== *)
(** The PostgreSQL store of the review service
    (src/services/prreview/store/postgres.go), as a system of concurrent
    transactions.

    The database runs at its default isolation: a statement reads what is
    committed and what its own transaction wrote; a write of a row waits for a
    transaction that has written it; an advisory lock of a transaction is held
    until it ends.  Any statement may fail, and a commit that reports an error may
    have taken effect or not.  The hash of lock names and the resolution of a time
    column are parameters. *)

From stdpp Require Import base gmap list strings pretty.
From S2P Require Import Prelude Lease Firestore Code Threads.

(** * Rows *)

(** A row of prreview_jobs; an absent lease expiry is NULL. *)
Record Row := mkRow {
  r_status : string; r_target_sha : string; r_lease_expiry : option Z; r_lease_owner : string;
  r_last_reviewed_sha : string; r_comment_id : Z; r_review_count : Z; r_tokens_used : Z }.

Inductive advisoryLockKind := lockKindJob | lockKindDedup.
Definition kindNumber (k : advisoryLockKind) : Z := match k with lockKindJob => 1 | lockKindDedup => 2 end.

(** * Statements *)

Inductive POp :=
  | PBegin
  | PLock (tx : nat) (kind : advisoryLockKind) (id : string)
  | PSelectJob (tx : option nat) (key : JobKey)
  | PUpsertJob (tx : nat) (key : JobKey) (row : Row)
  | PNow
  | PSelectSeen (tx : nat) (id : string) (now : Z)
  | PUpsertSeen (tx : nat) (id : string) (expireAt : Z)
  | PCommit (tx : nat)
  | PRollback (tx : nat)
  | PDeleteSeen (id : string)
  | PAddUsage (id reviews tokens : Z)
  | PSelectUsage (id : Z).
(** No row is [None] of the queries. *)
Definition PRes (o : POp) : Type :=
  match o with
  | PBegin => nat + error
  | PLock _ _ _ | PUpsertJob _ _ _ | PUpsertSeen _ _ _ | PCommit _ | PDeleteSeen _ | PAddUsage _ _ _ => option error
  | PSelectJob _ _ => option Row + error
  | PNow => Z
  | PSelectSeen _ _ _ => bool + error
  | PRollback _ => unit
  | PSelectUsage _ => option Usage + error
  end.

Inductive PResult :=
  | RJob (r : Job + error)
  | RSeen (r : bool * option error)
  | RDone (r : option error)
  | RUsage (r : Usage + error).

(** * The store *)

Definition jobOfRow (row : option Row) : Job :=
  match row with
  | None => zeroJob
  | Some r => mkJob (r_status r) (r_target_sha r) (default zeroTime (r_lease_expiry r)) (r_lease_owner r) (r_last_reviewed_sha r)
                (r_comment_id r) (r_review_count r) (r_tokens_used r)
  end.
Definition getJob (tx : option nat) (key : JobKey) : Code PRes (Job + error) :=
  r ← call (PSelectJob tx key);
  mret (match (r : option Row + error) with inl row => inl (jobOfRow row) | inr err => inr err end).
Definition rowOf (job : Job) : Row :=
  mkRow (j_Status job) (j_TargetSHA job) (if Z.eqb (j_LeaseExpiry job) zeroTime then None else Some (j_LeaseExpiry job)) (j_LeaseOwner job)
    (j_LastReviewedSHA job) (j_CommentID job) (j_ReviewCount job) (j_TokensUsed job).
Definition upsertJob (tx : nat) (key : JobKey) (job : Job) : Code PRes (option error) := call (PUpsertJob tx key (rowOf job)).
Definition lockKey (tx : nat) (kind : advisoryLockKind) (id : string) : Code PRes (option error) :=
  e ← call (PLock tx kind id);
  mret (match (e : option error) with Some err => Some (Errorf "acquiring advisory lock: %w" [] [err]) | None => None end).

(** The deferred rollback of a transaction, after a result. *)
Definition finish {A : Type} (tx : nat) (a : A) : Code PRes A := call (PRollback tx) ;; mret a.

Definition Mutate (key : JobKey) (mutate : Job → Job) : Code PRes PResult :=
  let fail err := RJob (inr (Errorf "postgres mutate %s: %w" [keyString key] [err])) in
  t ← call PBegin;
  match (t : nat + error) with
  | inr err => mret (fail err)
  | inl tx =>
    e ← lockKey tx lockKindJob (keyString key);
    match (e : option error) with
    | Some err => finish tx (fail err)
    | None =>
      j ← getJob (Some tx) key;
      match (j : Job + error) with
      | inr err => finish tx (fail err)
      | inl job =>
        let out := mutate job in
        e ← upsertJob tx key out;
        match (e : option error) with
        | Some err => finish tx (fail err)
        | None =>
          e ← call (PCommit tx);
          match (e : option error) with
          | Some err => finish tx (RJob (inr (Errorf "postgres mutate %s: commit: %w" [keyString key] [err])))
          | None => finish tx (RJob (inl out))
          end
        end
      end
    end
  end.
Definition Get (key : JobKey) : Code PRes PResult :=
  j ← getJob None key;
  mret (RJob (match (j : Job + error) with inl job => inl job | inr err => inr (Errorf "postgres get %s: %w" [keyString key] [err]) end)).
Definition Seen (deliveryID : string) (ttl : Z) : Code PRes PResult :=
  let fail err := RSeen (false, Some (Errorf "postgres dedup %s: %w" [deliveryID] [err])) in
  t ← call PBegin;
  match (t : nat + error) with
  | inr err => mret (fail err)
  | inl tx =>
    e ← lockKey tx lockKindDedup deliveryID;
    match (e : option error) with
    | Some err => finish tx (fail err)
    | None =>
      now ← call PNow;
      s ← call (PSelectSeen tx deliveryID (now : Z));
      match (s : bool + error) with
      | inr err => finish tx (fail err)
      | inl true => e ← call (PCommit tx); finish tx (RSeen (true, (e : option error)))
      | inl false =>
        e ← call (PUpsertSeen tx deliveryID ((now : Z) + ttl));
        match (e : option error) with
        | Some err => finish tx (fail err)
        | None =>
          e ← call (PCommit tx);
          finish tx (RSeen (false, match (e : option error) with
            | Some err => Some (Errorf "postgres dedup %s: commit: %w" [deliveryID] [err])
            | None => None
            end))
        end
      end
    end
  end.
Definition Forget (deliveryID : string) : Code PRes PResult :=
  e ← call (PDeleteSeen deliveryID);
  mret (RDone (match (e : option error) with Some err => Some (Errorf "postgres dedup forget %s: %w" [deliveryID] [err]) | None => None end)).
Definition Add (installationID reviews tokens : Z) : Code PRes PResult :=
  e ← call (PAddUsage installationID reviews tokens);
  mret (RDone (match (e : option error) with Some err => Some (Errorf "postgres ledger %d: %w" [pretty installationID] [err]) | None => None end)).
Definition Total (installationID : Z) : Code PRes PResult :=
  u ← call (PSelectUsage installationID);
  mret (RUsage (match (u : option Usage + error) with
    | inl (Some u) => inl u
    | inl None => inl (mkUsage 0 0)
    | inr err => inr (Errorf "postgres ledger %d: %w" [pretty installationID] [err])
    end)).

(** * The database *)

Section database.
Context (hash : string → Z → Z) (column : Z → Z).

Definition stored (row : Row) : Row :=
  mkRow (r_status row) (r_target_sha row) (column <$> r_lease_expiry row) (r_lease_owner row) (r_last_reviewed_sha row)
    (r_comment_id row) (r_review_count row) (r_tokens_used row).

(** What a transaction has written and not committed. *)
Record Tx := mkTx { tx_jobs : gmap JobKey Row; tx_dedup : gmap string Z }.
Record PG := mkPG {
  pg_jobs : gmap JobKey Row; pg_dedup : gmap string Z; pg_usage : gmap Z Usage;
  pg_txs : gmap nat Tx; pg_locks : gmap Z nat; pg_next : nat }.
Definition emptyPG : PG := mkPG ∅ ∅ ∅ ∅ ∅ 0.

Definition setTx (tx : nat) (t : Tx) (s : PG) : PG := mkPG (pg_jobs s) (pg_dedup s) (pg_usage s) (<[tx := t]> (pg_txs s)) (pg_locks s) (pg_next s).
(** The end of a transaction, with or without its writes. *)
Definition endTx (tx : nat) (apply : bool) (s : PG) : PG :=
  let t := default (mkTx ∅ ∅) (pg_txs s !! tx) in
  mkPG (if apply then tx_jobs t ∪ pg_jobs s else pg_jobs s) (if apply then tx_dedup t ∪ pg_dedup s else pg_dedup s) (pg_usage s)
    (delete tx (pg_txs s)) (filter (λ l, l.2 ≠ tx) (pg_locks s)) (pg_next s).
(** Another transaction has written a row. *)
Definition otherWrote {K : Type} `{Countable K} {V : Type} (rows : Tx → gmap K V) (tx : option nat) (k : K) (s : PG) : bool :=
  existsb (λ t, negb (bool_decide (Some t.1 = tx)) && bool_decide (is_Some (rows t.2 !! k))) (map_to_list (pg_txs s)).

(** A sum out of the range of its column is an error. *)
Definition bigint (x : Z) : bool := ((- 2 ^ 63 <=? x) && (x <=? 2 ^ 63 - 1))%Z.
(** [fuel] of a commit that fails says whether it took effect. *)
Definition pgExec (env : ∀ o, PRes o) (fuel : nat) (o : POp) (s : PG) : option (PRes o * PG * list (Code PRes PResult)) :=
  match o as o return option (PRes o * PG * list (Code PRes PResult)) with
  | PBegin =>
    match env PBegin with
    | inr err => Some (inr err, s, [])
    | inl _ => Some (inl (pg_next s), mkPG (pg_jobs s) (pg_dedup s) (pg_usage s) (<[pg_next s := mkTx ∅ ∅]> (pg_txs s)) (pg_locks s) (S (pg_next s)), [])
    end
  | PLock tx kind id =>
    match env (PLock tx kind id) with
    | Some err => Some (Some err, s, [])
    | None =>
      let l := hash id (kindNumber kind) in
      match pg_locks s !! l with
      | Some holder => if decide (holder = tx) then Some (None, s, []) else None
      | None => Some (None, mkPG (pg_jobs s) (pg_dedup s) (pg_usage s) (pg_txs s) (<[l := tx]> (pg_locks s)) (pg_next s), [])
      end
    end
  | PSelectJob tx key =>
    match env (PSelectJob tx key) with
    | inr err => Some (inr err, s, [])
    | inl _ =>
      let own := tx ≫= λ tx, pg_txs s !! tx ≫= λ t, tx_jobs t !! key in
      Some (inl (match own with Some row => Some row | None => pg_jobs s !! key end), s, [])
    end
  | PUpsertJob tx key row =>
    match env (PUpsertJob tx key row) with
    | Some err => Some (Some err, s, [])
    | None =>
      if otherWrote tx_jobs (Some tx) key s then None
      else let t := default (mkTx ∅ ∅) (pg_txs s !! tx) in
           Some (None, setTx tx (mkTx (<[key := stored row]> (tx_jobs t)) (tx_dedup t)) s, [])
    end
  | PNow => Some (env PNow, s, [])
  | PSelectSeen tx id now =>
    match env (PSelectSeen tx id now) with
    | inr err => Some (inr err, s, [])
    | inl _ =>
      let row := match pg_txs s !! tx ≫= λ t, tx_dedup t !! id with Some e => Some e | None => pg_dedup s !! id end in
      Some (inl (match row with Some e => (now <? e)%Z | None => false end), s, [])
    end
  | PUpsertSeen tx id expireAt =>
    match env (PUpsertSeen tx id expireAt) with
    | Some err => Some (Some err, s, [])
    | None =>
      if otherWrote tx_dedup (Some tx) id s then None
      else let t := default (mkTx ∅ ∅) (pg_txs s !! tx) in
           Some (None, setTx tx (mkTx (tx_jobs t) (<[id := column expireAt]> (tx_dedup t))) s, [])
    end
  | PCommit tx =>
    match env (PCommit tx) with
    | Some err => Some (Some err, endTx tx (negb (fuel =? 0)) s, [])
    | None => Some (None, endTx tx true s, [])
    end
  | PRollback tx => Some (tt, endTx tx false s, [])
  | PDeleteSeen id =>
    match env (PDeleteSeen id) with
    | Some err => Some (Some err, s, [])
    | None => if otherWrote tx_dedup None id s then None
              else Some (None, mkPG (pg_jobs s) (delete id (pg_dedup s)) (pg_usage s) (pg_txs s) (pg_locks s) (pg_next s), [])
    end
  | PAddUsage id reviews tokens =>
    match env (PAddUsage id reviews tokens) with
    | Some err => Some (Some err, s, [])
    | None =>
      let u := default (mkUsage 0 0) (pg_usage s !! id) in
      if bigint (u_Reviews u + reviews) && bigint (u_Tokens u + tokens) then
        Some (None, mkPG (pg_jobs s) (pg_dedup s) (<[id := mkUsage (u_Reviews u + reviews) (u_Tokens u + tokens)]> (pg_usage s))
                (pg_txs s) (pg_locks s) (pg_next s), [])
      else Some (Some (New "bigint out of range"), s, [])
    end
  | PSelectUsage id =>
    match env (PSelectUsage id) with
    | inr err => Some (inr err, s, [])
    | inl _ => Some (inl (pg_usage s !! id), s, [])
    end
  end.

(** The calls a process may make. *)
Inductive PGCall :=
  | CMutate (key : JobKey) (mutate : Job → Job)
  | CGet (key : JobKey)
  | CSeen (deliveryID : string) (ttl : Z)
  | CForget (deliveryID : string)
  | CAdd (id reviews tokens : Z)
  | CTotal (id : Z).
Definition pgSpawn (c : PGCall) : Code PRes PResult :=
  match c with
  | CMutate key mutate => Mutate key mutate
  | CGet key => Get key
  | CSeen id ttl => Seen id ttl
  | CForget id => Forget id
  | CAdd id r t => Add id r t
  | CTotal id => Total id
  end.

(** * Transactions keep to themselves *)

(** A thread runs the call [c]; its phase is what it may still do. *)
Section thread.
Context (c : PGCall).

Inductive PPhase :=
  | PhFree
  | PhTx (tx : nat)
  | PhJob (tx : nat) (id : string)
  | PhRead (tx : nat) (key : JobKey) (job : Job)
  | PhWritten (tx : nat) (key : JobKey) (out : Job)
  | PhDedup (tx : nat)
  | PhEnd (tx : nat) (out : option Job)
  | PhGot (job : Job)
  | PhOver (out : option Job).
Definition pgAllowed (ph : PPhase) (o : POp) : Prop :=
  match ph, o with
  | PhFree, PSelectJob None key => c = CGet key
  | PhFree, (PBegin | PDeleteSeen _ | PAddUsage _ _ _ | PSelectUsage _) => True
  | PhTx tx, PLock tx' _ _ => tx' = tx
  | PhJob tx id, PSelectJob (Some tx') key => tx' = tx ∧ keyString key = id
  | PhRead tx key job, PUpsertJob tx' key' row => tx' = tx ∧ key' = key ∧ ∃ f, c = CMutate key f ∧ row = rowOf (f job)
  | PhWritten tx _ _, PCommit tx' => tx' = tx
  | PhDedup tx, (PSelectSeen tx' _ _ | PUpsertSeen tx' _ _ | PCommit tx') => tx' = tx
  | PhDedup tx, PNow => True
  | PhEnd tx _, PRollback tx' => tx' = tx
  | _, _ => False
  end.
Definition pgNext (ph : PPhase) (o : POp) : PRes o → PPhase :=
  match o as o return PRes o → PPhase with
  | PBegin => λ r, match r with inl tx => PhTx tx | inr _ => PhOver None end
  | PLock tx kind id => λ r, match r, kind with None, lockKindJob => PhJob tx id | None, lockKindDedup => PhDedup tx | Some _, _ => PhEnd tx None end
  | PSelectJob (Some tx) key => λ r, match r with inl row => PhRead tx key (jobOfRow row) | inr _ => PhEnd tx None end
  | PSelectJob None _ => λ r, match r with inl row => PhGot (jobOfRow row) | inr _ => PhOver None end
  | PUpsertJob tx key row => λ r, match r with None => PhWritten tx key (jobOfRow (Some row)) | Some _ => PhEnd tx None end
  | PNow => λ _, ph
  | PSelectSeen tx _ _ => λ r, match r with inl _ => ph | inr _ => PhEnd tx None end
  | PUpsertSeen tx _ _ => λ r, match r with None => ph | Some _ => PhEnd tx None end
  | PCommit tx => λ r, PhEnd tx (match ph, r with PhWritten _ _ out, None => Some out | _, _ => None end)
  | PRollback _ => λ _, PhOver (match ph with PhEnd _ out => out | _ => None end)
  | PDeleteSeen _ | PAddUsage _ _ _ => λ _, PhOver None
  | PSelectUsage _ => λ _, PhOver None
  end.
Definition pgFinal (ph : PPhase) (a : PResult) : Prop :=
  match ph with
  | PhGot out | PhOver (Some out) => a = RJob (inl out)
  | PhOver None => ∀ out, a ≠ RJob (inl out)
  | _ => False
  end.

Lemma jobOfRow_rowOf j : jobOfRow (Some (rowOf j)) = j.
Proof. destruct j as [s t e o l d n k]. unfold rowOf, jobOfRow. simpl. by destruct (Z.eqb_spec e zeroTime) as [->|]. Qed.

#[local] Arguments jobOfRow : simpl never.
#[local] Arguments rowOf : simpl never.
Lemma pg_follows : follows PRes pgAllowed pgNext pgFinal PhFree (pgSpawn c).
Proof.
  destruct c as [key f|key|id ttl|id|id r t|id] eqn:Ec; simpl; (split; [done|]).
  - intros [tx|err]; [|done]. simpl. split; [done|]. intros [err|]; simpl; [by repeat split|]. split; [done|].
    intros [row|err]; simpl; [|by repeat split]. split; [split_and!; [done..|by exists f]|]. intros [err|]; simpl; [by repeat split|]. split; [done|].
    intros [err|]; simpl; [by repeat split|]. rewrite jobOfRow_rowOf. by repeat split.
  - by intros [row|err].
  - intros [tx|err]; [|done]. simpl. split; [done|]. intros [err|]; simpl; [by repeat split|]. split; [done|]. intros now. split; [done|].
    intros [[]|err]; simpl; [..|by repeat split].
    + split; [done|]. intros e. by repeat split.
    + split; [done|]. intros [err|]; simpl; [by repeat split|]. split; [done|]. intros e. by repeat split.
  - intros [err|]; done.
  - intros [err|]; done.
  - intros [[u|]|err]; done.
Qed.

(** ** The invariant *)

Definition txOf (ph : PPhase) : option nat :=
  match ph with
  | PhTx tx | PhJob tx _ | PhRead tx _ _ | PhWritten tx _ _ | PhDedup tx | PhEnd tx _ => Some tx
  | PhFree | PhGot _ | PhOver _ => None
  end.
Definition pending (s : PG) (tx : nat) : gmap JobKey Row := tx_jobs (default (mkTx ∅ ∅) (pg_txs s !! tx)).
Definition jobLock (key : JobKey) : Z := hash (keyString key) 1.
Definition current (s : PG) (key : JobKey) : Job := jobOfRow (pg_jobs s !! key).
Definition holdsLock (s : PG) (tx : nat) (l : Z) : Prop := pg_locks s !! l = Some tx.

Definition phBody (s : PG) (ph : PPhase) : Prop :=
  match ph with
  | PhFree | PhGot _ | PhOver _ => True
  | PhTx tx | PhDedup tx | PhEnd tx _ => pending s tx = ∅
  | PhJob tx id => pending s tx = ∅ ∧ holdsLock s tx (hash id 1)
  | PhRead tx key job => pending s tx = ∅ ∧ holdsLock s tx (jobLock key) ∧ current s key = job
  | PhWritten tx key out => pending s tx = {[key := stored (rowOf out)]} ∧ holdsLock s tx (jobLock key) ∧ ∃ f, c = CMutate key f ∧ out = f (current s key)
  end.
Definition phOk (s : PG) (ph : PPhase) : Prop := (∀ tx, txOf ph = Some tx → tx < pg_next s) ∧ phBody s ph.

(** A step of the transaction [tx] leaves what belongs to others. *)
Record frame (tx : nat) (s s' : PG) : Prop := {
  fr_next : pg_next s ≤ pg_next s';
  fr_pending : ∀ t, t ≠ tx → pending s' t = pending s t;
  fr_locks : ∀ l t, t ≠ tx → holdsLock s t l → holdsLock s' t l;
  fr_jobs : ∀ key, pg_jobs s' !! key = pg_jobs s !! key ∨ holdsLock s tx (jobLock key) }.
Lemma frame_refl tx s : frame tx s s.
Proof. split; auto. Qed.
Lemma frame_current tx s s' t key : frame tx s s' → t ≠ tx → holdsLock s t (jobLock key) → current s' key = current s key.
Proof.
  intros [_ _ _ Hj] Ht Hl. unfold current. destruct (Hj key) as [->|Hl']; [done|]. unfold holdsLock in *. congruence.
Qed.
Lemma phOk_frame tx s s' ph : frame tx s s' → txOf ph ≠ Some tx → phOk s ph → phOk s' ph.
Proof.
  intros Hf Hne [Hlt Hok]. pose proof Hf as [Hn Hp Hl _]. split; [intros t Ht; apply Hlt in Ht; lia|].
  destruct ph as [|t|t id|t key job|t key out|t|t out|job'|out]; simpl in *; try done.
  all: assert (t ≠ tx) as Htx by congruence; rewrite (Hp t Htx).
  1,5,6: done.
  - destruct Hok as [H1 H2]. split; [done|by apply Hl].
  - destruct Hok as (H1 & H2 & H3). rewrite (frame_current tx s s' t key) by done. split; [done|]. split; [by apply Hl|done].
  - destruct Hok as (H1 & H2 & H3). rewrite (frame_current tx s s' t key) by done. split; [done|]. split; [by apply Hl|done].
Qed.

Lemma frame_end tx apply s : (∀ key, pending s tx !! key = None ∨ holdsLock s tx (jobLock key)) → frame tx s (endTx tx apply s).
Proof.
  intros Hk. split; simpl; [done|..].
  - intros t Ht. unfold pending. simpl. by rewrite lookup_delete_ne.
  - intros l t Ht Hl. unfold holdsLock in *. simpl. by apply map_lookup_filter_Some.
  - intros key. destruct apply; [|by left]. destruct (Hk key) as [Hn|Hl]; [left|by right]. by rewrite lookup_union_r.
Qed.
Lemma pending_end tx apply s : pending (endTx tx apply s) tx = ∅.
Proof. unfold pending. simpl. by rewrite lookup_delete_eq. Qed.

(** A call keeps to its transaction, and its new phase is in order. *)
Definition stepOk (s s' : PG) (ph ph' : PPhase) : Prop :=
  phOk s' ph' ∧ ∃ tx, frame tx s s' ∧ (txOf ph = Some tx ∨ txOf ph = None ∧ tx = pg_next s) ∧ (txOf ph' = None ∨ txOf ph' = Some tx).
Lemma stepOk_over s s' ph ph' : frame (pg_next s) s s' → txOf ph = None → txOf ph' = None → stepOk s s' ph ph'.
Proof. intros Hf H1 H2. split; [split; [by rewrite H2|by destruct ph']|]. exists (pg_next s). auto. Qed.
Lemma stepOk_tx tx s s' ph ph' : frame tx s s' → phOk s ph → txOf ph = Some tx → txOf ph' = Some tx → phBody s' ph' → stepOk s s' ph ph'.
Proof.
  intros Hf [Hlt _] H1 H2 Hb. split; [split; [|done]|exists tx; auto]. intros t Ht. pose proof (fr_next _ _ _ Hf). rewrite H2 in Ht. injection Ht as <-.
  specialize (Hlt _ H1). lia.
Qed.
Lemma frame_usage tx s u d : frame tx s (mkPG (pg_jobs s) d u (pg_txs s) (pg_locks s) (pg_next s)).
Proof. split; auto. Qed.
Lemma frame_setTx tx t s : frame tx s (setTx tx t s).
Proof. split; simpl; auto. intros t' Ht. unfold pending. simpl. by rewrite lookup_insert_ne. Qed.
Lemma pending_setTx tx t s : pending (setTx tx t s) tx = tx_jobs t.
Proof. unfold pending. simpl. by rewrite lookup_insert_eq. Qed.

Section exec_ok.
Context (env : ∀ o, PRes o) (fuel : nat) (s : PG).
Abbreviation good ph o := (∀ r s' ps, pgExec env fuel o s = Some (r, s', ps) → ps = [] ∧ stepOk s s' ph (pgNext ph o r)).

Lemma begin_ok : good PhFree PBegin.
Proof.
  intros r s' ps. simpl. destruct (env PBegin) as [n|err]; intros [= <- <- <-]; (split; [done|]).
  - split; [split; simpl; [intros tx [= <-]; lia|]|].
    + unfold pending. simpl. by rewrite lookup_insert_eq.
    + exists (pg_next s). split; [|auto]. split; simpl; [lia| |done|by left]. intros t Ht. unfold pending. simpl. by rewrite lookup_insert_ne.
  - apply stepOk_over; [apply frame_refl|done..].
Qed.
Lemma lock_ok tx kind id : phOk s (PhTx tx) → good (PhTx tx) (PLock tx kind id).
Proof.
  intros Hok r s' ps. pose proof Hok as [Hlt Hp]. simpl. destruct (env (PLock tx kind id)) as [err|].
  { intros [= <- <- <-]. split; [done|]. apply (stepOk_tx tx); [apply frame_refl|done..]. }
  destruct (pg_locks s !! hash id (kindNumber kind)) as [holder|] eqn:El; [case_decide as Hh; [subst holder|done]|]; intros [= <- <- <-]; (split; [done|]).
  - apply (stepOk_tx tx); [apply frame_refl|done|done|by destruct kind|]. by destruct kind; simpl.
  - apply (stepOk_tx tx); [|done|done|by destruct kind|].
    + split; simpl; auto. intros l t Ht Hl. unfold holdsLock in *. simpl. rewrite lookup_insert_ne; [done|]. intros <-. congruence.
    + destruct kind; simpl; [|done]. split; [done|]. apply lookup_insert_eq.
Qed.
Lemma select_ok tx id key : phOk s (PhJob tx id) → keyString key = id → good (PhJob tx id) (PSelectJob (Some tx) key).
Proof.
  intros Hok <- r s' ps. pose proof Hok as [Hlt [Hp Hl]]. simpl. destruct (env (PSelectJob (Some tx) key)) as [n|err]; intros [= <- <- <-]; (split; [done|]).
  - apply (stepOk_tx tx); [apply frame_refl|done..|]. simpl. split; [done|]. split; [done|]. unfold current. f_equal. unfold pending in Hp.
    destruct (pg_txs s !! tx) as [t|]; simpl in *; [|done]. by rewrite Hp, lookup_empty.
  - apply (stepOk_tx tx); [apply frame_refl|done..].
Qed.
Lemma upsert_ok tx key job f : phOk s (PhRead tx key job) → c = CMutate key f → good (PhRead tx key job) (PUpsertJob tx key (rowOf (f job))).
Proof.
  intros Hok Hf r s' ps. pose proof Hok as [Hlt (Hp & Hl & Hj)]. simpl. destruct (env (PUpsertJob tx key (rowOf (f job)))) as [err|].
  { intros [= <- <- <-]. split; [done|]. apply (stepOk_tx tx); [apply frame_refl|done..]. }
  destruct (otherWrote tx_jobs (Some tx) key s); [done|]. intros [= <- <- <-]. split; [done|].
  apply (stepOk_tx tx); [apply frame_setTx|done..|]. simpl. rewrite jobOfRow_rowOf, pending_setTx. simpl. unfold pending in Hp. rewrite Hp.
  split; [done|]. split; [done|]. exists f. split; [done|]. by rewrite <- Hj.
Qed.
Lemma commit_ok tx key out : phOk s (PhWritten tx key out) → good (PhWritten tx key out) (PCommit tx).
Proof.
  intros Hok r s' ps. pose proof Hok as [Hlt (Hp & Hl & _)]. simpl.
  assert (∀ b, frame tx s (endTx tx b s)) as Hf.
  { intros b. apply frame_end. intros k. rewrite Hp. destruct (decide (k = key)) as [->|Hne]; [by right|left]. by apply lookup_singleton_None. }
  destruct (env (PCommit tx)) as [err|]; intros [= <- <- <-]; (split; [done|]); (apply (stepOk_tx tx); [done..|apply pending_end]).
Qed.
Lemma dedup_ok tx o : phOk s (PhDedup tx) → pgAllowed (PhDedup tx) o → good (PhDedup tx) o.
Proof.
  intros Hok Ha r s' ps. pose proof Hok as [Hlt Hp]. simpl in Hp. destruct o as [|tx' kind id'|[tx'|] key'|tx' key' row| |tx' id' now|tx' id' e|tx'|tx'|id'|id' rv tk|id']; simpl in Ha; try done; subst.
  - intros [= <- <- <-]. split; [done|]. apply (stepOk_tx tx); [apply frame_refl|done..].
  - simpl. destruct (env (PSelectSeen tx id' now)); intros [= <- <- <-]; (split; [done|]); apply (stepOk_tx tx); try done; apply frame_refl.
  - simpl. destruct (env (PUpsertSeen tx id' e)) as [err|]; [intros [= <- <- <-]; split; [done|]; apply (stepOk_tx tx); [apply frame_refl|done..]|].
    destruct (otherWrote tx_dedup (Some tx) id' s); [done|]. intros [= <- <- <-]. split; [done|]. apply (stepOk_tx tx); [apply frame_setTx|done..|].
    simpl. by rewrite pending_setTx.
  - simpl. assert (∀ b, frame tx s (endTx tx b s)) as Hf by (intros b; apply frame_end; intros k; rewrite Hp; by left).
    destruct (env (PCommit tx)) as [err|]; intros [= <- <- <-]; (split; [done|]); (apply (stepOk_tx tx); [done..|apply pending_end]).
Qed.
Lemma rollback_ok tx out : phOk s (PhEnd tx out) → good (PhEnd tx out) (PRollback tx).
Proof.
  intros Hok r s' ps. pose proof Hok as [Hlt Hp]. simpl in Hp. simpl. intros [= <- <- <-]. split; [done|]. split; [done|].
  exists tx. split; [apply frame_end; intros k; rewrite Hp; by left|]. auto.
Qed.
Lemma free_ok o : pgAllowed PhFree o → o ≠ PBegin → good PhFree o.
Proof.
  intros Ha Hne r s' ps. destruct o as [|tx' kind id'|[tx'|] key'|tx' key' row| |tx' id' now|tx' id' e|tx'|tx'|id'|id' rv tk|id']; simpl in Ha; try done; simpl.
  - destruct (env _); intros [= <- <- <-]; (split; [done|]); apply stepOk_over; try done; apply frame_refl.
  - destruct (env _); [intros [= <- <- <-]; split; [done|]; apply stepOk_over; try done; apply frame_refl|]. destruct (otherWrote tx_dedup None id' s); [done|].
    intros [= <- <- <-]. split; [done|]. apply stepOk_over; try done. apply frame_usage.
  - destruct (env _); [intros [= <- <- <-]; split; [done|]; apply stepOk_over; try done; apply frame_refl|]. destruct (_ && _); intros [= <- <- <-]; (split; [done|]);
      apply stepOk_over; try done; [apply frame_usage|apply frame_refl].
  - destruct (env _); intros [= <- <- <-]; (split; [done|]); apply stepOk_over; try done; apply frame_refl.
Qed.

Lemma pgExec_ok ph o : phOk s ph → pgAllowed ph o → good ph o.
Proof.
  intros Hok Ha. destruct ph as [|tx|tx id|tx key job|tx key out|tx|tx out|job'|out].
  - destruct o; try (by apply free_ok); apply begin_ok.
  - destruct o; try done. simpl in Ha. subst. by apply lock_ok.
  - destruct o as [| |[tx'|] key| | | | | | | | |]; try done. destruct Ha as [-> Ha]. by apply select_ok.
  - destruct o; try done. destruct Ha as (-> & -> & f & Hf & ->). by apply upsert_ok.
  - destruct o; try done. simpl in Ha. subst. by apply commit_ok.
  - by apply dedup_ok.
  - destruct o; try done. simpl in Ha. subst. by apply rollback_ok.
  - done.
  - done.
Qed.
End exec_ok.
End thread.

(** ** The order of the commits *)

(** A thread, the key and the mutation of a commit that took effect. *)
Abbreviation Commit := (nat * JobKey * (Job → Job))%type.
Definition apply1 (m : gmap JobKey Row) (c : Commit) : gmap JobKey Row :=
  <[c.1.2 := stored (rowOf (c.2 (jobOfRow (m !! c.1.2))))]> m.
Definition applyAll (log : list Commit) : gmap JobKey Row := foldl apply1 ∅ log.
Lemma applyAll_snoc log c : applyAll (log ++ [c]) = apply1 (applyAll log) c.
Proof. unfold applyAll. by rewrite foldl_app. Qed.

(** A phase with the call of its thread. *)
Abbreviation CPhase := (PGCall * PPhase)%type.
Definition cAllowed (p : CPhase) (o : POp) : Prop := pgAllowed p.1 p.2 o.
Definition cNext (p : CPhase) (o : POp) (r : PRes o) : CPhase := (p.1, pgNext p.2 o r).
Definition cFollows (p : CPhase) : Code PRes PResult → Prop := follows PRes (pgAllowed p.1) pgNext pgFinal p.2.
Definition pgInv (s : PG) (phs : list CPhase) : Prop :=
  (∀ i p, phs !! i = Some p → phOk p.1 s p.2) ∧
  (∀ i j pi pj tx, phs !! i = Some pi → phs !! j = Some pj → txOf pi.2 = Some tx → txOf pj.2 = Some tx → i = j).

Definition overPhase (ph : PPhase) : Prop := match ph with PhEnd _ _ | PhOver _ => True | _ => False end.
(** What a phase says about the commits so far. *)
Definition logged (log : list Commit) (i : nat) (c : PGCall) (ph : PPhase) : Prop :=
  match ph with
  | PhEnd _ (Some out) | PhOver (Some out) =>
    ∃ l1 key f l2, c = CMutate key f ∧ log = l1 ++ (i, key, f) :: l2 ∧ out = f (jobOfRow (applyAll l1 !! key))
  | PhGot job => ∃ key l1 l2, c = CGet key ∧ log = l1 ++ l2 ∧ job = jobOfRow (applyAll l1 !! key)
  | _ => True
  end.
Record logInv (s : PG) (phs : list CPhase) (log : list Commit) : Prop := {
  li_jobs : pg_jobs s = applyAll log;
  li_once : NoDup log.*1.*1;
  li_over : ∀ i key f, (i, key, f) ∈ log → ∃ ph, phs !! i = Some (CMutate key f, ph) ∧ overPhase ph;
  li_phs : ∀ i p, phs !! i = Some p → logged log i p.1 p.2 }.
Lemma logged_more log e i c ph : logged log i c ph → logged (log ++ [e]) i c ph.
Proof.
  destruct ph as [|tx|tx id|tx key job|tx key out|tx|tx [out|]|job|[out|]]; simpl; try done.
  1,3: intros (l1 & key & f & l2 & -> & -> & ->); exists l1, key, f, (l2 ++ [e]); by rewrite <- app_assoc.
  intros (key & l1 & l2 & -> & -> & ->). exists key, l1, (l2 ++ [e]). by rewrite <- app_assoc.
Qed.

(** A step changes the table of jobs only at a commit of a mutation, and then a
    commit that succeeded did. *)
Lemma exec_jobs env fuel o s r s' ps c ph log i : phOk c s ph → pgAllowed c ph o → pgExec env fuel o s = Some (r, s', ps) →
  pg_jobs s = applyAll log → logged log i c ph →
  (pg_jobs s' = pg_jobs s ∧ logged log i c (pgNext ph o r) ∧ (overPhase ph → overPhase (pgNext ph o r))) ∨
  ∃ tx key out, ph = PhWritten tx key out ∧ pg_jobs s' = <[key := stored (rowOf out)]> (pg_jobs s) ∧
    (pgNext ph o r = PhEnd tx None ∨ pgNext ph o r = PhEnd tx (Some out)).
Proof.
  intros [_ Hok] Ha He Hj Hl.
  destruct ph as [|tx|tx id|tx key job|tx key out|tx|tx out|job'|out], o as [|tx' kind id'|[tx'|] key'|tx' key' row| |tx' id' now|tx' id' e|tx'|tx'|id'|id' rv tk|id'];
    simpl in Ha; try done; simpl in He.
  - left. destruct (env PBegin); by injection He as <- <- <-.
  - left. destruct (env _); injection He as <- <- <-; [|done]. split; [done|]. split; [|done]. simpl. exists key', log, []. by rewrite app_nil_r, Hj.
  - left. destruct (env _); [by injection He as <- <- <-|]. destruct (otherWrote _ _ _ _); [done|]. by injection He as <- <- <-.
  - left. destruct (env _); [by injection He as <- <- <-|]. destruct (_ && _); by injection He as <- <- <-.
  - left. destruct (env _); by injection He as <- <- <-.
  - left. subst. destruct (env _); [by injection He as <- <- <-|]. destruct (pg_locks s !! _); [case_decide; [|done]|]; injection He as <- <- <-; by destruct kind.
  - left. destruct (env _); by injection He as <- <- <-.
  - left. destruct (env _); [by injection He as <- <- <-|]. destruct (otherWrote _ _ _ _); [done|]. by injection He as <- <- <-.
  - subst tx'. destruct Hok as (Hp & _). destruct (env (PCommit tx)) as [err|]; injection He as <- <- <-; simpl.
    + destruct (negb (fuel =? 0)); [|by left]. right. exists tx, key, out. split; [done|]. split; [|by left].
      unfold pending in Hp. rewrite Hp. by rewrite <- insert_union_singleton_l.
    + right. exists tx, key, out. split; [done|]. split; [|by right]. unfold pending in Hp. rewrite Hp. by rewrite <- insert_union_singleton_l.
  - left. by injection He as <- <- <-.
  - left. destruct (env _); by injection He as <- <- <-.
  - left. destruct (env _); [by injection He as <- <- <-|]. destruct (otherWrote _ _ _ _); [done|]. by injection He as <- <- <-.
  - subst tx'. left. simpl in Hok. unfold pending in Hok. assert (∀ b, pg_jobs (endTx tx b s) = pg_jobs s) as Hsame.
    { intros []; [|done]. simpl. rewrite Hok. by rewrite map_empty_union. }
    destruct (env _); injection He as <- <- <-; (split; [apply Hsame|done]).
  - left. subst tx'. injection He as <- <- <-. split; [done|]. split; [|done]. by destruct out.
Qed.

Lemma exec_starts env fuel o s r s' ps : pgExec env fuel o s = Some (r, s', ps) → Forall2 cFollows [] ps.
Proof.
  intros H. assert (ps = []) as ->; [|constructor]. destruct o as [|tx' kind id'|[tx'|] key'|tx' key' row| |tx' id' now|tx' id' e|tx'|tx'|id'|id' rv tk|id']; simpl in H;
    repeat case_match; simplify_eq; done.
Qed.

Definition fullInv (s : PG) (phs : list CPhase) : Prop := pgInv s phs ∧ ∃ log, logInv s phs log.

(** A commit that took effect. *)
Lemma inv_commit s s' phs log i key f t out p : logInv s phs log → phs !! i = Some (CMutate key f, PhWritten t key out) →
  out = f (current s key) → pg_jobs s' = <[key := stored (rowOf out)]> (pg_jobs s) → p = PhEnd t None ∨ p = PhEnd t (Some out) →
  logInv s' (<[i := (CMutate key f, p)]> phs) (log ++ [(i, key, f)]).
Proof.
  intros [L1 L3 L4 L5] Hi Hout Hs Hp.
  assert (<[i := (CMutate key f, p)]> phs !! i = Some (CMutate key f, p)) as Hself by (apply list_lookup_insert_eq; by eapply lookup_lt_Some).
  assert (∀ k, k ∈ log.*1.*1 → k ≠ i) as Hne.
  { intros k ([k' key'] & Ek & ([[a b] f'] & E & Hin)%list_elem_of_fmap)%list_elem_of_fmap ->. simpl in Ek, E. injection E as <- <-. subst k'.
    destruct (L4 _ _ _ Hin) as (ph & E & Ho).
    rewrite Hi in E. by injection E as -> -> <-. }
  split.
  - rewrite applyAll_snoc. unfold apply1. simpl. rewrite <- L1, Hs. by subst out.
  - rewrite !fmap_app. apply NoDup_app. split; [done|]. split; [|apply NoDup_singleton]. intros k Hk ->%list_elem_of_singleton. by apply (Hne _ Hk).
  - intros k key' f' [Hk|Hk]%elem_of_app.
    + destruct (L4 _ _ _ Hk) as (phk & Hphk & Ho). exists phk. split; [|done]. rewrite list_lookup_insert_ne; [done|]. intros ->.
      rewrite Hi in Hphk. by injection Hphk as -> -> <-.
    + apply list_elem_of_singleton in Hk. injection Hk as -> -> ->. exists p. split; [exact Hself|]. by destruct Hp as [-> | ->].
  - intros k pk [(-> & <- & _)|[Hk H]]%list_lookup_insert_Some; [|apply logged_more; by apply L5].
    destruct Hp as [-> | ->]; simpl; [done|]. exists log, key, f, []. split_and!; [done|done|]. by rewrite <- L1.
Qed.
Lemma inv_spawn s phs c : fullInv s phs → fullInv s (phs ++ [(c, PhFree)]).
Proof.
  intros [[H1 H2] [log [L1 L3 L4 L5]]]. assert (∀ i p, (phs ++ [(c, PhFree)]) !! i = Some p → phs !! i = Some p ∨ p = (c, PhFree)) as Hl.
  { intros i p [H|[_ H]]%lookup_app_Some; [by left|]. right. by apply list_lookup_singleton_Some in H as [_ <-]. }
  split; [split|exists log; split; try done].
  - intros i p [H| ->]%Hl; [by eapply H1|by split].
  - intros i j pi pj tx [Hi| ->]%Hl [Hj| ->]%Hl Ti Tj; try done. by eapply H2.
  - intros i key f (ph & Hph & Ho)%L4. exists ph. split; [by apply lookup_app_l_Some|done].
  - intros i p [H| ->]%Hl; [by apply L5|done].
Qed.
Lemma inv_call s phs i c ph o r s' env fuel ps : fullInv s phs → phs !! i = Some (c, ph) → pgAllowed c ph o → pgExec env fuel o s = Some (r, s', ps) →
  fullInv s' (<[i := (c, pgNext ph o r)]> phs).
Proof.
  intros [[H1 H2] [log [L1 L3 L4 L5]]] Hi Ha He.
  destruct (pgExec_ok c env fuel s ph o (H1 _ _ Hi) Ha r s' ps He) as (_ & Hok & tx & Hf & Htx & Hnx).
  assert (∀ k pk, k ≠ i → phs !! k = Some pk → txOf pk.2 ≠ Some tx) as Hother.
  { intros k pk Hk Hpk E. destruct Htx as [Htx|[_ ->]]; [apply Hk; by eapply (H2 k i)|]. pose proof (proj1 (H1 _ _ Hpk) _ E). lia. }
  assert (∀ k pk, <[i := (c, pgNext ph o r)]> phs !! k = Some pk → k = i ∧ pk = (c, pgNext ph o r) ∨ k ≠ i ∧ phs !! k = Some pk) as Hlook.
  { intros k pk [(-> & <- & _)|[Hk H]]%list_lookup_insert_Some; [by left|by right]. }
  assert (<[i := (c, pgNext ph o r)]> phs !! i = Some (c, pgNext ph o r)) as Hself by (apply list_lookup_insert_eq; by eapply lookup_lt_Some).
  split; [split|].
  - intros k pk [[-> ->]|[Hk H]]%Hlook; [done|]. by eapply phOk_frame; [exact Hf|eapply Hother|eapply H1].
  - intros j k pj pk t [[-> ->]|[Hj Hpj]]%Hlook [[-> ->]|[Hk Hpk]]%Hlook Tj Tk; [done|..|by eapply H2].
    + destruct (Hother k pk Hk Hpk). simpl in *. destruct Hnx; congruence.
    + destruct (Hother j pj Hj Hpj). simpl in *. destruct Hnx; congruence.
  - destruct (exec_jobs env fuel o s r s' ps c ph log i (H1 _ _ Hi) Ha He L1 (L5 _ _ Hi)) as [(Hs & Hl & Hov)|(t & key & out & -> & Hs & Hnext)].
    + exists log. split; [congruence|done|..].
      * intros k key f (phk & Hphk & Ho)%L4. destruct (decide (k = i)) as [->|Hk]; [|exists phk; by rewrite list_lookup_insert_ne].
        rewrite Hi in Hphk. injection Hphk as -> ->. exists (pgNext phk o r). split; [done|by apply Hov].
      * intros k pk [[-> ->]|[Hk H]]%Hlook; [done|by apply L5].
    + destruct (H1 _ _ Hi) as [_ (_ & _ & f & Hms & Hout)]. simpl in Hms. subst c. exists (log ++ [(i, key, f)]).
      by eapply inv_commit.
Qed.

(** C30. The store is serializable, in the order of the commits that took effect:
    the table is what the mutations of the threads in the log yield when they run
    one after the other on an empty one, each at most once, and each is that of
    the [Mutate] its thread was called with.  A [Mutate] that returned a job is in
    the log, and returned what its mutation yielded at its place; a [Get] that
    returned a job returned that of its key after some of the commits.  So no
    update is lost, under every interleaving of transactions and every failure. *)
Theorem postgres_serializable ls s : run pgExec pgSpawn ls (mkSys emptyPG []) = Some s →
  let calls := omap callOf ls in
  ∃ log : list Commit, pg_jobs (sys_st s) = applyAll log ∧ NoDup log.*1.*1 ∧
    (∀ i key f, (i, key, f) ∈ log → calls !! i = Some (CMutate key f)) ∧
    ∀ i c out, calls !! i = Some c → sys_threads s !! i = Some (Ret (RJob (inl out))) →
      match c with
      | CMutate key f => ∃ l1 l2, log = l1 ++ (i, key, f) :: l2 ∧ out = f (jobOfRow (applyAll l1 !! key))
      | CGet key => ∃ l1 l2, log = l1 ++ l2 ∧ out = jobOfRow (applyAll l1 !! key)
      | _ => False
      end.
Proof.
  intros Hr calls. destruct (threads_calls pgExec pgSpawn cAllowed cNext (λ c, (c, PhFree)) (λ _ _, []) cFollows) with
    (I := fullInv) (call := fst : CPhase → PGCall) (s0 := emptyPG) (ls := ls) (s := s) as (phs & Hth & [_ [log [L1 L3 L4 L5]]] & Hc); try done.
  - intros c. apply pg_follows.
  - exact exec_starts.
  - split; [split; intros; by apply lookup_nil in H || done|]. exists []. split; try done; [constructor|..].
    intros i key f Hi. by apply not_elem_of_nil in Hi.
  - intros s1 phs1 s2 phs2 HI [c|i [c ph] o r s3 env fuel ps Hi Ha He]; [by apply inv_spawn|]. rewrite app_nil_r. by eapply inv_call.
  - fold calls in Hc. assert (∀ i, calls !! i = (phs !! i) ≫= λ p, Some p.1) as Hcall.
    { intros i. rewrite <- Hc, list_lookup_fmap. by destruct (phs !! i). }
    exists log. split_and!; [done|done| |].
    + intros i key f (ph & Hph & _)%L4. by rewrite Hcall, Hph.
    + intros i c out Ec Hi. destruct (Forall2_lookup_r _ _ _ _ _ Hth Hi) as ([c' ph] & Hph & Hf). rewrite Hcall, Hph in Ec. injection Ec as ->.
      specialize (L5 _ _ Hph). unfold cFollows in Hf. simpl in Hf, L5.
      destruct ph as [|tx|tx id|tx key job|tx key o|tx|tx o|job|[o|]]; simpl in Hf; try done.
      * injection Hf as ->. destruct L5 as (key & l1 & l2 & -> & -> & ->). by exists l1, l2.
      * injection Hf as ->. destruct L5 as (l1 & key & f & l2 & -> & -> & ->). by exists l1, l2.
      * by destruct (Hf out).
Qed.
End database.

(** Two updates of one job, interleaved. *)
Definition okEnv (o : POp) : PRes o :=
  match o as o return PRes o with
  | PBegin => inl 0
  | PLock _ _ _ | PUpsertJob _ _ _ | PUpsertSeen _ _ _ | PCommit _ | PDeleteSeen _ | PAddUsage _ _ _ => None
  | PSelectJob _ _ => inl None
  | PNow => 0%Z
  | PSelectSeen _ _ _ => inl false
  | PRollback _ => tt
  | PSelectUsage _ => inl None
  end.
Definition demo_key : JobKey := mkJobKey 1 "o" "r" 2.
Definition countReview (j : Job) : Job :=
  mkJob (j_Status j) (j_TargetSHA j) (j_LeaseExpiry j) (j_LeaseOwner j) (j_LastReviewedSHA j) (j_CommentID j) (j_ReviewCount j + 1) (j_TokensUsed j).
Definition demo_call : PGCall := CMutate demo_key countReview.
Definition demo_labels : list (Label (R := PRes) (L := PGCall)) :=
  [LSpawn demo_call; LSpawn demo_call] ++ ((λ i, LRun i okEnv 0) <$> [0; 1; 0; 0; 0; 0; 1; 0; 1; 1; 1; 1]).
Definition demo_run : option (Sys PRes PResult PG) := run (pgExec (λ _ k, k) id) pgSpawn demo_labels (mkSys emptyPG []).
(** The second waits for the lock of the first. *)
Example demo_waits : run (pgExec (λ _ k, k) id) pgSpawn
    ([LSpawn demo_call; LSpawn demo_call] ++ ((λ i, LRun i okEnv 0) <$> [0; 1; 0; 1])) (mkSys emptyPG []) = None.
Proof. vm_compute. reflexivity. Qed.
Lemma postgres_serializable_witness : ∃ s l1 l2, demo_run = Some s ∧
  sys_threads s !! 1 = Some (Ret (RJob (inl (countReview (countReview zeroJob))))) ∧
  pg_jobs (sys_st s) = applyAll id (l1 ++ (1, demo_key, countReview) :: l2) ∧
  countReview (countReview zeroJob) = countReview (jobOfRow (applyAll id l1 !! demo_key)).
Proof.
  destruct demo_run as [s|] eqn:E; [|vm_compute in E; discriminate E].
  destruct (postgres_serializable (λ _ k, k) id demo_labels s E) as (log & Hj & _ & _ & Hres).
  assert (sys_threads s !! 1 = Some (Ret (RJob (inl (countReview (countReview zeroJob)))))) as H.
  { assert (option_map (λ s, sys_threads s !! 1) demo_run = Some (Some (Ret (RJob (inl (countReview (countReview zeroJob))))))) as H; [vm_compute; reflexivity|].
    rewrite E in H. injection H as H. exact H. }
  destruct (Hres 1 demo_call _ eq_refl H) as (l1 & l2 & El & Eo).
  exists s, l1, l2. rewrite El in Hj. split; [reflexivity|]. split; [exact H|]. split; [exact Hj|exact Eo].
Defined.
