(* ===== verification/McpServer.v ===== *)
(** The tools of the MCP server (src/tools/mcpserver): each is an adapter over the
    models of discovery, the contract, the planner and runner, reviews and
    handoffs.

    [discover] is [discovery.Discover]; [stat] says whether a root is a directory.
    The registration of the tools with the protocol library is left out. *)

From stdpp Require Import base gmap list strings.
From S2P Require Import Prelude Quote Paths Regex GoStrings Provenance Approval Envelope Classify VerifyPlan DiffScan Contract ProtectedPaths Discovery AgentCli.

Definition resolveRoot (root : string) : string := if String.eqb root "" then "." else root.
(** The errors of a join, or of an error that wraps several. *)
Definition unwrapErrors (err : error) : list string := flattenErrors err.

Section tools.
Context (isPrint : N → bool) (git : Git) (yamlUnmarshal : string → Contract + error) (discover : string → Repository + error).

Definition resolveTools (root : string) : list ToolStatus + error :=
  let resolvedRoot := resolveRoot root in
  match discover resolvedRoot with
  | inr err => inr (Errorf "mcpserver: discover %q: %w" [Quote isPrint resolvedRoot] [err])
  | inl repo => inl (re_Tools repo)
  end.
Definition discoverRepository (root : string) : Repository + error :=
  match discover (resolveRoot root) with inr err => inr (Errorf "discover_repository: %w" [] [err]) | inl repo => inl repo end.

(** * Verification *)

Definition recommendVerification (sortSlice : list CheckSpec → list CheckSpec) (changedFiles : list string) : Plan := PlanFor isPrint sortSlice changedFiles.

Record CheckSpecIn := mkCheckIn {
  ci_Name : string; ci_Command : string; ci_Category : VerificationCategory; ci_Reason : string; ci_RequiredTool : string; ci_Networked : bool }.
Definition toCheckSpec (ci : CheckSpecIn) (dir : string) : CheckSpec :=
  mkCheck (ci_Name ci) (ci_Command ci) (ci_Category ci) (ci_Reason ci) (ci_RequiredTool ci) (ci_Networked ci) dir.

(** The loop over the checks asked for: a place each, and what is known of
    approvals, by name. *)
Fixpoint mcpTriage (now : nat → Z) (root : string) (checks : list CheckSpecIn) (b : Broker) (approvalStatus : gmap string Status)
    : list (VerificationResult + CheckSpec) * gmap string Status :=
  match checks with
  | [] => ([], approvalStatus)
  | c :: checks =>
    let '(class, reason) := ClassifyCommand (ci_Command c) in
    if needsApproval class then
      let '(status, b) := DryRunCheck (mkScope (ci_Name c) "") (now (length checks)) b in
      let r := mcpTriage now root checks b (<[ci_Name c := status]> approvalStatus) in
      (inl (mkVResult (ci_Name c) (ci_Category c) StatusApprovalRequired 0 "" reason) :: r.1, r.2)
    else let r := mcpTriage now root checks b approvalStatus in (inr (toCheckSpec c root) :: r.1, r.2)
  end.
(** Each result with what was spawned for it; [loaded] is what the approvals file
    below the root holds. *)
Definition runVerification (env : nat → VerifyPlan.Env) (now : nat → Z) (loaded : Broker + error) (root : string) (checksIn : list CheckSpecIn)
    (allowNetwork : bool) : (list (VerificationResult * list Process) * gmap string Status) + error :=
  match resolveTools root with
  | inr err => inr err
  | inl tools =>
    let broker := match loaded with inl b => b | inr _ => NewBroker end in
    let slots := mcpTriage now (resolveRoot root) checksIn broker ∅ in
    inl (fill slots.1 (Run env (runnable slots.1) tools allowNetwork), slots.2)
  end.

(** * Reviews *)

(** [None] is a panic of the secret scan. *)
Definition reviewDiff (env : nat → VerifyPlan.Env) (root baseRef headRef : string) (allowNetwork : bool) : option (list VerificationResult) + error :=
  let resolvedRoot := resolveRoot root in
  match discover resolvedRoot with
  | inr err => inr (Errorf "mcpserver: discover %q: %w" [Quote isPrint resolvedRoot] [err])
  | inl repo =>
    match LoadProtectedPathsAtRef git yamlUnmarshal resolvedRoot baseRef with
    | inl protectedPaths => inl (agentReview isPrint git env repo baseRef headRef allowNetwork protectedPaths)
    | inr err =>
      if error_is ErrContractUnparseable err then inr (Errorf "mcpserver: %w" [] [err])
      else inl (agentReview isPrint git env repo baseRef headRef allowNetwork [])
    end
  end.

(** * Contracts *)

Record ReadContractOut := mkReadContract { rc_Present : bool; rc_Contract : option Contract; rc_ValidationErrors : list string }.
Definition readContract (stat : string → bool + error) (readFile : string → option string + error) (root : string) : ReadContractOut + error :=
  let resolvedRoot := resolveRoot root in
  match stat resolvedRoot with
  | inr err => inr (Errorf "read_contract: %w" [] [err])
  | inl false => inr (Errorf "read_contract: root %q is not a directory" [Quote isPrint root] [])
  | inl true =>
    match Contract.Load yamlUnmarshal readFile resolvedRoot with
    | (_, false, Some err) => inr err
    | (_, false, None) => inl (mkReadContract false None [])
    | (_, true, Some err) => inl (mkReadContract true None [errorText err])
    | (c, true, None) =>
      match c ≫= Contract.Validate with
      | Some err => inl (mkReadContract true c (unwrapErrors err))
      | None => inl (mkReadContract true c [])
      end
    end
  end.

(** * Handoffs *)

Definition buildHandoffEnvelope (gitFound : option error) (revParse : string → list string → string + error) (root agentName : string)
    (verification : list VerificationResult) (now : Z) : Envelope + error :=
  let resolvedRoot := resolveRoot root in
  match discover resolvedRoot with
  | inr err => inr (Errorf "create_handoff: discover %q: %w" [Quote isPrint resolvedRoot] [err])
  | inl repo =>
    match handoffEnvelope gitFound revParse repo agentName "mcp" verification now with
    | inr err => inr (Errorf "create_handoff: %w" [] [err])
    | inl env => inl env
    end
  end.
End tools.

(** * What the tools run *)

Definition mcpSlotOk (root : string) (c : CheckSpecIn) (x : VerificationResult + CheckSpec) : Prop :=
  match x with
  | inl r => needsApproval (ClassifyCommand (ci_Command c)).1 = true ∧ vr_Name r = ci_Name c ∧ vr_Category r = ci_Category c ∧ vr_Status r = StatusApprovalRequired
  | inr s => needsApproval (ClassifyCommand (ci_Command c)).1 = false ∧ s = toCheckSpec c root
  end.
Definition blocked (c : CheckSpecIn) : Prop := needsApproval (ClassifyCommand (ci_Command c)).1 = true.
Lemma mcpTriage_ok now root checks : ∀ b m,
  Forall2 (mcpSlotOk root) checks (mcpTriage now root checks b m).1 ∧
  ∀ name, is_Some ((mcpTriage now root checks b m).2 !! name) ↔ is_Some (m !! name) ∨ ∃ c, c ∈ checks ∧ ci_Name c = name ∧ blocked c.
Proof.
  induction checks as [|c checks IH]; intros b m.
  { split; [constructor|]. intros name. simpl. split; [by left|]. intros [?|(c & Hc & _)]; [done|by apply not_elem_of_nil in Hc]. }
  assert (∀ name, (∃ c', c' ∈ c :: checks ∧ ci_Name c' = name ∧ blocked c') ↔ (ci_Name c = name ∧ blocked c) ∨ ∃ c', c' ∈ checks ∧ ci_Name c' = name ∧ blocked c') as Hex.
  { intros name. split.
    - intros (c' & [->|Hc]%elem_of_cons & H); [by left|right; eauto].
    - intros [H|(c' & Hc & H)]; [exists c; split; [left|done]|exists c'; split; [by right|done]]. }
  cbn [mcpTriage]. destruct (ClassifyCommand (ci_Command c)) as [class reason] eqn:E. destruct (needsApproval class) eqn:En.
  - destruct (DryRunCheck _ _ _) as [status b']. destruct (IH b' (<[ci_Name c := status]> m)) as [H1 H2]. split; [constructor; [unfold mcpSlotOk; by rewrite E|done]|].
    intros name. simpl. rewrite H2, Hex, lookup_insert_is_Some. unfold blocked at 2. rewrite E. simpl. destruct (decide (ci_Name c = name)); tauto.
  - destruct (IH b m) as [H1 H2]. split; [constructor; [unfold mcpSlotOk; by rewrite E|done]|]. intros name. simpl. rewrite H2, Hex. unfold blocked at 2. rewrite E. simpl. rewrite En.
    intuition congruence.
Qed.

(** [run_verification] on checks of the caller: one result each, in order; nothing
    is run for a command that is not classified as safe or networked, and such a
    check is reported with the state of its approval; every other process is the
    command of its check, run in the root; a check passes only if it ran. *)
Theorem mcp_runs_only_safe isPrint discover env now loaded root checks allowNetwork repo results statuses :
  discover (resolveRoot root) = inl repo →
  runVerification isPrint discover env now loaded root checks allowNetwork = inl (results, statuses) →
  Forall2 (λ c r,
    vr_Name r.1 = ci_Name c ∧ vr_Category r.1 = ci_Category c ∧
    (blocked c → vr_Status r.1 = StatusApprovalRequired ∧ r.2 = []) ∧
    (∀ dir command, Shell dir command ∈ r.2 → dir = resolveRoot root ∧ command = ci_Command c ∧ (ClassifyCommand command).1 ∈ [ClassSafe; ClassNetworked] ∧
      (ci_Networked c = true → allowNetwork = true)) ∧
    (vr_Status r.1 = StatusPass → Shell (resolveRoot root) (ci_Command c) ∈ r.2)) checks results ∧
  ∀ name, is_Some (statuses !! name) ↔ ∃ c, c ∈ checks ∧ ci_Name c = name ∧ blocked c.
Proof.
  intros Hd H. unfold runVerification, resolveTools in H. rewrite Hd in H. injection H as <- <-.
  set (b := match loaded with inl b => b | inr _ => NewBroker end). destruct (mcpTriage_ok now (resolveRoot root) checks b ∅) as [Ht Hs].
  split; [|intros name; rewrite Hs, lookup_empty; split; [intros [[]|?]; done|by right]].
  pose proof (fill_ok _ (mcpTriage now (resolveRoot root) checks b ∅).1 _ (run_all env _ (re_Tools repo) allowNetwork)) as Hf.
  eapply Forall2_compose; [exact Ht|exact Hf|]. intros c x [v ps] H1 H2. destruct x as [v'|s']; simpl in H1, H2.
  - destruct H1 as (Hn & Hname & Hcat & Hst). injection H2 as -> ->. simpl. split; [done|]. split; [done|]. split; [done|]. split.
    + intros dir command ?%not_elem_of_nil. done.
    + rewrite Hst. done.
  - destruct H1 as [Hn ->]. destruct H2 as (n & [O1 _ _ O4 O5 _ _] & _). simpl in *. destruct O1 as [-> ->]. split; [done|]. split; [done|].
    split; [unfold blocked; congruence|]. split.
    + intros dir command (-> & -> & Hnet & _)%O5. split; [done|]. split; [done|]. split; [by apply runnable_class|done].
    + by intros [Hp _]%O4.
Qed.

Definition demo_checks : list CheckSpecIn :=
  [mkCheckIn "fmt" "make fmt" "full" "" "" false; mkCheckIn "test" "go test ./..." "focused" "" "go" false].
Lemma mcp_runs_only_safe_witness : ∃ results statuses,
  runVerification (λ _, true) (λ _, inl demoRepo) demo_env (λ _, 0%Z) (inl NewBroker) "" demo_checks false = inl (results, statuses) ∧
  (vr_Status ∘ fst <$> results) = [StatusApprovalRequired; StatusPass] ∧ is_Some (statuses !! "fmt").
Proof.
  destruct (runVerification (λ _, true) (λ _, inl demoRepo) demo_env (λ _, 0%Z) (inl NewBroker) "" demo_checks false) as [[results statuses]|err] eqn:E;
    [|exfalso; vm_compute in E; discriminate E].
  exists results, statuses. split; [reflexivity|].
  destruct (mcp_runs_only_safe (λ _, true) (λ _, inl demoRepo) demo_env (λ _, 0%Z) (inl NewBroker) "" demo_checks false demoRepo results statuses eq_refl E) as [_ Hs].
  split; [vm_compute in E; injection E as <- _; reflexivity|]. apply Hs. eexists. split; [left|]. split; [reflexivity|vm_compute; reflexivity].
Defined.

(** * Reviews of the two front ends *)

(** When the contract of the base is read, [review_diff] is the review of the
    command line. *)
Lemma mcp_cli_agree isPrint git yaml discover env root baseRef headRef allowNetwork repo ps :
  discover (resolveRoot root) = inl repo → LoadProtectedPathsAtRef git yaml (resolveRoot root) baseRef = inl ps →
  reviewDiff isPrint git yaml discover env root baseRef headRef allowNetwork =
  cliReview isPrint git yaml discover env (resolveRoot root) baseRef headRef allowNetwork.
Proof.
  intros Hd Hl. unfold reviewDiff, cliReview, reviewRepo, discovering, loadProtectedPaths. by rewrite Hd, Hl.
Qed.

(** When it cannot be read, because the base does not resolve for instance, the
    command line refuses, but [review_diff] reports that the protected paths pass:
    with no patterns [CheckProtectedPaths] does not look at the diff. *)
Lemma mcp_review_fails_open isPrint git yaml discover env root baseRef headRef allowNetwork repo err results :
  discover (resolveRoot root) = inl repo → LoadProtectedPathsAtRef git yaml (resolveRoot root) baseRef = inr err →
  error_is ErrContractUnparseable err = false →
  reviewDiff isPrint git yaml discover env root baseRef headRef allowNetwork = inl (Some results) →
  cliReview isPrint git yaml discover env (resolveRoot root) baseRef headRef allowNetwork = inr err ∧
  ∃ v, v ∈ results ∧ vr_Name v = "check-protected-paths" ∧ vr_Status v = StatusPass.
Proof.
  intros Hd Hl Hu H. split; [unfold cliReview, reviewRepo, discovering, loadProtectedPaths; by rewrite Hd, Hl|].
  unfold reviewDiff in H. rewrite Hd, Hl, Hu in H. unfold agentReview, ProtectedPaths.Review in H. destruct (ScanSecrets _ _ _ _) as [secrets|]; [|done].
  exists (CheckProtectedPaths isPrint git (re_Root repo) baseRef headRef []). split; [|done].
  apply (f_equal (λ r, match r with inl (Some l) => l | _ => [] end)) in H. cbv beta iota in H. rewrite <- H. apply elem_of_app. right. right. left.
Qed.
