(* ===== verification/GithubAuth.v ===== *)
(** GitHub as the review service uses it (src/services/prreview/githubauth): the
    token of an installation, the head of a pull request, and its comments.

    HTTP, JSON, base64, SHA-256, RSA signatures and the parsing of keys are
    parameters; a request is the record of what is sent. *)

From stdpp Require Import base gmap list strings pretty.
From S2P Require Import Prelude Regex GoStrings.

(** * Requests *)

(** What is sent as JSON. *)
Inductive Payload :=
  | NoPayload
  | TokenPayload (repositories : list string) (permissions : gmap string string)
  | CommentPayload (body : string).
Record Request := mkRequest { rq_Method : string; rq_URL : string; rq_Bearer : string; rq_Payload : Payload }.

Section github.
(** [http.NewRequestWithContext] fails on a URL it cannot parse; [httpDo] answers
    the status and its text, and the first mebibyte of the body. *)
Context (newRequest : Request → option error) (httpDo : Request → Z * string * string + error).
(** A field of a JSON document: none if it does not decode. *)
Context (sha_of : string → option string) (token_of : string → option string) (id_of : string → option Z).
Context (BaseURL : string).

Definition do_ (req : Request) : Z * string * string + error :=
  match newRequest req with Some err => inr err | None => httpDo req end.

Definition prURL (owner repo : string) (prNumber : Z) : string :=
  BaseURL +:+ "/repos/" +:+ owner +:+ "/" +:+ repo +:+ "/pulls/" +:+ pretty prNumber.
Definition prRequest (token owner repo : string) (prNumber : Z) : Request := mkRequest "GET" (prURL owner repo prNumber) token NoPayload.
Definition PRHead (token owner repo : string) (prNumber : Z) : string + error :=
  let req := prRequest token owner repo prNumber in
  match newRequest req with
  | Some err => inr err
  | None =>
    match httpDo req with
    | inr err => inr (Errorf "reading PR head: %w" [] [err])
    | inl (code, _, body) =>
      if negb (Z.eqb code 200) then inr (Errorf "reading PR head: status %d: %s" [pretty code; body] [])
      else match sha_of body with
      | Some sha => if String.eqb sha "" then inr (New "PR response missing head sha") else inl sha
      | None => inr (New "PR response missing head sha")
      end
    end
  end.

(** * Tokens *)

(** The claims of the App's JWT, in seconds since the epoch; [now] in nanoseconds. *)
Record Claims := mkClaims { cl_iat : Z; cl_exp : Z; cl_iss : string }.
Definition unix (ns : Z) : Z := (ns / 1000000000)%Z.
Definition claimsAt (appID : string) (now : Z) : Claims := mkClaims (unix (now - 60 * 1000000000)) (unix (now + 540 * 1000000000)) appID.
Context (base64 : string → string) (showClaims : Claims → string) (sign : string → string + error).
Definition jwtHeader : string :=
  "{" +:+ dq +:+ "alg" +:+ dq +:+ ":" +:+ dq +:+ "RS256" +:+ dq +:+ "," +:+ dq +:+ "typ" +:+ dq +:+ ":" +:+ dq +:+ "JWT" +:+ dq +:+ "}".
Definition appJWT (appID : string) (now : Z) : string + error :=
  let signingInput := base64 jwtHeader +:+ "." +:+ base64 (showClaims (claimsAt appID now)) in
  match sign signingInput with
  | inr err => inr (Errorf "signing App JWT: %w" [] [err])
  | inl sig => inl (signingInput +:+ "." +:+ base64 sig)
  end.

Definition minimalReviewPermissions : gmap string string := {["contents" := "read"; "pull_requests" := "read"; "issues" := "write"]}.
Definition tokenRequest (jwt : string) (installationID : Z) (repo : string) : Request :=
  mkRequest "POST" (BaseURL +:+ "/app/installations/" +:+ pretty installationID +:+ "/access_tokens") jwt (TokenPayload [repo] minimalReviewPermissions).
Definition InstallationToken (appID : string) (now installationID : Z) (owner repo : string) : string + error :=
  match appJWT appID now with
  | inr err => inr err
  | inl jwt =>
    let req := tokenRequest jwt installationID repo in
    match newRequest req with
    | Some err => inr err
    | None =>
      match httpDo req with
      | inr err => inr (Errorf "minting installation token: %w" [] [err])
      | inl (code, status, body) =>
        if negb (Z.eqb code 201) then inr (Errorf "minting installation token: %s: %s" [status; body] [])
        else match token_of body with
        | Some token => if String.eqb token "" then inr (New "installation token response missing token") else inl token
        | None => inr (New "installation token response missing token")
        end
      end
    end
  end.

(** * Comments *)

Definition CreateComment (token owner repo : string) (prNumber : Z) (body : string) : Z + error :=
  let url := BaseURL +:+ "/repos/" +:+ owner +:+ "/" +:+ repo +:+ "/issues/" +:+ pretty prNumber +:+ "/comments" in
  match do_ (mkRequest "POST" url token (CommentPayload body)) with
  | inr err => inr err
  | inl (status, _, respBody) =>
    if negb (Z.eqb status 201) then inr (Errorf "creating comment: status %d: %s" [pretty status; respBody] [])
    else match id_of respBody with
    | Some id => if Z.eqb id 0 then inr (New "create-comment response missing id") else inl id
    | None => inr (New "create-comment response missing id")
    end
  end.
Definition UpdateComment (token owner repo : string) (commentID : Z) (body : string) : option error :=
  let url := BaseURL +:+ "/repos/" +:+ owner +:+ "/" +:+ repo +:+ "/issues/comments/" +:+ pretty commentID in
  match do_ (mkRequest "PATCH" url token (CommentPayload body)) with
  | inr err => Some err
  | inl (status, _, respBody) =>
    if negb (Z.eqb status 200) then Some (Errorf "updating comment %d: status %d: %s" [pretty commentID; pretty status; respBody] []) else None
  end.

(** * What they promise *)

(** The JWT's claims are valid at the time it is made and for less than the ten
    minutes that are allowed. *)
Lemma claims_window appID now : let c := claimsAt appID now in (cl_iat c ≤ unix now - 60 ∧ unix now < cl_exp c ∧ cl_exp c ≤ unix now + 540)%Z.
Proof.
  unfold claimsAt, unix. simpl. replace (now - 60 * 1000000000)%Z with (now + (-60) * 1000000000)%Z by lia.
  rewrite !Z.div_add by lia. lia.
Qed.

(** A token is returned only from a request for exactly the one repository with
    the minimal permissions, under a JWT of the App signed for now, that GitHub
    answered with 201 and a token. *)
Theorem token_scoped appID now installationID owner repo token :
  InstallationToken appID now installationID owner repo = inl token →
  token ≠ "" ∧ ∃ sig body status jwt, sign (base64 jwtHeader +:+ "." +:+ base64 (showClaims (claimsAt appID now))) = inl sig ∧
    jwt = base64 jwtHeader +:+ "." +:+ base64 (showClaims (claimsAt appID now)) +:+ "." +:+ base64 sig ∧
    httpDo (mkRequest "POST" (BaseURL +:+ "/app/installations/" +:+ pretty installationID +:+ "/access_tokens") jwt (TokenPayload [repo] minimalReviewPermissions))
      = inl (201%Z, status, body) ∧ token_of body = Some token ∧
    ∀ p, is_Some (minimalReviewPermissions !! p) ↔ p ∈ ["contents"; "pull_requests"; "issues"].
Proof.
  unfold InstallationToken, appJWT. destruct (sign _) as [sig|] eqn:Es; [|done]. destruct (newRequest _); [done|].
  destruct (httpDo _) as [[[code status] body]|] eqn:Eh; [|done]. destruct (Z.eqb_spec code 201) as [->|]; [|done]. simpl.
  destruct (token_of body) as [t|] eqn:Et; [|done]. destruct (String.eqb_spec t "") as [|Hne]; [done|]. intros [= <-]. split; [done|].
  eexists sig, body, status, _. split; [done|]. split; [reflexivity|]. split; [rewrite <- Eh; unfold tokenRequest; by rewrite !str_app_assoc|]. split; [done|].
  intros p. unfold minimalReviewPermissions. rewrite !lookup_insert_is_Some, lookup_singleton_is_Some, !elem_of_cons, elem_of_nil. clear.
  destruct (decide ("contents" = p)), (decide ("pull_requests" = p)), (decide ("issues" = p)); subst; naive_solver.
Qed.
End github.

Lemma token_scoped_witness :
  ∃ body jwt : string, InstallationToken (λ _, None) (λ req, inl (201%Z, "201 Created", "t0ken")) Some "https://api.github.com" id (λ _, "claims") (λ _, inl "sig")
    "app" 0 7 "o" "r" = inl "t0ken" ∧ Some body = Some "t0ken" ∧ jwt = (jwtHeader +:+ ".claims.sig").
Proof.
  assert (InstallationToken (λ _, None) (λ req, inl (201%Z, "201 Created", "t0ken")) Some "https://api.github.com" id (λ _, "claims") (λ _, inl "sig")
    "app" 0 7 "o" "r" = inl "t0ken") as H; [reflexivity|].
  destruct (token_scoped _ _ _ _ _ _ _ _ _ _ _ _ _ H) as (_ & sig & body & status & jwt & Hs & Hj & _ & Ht & _).
  exists body, jwt. split; [exact H|]. split; [exact Ht|]. injection Hs as <-. rewrite Hj. reflexivity.
Defined.
