(* ===== verification/ReviewQueue.v ===== *)
(** The task queue of the review service (src/services/prreview/queue): the two
    durable queues and the one in memory, and the consumer of review tasks.

    The JSON codec is a parameter, as are the answers of the broker and of Cloud
    Tasks. *)

From Stdlib Require Import Ascii.
From stdpp Require Import base list strings pretty.
From S2P Require Import Prelude Regex Paths GoStrings JetStream Receiver.

Definition taskName (req : ReviewRequest) : list string := [rq_Owner req; rq_Repo req; pretty (rq_PRNumber req)].

(** * In memory *)

Record Memory := mkMemory { me_tasks : list ReviewRequest; me_Dispatch : option (ReviewRequest → option error) }.
Definition Memory_Enqueue (req : ReviewRequest) (m : Memory) : option error * Memory :=
  (match me_Dispatch m with Some dispatch => dispatch req | None => None end, mkMemory (me_tasks m ++ [req]) (me_Dispatch m)).
Definition Tasks (m : Memory) : list ReviewRequest := me_tasks m.

(** * JetStream *)

Definition ReviewsSubject : string := "prreview.reviews.tasks".
Definition ReviewsStreamSubjects : list string := ["prreview.reviews.>"].

(** The calls on the JetStream context, with their answers: whether the stream is
    there, and the error of its creation. *)
Definition EnsureStream (streamInfo : option NatsError) (addStream : option error) (name : string) : option error * bool :=
  match streamInfo with
  | None => (None, false)
  | Some err =>
    if negb (errors_Is err ErrStreamNotFound) then (Some (Errorf "nats stream info %s: %w" [name] [New (ne_text err)]), false)
    else match addStream with
    | Some err => (Some (Errorf "nats add stream %s: %w" [name] [err]), true)
    | None => (None, true)
    end
  end.

Section json.
Context (marshal : ReviewRequest → string + error) (unmarshal : string → ReviewRequest + error).

Definition subject (Subject : string) : string := if negb (String.eqb Subject "") then Subject else ReviewsSubject.
(** The error, and what was published. *)
Definition NATS_Enqueue (Subject : string) (publish : string → string → option error) (req : ReviewRequest) : option error * option (string * string) :=
  match marshal req with
  | inr err => (Some err, None)
  | inl body =>
    (match publish (subject Subject) body with
     | Some err => Some (Errorf "nats enqueue %s/%s#%d: %w" (taskName req) [err])
     | None => None
     end, Some (subject Subject, body))
  end.

(** The handler that [Consume] subscribes. *)
Definition consumeHandler (handle : ReviewRequest → option error) (dm : DurableMessage) : AckDecision :=
  match unmarshal (dm_Payload dm) with
  | inr _ => DeadLetter
  | inl req => match handle req with Some _ => Nack | None => Ack end
  end.

(** * Cloud Tasks *)

Record CloudTasks := mkCloudTasks { ct_QueuePath : string; ct_WorkerURL : string; ct_InvokerServiceAccount : string }.
Record Task := mkTask {
  tk_Parent : string; tk_DispatchDeadline : Z; tk_HttpMethod : string; tk_Url : string; tk_ContentType : string; tk_Body : string;
  tk_ServiceAccountEmail : string; tk_Audience : string }.
Definition CloudTasks_Enqueue (c : CloudTasks) (createTask : Task → option error) (req : ReviewRequest) : option error * option Task :=
  match marshal req with
  | inr err => (Some err, None)
  | inl body =>
    let task := mkTask (ct_QueuePath c) (900 * second) "POST" (ct_WorkerURL c) "application/json" body (ct_InvokerServiceAccount c) (ct_WorkerURL c) in
    (match createTask task with
     | Some err => Some (Errorf "cloud tasks enqueue %s/%s#%d: %w" (taskName req) [err])
     | None => None
     end, Some task)
  end.

(** A request that was enqueued on JetStream reaches the worker as it was: its
    message is acknowledged exactly when the worker handled it without an error,
    and redelivered otherwise; only a body that is no request is dropped. *)
Lemma enqueue_consume Subject publish req subj body handle n redelivered :
  (∀ r b, marshal r = inl b → unmarshal b = inl r) →
  NATS_Enqueue Subject publish req = (None, Some (subj, body)) →
  publish subj body = None ∧
  consumeHandler handle (mkDM body redelivered n) = (match handle req with None => Ack | Some _ => Nack end) ∧
  consumeHandler handle (mkDM body redelivered n) ≠ DeadLetter.
Proof.
  intros Hrt. unfold NATS_Enqueue. destruct (marshal req) as [b|] eqn:Em; [|done]. destruct (publish _ b) eqn:Ep; [done|]. intros [= <- <-].
  split; [done|]. unfold consumeHandler. simpl. rewrite (Hrt _ _ Em). split; by destruct (handle req).
Qed.
End json.

(** * Subjects *)

(** How a subject filter of NATS matches: word by word, [*] any one word and a
    last [>] one or more. *)
Fixpoint wordsMatch (filter words : list string) : bool :=
  match filter, words with
  | [">"], _ :: _ => true
  | f :: filter, w :: words => (String.eqb f "*" || String.eqb f w) && wordsMatch filter words
  | [], [] => true
  | _, _ => false
  end.
Definition subjectMatches (filter subject : string) : bool := wordsMatch (SplitByte "."%char filter) (SplitByte "."%char subject).
(** The stream holds the tasks and the tasks that are given up, whose subject the
    consumer forms. *)
Lemma stream_covers : forallb (λ s, existsb (λ f, subjectMatches f s) ReviewsStreamSubjects) [ReviewsSubject; ReviewsSubject +:+ defaultDeadLetterSuffix] = true.
Proof. vm_compute. reflexivity. Qed.

(** * Redelivery while a review runs

    One message of a stream with several workers: it is delivered again when its
    acknowledgement is overdue, any of its deliveries may resolve it, and once one
    has acknowledged it what the others say has no effect. *)
Inductive MsgEvent := Deliver (worker : nat) | Resolve (worker : nat) (d : AckDecision).
Record MsgState := mkMsgState { ms_acked : bool; ms_running : list nat }.
Definition msgStep (s : MsgState) (e : MsgEvent) : option MsgState :=
  match e with
  | Deliver w => if ms_acked s then None else Some (mkMsgState false (w :: ms_running s))
  | Resolve w d =>
    if bool_decide (w ∈ ms_running s) then Some (mkMsgState (ms_acked s || Z.eqb d Ack || Z.eqb d DeadLetter) (filter (λ v, v ≠ w) (ms_running s))) else None
  end.
Definition msgRun (es : list MsgEvent) : option MsgState := foldl (λ s e, s ≫= λ s, msgStep s e) (Some (mkMsgState false [])) es.

(** Worker 0 takes the lease and reviews for longer than the acknowledgement may
    take; worker 1 gets the same task, finds the lease held, which is no error, and
    acknowledges; worker 0 then fails.  The task is gone, and nothing is reviewed. *)
Lemma redelivery_loses_task unmarshal dm req failure :
  unmarshal (dm_Payload dm) = inl req →
  let leaseHeld := λ _ : ReviewRequest, None in
  let fails := λ _ : ReviewRequest, Some failure in
  msgRun [Deliver 0; Deliver 1; Resolve 1 (consumeHandler unmarshal leaseHeld dm); Resolve 0 (consumeHandler unmarshal fails dm)] = Some (mkMsgState true []) ∧
  ∀ w, msgRun [Deliver 0; Deliver 1; Resolve 1 (consumeHandler unmarshal leaseHeld dm); Resolve 0 (consumeHandler unmarshal fails dm); Deliver w] = None.
Proof. intros Hu. unfold consumeHandler. rewrite Hu. by split. Qed.
