(* ===== verification/Tenants.v ===== *)
(** The AI settings of an installation (src/services/prreview/tenants): what its
    secret holds, in any of the formats the service has used.

    The client of Secret Manager is a parameter; the payload is parsed with
    [Json.parseJSON] and decoded as encoding/json decodes into a struct of
    strings. *)

From Stdlib Require Import Ascii.
From stdpp Require Import base gmap list strings pretty.
From S2P Require Import Prelude Quote Regex GoStrings Json PRWorker.

(** * Decoding *)

(** Member names match field names up to case; two letters outside ASCII fold to
    an ASCII one, the long s and the Kelvin sign. *)
Definition lowerASCII (a : ascii) : ascii := if byte_in 65 90 a then ascii_of_N (N_of_ascii a + 32) else a.
Fixpoint foldName (s : string) : string :=
  match s with
  | EmptyString => EmptyString
  | String a s1 =>
    let keep := String (lowerASCII a) (foldName s1) in
    match s1 with
    | EmptyString => keep
    | String b s2 =>
      if byte_is 197 a && byte_is 191 b then String "s" (foldName s2)
      else match s2 with
      | EmptyString => keep
      | String c s3 => if byte_is 226 a && byte_is 132 b && byte_is 170 c then String "k" (foldName s3) else keep
      end
    end
  end.
Definition zeroConfig : AIConfig := mkAIConfig "" "" "" "".
Definition setField (name s : string) (c : AIConfig) : AIConfig :=
  if String.eqb name "provider" then mkAIConfig s (ac_APIKey c) (ac_Model c) (ac_BaseURL c)
  else if String.eqb name "api_key" then mkAIConfig (ac_Provider c) s (ac_Model c) (ac_BaseURL c)
  else if String.eqb name "model" then mkAIConfig (ac_Provider c) (ac_APIKey c) s (ac_BaseURL c)
  else if String.eqb name "base_url" then mkAIConfig (ac_Provider c) (ac_APIKey c) (ac_Model c) s
  else c.
Definition isField (name : string) : bool := bool_decide (name ∈ ["provider"; "api_key"; "model"; "base_url"]).
(** The members in order, and whether one of another type was met, which is an
    error at the end; null leaves a field alone. *)
Definition decodeMember (r : AIConfig * bool) (m : string * JSON) : AIConfig * bool :=
  let name := foldName m.1 in
  if negb (isField name) then r
  else match m.2 with
  | JString s => (setField name s r.1, r.2)
  | JNull => r
  | _ => (r.1, true)
  end.
(** [json.Unmarshal] into the struct of [parseAIConfigPayload], and into a string;
    [None] is an error. *)
Definition unmarshalConfig (payload : string) : option AIConfig :=
  match parseJSON payload with
  | Some JNull => Some zeroConfig
  | Some (JObject ms) => let '(c, mistyped) := foldl decodeMember (zeroConfig, false) ms in if (mistyped : bool) then None else Some c
  | _ => None
  end.
Definition unmarshalString (payload : string) : option string :=
  match parseJSON payload with Some (JString s) => Some s | Some JNull => Some "" | _ => None end.

(** * Resolving *)

Definition bareKey (raw : string) : AIConfig :=
  if negb (String.eqb (TrimSpace raw) "") then mkAIConfig "anthropic" (TrimSpace raw) "" "" else zeroConfig.
Definition parseAIConfigPayload (payload : string) : AIConfig :=
  match unmarshalConfig payload with
  | Some cfg =>
    if String.eqb (ac_APIKey cfg) "" && String.eqb (ac_BaseURL cfg) "" then zeroConfig
    else if String.eqb (ac_Provider cfg) "" && String.eqb (ac_BaseURL cfg) "" then setField "provider" "anthropic" cfg
    else cfg
  | None => match unmarshalString payload with Some quoted => bareKey quoted | None => bareKey payload end
  end.

(** What [AccessSecretVersion] answers: a payload, or an error with its status. *)
Inductive Access := Accessed (data : string) | AccessNotFound | AccessFailed (err : error).
Definition secretName (projectID : string) (installationID : Z) : string :=
  "projects/" +:+ projectID +:+ "/secrets/prreview-ai-" +:+ pretty installationID +:+ "/versions/latest".
Definition SecretManager_AIConfig (access : string → Access) (projectID : string) (installationID : Z) : AIConfig + error :=
  match access (secretName projectID installationID) with
  | AccessNotFound => inl zeroConfig
  | AccessFailed err => inr (Errorf "resolving AI key for installation %d: %w" [pretty installationID] [err])
  | Accessed data => inl (parseAIConfigPayload data)
  end.
(** [Static]: a fixed map. *)
Definition Static_AIConfig (s : gmap Z AIConfig) (installationID : Z) : AIConfig := default zeroConfig (s !! installationID).

(** * What a secret means *)

Lemma foldName_fields : foldName "Provider" = "provider" ∧ foldName "API_KEY" = "api_key" ∧
  foldName ("ba" +:+ String (ascii_of_N 197) (String (ascii_of_N 191) "e_url")) = "base_url" ∧
  foldName ("api_" +:+ String (ascii_of_N 226) (String (ascii_of_N 132) (String (ascii_of_N 170) "ey"))) = "api_key".
Proof. by vm_compute. Qed.

(** A setting that can be stored. *)
Definition asPayload (c : AIConfig) : string :=
  printObject [("provider", ac_Provider c); ("api_key", ac_APIKey c); ("model", ac_Model c); ("base_url", ac_BaseURL c)].
Definition plainConfig (c : AIConfig) : Prop := plain (ac_Provider c) ∧ plain (ac_APIKey c) ∧ plain (ac_Model c) ∧ plain (ac_BaseURL c).

(** Settings stored as JSON are what the worker gets: as they are when they are
    enabled, with the legacy provider when neither provider nor address is named;
    the zero settings otherwise. *)
Theorem payload_roundtrip c : plainConfig c →
  parseAIConfigPayload (asPayload c) =
    if negb (Enabled c) then zeroConfig
    else if String.eqb (ac_Provider c) "" && String.eqb (ac_BaseURL c) "" then mkAIConfig "anthropic" (ac_APIKey c) (ac_Model c) (ac_BaseURL c) else c.
Proof.
  intros (H1 & H2 & H3 & H4). unfold parseAIConfigPayload, unmarshalConfig, asPayload. rewrite parse_printObject.
  2:{ repeat (apply Forall_cons; split); try done; (split; [apply (bool_decide_unpack _); vm_compute; exact I|done]). }
  simpl. unfold decodeMember. simpl. destruct c as [p k m u]. unfold Enabled. simpl.
  destruct (String.eqb_spec k "") as [->|]; destruct (String.eqb_spec u "") as [->|]; simpl; try done; by destruct (String.eqb_spec p "").
Qed.

(** What cannot start a JSON value. *)
Definition notJSON (a : ascii) : bool :=
  negb (space1 a) && negb (isDigitByte a) && forallb (λ n, negb (byte_is n a)) [34; 45; 91; 123; 110; 116; 102]%N.
Lemma notJSON_parse a s : notJSON a = true → parseJSON (String a s) = None.
Proof.
  unfold notJSON. rewrite !andb_true_iff. intros [[Hs Hd] Hf]. cbn [forallb] in Hf. rewrite !andb_true_iff, !negb_true_iff in Hf.
  destruct Hf as (H34 & H45 & H91 & H123 & H110 & H116 & H102 & _). apply negb_true_iff in Hs, Hd.
  assert (byte_is 32 a || byte_is 9 a || byte_is 10 a || byte_is 13 a = false) as Hsp.
  { unfold space1 in Hs. apply orb_false_iff in Hs as [Hs1 ->]. unfold byte_in, byte_is in *. apply andb_false_iff in Hs1. rewrite !N.leb_gt in Hs1.
    repeat (apply orb_false_iff; split; [|apply N.eqb_neq; lia]). done. }
  assert (byte_is 48 a = false) as H48.
  { unfold isDigitByte, byte_in, byte_is in *. apply andb_false_iff in Hd. rewrite !N.leb_gt in Hd. apply N.eqb_neq. lia. }
  unfold parseJSON. cbn [String.list_ascii_of_string length]. cbn [parseValue skipSpace]. rewrite Hsp. cbn iota.
  rewrite H34, H91, H123, H110, H116, H102. unfold parseNumber. rewrite H45. unfold spanInt. rewrite H48. cbn [spanDigits]. by rewrite Hd.
Qed.
(** A bare key, as the first secrets were, is an Anthropic key. *)
Theorem bare_key_kept a s : notJSON a = true → TrimSpace (String a s) = String a s → parseAIConfigPayload (String a s) = mkAIConfig "anthropic" (String a s) "" "".
Proof. intros Ha Ht. unfold parseAIConfigPayload, unmarshalConfig, unmarshalString. rewrite notJSON_parse by done. unfold bareKey. by rewrite Ht. Qed.
Lemma bare_key_kept_witness : parseAIConfigPayload "sk-ant-123" = mkAIConfig "anthropic" "sk-ant-123" "" "".
Proof. apply (bare_key_kept "s" "k-ant-123"); vm_compute; reflexivity. Defined.

(** Nothing but a key or an address enables commentary: a payload of space, a
    JSON object without either, null, and an empty JSON string are disabled; so is
    an installation without a secret. *)
Theorem disabled_exact payload : Enabled (parseAIConfigPayload payload) = false ↔
  match unmarshalConfig payload, unmarshalString payload with
  | Some c, _ => Enabled c = false
  | None, Some quoted => TrimSpace quoted = ""
  | None, None => TrimSpace payload = ""
  end.
Proof.
  assert (∀ raw, Enabled (bareKey raw) = false ↔ TrimSpace raw = "") as Hb.
  { intros raw. unfold bareKey. destruct (String.eqb_spec (TrimSpace raw) "") as [E|E]; simpl; [done|]. unfold Enabled. simpl.
    apply String.eqb_neq in E as E'. rewrite E'. done. }
  unfold parseAIConfigPayload. destruct (unmarshalConfig payload) as [[p k m u]|]; [|by destruct (unmarshalString payload)]. unfold Enabled. simpl.
  destruct (String.eqb_spec k "") as [->|Hk]; destruct (String.eqb_spec u "") as [->|Hu]; simpl; try done;
    destruct (String.eqb_spec p ""); simpl; rewrite ?(proj2 (String.eqb_neq _ _) Hk), ?(proj2 (String.eqb_neq _ _) Hu); done.
Qed.

(** Settings with a member of another type are not decoded, and the whole document
    becomes an Anthropic key: the key of another provider in it is then sent to
    Anthropic as part of the credential. *)
Theorem mistyped_document_is_key :
  let q s := dq +:+ s +:+ dq in
  let payload := "{" +:+ q "provider" +:+ ":" +:+ q "openai" +:+ "," +:+ q "api_key" +:+ ":" +:+ q "sk-1" +:+ "," +:+ q "model" +:+ ":5}" in
  parseJSON payload = Some (JObject [("provider", JString "openai"); ("api_key", JString "sk-1"); ("model", JNumber "5")]) ∧
  parseAIConfigPayload payload = mkAIConfig "anthropic" payload "" "".
Proof. vm_compute. done. Qed.
Example payloads_ex : let q s := dq +:+ s +:+ dq in
  parseAIConfigPayload (q " sk-ant ") = mkAIConfig "anthropic" "sk-ant" "" "" ∧ parseAIConfigPayload "null" = zeroConfig ∧
  parseAIConfigPayload ("{" +:+ q "API_KEY" +:+ ":" +:+ q "k" +:+ "}") = mkAIConfig "anthropic" "k" "" "" ∧
  parseAIConfigPayload ("{" +:+ q "base_url" +:+ ":" +:+ q "http://o" +:+ "}") = mkAIConfig "" "" "" "http://o" ∧
  parseAIConfigPayload "" = zeroConfig.
Proof. vm_compute. repeat split. Qed.
Lemma payload_roundtrip_witness : parseAIConfigPayload (asPayload (mkAIConfig "ollama" "" "llama3" "https://o.example")) = mkAIConfig "ollama" "" "llama3" "https://o.example".
Proof.
  apply (payload_roundtrip (mkAIConfig "ollama" "" "llama3" "https://o.example")).
  repeat split; apply (bool_decide_unpack _); vm_compute; exact I.
Defined.
