(* ===== verification/PRService.v ===== *)
(** The processes of the hosted review service: how the receiver and the worker
    start (src/services/prreview/cmd, src/services/prreview/internal/bootstrap),
    the endpoint Cloud Tasks pushes to, and the parsing of the App's private key.

    The environment is a map of variables.  Clients of Google Cloud and NATS, and
    the decoding of keys, are parameters: each constructor is given by the error
    it returns.  Starting is a function to the process that then serves, or to the
    reason it exits with status 1. *)

From Stdlib Require Import Ascii.
From stdpp Require Import base gmap list strings.
From S2P Require Import Prelude Regex Paths GoStrings GoFlag Code RateLimit Lease Receiver JetStream ReviewQueue PRWorker.

(** * bootstrap *)

Abbreviation Environ := (gmap string string).
Definition Getenv (e : Environ) (name : string) : string := default "" (e !! name).
Inductive Fatal := MissingEnv (name : string) | FatalErr (msg : string) (err : error) | UnknownBackend (var backend : string).
(** A step of the start-up. *)
Definition Start (A : Type) : Type := A + Fatal.
#[export] Instance start_ret : MRet Start := λ A a, inl a.
#[export] Instance start_bind : MBind Start := λ A B f m, match m with inl a => f a | inr e => inr e end.

Definition MustEnv (e : Environ) (name : string) : Start string := if String.eqb (Getenv e name) "" then inr (MissingEnv name) else inl (Getenv e name).
Definition EnvOr (e : Environ) (name def : string) : string := if negb (String.eqb (Getenv e name) "") then Getenv e name else def.
Definition orFatal (msg : string) (err : option error) : Start unit := match err with Some err => inr (FatalErr msg err) | None => inl tt end.

(** The store that STORE_BACKEND selects, with what it was opened with. *)
Inductive StoreBackend := FirestoreBackend (project : string) | PostgresBackend (dsn : string).
(** The server of [Serve]; durations are nanoseconds. *)
Record HTTPServer := mkServer { sv_Addr : string; sv_ReadHeaderTimeout : Z; sv_ReadTimeout : Z; sv_IdleTimeout : Z }.
Definition serverOf (e : Environ) : HTTPServer := mkServer (":" +:+ EnvOr e "PORT" "8080") (10 * second) (30 * second) (120 * second).

Section processes.
Context (newFirestore newPostgres natsConnect : string → option error) (natsJetStream newTasksClient newSecretsClient : option error).
(** [nats.DefaultURL], and what the stream context answers in [EnsureStream]. *)
Context (DefaultURL : string) (streamInfo : string → option NatsError) (addStream : string → option error).

Definition OpenStore (e : Environ) : Start StoreBackend :=
  let backend := EnvOr e "STORE_BACKEND" "firestore" in
  if String.eqb backend "firestore" then
    project ← MustEnv e "GOOGLE_CLOUD_PROJECT"; _ ← orFatal "firestore client" (newFirestore project); mret (FirestoreBackend project)
  else if String.eqb backend "postgres" then
    dsn ← MustEnv e "POSTGRES_DSN"; _ ← orFatal "postgres open" (newPostgres dsn); mret (PostgresBackend dsn)
  else inr (UnknownBackend "STORE_BACKEND" backend).

Definition ConnectJetStream (e : Environ) : Start unit :=
  _ ← orFatal "nats connect" (natsConnect (EnvOr e "NATS_URL" DefaultURL));
  _ ← orFatal "nats jetstream" natsJetStream;
  let stream := EnvOr e "NATS_STREAM" "PRREVIEW_REVIEWS" in
  orFatal "nats ensure stream" (EnsureStream (streamInfo stream) (addStream stream) stream).1.

(** * The receiver *)

Inductive Enqueuer := EnqueueCloudTasks (q : CloudTasks) | EnqueueNATS (bus : Settings).
Definition newEnqueuer (e : Environ) : Start Enqueuer :=
  let backend := EnvOr e "QUEUE_BACKEND" "cloudtasks" in
  if String.eqb backend "cloudtasks" then
    _ ← orFatal "cloud tasks client" newTasksClient;
    path ← MustEnv e "TASKS_QUEUE_PATH"; url ← MustEnv e "WORKER_URL"; account ← MustEnv e "INVOKER_SERVICE_ACCOUNT";
    mret (EnqueueCloudTasks (mkCloudTasks path url account))
  else if String.eqb backend "nats" then _ ← ConnectJetStream e; mret (EnqueueNATS (NewJetStreamEventBus []))
  else inr (UnknownBackend "QUEUE_BACKEND" backend).

Record ReceiverProc := mkReceiverProc {
  rp_Secret : string; rp_Store : StoreBackend; rp_DedupTTL : Z; rp_Queue : Enqueuer; rp_Limiter : Limiter; rp_Server : HTTPServer }.
Definition rateLimit (e : Environ) : Z :=
  let v := Getenv e "RATE_LIMIT_PER_HOUR" in
  if negb (String.eqb v "") then match Atoi v with Some n => n | None => 60 end else 60.
Definition receiver_main (e : Environ) : Start ReceiverProc :=
  secret ← MustEnv e "WEBHOOK_SECRET";
  store ← OpenStore e;
  queue ← newEnqueuer e;
  mret (mkReceiverProc secret store (86400 * second) queue (RateLimit.New (rateLimit e) (3600 * second)) (serverOf e)).

(** * The App's key *)

(** [pem.Decode], and the two decoders of package x509: the second yields a key
    that may be of another kind. *)
Context {Key : Type} (pemDecode : string → option string) (parsePKCS1 : string → Key + error) (parsePKCS8 : string → option Key + error).
Definition ParsePrivateKey (pem : string) : Key + error :=
  match pemDecode pem with
  | None => inr (Prelude.New "no PEM block in App private key")
  | Some block =>
    match parsePKCS1 block with
    | inl key => inl key
    | inr _ =>
      match parsePKCS8 block with
      | inr err => inr (Errorf "parsing App private key: %w" [] [err])
      | inl None => inr (Prelude.New "app private key is not RSA")
      | inl (Some key) => inl key
      end
    end
  end.

(** * The worker *)

(** The floating-point part of [time.ParseDuration]. *)
Context (fraction : Z → Z → Z → Z).

Definition leaseTTLOf (e : Environ) : Z :=
  let v := Getenv e "LEASE_TTL" in
  if negb (String.eqb v "") then match ParseDuration fraction v with Some d => d | None => 1200 * second end else 1200 * second.
Definition concurrencyOf (e : Environ) : Z :=
  let v := Getenv e "NATS_WORKER_CONCURRENCY" in
  if negb (String.eqb v "") then match Atoi v with Some n => if (0 <? n)%Z then n else 5 | None => 5 end else 5.

(** How tasks reach the worker: pushed to /task, or pulled by consume loops. *)
Inductive TaskSource :=
| Pushed (queuePath account : string)
| Pulled (bus : Settings) (subject consumer : string) (loops : Z).
Record WorkerProc := mkWorkerProc {
  wp_Project : string; wp_Key : Key; wp_AppID : string; wp_LeaseTTL : Z; wp_Store : StoreBackend; wp_Tasks : TaskSource; wp_Server : HTTPServer }.

Definition runCloudTasksWorker (e : Environ) : Start TaskSource :=
  _ ← orFatal "cloud tasks client" newTasksClient;
  path ← MustEnv e "TASKS_QUEUE_PATH"; account ← MustEnv e "INVOKER_SERVICE_ACCOUNT"; mret (Pushed path account).
(** [consume] is what the subscription of a loop returns. *)
Context (consume : nat → option error).
Fixpoint startLoops (n i : nat) : Start unit :=
  match n with O => mret tt | S n => _ ← orFatal "nats consume" (consume i); startLoops n (S i) end.
Definition runNATSWorker (e : Environ) : Start TaskSource :=
  _ ← ConnectJetStream e;
  let bus := NewJetStreamEventBus [WithDurableMaxDeliver 8; WithDurableAckWait (10 * second)] in
  let consumerName := EnvOr e "NATS_CONSUMER" "prreview-worker" in
  _ ← startLoops (Z.to_nat (concurrencyOf e)) 0;
  mret (Pulled bus ReviewsSubject consumerName (concurrencyOf e)).

(** [main]: the process, and its environment afterwards. *)
Definition worker_main (e : Environ) : Start (WorkerProc * Environ) :=
  project ← MustEnv e "GOOGLE_CLOUD_PROJECT";
  _ ← orFatal "secret manager client" newSecretsClient;
  pem ← MustEnv e "GITHUB_APP_PRIVATE_KEY";
  appKey ← match ParsePrivateKey pem with inl key => mret key | inr err => inr (FatalErr "app private key" err) end;
  let e := delete "GITHUB_APP_PRIVATE_KEY" e in
  let leaseTTL := leaseTTLOf e in
  store ← OpenStore e;
  appID ← MustEnv e "GITHUB_APP_ID";
  let backend := EnvOr e "QUEUE_BACKEND" "cloudtasks" in
  tasks ← (if String.eqb backend "cloudtasks" then runCloudTasksWorker e
           else if String.eqb backend "nats" then runNATSWorker e
           else inr (UnknownBackend "QUEUE_BACKEND" backend));
  mret (mkWorkerProc project appKey appID leaseTTL store tasks (serverOf e), e).

(** * The endpoint of pushed tasks *)

Context (unmarshal : string → ReviewRequest + error).
(** The follow-up queue of a request, from the host it was sent to. *)
Definition followUpQueue (queuePath account host : string) : CloudTasks := mkCloudTasks queuePath ("https://" +:+ host +:+ "/task") account.
Definition handleTask (owner : string) (r : HttpReq) : Code Res Response :=
  match readLimited maxBodyBytes r with
  | (_, Some _) => mret (mkResp 400 "unreadable body")
  | (body, None) =>
    match unmarshal body with
    | inr _ => mret (mkResp 400 "malformed task")
    | inl req =>
      err ← Handle true owner req;
      match (err : option error) with Some _ => mret (mkResp 500 "review failed") | None => mret (mkResp 200 "") end
    end
  end.
(** The mux: the endpoint, and /health. *)
Definition workerMux (path owner : string) (r : HttpReq) : Code Res Response :=
  if String.eqb path "/task" then handleTask owner r
  else if String.eqb path "/health" then mret (mkResp 200 "")
  else mret (mkResp 404 "404 page not found").
End processes.

(** * What a started process has *)

(** [c] can end with [a], for some answers of what it calls. *)
Fixpoint returns {O} {R : O → Type} {A} (c : Code R A) (a : A) : Prop :=
  match c with Ret b => a = b | Call o k => ∃ r, returns (k r) a end.
Lemma start_returns_bind {O} {R : O → Type} {A B} (c : Code R A) (f : A → Code R B) b : returns (c ≫= f) b ↔ ∃ a, returns c a ∧ returns (f a) b.
Proof.
  induction c as [a|o k IH]; simpl.
  - split; [eauto|]. by intros (? & -> & H).
  - split; [intros (r & (a & Ha & Hb)%IH); eauto|]. intros (a & (r & Ha) & Hb). exists r. apply IH. eauto.
Qed.

Lemma MustEnv_inl e name v : MustEnv e name = inl v ↔ Getenv e name = v ∧ v ≠ "".
Proof. unfold MustEnv. destruct (String.eqb_spec (Getenv e name) "") as [E|E]; [split; [done|by intros [<- ?]]|]. split; [by intros [= <-]|by intros [-> _]]. Qed.
Lemma EnvOr_ne e name def : def ≠ "" → EnvOr e name def ≠ "".
Proof. intros Hd. unfold EnvOr. by destruct (String.eqb_spec (Getenv e name) ""). Qed.
Lemma orFatal_inl msg err u : orFatal msg err = inl u ↔ err = None.
Proof. destruct err, u; done. Qed.
Lemma start_bind_inl {A B} (m : Start A) (f : A → Start B) b : (m ≫= f) = inl b ↔ ∃ a, m = inl a ∧ f a = inl b.
Proof. destruct m as [a|e]; simpl; split; [eauto|by intros (? & [= <-] & ?)|done|by intros (? & ? & _)]. Qed.
Ltac started := repeat match goal with
  | H : (_ ≫= _) = inl _ |- _ => apply start_bind_inl in H as (? & ? & H)
  | H : MustEnv _ _ = inl _ |- _ => apply MustEnv_inl in H as [? ?]
  | H : orFatal _ _ = inl _ |- _ => apply orFatal_inl in H
  | H : mret _ = inl _ |- _ => injection H as H
  end.

Section theorems.
Context (newFirestore newPostgres natsConnect : string → option error) (natsJetStream newTasksClient newSecretsClient : option error).
Context (DefaultURL : string) (streamInfo : string → option NatsError) (addStream : string → option error).
Context {Key : Type} (pemDecode : string → option string) (parsePKCS1 : string → Key + error) (parsePKCS8 : string → option Key + error).
Context (fraction : Z → Z → Z → Z) (consume : nat → option error).
Let start := worker_main newFirestore newPostgres natsConnect natsJetStream newTasksClient newSecretsClient DefaultURL streamInfo addStream
  pemDecode parsePKCS1 parsePKCS8 fraction consume.

Lemma startLoops_ok n i u : startLoops consume n i = inl u → ∀ j, i ≤ j < i + n → consume j = None.
Proof.
  revert i. induction n as [|n IH]; intros i H j Hj; [lia|]. cbn [startLoops] in H. started. destruct (decide (j = i)) as [->|]; [done|].
  eapply IH; [done|lia].
Qed.

(** A worker that serves holds the key its environment named and an App
    identifier; no variable of its environment but the key is gone, and the key is
    not there any more for the processes it spawns; it consumes with a positive
    number of loops, each of which is subscribed, or takes pushed tasks. *)
Theorem worker_started e proc e' : start e = inl (proc, e') →
  ParsePrivateKey pemDecode parsePKCS1 parsePKCS8 (Getenv e "GITHUB_APP_PRIVATE_KEY") = inl (wp_Key proc) ∧
  wp_AppID proc = Getenv e "GITHUB_APP_ID" ∧ wp_AppID proc ≠ "" ∧ wp_Project proc ≠ "" ∧
  e' = delete "GITHUB_APP_PRIVATE_KEY" e ∧
  match wp_Tasks proc with
  | Pushed path account => path = Getenv e "TASKS_QUEUE_PATH" ∧ path ≠ "" ∧ account ≠ ""
  | Pulled bus subject consumer loops => subject = ReviewsSubject ∧ (0 < loops)%Z ∧ consumer ≠ "" ∧
      durableMaxDeliver bus = 8%Z ∧ durableAckWait bus = (10 * second)%Z ∧ ∀ j, j < Z.to_nat loops → consume j = None
  end.
Proof.
  assert (∀ name, name ≠ "GITHUB_APP_PRIVATE_KEY" → Getenv (delete "GITHUB_APP_PRIVATE_KEY" e) name = Getenv e name) as Hg.
  { intros name Hn. unfold Getenv. by rewrite lookup_delete_ne. }
  unfold start, worker_main. intros H. started. destruct (ParsePrivateKey _ _ _ _) as [key|err] eqn:Ek; [|done]. started. simplify_eq.
  cbn [wp_Key wp_AppID wp_Project wp_Tasks]. rewrite <- (Hg "GITHUB_APP_ID" ltac:(done)). split_and!; try congruence; try done.
  destruct (String.eqb _ "cloudtasks").
  - unfold runCloudTasksWorker in *. started. simplify_eq. split_and!; [by apply Hg|done|done].
  - destruct (String.eqb _ "nats"); [|done]. unfold runNATSWorker in *. started. simplify_eq. split; [done|].
    assert (0 < concurrencyOf (delete "GITHUB_APP_PRIVATE_KEY" e))%Z as Hpos.
    { unfold concurrencyOf. repeat case_match; lia. }
    split; [done|]. split; [by apply EnvOr_ne|]. split; [done|]. split; [done|].
    intros j Hj. eapply startLoops_ok; [done|lia].
Qed.
End theorems.

(** ** The lease and the tasks *)

(** Unless LEASE_TTL is a duration, the lease outlives the attempt that Cloud Tasks
    allows a task it was given. *)
Theorem default_lease_outlives_task fraction marshal e q createTask req err task :
  ParseDuration fraction (Getenv e "LEASE_TTL") = None → CloudTasks_Enqueue marshal q createTask req = (err, Some task) →
  (tk_DispatchDeadline task < leaseTTLOf fraction e)%Z.
Proof.
  intros Hp. unfold CloudTasks_Enqueue. destruct (marshal req); [|done]. intros [= _ <-]. simpl. unfold leaseTTLOf. rewrite Hp.
  by case_match.
Qed.
(** Any duration is taken, though, also one that ends before the attempt does, or
    before it starts. *)
Theorem lease_ttl_unchecked fraction :
  leaseTTLOf fraction {[ "LEASE_TTL" := "1m" ]} = (60 * second)%Z ∧ leaseTTLOf fraction {[ "LEASE_TTL" := "-5m" ]} = (-300 * second)%Z ∧
  (60 * second < 900 * second)%Z.
Proof. by vm_compute. Qed.

(** A pushed task is answered with 200 exactly for an end of the worker without an
    error, with 500 for one with an error, and with 400, without any call, exactly
    when it cannot be read. *)
Theorem task_answers unmarshal owner r resp : returns (handleTask unmarshal owner r) resp ↔
  match readLimited maxBodyBytes r with
  | (_, Some _) => resp = mkResp 400 "unreadable body"
  | (body, None) =>
    match unmarshal body with
    | inr _ => resp = mkResp 400 "malformed task"
    | inl req => resp = mkResp 200 "" ∧ returns (Handle true owner req) None ∨ resp = mkResp 500 "review failed" ∧ ∃ err, returns (Handle true owner req) (Some err)
    end
  end.
Proof.
  unfold handleTask. destruct (readLimited maxBodyBytes r) as [body [err|]]; [done|]. destruct (unmarshal body) as [req|err]; [|done].
  rewrite start_returns_bind. split.
  - intros ([err|] & Hh & ->); eauto.
  - intros [[-> Hh]|[-> [err Hh]]]; eexists; (split; [exact Hh|done]).
Qed.
Lemma worker_started_witness : ∃ proc e', worker_main (λ _, None) (λ _, None) (λ _, None) None None None "nats://127.0.0.1:4222" (λ _, None) (λ _, None)
    Some (λ b, inl b) (λ _, inl None) (λ _ _ _, 0%Z) (λ _, None)
    {[ "GOOGLE_CLOUD_PROJECT" := "p"; "GITHUB_APP_PRIVATE_KEY" := "pem"; "GITHUB_APP_ID" := "7"; "QUEUE_BACKEND" := "nats"; "NATS_WORKER_CONCURRENCY" := "-2" ]}
    = inl (proc, e') ∧ e' !! "GITHUB_APP_PRIVATE_KEY" = None ∧ wp_AppID proc = "7" ∧ wp_Key proc = "pem".
Proof.
  set (e := {[ "GOOGLE_CLOUD_PROJECT" := "p"; "GITHUB_APP_PRIVATE_KEY" := "pem"; "GITHUB_APP_ID" := "7"; "QUEUE_BACKEND" := "nats"; "NATS_WORKER_CONCURRENCY" := "-2" ]} : Environ).
  destruct (worker_main (λ _, None) (λ _, None) (λ _, None) None None None "nats://127.0.0.1:4222" (λ _, None) (λ _, None)
    Some (λ b, inl b) (λ _, inl None) (λ _ _ _, 0%Z) (λ _, None) e) as [[proc e']|f] eqn:E.
  - exists proc, e'. split; [reflexivity|].
    destruct (worker_started (λ _, None) (λ _, None) (λ _, None) None None None "nats://127.0.0.1:4222" (λ _, None) (λ _, None)
      Some (λ b, inl b) (λ _, inl None) (λ _ _ _, 0%Z) (λ _, None) e proc e' E) as (Hk & Ha & _ & _ & -> & _).
    split; [apply lookup_delete_eq|]. split; [exact Ha|]. injection Hk as Hk. symmetry. exact Hk.
  - exfalso. assert (match worker_main (λ _, None) (λ _, None) (λ _, None) None None None "nats://127.0.0.1:4222" (λ _, None) (λ _, None)
      Some (λ b, inl b) (λ _, inl None) (λ _ _ _, 0%Z) (λ _, None) e with inl _ => true | inr _ => false end = true) as Ht by (vm_compute; reflexivity).
    rewrite E in Ht. discriminate Ht.
Defined.
