(* ===== verification/Otel.v ===== *)
(** The OpenTelemetry bindings (src/otel): the HTTP and subscriber middleware, the
    attributes and errors of the spans of the tracer's adapter, the settings of
    the exporter.

    What a span records is a list of events.  The response writer that the
    middleware wraps is any implementation of an interface with the documented
    behaviour of [http.ResponseWriter], with or without the optional interfaces
    that a handler finds by type assertion; that of net/http is one.  URL parsing
    and the exporters are parameters.  How trace contexts travel is in Tracing.v. *)

From Stdlib Require Import Ascii.
From stdpp Require Import base gmap list strings pretty.
From S2P Require Import Prelude Quote Regex GoStrings Code.

(** * Response writers *)

(** The optional interfaces that a handler may look for with a type assertion. *)
Inductive Iface := IFlusher | IHijacker | IOther (name : string).
(** What a handler does with the writer it is given: the methods of
    [http.ResponseWriter]; [_, ok := w.(I)]; and the methods of two optional
    interfaces, as [w.(http.Flusher).Flush()] and [w.(http.Hijacker).Hijack()]. *)
Inductive WOp := WriteHeader (status : Z) | Write (b : string) | Implements (i : Iface) | Flush | Hijack.
Definition WRes (o : WOp) : Type :=
  match o with WriteHeader _ | Flush => unit | Write _ => nat + error | Implements _ => bool | Hijack => unit + error end.

(** An implementation: [None] is a panic, for a status that is none.  It has
    [Flush] and [Hijack] or not, and other optional interfaces, of which only
    their presence is seen. *)
Class ResponseWriter (St : Type) := {
  rw_writeHeader : Z → St → option St;
  rw_write : string → St → (nat + error) * St;
  rw_flush : option (St → St);
  rw_hijack : option (St → (unit + error) * St);
  rw_other : string → bool;
  (** The status of the response, once it has been sent. *)
  rw_sent : St → option Z;
  (** No further header has an effect. *)
  rw_closed : St → bool;
}.
(** Statuses that announce more to come; 101 ends the response. *)
Definition informational (status : Z) : bool := ((100 <=? status) && (status <=? 199) && negb (status =? 101))%Z.
(** What the documentation of [http.ResponseWriter] says. *)
Class ResponseWriterLaws (St : Type) `{ResponseWriter St} : Prop := {
  sent_closed st : is_Some (rw_sent st) → rw_closed st = true;
  closed_header st status : rw_closed st = true → rw_writeHeader status st = Some st;
  open_header st st' status : rw_closed st = false → informational status = false → rw_writeHeader status st = Some st' →
    rw_closed st' = true ∧ rw_sent st' = Some status;
  ok_header st : is_Some (rw_writeHeader 200 st);
  open_write st st' b : rw_closed st = false → rw_writeHeader 200 st = Some st' → rw_write b st = rw_write b st';
  write_closed st b : rw_closed st = true → rw_closed (rw_write b st).2 = true ∧ rw_sent (rw_write b st).2 = rw_sent st;
  flush_closed f st : rw_flush = Some f → rw_closed st = true → rw_closed (f st) = true;
  hijack_closed h st : rw_hijack = Some h → rw_closed st = true → rw_closed (h st).2 = true;
}.

Section writers.
Context {St : Type} `{ResponseWriter St}.

Definition rw_implements (i : Iface) : bool :=
  match i with IFlusher => bool_decide (is_Some (rw_flush (St := St))) | IHijacker => bool_decide (is_Some (rw_hijack (St := St))) | IOther name => rw_other name end.
(** A handler on a writer itself: its result and the writer, [None] for a panic.
    A type assertion without [ok] panics on a writer without the interface. *)
Definition doOp (o : WOp) : St → option (WRes o * St) :=
  match o return St → option (WRes o * St) with
  | WriteHeader status => λ st, match rw_writeHeader status st with Some st => Some (tt, st) | None => None end
  | Write b => λ st, Some (rw_write b st)
  | Implements i => λ st, Some (rw_implements i, st)
  | Flush => λ st, match rw_flush with Some f => Some (tt, f st) | None => None end
  | Hijack => λ st, match rw_hijack with Some h => Some (h st) | None => None end
  end.
Fixpoint serve {A} (c : Code WRes A) (st : St) : option (A * St) :=
  match c with
  | Ret a => Some (a, st)
  | Call o k => match doOp o st with Some (r, st) => serve (k r) st | None => None end
  end.

(** * statusWriter *)

Record statusWriter := mkStatusWriter { sw_ResponseWriter : St; sw_status : Z; sw_wroteHeader : bool }.
Definition newStatusWriter (w : St) : statusWriter := mkStatusWriter w 200 false.
Definition SW_WriteHeader (status : Z) (w : statusWriter) : option statusWriter :=
  if sw_wroteHeader w then Some w
  else match rw_writeHeader status (sw_ResponseWriter w) with
  | Some st => Some (mkStatusWriter st status true)
  | None => None
  end.
Definition SW_Write (b : string) (w : statusWriter) : option ((nat + error) * statusWriter) :=
  match (if negb (sw_wroteHeader w) then SW_WriteHeader 200 w else Some w) with
  | Some w => let '(r, st) := rw_write b (sw_ResponseWriter w) in Some (r, mkStatusWriter st (sw_status w) (sw_wroteHeader w))
  | None => None
  end.
(** The method set of [*statusWriter]: that of [http.ResponseWriter], which it
    embeds, and its own methods. *)
Definition SW_implements (i : Iface) : bool :=
  match i with IFlusher | IHijacker => true | IOther name => String.eqb name "interface{ Unwrap() http.ResponseWriter }" end.
Definition SW_Flush (w : statusWriter) : statusWriter :=
  match rw_flush with Some f => mkStatusWriter (f (sw_ResponseWriter w)) (sw_status w) (sw_wroteHeader w) | None => w end.
Definition errNoHijacker : error := Prelude.New "http.Hijacker not supported by underlying ResponseWriter".
Definition SW_Hijack (w : statusWriter) : (unit + error) * statusWriter :=
  match rw_hijack with
  | Some h => let '(r, st) := h (sw_ResponseWriter w) in (r, mkStatusWriter st (sw_status w) (sw_wroteHeader w))
  | None => (inr errNoHijacker, w)
  end.
Definition SW_Unwrap (w : statusWriter) : St := sw_ResponseWriter w.

Definition doSW (o : WOp) : statusWriter → option (WRes o * statusWriter) :=
  match o return statusWriter → option (WRes o * statusWriter) with
  | WriteHeader status => λ w, match SW_WriteHeader status w with Some w => Some (tt, w) | None => None end
  | Write b => λ w, SW_Write b w
  | Implements i => λ w, Some (SW_implements i, w)
  | Flush => λ w, Some (tt, SW_Flush w)
  | Hijack => λ w, Some (SW_Hijack w)
  end.
Fixpoint serveSW {A} (c : Code WRes A) (w : statusWriter) : option (A * statusWriter) :=
  match c with
  | Ret a => Some (a, w)
  | Call o k => match doSW o w with Some (r, w) => serveSW (k r) w | None => None end
  end.

(** * The middleware *)

Inductive SpanKind := SpanKindServer | SpanKindConsumer.
Inductive SpanEvent :=
| SpanStart (name : string) (kind : SpanKind) | SpanAttr (key value : string) | SpanIntAttr (key : string) (value : Z) | SpanBoolAttr (key : string) (value : bool)
| SpanErrorStatus (text : string) | SpanRecordError (err : error) | SpanEnd.

(** A request: its method and path, and what names its span.  The trace its
    context gets from the headers is [Tracing.requestContext]. *)
Record Request := mkRequest { rq_Method : string; rq_Path : string }.
Definition defaultSpanName (r : Request) : string := rq_Method r.
(** The settings, and the options that set them; the last one wins. *)
Definition httpConfig : Type := option (Request → string).
Definition HTTPOption : Type := httpConfig → httpConfig.
Definition WithHTTPSpanName (fn : option (Request → string)) : HTTPOption := λ _, fn.
Definition httpConfigOf (opts : list HTTPOption) : httpConfig := foldl (λ cfg o, o cfg) None opts.
(** The deferred End runs for a panic too; what the handler left undone does not. *)
Definition HTTPMiddleware {A} (opts : list HTTPOption) (next : Request → Code WRes A) (r : Request) (w : St) : list SpanEvent * option (A * St) :=
  let name := match httpConfigOf opts with Some f => f r | None => defaultSpanName r end in
  let started := [SpanStart name SpanKindServer; SpanAttr "http.request.method" (rq_Method r); SpanAttr "url.path" (rq_Path r)] in
  match serveSW (next r) (newStatusWriter w) with
  | None => (started ++ [SpanEnd], None)
  | Some (a, sw) =>
    (started ++ [SpanIntAttr "http.response.status_code" (sw_status sw)] ++
     (if (500 <=? sw_status sw)%Z then [SpanBoolAttr "error" true; SpanErrorStatus ("HTTP " +:+ pretty (sw_status sw))] else []) ++ [SpanEnd],
     Some (a, SW_Unwrap sw))
  end.
End writers.

Definition SubscriberOption : Type := string → string.
Definition WithSubscriberTopicAttr (key : string) : SubscriberOption := λ _, key.
Definition subscriberConfigOf (opts : list SubscriberOption) : string := foldl (λ cfg o, o cfg) "" opts.
(** [handler] with the answer it gives; [None] is a panic. *)
Definition SubscriberMiddleware (opts : list SubscriberOption) (topic : string) (handler : string → option (option error)) (payload : string) : list SpanEvent * option (option error) :=
  let topicAttr := subscriberConfigOf opts in
  let key := if String.eqb topicAttr "" then "messaging.destination" else topicAttr in
  let started := [SpanStart ("process " +:+ topic) SpanKindConsumer; SpanAttr key topic] in
  match handler payload with
  | None => (started ++ [SpanEnd], None)
  | Some (Some err) => (started ++ [SpanRecordError err; SpanErrorStatus (errorText err); SpanEnd], Some (Some err))
  | Some None => (started ++ [SpanEnd], Some None)
  end.

(** ** The writer of net/http *)

Record Response := mkResponse { rs_info : list Z; rs_status : option Z; rs_body : string; rs_hijacked : bool; rs_flushes : nat }.
Definition ErrHijacked : error := Prelude.New "http: connection has been hijacked".
Definition ErrBodyNotAllowed : error := Prelude.New "http: request method or response status code does not allow body".
Definition bodyAllowed (status : Z) : bool := negb (((100 <=? status) && (status <=? 199)) || (status =? 204) || (status =? 304))%Z.
Definition net_writeHeader (status : Z) (r : Response) : option Response :=
  if rs_hijacked r then Some r
  else match rs_status r with
  | Some _ => Some r
  | None =>
    if ((status <? 100) || (999 <? status))%Z then None
    else if informational status then Some (mkResponse (rs_info r ++ [status]) None (rs_body r) false (rs_flushes r))
    else Some (mkResponse (rs_info r) (Some status) (rs_body r) false (rs_flushes r))
  end.
Definition net_write (b : string) (r : Response) : (nat + error) * Response :=
  if rs_hijacked r then (inr ErrHijacked, r)
  else
    let status := default 200%Z (rs_status r) in
    if negb (bodyAllowed status) then (inr ErrBodyNotAllowed, mkResponse (rs_info r) (Some status) (rs_body r) false (rs_flushes r))
    else (inl (String.length b), mkResponse (rs_info r) (Some status) (rs_body r +:+ b) false (rs_flushes r)).
Definition net_flush (r : Response) : Response :=
  if rs_hijacked r then r else mkResponse (rs_info r) (Some (default 200%Z (rs_status r))) (rs_body r) false (S (rs_flushes r)).
Definition net_hijack (r : Response) : (unit + error) * Response :=
  if rs_hijacked r then (inr ErrHijacked, r) else (inl tt, mkResponse (rs_info r) (rs_status r) (rs_body r) true (rs_flushes r)).
#[export] Instance net_writer : ResponseWriter Response := {
  rw_writeHeader := net_writeHeader; rw_write := net_write; rw_flush := Some net_flush; rw_hijack := Some net_hijack;
  rw_other name := bool_decide (name ∈ ["io.ReaderFrom"; "io.StringWriter"; "http.CloseNotifier"; "interface{ FlushError() error }"]);
  rw_sent := rs_status; rw_closed r := rs_hijacked r || match rs_status r with Some _ => true | None => false end }.
#[export] Instance net_writer_laws : ResponseWriterLaws Response.
Proof.
  split; unfold rw_writeHeader, rw_write, rw_flush, rw_hijack, rw_sent, rw_closed, net_writer, net_writeHeader, net_write, net_flush, net_hijack.
  - intros [? [s|] ? [] ?]; simpl; [done..| |]; by intros [? ?].
  - by intros [? [s|] ? [] ?].
  - intros [? [s|] ? [] ?] st' status; simpl; try done. intros _ Hi. case_match; [done|]. rewrite Hi. by intros [= <-].
  - intros [? [s|] ? [] ?]; simpl; by eexists.
  - intros [? [s|] ? [] ?] st' b; simpl; try done. intros _. by intros [= <-].
  - intros [? [s|] ? [] ?] b; simpl; try done. by case_match.
  - intros f [? [s|] ? [] ?] [= <-]; done.
  - intros h [? [s|] ? [] ?] [= <-]; done.
Qed.

(** * The middleware is transparent *)

Section transparency.
Context {St : Type} `{ResponseWriterLaws St}.

(** A handler none of whose headers is informational. *)
Fixpoint finalHeaders {A} (c : Code WRes A) : Prop :=
  match c with
  | Ret _ => True
  | Call o k => match o with WriteHeader status => informational status = false | _ => True end ∧ ∀ r, finalHeaders (k r)
  end.
(** A handler that asks only for optional interfaces on which the wrapper and the
    writer it wraps agree, and uses only those that the writer has. *)
Definition agreeOn (o : WOp) : Prop :=
  match o with
  | Implements i => rw_implements (St := St) i = SW_implements i
  | Flush => is_Some (rw_flush (St := St))
  | Hijack => is_Some (rw_hijack (St := St))
  | WriteHeader _ | Write _ => True
  end.
Fixpoint agrees {A} (c : Code WRes A) : Prop :=
  match c with Ret _ => True | Call o k => agreeOn o ∧ ∀ r, agrees (k r) end.
(** The wrapper and the writer it wraps agree on when a header is final. *)
Definition inStep (w : statusWriter (St := St)) : Prop := sw_wroteHeader w = true → rw_closed (sw_ResponseWriter w) = true.

Lemma SW_WriteHeader_same status w : inStep w → informational status = false →
  match SW_WriteHeader status w, rw_writeHeader status (sw_ResponseWriter w) with
  | Some w', Some st => sw_ResponseWriter w' = st ∧ inStep w'
  | None, None => True
  | _, _ => False
  end.
Proof.
  intros Hw Hi. unfold SW_WriteHeader. destruct (sw_wroteHeader w) eqn:E; [by rewrite closed_header by auto|].
  destruct (rw_writeHeader status (sw_ResponseWriter w)) as [st|] eqn:Eh; [|done]. split; [done|]. intros _. simpl.
  destruct (rw_closed (sw_ResponseWriter w)) eqn:Ec; [rewrite closed_header in Eh by done; by simplify_eq|]. by eapply open_header in Eh as [? _].
Qed.
Lemma doSW_same o w : inStep w → match o with WriteHeader status => informational status = false | _ => True end → agreeOn o →
  match doSW o w, doOp o (sw_ResponseWriter w) with
  | Some (r', w'), Some (r, st) => r' = r ∧ sw_ResponseWriter w' = st ∧ inStep w'
  | None, None => True
  | _, _ => False
  end.
Proof.
  intros Hw. destruct o as [status|b|i| |]; simpl.
  - intros Hi _. pose proof (SW_WriteHeader_same status w Hw Hi) as Hs. by repeat case_match.
  - intros _ _. unfold SW_Write. destruct (sw_wroteHeader w) eqn:E; simpl.
    + pose proof (write_closed (sw_ResponseWriter w) b (Hw E)) as [Hc _]. destruct (rw_write b _) as [r st]. split_and!; [done..|intros _; exact Hc].
    + unfold SW_WriteHeader. rewrite E. destruct (ok_header (sw_ResponseWriter w)) as [st Hst]. rewrite Hst.
      assert (rw_write b (sw_ResponseWriter w) = rw_write b st ∧ rw_closed st = true) as [-> Hc].
      { destruct (rw_closed (sw_ResponseWriter w)) eqn:Ec; [rewrite closed_header in Hst by done; by simplify_eq|].
        split; [by apply open_write|]. by eapply open_header in Hst as [? _]. }
      simpl. pose proof (write_closed st b Hc) as [Hc' _]. destruct (rw_write b st) as [r st']. split_and!; [done..|intros _; exact Hc'].
  - by intros _ ->.
  - intros _ [f Ef]. unfold SW_Flush. rewrite Ef. split; [done|]. split; [done|]. intros Hwr. simpl. by apply flush_closed, Hw.
  - intros _ [h Eh]. unfold SW_Hijack. rewrite Eh. pose proof (hijack_closed h (sw_ResponseWriter w) Eh) as Hc.
    destruct (h (sw_ResponseWriter w)) as [r st]. split; [done|]. split; [done|]. intros Hwr. by apply Hc, Hw.
Qed.
Lemma serveSW_same {A} (c : Code WRes A) w : inStep w → finalHeaders c → agrees c →
  match serveSW c w, serve c (sw_ResponseWriter w) with
  | Some (a', w'), Some (a, st) => a' = a ∧ sw_ResponseWriter w' = st
  | None, None => True
  | _, _ => False
  end.
Proof.
  revert w. induction c as [a|o k IH]; intros w Hw Hf Ha; [done|]. destruct Hf as [Ho Hk], Ha as [Hao Hak]. cbn [serveSW serve].
  pose proof (doSW_same o w Hw Ho Hao) as Hs. destruct (doSW o w) as [[r' w']|], (doOp o (sw_ResponseWriter w)) as [[r st]|]; try done.
  destruct Hs as (<- & <- & Hw'). by apply IH.
Qed.

Lemma middleware_same {A} fn (next : Request → Code WRes A) r w :
  finalHeaders (next r) → agrees (next r) → (HTTPMiddleware fn next r w).2 = serve (next r) w.
Proof.
  intros Hf Ha. unfold HTTPMiddleware. assert (inStep (newStatusWriter w)) as Hw by intros [=].
  pose proof (serveSW_same (next r) (newStatusWriter w) Hw Hf Ha) as Hs. change (sw_ResponseWriter (newStatusWriter w)) with w in Hs.
  destruct (serveSW (next r) (newStatusWriter w)) as [[a sw]|], (serve (next r) w) as [[a' st]|]; try done. destruct Hs as [-> <-]. done.
Qed.

(** A handler that does not end its header otherwise than by sending it. *)
Fixpoint plainWrites {A} (c : Code WRes A) : Prop :=
  match c with Ret _ => True | Call o k => match o with Flush | Hijack => False | _ => True end ∧ ∀ r, plainWrites (k r) end.
(** What is recorded is what was sent. *)
Definition recorded (w : statusWriter (St := St)) : Prop :=
  if sw_wroteHeader w then rw_closed (sw_ResponseWriter w) = true ∧ rw_sent (sw_ResponseWriter w) = Some (sw_status w)
  else rw_closed (sw_ResponseWriter w) = false ∧ sw_status w = 200%Z.
Lemma SW_WriteHeader_recorded status w w' : recorded w → informational status = false → SW_WriteHeader status w = Some w' →
  recorded w' ∧ sw_wroteHeader w' = true.
Proof.
  unfold recorded, SW_WriteHeader. destruct (sw_wroteHeader w) eqn:E; [intros Hr _ [= <-]; by rewrite E|]. intros [Ho _] Hi.
  destruct (rw_writeHeader status _) as [st|] eqn:Eh; [|done]. intros [= <-]. simpl. by eapply open_header in Eh as [? ?].
Qed.
Lemma serveSW_recorded {A} (c : Code WRes A) w a w' : recorded w → finalHeaders c → plainWrites c → serveSW c w = Some (a, w') → recorded w'.
Proof.
  revert w. induction c as [a'|o k IH]; intros w Hr Hf Hp; [by intros [= <- <-]|]. destruct Hf as [Ho Hk], Hp as [Hpo Hpk]. cbn [serveSW].
  destruct (doSW o w) as [[r w1]|] eqn:E; [|done]. apply IH; [|done|done]. destruct o as [status|b|i| |]; try done; simpl in E.
  - destruct (SW_WriteHeader status w) as [w2|] eqn:E2; [|done]. injection E as _ <-. by eapply SW_WriteHeader_recorded.
  - unfold SW_Write in E. destruct (if negb (sw_wroteHeader w) then SW_WriteHeader 200 w else Some w) as [w2|] eqn:E2; [|done].
    assert (recorded w2 ∧ sw_wroteHeader w2 = true) as [Hr2 Hw2].
    { destruct (sw_wroteHeader w) eqn:Ew; [simpl in E2; by simplify_eq|]. simpl in E2. by apply (SW_WriteHeader_recorded 200 w). }
    pose proof (write_closed (sw_ResponseWriter w2) b) as Hc. destruct (rw_write b (sw_ResponseWriter w2)) as [r2 st2]. injection E as _ <-.
    unfold recorded in *. rewrite Hw2 in Hr2. simpl. rewrite Hw2. destruct Hr2 as [Hcl Hs]. destruct (Hc Hcl) as [? Hs2]. split; [done|]. simpl in Hs2. congruence.
  - by injection E as _ <-.
Qed.
Lemma recorded_status w : recorded w → default 200%Z (rw_sent (SW_Unwrap w)) = sw_status w.
Proof.
  unfold recorded, SW_Unwrap. destruct (sw_wroteHeader w); [by intros [_ ->]|]. intros [Hc ->].
  destruct (rw_sent (sw_ResponseWriter w)) as [x|] eqn:Es; [|done]. pose proof (sent_closed (sw_ResponseWriter w) ltac:(eauto)). congruence.
Qed.

(** C37. A request through the middleware has the outcome it has without it: the same
    result and the same response, a panic included, for every writer with the
    documented behaviour and every handler that sends no informational header and
    depends on no optional interface of the writer that the wrapper adds or
    hides: it asserts only those that both or neither have, and flushes and
    hijacks only a writer that can.  When moreover it neither flushes nor hijacks,
    the status of the span is that of the response, 200 if it sent none, and the
    span is an error exactly from 500 on. *)
Theorem middleware_transparent {A} opts (next : Request → Code WRes A) r w : finalHeaders (next r) → agrees (next r) →
  (HTTPMiddleware opts next r w).2 = serve (next r) w ∧
  (rw_closed w = false → plainWrites (next r) → ∀ a st, serve (next r) w = Some (a, st) →
    SpanIntAttr "http.response.status_code" (default 200%Z (rw_sent st)) ∈ (HTTPMiddleware opts next r w).1 ∧
    ((∃ text, SpanErrorStatus text ∈ (HTTPMiddleware opts next r w).1) ↔ (500 ≤ default 200 (rw_sent st))%Z)).
Proof.
  intros Hf Ha. pose proof (middleware_same opts next r w Hf Ha) as Ht. split; [done|]. intros Ho Hp a st Hs. rewrite Hs in Ht. unfold HTTPMiddleware in *.
  destruct (serveSW (next r) (newStatusWriter w)) as [[a' sw]|] eqn:E; [|done]. injection Ht as <- <-.
  apply serveSW_recorded in E; [|done|done|done]. rewrite (recorded_status _ E). simpl. split; [set_solver|].
  destruct (Z.leb_spec 500 (sw_status sw)); [split; [done|]; exists ("HTTP " +:+ pretty (sw_status sw)); set_solver|]. split; [|lia]. intros [text Hin].
  repeat (apply elem_of_cons in Hin as [Hin|Hin]; [done|]). by apply elem_of_nil in Hin.
Qed.
End transparency.

(** The conditions are needed.  An informational header ends the header for the
    wrapper: the status that follows is dropped and the client gets 200.  A header
    after a flush is recorded although 200 has been sent. *)
Definition emptyResponse : Response := mkResponse [] None "" false 0.
Definition earlyHints (_ : Request) : Code WRes unit := _ ← call (WriteHeader 103); _ ← call (WriteHeader 404); _ ← call (Write "no such page"); mret tt.
Definition lateError (_ : Request) : Code WRes unit := _ ← call Flush; _ ← call (WriteHeader 500); mret tt.
Theorem early_hints_lose_status : let r := mkRequest "GET" "/x" in
  (rs_status ∘ snd <$> serve (earlyHints r) emptyResponse) = Some (Some 404%Z) ∧
  (rs_status ∘ snd <$> (HTTPMiddleware [] earlyHints r emptyResponse).2) = Some (Some 200%Z) ∧
  SpanIntAttr "http.response.status_code" 103 ∈ (HTTPMiddleware [] earlyHints r emptyResponse).1.
Proof. vm_compute. split; [done|]. split; [done|]. do 3 right. left. Qed.
Theorem late_error_recorded : let r := mkRequest "GET" "/x" in
  (rs_status ∘ snd <$> (HTTPMiddleware [] lateError r emptyResponse).2) = Some (Some 200%Z) ∧
  SpanIntAttr "http.response.status_code" 500 ∈ (HTTPMiddleware [] lateError r emptyResponse).1.
Proof. vm_compute. split; [done|]. do 3 right. left. Qed.

(** The writer of net/http behind a wrapper that has the three methods only, as
    many middlewares give. *)
Record bareResponse := mkBare { br_response : Response }.
#[export] Instance bare_writer : ResponseWriter bareResponse := {
  rw_writeHeader status r := mkBare <$> net_writeHeader status (br_response r);
  rw_write b r := let '(n, r) := net_write b (br_response r) in (n, mkBare r);
  rw_flush := None; rw_hijack := None; rw_other _ := false;
  rw_sent r := rs_status (br_response r); rw_closed r := rw_closed (br_response r) }.
(** An event stream: it refuses a writer that cannot flush.  Through the
    middleware it takes any writer for one that can. *)
Definition eventStream (_ : Request) : Code WRes unit :=
  ok ← call (Implements IFlusher);
  if ok : bool then _ ← call (Write "data: 1"); _ ← call Flush; mret tt
  else _ ← call (WriteHeader 501); _ ← call (Write "streaming unsupported"); mret tt.
(** A handler that looks for an interface of the writer of net/http. *)
Definition readsFrom (_ : Request) : Code WRes bool := call (Implements (IOther "io.ReaderFrom")).
Theorem optional_interfaces_differ : let r := mkRequest "GET" "/events" in
  (rs_status ∘ br_response ∘ snd <$> serve (eventStream r) (mkBare emptyResponse)) = Some (Some 501%Z) ∧
  (rs_body ∘ br_response ∘ snd <$> (HTTPMiddleware [] eventStream r (mkBare emptyResponse)).2) = Some "data: 1" ∧
  (fst <$> serve (readsFrom r) emptyResponse) = Some true ∧ (fst <$> (HTTPMiddleware [] readsFrom r emptyResponse).2) = Some false.
Proof. vm_compute. repeat split. Qed.

(** * The tracer adapter *)

(** The value of an attribute: what a type switch sees of it.  Floats are given by
    their text; other values by that of their [String] method, if they have one,
    and by what [%v] prints. *)
Inductive AnyVal := VString (s : string) | VBool (b : bool) | VInt (z : Z) | VInt64 (z : Z) | VFloat64 (f : string) | VOther (stringer : option string) (printed : string).
Inductive AttrVal := KString (s : string) | KBool (b : bool) | KInt64 (z : Z) | KFloat64 (f : string).
Definition fmtValue (stringer : option string) (printed : string) : string := match stringer with Some s => s | None => printed end.
Definition convertAttribute (v : AnyVal) : AttrVal :=
  match v with
  | VString s => KString s
  | VBool b => KBool b
  | VInt z | VInt64 z => KInt64 z
  | VFloat64 f => KFloat64 f
  | VOther stringer printed => KString (fmtValue stringer printed)
  end.
(** The entries of a map, in the order of its iteration. *)
Definition convertAttributes (attrs : list (string * AnyVal)) : list (string * AttrVal) := prod_map id convertAttribute <$> attrs.

Inductive AdapterEvent := AStart (name : string) (attrs : list (string * AttrVal)) | AEnd | ARecordError (err : error) | ASetStatus (text : string) | ASetAttributes (attrs : list (string * AttrVal)).
Definition Tracer_Start (name : string) (attrs : list (string * AnyVal)) : list AdapterEvent :=
  [AStart name (if (0 <? length attrs)%nat then convertAttributes attrs else [])].
Definition Span_RecordError (err : option error) : list AdapterEvent :=
  match err with None => [] | Some err => [ARecordError err; ASetStatus (errorText err)] end.
Definition Span_SetAttributes (attrs : list (string * AnyVal)) : list AdapterEvent :=
  if (length attrs =? 0)%nat then [] else [ASetAttributes (convertAttributes attrs)].
(** Whatever order a map is iterated in, each of its keys is an attribute once,
    with its own value. *)
Lemma convertAttributes_exact (attrs : gmap string AnyVal) l : l ≡ₚ map_to_list attrs →
  NoDup (convertAttributes l).*1 ∧ ∀ k v, (k, v) ∈ convertAttributes l ↔ ∃ x, attrs !! k = Some x ∧ convertAttribute x = v.
Proof.
  intros Hl. split.
  - unfold convertAttributes. rewrite <- list_fmap_compose. assert ((fst ∘ prod_map id convertAttribute) <$> l = l.*1) as -> by (apply list_fmap_ext; by intros ? []).
    rewrite Hl. apply NoDup_fst_map_to_list.
  - intros k v. unfold convertAttributes. rewrite list_elem_of_fmap. split.
    + intros ([k' x] & [= -> ->] & Hin). rewrite Hl in Hin. apply elem_of_map_to_list in Hin. eauto.
    + intros (x & Hx & <-). exists (k, x). split; [done|]. rewrite Hl. by apply elem_of_map_to_list.
Qed.

(** * The exporter *)

(** [strings.IndexByte] and [strings.LastIndexByte]. *)
Fixpoint IndexByte (s : string) (c : ascii) : option nat :=
  match s with EmptyString => None | String a s => if Ascii.eqb a c then Some 0 else S <$> IndexByte s c end.
Fixpoint LastIndexByte (s : string) (c : ascii) : option nat :=
  match s with
  | EmptyString => None
  | String a s => match LastIndexByte s c with Some i => Some (S i) | None => if Ascii.eqb a c then Some 0 else None end
  end.
Definition slice (s : string) (i j : nat) : string := String.substring i (j - i) s.
Definition from (s : string) (i : nat) : string := slice s i (String.length s).
(** [net.SplitHostPort]: the host, [None] for an error. *)
Definition SplitHostPort (s : string) : option string :=
  match LastIndexByte s ":" with
  | None => None
  | Some i =>
    let checked host j k := if bool_decide (IndexByte (from s j) "[" = None) && bool_decide (IndexByte (from s k) "]" = None) then Some host else None in
    match s with
    | String "[" _ =>
      match IndexByte s "]" with
      | None => None
      | Some e => if (S e =? String.length s)%nat then None else if (S e =? i)%nat then checked (slice s 1 e) 1 (S e) else None
      end
    | _ => let host := slice s 0 i in if bool_decide (IndexByte host ":" = None) then checked host 0 0 else None
    end
  end.
Definition isLoopbackHost (endpoint : string) : bool :=
  let host := default endpoint (SplitHostPort endpoint) in
  String.eqb host "127.0.0.1" || String.eqb host "localhost" || String.eqb host "::1".
Definition splitHostPath (s : string) : string * string :=
  match IndexByte s "/" with Some i => (slice s 0 i, from s i) | None => (s, "") end.

Record URL := mkURL { u_Scheme : string; u_Host : string; u_Path : string }.
Record providerConfig := mkProviderConfig {
  pc_protocol : string; pc_endpoint : string; pc_insecure : option bool; pc_sampleRatio : string; pc_resourceAttrs : list (string * AttrVal); pc_hasProcessor : bool }.
Definition ProviderOption := providerConfig → providerConfig.
Definition WithExporterProtocol (p : string) : ProviderOption := λ c,
  mkProviderConfig p (pc_endpoint c) (pc_insecure c) (pc_sampleRatio c) (pc_resourceAttrs c) (pc_hasProcessor c).
Definition WithExporterEndpoint (e : string) : ProviderOption := λ c,
  mkProviderConfig (pc_protocol c) e (pc_insecure c) (pc_sampleRatio c) (pc_resourceAttrs c) (pc_hasProcessor c).
Definition WithInsecure (b : bool) : ProviderOption := λ c,
  mkProviderConfig (pc_protocol c) (pc_endpoint c) (Some b) (pc_sampleRatio c) (pc_resourceAttrs c) (pc_hasProcessor c).
Definition WithSampleRatio (r : string) : ProviderOption := λ c,
  mkProviderConfig (pc_protocol c) (pc_endpoint c) (pc_insecure c) r (pc_resourceAttrs c) (pc_hasProcessor c).
Definition WithResourceAttributes (attrs : list (string * AttrVal)) : ProviderOption := λ c,
  mkProviderConfig (pc_protocol c) (pc_endpoint c) (pc_insecure c) (pc_sampleRatio c) (pc_resourceAttrs c ++ attrs) (pc_hasProcessor c).
Definition WithSpanProcessor : ProviderOption := λ c,
  mkProviderConfig (pc_protocol c) (pc_endpoint c) (pc_insecure c) (pc_sampleRatio c) (pc_resourceAttrs c) true.

(** An exporter to be built: its transport, host, URL path, and whether it goes
    without TLS; an empty host or path leaves the one of the exporter. *)
Inductive Transport := OverHTTP | OverGRPC.
Record ExporterSpec := mkExporterSpec { ex_transport : Transport; ex_endpoint : string; ex_path : string; ex_insecure : bool }.
Record Provider := mkProvider { pv_resource : list (string * AttrVal); pv_exporter : option ExporterSpec; pv_sampleRatio : string; pv_processor : bool }.

Section provider.
Context (isPrint : N → bool) (urlParse : string → option URL) (toLower : string → string) (equalFold : string → string → bool).
(** [strconv.ParseFloat], of which only the error matters here, the merging of
    resources, and the constructors of the exporters. *)
Context (parseFloat : string → option error) (mergeErr : list (string * AttrVal) → option error) (newExporterErr : ExporterSpec → option error) (getenv : string → string).

Definition sanitizeEndpoint (endpoint : string) : string * string * bool :=
  if String.eqb endpoint "" then ("", "", false)
  else match CutPrefix endpoint "http://" with
  | Some rest => let '(host, p) := splitHostPath rest in (host, p, true)
  | None =>
    match CutPrefix endpoint "https://" with
    | Some rest => let '(host, p) := splitHostPath rest in (host, p, false)
    | None =>
      match urlParse endpoint with
      | Some u => if negb (String.eqb (u_Host u) "") then (u_Host u, u_Path u, String.eqb (u_Scheme u) "http") else (endpoint, "", false)
      | None => (endpoint, "", false)
      end
    end
  end.
Definition resolveInsecure (cfg : providerConfig) (endpoint : string) (isHTTP : bool) : bool :=
  match pc_insecure cfg with Some b => b | None => isHTTP || isLoopbackHost endpoint end.
Definition newHTTPExporter (endpoint path : string) (insecure : bool) : ExporterSpec + error :=
  let spec := mkExporterSpec OverHTTP endpoint path insecure in
  match newExporterErr spec with Some err => inr (Errorf "otel: failed to build OTLP HTTP exporter: %w" [] [err]) | None => inl spec end.
Definition newGRPCExporter (endpoint : string) (insecure : bool) : ExporterSpec + error :=
  let spec := mkExporterSpec OverGRPC endpoint "" insecure in
  match newExporterErr spec with Some err => inr (Errorf "otel: failed to build OTLP gRPC exporter: %w" [] [err]) | None => inl spec end.
Definition newExporter (cfg : providerConfig) : option ExporterSpec + error :=
  let '(endpoint, path, isHTTP) := sanitizeEndpoint (pc_endpoint cfg) in
  let insecure := resolveInsecure cfg endpoint isHTTP in
  let protocol := toLower (pc_protocol cfg) in
  let some (r : ExporterSpec + error) : option ExporterSpec + error := match r with inl s => inl (Some s) | inr err => inr err end in
  if String.eqb protocol "none" then inl None
  else if String.eqb protocol "http" || String.eqb protocol "http/protobuf" then some (newHTTPExporter endpoint path insecure)
  else if String.eqb protocol "grpc" || String.eqb protocol "" then some (newGRPCExporter endpoint insecure)
  else inr (Errorf "otel: unsupported OTLP exporter protocol %q" [pc_protocol cfg] []).

Definition envOrDefault (key fallback : string) : string := if negb (String.eqb (getenv key) "") then getenv key else fallback.
Definition envFloatOrDefault (key fallback : string) : string + error :=
  let v := getenv key in
  if String.eqb v "" then inl fallback
  else match parseFloat v with Some err => inr (Errorf "otel: invalid value %q for %s: %w" [v; key] [err]) | None => inl v end.
Definition NewProviderFromEnv (serviceName : string) (opts : list ProviderOption) : Provider + error :=
  match envFloatOrDefault "OTEL_TRACES_SAMPLER_ARG" "1.0" with
  | inr err => inr err
  | inl sampleRatio =>
    let val := getenv "OTEL_EXPORTER_OTLP_INSECURE" in
    let insecure := if negb (String.eqb val "") then Some (equalFold val "true" || String.eqb val "1") else None in
    let cfg := mkProviderConfig (envOrDefault "OTEL_EXPORTER_OTLP_PROTOCOL" "grpc") (getenv "OTEL_EXPORTER_OTLP_ENDPOINT") insecure sampleRatio [] false in
    let cfg := foldl (λ c opt, opt c) cfg opts in
    let res := ("service.name", KString serviceName) :: pc_resourceAttrs cfg in
    match mergeErr res with
    | Some err => inr (Errorf "otel: failed to build resource: %w" [] [err])
    | None => match newExporter cfg with inr err => inr err | inl exporter => inl (mkProvider res exporter (pc_sampleRatio cfg) (pc_hasProcessor cfg)) end
    end
  end.

(** Traces go without TLS exactly when that was asked for, or nothing was said
    about it and the endpoint is plain HTTP or on the loopback. *)
Theorem insecure_exact cfg spec : newExporter cfg = inl (Some spec) →
  ex_endpoint spec = (sanitizeEndpoint (pc_endpoint cfg)).1.1 ∧
  (ex_insecure spec = true ↔ pc_insecure cfg = Some true ∨
    pc_insecure cfg = None ∧ ((sanitizeEndpoint (pc_endpoint cfg)).2 = true ∨ isLoopbackHost (ex_endpoint spec) = true)).
Proof.
  unfold newExporter. destruct (sanitizeEndpoint (pc_endpoint cfg)) as [[endpoint path] isHTTP]. simpl.
  assert (resolveInsecure cfg endpoint isHTTP = true ↔ pc_insecure cfg = Some true ∨ pc_insecure cfg = None ∧ (isHTTP = true ∨ isLoopbackHost endpoint = true)) as Hi.
  { unfold resolveInsecure. destruct (pc_insecure cfg) as [[]|]; rewrite ?orb_true_iff; naive_solver. }
  unfold newHTTPExporter, newGRPCExporter. intros H. repeat (case_match; try done); simplify_eq; simpl; split; done.
Qed.
End provider.

(** ** Endpoints *)

Lemma IndexByte_app s c t : IndexByte s c = None → IndexByte (s +:+ String c t) c = Some (String.length s).
Proof.
  induction s as [|a s IH]; intros H.
  - change (IndexByte (String c t) c = Some 0). simpl. by rewrite Ascii.eqb_refl.
  - change (IndexByte (String a (s +:+ String c t)) c = Some (S (String.length s))). simpl in *. destruct (Ascii.eqb a c); [done|].
    rewrite IH; [done|]. by destruct (IndexByte s c).
Qed.
Lemma substring_app s t : String.substring 0 (String.length s) (s +:+ t) = s ∧ String.substring (String.length s) (String.length t) (s +:+ t) = t.
Proof.
  induction s as [|a s [IH1 IH2]].
  - split; [by destruct t|]. change ("" +:+ t) with t. simpl. by rewrite substring_full.
  - change (String a s +:+ t) with (String a (s +:+ t)). simpl. by rewrite IH1.
Qed.
(** A URL is taken apart into the host it was built from and the path. *)
Lemma endpoint_split urlParse host path : IndexByte host "/" = None → (path = "" ∨ ∃ p, path = String "/" p) →
  sanitizeEndpoint urlParse ("http://" +:+ host +:+ path) = (host, path, true) ∧ sanitizeEndpoint urlParse ("https://" +:+ host +:+ path) = (host, path, false).
Proof.
  intros Hh Hp. assert (splitHostPath (host +:+ path) = (host, path)) as Hs.
  { unfold splitHostPath. destruct Hp as [->|[p ->]].
    - by rewrite str_app_nil_r, Hh.
    - rewrite IndexByte_app by done. unfold from, slice. rewrite Nat.sub_0_r, length_str_app. destruct (substring_app host (String "/" p)) as [H1 H2].
      rewrite H1. f_equal. by replace (String.length host + String.length (String "/" p) - String.length host) with (String.length (String "/" p)) by lia. }
  unfold sanitizeEndpoint. rewrite (CutPrefix_app "http://"), (CutPrefix_app "https://"). simpl. by rewrite Hs.
Qed.

(** An https endpoint on the loopback is contacted without TLS. *)
Theorem https_loopback_plain urlParse newExporterErr : newExporterErr (mkExporterSpec OverGRPC "localhost:4317" "" true) = None →
  newExporter urlParse id newExporterErr (mkProviderConfig "grpc" "https://localhost:4317" None "1.0" [] false) =
    inl (Some (mkExporterSpec OverGRPC "localhost:4317" "" true)).
Proof.
  intros H. unfold newExporter. cbn [pc_endpoint pc_protocol]. change (sanitizeEndpoint urlParse "https://localhost:4317") with ("localhost:4317", "", false).
  unfold resolveInsecure. cbn [pc_insecure]. change (false || isLoopbackHost "localhost:4317") with true.
  change (newGRPCExporter newExporterErr "localhost:4317" true) with
    (match newExporterErr (mkExporterSpec OverGRPC "localhost:4317" "" true) with
     | Some err => inr (Errorf "otel: failed to build OTLP gRPC exporter: %w" [] [err]) | None => inl (mkExporterSpec OverGRPC "localhost:4317" "" true) end : ExporterSpec + error).
  by rewrite H.
Qed.
Example SplitHostPort_ex : SplitHostPort "[::1]:4317" = Some "::1" ∧ SplitHostPort "localhost:4317" = Some "localhost" ∧ SplitHostPort "::1" = None ∧
  SplitHostPort "host" = None ∧ SplitHostPort "[::1]" = None ∧ SplitHostPort ":80" = Some "" ∧ isLoopbackHost "[::1]:4317" = true ∧ isLoopbackHost "10.0.0.1:4317" = false.
Proof. vm_compute. repeat split. Qed.

(** A handler that fails, through the middleware and alone. *)
Definition failing (_ : Request) : Code WRes unit := _ ← call (WriteHeader 503); _ ← call (Write "busy"); mret tt.
Lemma failing_ok r : finalHeaders (failing r) ∧ plainWrites (failing r) ∧ agrees (St := Response) (failing r).
Proof. repeat split. Qed.
(** The event stream, on a writer that can flush. *)
Lemma eventStream_ok r : finalHeaders (eventStream r) ∧ agrees (St := Response) (eventStream r).
Proof. split; (split; [done|intros []; repeat split]); by eexists. Qed.
Lemma middleware_transparent_witness :
  (HTTPMiddleware [] failing (mkRequest "GET" "/") emptyResponse).2 = Some (tt, mkResponse [] (Some 503%Z) "busy" false 0) ∧
  SpanIntAttr "http.response.status_code" 503 ∈ (HTTPMiddleware [] failing (mkRequest "GET" "/") emptyResponse).1 ∧
  (HTTPMiddleware [] eventStream (mkRequest "GET" "/events") emptyResponse).2 = Some (tt, mkResponse [] (Some 200%Z) "data: 1" false 1).
Proof.
  destruct (middleware_transparent [] failing (mkRequest "GET" "/") emptyResponse (proj1 (failing_ok _)) (proj2 (proj2 (failing_ok _)))) as [H1 H2].
  split; [rewrite H1; vm_compute; reflexivity|]. split.
  - apply (H2 eq_refl (proj1 (proj2 (failing_ok _))) tt (mkResponse [] (Some 503%Z) "busy" false 0)). vm_compute. reflexivity.
  - rewrite (proj1 (middleware_transparent [] eventStream (mkRequest "GET" "/events") emptyResponse (proj1 (eventStream_ok _)) (proj2 (eventStream_ok _)))).
    vm_compute. reflexivity.
Defined.
