(* ===== verification/Tracing.v ===== *)
(** Trace contexts: the tracer of the manager (src/modulex.go) and its adapter to
    OpenTelemetry (src/otel/otel.go), and how a trace travels with a gRPC call
    (src/grpc/trace.go) and with the messages of the event buses
    (src/rabbitmq, src/nats, src/watermill).

    A carrier is any implementation of an interface with the documented behaviour
    of [propagation.TextMapCarrier]; the two of the repository are instances.  The
    global propagator is a parameter that touches a carrier only through that
    interface; so are the span contexts of OpenTelemetry. *)

From Stdlib Require Import Ascii.
From stdpp Require Import base gmap list strings.
From S2P Require Import Prelude GoStrings Otel.

(** * Carriers *)

(** Keys that [carrierKey] maps to the same string name the same entry. *)
Class TextMapCarrier (C : Type) := {
  carrierGet : C → string → string;
  carrierSet : C → string → string → C;
  carrierKey : string → string
}.
Class TextMapCarrierLaws (C : Type) `{TextMapCarrier C} :=
  get_set : ∀ (c : C) k k' v, carrierGet (carrierSet c k v) k' = if decide (carrierKey k = carrierKey k') then v else carrierGet c k'.

(** ** gRPC metadata *)

(** Keys are in lower case, each with its values. *)
Abbreviation MD := (gmap string (list string)).
Fixpoint lowerKey (s : string) : string :=
  match s with EmptyString => EmptyString | String a s => String (if byte_in 65 90 a then Ascii.ascii_of_N (Ascii.N_of_ascii a + 32) else a) (lowerKey s) end.
Definition carrier_Get (c : MD) (key : string) : string := match default [] (c !! lowerKey key) with [] => "" | v :: _ => v end.
Definition carrier_Set (c : MD) (key value : string) : MD := <[lowerKey key := [value]]> c.
Definition carrier_Keys (c : MD) : list string := (map_to_list c).*1.
#[export] Instance metadataCarrier : TextMapCarrier MD := {| carrierGet := carrier_Get; carrierSet := carrier_Set; carrierKey := lowerKey |}.
#[export] Instance metadataCarrier_laws : TextMapCarrierLaws MD.
Proof.
  intros c k k' v. simpl. unfold carrier_Get, carrier_Set. case_decide as E; [by rewrite E, lookup_insert_eq|by rewrite lookup_insert_ne].
Qed.

(** ** AMQP headers *)

(** A table of values of any type, of which the carrier reads the strings. *)
Abbreviation Table := (gmap string AnyVal).
Definition amqp_Get (c : Table) (key : string) : string := match c !! key with Some (VString v) => v | _ => "" end.
Definition amqp_Set (c : Table) (key value : string) : Table := <[key := VString value]> c.
Definition amqp_Keys (c : Table) : list string := (map_to_list c).*1.
#[export] Instance amqpHeadersCarrier : TextMapCarrier Table := {| carrierGet := amqp_Get; carrierSet := amqp_Set; carrierKey := id |}.
#[export] Instance amqpHeadersCarrier_laws : TextMapCarrierLaws Table.
Proof.
  intros c k k' v. simpl. unfold amqp_Get, amqp_Set, id. case_decide as E; [by rewrite E, lookup_insert_eq|by rewrite lookup_insert_ne].
Qed.

(** * Propagators *)

(** What a propagator writes for a trace, and how it reads one from the entries of
    a carrier, beside the trace of the context it is to be added to. *)
Record Propagator (T : Type) := mkPropagator { pr_fields : T → list (string * string); pr_names : list string; pr_read : T → (string → string) → T }.
Arguments mkPropagator {T}.
Arguments pr_fields {T}.
Arguments pr_names {T}.
Arguments pr_read {T}.

Section propagation.
Context {T : Type} (prop : Propagator T).

Definition Inject `{TextMapCarrier C} (t : T) (c : C) : C := foldl (λ c kv, carrierSet c kv.1 kv.2) c (pr_fields prop t).
Definition Extract `{TextMapCarrier C} (t : T) (c : C) : T := pr_read prop t (carrierGet c).

(** Only the declared names are written, each once; whoever reads what was written
    and nothing else has the trace; without entries the trace stays. *)
Class PropagatorLaws := {
  fields_named t k v : (k, v) ∈ pr_fields prop t → k ∈ pr_names prop;
  fields_nodup t : NoDup (pr_fields prop t).*1;
  read_written t0 t get : pr_fields prop t ≠ [] → (∀ k v, (k, v) ∈ pr_fields prop t → get k = v) →
    (∀ k, k ∈ pr_names prop → k ∉ (pr_fields prop t).*1 → get k = "") → pr_read prop t0 get = t;
  read_nothing t0 get : (∀ k, k ∈ pr_names prop → get k = "") → pr_read prop t0 get = t0
}.

(** The trace a receiver with trace [t0] works under when the sender's is [t]. *)
Definition continued (t0 t : T) : T := match pr_fields prop t with [] => t0 | _ => t end.

Section carried.
Context {C : Type} `{TextMapCarrierLaws C} `{!PropagatorLaws}.
(** The carrier does not confuse the names of the propagator. *)
Definition separate : Prop := ∀ k k', k ∈ pr_names prop → k' ∈ pr_names prop → carrierKey k = carrierKey k' → k = k'.
Definition holdsNone (c : C) : Prop := ∀ k, k ∈ pr_names prop → carrierGet c k = "".

Lemma injected_none l (c : C) k : (∀ k' v, (k', v) ∈ l → carrierKey k' ≠ carrierKey k) →
  carrierGet (foldl (λ c kv, carrierSet c kv.1 kv.2) c l) k = carrierGet c k.
Proof.
  revert c. induction l as [|[k' v] l IH]; intros c Hl; [done|]. simpl. rewrite IH by (intros; eapply Hl; by right).
  rewrite get_set, decide_False; [done|]. eapply Hl. left.
Qed.
Lemma injected_some l (c : C) k v : separate → (∀ k v, (k, v) ∈ l → k ∈ pr_names prop) → NoDup l.*1 → (k, v) ∈ l →
  carrierGet (foldl (λ c kv, carrierSet c kv.1 kv.2) c l) k = v.
Proof.
  intros Hs. revert c. induction l as [|[k' v'] l IH]; intros c Hn Hd Hin; [by apply elem_of_nil in Hin|].
  simpl in *. apply NoDup_cons in Hd as [Hk' Hd]. apply elem_of_cons in Hin as [[= -> ->]|Hin].
  - rewrite injected_none; [by rewrite get_set, decide_True|]. intros k2 v2 H2 E. apply Hk', list_elem_of_fmap. exists (k2, v2). split; [|done].
    symmetry. apply Hs; [eapply Hn; by right|eapply Hn; left|done].
  - apply IH; [|done..]. intros; eapply Hn; by right.
Qed.

(** Through any carrier that held nothing of the propagator's, the receiver works
    under the sender's trace if there is one, and under its own otherwise. *)
Lemma Extract_Inject t0 t (c : C) : separate → holdsNone c → Extract t0 (Inject t c) = continued t0 t.
Proof.
  intros Hs Hc. unfold Extract, Inject, continued. destruct (pr_fields prop t) as [|f l] eqn:E.
  - simpl. by apply read_nothing.
  - rewrite <- E. apply read_written.
    + by rewrite E.
    + intros k v Hin. apply injected_some; [done|apply fields_named|apply fields_nodup|done].
    + intros k Hk Hn. rewrite injected_none; [by apply Hc|]. intros k' v Hin Ek. apply Hn, list_elem_of_fmap. exists (k', v). split; [|done].
      symmetry. apply Hs; [by eapply fields_named|done|done].
Qed.
Lemma Extract_fresh t0 t (c : C) : separate → (∀ k, carrierGet c k = "") → Extract t0 (Inject t c) = continued t0 t.
Proof. intros Hs Hc. apply Extract_Inject; [exact Hs|]. intros k _. apply Hc. Qed.
End carried.
End propagation.
Arguments PropagatorLaws {T} prop.

(** * gRPC *)

(** What of a context matters here: its outgoing and incoming metadata, and the
    trace it carries. *)
Record Ctx (T : Type) := mkCtx { cx_outgoing : option MD; cx_incoming : option MD; cx_trace : T }.
Arguments mkCtx {T}.
Arguments cx_outgoing {T}.
Arguments cx_incoming {T}.
Arguments cx_trace {T}.

(** The header of a NATS message. *)
Abbreviation Header := (gmap string (list string)).

Section interceptors.
Context {T : Type} (prop : Propagator T).

Definition outgoingMetadata (ctx : Ctx T) : MD := default ∅ (cx_outgoing ctx).
Definition injecting (ctx : Ctx T) : Ctx T := mkCtx (Some (Inject prop (cx_trace ctx) (outgoingMetadata ctx))) (cx_incoming ctx) (cx_trace ctx).
Definition extracting (ctx : Ctx T) : Ctx T :=
  match cx_incoming ctx with Some md => mkCtx (cx_outgoing ctx) (cx_incoming ctx) (Extract prop (cx_trace ctx) md) | None => ctx end.
Definition TraceUnaryClientInterceptor {R} (ctx : Ctx T) (invoker : Ctx T → R) : R := invoker (injecting ctx).
Definition TraceUnaryServerInterceptor {R} (ctx : Ctx T) (handler : Ctx T → R) : R := handler (extracting ctx).
Definition TraceStreamClientInterceptor {R} (ctx : Ctx T) (streamer : Ctx T → R) : R := streamer (injecting ctx).
(** The stream is given by its context; the wrapper changes nothing else. *)
Record tracedServerStream := mkTraced { ts_ServerStream : Ctx T; ts_ctx : Ctx T }.
Definition traced_Context (s : tracedServerStream) : Ctx T := ts_ctx s.
Definition TraceStreamServerInterceptor {R} (ss : Ctx T) (handler : tracedServerStream → R) : R := handler (mkTraced ss (extracting ss)).

(** What the transport does: the outgoing metadata of the call arrives as the
    incoming one of the server, whose context is its own otherwise. *)
Definition transported (client : Ctx T) (server : T) : Ctx T := mkCtx None (cx_outgoing client) server.

Lemma Inject_other t (md : MD) k : (∀ n, n ∈ pr_names prop → lowerKey n ≠ k) → PropagatorLaws prop → Inject prop t md !! k = md !! k.
Proof.
  intros Hk Hp. unfold Inject. assert (∀ n v, (n, v) ∈ pr_fields prop t → lowerKey n ≠ k) as Hf by (intros n v Hin; apply Hk; by eapply fields_named).
  revert md. induction (pr_fields prop t) as [|[n v] l IH]; intros md; [done|]. simpl. rewrite IH by (intros; eapply Hf; by right).
  apply lookup_insert_ne. eapply Hf. left.
Qed.

(** A call that the client's interceptor makes and the server's receives: the
    handler runs under the trace of the caller if it has one, and sees the
    metadata the caller set under other keys unchanged. *)
Theorem trace_continues ctx server : PropagatorLaws prop → separate prop (C := MD) → holdsNone prop (outgoingMetadata ctx) →
  TraceUnaryClientInterceptor ctx (λ c, TraceUnaryServerInterceptor (transported c server) (λ h,
    cx_trace h = continued prop server (cx_trace ctx) ∧
    ∀ k, (∀ n, n ∈ pr_names prop → lowerKey n ≠ k) → (cx_incoming h ≫= (.!! k)) = (cx_outgoing ctx ≫= (.!! k)))) ∧
  TraceStreamClientInterceptor ctx (λ c, TraceStreamServerInterceptor (transported c server) (λ s,
    cx_trace (traced_Context s) = continued prop server (cx_trace ctx))).
Proof.
  intros Hp Hs Hn. unfold TraceUnaryClientInterceptor, TraceUnaryServerInterceptor, TraceStreamClientInterceptor, TraceStreamServerInterceptor, traced_Context, extracting, transported. simpl.
  split; [|apply (Extract_Inject prop); assumption]. split; [apply (Extract_Inject prop); assumption|]. intros k Hk. rewrite Inject_other by done. unfold outgoingMetadata. by destruct (cx_outgoing ctx).
Qed.

(** * Messages *)

(** A trace in the headers of a RabbitMQ message.  A delivery may come without a
    table at all. *)
Definition amqpHeaders (t : T) : Table := Inject prop t ∅.
Definition deliveryContext (handlerCtx : T) (headers : option Table) : T := Extract prop handlerCtx (default ∅ headers).

(** Of NATS headers and of the metadata of a Watermill message, the carriers are
    those of OpenTelemetry. *)
Section headers.
Context `{HeaderCarrier : TextMapCarrier Header} `{MapCarrier : TextMapCarrier (gmap string string)}.
Definition natsHeaders (t : T) : Header := Inject (H := HeaderCarrier) prop t ∅.
Definition messageContext (base : T) (header : option Header) : T :=
  match header with None => base | Some h => Extract (H := HeaderCarrier) prop base h end.
(** The trace under which the HTTP middleware of [Otel] starts the span of a
    request, and hands the request on. *)
Definition requestContext (base : T) (header : Header) : T := Extract (H := HeaderCarrier) prop base header.
Definition metadataOf (t : T) : gmap string string := Inject (H := MapCarrier) prop t ∅.
Definition extractMessageContext (subCtx : T) (m : gmap string string) : T := Extract (H := MapCarrier) prop subCtx m.

(** The header of a dead-lettered copy: a loop over the entries, in any order. *)
Definition deadLetterHeader (entries : list (string * list string)) : Header := foldl (λ h kv, <[kv.1 := kv.2]> h) ∅ entries.
Lemma deadLetterHeader_copies entries h : entries ≡ₚ map_to_list h → deadLetterHeader entries = h.
Proof.
  intros He. assert (NoDup entries.*1) as Hd by (rewrite He; apply NoDup_fst_map_to_list).
  assert (∀ l acc, NoDup l.*1 → foldl (λ h kv, <[kv.1 := kv.2]> h) acc l = (list_to_map l : Header) ∪ acc) as Hg.
  { induction l as [|[k v] l IH]; intros acc Hl; simpl in *; [by rewrite (left_id_L ∅ (∪))|]. apply NoDup_cons in Hl as [Hk Hl].
    rewrite IH by done. rewrite <- insert_union_l, <- insert_union_r; [done|]. by apply not_elem_of_list_to_map_1. }
  unfold deadLetterHeader. rewrite Hg by done. rewrite (right_id_L ∅ (∪)). rewrite <- (list_to_map_to_list h). by apply list_to_map_proper.
Qed.

Lemma request_trace_continues `{!@TextMapCarrierLaws Header HeaderCarrier} `{!PropagatorLaws prop} base t header :
  separate prop (H := HeaderCarrier) → holdsNone prop (H := HeaderCarrier) header →
  requestContext base (Inject (H := HeaderCarrier) prop t header) = continued prop base t.
Proof. intros Hs Hn. apply (Extract_Inject prop); assumption. Qed.

(** What a broker delivers of a header: the header; an empty one may be left out. *)
Definition delivered {H} (empty : H) (sent : H) (got : option H) : Prop := got = Some sent ∨ got = None ∧ sent = empty.

(** Whichever bus carries a message, its handler runs under the trace of whoever
    published it, or under that of the subscription when the publisher had none;
    and a dead-lettered copy is handled under the same trace. *)
Theorem bus_trace_continues `{!@TextMapCarrierLaws Header HeaderCarrier} `{!@TextMapCarrierLaws (gmap string string) MapCarrier} `{!PropagatorLaws prop} base t table header :
  separate prop (C := Table) → separate prop (H := HeaderCarrier) → separate prop (H := MapCarrier) →
  (∀ k, carrierGet (TextMapCarrier := HeaderCarrier) ∅ k = "") → (∀ k, carrierGet (TextMapCarrier := MapCarrier) ∅ k = "") →
  delivered ∅ (amqpHeaders t) table → delivered ∅ (natsHeaders t) header →
  deliveryContext base table = continued prop base t ∧
  messageContext base header = continued prop base t ∧
  extractMessageContext base (metadataOf t) = continued prop base t ∧
  (∀ h entries, header = Some h → entries ≡ₚ map_to_list h → messageContext base (Some (deadLetterHeader entries)) = continued prop base t).
Proof.
  intros Hst Hsh Hsm Heh Hem Ht Hh.
  assert (Extract (H := HeaderCarrier) prop base (natsHeaders t) = continued prop base t) as Hx by (apply (Extract_fresh prop); assumption).
  assert (messageContext base header = continued prop base t) as Hm.
  { destruct Hh as [->|[-> Hh]]; [exact Hx|]. rewrite <- Hx, Hh. symmetry. apply (read_nothing prop). intros k _. apply Heh. }
  split_and!; [|exact Hm|apply (Extract_fresh prop); assumption|].
  - assert (Extract prop base (amqpHeaders t) = continued prop base t) as <- by (apply (Extract_fresh prop); [assumption|done]).
    unfold deliveryContext. destruct Ht as [->|[-> ->]]; done.
  - intros h entries -> He. by rewrite (deadLetterHeader_copies _ _ He).
Qed.
End headers.
End interceptors.

(** ** A propagator of two fields *)

(** A trace has a parent, which is not empty, and a state, which may be. *)
Abbreviation Trace := (option (Ascii.ascii * string * string)).
Definition traceFields (t : Trace) : list (string * string) :=
  match t with
  | None => []
  | Some (a, p, s) => ("traceparent", String a p) :: if String.eqb s "" then [] else [("tracestate", s)]
  end.
Definition traceRead (t0 : Trace) (get : string → string) : Trace :=
  match get "traceparent" with EmptyString => t0 | String a p => Some (a, p, get "tracestate") end.
Definition traceContext : Propagator Trace := mkPropagator traceFields ["traceparent"; "tracestate"] traceRead.
#[export] Instance traceContext_laws : PropagatorLaws traceContext.
Proof.
  split.
  - intros [[[a p] s]|] k v H; [|by apply elem_of_nil in H]. simpl in *. destruct (String.eqb s ""); set_solver.
  - intros [[[a p] s]|]; simpl; [|constructor]. destruct (String.eqb s ""); simpl; repeat constructor; set_solver.
  - intros t0 [[[a p] s]|] get Hne Hw Hn; [|done]. simpl in *. unfold traceRead. rewrite (Hw "traceparent" (String a p)) by left. do 2 f_equal.
    destruct (String.eqb_spec s "") as [->|Hs]; [apply Hn; set_solver|apply Hw; set_solver].
  - intros t0 get Hn. simpl in *. unfold traceRead. by rewrite Hn by set_solver.
Qed.
Lemma trace_names k : k ∈ pr_names traceContext → k = "traceparent" ∨ k = "tracestate".
Proof. simpl. set_solver. Qed.
(** Carriers that use keys as they are. *)
Definition exactHeader : TextMapCarrier Header :=
  {| carrierGet h k := match default [] (h !! k) with [] => "" | v :: _ => v end; carrierSet h k v := <[k := [v]]> h; carrierKey := id |}.
Definition exactMap : TextMapCarrier (gmap string string) :=
  {| carrierGet m k := default "" (m !! k); carrierSet m k v := <[k := v]> m; carrierKey := id |}.
Lemma exactHeader_laws : @TextMapCarrierLaws Header exactHeader.
Proof. intros c k k' v. simpl. unfold id. case_decide as E; [by rewrite E, lookup_insert_eq|by rewrite lookup_insert_ne]. Qed.
Lemma exactMap_laws : @TextMapCarrierLaws (gmap string string) exactMap.
Proof. intros c k k' v. simpl. unfold id. case_decide as E; [by rewrite E, lookup_insert_eq|by rewrite lookup_insert_ne]. Qed.

Definition aTrace : Trace := Some ("0"%char, "0-4bf9-00f0-01", "vendor=1").
Lemma trace_continues_witness : TraceUnaryClientInterceptor traceContext (mkCtx (Some {[ "user" := ["ann"] ]}) None aTrace) (λ c,
  TraceUnaryServerInterceptor traceContext (transported c None) (λ h, cx_trace h = aTrace ∧ (cx_incoming h ≫= (.!! "user")) = Some ["ann"])).
Proof.
  pose proof (trace_continues traceContext (mkCtx (Some {[ "user" := ["ann"] ]}) None aTrace) None _) as Hc.
  destruct Hc as [[H1 H2] _].
  - intros k k' [-> | ->]%trace_names [-> | ->]%trace_names E; done.
  - intros k [-> | ->]%trace_names; reflexivity.
  - split; [exact H1|]. rewrite H2; [reflexivity|]. intros n [-> | ->]%trace_names; done.
Defined.
Lemma bus_trace_continues_witness :
  deliveryContext traceContext None (Some (amqpHeaders traceContext aTrace)) = aTrace ∧
  messageContext traceContext (HeaderCarrier := exactHeader) None (Some (natsHeaders traceContext (HeaderCarrier := exactHeader) aTrace)) = aTrace.
Proof.
  destruct (bus_trace_continues traceContext (HeaderCarrier := exactHeader) (MapCarrier := exactMap) (H := exactHeader_laws) (H0 := exactMap_laws)
    None aTrace (Some (amqpHeaders traceContext aTrace)) (Some (natsHeaders traceContext (HeaderCarrier := exactHeader) aTrace))) as (H1 & H2 & _);
    [by intros k k' _ _|by intros k k' _ _|by intros k k' _ _|reflexivity|reflexivity|by left|by left|].
  split; [exact H1|exact H2].
Defined.
(** A header that is no string is none to the carrier, and nothing is continued. *)
Example untyped_header_ignored : deliveryContext traceContext None (Some {[ "traceparent" := VOther None "00-4bf9" ]}) = None.
Proof. vm_compute. reflexivity. Qed.

(** * The tracer of the manager *)

Section tracers.
(** OpenTelemetry's span contexts and the contexts that hold them. *)
Context {OTelSC Context_ : Type} (otelIsValid : OTelSC → bool) (otelTraceID otelSpanID : OTelSC → string).
Context (otelFrom : Context_ → OTelSC) (otelWith : Context_ → OTelSC → Context_) (otelStart : Context_ → string → list (string * AttrVal) → Context_).

(** What the interface [SpanContext] may hold: the one of the tracer that does
    nothing, a pointer of the adapter, or another implementation by its answers. *)
Inductive SpanContext := noopSpanContext | otelSpanContext (p : option OTelSC) | otherSpanContext (valid : bool) (traceID spanID : string).
Definition IsValid (sc : SpanContext) : bool :=
  match sc with
  | noopSpanContext => false
  | otelSpanContext p => match p with Some sc => otelIsValid sc | None => false end
  | otherSpanContext valid _ _ => valid
  end.
Definition TraceID (sc : SpanContext) : string :=
  match sc with
  | noopSpanContext => ""
  | otelSpanContext p => match p with Some sc => otelTraceID sc | None => "" end
  | otherSpanContext _ traceID _ => traceID
  end.
Definition SpanID (sc : SpanContext) : string :=
  match sc with
  | noopSpanContext => ""
  | otelSpanContext p => match p with Some sc => otelSpanID sc | None => "" end
  | otherSpanContext _ _ spanID => spanID
  end.

(** What is done with a span: nothing, or the events of the adapter. *)
Inductive Span := noopSpan | otelSpan.
Definition span_End (s : Span) : list AdapterEvent := match s with noopSpan => [] | otelSpan => [AEnd] end.
Definition span_RecordError (s : Span) (err : option error) : list AdapterEvent := match s with noopSpan => [] | otelSpan => Span_RecordError err end.
Definition span_SetAttributes (s : Span) (attrs : list (string * AnyVal)) : list AdapterEvent := match s with noopSpan => [] | otelSpan => Span_SetAttributes attrs end.

Record Tracer := mkTracer {
  tr_Start : Context_ → string → list (string * AnyVal) → Context_ * Span;
  tr_SpanContextFromContext : Context_ → SpanContext;
  tr_ContextWithSpanContext : Context_ → option SpanContext → Context_
}.
Definition noopTracer : Tracer := mkTracer (λ ctx _ _, (ctx, noopSpan)) (λ _, noopSpanContext) (λ ctx _, ctx).
(** The adapter; a nil span context, a nil pointer and a foreign one leave the
    context as it is. *)
Definition otel_Start (ctx : Context_) (name : string) (attrs : list (string * AnyVal)) : Context_ * Span :=
  (otelStart ctx name (if (0 <? length attrs)%nat then convertAttributes attrs else []), otelSpan).
Definition otel_SpanContextFromContext (ctx : Context_) : SpanContext := otelSpanContext (Some (otelFrom ctx)).
Definition otel_ContextWithSpanContext (ctx : Context_) (sc : option SpanContext) : Context_ :=
  match sc with
  | None => ctx
  | Some (otelSpanContext (Some s)) => otelWith ctx s
  | Some _ => ctx
  end.
Definition otelTracer : Tracer := mkTracer otel_Start otel_SpanContextFromContext otel_ContextWithSpanContext.

(** What [startSpan] logs. *)
Inductive SpanLog := SpanStarted (spanName traceID spanID parentSpanID : string).
Definition startSpan (tracer : Tracer) (debug : Context_ → bool) (ctx : Context_) (spanName : string) (attrs : list (string * AnyVal)) : Context_ * Span * list SpanLog :=
  let parentSC := tr_SpanContextFromContext tracer ctx in
  let '(childCtx, span) := tr_Start tracer ctx spanName attrs in
  let childSC := tr_SpanContextFromContext tracer childCtx in
  (childCtx, span,
   if IsValid childSC then if debug childCtx then [SpanStarted spanName (TraceID childSC) (SpanID childSC) (SpanID parentSC)] else [] else []).

(** Without a tracer a span is no more than its code: the context is the caller's,
    nothing is logged, and nothing done to the span has an effect. *)
Lemma noop_transparent debug ctx name attrs err :
  startSpan noopTracer debug ctx name attrs = (ctx, noopSpan, []) ∧
  span_End noopSpan = [] ∧ span_RecordError noopSpan err = [] ∧ span_SetAttributes noopSpan attrs = [] ∧
  ∀ sc, tr_ContextWithSpanContext noopTracer ctx sc = ctx.
Proof. done. Qed.

(** A span context taken from one context and put into another is the one found
    there, and the log of a span names the child's ids beside its parent's. *)
Lemma span_context_moves ctx ctx' : (∀ c s, otelFrom (otelWith c s) = s) →
  tr_SpanContextFromContext otelTracer (tr_ContextWithSpanContext otelTracer ctx (Some (tr_SpanContextFromContext otelTracer ctx'))) =
    tr_SpanContextFromContext otelTracer ctx'.
Proof. intros Hlaw. simpl. unfold otel_SpanContextFromContext. by rewrite Hlaw. Qed.
Lemma span_logged debug ctx name attrs : debug (startSpan otelTracer debug ctx name attrs).1.1 = true →
  let child := otelFrom (startSpan otelTracer debug ctx name attrs).1.1 in otelIsValid child = true →
  (startSpan otelTracer debug ctx name attrs).2 = [SpanStarted name (otelTraceID child) (otelSpanID child) (otelSpanID (otelFrom ctx))].
Proof. unfold startSpan. simpl. by intros -> ->. Qed.
End tracers.
